(* ===== verification/_CoqProject ===== *)
-Q . S2P
Prelude.v
Store.v
Avro.v
Json.v
Text.v
Runtime.v
Model.v
TopicConfig.v
Broadcast.v
Throttle.v
Schema.v
Dequeue.v
GroupBatch.v
Enqueue.v
Lifecycle.v
Concurrency.v
ConsumerGroup.v
Reaper.v
ReaperSchedule.v
Replay.v
Query.v
RowLocks.v
Claiming.v
GroupClaiming.v
GroupGaps.v
System.v
Throughput.v
Errors.v
Caches.v
Metrics.v
Users.v
Grpc.v
ColumnTypes.v
Client.v
Consumer.v
EndToEnd.v
Http.v
Handlers.v
Routes.v
Config.v
Boot.v
Shutdown.v
Float64.v
LoadReport.v
LoadTest.v
Admin.v
Seeder.v
SeederCommand.v
AdminServer.v
Pipeline.v
Scenarios.v
ClientScenarios.v
OperationsScenarios.v
