(* ===== verification/Prelude.v ===== *)
(** * queue-ti: a PostgreSQL-backed message queue

    This library is a model of the Go program of this repository, with the theorems that say
    what it does.  The program is a service ([backend/]) that keeps messages in PostgreSQL and
    offers them over gRPC and HTTP, a Go client ([clients/go-client/]), a tool that
    provisions a server ([tools/seeder/]) and a load test ([backend/cmd/loadtest/]).

    ** The program

    A message is a row of [messages].  [Enqueue] inserts it, or overwrites the pending row of
    the same key; a trigger inserts a row of [message_deliveries] for every consumer group of
    its topic.  [Dequeue] and [DequeueN] claim pending rows of [messages] with [FOR UPDATE SKIP
    LOCKED]; [DequeueForGroup] and [DequeueNForGroup] claim deliveries.  A claimed row is
    [processing] until it is settled: [Ack] archives and deletes it, [Nack] makes it pending
    again, marks it failed or moves it to the topic with the suffix [.dlq], from which
    [Requeue] brings it back; the group variants settle a delivery, and the last one removes
    the message.  Reapers expire and delete old rows; [ReplayTopic] inserts copies of archived
    messages.  A topic may have a configuration, cached in the process and in a shared cache,
    an Avro schema, likewise cached, and a throughput limit, a token bucket.  Changes are
    broadcast to other processes, which evict their entries.  Users hold grants; the gRPC
    interceptor and the HTTP middleware turn tokens into claims, and handlers check grants.

    ** How it is modelled

    [Runtime] has the monad of the service: a function of an environment [Env] (the clocks, the
    uuids, the rows that other transactions have locked) and a [World] (the tables, the tables
    as the open transaction sees them, the three caches, what was broadcast and counted, and
    the fates of the round trips to come).  A round trip works, fails, or is carried out and
    then reported as failed, so every theorem that does not ask for [w_faults w = []] also
    speaks of lost connections.  Each Go method is one definition of its name, with the
    statements, early returns and recorder calls of the source in their order; each SQL
    statement is one definition [sql_...] on the tables.  Times are integers (nanoseconds in
    Go, microseconds in PostgreSQL) with Go's wrap-around where it can occur ([wrap64],
    [int32], [uint32]); float8 is abstract, with
    its rounding as laws where a theorem is about it ([Throughput.Float8Laws]); Go's float64 is
    [Float64].  What is not the program's own code is a class
    with laws that state its documentation: PostgreSQL's sorting and float8 ([Postgres]), the
    shared cache ([Storage]), JSON and Avro texts ([Codecs], [Wire]), bcrypt, JWT, fiber, time
    layouts, viper, Prometheus and when the servers stop waiting ([Graceful]).  [Model], [Scenarios],
    [ClientScenarios] and [OperationsScenarios] instantiate all of them with concrete
    functions.

    A method has a reference definition on the tables ([..._on_tables]) and a lemma
    [..._implements]: without faults the method returns what the reference returns and leaves
    the tables it leaves; with faults it does so or does nothing, and says so.  [op], [body] and
    [in_tx] relate the tables before and after a method by any preorder, from its statements;
    [preserves] does so for properties of the world, [calm] for methods whose only failures
    without faults are their own.

    ** The files

    - [Prelude]: results, 64-bit arithmetic, prefixes and suffixes, maps, tactics, hints.
    - [Store]: the tables of [internal/db/migrations] with the partial unique index on keys,
      the foreign key, the checks and the trigger; the invariant [db_ok].
    - [Avro], [Json], [Text]: [validateJSONAgainstAvro] of [queue/schema.go]; Go's JSON
      decoding and encoding of structs and integers; base64, splitting, escaping of paths,
      UTF-8.
    - [Runtime], [Model]: the monad above; concrete instances for computing.
    - [TopicConfig], [Broadcast], [Schema]: [queue/topic_config.go], [queue/schema.go],
      [cache/], [broadcast/]; the caches, and a process that listens to the broadcasts.
    - [Throttle], [Dequeue], [GroupBatch], [Enqueue], [Lifecycle], [ConsumerGroup], [Reaper],
      [Replay], [Query]: the other files of [internal/queue], each method.
    - [Concurrency]: [AckForGroup] statement by statement, beside others.
    - [RowLocks]: transactions on the rows of one table as a step relation, with snapshots,
      row locks, [SKIP LOCKED], the second look at changed rows and rollbacks.  [Claiming]: the
      transactions on [messages]; [GroupClaiming]: those on [message_deliveries];
      [GroupGaps]: a registration beside an enqueue, and an enqueue with the key of a message
      that a group has.  [ReaperSchedule]: updates of the reaper's schedule, beside others.
    - [System]: histories of calls.  [Throughput]: the throughput limit over time.  [Errors]:
      what an error means.  [ColumnTypes]: the widths of the columns.  [Caches]: the caches in
      every state without faults.
    - [Metrics]: [internal/metrics].  [Users]: [internal/users] and tokens.
    - [Grpc]: [server/grpc.go], [auth/interceptor.go].  [Http], [Handlers], [Routes]:
      [server/handlers_*.go], [server/middleware.go], [auth/jwt_middleware.go],
      [server/http.go].  [Config], [Boot]: [internal/config], [internal/db/postgres.go] and
      [cmd/server/main.go] up to the running servers; [Shutdown]: the rest of it.
    - [Float64], [LoadReport], [LoadTest]: Go's float64; the statistics and texts of
      [cmd/loadtest/main.go]; its goroutines on the gRPC service.
    - [Client], [Consumer], [Admin]: the Go client; [Consume] is a transition relation,
      [ConsumeBatch] and the refresher are functions of what each turn meets.
    - [EndToEnd]: a consumer of the client on the service.  [AdminServer]: the admin client on
      the HTTP server.  [Seeder], [SeederCommand]: the seeder, against the interface
      [AdminLaws] that [AdminServer] discharges.  [Pipeline]: the example
      [examples/order-pipeline], its goroutines interleaved with the server.
    - [Scenarios], [ClientScenarios], [OperationsScenarios]: every conditional theorem at a
      concrete input.

    ** What the theorems show

    - Intake: [Enqueue] does what its reference does; what it stores; the depth bound; a schema
      governs what is accepted; the validator refuses nothing that conforms to the schema as
      Avro means it, accepts exactly that of the types it checks, and is lenient elsewhere.
    - Delivery: a dequeue claims the oldest eligible unlocked rows, alone, in batches and for
      groups; the throughput limit bounds what is handed out in a stretch of time, whatever the
      order of the clocks and with rounding counted.  Under every interleaving of the
      statements of dequeues, settlements, enqueues, reapers, replays and purges no message is
      handed out twice, nor a delivery to its group, and an undisturbed claim is the atomic one
      of [Dequeue].
    - Settlement: acknowledgements remove and archive; the fates of a rejected message, alone
      and for groups; retries end; promotion and requeueing; all groups must acknowledge; what
      concurrent acknowledgements keep, and the message they can leave behind; a message that is not
      settled is never delivered again; the two ways in which a group misses a message.
    - Upkeep: the reapers, replay, registration of groups, the constraints and the types of the
      columns in every reachable state, the caches in every state without faults, listeners
      that converge, counters that count; an error other than a lost round trip means that
      nothing was changed; the schedule, and the cron instance that two overlapping updates
      leave behind.
    - Access: grants over gRPC, the routes of the HTTP server, the life of a session, the user
      tables.
    - The process: the state after start-up; that it stops after a signal once its clients have
      closed their connections, unless somebody is subscribed, and that it does not stop then.
    - Clients: the outcome of a handler decides the fate of its message; a message that is
      always refused reaches the dead-letter topic, except in the pipeline of the example,
      where no dead letter ever appears; the consumer's invariant and its return; expiry and
      renewal of tokens; what an administrator's request and a seed file do to the server; what
      the figures of a load test say about the queue; its percentiles and its texts.

    ** Fuel and bounds

    Loops over lists are structural.  [Concurrency.statements 5] is the number of statements of
    [AckForGroup] before its commit.  [FormatInt] has one unit of fuel per bit, more than the
    digits.  Loops that wait ([Subscribe], [Consume], [ConsumeBatch], the refresher, the
    reapers' tickers) are functions of the list of what their turns meet, or relations.  Limits
    of 2^53 are those to which float8 represents every integer, and 2^38 samples those for
    which the index of a percentile is exact.  [Shutdown.work] counts down what is left of a
    shutdown.

    ** Not modelled

    - Parameters: the texts of JSON and Avro documents, bcrypt, JWT, cron expressions, fiber's
      routing and body parsing, time layouts, HTTP transport, viper, Prometheus, the outcome of
      migrations and of the connection pool, the parsing of flags.
    - The buffers behind the texts that fiber gives to handlers: they are values here, although
      a path parameter that [ReplayTopic] makes a key of the configuration cache changes with
      the requests that come later.
    - Ids that are no uuids, NUL bytes in texts and invalid UTF-8, which PostgreSQL or Go's JSON
      refuse or replace; log lines; traces.
    - Interleavings of statements except in [Concurrency], the files on [RowLocks],
      [GroupGaps], [ReaperSchedule] and [Broadcast]: elsewhere a transaction is atomic, and the
      rows other transactions hold are its environment's.
    - The progress lines of the load test; the generated protobuf code; the web interface and
      the clients in other languages.

    ** Plan

    Next: the shared cache in [Broadcast]; [Float64] as an instance of [Throughput.Float8Laws]. *)

From stdpp Require Export base tactics gmap strings list list_numbers fin_maps relations sorting.
From Stdlib Require Export ZArith Lia.
From Stdlib Require Export Ascii.

#[global] Open Scope Z_scope.

(** ** Results of fallible code *)

(** A Go function returning [(A, error)], or an SQL statement. *)
Inductive result (E A : Type) : Type :=
| Ok (a : A)
| Err (e : E).
Arguments Ok {E A} a.
Arguments Err {E A} e.

Definition is_ok {E A} (r : result E A) : bool :=
  match r with Ok _ => true | Err _ => false end.

(** A run is its result and its final state. *)
Lemma run_eta {A B} (p : A * B) a : p.1 = a → p = (a, p.2).
Proof. destruct p; simpl. by intros ->. Qed.

(** ** Go's [strings] functions *)

(** [strings.HasPrefix(s, p)] *)
Fixpoint HasPrefix (s p : string) : bool :=
  match p, s with
  | EmptyString, _ => true
  | String _ _, EmptyString => false
  | String a p', String b s' => bool_decide (a = b) && HasPrefix s' p'
  end.

(** [strings.HasSuffix(s, suf)]; also SQL's [s LIKE '%suf'] for a [suf]
    without wildcards. *)
Fixpoint HasSuffix (s suf : string) : bool :=
  bool_decide (s = suf) ||
  match s with EmptyString => false | String _ s' => HasSuffix s' suf end.

(** [strings.CutSuffix(s, suf)]: the text before the suffix, if it is there. *)
Fixpoint CutSuffix (s suf : string) : option string :=
  if bool_decide (s = suf) then Some EmptyString
  else match s with
       | EmptyString => None
       | String c s' => String c <$> CutSuffix s' suf
       end.

Lemma HasPrefix_spec s p : HasPrefix s p = true ↔ ∃ t, s = (p +:+ t)%string.
Proof.
  revert s. induction p as [|a p IH]; intros s.
  - split; [by exists s | by destruct s].
  - destruct s as [|b s]; simpl.
    + split; [done | by intros [t Ht]].
    + rewrite andb_true_iff, bool_decide_eq_true, IH. split.
      * intros [-> [t ->]]. by exists t.
      * intros [t [= -> ->]]. split; [done|by exists t].
Qed.

Lemma HasSuffix_spec s suf : HasSuffix s suf = true ↔ ∃ t, s = (t +:+ suf)%string.
Proof.
  induction s as [|c s IH]; simpl;
    rewrite orb_true_iff, bool_decide_eq_true.
  - split; [intros [<-|?]; [by exists ""%string|done]|].
    intros [[|? t] Ht]; simpl in *; [by left|done].
  - rewrite IH. split.
    + intros [<-|[t ->]]; [by exists ""%string | by exists (String c t)].
    + intros [[|? t] Ht]; simpl in *; [by left|].
      injection Ht as -> ->. right. by exists t.
Qed.

Lemma string_length_app s t :
  String.length (s +:+ t) = (String.length s + String.length t)%nat.
Proof. induction s as [|c s IH]; [done|]. change (S (String.length (s +:+ t)) = S (String.length s + String.length t)%nat). by rewrite IH. Qed.

Lemma string_app_assoc s t u : ((s +:+ t) +:+ u)%string = (s +:+ (t +:+ u))%string.
Proof.
  induction s as [|c s IH]; [done|].
  change (String c ((s +:+ t) +:+ u) = String c (s +:+ (t +:+ u)))%string. by rewrite IH.
Qed.

Lemma string_app_id t s : (t +:+ s)%string = s → t = ""%string.
Proof.
  intros H. apply (f_equal String.length) in H. rewrite string_length_app in H.
  destruct t; simpl in *; [done|lia].
Qed.

Lemma CutSuffix_spec s suf t :
  CutSuffix s suf = Some t ↔ s = (t +:+ suf)%string.
Proof.
  assert (∀ u t', Some ""%string = Some t' ↔ u = (t' +:+ u)%string) as Hid.
  { intros u t'. split; [by intros [= <-]|].
    intros Hu. symmetry in Hu. by apply string_app_id in Hu as ->. }
  revert t. induction s as [|c s IH]; intros t; simpl; case_bool_decide as Hs.
  - subst suf. apply (Hid EmptyString).
  - split; [done|]. destruct t as [|c t]; intros Ht; by simpl in Ht.
  - subst suf. apply Hid.
  - rewrite fmap_Some. split.
    + intros (t' & Ht' & ->). apply IH in Ht'. simpl. by rewrite Ht'.
    + destruct t as [|c' t]; [by intros Ht; destruct Hs|].
      intros [= -> ->]. exists t. by rewrite (proj2 (IH t)).
Qed.

Lemma CutSuffix_None s suf : CutSuffix s suf = None ↔ HasSuffix s suf = false.
Proof.
  rewrite <-not_true_iff_false, HasSuffix_spec.
  destruct (CutSuffix s suf) as [t|] eqn:Hc.
  - apply CutSuffix_spec in Hc. naive_solver.
  - split; [|done]. intros _ [t Ht]. apply CutSuffix_spec in Ht. congruence.
Qed.

(** ** Machine integers *)

(** Two's-complement wrap-around of Go's 64-bit [int] and [time.Duration]. *)
Definition wrap64 (z : Z) : Z := (z + 2 ^ 63) `mod` 2 ^ 64 - 2 ^ 63.

Lemma wrap64_id z : - 2 ^ 63 ≤ z < 2 ^ 63 → wrap64 z = z.
Proof. intros H. unfold wrap64. rewrite Z.mod_small; lia. Qed.

Lemma wrap64_range z : - 2 ^ 63 ≤ wrap64 z < 2 ^ 63.
Proof. unfold wrap64. pose proof (Z.mod_pos_bound (z + 2 ^ 63) (2 ^ 64)). lia. Qed.

(** Values an SQL [INT] column holds. *)
Definition int4 (z : Z) : Prop := - 2 ^ 31 ≤ z < 2 ^ 31.
#[export] Instance int4_dec z : Decision (int4 z).
Proof. unfold int4. apply _. Defined.

(** [time.Second], in the nanoseconds of a [time.Duration]. *)
Definition Second : Z := 1000000000.

(** [int(d.Seconds())]: the whole seconds of a duration, towards zero. The
    [float64] the code goes through is exact for the whole-second durations of
    the two APIs. *)
Definition duration_seconds (d : Z) : Z := Z.quot d Second.

(** A Go instant, in nanoseconds, as the driver writes it to a [TIMESTAMPTZ]
    column, in microseconds. *)
Definition pg_of_go (t : Z) : Z := t `div` 1000.

(** ** Finite maps *)

(** The rows a query [INSERT ... SELECT] computes from the rows of a table. *)
Definition map_collect `{Countable K, Countable K'} {V V'}
    (f : K → V → option (K' * V')) (m : gmap K V) : gmap K' V' :=
  list_to_map (omap (λ kv, f kv.1 kv.2) (map_to_list m)).

Section map_collect.
Context `{Countable K, Countable K'} {V V' : Type}.
Implicit Types (m : gmap K V) (f : K → V → option (K' * V')).

Lemma NoDup_omap_keys f (l : list (K * V)) :
  NoDup l.*1 →
  (∀ k1 v1 k2 v2 k' a b, (k1, v1) ∈ l → (k2, v2) ∈ l →
     f k1 v1 = Some (k', a) → f k2 v2 = Some (k', b) → k1 = k2) →
  NoDup (omap (λ kv, f kv.1 kv.2) l).*1.
Proof.
  induction l as [|[k v] l IH]; intros Hnd Hinj; simpl; [constructor|].
  apply NoDup_cons in Hnd as [Hk Hnd].
  assert (NoDup (omap (λ kv, f kv.1 kv.2) l).*1) as IH'.
  { apply IH; [done|]. intros ???????????. eapply Hinj; eauto; by right. }
  destruct (f k v) as [[k' a]|] eqn:Hf; simpl; [|done].
  constructor; [|done]. intros ([? b]&?&Hin)%list_elem_of_fmap; simplify_eq/=.
  apply list_elem_of_omap in Hin as ([k2 v2]&Hin&Hf2); simpl in *.
  assert (k = k2) as <- by (eapply Hinj; [by left | by right | done..]).
  apply Hk. apply list_elem_of_fmap. by exists (k, v2).
Qed.

Lemma lookup_map_collect f m k' v' :
  (∀ k1 v1 k2 v2 k' a b, m !! k1 = Some v1 → m !! k2 = Some v2 →
     f k1 v1 = Some (k', a) → f k2 v2 = Some (k', b) → k1 = k2) →
  map_collect f m !! k' = Some v' ↔
  ∃ k v, m !! k = Some v ∧ f k v = Some (k', v').
Proof.
  intros Hinj. unfold map_collect. rewrite <-elem_of_list_to_map.
  - rewrite list_elem_of_omap. split.
    + intros ([k v] & Hin%elem_of_map_to_list & Hf). eauto.
    + intros (k & v & Hin & Hf). exists (k, v). by rewrite elem_of_map_to_list.
  - apply NoDup_omap_keys; [apply NoDup_fst_map_to_list|].
    intros ??????? ?%elem_of_map_to_list ?%elem_of_map_to_list. by eapply Hinj.
Qed.
End map_collect.

(** An [UPDATE ... WHERE] over a whole table. *)
Definition map_update `{Countable K} {V} (P : K → V → Prop)
    `{∀ k v, Decision (P k v)} (f : V → V) (m : gmap K V) : gmap K V :=
  map_imap (λ k v, Some (if decide (P k v) then f v else v)) m.

Section map_update.
Context `{Countable K} {V : Type} (P : K → V → Prop) `{∀ k v, Decision (P k v)} (f : V → V).
Implicit Types m : gmap K V.

Lemma lookup_map_update m k :
  map_update P f m !! k = (λ v, if decide (P k v) then f v else v) <$> m !! k.
Proof. unfold map_update. rewrite map_lookup_imap. by destruct (m !! k). Qed.

Lemma lookup_map_update_Some m k w :
  map_update P f m !! k = Some w ↔
  ∃ v, m !! k = Some v ∧ w = (if decide (P k v) then f v else v).
Proof. rewrite lookup_map_update, fmap_Some. done. Qed.

Lemma map_update_ext (Q : K → V → Prop) `{∀ k v, Decision (Q k v)} m :
  (∀ k v, P k v ↔ Q k v) → map_update P f m = map_update Q f m.
Proof.
  intros HQ. apply map_eq. intros k. rewrite lookup_map_update.
  unfold map_update. rewrite map_lookup_imap.
  destruct (m !! k) as [v|]; simpl; [|done]. f_equal.
  specialize (HQ k v). repeat case_decide; naive_solver.
Qed.

Lemma map_update_none m :
  map_Forall (λ k v, ¬ P k v) m → map_update P f m = m.
Proof.
  intros Hm. apply map_eq. intros k. rewrite lookup_map_update.
  destruct (m !! k) as [v|] eqn:Hk; simpl; [|done].
  rewrite decide_False; [done|by apply (Hm k v)].
Qed.

Lemma dom_map_update m : dom (map_update P f m) = dom m.
Proof.
  apply set_eq. intros k. rewrite !elem_of_dom, lookup_map_update.
  by rewrite fmap_is_Some.
Qed.
End map_update.

(** ** Filters *)

Lemma filter_fmap {A B} (f : A → B) (P : B → Prop) `{∀ b, Decision (P b)} (l : list A) :
  filter P (f <$> l) = f <$> filter (λ a, P (f a)) l.
Proof.
  induction l as [|a l IH]; [done|]. rewrite fmap_cons, !filter_cons, IH. by case_decide.
Qed.

Lemma StronglySorted_filter {A} (R : relation A) (P : A → Prop) `{∀ a, Decision (P a)} (l : list A) :
  StronglySorted R l → StronglySorted R (filter P l).
Proof.
  induction 1 as [|a l _ IH Hall]; [constructor|]. rewrite filter_cons. case_decide; [|done].
  constructor; [done|]. apply Forall_forall. intros x [_ Hx]%list_elem_of_filter.
  by eapply Forall_forall in Hall.
Qed.

(** ** Proof automation *)

Create HintDb queueti.

(** Case analysis on every [match] of the goal or the context, clearing the
    impossible branches on the way. *)
Ltac split_cases :=
  repeat (case_match; simplify_eq/=; try done).

(** Turn boolean tests in the context into propositions. *)
Ltac reflect_bools :=
  repeat match goal with
  | H : bool_decide _ = true |- _ => apply bool_decide_eq_true in H
  | H : bool_decide _ = false |- _ => apply bool_decide_eq_false in H
  | H : andb _ _ = true |- _ => apply andb_true_iff in H as [? ?]
  | H : orb _ _ = false |- _ => apply orb_false_iff in H as [? ?]
  | H : negb _ = true |- _ => apply negb_true_iff in H
  | H : negb _ = false |- _ => apply negb_false_iff in H
  | H : (_ <? _) = true |- _ => apply Z.ltb_lt in H
  | H : (_ <? _) = false |- _ => apply Z.ltb_ge in H
  | H : (_ <=? _) = true |- _ => apply Z.leb_le in H
  | H : (_ <=? _) = false |- _ => apply Z.leb_gt in H
  | H : (_ =? _) = true |- _ => apply Z.eqb_eq in H
  | H : (_ =? _) = false |- _ => apply Z.eqb_neq in H
  end.
