(* ===== verification/Store.v ===== *)
(** * The PostgreSQL schema and the SQL statements' vocabulary

    The tables created by [backend/internal/db/migrations] as finite maps keyed
    by primary key, the constraints and the trigger of those migrations, and the
    statement forms the Go code issues: insert with the partial unique index,
    update of one row, update and delete with a [WHERE] clause, the cascade of
    the foreign key, and [ORDER BY ... LIMIT] selections.  What PostgreSQL itself
    contributes (row order, [float8] arithmetic) is the class [Postgres]. *)

From S2P Require Import Prelude.

(** ** What the database server contributes *)

(** [ORDER BY] fixes the order up to ties; a [RETURNING] clause delivers rows in
    any order; [float8] values (other than NaN) and Go's [int(x)] conversion are
    operations of a carrier [f8].  [storage] is the Redis client behind
    [cache.Redis]. *)
Class Postgres := {
  order_by : ∀ {A : Type}, (A → Z) → list A → list A;
  order_by_text : ∀ {A : Type}, (A → string) → list A → list A;
  order_by_text2 : ∀ {A : Type}, (A → string) → (A → string) → list A → list A;
  returning : ∀ {A : Type}, list A → list A;
  f8 : Type;
  f8_of_Z : Z → f8;
  f8_add : f8 → f8 → f8;
  f8_sub : f8 → f8 → f8;
  f8_mul : f8 → f8 → f8;
  f8_ltb : f8 → f8 → bool;
  f8_epoch : Z → f8;
  f8_int : f8 → Z;
}.

Class PostgresLaws `{PG : Postgres} : Prop := {
  order_by_perm {A} (key : A → Z) l : order_by key l ≡ₚ l;
  order_by_sorted {A} (key : A → Z) l :
    StronglySorted (λ x y, key x ≤ key y) (order_by key l);
  order_by_text_perm {A} (key : A → string) l : order_by_text key l ≡ₚ l;
  order_by_text2_perm {A} (key key' : A → string) l : order_by_text2 key key' l ≡ₚ l;
  returning_perm {A} (l : list A) : returning l ≡ₚ l;
  f8_int_of_Z z : - 2 ^ 53 ≤ z ≤ 2 ^ 53 → f8_int (f8_of_Z z) = z;
  f8_int_lt x z : - 2 ^ 53 ≤ z ≤ 2 ^ 53 → f8_ltb x (f8_of_Z z) = true → f8_int x ≤ z;
  f8_int_ge x z : 0 ≤ z ≤ 2 ^ 53 → f8_ltb x (f8_of_Z z) = false → z ≤ f8_int x;
  f8_int_sub x n : 0 ≤ n ≤ f8_int x → f8_int x ≤ 2 ^ 53 →
    f8_int (f8_sub x (f8_of_Z n)) = f8_int x - n;
  f8_int_refill_0 x z : - 2 ^ 53 ≤ z ≤ 2 ^ 53 →
    f8_int (f8_add x (f8_mul (f8_of_Z z) (f8_epoch 0))) = f8_int x;
}.

(** [ORDER BY] a key that tells the rows apart fixes their order. *)
Section order_by.
Context `{LAWS : PostgresLaws} {A : Type} (key : A → Z).
Implicit Types l : list A.

Definition key_distinct l : Prop := ∀ x y, x ∈ l → y ∈ l → key x = key y → x = y.

Lemma sorted_by_unique l l' :
  key_distinct l → StronglySorted (λ x y, key x ≤ key y) l →
  StronglySorted (λ x y, key x ≤ key y) l' → l ≡ₚ l' → l = l'.
Proof.
  intros Hd Hl Hl' Hp. apply (StronglySorted_unique_strong (λ x y, key x ≤ key y)); try done.
  intros x y Hx Hy H1 H2. apply Hd; [done|by rewrite Hp|lia].
Qed.

Lemma order_by_unique l l' : key_distinct l → l ≡ₚ l' → order_by key l = order_by key l'.
Proof.
  intros Hd Hp. apply sorted_by_unique; [|by apply order_by_sorted..|by rewrite !order_by_perm].
  intros x y. rewrite order_by_perm. apply Hd.
Qed.

Lemma filter_order_by (P : A → Prop) `{∀ x, Decision (P x)} l :
  key_distinct l → filter P (order_by key l) = order_by key (filter P l).
Proof.
  intros Hd. apply sorted_by_unique.
  - intros x y [_ Hx]%list_elem_of_filter [_ Hy]%list_elem_of_filter.
    rewrite order_by_perm in Hx, Hy. by apply Hd.
  - apply StronglySorted_filter, order_by_sorted.
  - apply order_by_sorted.
  - by rewrite !order_by_perm.
Qed.

Lemma order_by_fmap {B} (f : B → A) (l : list B) :
  key_distinct (f <$> l) → order_by key (f <$> l) = f <$> order_by (λ x, key (f x)) l.
Proof.
  intros Hd. apply sorted_by_unique.
  - intros x y. rewrite order_by_perm. apply Hd.
  - apply order_by_sorted.
  - assert (StronglySorted (λ x y, key (f x) ≤ key (f y)) (order_by (λ x, key (f x)) l)) as Hs
      by apply order_by_sorted.
    induction Hs as [|x l' _ IH Hall]; [constructor|]. simpl. constructor; [done|].
    by apply Forall_fmap.
  - by rewrite !order_by_perm.
Qed.
End order_by.

(** ** Tables *)

Abbreviation uuid := string (only parsing).

(** The values written to [messages.status] and [message_deliveries.status]. *)
Inductive status := pending | processing | failed | expired.
#[export] Instance status_eq_dec : EqDecision status.
Proof. solve_decision. Defined.

Definition status_text (s : status) : string :=
  match s with
  | pending => "pending" | processing => "processing"
  | failed => "failed" | expired => "expired"
  end.

Lemma status_text_inj s s' : status_text s = status_text s' → s = s'.
Proof. by destruct s, s'. Qed.

(** A non-NULL [metadata] column: [JSONB]'s null, an object of strings, or any
    other JSON value (which does not decode into a [map[string]string]). *)
Inductive metadata_json :=
| json_null
| json_object (m : gmap string string)
| json_other.

(** A row of [messages] without its primary key [id]; times are microseconds. *)
Record MessageRow := mkMessageRow {
  m_topic : string;
  m_payload : string;
  m_metadata : option metadata_json;
  m_key : option string;
  m_status : status;
  m_retry_count : Z;
  m_max_retries : Z;
  m_last_error : option string;
  m_visibility_timeout : option Z;
  m_expires_at : option Z;
  m_created_at : Z;
  m_updated_at : Z;
  m_original_topic : option string;
  m_dlq_moved_at : option Z;
}.

(** A row of [message_deliveries] without its key [(message_id, consumer_group)]. *)
Record DeliveryRow := mkDeliveryRow {
  d_status : status;
  d_visibility_timeout : option Z;
  d_retry_count : Z;
  d_max_retries : Z;
  d_last_error : option string;
  d_created_at : Z;
  d_updated_at : Z;
}.

(** A row of [message_log], keyed by [(topic, acked_at, id)]. *)
Record LogRow := mkLogRow {
  l_key : option string;
  l_payload : string;
  l_metadata : option metadata_json;
  l_retry_count : Z;
  l_max_retries : Z;
  l_last_error : option string;
  l_original_topic : option string;
  l_created_at : Z;
}.

(** [queue.TopicConfig], also the row of [topic_config]. *)
Record TopicConfig := mkTopicConfig {
  Topic : string;
  MaxRetries : option Z;
  MessageTTLSeconds : option Z;
  MaxDepth : option Z;
  Replayable : bool;
  ReplayWindowSeconds : option Z;
  ThroughputLimit : option Z;
}.

(** [queue.TopicSchema], also the row of [topic_schemas]. *)
Record TopicSchema := mkTopicSchema {
  ts_Topic : string;
  SchemaJSON : string;
  Version : Z;
  UpdatedAt : Z;
}.

(** A row of [users], keyed by [id]. *)
Record UserRow := mkUserRow {
  u_username : string;
  u_password_hash : string;
  u_is_admin : bool;
  u_created_at : Z;
  u_updated_at : Z;
}.

(** A row of [user_grants], keyed by [id]. *)
Record GrantRow := mkGrantRow {
  g_user_id : uuid;
  g_action : string;
  g_topic_pattern : string;
  g_consumer_group : option string;
  g_created_at : Z;
}.

Section db.
Context `{PG : Postgres}.

Record DB := mkDB {
  messages : gmap uuid MessageRow;
  message_deliveries : gmap (uuid * string) DeliveryRow;
  consumer_groups : gmap (string * string) Z;
  message_log : gmap (string * Z * uuid) LogRow;
  topic_config : gmap string TopicConfig;
  topic_throughput : gmap string (f8 * Z);
  topic_schemas : gmap string TopicSchema;
  system_settings : gmap string string;
  users : gmap uuid UserRow;
  user_grants : gmap uuid GrantRow;
}.

Definition empty_db : DB := mkDB ∅ ∅ ∅ ∅ ∅ ∅ ∅ ∅ ∅ ∅.

Definition set_messages ms (db : DB) : DB :=
  mkDB ms (message_deliveries db) (consumer_groups db) (message_log db)
    (topic_config db) (topic_throughput db) (topic_schemas db) (system_settings db)
    (users db) (user_grants db).
Definition set_deliveries ds (db : DB) : DB :=
  mkDB (messages db) ds (consumer_groups db) (message_log db)
    (topic_config db) (topic_throughput db) (topic_schemas db) (system_settings db)
    (users db) (user_grants db).
Definition set_groups gs (db : DB) : DB :=
  mkDB (messages db) (message_deliveries db) gs (message_log db)
    (topic_config db) (topic_throughput db) (topic_schemas db) (system_settings db)
    (users db) (user_grants db).
Definition set_log lg (db : DB) : DB :=
  mkDB (messages db) (message_deliveries db) (consumer_groups db) lg
    (topic_config db) (topic_throughput db) (topic_schemas db) (system_settings db)
    (users db) (user_grants db).
Definition set_config tc (db : DB) : DB :=
  mkDB (messages db) (message_deliveries db) (consumer_groups db) (message_log db)
    tc (topic_throughput db) (topic_schemas db) (system_settings db)
    (users db) (user_grants db).
Definition set_throughput tt (db : DB) : DB :=
  mkDB (messages db) (message_deliveries db) (consumer_groups db) (message_log db)
    (topic_config db) tt (topic_schemas db) (system_settings db)
    (users db) (user_grants db).
Definition set_schemas sc (db : DB) : DB :=
  mkDB (messages db) (message_deliveries db) (consumer_groups db) (message_log db)
    (topic_config db) (topic_throughput db) sc (system_settings db)
    (users db) (user_grants db).
Definition set_settings st (db : DB) : DB :=
  mkDB (messages db) (message_deliveries db) (consumer_groups db) (message_log db)
    (topic_config db) (topic_throughput db) (topic_schemas db) st
    (users db) (user_grants db).

Definition set_users us (db : DB) : DB :=
  mkDB (messages db) (message_deliveries db) (consumer_groups db) (message_log db)
    (topic_config db) (topic_throughput db) (topic_schemas db) (system_settings db)
    us (user_grants db).
Definition set_grants gs (db : DB) : DB :=
  mkDB (messages db) (message_deliveries db) (consumer_groups db) (message_log db)
    (topic_config db) (topic_throughput db) (topic_schemas db) (system_settings db)
    (users db) gs.

(** ** Constraints *)

Inductive PgError :=
| UniqueViolation        (* SQLSTATE 23505 *)
| NumericOutOfRange      (* SQLSTATE 22003, or the driver's int4 check *)
| ForeignKeyViolation    (* SQLSTATE 23503 *)
| CheckViolation         (* SQLSTATE 23514 *)
| InvalidRowCount        (* SQLSTATE 2201W, 2201X: a negative LIMIT or OFFSET *)
| NoRows                 (* pgx.ErrNoRows *)
| ConnectionError.

(** Two rows collide in [idx_messages_topic_key], the unique index on
    [(topic, key) WHERE key IS NOT NULL AND status = 'pending']. *)
Definition key_clash (r r' : MessageRow) : Prop :=
  m_status r = pending ∧ m_status r' = pending ∧
  m_topic r = m_topic r' ∧ m_key r = m_key r' ∧ m_key r ≠ None.
#[export] Instance key_clash_dec r r' : Decision (key_clash r r').
Proof. unfold key_clash. apply _. Defined.

(** No row other than [id]'s collides with [r]. *)
Definition key_free (id : uuid) (r : MessageRow) (ms : gmap uuid MessageRow) : Prop :=
  map_Forall (λ j r', j ≠ id → ¬ key_clash r r') ms.
#[export] Instance key_free_dec id r ms : Decision (key_free id r ms).
Proof. unfold key_free. apply _. Defined.

(** What the constraints of the migrations say of a database: the partial unique
    index, the foreign key of [message_deliveries] and its [CHECK]. *)
Record db_ok (db : DB) : Prop := {
  ok_unique i j r r' : messages db !! i = Some r → messages db !! j = Some r' →
    i ≠ j → ¬ key_clash r r';
  ok_foreign_key i g d : message_deliveries db !! (i, g) = Some d →
    is_Some (messages db !! i);
  ok_delivery_status k d : message_deliveries db !! k = Some d → d_status d ≠ expired;
}.

Lemma empty_db_ok : db_ok empty_db.
Proof. split; intros *; simpl; rewrite ?lookup_empty; done. Qed.

(** ** Statements on [messages] and [message_deliveries] *)

(** Defaults of [message_deliveries] for a freshly minted row. *)
Definition new_delivery (now max_retries : Z) : DeliveryRow :=
  mkDeliveryRow pending None 0 max_retries None now now.

(** The trigger [trg_mint_deliveries] on the insertion of message [id]: one
    delivery per consumer group of its topic, [ON CONFLICT DO NOTHING]. *)
Definition mint_deliveries (now : Z) (id : uuid) (r : MessageRow) (db : DB) : DB :=
  set_deliveries
    (message_deliveries db ∪
     map_collect (λ tg _, if bool_decide (tg.1 = m_topic r)
                          then Some ((id, tg.2), new_delivery now (m_max_retries r))
                          else None) (consumer_groups db)) db.

(** [INSERT INTO messages], firing the trigger. *)
Definition insert_message (now : Z) (id : uuid) (r : MessageRow) (db : DB)
    : result PgError DB :=
  if decide (messages db !! id = None ∧ key_free id r (messages db))
  then Ok (mint_deliveries now id r (set_messages (<[id:=r]> (messages db)) db))
  else Err UniqueViolation.

(** [UPDATE messages SET ... WHERE id = $1]. *)
Definition update_message (id : uuid) (f : MessageRow → MessageRow) (db : DB)
    : result PgError DB :=
  match messages db !! id with
  | None => Ok db
  | Some r =>
      if decide (int4 (m_retry_count (f r)) ∧ int4 (m_max_retries (f r))) then
        if decide (key_free id (f r) (messages db))
        then Ok (set_messages (<[id:=f r]> (messages db)) db)
        else Err UniqueViolation
      else Err NumericOutOfRange
  end.

(** [UPDATE messages SET ... WHERE P], the number of rows and the new tables; used
    for updates that do not make a row pending. *)
Definition update_messages_where (P : uuid → MessageRow → Prop)
    `{∀ i r, Decision (P i r)} (f : MessageRow → MessageRow) (db : DB) : Z * DB :=
  (Z.of_nat (size (filter (λ ir, P ir.1 ir.2) (messages db))),
   set_messages (map_update P f (messages db)) db).

(** [DELETE FROM messages WHERE P], with [ON DELETE CASCADE] on the deliveries. *)
Definition delete_messages_where (P : uuid → MessageRow → Prop)
    `{∀ i r, Decision (P i r)} (db : DB) : Z * DB :=
  let ms := filter (λ ir, ¬ P ir.1 ir.2) (messages db) in
  (Z.of_nat (size (filter (λ ir, P ir.1 ir.2) (messages db))),
   set_deliveries (filter (λ kd, is_Some (ms !! kd.1.1)) (message_deliveries db))
     (set_messages ms db)).

(** [UPDATE message_deliveries SET ... WHERE message_id = $1 AND consumer_group = $2]. *)
Definition update_delivery (k : uuid * string) (f : DeliveryRow → DeliveryRow) (db : DB)
    : result PgError DB :=
  match message_deliveries db !! k with
  | None => Ok db
  | Some d =>
      if decide (int4 (d_retry_count (f d)))
      then Ok (set_deliveries (<[k:=f d]> (message_deliveries db)) db)
      else Err NumericOutOfRange
  end.

(** ** Preservation of the constraints *)

Lemma key_clash_sym r r' : key_clash r r' → key_clash r' r.
Proof. unfold key_clash. intros (?&?&?&?&?). repeat split; congruence. Qed.

Lemma key_free_not_pending id r ms : m_status r ≠ pending → key_free id r ms.
Proof. intros Hr j r' _ _ (?&_). done. Qed.

Lemma insert_unique id r (ms : gmap uuid MessageRow) :
  (∀ i j ri rj, ms !! i = Some ri → ms !! j = Some rj → i ≠ j → ¬ key_clash ri rj) →
  key_free id r ms →
  ∀ i j ri rj, <[id:=r]> ms !! i = Some ri → <[id:=r]> ms !! j = Some rj →
    i ≠ j → ¬ key_clash ri rj.
Proof.
  intros Hu Hf i j ri rj [[<- <-]|[Hi Hri]]%lookup_insert_Some
    [[<- <-]|[Hj Hrj]]%lookup_insert_Some Hij; [done| | |by eapply Hu].
  - by eapply (Hf j).
  - intros Hc%key_clash_sym. by eapply (Hf i).
Qed.

Lemma mint_deliveries_lookup now id r db i g d :
  message_deliveries (mint_deliveries now id r db) !! (i, g) = Some d ↔
  message_deliveries db !! (i, g) = Some d ∨
  (message_deliveries db !! (i, g) = None ∧ i = id ∧
   is_Some (consumer_groups db !! (m_topic r, g)) ∧ d = new_delivery now (m_max_retries r)).
Proof.
  simpl. rewrite lookup_union_Some_raw. apply or_iff_compat_l, and_iff_compat_l.
  rewrite lookup_map_collect.
  - split.
    + intros ([t' g'] & c & Hc & Hf). simpl in *. case_bool_decide; simplify_eq. eauto.
    + intros (-> & [c Hc] & ->). exists (m_topic r, g), c.
      split; [done|]. simpl. by rewrite bool_decide_true.
  - intros [t1 g1] ? [t2 g2] ?????. simpl. intros.
    repeat case_bool_decide; simplify_eq. done.
Qed.

Lemma insert_message_ok now id r db db' :
  insert_message now id r db = Ok db' → db_ok db → db_ok db'.
Proof.
  unfold insert_message. case_decide as Hd; [|done]. destruct Hd as [Hid Hfree].
  intros [= <-] [Hu Hfk Hst]. split.
  - simpl. by apply insert_unique.
  - intros i g d [Hd|(_&->&_)]%mint_deliveries_lookup; simpl in *.
    + apply lookup_insert_is_Some. destruct (decide (id = i)); [by left|right].
      split; [done|]. by eapply Hfk.
    + rewrite lookup_insert_eq. eauto.
  - intros [i g] d [Hd|(_&_&_&->)]%mint_deliveries_lookup; [|done]. by eapply Hst.
Qed.

Lemma update_message_ok id f db db' :
  update_message id f db = Ok db' → db_ok db → db_ok db'.
Proof.
  unfold update_message. intros H [Hu Hfk Hst].
  destruct (messages db !! id) as [r|] eqn:Hid; simplify_eq; [|done].
  case_decide; [|done]. case_decide; [|done]. simplify_eq. split; simpl.
  - by apply insert_unique.
  - intros i g d Hd. apply lookup_insert_is_Some.
    destruct (decide (id = i)); [by left|right]. split; [done|]. by eapply Hfk.
  - done.
Qed.

Lemma update_messages_where_ok P `{∀ i r, Decision (P i r)} f db :
  (∀ r, m_status (f r) ≠ pending) →
  db_ok db → db_ok (update_messages_where P f db).2.
Proof.
  intros Hf [Hu Hfk Hst]. split; simpl.
  - intros i j ri rj (vi & Hi & ->)%lookup_map_update_Some
      (vj & Hj & ->)%lookup_map_update_Some Hij (Hsi & Hsj & Hrest).
    repeat case_decide; try by eapply Hf.
    apply (Hu i j vi vj); done.
  - intros i g d Hd. rewrite lookup_map_update. apply fmap_is_Some. by eapply Hfk.
  - done.
Qed.

Lemma delete_messages_where_ok P `{∀ i r, Decision (P i r)} db :
  db_ok db → db_ok (delete_messages_where P db).2.
Proof.
  intros [Hu Hfk Hst]. split; simpl.
  - intros i j ri rj [? _]%map_lookup_filter_Some [? _]%map_lookup_filter_Some. by apply Hu.
  - by intros i g d [_ Hd]%map_lookup_filter_Some.
  - intros k d [Hd _]%map_lookup_filter_Some. by eapply Hst.
Qed.

Lemma set_deliveries_ok ds db :
  (∀ i g d, ds !! (i, g) = Some d → is_Some (messages db !! i)) →
  (∀ k d, ds !! k = Some d → d_status d ≠ expired) →
  db_ok db → db_ok (set_deliveries ds db).
Proof. intros ?? [???]. by split. Qed.

Lemma update_delivery_ok k f db db' :
  (∀ d, d_status d ≠ expired → d_status (f d) ≠ expired) →
  update_delivery k f db = Ok db' → db_ok db → db_ok db'.
Proof.
  unfold update_delivery. intros Hf H Hok.
  destruct (message_deliveries db !! k) as [d|] eqn:Hk; simplify_eq; [|done].
  case_decide; simplify_eq. destruct Hok as [Hu Hfk Hst].
  apply set_deliveries_ok; [| |by split].
  - intros i g d' [[-> <-]|[_ Hd]]%lookup_insert_Some; by eapply Hfk.
  - intros k' d' [[<- <-]|[_ Hd]]%lookup_insert_Some; [apply Hf|]; by eapply Hst.
Qed.

(** Changes to the other tables. *)
Lemma db_ok_same db db' :
  messages db' = messages db → message_deliveries db' = message_deliveries db →
  db_ok db → db_ok db'.
Proof. intros Hm Hd [Hu Hfk Hst]. split; rewrite ?Hm, ?Hd; eauto. Qed.

End db.

#[export] Hint Resolve empty_db_ok insert_message_ok update_message_ok
  update_messages_where_ok delete_messages_where_ok update_delivery_ok : queueti.
