(* ===== verification/Avro.v ===== *)
(** * Payload validation against an Avro schema

    The pure part of [backend/internal/queue/schema.go]: [validateJSONAgainstAvro],
    [validateJSONValueAgainstAvro] and [kindOf].  A parsed JSON document stands for
    the [json.RawMessage] the code passes on, and an Avro schema for what the
    [hamba/avro] library shows of one: [Type()], a record's [Fields()] and a union's
    [Types()].  Parsing the payload and the schema text are parameters of the
    callers. *)

From S2P Require Import Prelude.

(** ** JSON documents *)

(** A number keeps its literal, as a [json.Number] does. *)
Inductive json :=
| JNull
| JBool (b : bool)
| JNumber (lit : string)
| JString (s : string)
| JArray (l : list json)
| JObject (fields : list (string * json)).

(** [json.Unmarshal] into a [map[string]json.RawMessage]: the null document leaves
    the map nil. *)
Definition as_object (j : json) : option (list (string * json)) :=
  match j with JObject fs => Some fs | JNull => Some [] | _ => None end.

(** [doc[name]]: a repeated key keeps its last value. *)
Fixpoint doc_lookup (name : string) (doc : list (string * json)) : option json :=
  match doc with
  | [] => None
  | (k, v) :: doc' =>
      match doc_lookup name doc' with
      | Some w => Some w
      | None => if bool_decide (k = name) then Some v else None
      end
  end.

(** *** Number literals *)

Definition is_digit (c : Ascii.ascii) : bool :=
  let n := Ascii.nat_of_ascii c in (48 <=? n)%nat && (n <=? 57)%nat.
Definition digit_val (c : Ascii.ascii) : Z := Z.of_nat (Ascii.nat_of_ascii c) - 48.

Fixpoint skip_digits (s : string) : string :=
  match s with
  | String c s' => if is_digit c then skip_digits s' else s
  | EmptyString => s
  end.

(** The exponent part of a literal, or nothing. *)
Definition exp_ok (s : string) : bool :=
  match s with
  | EmptyString => true
  | String e s1 =>
      if bool_decide (e = "e"%char ∨ e = "E"%char) then
        let s2 := match s1 with
                  | String c s' => if bool_decide (c = "+"%char ∨ c = "-"%char) then s' else s1
                  | EmptyString => s1
                  end in
        match s2 with
        | String c s3 => is_digit c && bool_decide (skip_digits s3 = EmptyString)
        | EmptyString => false
        end
      else false
  end.

(** The fraction and exponent parts. *)
Definition frac_ok (s : string) : bool :=
  match s with
  | String "." (String c s') => is_digit c && exp_ok (skip_digits s')
  | String "." EmptyString => false
  | _ => exp_ok s
  end.

(** [encoding/json]'s [isValidNumber]. *)
Definition isValidNumber (s : string) : bool :=
  let s := match s with String "-" s' => s' | _ => s end in
  match s with
  | EmptyString => false
  | String "0" s' => frac_ok s'
  | String c s' => is_digit c && frac_ok (skip_digits s')
  end.

Fixpoint parse_digits (acc : Z) (s : string) : option Z :=
  match s with
  | EmptyString => Some acc
  | String c s' => if is_digit c then parse_digits (acc * 10 + digit_val c) s' else None
  end.

(** [strconv.ParseInt(s, 10, 64)] *)
Definition parse_int64 (s : string) : option Z :=
  let '(neg, ds) := match s with
                    | String "-" s' => (true, s')
                    | String "+" s' => (false, s')
                    | _ => (false, s)
                    end in
  match ds with
  | EmptyString => None
  | _ => match parse_digits 0 ds with
         | Some n => let z := if neg : bool then - n else n in
                     if decide (- 2 ^ 63 ≤ z < 2 ^ 63) then Some z else None
         | None => None
         end
  end.

(** [json.Unmarshal] into a [json.Number]: a number, or a string that spells one. *)
Definition as_number (j : json) : option string :=
  match j with
  | JNumber lit => Some lit
  | JString s => if isValidNumber s then Some s else None
  | _ => None
  end.

(** [kindOf] on the text of a document. *)
Definition kindOf (j : json) : string :=
  match j with
  | JString _ => "string"
  | JObject _ => "object"
  | JArray _ => "array"
  | JBool _ => "boolean"
  | JNull | JNumber _ => "number"
  end.

(** ** Schemas *)

(** A record, also an error record, has the name of each field, whether it has a default, and
    its type; a named type that was declared before is referred to by its name.  The code
    looks at the [Type()] of the others only. *)
Inductive avro :=
| ANull | AString | AInt | ALong | AFloat | ADouble | ABoolean
| ABytes
| AFixed (size : nat)
| AEnum (symbols : list string)
| AArray (items : avro)
| AMap (values : avro)
| ARef (name : string)
| ARecord (fields : list (string * bool * avro))
| AUnion (branches : list avro).

Definition is_null_type (s : avro) : bool :=
  match s with ANull => true | _ => false end.

(** The errors of the two validators. *)
Inductive AvroError :=
| NotAnObject                      (* payload is not a valid JSON object *)
| InvalidJSON                      (* invalid JSON value *)
| MissingField (name : string)     (* missing required field *)
| InField (name : string) (e : AvroError)
| UnexpectedNull
| Expected (what got : string)     (* expected string, got number *)
| NoBranch.                        (* value does not match any branch of union *)

(** ** The validators *)

Definition validate_number (j : json) : result AvroError unit :=
  match as_number j with
  | Some _ => Ok tt
  | None => Err (Expected "number" (kindOf j))
  end.

Definition validate_integer (j : json) : result AvroError unit :=
  match as_number j with
  | Some lit => match parse_int64 lit with
                | Some _ => Ok tt
                | None => Err (Expected "integer" (kindOf j))
                end
  | None => Err (Expected "integer" (kindOf j))
  end.

(** The loop over a record's fields, for a validator of field values. *)
Definition check_fields (check : avro → json → result AvroError unit)
    (doc : list (string * json)) : list (string * bool * avro) → result AvroError unit :=
  fix go fields :=
    match fields with
    | [] => Ok tt
    | (name, has_default, ty) :: fields' =>
        match doc_lookup name doc with
        | None => if has_default : bool then go fields' else Err (MissingField name)
        | Some raw =>
            match check ty raw with
            | Err e => Err (InField name e)
            | Ok _ => go fields'
            end
        end
    end.

(** [validateJSONValueAgainstAvro]. *)
Fixpoint validateJSONValueAgainstAvro (schema : avro) (raw : json) {struct schema}
    : result AvroError unit :=
  match raw with
  | JNull =>
      match schema with
      | ANull => Ok tt
      | AUnion branches => if existsb is_null_type branches then Ok tt else Err UnexpectedNull
      | _ => Err UnexpectedNull
      end
  | _ =>
      match schema with
      | AString => match raw with JString _ => Ok tt | _ => Err (Expected "string" (kindOf raw)) end
      | AInt | ALong => validate_integer raw
      | AFloat | ADouble => validate_number raw
      | ABoolean => match raw with JBool _ => Ok tt | _ => Err (Expected "boolean" (kindOf raw)) end
      | ARecord fields =>
          match as_object raw with
          | None => Err NotAnObject
          | Some doc => check_fields validateJSONValueAgainstAvro doc fields
          end
      | AUnion branches =>
          if existsb (λ b, is_ok (validateJSONValueAgainstAvro b raw)) branches
          then Ok tt else Err NoBranch
      | _ => Ok tt
      end
  end.

(** [validateJSONAgainstAvro] on the outcome of parsing the payload. *)
Definition validateJSONAgainstAvro (schema : avro) (payload : option json)
    : result AvroError unit :=
  match schema with
  | ARecord fields =>
      match payload ≫= as_object with
      | None => Err NotAnObject
      | Some doc => check_fields validateJSONValueAgainstAvro doc fields
      end
  | _ => match payload with Some _ => Ok tt | None => Err InvalidJSON end
  end.

(** ** The intended reading: which documents conform to a schema

    This is the Avro specification's reading of plain JSON, as the guide announces it: an
    [int] has 32 bits and a [long] 64, [bytes] and [fixed] are texts of the code points 0 to
    255, an [enum] is one of its symbols, the items of an [array] and the values of a [map]
    conform, a reference stands for the record, enum or fixed type of its name, and a union
    takes the values of its branches. *)

Definition byte_code (c : Ascii.ascii) : Z := Z.of_nat (Ascii.nat_of_ascii c).
Definition is_continuation (c : Ascii.ascii) : bool :=
  (128 <=? byte_code c) && (byte_code c <=? 191).

(** The bytes that a text stands for: its code points, in UTF-8, if none is above 255. *)
Fixpoint byte_length (s : string) : option nat :=
  match s with
  | EmptyString => Some 0%nat
  | String c s' =>
      if byte_code c <? 128 then S <$> byte_length s'
      else match s' with
           | String d s'' =>
               if (194 <=? byte_code c) && (byte_code c <=? 195) && is_continuation d
               then S <$> byte_length s'' else None
           | EmptyString => None
           end
  end.

Definition is_named (s : avro) : bool :=
  match s with ARecord _ | AEnum _ | AFixed _ => true | _ => false end.

Section conformance.
(** What the names of a schema stand for. *)
Context (defs : string → option avro).

Inductive conforms : avro → json → Prop :=
| conforms_null : conforms ANull JNull
| conforms_string s : conforms AString (JString s)
| conforms_int lit z :
    parse_int64 lit = Some z → - 2 ^ 31 ≤ z < 2 ^ 31 → conforms AInt (JNumber lit)
| conforms_long lit z : parse_int64 lit = Some z → conforms ALong (JNumber lit)
| conforms_float lit : conforms AFloat (JNumber lit)
| conforms_double lit : conforms ADouble (JNumber lit)
| conforms_boolean b : conforms ABoolean (JBool b)
| conforms_bytes s n : byte_length s = Some n → conforms ABytes (JString s)
| conforms_fixed s n : byte_length s = Some n → conforms (AFixed n) (JString s)
| conforms_enum s symbols : s ∈ symbols → conforms (AEnum symbols) (JString s)
| conforms_array items l : (∀ v, v ∈ l → conforms items v) → conforms (AArray items) (JArray l)
| conforms_map values doc :
    (∀ k v, doc_lookup k doc = Some v → conforms values v) → conforms (AMap values) (JObject doc)
| conforms_ref name s j :
    defs name = Some s → is_named s = true → conforms s j → conforms (ARef name) j
| conforms_record fs doc :
    (∀ n d ty v, (n, d, ty) ∈ fs → doc_lookup n doc = Some v → conforms ty v) →
    (∀ n d ty, (n, d, ty) ∈ fs → doc_lookup n doc = None → d = true) →
    conforms (ARecord fs) (JObject doc)
| conforms_union bs b j : b ∈ bs → conforms b j → conforms (AUnion bs) j.
End conformance.

(** The types that the validator does not look into. *)
Definition is_opaque (s : avro) : bool :=
  match s with
  | ABytes | AFixed _ | AEnum _ | AArray _ | AMap _ | ARef _ => true
  | _ => false
  end.

Definition is_leaf (s : avro) : bool :=
  match s with ARecord _ | AUnion _ => false | _ => true end.

Section avro_ind.
Context (P : avro → Prop)
  (Hleaf : ∀ s, is_leaf s = true → P s)
  (Hrec : ∀ fs, Forall (λ f, P f.2) fs → P (ARecord fs))
  (Hunion : ∀ bs, Forall P bs → P (AUnion bs)).

Fixpoint avro_nested_ind (s : avro) : P s :=
  match s return P s with
  | ARecord fs =>
      Hrec fs ((fix go fs : Forall (λ f, P f.2) fs :=
        match fs with
        | [] => Forall_nil_2 _
        | f :: fs' => Forall_cons_2 _ _ _ (avro_nested_ind f.2) (go fs')
        end) fs)
  | AUnion bs =>
      Hunion bs ((fix go bs : Forall P bs :=
        match bs with
        | [] => Forall_nil_2 _
        | b :: bs' => Forall_cons_2 _ _ _ (avro_nested_ind b) (go bs')
        end) bs)
  | s' => Hleaf s' eq_refl
  end.
End avro_ind.

Definition is_union (s : avro) : bool := match s with AUnion _ => true | _ => false end.

(** Avro's rule that a union does not immediately contain another union. *)
Fixpoint union_flat (s : avro) : bool :=
  match s with
  | ARecord fs => forallb (λ f, union_flat f.2) fs
  | AUnion bs => forallb (λ b, negb (is_union b) && union_flat b) bs
  | _ => true
  end.

(** The types that the validator checks: those of the default case and [null], which in a
    union is one of them, do not occur. *)
Fixpoint fully_checked (s : avro) : bool :=
  match s with
  | ANull => false
  | ARecord fs => forallb (λ f, fully_checked f.2) fs
  | AUnion bs => forallb fully_checked bs
  | _ => negb (is_opaque s)
  end.

Fixpoint int_free (s : avro) : bool :=
  match s with
  | AInt => false
  | ARecord fs => forallb (λ f, int_free f.2) fs
  | AUnion bs => forallb int_free bs
  | _ => true
  end.

(** A property of every string and number in a document. *)
Fixpoint all_scalars (p : json → bool) (j : json) : bool :=
  match j with
  | JArray l => forallb (all_scalars p) l
  | JObject fs => forallb (λ kv, all_scalars p kv.2) fs
  | _ => p j
  end.

(** No string of a document spells a number. *)
Definition no_numeric_string : json → bool :=
  all_scalars (λ j, match j with JString s => negb (isValidNumber s) | _ => true end).

(** Every integer of a document has 32 bits. *)
Definition narrow : json → bool :=
  all_scalars (λ j,
    match j with
    | JNumber lit => match parse_int64 lit with
                     | Some z => bool_decide (- 2 ^ 31 ≤ z < 2 ^ 31)
                     | None => true
                     end
    | _ => true
    end).

(** A document that does not use the two liberties of the checks on numbers. *)
Definition strict (s : avro) (j : json) : bool := no_numeric_string j && (int_free s || narrow j).

Lemma check_fields_Ok check doc fs :
  check_fields check doc fs = Ok tt ↔
  Forall (λ f, match doc_lookup f.1.1 doc with
               | Some v => check f.2 v = Ok tt | None => f.1.2 = true end) fs.
Proof.
  induction fs as [|[[n d] ty] fs IH]; simpl; [by split|].
  rewrite Forall_cons, <-IH; simpl.
  destruct (doc_lookup n doc) as [v|]; [destruct (check ty v) as [[]|]|destruct d]; naive_solver.
Qed.

Lemma doc_lookup_In n doc v : doc_lookup n doc = Some v → ∃ k, (k, v) ∈ doc.
Proof.
  induction doc as [|[k w] doc IH]; simpl; [done|].
  destruct (doc_lookup n doc) as [w'|].
  - intros [= <-]. destruct IH as [k' ?]; [done|]. exists k'. by right.
  - case_bool_decide; [|done]. intros [= <-]. exists k. by left.
Qed.

Lemma existsb_elem {A} (f : A → bool) l : existsb f l = true ↔ ∃ x, x ∈ l ∧ f x = true.
Proof. rewrite existsb_exists. setoid_rewrite list_elem_of_In. done. Qed.

Lemma forallb_elem {A} (f : A → bool) l : forallb f l = true ↔ ∀ x, x ∈ l → f x = true.
Proof. rewrite forallb_forall. setoid_rewrite list_elem_of_In. done. Qed.

Lemma is_ok_unit {E} (r : result E unit) : is_ok r = true ↔ r = Ok tt.
Proof. by destruct r as [[]|]. Qed.

(** *** Values that conform are accepted *)

Section sound.
Context (defs : string → option avro).

Lemma conforms_null_inv s :
  is_union s = false → conforms defs s JNull → s = ANull.
Proof.
  intros Hu Hc. remember JNull as j eqn:Hj. revert Hu Hj.
  induction Hc; intros; try done.
  assert (s = ANull) as -> by (apply IHHc; [by destruct s|done]). done.
Qed.

Lemma conforms_union_inv bs j :
  conforms defs (AUnion bs) j → ∃ b, b ∈ bs ∧ conforms defs b j.
Proof. intros Hc. inversion Hc; set_solver. Qed.

Lemma conforms_accepted s j :
  union_flat s = true → conforms defs s j → validateJSONValueAgainstAvro s j = Ok tt.
Proof.
  intros Hflat Hc.
  induction Hc as [| |lit z Hz|lit z Hz| | | | | | | | |name s j Hs Hnm Hc _|fs doc _ IHv Hd
    |bs b j Hb Hc IH]; simpl; unfold validate_integer, validate_number; simpl; try done.
  - by rewrite Hz.
  - by rewrite Hz.
  - destruct j; try done. by apply conforms_null_inv in Hc as ->; [|by destruct s].
  - apply check_fields_Ok, Forall_forall. intros [[n d] ty] Hf; simpl.
    pose proof (proj1 (forallb_elem _ _) Hflat _ Hf) as Hty.
    destruct (doc_lookup n doc) eqn:Hl; [by eapply IHv|by eapply Hd].
  - pose proof (proj1 (forallb_elem _ _) Hflat _ Hb) as Hbf.
    apply andb_true_iff in Hbf as [Hbu Hbf]. apply negb_true_iff in Hbu.
    assert (existsb (λ b, is_ok (validateJSONValueAgainstAvro b j)) bs = true) as He.
    { apply existsb_elem. exists b. by rewrite is_ok_unit, IH. }
    destruct j; try by rewrite He.
    apply conforms_null_inv in Hc as ->; [|done].
    replace (existsb is_null_type bs) with true; [done|].
    symmetry. apply existsb_elem. eauto.
Qed.

(** *** Values that are accepted conform *)

(** What holds of a document holds of the fields of an object, and what holds of a schema of
    the types in it. *)
Lemma doc_lookup_scalars p n doc v :
  all_scalars p (JObject doc) = true → doc_lookup n doc = Some v → all_scalars p v = true.
Proof.
  intros Hp [k Hk]%doc_lookup_In. by apply (proj1 (forallb_elem _ _) Hp (k, v)).
Qed.

Lemma strict_field n d ty fs doc v :
  strict (ARecord fs) (JObject doc) = true → (n, d, ty) ∈ fs → doc_lookup n doc = Some v →
  strict ty v = true.
Proof.
  unfold strict, no_numeric_string, narrow.
  intros [Hs Hn]%andb_true_iff Hf Hl. apply andb_true_iff. split; [by eapply doc_lookup_scalars|].
  apply orb_true_iff. apply orb_true_iff in Hn as [Hn|Hn].
  - left. exact (proj1 (forallb_elem _ _) Hn _ Hf).
  - right. by eapply doc_lookup_scalars.
Qed.

Lemma strict_branch b bs j : strict (AUnion bs) j = true → b ∈ bs → strict b j = true.
Proof.
  unfold strict. intros [Hs Hn]%andb_true_iff Hb. rewrite Hs. simpl.
  apply orb_true_iff. apply orb_true_iff in Hn as [Hn|Hn]; [left|by right].
  exact (proj1 (forallb_elem _ _) Hn _ Hb).
Qed.

Lemma strict_number s j :
  strict s j = true → ∀ lit, as_number j = Some lit → j = JNumber lit.
Proof.
  unfold strict, no_numeric_string. intros [Hs _]%andb_true_iff lit.
  destruct j as [| | |t| |]; simpl in *; try done; [congruence|].
  by destruct (isValidNumber t).
Qed.

Lemma leaf_conforms s j :
  is_leaf s = true → fully_checked s = true → strict s j = true →
  validateJSONValueAgainstAvro s j = Ok tt → conforms defs s j.
Proof.
  intros Hleaf Hs Hp Hv. pose proof (strict_number s j Hp) as Hnum.
  assert (match s with AString | ABoolean => False | _ => True end →
    is_Some (as_number j)) as Hsome.
  { intros Hty. destruct s, j; try done; simpl in *; unfold validate_integer, validate_number in Hv;
      simpl in Hv; by case_match. }
  destruct s; try done; try (destruct j; simplify_eq/=; by constructor);
    (destruct (Hsome I) as [lit Hlit]; specialize (Hnum lit Hlit) as ->; simpl in Hv;
     try by constructor); unfold validate_integer in Hv; simpl in Hv;
    destruct (parse_int64 lit) as [z|] eqn:Hz; try done; econstructor; try done.
  apply andb_true_iff in Hp as [_ Hw]. unfold narrow in Hw. simpl in Hw. rewrite Hz in Hw.
  by apply bool_decide_eq_true in Hw.
Qed.

Lemma accepted_conforms s : ∀ j,
  fully_checked s = true → strict s j = true →
  validateJSONValueAgainstAvro s j = Ok tt → conforms defs s j.
Proof.
  induction s as [s Hs|fs IH|bs IH] using avro_nested_ind; intros j Hc Hp Hv.
  - by apply leaf_conforms.
  - destruct j as [| | | | |doc]; simplify_eq/=.
    apply check_fields_Ok in Hv. rewrite Forall_forall in Hv, IH. apply conforms_record.
    + intros n d ty v Hf Hl. specialize (Hv _ Hf). simpl in Hv. rewrite Hl in Hv.
      apply (IH _ Hf); [exact (proj1 (forallb_elem _ _) Hc _ Hf)|by eapply strict_field|done].
    + intros n d ty Hf Hl. specialize (Hv _ Hf). simpl in Hv. by rewrite Hl in Hv.
  - rewrite Forall_forall in IH. pose proof (proj1 (forallb_elem _ _) Hc) as Hc'.
    assert (existsb is_null_type bs = false) as Hnull.
    { apply not_true_iff_false. rewrite existsb_elem. intros (b & Hb & Hbn).
      destruct b; try done. by apply Hc' in Hb. }
    simpl in Hv. destruct (existsb (λ b, is_ok (validateJSONValueAgainstAvro b j)) bs) eqn:He.
    + apply existsb_elem in He as (b & Hb & Hok%is_ok_unit).
      apply (conforms_union _ _ b); [done|]. apply IH; auto. by eapply strict_branch.
    + destruct j; try done. by rewrite Hnull in Hv.
Qed.

(** A record schema gives a payload that is no [null] to the validator of values. *)
Lemma record_payload fs j :
  j ≠ JNull →
  validateJSONAgainstAvro (ARecord fs) (Some j) = validateJSONValueAgainstAvro (ARecord fs) j.
Proof. by destruct j. Qed.

(** ** The validator against the intended reading *)

(** [C35] No value that conforms to its schema is refused, whatever types the schema has.  And
    where the schema has only types that the validator checks - strings, numbers, booleans,
    records and unions of them, to any depth - and the document no string that spells a
    number and, for an [int], no integer of more than 32 bits, the values it accepts are
    exactly those that conform.  With a record schema both hold of the payload of an
    [Enqueue]. *)
Theorem validation_exact s j :
  union_flat s = true →
  let accepted := validateJSONValueAgainstAvro s j = Ok tt in
  (conforms defs s j → accepted) ∧
  (fully_checked s = true → strict s j = true → (accepted ↔ conforms defs s j)) ∧
  (∀ fs, s = ARecord fs → j ≠ JNull → validateJSONAgainstAvro s (Some j) = Ok tt ↔ accepted).
Proof.
  intros Hf accepted. split_and!.
  - by apply conforms_accepted.
  - intros Hc Hp. split; [by apply accepted_conforms|by apply conforms_accepted].
  - intros fs -> Hj. by rewrite record_payload.
Qed.
End sound.

(** A schema with a defaulted field, a nested record and a union, and a document. *)
Definition order_schema : avro :=
  ARecord
    [("id", false, ALong); ("note", true, AString);
     ("price", false, ARecord [("amount", false, AUnion [AInt; ADouble])])].
Definition order_document : json :=
  JObject [("id", JNumber "42"); ("price", JObject [("amount", JNumber "9.5")])].
Definition no_names (_ : string) : option avro := None.

(** The document conforms; one whose amount is a boolean does not, and is refused. *)
Definition bad_order_document : json :=
  JObject [("id", JNumber "42"); ("price", JObject [("amount", JBool true)])].

Lemma validation_exact_witness :
  conforms no_names order_schema order_document ∧
  validateJSONAgainstAvro order_schema (Some order_document) = Ok tt ∧
  ¬ conforms no_names order_schema bad_order_document.
Proof.
  assert (union_flat order_schema = true) as Hf by (vm_compute; reflexivity).
  destruct (validation_exact no_names order_schema order_document Hf) as (_ & Hex & Hrec).
  destruct (validation_exact no_names order_schema bad_order_document Hf) as (Hno & _).
  split_and!.
  - apply Hex; vm_compute; reflexivity.
  - eapply Hrec; [reflexivity|discriminate|vm_compute; reflexivity].
  - intros Hc%Hno. vm_compute in Hc. discriminate Hc.
Defined.

(** ** Where the validator is wider *)

(** Outside that fragment it accepts more than conforms.  [bytes], [fixed], [enum], [array]
    and [map] and the references take everything but [null]; an [int] takes what a [long]
    takes; numbers take the strings that spell them; and a union with a [null] branch takes
    every value at all, whatever its other branches are, since the default case answers for
    the [null] branch. *)
Theorem validator_leniencies :
  (∀ s j, is_opaque s = true → validateJSONValueAgainstAvro s j = Ok tt ↔ j ≠ JNull) ∧
  (∀ j, validateJSONValueAgainstAvro AInt j = Ok tt ↔ validateJSONValueAgainstAvro ALong j = Ok tt) ∧
  (∀ s z, isValidNumber s = true → parse_int64 s = Some z →
     validateJSONValueAgainstAvro AInt (JString s) = Ok tt) ∧
  (∀ bs j, ANull ∈ bs → validateJSONValueAgainstAvro (AUnion bs) j = Ok tt).
Proof.
  split_and!.
  - intros s j Hs. by destruct s, j.
  - intros j. by destruct j.
  - intros s z Hs Hz. simpl. unfold validate_integer. simpl. rewrite Hs. simpl. by rewrite Hz.
  - intros bs j Hb.
    assert (existsb is_null_type bs = true) as Hn by (apply existsb_elem; eauto).
    assert (existsb (λ b, is_ok (validateJSONValueAgainstAvro b j)) bs = true) as He.
    { apply existsb_elem. exists ANull. split; [done|by destruct j]. }
    by destruct j; cbn -[existsb] in *; rewrite ?Hn, ?He.
Qed.

(** Each is accepted and does not conform. *)
Lemma validator_leniencies_witness :
  Forall (λ sj, validateJSONValueAgainstAvro sj.1 sj.2 = Ok tt ∧ ¬ conforms no_names sj.1 sj.2)
    [(AEnum ["new"; "paid"], JString "lost"); (AFixed 2, JString "abc");
     (ABytes, JNumber "1"); (AArray AString, JString "a"); (AMap ABoolean, JBool true);
     (AInt, JNumber "2147483648"); (AInt, JString "-7"); (AUnion [ANull; AInt], JBool true)].
Proof.
  destruct validator_leniencies as (Hop & Hint & Hstr & Hnull).
  assert (parse_int64 "2147483648" = Some 2147483648) as Hwide by (vm_compute; reflexivity).
  repeat apply Forall_cons_2; [..|apply Forall_nil_2]; cbn [fst snd]; split.
  - by apply Hop.
  - intros Hc; inversion Hc; set_solver.
  - by apply Hop.
  - intros Hc; inversion Hc; done.
  - by apply Hop.
  - intros Hc; inversion Hc.
  - by apply Hop.
  - intros Hc; inversion Hc.
  - by apply Hop.
  - intros Hc; inversion Hc.
  - apply Hint. vm_compute. reflexivity.
  - intros Hc; inversion Hc as [| |lit z Hz Hr Hi Hl| | | | | | | | | | | |]; subst.
    rewrite Hwide in Hz. injection Hz as <-. lia.
  - by apply (Hstr "-7" (-7)).
  - intros Hc; inversion Hc.
  - apply Hnull. left.
  - intros (b & Hb & Hc)%conforms_union_inv.
    apply elem_of_cons in Hb as [->|Hb%list_elem_of_singleton]; [|subst]; inversion Hc.
Defined.

(** A record is refused when a field without a default is absent, and the error
    names the first such field before any other check of the fields behind it. *)
Theorem missing_field_is_reported fs1 n ty fs2 doc :
  (∀ m d t, (m, d, t) ∈ fs1 → doc_lookup m doc = None ∧ d = true ∨
     ∃ v, doc_lookup m doc = Some v ∧ validateJSONValueAgainstAvro t v = Ok tt) →
  doc_lookup n doc = None →
  validateJSONAgainstAvro (ARecord (fs1 ++ (n, false, ty) :: fs2)) (Some (JObject doc))
    = Err (MissingField n).
Proof.
  intros Hfs Hn. simpl. induction fs1 as [|[[m d] t] fs1 IH]; simpl; [by rewrite Hn|].
  assert (IH' : check_fields validateJSONValueAgainstAvro doc
                  (fs1 ++ (n, false, ty) :: fs2) = Err (MissingField n)).
  { apply IH. intros m' d' t' Hm. apply (Hfs m' d' t'). by right. }
  destruct (Hfs m d t) as [[-> ->]|(v & -> & ->)]; [left|done..].
Qed.

Lemma missing_field_is_reported_witness :
  validateJSONAgainstAvro order_schema (Some (JObject [("id", JNumber "42")]))
    = Err (MissingField "price").
Proof.
  apply (missing_field_is_reported [("id", false, ALong); ("note", true, AString)] "price"
           (ARecord [("amount", false, AUnion [AInt; ADouble])]) []); [|done].
  intros m d t Hm. apply elem_of_cons in Hm as [[= -> -> ->]|Hm].
  { right. by exists (JNumber "42"). }
  apply elem_of_cons in Hm as [[= -> -> ->]|Hm%elem_of_nil]; [by left|done].
Defined.
