(* ===== verification/Json.v ===== *)
(** * JSON documents in Go

    How [encoding/json] fills Go values from a document and writes them to one, and the
    decimal notation of integers.  The document type is that of [Avro]; turning text into
    a document stays a parameter ([Codecs]). *)

From S2P Require Import Prelude.
From S2P Require Import Avro.

(** ** Decimal notation *)

Definition digit_char (d : Z) : Ascii.ascii := Ascii.ascii_of_nat (Z.to_nat (d + 48)).

(** The digits of [n] in front of [acc]; [fuel] bounds their number. *)
Fixpoint digits_before (fuel : nat) (n : Z) (acc : string) : string :=
  match fuel with
  | O => acc
  | S fuel =>
      let acc' := String (digit_char (n `mod` 10)) acc in
      if n <? 10 then acc' else digits_before fuel (n `div` 10) acc'
  end.

(** [strconv.FormatInt(n, 10)], also [%d]; the number of bits bounds that of digits. *)
Definition FormatInt (n : Z) : string :=
  let fuel := S (Z.to_nat (Z.log2 (Z.abs n))) in
  if n <? 0 then String "-" (digits_before fuel (- n) "") else digits_before fuel n "".

Lemma digit_char_digit d : 0 ≤ d < 10 → is_digit (digit_char d) = true ∧ digit_val (digit_char d) = d.
Proof.
  intros Hd. unfold is_digit, digit_val, digit_char.
  rewrite Ascii.nat_ascii_embedding by lia. split; [|lia].
  apply andb_true_iff. split; apply Nat.leb_le; lia.
Qed.

Lemma parse_digits_before fuel : ∀ n acc,
  0 ≤ n < 2 ^ Z.of_nat fuel → parse_digits 0 (digits_before fuel n acc) = parse_digits n acc.
Proof.
  induction fuel as [|fuel IH]; intros n acc Hn; simpl.
  { by replace n with 0 by (simpl in Hn; lia). }
  pose proof (Z.mod_pos_bound n 10 ltac:(lia)) as Hmod.
  pose proof (Z.div_mod n 10 ltac:(lia)) as Hdm.
  destruct (digit_char_digit (n `mod` 10) Hmod) as [Hd Hv].
  rewrite Nat2Z.inj_succ, Z.pow_succ_r in Hn by lia.
  case_match eqn:Hlt.
  - simpl. rewrite Hd, Hv. apply Z.ltb_lt in Hlt. by rewrite Z.mod_small by lia.
  - apply Z.ltb_ge in Hlt. rewrite IH by (split; [apply Z.div_pos; lia|]; nia).
    simpl. rewrite Hd, Hv. f_equal. lia.
Qed.

Lemma digits_before_nonempty fuel n acc : fuel ≠ O → digits_before fuel n acc ≠ ""%string.
Proof.
  intros Hf. assert (∀ f m a, a ≠ ""%string → digits_before f m a ≠ ""%string) as Hne.
  { intros f. induction f as [|f IH]; intros m a Ha; simpl; [done|].
    case_match; [done|]. by apply IH. }
  destruct fuel as [|fuel]; [done|]. simpl. case_match; [done|]. by apply Hne.
Qed.

(** The first character of a non-negative number is a digit. *)
Lemma digits_before_head fuel n acc :
  0 ≤ n → fuel ≠ O → ∃ c s, digits_before fuel n acc = String c s ∧ is_digit c = true.
Proof.
  assert (∀ f m c s, 0 ≤ m → is_digit c = true →
    ∃ c' s', digits_before f m (String c s) = String c' s' ∧ is_digit c' = true) as Hgo.
  { intros f. induction f as [|f IH]; intros m c s Hm Hc; simpl; [eauto|].
    destruct (digit_char_digit (m `mod` 10)) as [Hd _]; [apply Z.mod_pos_bound; lia|].
    case_match; [eauto|]. apply IH; [by apply Z.div_pos|done]. }
  intros Hn Hf. destruct fuel as [|fuel]; [done|]. simpl.
  destruct (digit_char_digit (n `mod` 10)) as [Hd _]; [apply Z.mod_pos_bound; lia|].
  case_match; [eauto|]. apply Hgo; [by apply Z.div_pos|done].
Qed.

Lemma parse_unsigned s n :
  parse_digits 0 s = Some n → 0 ≤ n < 2 ^ 63 →
  (∃ c t, s = String c t ∧ is_digit c = true) → parse_int64 s = Some n.
Proof.
  intros Hp Hn (c & t & -> & Hc). unfold parse_int64.
  destruct c as [[] [] [] [] [] [] [] []]; try discriminate Hc; rewrite Hp;
    by rewrite decide_True by lia.
Qed.

Lemma log2_fuel n : 0 ≤ n → n < 2 ^ Z.of_nat (S (Z.to_nat (Z.log2 n))).
Proof.
  intros Hn. destruct (decide (n = 0)) as [->|]; [done|].
  pose proof (Z.log2_spec n ltac:(lia)) as [_ Hlt].
  rewrite Nat2Z.inj_succ, Z2Nat.id by apply Z.log2_nonneg. done.
Qed.

(** Printing and parsing a 64-bit integer. *)
Lemma parse_FormatInt n : - 2 ^ 63 ≤ n < 2 ^ 63 → parse_int64 (FormatInt n) = Some n.
Proof.
  intros Hn. unfold FormatInt. destruct (n <? 0) eqn:Hneg.
  - apply Z.ltb_lt in Hneg. rewrite Z.abs_neq by lia. unfold parse_int64.
    destruct (digits_before _ (- n) "") as [|c s] eqn:Hd.
    { by destruct (digits_before_nonempty (S (Z.to_nat (Z.log2 (- n)))) (- n) ""). }
    rewrite <-Hd, parse_digits_before by (split; [lia|apply log2_fuel; lia]).
    simpl. rewrite decide_True by lia. f_equal. lia.
  - apply Z.ltb_ge in Hneg. rewrite Z.abs_eq by lia. apply parse_unsigned; [|lia|].
    + rewrite parse_digits_before by (split; [lia|apply log2_fuel; lia]). done.
    + by apply digits_before_head.
Qed.

(** ** Names

    A member fills the field whose name it equals up to Unicode case folding.  Besides the
    ASCII letters only the long s and the Kelvin sign fold to ASCII, the alphabet of the
    field names. *)

Definition fold_byte (c : Ascii.ascii) : Ascii.ascii :=
  let n := Ascii.nat_of_ascii c in
  if (97 <=? n)%nat && (n <=? 122)%nat then Ascii.ascii_of_nat (n - 32) else c.
Fixpoint foldName (s : string) : string :=
  match s with
  | String "197" (String "191" s') => String "S" (foldName s')
  | String "226" (String "132" (String "170" s')) => String "K" (foldName s')
  | String c s' => String (fold_byte c) (foldName s')
  | EmptyString => EmptyString
  end.

(** ** Decoding

    A decoder takes the value so far to the value it leaves, and whether there was no
    [UnmarshalTypeError]: a mismatch keeps the old value and the decoding goes on. *)

Definition Decoder (A : Type) : Type := A → json → A * bool.

Definition dec_string : Decoder string := λ old j,
  match j with JString s => (s, true) | JNull => (old, true) | _ => (old, false) end.
Definition dec_int : Decoder Z := λ old j,
  match j with
  | JNumber lit => match parse_int64 lit with Some n => (n, true) | None => (old, false) end
  | JNull => (old, true)
  | _ => (old, false)
  end.
Definition dec_bool : Decoder bool := λ old j,
  match j with JBool b => (b, true) | JNull => (old, true) | _ => (old, false) end.

(** A pointer: [null] sets it to [nil], anything else allocates. *)
Definition dec_ptr {A} (d : Decoder A) (zero : A) : Decoder (option A) := λ old j,
  match j with
  | JNull => (None, true)
  | _ => let '(a, ok) := d (default zero old) j in (Some a, ok)
  end.

(** The elements of an array, over those already in the slice. *)
Fixpoint dec_elements {A} (d : Decoder A) (zero : A) (old : list A) (js : list json)
    : list A * bool :=
  match js with
  | [] => ([], true)
  | j :: js' =>
      let '(a, ok) := d (default zero (head old)) j in
      let '(l, ok') := dec_elements d zero (tail old) js' in
      (a :: l, ok && ok')
  end.
Definition dec_slice {A} (d : Decoder A) (zero : A) : Decoder (list A) := λ old j,
  match j with
  | JArray js => dec_elements d zero old js
  | JNull => ([], true)
  | _ => (old, false)
  end.

(** A field of a struct: its name, how it is read and written, and its decoder. *)
Definition field_of {A B} (name : string) (get : A → B) (set : B → A → A) (d : Decoder B)
    : string * Decoder A :=
  (name, λ a j, let '(b, ok) := d (get a) j in (set b a, ok)).

Definition dec_member {A} (fields : list (string * Decoder A)) (acc : A * bool)
    (kv : string * json) : A * bool :=
  match head (filter (λ f, foldName f.1 = foldName kv.1) fields) with
  | Some (_, d) => let '(a, ok) := d acc.1 kv.2 in (a, acc.2 && ok)
  | None => acc
  end.
Definition dec_struct {A} (fields : list (string * Decoder A)) : Decoder A := λ old j,
  match j with
  | JObject members => fold_left (dec_member fields) members (old, true)
  | JNull => (old, true)
  | _ => (old, false)
  end.

(** [var v T; err := json.Unmarshal(...)] on a document. *)
Definition decode {A} (d : Decoder A) (zero : A) (j : json) : option A :=
  let '(a, ok) := d zero j in if ok : bool then Some a else None.

(** ** Encoding *)

Definition enc_int (n : Z) : json := JNumber (FormatInt n).
(** A member that [omitempty] leaves out for a nil pointer. *)
Definition omit_nil {A} (name : string) (enc : A → json) (v : option A) : list (string * json) :=
  match v with Some a => [(name, enc a)] | None => [] end.

(** A value a Go [int] or a pointer to one holds. *)
Definition int64_ok (n : Z) : Prop := - 2 ^ 63 ≤ n < 2 ^ 63.
Definition int64_ptr_ok (v : option Z) : Prop := from_option int64_ok True v.

Lemma dec_enc_int old n : int64_ok n → dec_int old (enc_int n) = (n, true).
Proof. intros Hn. unfold dec_int, enc_int. by rewrite parse_FormatInt. Qed.
Lemma dec_ptr_enc_int old n :
  int64_ok n → dec_ptr dec_int 0 old (enc_int n) = (Some n, true).
Proof. intros Hn. unfold dec_ptr. simpl. by rewrite (parse_FormatInt n Hn). Qed.

Lemma dec_elements_map {A} (d : Decoder A) zero (enc : A → json) (l : list A) :
  Forall (λ a, d zero (enc a) = (a, true)) l →
  dec_elements d zero [] (enc <$> l) = (l, true).
Proof.
  induction 1 as [|a l Ha _ IH]; [done|]. rewrite fmap_cons.
  change (dec_elements d zero [] (enc a :: (enc <$> l))) with
    (let '(a', ok) := d zero (enc a) in
     let '(l', ok') := dec_elements d zero [] (enc <$> l) in (a' :: l', ok && ok')).
  by rewrite Ha, IH.
Qed.

(** *** Members one after the other *)

Section members.
Context {A : Type} (fields : list (string * Decoder A)).

Definition field_named (name : string) : option (string * Decoder A) :=
  head (filter (λ f, foldName f.1 = foldName name) fields).

(** A member of a known name. *)
Lemma member_decodes name d v a ok a' :
  field_named name = Some d → d.2 a v = (a', true) →
  fold_left (dec_member fields) [(name, v)] (a, ok) = (a', ok).
Proof.
  intros Hf Hd. simpl. unfold dec_member. simpl. unfold field_named in Hf. rewrite Hf.
  destruct d as [n d]. simpl in Hd. rewrite Hd. by rewrite andb_true_r.
Qed.

(** A member of an unknown name. *)
Lemma member_ignored name v acc :
  field_named name = None → fold_left (dec_member fields) [(name, v)] acc = acc.
Proof. intros Hf. simpl. unfold dec_member. simpl. unfold field_named in Hf. by rewrite Hf. Qed.

(** A pointer to an integer that [omitempty] may leave out. *)
Lemma omit_nil_decodes name (get : A → option Z) set v a ok :
  field_named name = Some (field_of name get set (dec_ptr dec_int 0)) →
  int64_ptr_ok v → set None a = a →
  fold_left (dec_member fields) (omit_nil name enc_int v) (a, ok) = (set v a, ok).
Proof.
  intros Hf Hv Ha. destruct v as [n|]; [|by rewrite Ha].
  apply (member_decodes _ _ _ _ _ _ Hf). unfold field_of. cbn [snd].
  by rewrite (dec_ptr_enc_int _ _ Hv).
Qed.
End members.
