(* ===== verification/Text.v ===== *)
(** * Texts of the standard library

    [strings.Split] at one character, [base64.RawURLEncoding] and [url.PathEscape], with
    the lemmas on them that the clients' theorems share. *)

From S2P Require Import Prelude.

Implicit Types (c : Ascii.ascii) (s t : string).

Definition byte_of c : Z := Z.of_nat (Ascii.nat_of_ascii c).
Definition char_of (z : Z) : Ascii.ascii := Ascii.ascii_of_nat (Z.to_nat z).

Lemma byte_of_range c : 0 ≤ byte_of c < 256.
Proof. unfold byte_of. pose proof (Ascii.nat_ascii_bounded c). lia. Qed.
Lemma char_of_byte c : char_of (byte_of c) = c.
Proof. unfold char_of, byte_of. by rewrite Nat2Z.id, Ascii.ascii_nat_embedding. Qed.

(** ** Splitting *)

Fixpoint Split (sep : Ascii.ascii) s : list string :=
  match s with
  | EmptyString => [""%string]
  | String c s' =>
      if bool_decide (c = sep) then ""%string :: Split sep s'
      else match Split sep s' with
           | h :: rest => String c h :: rest
           | [] => [String c ""]
           end
  end.

(** Whether [c] occurs in [s]. *)
Fixpoint has_char c s : bool :=
  match s with
  | EmptyString => false
  | String d s' => bool_decide (d = c) || has_char c s'
  end.

Lemma Split_nil sep s : Split sep s ≠ [].
Proof. destruct s as [|c s]; simpl; [done|]. case_bool_decide; [done|]. by case_match. Qed.

Lemma Split_none sep s : has_char sep s = false → Split sep s = [s].
Proof.
  induction s as [|c s IH]; simpl; [done|]. intros [Hc Hs]%orb_false_iff.
  rewrite Hc, IH by done. done.
Qed.

Lemma Split_first sep s t :
  has_char sep s = false → Split sep (s +:+ String sep t) = s :: Split sep t.
Proof.
  induction s as [|c s IH]; simpl.
  - by rewrite bool_decide_true.
  - intros [Hc Hs]%orb_false_iff. rewrite Hc, IH by done. done.
Qed.

(** ** Base64 *)

Definition url_alphabet : string :=
  "ABCDEFGHIJKLMNOPQRSTUVWXYZabcdefghijklmnopqrstuvwxyz0123456789-_".

Fixpoint index_of (n : Z) c s : option Z :=
  match s with
  | EmptyString => None
  | String d s' => if bool_decide (c = d) then Some n else index_of (n + 1) c s'
  end.

(** The six-bit digits of a text; line breaks are skipped. *)
Fixpoint base64_digits s : option (list Z) :=
  match s with
  | EmptyString => Some []
  | String c s' =>
      if bool_decide (c = "010"%char ∨ c = "013"%char) then base64_digits s'
      else d ← index_of 0 c url_alphabet; ds ← base64_digits s'; Some (d :: ds)
  end.

(** The bytes of the digits; the spare bits of a last, partial group are dropped. *)
Fixpoint base64_bytes (ds : list Z) : option string :=
  match ds with
  | [] => Some ""%string
  | [a; b] => Some (String (char_of (a * 4 + b `div` 16)) "")
  | [a; b; c] =>
      Some (String (char_of (a * 4 + b `div` 16))
             (String (char_of (b `mod` 16 * 16 + c `div` 4)) ""))
  | a :: b :: c :: d :: ds' =>
      s ← base64_bytes ds';
      Some (String (char_of (a * 4 + b `div` 16))
             (String (char_of (b `mod` 16 * 16 + c `div` 4))
               (String (char_of (c `mod` 4 * 64 + d)) s)))
  | [_] => None
  end.

(** [base64.RawURLEncoding.DecodeString] *)
Definition DecodeString s : option string := base64_digits s ≫= base64_bytes.

(** *** The encoding it inverts *)

Fixpoint split_bytes s : list Z :=
  match s with
  | EmptyString => []
  | String x EmptyString => [byte_of x `div` 4; byte_of x `mod` 4 * 16]
  | String x (String y EmptyString) =>
      [byte_of x `div` 4; byte_of x `mod` 4 * 16 + byte_of y `div` 16; byte_of y `mod` 16 * 4]
  | String x (String y (String z s')) =>
      byte_of x `div` 4 :: byte_of x `mod` 4 * 16 + byte_of y `div` 16 ::
      byte_of y `mod` 16 * 4 + byte_of z `div` 64 :: byte_of z `mod` 64 :: split_bytes s'
  end.

Definition url_char (d : Z) : Ascii.ascii :=
  default "000"%char (String.get (Z.to_nat d) url_alphabet).
Fixpoint string_of_digits (ds : list Z) : string :=
  match ds with [] => ""%string | d :: ds' => String (url_char d) (string_of_digits ds') end.
Definition EncodeToString s : string := string_of_digits (split_bytes s).

Definition six_bits (d : Z) : Prop := 0 ≤ d < 64.

Lemma url_char_digit d :
  six_bits d → index_of 0 (url_char d) url_alphabet = Some d ∧
  url_char d ≠ "010"%char ∧ url_char d ≠ "013"%char ∧ url_char d ≠ "."%char.
Proof.
  intros Hd.
  assert (Forall (λ n, index_of 0 (url_char (Z.of_nat n)) url_alphabet = Some (Z.of_nat n) ∧
    url_char (Z.of_nat n) ≠ "010"%char ∧ url_char (Z.of_nat n) ≠ "013"%char ∧
    url_char (Z.of_nat n) ≠ "."%char) (seq 0 64)) as Hall
    by (apply (bool_decide_unpack _); vm_compute; exact I).
  rewrite Forall_forall in Hall. unfold six_bits in Hd.
  specialize (Hall (Z.to_nat d)). rewrite Z2Nat.id in Hall by lia. apply Hall.
  apply elem_of_seq. lia.
Qed.

Lemma digits_of_string ds :
  Forall six_bits ds → base64_digits (string_of_digits ds) = Some ds.
Proof.
  induction 1 as [|d ds Hd _ IH]; [done|]. cbn [string_of_digits base64_digits].
  destruct (url_char_digit d Hd) as (Hi & Hn & Hr & _).
  rewrite bool_decide_false by tauto. by rewrite Hi; simpl; rewrite IH.
Qed.

Lemma string_of_digits_no_dot ds :
  Forall six_bits ds → has_char "." (string_of_digits ds) = false.
Proof.
  induction 1 as [|d ds Hd _ IH]; [done|]. cbn [string_of_digits has_char].
  destruct (url_char_digit d Hd) as (_ & _ & _ & Hdot). by rewrite bool_decide_false.
Qed.

(** Strings by groups of three bytes. *)
Lemma string_ind3 (P : string → Prop) :
  P "" → (∀ x, P (String x "")) → (∀ x y, P (String x (String y ""))) →
  (∀ x y z s, P s → P (String x (String y (String z s)))) → ∀ s, P s.
Proof.
  intros H0 H1 H2 H3.
  fix IH 1. intros [|x [|y [|z s]]]; [exact H0|apply H1|apply H2|apply H3, IH].
Qed.

Ltac byte_arith :=
  repeat match goal with x : Ascii.ascii |- _ =>
    lazymatch goal with
    | _ : 0 ≤ byte_of x < 256 |- _ => fail
    | _ => pose proof (byte_of_range x)
    end
  end;
  Z.div_mod_to_equations; lia.

Lemma split_bytes_six s : Forall six_bits (split_bytes s).
Proof.
  induction s using string_ind3; simpl; repeat constructor; try done; try byte_arith.
Qed.

Lemma char_of_eq z c : z = byte_of c → char_of z = c.
Proof. intros ->. apply char_of_byte. Qed.

Lemma bytes_of_split s : base64_bytes (split_bytes s) = Some s.
Proof.
  induction s as [|x|x y|x y z s IH] using string_ind3; [done|..]; cbn [split_bytes base64_bytes].
  3: rewrite IH; cbn [option_bind mbind].
  all: repeat f_equal; apply char_of_eq; byte_arith.
Qed.

Lemma Decode_Encode s : DecodeString (EncodeToString s) = Some s.
Proof.
  unfold DecodeString, EncodeToString. rewrite digits_of_string by apply split_bytes_six.
  apply bytes_of_split.
Qed.

Lemma EncodeToString_no_dot s : has_char "." (EncodeToString s) = false.
Proof. apply string_of_digits_no_dot, split_bytes_six. Qed.

(** ** Trimming *)

(** [strings.TrimRight(s, c)] for one character. *)
Fixpoint TrimRight c s : string :=
  match s with
  | EmptyString => EmptyString
  | String d s' =>
      let t := TrimRight c s' in
      if bool_decide (t = EmptyString) && bool_decide (d = c) then EmptyString else String d t
  end.

(** ** Path segments *)

(** [shouldEscape(c, encodePathSegment)] *)
Definition shouldEscape c : bool :=
  let n := byte_of c in
  if ((97 <=? n) && (n <=? 122)) || ((65 <=? n) && (n <=? 90)) || ((48 <=? n) && (n <=? 57))
  then false
  else negb (has_char c "-_.~$&+:=@").

Definition upperhex (d : Z) : Ascii.ascii := if d <? 10 then char_of (d + 48) else char_of (d + 55).

Fixpoint PathEscape s : string :=
  match s with
  | EmptyString => EmptyString
  | String c s' =>
      if shouldEscape c
      then String "%" (String (upperhex (byte_of c `div` 16))
             (String (upperhex (byte_of c `mod` 16)) (PathEscape s')))
      else String c (PathEscape s')
  end.

(** The texts it leaves alone. *)
Fixpoint plain s : bool :=
  match s with EmptyString => true | String c s' => negb (shouldEscape c) && plain s' end.

Lemma length_PathEscape s : (String.length s ≤ String.length (PathEscape s))%nat.
Proof. induction s as [|c s IH]; simpl; [lia|]. case_match; simpl; lia. Qed.

Lemma PathEscape_plain s : PathEscape s = s ↔ plain s = true.
Proof.
  induction s as [|c s IH]; simpl; [done|]. destruct (shouldEscape c); simpl.
  - split; [|done]. intros H. apply (f_equal String.length) in H. simpl in H.
    pose proof (length_PathEscape s). lia.
  - rewrite <-IH. split; [by intros [=]|by intros ->].
Qed.

Lemma plain_PathEscape_percent s : plain s = false → has_char "%" (PathEscape s) = true.
Proof.
  induction s as [|c s IH]; simpl; [done|]. destruct (shouldEscape c); simpl; [done|].
  intros Hs. rewrite IH by done. apply orb_true_r.
Qed.

Lemma upperhex_plain d : 0 ≤ d < 16 → shouldEscape (upperhex d) = false.
Proof.
  assert (Forall (λ d, shouldEscape (upperhex d) = false) (seqZ 0 16)) as Hall.
  { vm_compute. by repeat constructor. }
  intros Hd. rewrite Forall_forall in Hall. apply Hall, elem_of_seqZ. lia.
Qed.

(** An escaped text has no character that is escaped, but the percent sign. *)
Lemma PathEscape_clean d s :
  shouldEscape d = true → d ≠ "%"%char → has_char d (PathEscape s) = false.
Proof.
  intros Hd Hp. assert (∀ n, 0 ≤ n < 16 → bool_decide (upperhex n = d) = false) as Hh.
  { intros n Hn. apply bool_decide_eq_false. intros <-. by rewrite upperhex_plain in Hd. }
  induction s as [|c s IH]; simpl; [done|].
  pose proof (byte_of_range c) as Hc. destruct (shouldEscape c) eqn:Hs; simpl; rewrite IH.
  - rewrite bool_decide_false by done.
    rewrite !Hh; [done|apply Z.mod_pos_bound; lia|]. split; [apply Z.div_pos; lia|].
    apply Z.div_lt_upper_bound; lia.
  - rewrite bool_decide_false; [done|]. intros ->. by rewrite Hd in Hs.
Qed.

(** ** UTF-8

    [utf8.ValidString]: the texts that [json.Marshal] writes as they are; in others it replaces
    what is not UTF-8. *)
Definition in_range (lo hi : Z) c : bool := (lo <=? byte_of c) && (byte_of c <=? hi).
Definition continuation c : bool := in_range 128 191 c.

(** What the first two bytes of a sequence of three or four may be. *)
Definition starts_three c d : bool :=
  in_range 225 236 c && continuation d || in_range 238 239 c && continuation d ||
  in_range 224 224 c && in_range 160 191 d || in_range 237 237 c && in_range 128 159 d.
Definition starts_four c d : bool :=
  in_range 241 243 c && continuation d || in_range 240 240 c && in_range 144 191 d ||
  in_range 244 244 c && in_range 128 143 d.

Fixpoint ValidString s : bool :=
  match s with
  | EmptyString => true
  | String c s1 =>
      if in_range 0 127 c then ValidString s1
      else match s1 with
           | String d s2 =>
               if in_range 194 223 c && continuation d then ValidString s2
               else match s2 with
                    | String f s3 =>
                        if starts_three c d && continuation f then ValidString s3
                        else match s3 with
                             | String g s4 =>
                                 starts_four c d && continuation f && continuation g &&
                                 ValidString s4
                             | EmptyString => false
                             end
                    | EmptyString => false
                    end
           | EmptyString => false
           end
  end.
