(* ===== verification/Runtime.v ===== *)
(** * The service state and the monad of its methods

    A [queue.Service] method reads the environment of one call ([Env]: the two
    clocks, the ids [gen_random_uuid()] will return, the rows locked by other
    transactions), and acts on a [World]: the committed tables, the working copy
    of the transaction in progress, the caches, the metrics and the broadcasts.
    Every round trip to PostgreSQL, Redis or the broadcaster consumes one entry
    of [w_faults]; an exhausted list means that the remaining round trips succeed. *)

From S2P Require Import Prelude.
From S2P Require Import Store.
From S2P Require Import Avro.

(** ** Errors, up to [errors.Is] *)

Inductive Error :=
| ErrNoMessage
| ErrNotFound
| ErrNotProcessing
| ErrNotDLQ
| ErrReservedTopic
| ErrQueueFull
| ErrTopicNotRegistered
| ErrInvalidBatchSize
| ErrTopicNotReplayable
| ErrReplayWindowTooOld
| ErrConsumerGroupNotFound
| ErrConsumerGroupExists
| ErrSchemaValidation (e : AvroError)
| ErrInvalidSchema
| ErrMetadata                          (* unmarshal metadata *)
| ErrCronSchedule                      (* invalid cron schedule *)
| ErrUserNotFound                      (* users.ErrNotFound *)
| ErrDuplicate
| ErrCannotDeleteSelf
| ErrHashPassword
| ErrTokenInvalid
| ErrSQL (what : string) (e : PgError). (* a failed round trip *)

(** The calls of [queue.MetricsRecorder]. *)
Inductive Metric :=
| RecordEnqueue (topic : string)
| RecordDequeue (topic : string)
| RecordAck (topic : string)
| RecordNack (topic outcome : string)
| RecordRequeue (topic : string)
| RecordExpired (n : Z)
| RecordDeleted (n : Z)
| RecordReplay (topic : string) (n : Z).

(** What a cache entry's bytes decode to: the sentinel [null], a topic config, a
    topic schema, or text that does not unmarshal. *)
Inductive CacheBytes :=
| cacheNotFoundSentinel
| cache_config (cfg : TopicConfig)
| cache_schema (ts : TopicSchema)
| cache_garbage (text : string).

(** The Redis client behind [cache.Redis]: a key may disappear at any time (its
    TTL, an eviction), never change. *)
Class Storage := {
  storage : Type;
  storage_get : storage → string → option CacheBytes;
  storage_set : storage → string → CacheBytes → Z → storage;
  storage_delete : storage → string → storage;
}.

Class StorageLaws `{ST : Storage} : Prop := {
  get_deleted st k : storage_get (storage_delete st k) k = None;
  get_delete_other st k k' v :
    storage_get (storage_delete st k) k' = Some v → storage_get st k' = Some v;
  get_set st k v ttl v' : storage_get (storage_set st k v ttl) k = Some v' → v' = v;
  get_set_other st k k' v ttl v' : k ≠ k' →
    storage_get (storage_set st k v ttl) k' = Some v' → storage_get st k' = Some v';
}.

(** ** Service, environment, world *)

(** The settings of a [Service], durations in nanoseconds. *)
Record Service := mkService {
  visibilityTimeout : Z;
  maxRetries : Z;
  messageTTL : Z;
  dlqThreshold : Z;
  requireTopicRegistration : bool;
}.

(** [go_now] is [time.Now()] in nanoseconds, [pg_now] SQL's [now()] in
    microseconds. *)
Record Env := mkEnv {
  go_now : Z;
  pg_now : Z;
  new_uuid : nat → uuid;
  locked_messages : gset uuid;
  locked_deliveries : gset (uuid * string);
}.

(** How a round trip ends: [Lost] is a failure reported after the server has
    applied the statement or the commit. *)
Inductive outcome := Works | Fails | Lost.

Section runtime.
Context `{PG : Postgres} `{ST : Storage}.

(** [w_cache] is [None] for [cache.Noop]. *)
Record World := mkWorld {
  w_db : DB;
  w_tx : DB;
  w_topicConfigCache : gmap string (option TopicConfig);
  w_schemaCache : gmap string (avro * Z);
  w_cache : option storage;
  w_published : list (string * string);
  w_metrics : list Metric;
  w_faults : list outcome;
}.

Definition set_db db (w : World) : World :=
  mkWorld db (w_tx w) (w_topicConfigCache w) (w_schemaCache w) (w_cache w)
    (w_published w) (w_metrics w) (w_faults w).
Definition set_tx db (w : World) : World :=
  mkWorld (w_db w) db (w_topicConfigCache w) (w_schemaCache w) (w_cache w)
    (w_published w) (w_metrics w) (w_faults w).
Definition set_config_cache c (w : World) : World :=
  mkWorld (w_db w) (w_tx w) c (w_schemaCache w) (w_cache w)
    (w_published w) (w_metrics w) (w_faults w).
Definition set_schema_cache c (w : World) : World :=
  mkWorld (w_db w) (w_tx w) (w_topicConfigCache w) c (w_cache w)
    (w_published w) (w_metrics w) (w_faults w).
Definition set_cache c (w : World) : World :=
  mkWorld (w_db w) (w_tx w) (w_topicConfigCache w) (w_schemaCache w) c
    (w_published w) (w_metrics w) (w_faults w).
Definition set_published p (w : World) : World :=
  mkWorld (w_db w) (w_tx w) (w_topicConfigCache w) (w_schemaCache w) (w_cache w)
    p (w_metrics w) (w_faults w).
Definition set_metrics m (w : World) : World :=
  mkWorld (w_db w) (w_tx w) (w_topicConfigCache w) (w_schemaCache w) (w_cache w)
    (w_published w) m (w_faults w).
Definition set_faults fs (w : World) : World :=
  mkWorld (w_db w) (w_tx w) (w_topicConfigCache w) (w_schemaCache w) (w_cache w)
    (w_published w) (w_metrics w) fs.

(** ** The monad *)

Definition M (A : Type) : Type := Env → World → result Error A * World.

#[export] Instance M_ret : MRet M := λ A a _ w, (Ok a, w).
#[export] Instance M_bind : MBind M := λ A B k m e w,
  match m e w with
  | (Ok a, w') => k a e w'
  | (Err x, w') => (Err x, w')
  end.

Definition fail {A} (x : Error) : M A := λ _ w, (Err x, w).
Definition ask : M Env := λ e w, (Ok e, w).
Definition get {A} (f : World → A) : M A := λ _ w, (Ok (f w), w).
Definition modify (f : World → World) : M unit := λ _ w, (Ok tt, f w).

(** [if cond { ...; return err }] *)
Definition guard_ok (b : bool) (x : Error) : M unit := if b then mret tt else fail x.

(** Go's use of an error as a value. *)
Definition try {A} (m : M A) : M (result Error A) := λ e w,
  let '(r, w') := m e w in (Ok r, w').

(** The next entry of the fault schedule. *)
Definition round_trip : M outcome := λ _ w,
  match w_faults w with
  | [] => (Ok Works, w)
  | o :: fs => (Ok o, set_faults fs w)
  end.

(** [pool.Begin] *)
Definition begin_tx (what : string) : M unit :=
  o ← round_trip;
  match o with
  | Works => modify (λ w, set_tx (w_db w) w)
  | _ => fail (ErrSQL what ConnectionError)
  end.

(** A statement of the transaction in progress. *)
Definition tx_stmt {A} (what : string) (q : Env → DB → result PgError (A * DB)) : M A :=
  o ← round_trip;
  match o with
  | Works => (λ e w,
      match q e (w_tx w) with
      | Ok (a, db') => (Ok a, set_tx db' w)
      | Err x => (Err (ErrSQL what x), w)
      end) : M A
  | _ => fail (ErrSQL what ConnectionError)
  end.

(** [tx.Commit]; returning before it is the deferred [tx.Rollback]. *)
Definition commit_tx (what : string) : M unit :=
  o ← round_trip;
  match o with
  | Works => modify (λ w, set_db (w_tx w) w)
  | Fails => fail (ErrSQL what ConnectionError)
  | Lost => modify (λ w, set_db (w_tx w) w);; fail (ErrSQL what ConnectionError)
  end.

(** A statement outside any transaction: it commits by itself. *)
Definition pool_stmt {A} (what : string) (q : Env → DB → result PgError (A * DB)) : M A :=
  o ← round_trip;
  (λ e w,
    match o with
    | Fails => (Err (ErrSQL what ConnectionError), w)
    | _ =>
        match q e (w_db w) with
        | Ok (a, db') =>
            (match o with Works => Ok a | _ => Err (ErrSQL what ConnectionError) end,
             set_db db' w)
        | Err x => (Err (ErrSQL what x), w)
        end
    end) : M A.

(** Statements that only read. *)
Definition tx_query {A} (what : string) (q : Env → DB → A) : M A :=
  tx_stmt what (λ e db, Ok (q e db, db)).
Definition pool_query {A} (what : string) (q : Env → DB → A) : M A :=
  pool_stmt what (λ e db, Ok (q e db, db)).
(** Statements without a result. *)
Definition tx_exec (what : string) (q : Env → DB → result PgError DB) : M unit :=
  tx_stmt what (λ e db, match q e db with Ok db' => Ok (tt, db') | Err x => Err x end).

(** [s.recorder.Record...] *)
Definition record (m : Metric) : M unit := modify (λ w, set_metrics (w_metrics w ++ [m]) w).

(** ** Running code *)

Section run.
Context {A B : Type}.
Implicit Types (k : A → M B) (e : Env) (w : World).

Lemma run_bind (m : M A) k e w :
  (m ≫= k) e w = match m e w with
                 | (Ok a, w') => k a e w'
                 | (Err x, w') => (Err x, w')
                 end.
Proof. done. Qed.
Lemma run_ret_bind (a : A) k e w : (mret a ≫= k) e w = k a e w.
Proof. done. Qed.
Lemma run_fail_bind x k e w : (fail x ≫= k) e w = (Err x, w).
Proof. done. Qed.
Lemma run_get (f : World → A) k e w : (get f ≫= k) e w = k (f w) e w.
Proof. done. Qed.
Lemma run_modify f (k : unit → M B) e w : (modify f ≫= k) e w = k tt e (f w).
Proof. done. Qed.
Lemma run_ask (k : Env → M B) e w : (ask ≫= k) e w = k e e w.
Proof. done. Qed.
Lemma run_bind_bind {C} (m : M C) (j : C → M A) k e w :
  ((m ≫= j) ≫= k) e w = (m ≫= (λ c, j c ≫= k)) e w.
Proof. unfold mbind, M_bind. by destruct (m e w) as [[]]. Qed.
Lemma run_try (m : M A) e w : try m e w = (Ok (m e w).1, (m e w).2).
Proof. unfold try. by destruct (m e w). Qed.
Lemma run_ret (a : A) e w : (mret a : M A) e w = (Ok a, w).
Proof. done. Qed.
Lemma run_fail x e w : (fail x : M A) e w = (Err x, w).
Proof. done. Qed.
End run.

(** Inversion of a successful run: what each primitive did to the world. *)

Lemma bind_Ok {A B} (m : M A) (k : A → M B) e w b w' :
  (m ≫= k) e w = (Ok b, w') →
  ∃ a w1, m e w = (Ok a, w1) ∧ k a e w1 = (Ok b, w').
Proof. rewrite run_bind. destruct (m e w) as [[a|x] w1]; [eauto|done]. Qed.

Lemma ret_Ok {A} (a b : A) e w w' : mret (M:=M) a e w = (Ok b, w') → b = a ∧ w' = w.
Proof. by intros [= <- <-]. Qed.

Lemma begin_tx_Ok what e w u w' :
  begin_tx what e w = (Ok u, w') → ∃ fs, w' = set_tx (w_db w) (set_faults fs w).
Proof.
  destruct w as [? ? ? ? ? ? ? [|[] fs]]; cbv; intros [= <- <-]; [by exists []|eauto].
Qed.

Lemma tx_stmt_Ok {A} what (q : Env → DB → result PgError (A * DB)) e w a w' :
  tx_stmt what q e w = (Ok a, w') →
  ∃ fs db', q e (w_tx w) = Ok (a, db') ∧ w' = set_tx db' (set_faults fs w).
Proof.
  unfold tx_stmt. rewrite run_bind.
  destruct w as [? ? ? ? ? ? ? [|[] fs]]; simpl; try done.
  all: destruct (q e _) as [[b db']|]; [|done]; intros [= <- <-].
  - by exists [], db'.
  - by exists fs, db'.
Qed.

Lemma tx_query_Ok {A} what (q : Env → DB → A) e w a w' :
  tx_query what q e w = (Ok a, w') → a = q e (w_tx w) ∧ ∃ fs, w' = set_faults fs w.
Proof.
  intros (fs & db' & [= <- <-] & ->)%tx_stmt_Ok. split; [done|]. by exists fs.
Qed.

Lemma commit_tx_Ok what e w u w' :
  commit_tx what e w = (Ok u, w') → ∃ fs, w' = set_db (w_tx w) (set_faults fs w).
Proof.
  destruct w as [? ? ? ? ? ? ? [|[] fs]]; cbv; intros [= <- <-]; [by exists []|eauto].
Qed.

Lemma pool_stmt_Ok {A} what (q : Env → DB → result PgError (A * DB)) e w a w' :
  pool_stmt what q e w = (Ok a, w') →
  ∃ fs db', q e (w_db w) = Ok (a, db') ∧ w' = set_db db' (set_faults fs w).
Proof.
  unfold pool_stmt. rewrite run_bind.
  destruct w as [? ? ? ? ? ? ? [|[] fs]]; simpl; try done.
  all: destruct (q e _) as [[b db']|]; try done; intros [= <- <-].
  - by exists [], db'.
  - by exists fs, db'.
Qed.

Lemma record_Ok m e w u w' :
  record m e w = (Ok u, w') → w' = set_metrics (w_metrics w ++ [m]) w.
Proof. by intros [= _ <-]. Qed.

Lemma guard_ok_Ok b x e w u w' : guard_ok b x e w = (Ok u, w') → b = true ∧ w' = w.
Proof. destruct b; [|done]. by intros [= _ <-]. Qed.

(** Runs without a failing round trip. *)

Lemma begin_tx_calm what e w :
  w_faults w = [] → begin_tx what e w = (Ok tt, set_tx (w_db w) w).
Proof. by destruct w; intros [= ->]. Qed.

Lemma tx_stmt_calm {A} what (q : Env → DB → result PgError (A * DB)) e w :
  w_faults w = [] →
  tx_stmt what q e w = match q e (w_tx w) with
                       | Ok (a, db') => (Ok a, set_tx db' w)
                       | Err x => (Err (ErrSQL what x), w)
                       end.
Proof. by destruct w; intros [= ->]. Qed.

Lemma tx_query_calm {A} what (q : Env → DB → A) e w :
  w_faults w = [] → tx_query what q e w = (Ok (q e (w_tx w)), w).
Proof. by destruct w; intros [= ->]. Qed.

Lemma commit_tx_calm what e w :
  w_faults w = [] → commit_tx what e w = (Ok tt, set_db (w_tx w) w).
Proof. by destruct w; intros [= ->]. Qed.

Lemma pool_stmt_calm {A} what (q : Env → DB → result PgError (A * DB)) e w :
  w_faults w = [] →
  pool_stmt what q e w = match q e (w_db w) with
                         | Ok (a, db') => (Ok a, set_db db' w)
                         | Err x => (Err (ErrSQL what x), w)
                         end.
Proof. by destruct w; intros [= ->]. Qed.

Lemma pool_query_quiet {A} what (q : Env → DB → A) e w :
  w_faults w = [] → pool_query what q e w = (Ok (q e (w_db w)), w).
Proof. intros Hf. unfold pool_query. rewrite pool_stmt_calm by done. by destruct w. Qed.

(** ** A logic of table changes

    For a preorder [R] on databases, [op R m]: a call of [m] relates the committed
    tables before and after it by [R], whatever the faults.  Inside a transaction
    [body R P m Q] is a Hoare triple on the working copy, and [in_tx R P m] says
    the same of code that may commit. *)

Section logic.
Context (R : relation DB) `{!PreOrder R}.
Implicit Types P : DB → Prop.

Definition quiet {A} (m : M A) : Prop := ∀ e w, w_db (m e w).2 = w_db w.
Definition neutral {A} (m : M A) : Prop :=
  ∀ e w, w_db (m e w).2 = w_db w ∧ w_tx (m e w).2 = w_tx w.
Definition op {A} (m : M A) : Prop := ∀ e w, R (w_db w) (w_db (m e w).2).
Definition body {A} P (m : M A) (Q : A → DB → Prop) : Prop := ∀ e w,
  R (w_db w) (w_tx w) → P (w_tx w) →
  w_db (m e w).2 = w_db w ∧ R (w_db w) (w_tx (m e w).2) ∧
  ∀ a, (m e w).1 = Ok a → Q a (w_tx (m e w).2).
Definition in_tx {A} P (m : M A) : Prop := ∀ e w,
  R (w_db w) (w_tx w) → P (w_tx w) → R (w_db w) (w_db (m e w).2).

(** *** Neutral and quiet code *)

Lemma neutral_quiet {A} (m : M A) : neutral m → quiet m.
Proof. intros Hm e w. apply Hm. Qed.

Lemma quiet_op {A} (m : M A) : quiet m → op m.
Proof. intros Hm e w. by rewrite Hm. Qed.

Lemma neutral_ret {A} (a : A) : neutral (mret a).
Proof. by intros e w. Qed.
Lemma neutral_fail {A} x : neutral (fail x : M A).
Proof. by intros e w. Qed.
Lemma neutral_ask : neutral ask.
Proof. by intros e w. Qed.
Lemma neutral_get {A} (f : World → A) : neutral (get f).
Proof. by intros e w. Qed.
Lemma neutral_record m : neutral (record m).
Proof. by intros e w. Qed.
Lemma neutral_config_cache f : neutral (modify (λ w, set_config_cache (f w) w)).
Proof. by intros e w. Qed.
Lemma neutral_schema_cache f : neutral (modify (λ w, set_schema_cache (f w) w)).
Proof. by intros e w. Qed.
Lemma neutral_cache f : neutral (modify (λ w, set_cache (f w) w)).
Proof. by intros e w. Qed.
Lemma neutral_published f : neutral (modify (λ w, set_published (f w) w)).
Proof. by intros e w. Qed.
Lemma neutral_round_trip : neutral round_trip.
Proof. intros e w. unfold round_trip. by destruct (w_faults w). Qed.
Lemma neutral_guard_ok b x : neutral (guard_ok b x).
Proof. intros e w. by destruct b. Qed.

Lemma neutral_bind {A B} (m : M A) (k : A → M B) :
  neutral m → (∀ a, neutral (k a)) → neutral (m ≫= k).
Proof.
  intros Hm Hk e w. unfold mbind, M_bind. specialize (Hm e w).
  destruct (m e w) as [[a|x] w']; simpl in *; [|done].
  destruct (Hk a e w') as [-> ->]. done.
Qed.

Lemma neutral_pool_query {A} what (q : Env → DB → A) : neutral (pool_query what q).
Proof.
  unfold pool_query, pool_stmt. apply neutral_bind; [apply neutral_round_trip|].
  intros [] e [???? ???]; done.
Qed.

Lemma quiet_bind {A B} (m : M A) (k : A → M B) :
  quiet m → (∀ a, quiet (k a)) → quiet (m ≫= k).
Proof.
  intros Hm Hk e w. unfold mbind, M_bind. specialize (Hm e w).
  destruct (m e w) as [[a|x] w']; simpl in *; [|done]. by rewrite Hk.
Qed.

(** *** Operations *)

Lemma op_bind {A B} (m : M A) (k : A → M B) : op m → (∀ a, op (k a)) → op (m ≫= k).
Proof.
  intros Hm Hk e w. unfold mbind, M_bind. specialize (Hm e w).
  destruct (m e w) as [[a|x] w']; simpl in *; [|done]. etrans; [done|apply Hk].
Qed.

(** A statement that, when it succeeds, relates the tables by [R]. *)
Definition respects {A} P (q : Env → DB → result PgError (A * DB)) (Q : A → DB → Prop)
    : Prop :=
  ∀ e db a db', P db → q e db = Ok (a, db') → R db db' ∧ Q a db'.

Lemma op_pool_stmt {A} what (q : Env → DB → result PgError (A * DB)) :
  respects (λ _, True) q (λ _ _, True) → op (pool_stmt what q).
Proof.
  intros Hq. apply op_bind; [apply quiet_op, neutral_quiet, neutral_round_trip|].
  intros o e w. destruct (q e (w_db w)) as [[a db']|x] eqn:Hqe.
  - apply Hq in Hqe as [HR _]; [|done]. rewrite ?Hqe. by destruct o.
  - by destruct o.
Qed.

Lemma op_try {A} (m : M A) : op m → op (try m).
Proof. intros Hm e w. rewrite run_try. apply Hm. Qed.

Lemma op_begin_tx {A} what (m : M A) :
  in_tx (λ _, True) m → op (begin_tx what;; m).
Proof.
  intros Hm e w. unfold begin_tx, round_trip, mbind, M_bind.
  destruct (w_faults w) as [|[] fs]; simpl; try done;
    match goal with |- R ?db (w_db (m _ ?w').2) => apply (Hm e w'); done end.
Qed.

(** *** Code inside a transaction *)

Lemma body_weaken {A} P P' (m : M A) (Q : A → DB → Prop) Q' :
  body P' m Q' → (∀ db, P db → P' db) → (∀ a db, Q' a db → Q a db) → body P m Q.
Proof.
  intros Hm HP HQ e w HR HPw. destruct (Hm e w HR (HP _ HPw)) as (?&?&Hret).
  split_and!; [done..|]. intros a Ha. by apply HQ, Hret.
Qed.

Lemma body_neutral {A} P (m : M A) : neutral m → body P m (λ _, P).
Proof. intros Hm e w HR HP. destruct (Hm e w) as [-> ->]. done. Qed.

Lemma body_bind {A B} P (m : M A) (k : A → M B) Q Q' :
  body P m Q' → (∀ a, body (Q' a) (k a) Q) → body P (m ≫= k) Q.
Proof.
  intros Hm Hk e w HR HP. unfold mbind, M_bind.
  destruct (Hm e w HR HP) as (Hdb & HR' & HQ).
  destruct (m e w) as [[a|x] w']; simpl in *; [|done].
  rewrite <-Hdb in HR' |- *. apply Hk; [done|]. by apply HQ.
Qed.

Lemma body_tx_stmt {A} P what (q : Env → DB → result PgError (A * DB)) Q :
  respects P q Q → body P (tx_stmt what q) Q.
Proof.
  intros Hq. apply (body_bind _ _ _ _ (λ _, P)).
  { apply body_neutral, neutral_round_trip. }
  intros o e w HR HP. destruct o; [|done..].
  destruct (q e (w_tx w)) as [[a db']|x] eqn:Hqe; [|done].
  apply Hq in Hqe as [HR' HQ]; [|done]. simpl. split_and!; [done| |by intros ? [= <-]].
  by etrans.
Qed.

Lemma body_tx_query {A} P what (q : Env → DB → A) :
  body P (tx_query what q) (λ a db, P db ∧ ∃ e, a = q e db).
Proof. apply body_tx_stmt. intros e db a db' HP [= <- <-]. split; [done|eauto]. Qed.

Lemma in_tx_body {A} P (m : M A) Q : body P m Q → in_tx P m.
Proof. intros Hm e w HR HP. by destruct (Hm e w HR HP) as (-> & _). Qed.

Lemma in_tx_quiet {A} P (m : M A) : quiet m → in_tx P m.
Proof. intros Hm e w _ _. by rewrite Hm. Qed.

Lemma in_tx_bind {A B} P (m : M A) (k : A → M B) Q :
  body P m Q → (∀ a, in_tx (Q a) (k a)) → in_tx P (m ≫= k).
Proof.
  intros Hm Hk e w HR HP. unfold mbind, M_bind.
  destruct (Hm e w HR HP) as (Hdb & HR' & HQ).
  destruct (m e w) as [[a|x] w']; simpl in *; [|by rewrite Hdb].
  rewrite <-Hdb in HR' |- *. apply Hk; [done|]. by apply HQ.
Qed.

Lemma in_tx_commit {A} P what (m : unit → M A) :
  (∀ u, quiet (m u)) → in_tx P (commit_tx what ≫= m).
Proof.
  intros Hm e w HR HP. unfold commit_tx, round_trip, mbind, M_bind.
  destruct (w_faults w) as [|[] fs]; simpl; rewrite ?Hm; done.
Qed.

End logic.

(** ** Invariants of the whole world

    [preserves P m]: a run of [m], under any faults and successful or not, keeps [P]. *)

Definition preserves {A} (P : World → Prop) (m : M A) : Prop := ∀ e w, P w → P (m e w).2.

Lemma preserves_ret {A} P (a : A) : preserves P (mret a).
Proof. by intros e w. Qed.
Lemma preserves_fail {A} P x : preserves P (fail x : M A).
Proof. by intros e w. Qed.
Lemma preserves_ask P : preserves P ask.
Proof. by intros e w. Qed.
Lemma preserves_get {A} P (f : World → A) : preserves P (get f).
Proof. by intros e w. Qed.
Lemma preserves_guard_ok P b x : preserves P (guard_ok b x).
Proof. intros e w. by destruct b. Qed.
Lemma preserves_modify (P : World → Prop) f : (∀ w, P w → P (f w)) → preserves P (modify f).
Proof. intros Hf e w. apply Hf. Qed.

Lemma preserves_bind {A B} P (m : M A) (k : A → M B) :
  preserves P m → (∀ a, preserves P (k a)) → preserves P (m ≫= k).
Proof.
  intros Hm Hk e w Hw. unfold mbind, M_bind. specialize (Hm e w Hw).
  destruct (m e w) as [[a|x] w']; simpl in *; [|done]. by apply Hk.
Qed.

(** The value [get] reads is related to the world the rest runs in. *)
Lemma preserves_get_bind {A B} P (f : World → A) (k : A → M B) :
  (∀ e w, P w → P (k (f w) e w).2) → preserves P (get f ≫= k).
Proof. intros Hk e w Hw. by apply Hk. Qed.

Lemma preserves_round_trip (P : World → Prop) :
  (∀ fs w, P w → P (set_faults fs w)) → preserves P round_trip.
Proof. intros HP e w Hw. unfold round_trip. destruct (w_faults w); [done|by apply HP]. Qed.

Lemma preserves_pool_query {A} (P : World → Prop) what (q : Env → DB → A) :
  (∀ fs w, P w → P (set_faults fs w)) → preserves P (pool_query what q).
Proof.
  intros HP. apply preserves_bind; [by apply preserves_round_trip|].
  intros [] e [???? ???]; done.
Qed.

(** ** Runs without a failing round trip

    [lost x]: [x] reports a round trip that failed.  [calm m]: when no round trip is
    scheduled to fail, none is afterwards and [m] does not report one. *)

Definition lost (x : Error) : Prop := ∃ what, x = ErrSQL what ConnectionError.

Definition calm {A} (m : M A) : Prop := ∀ e w, w_faults w = [] →
  w_faults (m e w).2 = [] ∧ ∀ x, (m e w).1 = Err x → ¬ lost x.

Lemma calm_ret {A} (a : A) : calm (mret a).
Proof. by intros e w. Qed.
Lemma calm_fail {A} x : ¬ lost x → calm (fail x : M A).
Proof. intros Hx e w. split; [done|]. by intros ? [= <-]. Qed.
Lemma calm_ask : calm ask.
Proof. by intros e w. Qed.
Lemma calm_get {A} (f : World → A) : calm (get f).
Proof. by intros e w. Qed.
Lemma calm_modify f : (∀ w, w_faults (f w) = w_faults w) → calm (modify f).
Proof. intros Hf e w Hw. split; [|done]. simpl. by rewrite Hf. Qed.
Lemma calm_record m : calm (record m).
Proof. by apply calm_modify. Qed.
Lemma calm_guard_ok b x : ¬ lost x → calm (guard_ok b x).
Proof. destruct b; [intros _; apply calm_ret|apply calm_fail]. Qed.

Lemma calm_bind {A B} (m : M A) (k : A → M B) :
  calm m → (∀ a, calm (k a)) → calm (m ≫= k).
Proof.
  intros Hm Hk e w Hw. unfold mbind, M_bind. destruct (Hm e w Hw) as [Hw' Hx].
  destruct (m e w) as [[a|x] w']; simpl in *; [by apply Hk|].
  split; [done|]. intros y [= <-]. by apply Hx.
Qed.

Lemma calm_round_trip {A} (k : outcome → M A) : calm (k Works) → calm (round_trip ≫= k).
Proof.
  intros Hk e w Hw. unfold mbind, M_bind, round_trip. rewrite Hw. by apply Hk.
Qed.

(** Statements do not report lost connections themselves. *)
Definition reports_no_loss {A} (q : Env → DB → result PgError A) : Prop :=
  ∀ e db, q e db ≠ Err ConnectionError.

Lemma not_lost_sql what x : x ≠ ConnectionError → ¬ lost (ErrSQL what x).
Proof. intros Hx [? [= ->]]. done. Qed.

Lemma calm_begin_tx what : calm (begin_tx what).
Proof. apply calm_round_trip. by apply calm_modify. Qed.
Lemma calm_commit_tx what : calm (commit_tx what).
Proof. apply calm_round_trip. by apply calm_modify. Qed.
Lemma calm_tx_stmt {A} what (q : Env → DB → result PgError (A * DB)) :
  reports_no_loss q → calm (tx_stmt what q).
Proof.
  intros Hq. apply calm_round_trip. intros e w Hw.
  destruct (q e (w_tx w)) as [[a db']|x] eqn:Hqe; simpl; [done|].
  split; [done|]. intros y [= <-]. apply not_lost_sql. intros ->. by apply (Hq e (w_tx w)).
Qed.
Lemma calm_tx_exec what (q : Env → DB → result PgError DB) :
  reports_no_loss q → calm (tx_exec what q).
Proof.
  intros Hq. apply calm_tx_stmt. intros e db. specialize (Hq e db).
  destruct (q e db); [done|]. intros [= ->]. done.
Qed.
Lemma calm_tx_query {A} what (q : Env → DB → A) : calm (tx_query what q).
Proof. by apply calm_tx_stmt. Qed.
Lemma calm_pool_stmt {A} what (q : Env → DB → result PgError (A * DB)) :
  reports_no_loss q → calm (pool_stmt what q).
Proof.
  intros Hq. apply calm_round_trip. intros e w Hw.
  destruct (q e (w_db w)) as [[a db']|x] eqn:Hqe; simpl; [done|].
  split; [done|]. intros y [= <-]. apply not_lost_sql. intros ->. by apply (Hq e (w_db w)).
Qed.
Lemma calm_pool_query {A} what (q : Env → DB → A) : calm (pool_query what q).
Proof. by apply calm_pool_stmt. Qed.

(** A query of the pool is answered from the tables or lost. *)
Lemma pool_query_cases {A} what (q : Env → DB → A) e w :
  ∃ fs, pool_query what q e w = (Ok (q e (w_db w)), set_faults fs w) ∨
        pool_query what q e w = (Err (ErrSQL what ConnectionError), set_faults fs w).
Proof.
  destruct w as [? ? ? ? ? ? ? [|[] fs]]; cbv; [exists [] | exists fs ..]; by auto.
Qed.

(** A statement of the pool is applied and reported, applied and reported as lost,
    not applied and lost, or refused. *)
Lemma pool_stmt_cases {A} what (q : Env → DB → result PgError (A * DB)) e w :
  (∃ fs a db', q e (w_db w) = Ok (a, db') ∧
     (pool_stmt what q e w = (Ok a, set_db db' (set_faults fs w)) ∨
      pool_stmt what q e w =
        (Err (ErrSQL what ConnectionError), set_db db' (set_faults fs w)))) ∨
  (∃ fs, pool_stmt what q e w = (Err (ErrSQL what ConnectionError), set_faults fs w)) ∨
  (∃ fs x, q e (w_db w) = Err x ∧ pool_stmt what q e w = (Err (ErrSQL what x), set_faults fs w)).
Proof.
  destruct w as [db ? ? ? ? ? ? [|[] fs]]; simpl;
    destruct (q e db) as [[a db']|x] eqn:Hq; unfold pool_stmt; rewrite !run_bind; simpl;
    rewrite ?Hq.
  1, 3, 7: left; first [by exists [], a, db'; auto | by exists fs, a, db'; auto].
  3, 4: right; left; by exists fs.
  all: right; right; first [by exists [], x | by exists fs, x].
Qed.

(** ** Methods against reference definitions *)

(** A run of a method against its reference: the reference's answer, or a failed
    round trip that applied the statement or did not. *)
Definition implements {A} (ref : result Error (A * DB)) (db : DB) (run : result Error A * World)
    : Prop :=
  match ref with
  | Ok (a, db') => run.1 = Ok a ∧ w_db run.2 = db'
  | Err x => run.1 = Err x ∧ w_db run.2 = db
  end ∨
  (∃ x, run.1 = Err x ∧ lost x) ∧
    (w_db run.2 = db ∨ ∃ a db', ref = Ok (a, db') ∧ w_db run.2 = db').

Lemma implements_lost {A} (ref : result Error (A * DB)) db (w : World) x :
  lost x → w_db w = db → implements ref db (Err x, w).
Proof. right. naive_solver. Qed.

(** A successful run agrees with its reference. *)
Lemma implements_Ok {A} (ref : result Error (A * DB)) db (a : A) w :
  implements ref db (Ok a, w) → ref = Ok (a, w_db w).
Proof.
  intros [H|[(x & ? & _) _]]; [|done]. destruct ref as [[a' db']|x]; simpl in H; [|by destruct H].
  by destruct H as [[= ->] ->].
Qed.

(** A run without faults agrees with its reference. *)
Lemma implements_calm {A} (ref : result Error (A * DB)) (m : M A) e w :
  implements ref (w_db w) (m e w) → calm m → w_faults w = [] →
  match ref with
  | Ok (a, db') => (m e w).1 = Ok a ∧ w_db (m e w).2 = db'
  | Err x => (m e w).1 = Err x ∧ w_db (m e w).2 = w_db w
  end.
Proof.
  intros Hi Hc Hf. destruct (Hc e w Hf) as [_ Hx].
  destruct Hi as [Hi|[(x & Hrun & Hl) _]]; [done|]. by destruct (Hx x).
Qed.

(** What the end of a transaction makes of its working copy. *)
Definition sql_result (what : string) (r : result PgError DB) : result Error (unit * DB) :=
  match r with Ok db => Ok (tt, db) | Err x => Err (ErrSQL what x) end.

Lemma tx_exec_cases what q e w :
  ∃ fs, match q e (w_tx w) with
        | Ok db' => tx_exec what q e w = (Ok tt, set_tx db' (set_faults fs w))
        | Err x => tx_exec what q e w = (Err (ErrSQL what x), set_faults fs w)
        end ∨ tx_exec what q e w = (Err (ErrSQL what ConnectionError), set_faults fs w).
Proof.
  unfold tx_exec, tx_stmt. rewrite run_bind.
  destruct w as [db tx ? ? ? ? ? [|[] fs]]; simpl; [exists []; left | exists fs; left | by exists fs; auto..];
    by destruct (q e tx).
Qed.

Lemma tx_stmt_cases {A} what (q : Env → DB → result PgError (A * DB)) e w a db' :
  q e (w_tx w) = Ok (a, db') →
  ∃ fs, tx_stmt what q e w = (Ok a, set_tx db' (set_faults fs w)) ∨
        tx_stmt what q e w = (Err (ErrSQL what ConnectionError), set_faults fs w).
Proof.
  intros Hq. unfold tx_stmt. rewrite run_bind. destruct w as [db tx ? ? ? ? ? [|[] fs]]; simpl in *;
    rewrite ?Hq; [exists [] | exists fs ..]; by auto.
Qed.

Lemma tx_query_cases {A} what (q : Env → DB → A) e w :
  ∃ fs, tx_query what q e w = (Ok (q e (w_tx w)), set_faults fs w) ∨
        tx_query what q e w = (Err (ErrSQL what ConnectionError), set_faults fs w).
Proof.
  destruct w as [? ? ? ? ? ? ? [|[] fs]]; cbv; [exists [] | exists fs ..]; by auto.
Qed.

(** The statement, commit and metric with which a transaction ends. *)
Lemma commit_implements what m db db' e w :
  w_db w = db → w_tx w = db' →
  implements (Ok (tt, db')) db ((commit_tx what;; record m) e w).
Proof.
  intros <- <-. destruct w as [db tx ? ? ? ? ? [|[] fs]]; unfold implements; simpl; [by left..| |];
    right; split; [by eexists; split; [|eexists]|by left|by eexists; split; [|eexists]|];
    right; eauto.
Qed.

Lemma exec_commit_implements what q what' m ref db e w :
  w_db w = db → ref = sql_result what (q e (w_tx w)) →
  implements ref db ((tx_exec what q;; commit_tx what';; record m) e w).
Proof.
  intros <- ->. rewrite run_bind. destruct (tx_exec_cases what q e w) as [fs [Hq|Hq]].
  - destruct (q e (w_tx w)) as [db'|x]; rewrite Hq; simpl; [|by left].
    by apply commit_implements.
  - rewrite Hq. apply implements_lost; [by eexists|done].
Qed.

(** The begin and the first query: the rest runs on a fresh working copy. *)
Lemma begin_query_ind {A B} (Φ : result Error B * World → Prop) what what'
    (q : Env → DB → A) (k : A → M B) e w :
  (∀ x w1, lost x → w_db w1 = w_db w → Φ (Err x, w1)) →
  (∀ fs, (w_faults w = [] → fs = []) →
     Φ (k (q e (w_db w)) e (set_tx (w_db w) (set_faults fs w)))) →
  Φ ((begin_tx what;; tx_query what' q ≫= k) e w).
Proof.
  intros Hlost Hk. destruct w as [db tx ? ? ? ? ? [|[] [|[] fs]]];
    unfold begin_tx, tx_query, tx_stmt; rewrite !run_bind; simpl;
    first [by apply Hk | by apply (Hk []) | by apply (Hk fs) | by apply Hlost; [eexists|]].
Qed.
End runtime.


#[export] Hint Resolve neutral_ret neutral_fail neutral_ask neutral_get neutral_record
  neutral_config_cache neutral_schema_cache neutral_cache neutral_published
  neutral_round_trip neutral_guard_ok neutral_bind neutral_pool_query
  neutral_quiet quiet_bind : queueti.
#[export] Hint Resolve preserves_ret preserves_fail preserves_ask preserves_get
  preserves_guard_ok : queueti.
#[export] Hint Resolve calm_ret calm_ask calm_get calm_record calm_begin_tx
  calm_commit_tx calm_tx_query calm_pool_query calm_tx_stmt calm_tx_exec calm_pool_stmt : queueti.
#[export] Hint Extern 1 (reports_no_loss _) => by intros ? ? : queueti.
#[export] Hint Extern 1 (calm (modify _)) => apply calm_modify; done : queueti.
#[export] Hint Extern 1 (calm (fail _)) => apply calm_fail; by intros [? ?] : queueti.
#[export] Hint Extern 1 (calm (guard_ok _ _)) =>
  apply calm_guard_ok; by intros [? ?] : queueti.

(** Neutrality of a method body, by walking through it. *)
Ltac solve_neutral :=
  repeat (intros; first [ solve [auto with queueti] | apply neutral_bind | case_match ]).

(** The same for [preserves]. *)
Ltac solve_preserves :=
  repeat (intros; first [ solve [auto with queueti] | apply preserves_bind | case_match ]).

(** The same for [calm]. *)
Ltac solve_calm :=
  repeat (intros; first
    [ solve [auto with queueti] | apply calm_round_trip | apply calm_bind | case_match ]).

Create Rewrite HintDb run.
#[export] Hint Rewrite @run_ret_bind @run_fail_bind @run_get @run_modify @run_ask
  @run_bind_bind @run_ret @run_fail : run.

(** Peel a successful run off one primitive at a time. *)
Ltac inv_ok :=
  repeat match goal with
  | H : (_ ≫= _) _ _ = (Ok _, _) |- _ => apply bind_Ok in H as (? & ? & ? & H)
  | H : mret _ _ _ = (Ok _, _) |- _ => apply ret_Ok in H as [-> ->]
  | H : fail _ _ _ = (Ok _, _) |- _ => discriminate H
  | H : begin_tx _ _ _ = (Ok _, _) |- _ => apply begin_tx_Ok in H as [? ->]
  | H : tx_query _ _ _ _ = (Ok _, _) |- _ => apply tx_query_Ok in H as (-> & ? & ->)
  | H : tx_stmt _ _ _ _ = (Ok _, _) |- _ => apply tx_stmt_Ok in H as (? & ? & ? & ->)
  | H : pool_stmt _ _ _ _ = (Ok _, _) |- _ => apply pool_stmt_Ok in H as (? & ? & ? & ->)
  | H : commit_tx _ _ _ = (Ok _, _) |- _ => apply commit_tx_Ok in H as [? ->]
  | H : record _ _ _ = (Ok _, _) |- _ => apply record_Ok in H as ->
  | H : guard_ok _ _ _ _ = (Ok _, _) |- _ => apply guard_ok_Ok in H as [? ->]
  | H : ask _ _ = (Ok _, _) |- _ => injection H as <- <-
  | H : get _ _ _ = (Ok _, _) |- _ => injection H as <- <-
  | H : (if ?b then _ else _) _ _ = (Ok _, _) |- _ => destruct b eqn:?
  | H : match ?b with _ => _ end _ _ = (Ok _, _) |- _ => destruct b eqn:?
  end.
