(* ===== verification/Model.v ===== *)
(** * A concrete database server

    Instances of [Postgres] and [Storage] that satisfy their laws, on which the
    definitions of the development evaluate: rows sorted by [merge_sort], [float8]
    as fixed-point numbers with six decimals, Redis as a finite map. *)

From S2P Require Import Prelude.
From S2P Require Import Store.
From S2P Require Import Avro.
From S2P Require Import Runtime.

Definition key_le {A} (key : A → Z) (x y : A) : Prop := key x ≤ key y.
#[export] Instance key_le_dec {A} (key : A → Z) x y : Decision (key_le key x y).
Proof. unfold key_le. apply _. Defined.
#[export] Instance key_le_trans {A} (key : A → Z) : Transitive (key_le key).
Proof. intros x y z. unfold key_le. lia. Qed.
#[export] Instance key_le_total {A} (key : A → Z) : Total (key_le key).
Proof. intros x y. unfold key_le. lia. Qed.
Definition text_le {A} (key : A → string) (x y : A) : Prop :=
  String.leb (key x) (key y) = true.
#[export] Instance text_key_le_dec {A} (key : A → string) x y : Decision (text_le key x y).
Proof. unfold text_le. apply _. Defined.

Definition text2_le {A} (key key' : A → string) (x y : A) : Prop :=
  String.ltb (key x) (key y) = true ∨
  (key x = key y ∧ String.leb (key' x) (key' y) = true).
#[export] Instance text2_le_dec {A} (key key' : A → string) x y :
  Decision (text2_le key key' x y).
Proof. unfold text2_le. apply _. Defined.

#[export] Instance pg_model : Postgres := {|
  order_by A key := merge_sort (key_le key);
  order_by_text A key := merge_sort (text_le key);
  order_by_text2 A key key' := merge_sort (text2_le key key');
  returning A l := l;
  f8 := Z;
  f8_of_Z z := z * 10 ^ 6;
  f8_add := Z.add;
  f8_sub := Z.sub;
  f8_mul x y := (x * y) `div` 10 ^ 6;
  f8_ltb := Z.ltb;
  f8_epoch z := z;
  f8_int x := Z.quot x (10 ^ 6);
|}.

#[export] Instance pg_model_laws : PostgresLaws.
Proof.
  split; simpl.
  - intros. apply merge_sort_Permutation.
  - intros A key l. apply (StronglySorted_merge_sort (key_le key)).
  - intros. apply merge_sort_Permutation.
  - intros. apply merge_sort_Permutation.
  - done.
  - intros z _. by apply Z.quot_mul.
  - intros x z _ Hlt%Z.ltb_lt. rewrite <-(Z.quot_mul z (10 ^ 6)) by done.
    apply Z.quot_le_mono; lia.
  - intros x z _ Hge%Z.ltb_ge. rewrite <-(Z.quot_mul z (10 ^ 6)) at 1 by done.
    by apply Z.quot_le_mono.
  - intros x n Hn _. change (10 ^ 6) with 1000000 in *.
    destruct (decide (n = 0)) as [->|Hn0]; [by rewrite Z.mul_0_l, !Z.sub_0_r|].
    pose proof (Z.quot_rem' x 1000000). pose proof (Z.rem_bound_abs x 1000000).
    replace (x - n * 1000000) with (x + (- n) * 1000000) by lia.
    assert (0 ≤ x) by lia. pose proof (Z.rem_nonneg x 1000000).
    rewrite Z.quot_add; [lia|lia|]. apply Z.mul_nonneg_nonneg; lia.
  - intros x z _. by rewrite Z.mul_0_r, Z.div_0_l, Z.add_0_r by done.
Qed.

#[export] Instance storage_model : Storage := {|
  storage := gmap string CacheBytes;
  storage_get st k := st !! k;
  storage_set st k v _ := <[k:=v]> st;
  storage_delete st k := delete k st;
|}.

#[export] Instance storage_model_laws : StorageLaws.
Proof.
  split; simpl; intros *.
  - apply lookup_delete_eq.
  - by intros [_ H]%lookup_delete_Some.
  - rewrite lookup_insert_eq. congruence.
  - intros ttl v' Hk H. by rewrite lookup_insert_ne in H.
Qed.

(** Ids ["m"], ["mi"], ["mii"], ... *)
Definition unary_id (n : nat) : uuid := String "m" (Nat.iter n (String "i") "").

#[export] Instance unary_id_inj : Inj (=) (=) unary_id.
Proof.
  intros n k Heq. apply (f_equal String.length) in Heq.
  assert (∀ j, String.length (unary_id j) = S j) as Hlen; [|rewrite !Hlen in Heq; lia].
  intros j. unfold unary_id. simpl. f_equal. induction j as [|j IH]; simpl; [done|by rewrite IH].
Qed.

(** A call at second [s] of the clocks, no row locked. *)
Definition env_at (s : Z) : Env := mkEnv (s * Second) (s * 10 ^ 6) unary_id ∅ ∅.

(** A world with tables [db], an empty cache of each kind and no failing round
    trip. *)
Definition world_of (db : DB) : World := mkWorld db db ∅ ∅ (Some ∅) [] [] [].

(** The constraints of a database, as a computation. *)
Definition db_check (db : DB) : bool :=
  bool_decide (map_Forall (λ i r, key_free i r (messages db)) (messages db)) &&
  bool_decide (map_Forall (λ k d, is_Some (messages db !! k.1) ∧ d_status d ≠ expired)
    (message_deliveries db)).

Lemma db_check_ok db : db_check db = true → db_ok db.
Proof.
  intros [Hm%bool_decide_eq_true Hd%bool_decide_eq_true]%andb_true_iff. split.
  - intros i j r r' Hi Hj Hij Hcl. by apply (Hm i r Hi j r' Hj (not_eq_sym Hij)).
  - intros i g d H. by apply (Hd (i, g) d H).
  - intros k d H. by apply (Hd k d H).
Qed.
