(* ===== verification/TopicConfig.v ===== *)
(** * The distributed cache, the broadcaster and the topic configuration

    [backend/internal/cache] (the [Cache] interface with its [Noop] and [Redis]
    implementations), the publishing half of [backend/internal/broadcast], and
    [backend/internal/queue/topic_config.go]: lookups through the in-process map
    (L1), the distributed cache (L2) and the table (L3), and the updates that
    invalidate the two caches. *)

From S2P Require Import Prelude.
From S2P Require Import Store.
From S2P Require Import Avro.
From S2P Require Import Runtime.

Section topic_config.
Context `{PG : Postgres} `{ST : Storage}.

(** ** [cache.Cache]

    The methods return an error as a value, because every caller inspects or
    drops it. *)

Definition cache_Get (key : string) : M (result unit (option CacheBytes)) :=
  c ← get w_cache;
  match c with
  | None => mret (Ok None)
  | Some st =>
      o ← round_trip;
      match o with
      | Works => mret (Ok (storage_get st key))
      | _ => mret (Err tt)
      end
  end.

Definition cache_Set (key : string) (val : CacheBytes) (ttl : Z) : M (result unit unit) :=
  c ← get w_cache;
  match c with
  | None => mret (Ok tt)
  | Some st =>
      o ← round_trip;
      match o with
      | Works => modify (λ w, set_cache (Some (storage_set st key val ttl)) w);; mret (Ok tt)
      | Lost => modify (λ w, set_cache (Some (storage_set st key val ttl)) w);; mret (Err tt)
      | Fails => mret (Err tt)
      end
  end.

(** [Redis.Delete] deletes key by key and stops at the first error. *)
Fixpoint cache_Delete (keys : list string) : M (result unit unit) :=
  match keys with
  | [] => mret (Ok tt)
  | key :: keys' =>
      c ← get w_cache;
      match c with
      | None => mret (Ok tt)
      | Some st =>
          o ← round_trip;
          match o with
          | Works =>
              modify (λ w, set_cache (Some (storage_delete st key)) w);; cache_Delete keys'
          | Lost => modify (λ w, set_cache (Some (storage_delete st key)) w);; mret (Err tt)
          | Fails => mret (Err tt)
          end
      end
  end.

(** ** [broadcast.Broadcaster]

    The callers of [Publish] only log its error. *)

Definition ChannelSchemaChanged : string := "queue_ti_schema_changed".
Definition ChannelConfigChanged : string := "queue_ti_config_changed".

Definition Publish (channel payload : string) : M (result unit unit) :=
  o ← round_trip;
  match o with
  | Works => modify (λ w, set_published (w_published w ++ [(channel, payload)]) w);; mret (Ok tt)
  | Lost => modify (λ w, set_published (w_published w ++ [(channel, payload)]) w);; mret (Err tt)
  | Fails => mret (Err tt)
  end.

(** ** [topic_config.go] *)

Definition configCachePrefix : string := "queueti:cache:topic_config:".
Definition configCacheTTL : Z := 30 * Second.

(** [json.Unmarshal(raw, &cfg)]: unknown fields are ignored, missing ones stay
    zero. *)
Definition decode_config (raw : CacheBytes) : option TopicConfig :=
  match raw with
  | cache_config cfg => Some cfg
  | cache_schema ts => Some (mkTopicConfig (ts_Topic ts) None None None false None None)
  | cacheNotFoundSentinel => Some (mkTopicConfig "" None None None false None None)
  | cache_garbage _ => None
  end.

(** [s.topicConfigCache.Store(topic, topicConfigEntry{cfg})] *)
Definition store_config (topic : string) (cfg : option TopicConfig) : M unit :=
  modify (λ w, set_config_cache (<[topic:=cfg]> (w_topicConfigCache w)) w).

(** The L3 part of [GetTopicConfig]. *)
Definition get_config_db (topic : string) : M (option TopicConfig) :=
  row ← pool_query "get topic config" (λ _ db, topic_config db !! topic);
  match row with
  | None =>
      store_config topic None;;
      cache_Set (configCachePrefix +:+ topic) cacheNotFoundSentinel configCacheTTL;;
      mret None
  | Some cfg =>
      store_config topic (Some cfg);;
      cache_Set (configCachePrefix +:+ topic) (cache_config cfg) configCacheTTL;;
      mret (Some cfg)
  end.

Definition GetTopicConfig (topic : string) : M (option TopicConfig) :=
  l1 ← get w_topicConfigCache;
  match l1 !! topic with
  | Some cfg => mret cfg
  | None =>
      raw ← cache_Get (configCachePrefix +:+ topic);
      match raw with
      | Ok (Some cacheNotFoundSentinel) => store_config topic None;; mret None
      | Ok (Some bytes) =>
          match decode_config bytes with
          | Some cfg => store_config topic (Some cfg);; mret (Some cfg)
          | None =>
              (* a corrupted entry is evicted *)
              cache_Delete [configCachePrefix +:+ topic];; get_config_db topic
          end
      | _ => get_config_db topic
      end
  end.

(** The driver's range check on the nullable [INT] parameters. *)
Definition config_int4 (cfg : TopicConfig) : Prop :=
  Forall (λ o, match o with Some z => int4 z | None => True end)
    [MaxRetries cfg; MessageTTLSeconds cfg; MaxDepth cfg; ReplayWindowSeconds cfg;
     ThroughputLimit cfg].
#[export] Instance config_int4_dec cfg : Decision (config_int4 cfg).
Proof. apply Forall_dec. intros [z|]; apply _. Defined.

Definition sql_upsert_config (cfg : TopicConfig) (_ : Env) (db : DB)
    : result PgError (unit * DB) :=
  if decide (config_int4 cfg)
  then Ok (tt, set_config (<[Topic cfg:=cfg]> (topic_config db)) db)
  else Err NumericOutOfRange.

(** The cache eviction and broadcast shared by the two updates. *)
Definition invalidate_config (topic : string) : M unit :=
  modify (λ w, set_config_cache (delete topic (w_topicConfigCache w)) w);;
  cache_Delete [configCachePrefix +:+ topic];;
  Publish ChannelConfigChanged topic;;
  mret tt.

Definition UpsertTopicConfig (cfg : TopicConfig) : M unit :=
  if HasSuffix (Topic cfg) ".dlq" then fail ErrReservedTopic
  else
    pool_stmt "upsert topic config" (sql_upsert_config cfg);;
    invalidate_config (Topic cfg).

Definition sql_delete_config (topic : string) (_ : Env) (db : DB) : result PgError (Z * DB) :=
  Ok (match topic_config db !! topic with Some _ => 1 | None => 0 end,
      set_config (delete topic (topic_config db)) db).
Definition sql_delete_throughput (topic : string) (_ : Env) (db : DB)
    : result PgError (unit * DB) :=
  Ok (tt, set_throughput (delete topic (topic_throughput db)) db).

Definition DeleteTopicConfig (topic : string) : M unit :=
  rows ← pool_stmt "delete topic config" (sql_delete_config topic);
  if rows =? 0 then fail ErrNotFound
  else
    pool_stmt "delete topic throughput" (sql_delete_throughput topic);;
    invalidate_config topic.

Definition ListTopicConfigs : M (list TopicConfig) :=
  pool_query "list topic configs" (λ _ db, order_by_text Topic (map_to_list (topic_config db)).*2).

(** [listenChannel]'s handler for [ChannelConfigChanged]. *)
Definition onConfigChanged (topic : string) : M unit :=
  modify (λ w, set_config_cache (delete topic (w_topicConfigCache w)) w).

(** ** Table changes *)

Lemma cache_Get_neutral key : neutral (cache_Get key).
Proof. unfold cache_Get. solve_neutral. Qed.
Lemma cache_Set_neutral key v ttl : neutral (cache_Set key v ttl).
Proof. unfold cache_Set. solve_neutral. Qed.
Lemma cache_Delete_neutral keys : neutral (cache_Delete keys).
Proof. induction keys as [|k keys IH]; simpl; solve_neutral. Qed.
Lemma Publish_neutral ch p : neutral (Publish ch p).
Proof. unfold Publish. solve_neutral. Qed.
Hint Resolve cache_Get_neutral cache_Set_neutral cache_Delete_neutral Publish_neutral : queueti.

Lemma store_config_neutral t c : neutral (store_config t c).
Proof. unfold store_config. solve_neutral. Qed.
Hint Resolve store_config_neutral : queueti.
Lemma get_config_db_neutral t : neutral (get_config_db t).
Proof. unfold get_config_db. solve_neutral. Qed.
Hint Resolve get_config_db_neutral : queueti.
Lemma GetTopicConfig_neutral t : neutral (GetTopicConfig t).
Proof. unfold GetTopicConfig. solve_neutral. Qed.
Lemma invalidate_config_neutral t : neutral (invalidate_config t).
Proof. unfold invalidate_config. solve_neutral. Qed.
Lemma ListTopicConfigs_neutral : neutral ListTopicConfigs.
Proof. unfold ListTopicConfigs. solve_neutral. Qed.
Lemma onConfigChanged_neutral t : neutral (onConfigChanged t).
Proof. unfold onConfigChanged. solve_neutral. Qed.

(** ** Runs without a failing round trip *)

Lemma cache_Get_calm key : calm (cache_Get key).
Proof. unfold cache_Get. solve_calm. Qed.
Lemma cache_Set_calm key v ttl : calm (cache_Set key v ttl).
Proof. unfold cache_Set. solve_calm. Qed.
Lemma cache_Delete_is_calm keys : calm (cache_Delete keys).
Proof. induction keys as [|k keys IH]; simpl; solve_calm. Qed.
Hint Resolve cache_Get_calm cache_Set_calm cache_Delete_is_calm : queueti.
Lemma store_config_calm t c : calm (store_config t c).
Proof. by apply calm_modify. Qed.
Hint Resolve store_config_calm : queueti.
Lemma get_config_db_calm t : calm (get_config_db t).
Proof. unfold get_config_db. solve_calm. Qed.
Hint Resolve get_config_db_calm : queueti.
Lemma GetTopicConfig_is_calm t : calm (GetTopicConfig t).
Proof. unfold GetTopicConfig. solve_calm. Qed.

(** ** Cache coherence

    [coherent w]: every entry of the in-process map and every entry of the
    distributed cache under the configuration prefix tells what the table says. *)

Definition describes (db : DB) (t : string) (bytes : CacheBytes) : Prop :=
  match topic_config db !! t with
  | None => bytes = cacheNotFoundSentinel
  | Some cfg => bytes = cache_config cfg
  end.

Record coherent (w : World) : Prop := {
  coherent_l1 t c : w_topicConfigCache w !! t = Some c → c = topic_config (w_db w) !! t;
  coherent_l2 st t b : w_cache w = Some st →
    storage_get st (configCachePrefix +:+ t) = Some b → describes (w_db w) t b;
}.

(** The parts of the world coherence speaks of. *)
Lemma coherent_same w w' :
  topic_config (w_db w') = topic_config (w_db w) →
  w_topicConfigCache w' = w_topicConfigCache w → w_cache w' = w_cache w →
  coherent w → coherent w'.
Proof.
  intros Hd H1 H2 [Hl1 Hl2]. unfold describes in *.
  split; unfold describes; rewrite Hd, ?H1, ?H2; eauto.
Qed.

Lemma coherent_store_config w t :
  coherent w →
  coherent (set_config_cache (<[t:=topic_config (w_db w) !! t]> (w_topicConfigCache w)) w).
Proof.
  intros [Hl1 Hl2]. split; [|done].
  simpl. intros t' c [[<- <-]|[_ Hc]]%lookup_insert_Some; [done|by apply Hl1].
Qed.

Lemma coherent_evict_config w t :
  coherent w → coherent (set_config_cache (delete t (w_topicConfigCache w)) w).
Proof.
  intros [Hl1 Hl2]. split; [|done].
  simpl. intros t' c [_ Hc]%lookup_delete_Some. by apply Hl1.
Qed.

Context `{SLAWS : !StorageLaws}.

Lemma coherent_set w st t v ttl :
  describes (w_db w) t v → w_cache w = Some st → coherent w →
  coherent (set_cache (Some (storage_set st (configCachePrefix +:+ t) v ttl)) w).
Proof.
  intros Hv Hst [Hl1 Hl2]. split; [done|]. simpl. intros st' t' b [= <-] Hb.
  destruct (decide (t = t')) as [<-|Ht]; [by apply get_set in Hb as ->|].
  eapply Hl2; [done|]. eapply get_set_other, Hb. by intros ?%(inj _).
Qed.

Lemma coherent_delete w st t :
  w_cache w = Some st → coherent w →
  coherent (set_cache (Some (storage_delete st (configCachePrefix +:+ t))) w).
Proof.
  intros Hst [Hl1 Hl2]. split; [done|]. simpl. intros st' t' b [= <-] Hb.
  eapply Hl2; [done|]. by eapply get_delete_other.
Qed.

Lemma coherent_faults w fs : coherent w → coherent (set_faults fs w).
Proof. by apply coherent_same. Qed.

Lemma round_trip_cases e w :
  ∃ o w', round_trip e w = (Ok o, w') ∧ (w' = w ∨ ∃ fs, w' = set_faults fs w).
Proof. unfold round_trip. destruct (w_faults w); eauto 10. Qed.

Lemma cache_Set_run key v ttl e w :
  ∃ r fs c, cache_Set key v ttl e w = (Ok r, set_faults fs (set_cache c w)) ∧
  (c = w_cache w ∨ ∃ st, w_cache w = Some st ∧ c = Some (storage_set st key v ttl)).
Proof.
  destruct w as [? ? ? ? [st|] ? ? [|[] fs]]; cbv; eauto 12.
Qed.

Lemma cache_Delete_run key e w :
  ∃ r fs c, cache_Delete [key] e w = (Ok r, set_faults fs (set_cache c w)) ∧
  (c = w_cache w ∨ ∃ st, w_cache w = Some st ∧ c = Some (storage_delete st key)).
Proof.
  destruct w as [? ? ? ? [st|] ? ? [|[] fs]]; cbv; eauto 12.
Qed.

Lemma coherent_round_trip e w :
  coherent w → ∃ o w', round_trip e w = (Ok o, w') ∧ coherent w' ∧ w_db w' = w_db w ∧
    w_cache w' = w_cache w ∧ w_topicConfigCache w' = w_topicConfigCache w.
Proof.
  intros Hw. destruct (round_trip_cases e w) as (o & w' & -> & [->|[fs ->]]);
    [by exists o, w|exists o, (set_faults fs w)].
  split_and!; try done. by apply coherent_faults.
Qed.

(** The table lookup answers from the table. *)
Lemma get_config_db_correct t e w :
  coherent w →
  coherent (get_config_db t e w).2 ∧
  ∀ c, (get_config_db t e w).1 = Ok c → c = topic_config (w_db w) !! t.
Proof.
  intros Hw. unfold get_config_db, pool_query, pool_stmt.
  destruct (coherent_round_trip e w Hw) as (o & w1 & Hrt & Hc1 & <- & _).
  rewrite run_bind_bind, run_bind, Hrt. clear Hrt Hw. rewrite run_bind.
  destruct o; [|done|split; [by apply (coherent_same w1)|done]].
  set (w2 := set_db (w_db w1) w1).
  assert (coherent w2) as Hc2 by by apply (coherent_same w1).
  pose proof (coherent_store_config _ t Hc2) as Hc3. simpl in Hc3.
  unfold store_config.
  destruct (topic_config (w_db w1) !! t) as [cfg|] eqn:Ht;
    rewrite run_modify, run_bind;
    match goal with |- context [cache_Set ?k ?v ?ttl e ?w'] =>
      destruct (cache_Set_run k v ttl e w') as (r & fs & c & -> & [->|(st & Hst & ->)]) end;
    rewrite run_ret; simpl; (split; [|by intros ? [= <-]]).
  1, 3: by eapply coherent_same; [..|exact Hc3].
  all: apply coherent_faults, coherent_set; unfold describes; simpl; rewrite ?Ht; done.
Qed.

(** Through all three levels and under any faults, a lookup that succeeds returns
    the row of the table. *)
Lemma GetTopicConfig_correct t e w :
  coherent w →
  coherent (GetTopicConfig t e w).2 ∧
  ∀ c, (GetTopicConfig t e w).1 = Ok c → c = topic_config (w_db w) !! t.
Proof.
  intros Hw. unfold GetTopicConfig. rewrite run_get.
  destruct (w_topicConfigCache w !! t) as [c|] eqn:Hl1.
  { rewrite run_ret. split; [done|]. intros ? [= <-]. by eapply coherent_l1. }
  unfold cache_Get. rewrite run_bind_bind, run_get.
  destruct (w_cache w) as [st|] eqn:Hst;
    [|rewrite run_ret_bind; by apply get_config_db_correct].
  destruct (coherent_round_trip e w Hw) as (o & w1 & Hrt & Hc1 & Hd1 & Hst1 & _).
  rewrite run_bind_bind, run_bind, Hrt, <-Hd1.
  destruct o; rewrite run_ret_bind; try by apply get_config_db_correct.
  destruct (storage_get st (configCachePrefix +:+ t)) as [b|] eqn:Hb;
    [|by apply get_config_db_correct].
  pose proof (coherent_l2 _ Hw _ _ _ Hst Hb) as Hdesc.
  pose proof (coherent_store_config _ t Hc1) as Hc2.
  unfold describes in Hdesc. rewrite <-Hd1 in Hdesc. unfold store_config.
  destruct (topic_config (w_db w1) !! t) as [cfg|] eqn:Ht; subst b; cbn [decode_config];
    rewrite run_modify, run_ret; simpl; (split; [exact Hc2|by intros ? [= <-]]).
Qed.

(** The only errors of a lookup are those of its query. *)
Lemma GetTopicConfig_error t e w x :
  (GetTopicConfig t e w).1 = Err x → lost x.
Proof.
  assert (∀ w1 x, (get_config_db t e w1).1 = Err x → lost x) as Hdb.
  { intros w1 y. unfold get_config_db. rewrite run_bind.
    destruct (pool_query_cases "get topic config" (λ _ db, topic_config db !! t) e w1)
      as [fs [-> | ->]]; [|intros [= <-]; by eexists].
    destruct (topic_config (w_db w1) !! t); unfold store_config; rewrite run_modify, run_bind;
      match goal with |- context [cache_Set ?k ?v ?ttl e ?w'] =>
        destruct (cache_Set_run k v ttl e w') as (r & fs' & c & -> & _) end; done. }
  unfold GetTopicConfig. rewrite run_get. case_match; [done|].
  unfold cache_Get. rewrite run_bind_bind, run_get.
  destruct (w_cache w); [|rewrite run_ret_bind; apply Hdb].
  destruct (round_trip_cases e w) as (o & w1 & Hrt & _). rewrite run_bind_bind, run_bind, Hrt.
  destruct o; rewrite run_ret_bind; try apply Hdb.
  destruct (storage_get _ _) as [b|]; [|apply Hdb].
  destruct b; cbn [decode_config]; try done. rewrite run_bind.
  destruct (cache_Delete_run (configCachePrefix +:+ t) e w1) as (r & fs & c & -> & _).
  apply Hdb.
Qed.

(** *** Invariants of the caches

    A property of the world that reads neither the in-process configurations nor the
    configuration keys of the distributed cache survives every configuration lookup. *)

Record ignores_config (P : World → Prop) : Prop := {
  ignores_faults fs w : P w → P (set_faults fs w);
  ignores_l1 c w : P w → P (set_config_cache c w);
  ignores_set st t v ttl w : w_cache w = Some st → P w →
    P (set_cache (Some (storage_set st (configCachePrefix +:+ t) v ttl)) w);
  ignores_delete st t w : w_cache w = Some st → P w →
    P (set_cache (Some (storage_delete st (configCachePrefix +:+ t))) w);
}.

(** One call of the distributed cache. *)
Lemma cache_Set_preserves (P : World → Prop) key v ttl :
  (∀ fs w, P w → P (set_faults fs w)) →
  (∀ st w, w_cache w = Some st → P w → P (set_cache (Some (storage_set st key v ttl)) w)) →
  preserves P (cache_Set key v ttl).
Proof.
  intros Hfs Hset e w Hw. destruct (cache_Set_run key v ttl e w)
    as (r & fs & c & -> & [->|(st & Hst & ->)]); simpl; apply Hfs; [by destruct w|auto].
Qed.

Lemma cache_Delete_preserves (P : World → Prop) key :
  (∀ fs w, P w → P (set_faults fs w)) →
  (∀ st w, w_cache w = Some st → P w → P (set_cache (Some (storage_delete st key)) w)) →
  preserves P (cache_Delete [key]).
Proof.
  intros Hfs Hset e w Hw. destruct (cache_Delete_run key e w)
    as (r & fs & c & -> & [->|(st & Hst & ->)]); simpl; apply Hfs; [by destruct w|auto].
Qed.

Lemma cache_Get_preserves (P : World → Prop) key :
  (∀ fs w, P w → P (set_faults fs w)) → preserves P (cache_Get key).
Proof.
  intros Hfs. pose proof (preserves_round_trip P Hfs). unfold cache_Get. solve_preserves.
Qed.

Lemma GetTopicConfig_preserves P t : ignores_config P → preserves P (GetTopicConfig t).
Proof.
  intros [Hfs Hl1 Hset Hdel].
  assert (∀ c, preserves P (store_config t c)) by (intros; apply preserves_modify; auto).
  assert (preserves P (get_config_db t)).
  { unfold get_config_db. apply preserves_bind; [by apply preserves_pool_query|].
    intros [cfg|]; (apply preserves_bind; [done|intros _]);
      (apply preserves_bind; [apply cache_Set_preserves; auto|solve_preserves]). }
  unfold GetTopicConfig. apply preserves_bind; [solve_preserves|]. intros l1.
  case_match; [solve_preserves|].
  apply preserves_bind; [by apply cache_Get_preserves|]. intros raw.
  pose proof (cache_Delete_preserves P (configCachePrefix +:+ t)).
  solve_preserves.
Qed.

(** *** Updates with no failing round trip *)

Lemma cache_Delete_calm key e w :
  w_faults w = [] →
  cache_Delete [key] e w =
    (Ok (Ok tt), set_cache ((λ st, storage_delete st key) <$> w_cache w) w).
Proof. by destruct w as [? ? ? ? [st|] ? ? fs]; intros [= ->]. Qed.

Lemma Publish_calm ch p e w :
  w_faults w = [] →
  Publish ch p e w = (Ok (Ok tt), set_published (w_published w ++ [(ch, p)]) w).
Proof. by destruct w; intros [= ->]. Qed.

(** The world after a committed change of the row of [t]. *)
Definition invalidated (t : string) (db : DB) (w : World) : World :=
  mkWorld db (w_tx w) (delete t (w_topicConfigCache w)) (w_schemaCache w)
    ((λ st, storage_delete st (configCachePrefix +:+ t)) <$> w_cache w)
    (w_published w ++ [(ChannelConfigChanged, t)]) (w_metrics w) (w_faults w).

Lemma invalidate_config_calm t e w :
  w_faults w = [] → invalidate_config t e w = (Ok tt, invalidated t (w_db w) w).
Proof.
  intros Hf. unfold invalidate_config.
  rewrite run_modify, run_bind, cache_Delete_calm, run_bind, Publish_calm; done.
Qed.

Lemma invalidated_coherent t db w :
  (∀ t', t' ≠ t → topic_config db !! t' = topic_config (w_db w) !! t') →
  coherent w → coherent (invalidated t db w).
Proof.
  intros Hdb [Hl1 Hl2]. split; simpl.
  - intros t' c [Ht Hc]%lookup_delete_Some. rewrite Hdb by done. by apply Hl1.
  - intros st' t' b. destruct (w_cache w) as [st|] eqn:Hst; [|done]. intros [= <-] Hb.
    destruct (decide (t' = t)) as [->|Ht]; [by rewrite get_deleted in Hb|].
    apply get_delete_other in Hb. unfold describes. simpl.
    rewrite Hdb by done. by eapply Hl2.
Qed.

Lemma GetTopicConfig_answer t e w :
  w_faults w = [] → coherent w →
  ∃ w', GetTopicConfig t e w = (Ok (topic_config (w_db w) !! t), w').
Proof.
  intros Hf Hc. destruct (GetTopicConfig_is_calm t e w Hf) as [_ Hx].
  destruct (GetTopicConfig_correct t e w Hc) as [_ Hans].
  pose proof (GetTopicConfig_error t e w) as Herr.
  destruct (GetTopicConfig t e w) as [[c|x] w']; simpl in *.
  - exists w'. by rewrite <-(Hans c).
  - by destruct (Hx x); [|apply Herr].
Qed.

Lemma UpsertTopicConfig_calm cfg e w :
  w_faults w = [] → HasSuffix (Topic cfg) ".dlq" = false → config_int4 cfg →
  UpsertTopicConfig cfg e w =
    (Ok tt, invalidated (Topic cfg)
       (set_config (<[Topic cfg:=cfg]> (topic_config (w_db w))) (w_db w)) w).
Proof.
  intros Hf Hs Hi. unfold UpsertTopicConfig. rewrite Hs, run_bind, pool_stmt_calm by done.
  unfold sql_upsert_config. rewrite decide_True by done.
  rewrite invalidate_config_calm by done. done.
Qed.

Lemma DeleteTopicConfig_calm t cfg e w :
  w_faults w = [] → topic_config (w_db w) !! t = Some cfg →
  DeleteTopicConfig t e w =
    (Ok tt, invalidated t
       (set_throughput (delete t (topic_throughput (w_db w)))
          (set_config (delete t (topic_config (w_db w))) (w_db w))) w).
Proof.
  intros Hf Ht. unfold DeleteTopicConfig. rewrite run_bind, pool_stmt_calm by done.
  unfold sql_delete_config. rewrite Ht. cbn [Z.eqb].
  rewrite run_bind, pool_stmt_calm by done. simpl.
  rewrite invalidate_config_calm by done. done.
Qed.

(** *** Properties *)

(** After [UpsertTopicConfig] or [DeleteTopicConfig] returns without a failed
    round trip, the caches are coherent with the table again, and
    [GetTopicConfig], through whichever of its three levels answers, returns the
    new configuration (nil after a deletion) for that topic and the unchanged one
    for every other topic. *)
Theorem config_update_visible cfg t cfg0 e e' w :
  w_faults w = [] → coherent w →
  HasSuffix (Topic cfg) ".dlq" = false → config_int4 cfg →
  topic_config (w_db w) !! t = Some cfg0 →
  (∃ w1, UpsertTopicConfig cfg e w = (Ok tt, w1) ∧ coherent w1 ∧
     ∀ t', ∃ w2, GetTopicConfig t' e' w1 =
       (Ok (if decide (t' = Topic cfg) then Some cfg else topic_config (w_db w) !! t'), w2)) ∧
  (∃ w1, DeleteTopicConfig t e w = (Ok tt, w1) ∧ coherent w1 ∧
     ∀ t', ∃ w2, GetTopicConfig t' e' w1 =
       (Ok (if decide (t' = t) then None else topic_config (w_db w) !! t'), w2)).
Proof.
  intros Hf Hc Hs Hi Ht. split; eexists;
    (split; [by first [apply UpsertTopicConfig_calm|eapply DeleteTopicConfig_calm]|]);
    match goal with |- coherent ?w1 ∧ _ => assert (coherent w1) as Hc1 end.
  - apply invalidated_coherent; [|done]. intros t' ?. by apply lookup_insert_ne.
  - split; [done|]. intros t'. destruct ((λ H, GetTopicConfig_answer t' e' _ H Hc1) Hf) as [w2 ->].
    exists w2. simpl. case_decide; [subst; by rewrite lookup_insert_eq|].
    by rewrite lookup_insert_ne.
  - apply invalidated_coherent; [|done]. intros t' ?. by apply lookup_delete_ne.
  - split; [done|]. intros t'. destruct ((λ H, GetTopicConfig_answer t' e' _ H Hc1) Hf) as [w2 ->].
    exists w2. simpl. case_decide; [subst; by rewrite lookup_delete_eq|].
    by rewrite lookup_delete_ne.
Qed.

(** A [DeleteTopicConfig] whose second statement fails has deleted the row but
    evicted nothing: the in-process entry survives, a retry of the deletion reports
    [ErrNotFound] before reaching the eviction, and lookups go on answering the
    deleted configuration, at any later time. *)
Theorem failed_config_delete_leaves_stale_entry t cfg e e' e'' w fs :
  w_topicConfigCache w !! t = Some (Some cfg) →
  topic_config (w_db w) !! t = Some cfg →
  w_faults w = Works :: Fails :: fs →
  ∃ w1, DeleteTopicConfig t e w = (Err (ErrSQL "delete topic throughput" ConnectionError), w1) ∧
    topic_config (w_db w1) !! t = None ∧
    let w2 := (DeleteTopicConfig t e' (set_faults [] w1)).2 in
    (DeleteTopicConfig t e' (set_faults [] w1)).1 = Err ErrNotFound ∧
    GetTopicConfig t e'' w2 = (Ok (Some cfg), w2).
Proof.
  destruct w as [db tx l1 sc ca pu me fs']; simpl. intros Hl1 Ht ->.
  eexists. unfold DeleteTopicConfig at 1. rewrite run_bind.
  unfold pool_stmt at 1. rewrite run_bind. cbn -[DeleteTopicConfig GetTopicConfig delete lookup].
  rewrite Ht. cbn -[DeleteTopicConfig GetTopicConfig delete lookup]. split; [done|].
  split; [apply lookup_delete_eq|].
  unfold DeleteTopicConfig. rewrite !run_bind, !pool_stmt_calm by done.
  unfold sql_delete_config. cbn -[GetTopicConfig delete lookup]. rewrite lookup_delete_eq.
  cbn -[GetTopicConfig delete lookup]. split; [done|].
  unfold GetTopicConfig. rewrite run_get. change (w_topicConfigCache _) with l1. by rewrite Hl1, run_ret.
Qed.

End topic_config.

#[export] Hint Resolve cache_Get_neutral cache_Set_neutral cache_Delete_neutral
  Publish_neutral store_config_neutral get_config_db_neutral GetTopicConfig_neutral
  invalidate_config_neutral ListTopicConfigs_neutral onConfigChanged_neutral
  cache_Get_calm cache_Set_calm cache_Delete_is_calm store_config_calm get_config_db_calm
  GetTopicConfig_is_calm : queueti.
