(* ===== verification/Broadcast.v ===== *)
(** * The listeners: configuration changes made by other processes

    The receiving half of [backend/internal/broadcast] ([Subscribe] and the listen loops
    of [pg.go] and [redis.go]) and of [queue/service.go] ([UseBroadcaster],
    [listenChannel]): one process among several on the same database, its in-process map
    of topic configurations, and the notifications on their way to it.  Lookups are the
    two steps they are - the query and the store - because a notification can be handled
    in between.  Without Redis, where the map is the only cache. *)

From S2P Require Import Prelude.
From S2P Require Import Store.
From S2P Require Import Avro.
From S2P Require Import Runtime.
From S2P Require Import Model.
From S2P Require Import TopicConfig.

(** One process, and the table it shares with the others. *)
Record Replica := mkReplica {
  rp_table : gmap string TopicConfig;
  (* [topicConfigCache] *)
  rp_cache : gmap string (option TopicConfig);
  (* lookups that have read the table and not yet stored what they read *)
  rp_reads : list (string * option TopicConfig);
  (* changes of this process, committed and not yet evicted *)
  rp_own : list string;
  (* changes of any process, committed and not yet published *)
  rp_unpublished : list string;
  (* a LISTEN is in force *)
  rp_listening : bool;
  (* notifications received and not yet handled *)
  rp_queue : list string;
}.

Inductive Event :=
| ev_query (t : string)
| ev_store (n : nat)
| ev_change (t : string) (c : option TopicConfig)
| ev_evict (n : nat)
| ev_change_elsewhere (t : string) (c : option TopicConfig)
| ev_publish (n : nat) (o : outcome)
| ev_listen
| ev_disconnect (kept : nat)
| ev_handle.

(** The row of [t] after an upsert ([Some]) or a deletion ([None]). *)
Definition set_row (t : string) (c : option TopicConfig) (m : gmap string TopicConfig)
    : gmap string TopicConfig := partial_alter (λ _, c) t m.

(** What an event does, [None] where it cannot happen.

    A query is only sent on a miss of the map.  A failed [Publish] is only logged.  A
    listen loop whose connection breaks returns, and [Subscribe] starts the next one two
    seconds later: what was published in between reaches nobody, and of what was on its
    way only a part ([kept]) had arrived. *)
Definition step (ev : Event) (s : Replica) : option Replica :=
  let '(mkReplica tbl cache reads own unp lis q) := s in
  match ev with
  | ev_query t =>
      match cache !! t with
      | Some _ => None
      | None => Some (mkReplica tbl cache (reads ++ [(t, tbl !! t)]) own unp lis q)
      end
  | ev_store n =>
      tc ← reads !! n;
      Some (mkReplica tbl (<[tc.1:=tc.2]> cache) (delete n reads) own unp lis q)
  | ev_change t c => Some (mkReplica (set_row t c tbl) cache reads (own ++ [t]) unp lis q)
  | ev_evict n =>
      t ← own !! n;
      Some (mkReplica tbl (delete t cache) reads (delete n own) (unp ++ [t]) lis q)
  | ev_change_elsewhere t c =>
      Some (mkReplica (set_row t c tbl) cache reads own (unp ++ [t]) lis q)
  | ev_publish n o =>
      t ← unp !! n;
      Some (mkReplica tbl cache reads own (delete n unp) lis
              (match o with Fails => q | _ => if lis then q ++ [t] else q end))
  | ev_listen => Some (mkReplica tbl cache reads own unp true q)
  | ev_disconnect kept => Some (mkReplica tbl cache reads own unp false (take kept q))
  | ev_handle =>
      match q with
      | [] => None
      | t :: q' => Some (mkReplica tbl (delete t cache) reads own unp lis q')
      end
  end.

Fixpoint run (evs : list Event) (s : Replica) : option Replica :=
  match evs with
  | [] => Some s
  | ev :: evs' => s' ← step ev s; run evs' s'
  end.

(** Changes whose notification has not been handled yet. *)
Definition pending (s : Replica) : list string := rp_own s ++ rp_unpublished s ++ rp_queue s.

(** Nothing is on its way and the map tells what the table says. *)
Record synced (s : Replica) : Prop := {
  synced_listening : rp_listening s = true;
  synced_quiet : pending s = [];
  synced_reads : rp_reads s = [];
  synced_cache t c : rp_cache s !! t = Some c → c = rp_table s !! t;
}.

(** The connection holds, publishing works, and no lookup of a topic is between its query
    and its store when a notification for that topic is handled. *)
Definition timely (ev : Event) (s : Replica) : Prop :=
  match ev with
  | ev_disconnect _ | ev_publish _ Fails => False
  | ev_handle => match rp_queue s with [] => True | t :: _ => t ∉ (rp_reads s).*1 end
  | _ => True
  end.
#[export] Instance timely_dec ev s : Decision (timely ev s).
Proof.
  destruct ev as [t|n|t c|n|t c|n [| |]| |k|]; simpl; try apply _.
  destruct (rp_queue s); apply _.
Defined.

Fixpoint all_timely (evs : list Event) (s : Replica) : Prop :=
  match evs with
  | [] => True
  | ev :: evs' =>
      timely ev s ∧ match step ev s with Some s' => all_timely evs' s' | None => True end
  end.

(** ** Convergence *)

(** Whatever the map or a lookup under way holds is the row, or the topic's notification
    is still to come. *)
Record catching_up (s : Replica) : Prop := {
  up_listening : rp_listening s = true;
  up_cache t c : rp_cache s !! t = Some c → c = rp_table s !! t ∨ t ∈ pending s;
  up_reads t c : (t, c) ∈ rp_reads s → c = rp_table s !! t ∨ t ∈ pending s;
}.

Lemma synced_catching_up s : synced s → catching_up s.
Proof.
  intros [Hl Hq Hr Hc]. split; [done|intros t c H; left; by apply Hc|].
  rewrite Hr. by intros t c ?%not_elem_of_nil.
Qed.

Lemma elem_of_delete {A} (l : list A) n x y :
  l !! n = Some y → x ∈ l → x = y ∨ x ∈ delete n l.
Proof.
  intros Hn. rewrite <-(take_drop_middle _ _ _ Hn) at 1. rewrite delete_take_drop.
  rewrite !elem_of_app, elem_of_cons. tauto.
Qed.
Lemma elem_of_delete_inv {A} (l : list A) n x : x ∈ delete n l → x ∈ l.
Proof.
  rewrite delete_take_drop, elem_of_app. intros [H|H].
  - by apply (subseteq_take n).
  - by apply (subseteq_drop (S n)).
Qed.

Lemma set_row_lookup t c m t' :
  set_row t c m !! t' = if decide (t' = t) then c else m !! t'.
Proof.
  unfold set_row. case_decide as H; [subst; by rewrite lookup_partial_alter_eq|].
  by rewrite lookup_partial_alter_ne.
Qed.

(** A change of the row of [t] that leaves [t] pending. *)
Lemma changed_up (t : string) c (m : gmap string TopicConfig) (p p' : list string) t' c' :
  t ∈ p' → (∀ x, x ∈ p → x ∈ p') → (c' = m !! t' ∨ t' ∈ p) →
  c' = set_row t c m !! t' ∨ t' ∈ p'.
Proof.
  intros Ht Hp [->|H]; [|right; by apply Hp].
  rewrite set_row_lookup. case_decide; [right; by subst|by left].
Qed.

Lemma step_catching_up ev s s' :
  catching_up s → timely ev s → step ev s = Some s' → catching_up s'.
Proof.
  destruct s as [tbl cache reads own unp lis q]. intros [Hl Hc Hr] Htm.
  unfold pending in *. simpl in Hl, Hc, Hr. subst lis.
  destruct ev as [t|n|t c|n|t c|n o| |k|]; simpl in Htm |- *; intros Hs.
  - destruct (cache !! t); simplify_eq. split; [done..|]. simpl. intros t' c'.
    rewrite elem_of_app, list_elem_of_singleton. intros [H|[= -> ->]]; [by apply Hr|by left].
  - destruct (reads !! n) as [[t c]|] eqn:Hn; simplify_eq/=. split; simpl; [done| |].
    + intros t' c' [[<- <-]|[_ H]]%lookup_insert_Some; [|by apply Hc].
      apply Hr. by eapply list_elem_of_lookup_2.
    + intros t' c' H. apply Hr. by eapply elem_of_delete_inv.
  - simplify_eq. split; unfold pending; simpl; [done| |]; intros t' c' H;
      (apply (changed_up t c tbl (own ++ unp ++ q));
       [|intros x|first [by apply Hc|by apply Hr]];
       rewrite !elem_of_app, list_elem_of_singleton; tauto).
  - destruct (own !! n) as [t|] eqn:Hn; simplify_eq/=. unfold pending.
    assert (∀ x, x ∈ own ++ unp ++ q → x ∈ delete n own ++ (unp ++ [t]) ++ q) as Hp.
    { intros x. rewrite !elem_of_app, list_elem_of_singleton.
      intros [H|H]; [destruct (elem_of_delete _ _ _ _ Hn H); tauto|tauto]. }
    split; unfold pending; simpl; [done| |].
    + intros t' c' [_ H]%lookup_delete_Some. destruct (Hc t' c' H) as [?|?]; [by left|right; auto].
    + intros t' c' H. destruct (Hr t' c' H) as [?|?]; [by left|right; auto].
  - simplify_eq. split; unfold pending; simpl; [done| |]; intros t' c' H;
      (apply (changed_up t c tbl (own ++ unp ++ q));
       [|intros x|first [by apply Hc|by apply Hr]];
       rewrite !elem_of_app, list_elem_of_singleton; tauto).
  - destruct (unp !! n) as [t|] eqn:Hn; simplify_eq/=. unfold pending.
    assert (∀ x, x ∈ own ++ unp ++ q → x ∈ own ++ delete n unp ++ (q ++ [t])) as Hp.
    { intros x. rewrite !elem_of_app, list_elem_of_singleton.
      intros [H|[H|H]]; [tauto|destruct (elem_of_delete _ _ _ _ Hn H); tauto|tauto]. }
    destruct o; [| |]; simpl in Htm; try done; (split; unfold pending; simpl; [done| |]; intros t' c' H;
      [destruct (Hc t' c' H)|destruct (Hr t' c' H)]; first [by left|by right; auto]).
  - simplify_eq. by split.
  - done.
  - destruct q as [|t q]; simplify_eq/=. unfold pending.
    split; unfold pending; simpl; [done| |].
    + intros t' c' [Hne H]%lookup_delete_Some. destruct (Hc t' c' H) as [?|Hin]; [by left|right].
      revert Hin. rewrite !elem_of_app, elem_of_cons. intros [?|[?|[->|?]]]; tauto.
    + intros t' c' H. destruct (Hr t' c' H) as [?|Hin]; [by left|right].
      assert (t' ≠ t) as Hne.
      { intros ->. apply Htm, list_elem_of_fmap. by exists (t, c'). }
      revert Hin. rewrite !elem_of_app, elem_of_cons. tauto.
Qed.

Lemma run_catching_up evs s s' :
  catching_up s → all_timely evs s → run evs s = Some s' → catching_up s'.
Proof.
  revert s. induction evs as [|ev evs IH]; simpl; [by intros ??? [= <-]|].
  intros s Hs [Ht Hts] Hrun. destruct (step ev s) as [s1|] eqn:H1; [|done].
  apply (IH s1); [by eapply step_catching_up|done|done].
Qed.

(** What the process does on its own: finish a lookup, evict, publish, handle. *)
Definition housekeeping (ev : Event) : bool :=
  match ev with
  | ev_store _ | ev_evict _ | ev_handle => true
  | ev_publish _ o => match o with Works => true | _ => false end
  | _ => false
  end.

(** The steps still to do. *)
Definition backlog (s : Replica) : nat :=
  length (rp_reads s) + 3 * length (rp_own s) + 2 * length (rp_unpublished s) +
  length (rp_queue s).

Lemma next_step s :
  rp_listening s = true → (0 < backlog s)%nat →
  ∃ ev s', housekeeping ev = true ∧ timely ev s ∧ step ev s = Some s' ∧
    (backlog s' < backlog s)%nat ∧ rp_table s' = rp_table s.
Proof.
  destruct s as [tbl cache [|[t c] reads] own unp lis q]; unfold backlog; simpl; intros -> Hb.
  2: { exists (ev_store 0). eexists. split_and!; try done. simpl. unfold delete. simpl. lia. }
  destruct own as [|t own].
  2: { exists (ev_evict 0). eexists. split_and!; try done. simpl. rewrite length_app. simpl. lia. }
  destruct unp as [|t unp].
  2: { exists (ev_publish 0 Works). eexists. split_and!; try done. simpl.
       rewrite length_app. simpl. lia. }
  destruct q as [|t q]; [simpl in Hb; lia|].
  exists ev_handle. eexists. split_and!; try done; simpl; [by apply not_elem_of_nil|lia].
Qed.

(** Nothing left to do. *)
Lemma idle_synced s : catching_up s → backlog s = 0%nat → synced s.
Proof.
  destruct s as [tbl cache [|? ?] [|? ?] [|? ?] lis [|? ?]]; unfold backlog; simpl; try done.
  intros [Hl Hc _] _. split; [done..|]. intros t c H.
  destruct (Hc t c H) as [?|?%not_elem_of_nil]; done.
Qed.

Lemma catches_up s :
  catching_up s →
  ∃ evs s', forallb housekeeping evs = true ∧ all_timely evs s ∧ run evs s = Some s' ∧
    synced s' ∧ rp_table s' = rp_table s.
Proof.
  remember (backlog s) as n eqn:Hn. revert s Hn.
  induction n as [n IH] using lt_wf_ind. intros s -> Hs.
  destruct (decide (backlog s = 0%nat)) as [H0|H0].
  { exists [], s. split_and!; try done. by apply idle_synced. }
  destruct (next_step s) as (ev & s1 & Hk & Ht & H1 & Hlt & Htbl); [apply Hs|lia|].
  destruct (IH _ Hlt s1 eq_refl) as (evs & s' & Hks & Hts & Hrun & Hsy & Htbl').
  { by eapply step_catching_up. }
  exists (ev :: evs), s'. simpl. rewrite Hk, H1. simpl.
  split_and!; [done|done|done|done|done|congruence].
Qed.

(** [C21] Once a process listens and its map is right, then after any interleaving of its
    lookups, its own configuration changes, those of other processes and the handling of
    notifications - no connection lost, no publish failing, no lookup of a topic under way
    while that topic's notification is handled - every entry of the map that differs from
    the table belongs to a topic whose notification is still to come; and from there the
    pending stores, evictions, publications and notifications, which can always go on,
    lead to a map that is right everywhere. *)
Theorem listeners_converge evs s s' :
  synced s → all_timely evs s → run evs s = Some s' →
  (∀ t c, rp_cache s' !! t = Some c → c ≠ rp_table s' !! t → t ∈ pending s') ∧
  ∃ evs' s'', forallb housekeeping evs' = true ∧ all_timely evs' s' ∧
    run evs' s' = Some s'' ∧ synced s'' ∧ rp_table s'' = rp_table s'.
Proof.
  intros Hs Ht Hrun.
  pose proof (run_catching_up _ _ _ (synced_catching_up _ Hs) Ht Hrun) as Hup.
  split; [|by apply catches_up].
  intros t c Hc Hne. by destruct (up_cache _ Hup t c Hc).
Qed.

(** ** A store that comes late *)

(** Events that touch the row of [t] or evict its entry in this process. *)
Definition changes_row (t : string) (ev : Event) : bool :=
  match ev with
  | ev_change t' _ | ev_change_elsewhere t' _ => bool_decide (t' = t)
  | _ => false
  end.

Record stuck_entry (t : string) (c c' : option TopicConfig) (s : Replica) : Prop := {
  stuck_cache : rp_cache s !! t = Some c;
  stuck_row : rp_table s !! t = c';
  stuck_pending : t ∉ pending s;
  stuck_reads : t ∉ (rp_reads s).*1;
}.

Lemma delete_fmap {A B} (f : A → B) n (l : list A) : f <$> delete n l = delete n (f <$> l).
Proof. by rewrite !delete_take_drop, fmap_app, <-fmap_take, <-fmap_drop. Qed.

Lemma step_stuck t c c' ev s s' :
  stuck_entry t c c' s → changes_row t ev = false → step ev s = Some s' →
  stuck_entry t c c' s'.
Proof.
  destruct s as [tbl cache reads own unp lis q]. unfold pending. intros [Hc Hr Hp Hrd].
  unfold pending in Hp. simpl in *. rewrite !not_elem_of_app in Hp. destruct Hp as (Ho & Hu & Hq).
  destruct ev as [t'|n|t' d|n|t' d|n o| |k|]; simpl; intros Hev Hs.
  - destruct (cache !! t') eqn:Ht'; simplify_eq. split; unfold pending; simpl; try done.
    + rewrite !not_elem_of_app. done.
    + rewrite fmap_app, not_elem_of_app. simpl. rewrite list_elem_of_singleton.
      split; [done|]. intros ->. congruence.
  - destruct (reads !! n) as [[t' d]|] eqn:Hn; simplify_eq/=. split; unfold pending; simpl; try done.
    + rewrite lookup_insert_ne; [done|]. intros ->. apply Hrd, list_elem_of_fmap.
      exists (t, d). split; [done|]. by eapply list_elem_of_lookup_2.
    + by rewrite !not_elem_of_app.
    + rewrite delete_fmap. by intros ?%elem_of_delete_inv.
  - reflect_bools. simplify_eq. split; unfold pending; simpl; try done.
    + rewrite set_row_lookup. by rewrite decide_False by done.
    + rewrite !not_elem_of_app, list_elem_of_singleton. done.
  - destruct (own !! n) as [t'|] eqn:Hn; simplify_eq/=.
    assert (t ≠ t') by (intros ->; by apply Ho, list_elem_of_lookup_2 with n).
    split; unfold pending; simpl; try done.
    + by rewrite lookup_delete_ne.
    + rewrite !not_elem_of_app, list_elem_of_singleton. split_and!; try done.
      by intros ?%elem_of_delete_inv.
  - reflect_bools. simplify_eq. split; unfold pending; simpl; try done.
    + rewrite set_row_lookup. by rewrite decide_False by done.
    + rewrite !not_elem_of_app, list_elem_of_singleton. done.
  - destruct (unp !! n) as [t'|] eqn:Hn; simplify_eq/=.
    assert (t ≠ t') by (intros ->; by apply Hu, list_elem_of_lookup_2 with n).
    assert (t ∉ delete n unp) by (by intros ?%elem_of_delete_inv).
    split; unfold pending; simpl; try done. rewrite !not_elem_of_app. split_and!; try done.
    destruct o, lis; rewrite ?not_elem_of_app, ?list_elem_of_singleton; done.
  - simplify_eq. split; unfold pending; simpl; rewrite ?not_elem_of_app; done.
  - simplify_eq. split; unfold pending; simpl; rewrite ?not_elem_of_app; try done.
    split_and!; try done. by intros ?%subseteq_take.
  - destruct q as [|t' q]; simplify_eq/=. rewrite not_elem_of_cons in Hq. destruct Hq as [Hne Hq].
    split; unfold pending; simpl; rewrite ?not_elem_of_app; try done. by rewrite lookup_delete_ne.
Qed.

(** The side condition on lookups is needed: when the row of an uncached topic
    changes between a lookup's query and its store, and the notification is handled in
    between, the lookup then stores the old row.  Nothing is pending any more, and the
    map goes on answering the old configuration until the row changes again, whatever
    else happens. *)
Theorem late_store_leaves_stale_entry t c s :
  synced s → rp_cache s !! t = None → c ≠ rp_table s !! t →
  ∃ s', run [ev_query t; ev_change_elsewhere t c; ev_publish 0 Works; ev_handle; ev_store 0] s =
      Some s' ∧
    rp_listening s' = true ∧ pending s' = [] ∧ rp_reads s' = [] ∧
    (∀ evs s'', run evs s' = Some s'' → forallb (λ ev, negb (changes_row t ev)) evs = true →
       rp_cache s'' !! t = Some (rp_table s !! t) ∧ rp_table s'' !! t = c).
Proof.
  destruct s as [tbl cache reads own unp lis q]. intros [Hl Hq Hr Hc] Hmiss Hne.
  unfold pending in Hq. simpl in *. subst.
  destruct own, unp, q; try done. rewrite Hmiss. simpl. eexists. split; [done|].
  split_and!; try done. intros evs s'' Hrun Hevs.
  assert (stuck_entry t (tbl !! t) c s'') as [? ? _ _]; [|done].
  revert Hrun Hevs. match goal with |- run evs ?s0 = _ → _ =>
    assert (stuck_entry t (tbl !! t) c s0) as Hst; [|revert Hst; generalize s0] end.
  { split; unfold pending; simpl; try apply not_elem_of_nil.
    - apply lookup_insert_eq.
    - rewrite set_row_lookup. by rewrite decide_True. }
  induction evs as [|ev evs IH]; simpl; [by intros ? ? [= <-]|].
  intros s0 Hst Hrun [Hev Hevs]%andb_true_iff. apply negb_true_iff in Hev.
  destruct (step ev s0) as [s1|] eqn:H1; [|done]. apply (IH s1); [by eapply step_stuck|done|done].
Qed.

(** ** The events are those of the service's calls *)

Section calls.
Context `{PG : Postgres} `{ST : Storage}.

(** A service's world as a replica, with what is in flight. *)
Definition replica reads own unp lis q (w : World) : Replica :=
  mkReplica (topic_config (w_db w)) (w_topicConfigCache w) reads own unp lis q.

(** The statements of a call, nothing in between. *)
Definition lookup_events (t : string) reads (w : World) : list Event :=
  match w_topicConfigCache w !! t with
  | Some _ => []
  | None => [ev_query t; ev_store (length (A:=string * option TopicConfig) reads)]
  end.
Definition update_events (t : string) (c : option TopicConfig) (own unp : list string)
    : list Event :=
  [ev_change t c; ev_evict (length own); ev_publish (length unp) Works].

Definition notified (lis : bool) (t : string) (q : list string) : list string :=
  if lis then q ++ [t] else q.

Lemma run_update t c tbl cache reads own unp lis q :
  run (update_events t c own unp) (mkReplica tbl cache reads own unp lis q) =
    Some (mkReplica (set_row t c tbl) (delete t cache) reads own unp lis (notified lis t q)).
Proof.
  unfold update_events. cbn -[delete lookup].
  rewrite (list_lookup_middle own [] t _ eq_refl). cbn -[delete lookup].
  rewrite (list_lookup_middle unp [] t _ eq_refl). cbn -[delete lookup].
  by rewrite !delete_middle, !app_nil_r.
Qed.

Lemma miss_reads_table t e w :
  w_faults w = [] → w_cache w = None → w_topicConfigCache w !! t = None →
  (GetTopicConfig t e w).2 =
    set_config_cache (<[t:=topic_config (w_db w) !! t]> (w_topicConfigCache w)) w.
Proof.
  intros Hf Hca Hmiss. unfold GetTopicConfig. rewrite run_get, Hmiss, run_bind.
  assert (∀ k, cache_Get k e w = (Ok (Ok None), w)) as ->.
  { intros k. unfold cache_Get. by rewrite run_get, Hca. }
  unfold get_config_db. rewrite run_bind, pool_query_quiet by done.
  assert (∀ k v d w', w_cache w' = None → cache_Set k v d e w' = (Ok (Ok tt), w')) as Hset.
  { intros k v d w' H. unfold cache_Set. by rewrite run_get, H. }
  unfold store_config.
  destruct (topic_config (w_db w) !! t); by rewrite run_modify, run_bind, Hset.
Qed.

(** Without Redis and failures, the calls of the service are runs of these events:
    [GetTopicConfig] on a hit nothing, on a miss a query and a store; an upsert or a
    deletion of a configuration a change, an eviction and a publication; and
    [listenChannel]'s handler the handling of a notification.  So what holds for every
    interleaving of events holds for every interleaving of the calls' statements. *)
Theorem calls_are_runs t cfg cfg0 reads own unp lis q e w :
  w_faults w = [] → w_cache w = None →
  HasSuffix (Topic cfg) ".dlq" = false → config_int4 cfg →
  let s := replica reads own unp lis q w in
  run (lookup_events t reads w) s =
    Some (replica reads own unp lis q (GetTopicConfig t e w).2) ∧
  run (update_events (Topic cfg) (Some cfg) own unp) s =
    Some (replica reads own unp lis (notified lis (Topic cfg) q) (UpsertTopicConfig cfg e w).2) ∧
  (topic_config (w_db w) !! t = Some cfg0 → run (update_events t None own unp) s =
    Some (replica reads own unp lis (notified lis t q) (DeleteTopicConfig t e w).2)) ∧
  run [ev_handle] (replica reads own unp lis (t :: q) w) =
    Some (replica reads own unp lis q (onConfigChanged t e w).2).
Proof.
  intros Hf Hca Hs Hi s. unfold s, replica. split_and!; [| | |done].
  - unfold lookup_events. destruct (w_topicConfigCache w !! t) as [c|] eqn:Hc.
    { unfold GetTopicConfig. by rewrite run_get, Hc, run_ret. }
    cbn -[delete lookup insert]. rewrite Hc. cbn -[delete lookup insert].
    rewrite (list_lookup_middle reads [] _ _ eq_refl). cbn -[delete lookup insert].
    rewrite delete_middle, app_nil_r. by rewrite miss_reads_table.
  - rewrite run_update, UpsertTopicConfig_calm by done. done.
  - intros Ht. rewrite run_update, (DeleteTopicConfig_calm t cfg0) by done. done.
Qed.
End calls.
