(* ===== verification/Throttle.v ===== *)
(** * Per-topic throughput limits

    [backend/internal/queue/throttle.go] and [applyThroughputLimit] of [dequeue.go]:
    a token bucket per topic in [topic_throughput], refilled from the time elapsed
    and capped at the configured rate, from which every dequeue draws its tokens in
    its own transaction. *)

From S2P Require Import Prelude.
From S2P Require Import Store.
From S2P Require Import Avro.
From S2P Require Import Runtime.
From S2P Require Import TopicConfig.
From S2P Require Import Model.

Section throttle.
Context `{PG : Postgres} `{ST : Storage}.

(** SQL's [LEAST]. *)
Definition f8_least (x y : f8) : f8 := if f8_ltb y x then y else x.

(** The upsert that refills the bucket and returns its tokens. *)
Definition sql_refill (topic : string) (limit : Z) (e : Env) (db : DB)
    : result PgError (f8 * DB) :=
  let cap := f8_of_Z limit in
  let tokens :=
    match topic_throughput db !! topic with
    | None => cap
    | Some (tokens, last_refill) =>
        f8_least cap (f8_add tokens (f8_mul cap (f8_epoch (pg_now e - last_refill))))
    end in
  Ok (tokens, set_throughput (<[topic:=(tokens, pg_now e)]> (topic_throughput db)) db).

(** [UPDATE topic_throughput SET tokens = tokens - $2 WHERE topic = $1] *)
Definition sql_deduct (topic : string) (n : Z) (_ : Env) (db : DB)
    : result PgError (unit * DB) :=
  Ok (tt, set_throughput
            (alter (λ tl, (f8_sub tl.1 (f8_of_Z n), tl.2)) topic (topic_throughput db)) db).

Definition consumeTokens (topic : string) (limit requested : Z) : M Z :=
  tx_query "throttle advisory lock" (λ _ _, tt);;
  available ← tx_stmt "throttle refill" (sql_refill topic limit);
  let allowed := Z.min requested (f8_int available) in
  if allowed <=? 0 then mret 0
  else
    tx_stmt "throttle deduct" (sql_deduct topic allowed);;
    mret allowed.

Definition applyThroughputLimit (topic : string) (want : Z) : M Z :=
  limit ← tx_query "throughput limit fetch"
            (λ _ db, topic_config db !! topic ≫= ThroughputLimit);
  match limit with
  | None => mret want
  | Some limit =>
      if limit =? 0 then mret want else consumeTokens topic limit want
  end.

(** The bucket of a topic at this instant, as whole tokens, after the refill. *)
Definition whole_tokens (topic : string) (limit : Z) (e : Env) (db : DB) : Z :=
  match sql_refill topic limit e db with
  | Ok (tokens, _) => f8_int tokens
  | Err _ => 0
  end.

(** ** What a draw grants and what it touches *)

Lemma consumeTokens_Ok topic limit want e w n w' :
  consumeTokens topic limit want e w = (Ok n, w') →
  n = Z.max 0 (Z.min want (whole_tokens topic limit e (w_tx w))) ∧
  ∃ fs tt', w' = set_tx (set_throughput tt' (w_tx w)) (set_faults fs w) ∧
    ∃ tokens, tt' !! topic = Some (tokens, pg_now e) ∧
      tokens = (match sql_refill topic limit e (w_tx w) with
                | Ok (t0, _) => if n <=? 0 then t0 else f8_sub t0 (f8_of_Z n)
                | Err _ => f8_of_Z 0
                end) ∧
      ∀ t', t' ≠ topic → tt' !! t' = topic_throughput (w_tx w) !! t'.
Proof.
  unfold consumeTokens. intros H. inv_ok.
  all: unfold whole_tokens, sql_refill in *; simpl in *; simplify_eq/=; reflect_bools.
  - split; [lia|]. eexists _, _. split; [done|]. eexists. rewrite lookup_insert_eq.
    split; [done|]. split; [done|]. intros t' ?. by rewrite lookup_insert_ne.
  - unfold sql_deduct in *. simplify_eq/=.
    split; [lia|]. eexists _, _. split; [done|]. eexists.
    rewrite lookup_alter_eq, lookup_insert_eq. simpl. split; [done|].
    split; [by rewrite (proj2 (Z.leb_gt _ _)) by lia|].
    intros t' ?. by rewrite lookup_alter_ne, lookup_insert_ne.
Qed.

Lemma applyThroughputLimit_Ok topic want e w n w' :
  applyThroughputLimit topic want e w = (Ok n, w') →
  ∃ fs tt', w' = set_tx (set_throughput tt' (w_tx w)) (set_faults fs w) ∧
  (0 ≤ want → 0 ≤ n ≤ want).
Proof.
  unfold applyThroughputLimit.
  intros (lim & w1 & (-> & fs & ->)%tx_query_Ok & H)%bind_Ok.
  assert (∀ fs', ∃ fs tt', set_faults fs' w =
            set_tx (set_throughput tt' (w_tx w)) (set_faults fs w)) as Hsame.
  { intros fs'. exists fs', (topic_throughput (w_tx w)).
    by destruct w as [? [] ? ? ? ? ? ?]. }
  destruct (topic_config (w_tx w) !! topic ≫= ThroughputLimit) as [limit|].
  - destruct (limit =? 0).
    + apply ret_Ok in H as [-> ->]. destruct (Hsame fs) as (fs' & tt' & ->). by exists fs', tt'.
    + apply consumeTokens_Ok in H as (-> & fs' & tt' & -> & _).
      exists fs', tt'. split; [done|]. lia.
  - apply ret_Ok in H as [-> ->]. destruct (Hsame fs) as (fs' & tt' & ->). by exists fs', tt'.
Qed.

(** ** The rate bound *)

(** Successive draws on the bucket of a topic at one instant. *)
Fixpoint draws (topic : string) (limit : Z) (wants : list Z) : M (list Z) :=
  match wants with
  | [] => mret []
  | want :: wants' =>
      n ← consumeTokens topic limit want;
      ns ← draws topic limit wants';
      mret (n :: ns)
  end.

Context `{LAWS : !PostgresLaws}.

Lemma whole_tokens_le topic limit e db :
  0 ≤ limit ≤ 2 ^ 53 → whole_tokens topic limit e db ≤ limit.
Proof.
  intros Hl. unfold whole_tokens, sql_refill.
  destruct (topic_throughput db !! topic) as [[tok last]|]; simpl.
  - unfold f8_least. destruct (f8_ltb _ _) eqn:Hlt; [by apply f8_int_lt in Hlt; lia|].
    rewrite f8_int_of_Z; lia.
  - rewrite f8_int_of_Z; lia.
Qed.

(** A draw takes exactly what it grants from the bucket. *)
Lemma whole_tokens_draw topic limit want e w n w' :
  0 ≤ limit ≤ 2 ^ 53 →
  consumeTokens topic limit want e w = (Ok n, w') →
  whole_tokens topic limit e (w_tx w') = whole_tokens topic limit e (w_tx w) - n.
Proof.
  intros Hl H. pose proof (whole_tokens_le topic limit e (w_tx w) Hl) as Hle.
  apply consumeTokens_Ok in H as (Hn & fs & tt' & -> & tokens & Htt & Htok & _).
  unfold whole_tokens in *. simpl in *. rewrite Htt. set (t0 := match _ with Some _ => _ | None => _ end) in *.
  assert (f8_int tokens = f8_int t0 - n) as Hint.
  { rewrite Htok. case_match; reflect_bools; [f_equal; lia|]. apply f8_int_sub; lia. }
  rewrite Z.sub_diag. unfold f8_least. destruct (f8_ltb _ _) eqn:Hlt.
  - rewrite f8_int_refill_0; lia.
  - apply f8_int_ge in Hlt; [|lia]. rewrite f8_int_refill_0 in Hlt by lia.
    rewrite f8_int_of_Z by lia. lia.
Qed.

Lemma draws_total topic limit wants e w ns w' :
  0 ≤ limit ≤ 2 ^ 53 → draws topic limit wants e w = (Ok ns, w') →
  Forall2 (λ want n, 0 ≤ n ≤ Z.max 0 want) wants ns ∧
  foldr Z.add 0 ns ≤ Z.max 0 (whole_tokens topic limit e (w_tx w)).
Proof.
  intros Hl. revert w ns. induction wants as [|want wants IH]; simpl; intros w ns H.
  - apply ret_Ok in H as [-> ->]. simpl. split; [done|lia].
  - apply bind_Ok in H as (n & w1 & Hn & H). apply bind_Ok in H as (ns' & w2 & Hns & H).
    apply ret_Ok in H as [-> ->].
    pose proof (whole_tokens_draw _ _ _ _ _ _ _ Hl Hn) as Hw.
    apply IH in Hns as [Hall Hsum]. apply consumeTokens_Ok in Hn as [Hn _]. simpl.
    split; [constructor; [lia|done]|]. lia.
Qed.

(** However many dequeues of a topic with throughput limit [limit] reach the
    bucket at one instant, and whatever number each of them wants, none is granted
    more than it asked for and together they are granted at most [limit] messages. *)
Theorem throttle_burst_bound topic limit wants e w ns w' :
  0 ≤ limit ≤ 2 ^ 53 → draws topic limit wants e w = (Ok ns, w') →
  Forall2 (λ want n, 0 ≤ n ≤ Z.max 0 want) wants ns ∧ foldr Z.add 0 ns ≤ limit.
Proof.
  intros Hl H. destruct (draws_total _ _ _ _ _ _ _ Hl H) as [Hall Hsum].
  pose proof (whole_tokens_le topic limit e (w_tx w) Hl). split; [done|lia].
Qed.
End throttle.

Lemma throttle_burst_bound_witness :
  let run := draws (PG:=pg_model) (ST:=storage_model) "t" 3 [2; 2; 2] (env_at 5)
               (world_of empty_db) in
  run.1 = Ok [2; 1; 0] ∧ foldr Z.add 0 [2; 1; 0] ≤ 3.
Proof.
  intros run. assert (run.1 = Ok [2; 1; 0]) as Hrun by (vm_compute; reflexivity).
  split; [exact Hrun|].
  eapply (throttle_burst_bound "t" 3 [2; 2; 2] (env_at 5) (world_of empty_db) [2; 1; 0]);
    [lia|by apply run_eta].
Defined.
