(* ===== verification/Schema.v ===== *)
(** * Topic schemas

    The stateful part of [backend/internal/queue/schema.go]: registration and
    removal of Avro schemas, the lookup through Redis and the table, the
    process-wide map of compiled schemas keyed by topic and version, and
    [validatePayload], which [Enqueue] calls.  [avro.Parse] of the [hamba/avro]
    library and the JSON reader are the parameters [Codecs]. *)

From S2P Require Import Prelude.
From S2P Require Import Store.
From S2P Require Import Avro.
From S2P Require Import Runtime.
From S2P Require Import Model.
From S2P Require Import TopicConfig.

Class Codecs := {
  avro_Parse : string → option avro;
  json_Unmarshal : string → option json;
}.

Section schema.
Context `{PG : Postgres} `{ST : Storage} `{CO : Codecs}.

Definition schemaCachePrefix : string := "queueti:cache:schema:".
Definition schemaCacheTTL : Z := 30 * Second.

Definition GetTopicSchema (topic : string) : M (option TopicSchema) :=
  pool_query "get topic schema" (λ _ db, topic_schemas db !! topic).

Definition ListTopicSchemas : M (list TopicSchema) :=
  pool_query "list topic schemas"
    (λ _ db, order_by_text ts_Topic (map_to_list (topic_schemas db)).*2).

(** [globalSchemaCache.m.Delete(topic)] *)
Definition evict_schema (topic : string) : M unit :=
  modify (λ w, set_schema_cache (delete topic (w_schemaCache w)) w).

(** The upsert: version 1 for a new row, one more for an existing one. *)
Definition sql_upsert_schema (topic schemaJSON : string) (e : Env) (db : DB)
    : result PgError (TopicSchema * DB) :=
  let version := match topic_schemas db !! topic with
                 | None => 1 | Some old => Version old + 1 end in
  if decide (int4 version) then
    let ts := mkTopicSchema topic schemaJSON version (pg_now e) in
    Ok (ts, set_schemas (<[topic:=ts]> (topic_schemas db)) db)
  else Err NumericOutOfRange.

Definition UpsertTopicSchema (topic schemaJSON : string) : M TopicSchema :=
  match avro_Parse schemaJSON with
  | None => fail ErrInvalidSchema
  | Some _ =>
      evict_schema topic;;
      pool_stmt "upsert topic schema" (sql_upsert_schema topic schemaJSON)
  end.

Definition sql_delete_schema (topic : string) (_ : Env) (db : DB)
    : result PgError (unit * DB) :=
  Ok (tt, set_schemas (delete topic (topic_schemas db)) db).

Definition DeleteTopicSchema (topic : string) : M unit :=
  evict_schema topic;;
  pool_stmt "delete topic schema" (sql_delete_schema topic).

Definition UpsertTopicSchemaAndNotify (topic schemaJSON : string) : M TopicSchema :=
  ts ← UpsertTopicSchema topic schemaJSON;
  cache_Delete [schemaCachePrefix +:+ topic];;
  Publish ChannelSchemaChanged topic;;
  mret ts.

Definition DeleteTopicSchemaAndNotify (topic : string) : M unit :=
  DeleteTopicSchema topic;;
  cache_Delete [schemaCachePrefix +:+ topic];;
  Publish ChannelSchemaChanged topic;;
  mret tt.

(** [json.Unmarshal(raw, &ts)] *)
Definition decode_schema (raw : CacheBytes) : option TopicSchema :=
  match raw with
  | cache_schema ts => Some ts
  | cache_config cfg => Some (mkTopicSchema (Topic cfg) "" 0 0)
  | cacheNotFoundSentinel => Some (mkTopicSchema "" "" 0 0)
  | cache_garbage _ => None
  end.

(** The L3 part of [getTopicSchemaCached]. *)
Definition get_schema_db (topic : string) : M (option TopicSchema) :=
  ts ← GetTopicSchema topic;
  match ts with
  | None =>
      cache_Set (schemaCachePrefix +:+ topic) cacheNotFoundSentinel schemaCacheTTL;; mret None
  | Some ts =>
      cache_Set (schemaCachePrefix +:+ topic) (cache_schema ts) schemaCacheTTL;; mret (Some ts)
  end.

Definition getTopicSchemaCached (topic : string) : M (option TopicSchema) :=
  raw ← cache_Get (schemaCachePrefix +:+ topic);
  match raw with
  | Ok (Some cacheNotFoundSentinel) => mret None
  | Ok (Some bytes) =>
      match decode_schema bytes with
      | Some ts => mret (Some ts)
      | None => cache_Delete [schemaCachePrefix +:+ topic];; get_schema_db topic
      end
  | _ => get_schema_db topic
  end.

(** Parse the schema and remember it under its version. *)
Definition compile_schema (topic : string) (ts : TopicSchema) : M avro :=
  match avro_Parse (SchemaJSON ts) with
  | None => fail ErrInvalidSchema
  | Some compiled =>
      modify (λ w, set_schema_cache (<[topic:=(compiled, Version ts)]> (w_schemaCache w)) w);;
      mret compiled
  end.

Definition resolveSchema (topic : string) (ts : TopicSchema) : M avro :=
  cache ← get w_schemaCache;
  match cache !! topic with
  | Some (schema, version) =>
      if version =? Version ts then mret schema else compile_schema topic ts
  | None => compile_schema topic ts
  end.

Definition validatePayload (topic payload : string) : M unit :=
  ts ← getTopicSchemaCached topic;
  match ts with
  | None => mret tt
  | Some ts =>
      compiled ← resolveSchema topic ts;
      match validateJSONAgainstAvro compiled (json_Unmarshal payload) with
      | Ok _ => mret tt
      | Err x => fail (ErrSchemaValidation x)
      end
  end.

(** [listenChannel]'s handler for [ChannelSchemaChanged]. *)
Definition onSchemaChanged (topic : string) : M unit := evict_schema topic.

(** ** Table changes *)

Lemma evict_schema_neutral t : neutral (evict_schema t).
Proof. unfold evict_schema. solve_neutral. Qed.
Lemma GetTopicSchema_neutral t : neutral (GetTopicSchema t).
Proof. unfold GetTopicSchema. solve_neutral. Qed.
Lemma ListTopicSchemas_neutral : neutral ListTopicSchemas.
Proof. unfold ListTopicSchemas. solve_neutral. Qed.
Hint Resolve evict_schema_neutral GetTopicSchema_neutral ListTopicSchemas_neutral : queueti.
Lemma get_schema_db_neutral t : neutral (get_schema_db t).
Proof. unfold get_schema_db. solve_neutral. Qed.
Hint Resolve get_schema_db_neutral : queueti.
Lemma getTopicSchemaCached_neutral t : neutral (getTopicSchemaCached t).
Proof. unfold getTopicSchemaCached. solve_neutral. Qed.
Lemma compile_schema_neutral t ts : neutral (compile_schema t ts).
Proof. unfold compile_schema. solve_neutral. Qed.
Hint Resolve getTopicSchemaCached_neutral compile_schema_neutral : queueti.
Lemma resolveSchema_neutral t ts : neutral (resolveSchema t ts).
Proof. unfold resolveSchema. solve_neutral. Qed.
Hint Resolve resolveSchema_neutral : queueti.
Lemma validatePayload_neutral t p : neutral (validatePayload t p).
Proof. unfold validatePayload. solve_neutral. Qed.

Hint Resolve validatePayload_neutral : queueti.

Lemma get_schema_db_calm t : calm (get_schema_db t).
Proof. unfold get_schema_db, GetTopicSchema. solve_calm. Qed.
Hint Resolve get_schema_db_calm : queueti.
Lemma getTopicSchemaCached_calm t : calm (getTopicSchemaCached t).
Proof. unfold getTopicSchemaCached. solve_calm. Qed.
Lemma compile_schema_calm t ts : calm (compile_schema t ts).
Proof. unfold compile_schema. solve_calm. Qed.
Hint Resolve getTopicSchemaCached_calm compile_schema_calm : queueti.
Lemma resolveSchema_calm t ts : calm (resolveSchema t ts).
Proof. unfold resolveSchema. solve_calm. Qed.
Hint Resolve resolveSchema_calm : queueti.
Lemma validatePayload_calm t p : calm (validatePayload t p).
Proof. unfold validatePayload. solve_calm. Qed.

(** ** Which schema a payload is checked against *)

(** The table's own verdict on a payload. *)
Definition table_verdict (db : DB) (topic payload : string) : result Error unit :=
  match topic_schemas db !! topic with
  | None => Ok tt
  | Some ts =>
      match avro_Parse (SchemaJSON ts) with
      | None => Err ErrInvalidSchema
      | Some s =>
          match validateJSONAgainstAvro s (json_Unmarshal payload) with
          | Ok _ => Ok tt
          | Err x => Err (ErrSchemaValidation x)
          end
      end
  end.

Definition describes_schema (db : DB) (t : string) (bytes : CacheBytes) : Prop :=
  match topic_schemas db !! t with
  | None => bytes = cacheNotFoundSentinel
  | Some ts => bytes = cache_schema ts
  end.

(** A compiled schema of the table's current version is the table's schema; a Redis
    entry describes the row. *)
Record schema_coherent (w : World) : Prop := {
  schema_coherent_l1 t s v ts : w_schemaCache w !! t = Some (s, v) →
    topic_schemas (w_db w) !! t = Some ts → Version ts = v →
    avro_Parse (SchemaJSON ts) = Some s;
  schema_coherent_l2 st t b : w_cache w = Some st →
    storage_get st (schemaCachePrefix +:+ t) = Some b → describes_schema (w_db w) t b;
}.

Lemma schema_coherent_same w w' :
  topic_schemas (w_db w') = topic_schemas (w_db w) →
  w_schemaCache w' = w_schemaCache w → w_cache w' = w_cache w →
  schema_coherent w → schema_coherent w'.
Proof.
  intros Hd H1 H2 [Hl1 Hl2]. unfold describes_schema in *.
  split; unfold describes_schema; rewrite Hd, ?H1, ?H2; eauto.
Qed.

Context `{SLAWS : !StorageLaws}.

Lemma schema_coherent_set w st t v ttl :
  describes_schema (w_db w) t v → w_cache w = Some st → schema_coherent w →
  schema_coherent (set_cache (Some (storage_set st (schemaCachePrefix +:+ t) v ttl)) w).
Proof.
  intros Hv Hst [Hl1 Hl2]. split; [done|]. simpl. intros st' t' b [= <-] Hb.
  destruct (decide (t = t')) as [<-|Ht]; [by apply get_set in Hb as ->|].
  eapply Hl2; [done|]. eapply get_set_other, Hb. by intros ?%(inj _).
Qed.

Lemma get_schema_db_correct t e w :
  schema_coherent w →
  schema_coherent (get_schema_db t e w).2 ∧ w_db (get_schema_db t e w).2 = w_db w ∧
  match (get_schema_db t e w).1 with
  | Ok o => o = topic_schemas (w_db w) !! t
  | Err x => lost x
  end.
Proof.
  intros Hw. unfold get_schema_db, GetTopicSchema. rewrite run_bind.
  destruct (pool_query_cases "get topic schema" (λ _ db, topic_schemas db !! t) e w)
    as [fs0 Hq].
  assert (schema_coherent (set_faults fs0 w)) as Hc1 by by apply (schema_coherent_same w).
  change (w_db w) with (w_db (set_faults fs0 w)) in Hq |- *.
  revert Hc1 Hq. generalize (set_faults fs0 w) as w1. intros w1 Hc1 Hq.
  clear Hw. destruct Hq as [-> | ->]; simpl; [|by (split_and!; [..|eexists])].
  destruct (topic_schemas (w_db w1) !! t) as [ts|] eqn:Ht;
    rewrite run_bind;
    match goal with |- context [cache_Set ?k ?v ?ttl e ?w'] =>
      destruct (cache_Set_run k v ttl e w') as (r & fs & c & -> & [->|(st & Hst & ->)]) end;
    simpl; (split; [|done]).
  1, 3: by eapply schema_coherent_same; [..|exact Hc1].
  all: apply (schema_coherent_same
    (set_cache (Some (storage_set st (schemaCachePrefix +:+ t) 
       (match topic_schemas (w_db w1) !! t with
        | None => cacheNotFoundSentinel | Some ts => cache_schema ts end) schemaCacheTTL)) w1));
    simpl; rewrite ?Ht; try done.
  all: rewrite <-?Ht; apply schema_coherent_set; try done; unfold describes_schema; by rewrite Ht.
Qed.

(** The lookup, through the distributed cache and under any faults. *)
Lemma getTopicSchemaCached_correct t e w :
  schema_coherent w →
  schema_coherent (getTopicSchemaCached t e w).2 ∧
  w_db (getTopicSchemaCached t e w).2 = w_db w ∧
  match (getTopicSchemaCached t e w).1 with
  | Ok o => o = topic_schemas (w_db w) !! t
  | Err x => lost x
  end.
Proof.
  intros Hw. unfold getTopicSchemaCached, cache_Get. rewrite run_bind_bind, run_get.
  destruct (w_cache w) as [st|] eqn:Hst;
    [|rewrite run_ret_bind; by apply get_schema_db_correct].
  destruct (round_trip_cases e w) as (o & w1 & Hrt & Hw1).
  assert (schema_coherent w1 ∧ w_db w1 = w_db w) as [Hc1 Hd1]
    by (destruct Hw1 as [->|[fs ->]]; [done|split; [by apply (schema_coherent_same w)|done]]).
  rewrite run_bind_bind, run_bind, Hrt, <-Hd1.
  destruct o; rewrite run_ret_bind; try by apply get_schema_db_correct.
  destruct (storage_get st (schemaCachePrefix +:+ t)) as [b|] eqn:Hb;
    [|by apply get_schema_db_correct].
  pose proof (schema_coherent_l2 _ Hw _ _ _ Hst Hb) as Hdesc.
  unfold describes_schema in Hdesc. rewrite <-Hd1 in Hdesc.
  destruct (topic_schemas (w_db w1) !! t) as [ts|] eqn:Ht; subst b; simpl;
    done.
Qed.

Lemma resolveSchema_correct t ts e w :
  schema_coherent w → topic_schemas (w_db w) !! t = Some ts →
  schema_coherent (resolveSchema t ts e w).2 ∧
  (resolveSchema t ts e w).1 =
    match avro_Parse (SchemaJSON ts) with Some s => Ok s | None => Err ErrInvalidSchema end.
Proof.
  intros Hw Ht. unfold resolveSchema. rewrite run_get.
  assert (schema_coherent (compile_schema t ts e w).2 ∧
    (compile_schema t ts e w).1 = match avro_Parse (SchemaJSON ts) with
                                  | Some s => Ok s | None => Err ErrInvalidSchema end) as Hcomp.
  { unfold compile_schema. destruct (avro_Parse (SchemaJSON ts)) as [s|] eqn:Hp; [|done].
    rewrite run_modify, run_ret. split; [|done]. destruct Hw as [Hl1 Hl2].
    split; [|done]. simpl. intros t' s' v ts' [[<- [= <- <-]]|[_ Hin]]%lookup_insert_Some Ht' Hv.
    - by simplify_eq.
    - by eapply Hl1. }
  destruct (w_schemaCache w !! t) as [[s v]|] eqn:Hl1; [|done].
  destruct (v =? Version ts) eqn:Hv; reflect_bools; [|done].
  rewrite run_ret. split; [done|]. by rewrite (schema_coherent_l1 _ Hw _ _ _ _ Hl1 Ht).
Qed.

(** A validation with the caches in step with the table: under any faults it
    reports a failed round trip or the table's verdict. *)
Lemma validatePayload_correct t p e w :
  schema_coherent w →
  schema_coherent (validatePayload t p e w).2 ∧
  ((validatePayload t p e w).1 = table_verdict (w_db w) t p ∨
   ∃ x, (validatePayload t p e w).1 = Err x ∧ lost x).
Proof.
  intros Hw. unfold validatePayload, table_verdict. rewrite run_bind.
  destruct (getTopicSchemaCached_correct t e w Hw) as (Hc & Hd & Hans).
  destruct (getTopicSchemaCached t e w) as [[o|x] w1]; simpl in *; [|naive_solver].
  subst o. rewrite <-Hd. destruct (topic_schemas (w_db w1) !! t) as [ts|] eqn:Ht;
    [|rewrite run_ret; naive_solver].
  rewrite run_bind. destruct (resolveSchema_correct t ts e w1 Hc Ht) as [Hc2 Hr].
  destruct (resolveSchema t ts e w1) as [[s|x] w2]; simpl in *.
  - destruct (avro_Parse (SchemaJSON ts)); simplify_eq.
    split; [by case_match|]. left. by case_match.
  - destruct (avro_Parse (SchemaJSON ts)); simplify_eq. split; [done|by left].
Qed.

(** ** The two families of cache keys *)

Lemma cache_keys_disjoint t t' : configCachePrefix +:+ t ≠ schemaCachePrefix +:+ t'.
Proof. intros H. by apply (f_equal (String.get 14)) in H. Qed.

(** A property of the world that reads neither the compiled schemas nor the schema
    keys of the distributed cache survives every validation. *)
Record ignores_schema (P : World → Prop) : Prop := {
  ignores_schema_faults fs w : P w → P (set_faults fs w);
  ignores_schema_l1 c w : P w → P (set_schema_cache c w);
  ignores_schema_set st t v ttl w : w_cache w = Some st → P w →
    P (set_cache (Some (storage_set st (schemaCachePrefix +:+ t) v ttl)) w);
  ignores_schema_delete st t w : w_cache w = Some st → P w →
    P (set_cache (Some (storage_delete st (schemaCachePrefix +:+ t))) w);
}.

Lemma validatePayload_preserves P t p : ignores_schema P → preserves P (validatePayload t p).
Proof.
  intros [Hfs Hl1 Hset Hdel].
  assert (preserves P (get_schema_db t)).
  { unfold get_schema_db, GetTopicSchema. apply preserves_bind; [by apply preserves_pool_query|].
    intros [ts|]; (apply preserves_bind; [apply cache_Set_preserves; auto|solve_preserves]). }
  assert (preserves P (getTopicSchemaCached t)).
  { unfold getTopicSchemaCached. apply preserves_bind; [by apply cache_Get_preserves|].
    intros raw. pose proof (cache_Delete_preserves P (schemaCachePrefix +:+ t)).
    solve_preserves. }
  assert (∀ ts, preserves P (compile_schema t ts)).
  { intros ts. unfold compile_schema. case_match; [|solve_preserves].
    apply preserves_bind; [apply preserves_modify; auto|solve_preserves]. }
  unfold validatePayload, resolveSchema. solve_preserves.
Qed.

Lemma coherent_ignores_schema : ignores_schema coherent.
Proof.
  split; intros *.
  - by apply coherent_same.
  - by apply coherent_same.
  - intros Hst [Hl1 Hl2]. split; [done|]. simpl. intros st' t' b [= <-] Hb.
    apply get_set_other in Hb; [by eapply Hl2|]. intros ?. by eapply cache_keys_disjoint.
  - intros Hst [Hl1 Hl2]. split; [done|]. simpl. intros st' t' b [= <-] Hb.
    apply get_delete_other in Hb. by eapply Hl2.
Qed.

Lemma schema_coherent_ignores_config : ignores_config schema_coherent.
Proof.
  split; intros *.
  - by apply schema_coherent_same.
  - by apply schema_coherent_same.
  - intros Hst [Hl1 Hl2]. split; [done|]. simpl. intros st' t' b [= <-] Hb.
    apply get_set_other in Hb; [by eapply Hl2|]. by eapply cache_keys_disjoint.
  - intros Hst [Hl1 Hl2]. split; [done|]. simpl. intros st' t' b [= <-] Hb.
    apply get_delete_other in Hb. by eapply Hl2.
Qed.

(** The lookups keep both kinds of caches in step with the tables. *)
Definition caches_ok (w : World) : Prop := coherent w ∧ schema_coherent w.

Lemma GetTopicConfig_caches_ok t e w :
  caches_ok w →
  caches_ok (GetTopicConfig t e w).2 ∧ w_db (GetTopicConfig t e w).2 = w_db w ∧
  match (GetTopicConfig t e w).1 with
  | Ok c => c = topic_config (w_db w) !! t
  | Err x => lost x
  end.
Proof.
  intros [Hc Hs]. destruct (GetTopicConfig_correct t e w Hc) as [Hc' Hans].
  destruct (GetTopicConfig_neutral t e w) as [Hdb _].
  pose proof (GetTopicConfig_error t e w) as Herr.
  split; [split; [done|]|split; [done|]].
  - by apply GetTopicConfig_preserves; [apply schema_coherent_ignores_config|].
  - destruct (GetTopicConfig t e w) as [[c|x] w']; simpl in *; [by apply Hans|by apply Herr].
Qed.

Lemma validatePayload_caches_ok t p e w :
  caches_ok w →
  caches_ok (validatePayload t p e w).2 ∧ w_db (validatePayload t p e w).2 = w_db w ∧
  ((validatePayload t p e w).1 = table_verdict (w_db w) t p ∨
   ∃ x, (validatePayload t p e w).1 = Err x ∧ lost x).
Proof.
  intros [Hc Hs]. destruct (validatePayload_correct t p e w Hs) as [Hs' Hans].
  split; [split; [|done]|split; [apply validatePayload_neutral|done]].
  by apply validatePayload_preserves; [apply coherent_ignores_schema|].
Qed.

(** ** Registration without failing round trips *)

(** The world after a committed change of the schema of [t]. *)
Definition schema_invalidated (t : string) (db : DB) (w : World) : World :=
  mkWorld db (w_tx w) (w_topicConfigCache w) (delete t (w_schemaCache w))
    ((λ st, storage_delete st (schemaCachePrefix +:+ t)) <$> w_cache w)
    (w_published w ++ [(ChannelSchemaChanged, t)]) (w_metrics w) (w_faults w).

Lemma schema_invalidated_coherent t db w :
  (∀ t', t' ≠ t → topic_schemas db !! t' = topic_schemas (w_db w) !! t') →
  schema_coherent w → schema_coherent (schema_invalidated t db w).
Proof.
  intros Hdb [Hl1 Hl2]. split; simpl.
  - intros t' s v ts [Ht Hc]%lookup_delete_Some. rewrite Hdb by done. by apply Hl1.
  - intros st' t' b. destruct (w_cache w) as [st|] eqn:Hst; [|done]. intros [= <-] Hb.
    destruct (decide (t' = t)) as [->|Ht]; [by rewrite get_deleted in Hb|].
    apply get_delete_other in Hb. unfold describes_schema. simpl.
    rewrite Hdb by done. by eapply Hl2.
Qed.

Definition next_version (db : DB) (t : string) : Z :=
  match topic_schemas db !! t with None => 1 | Some old => Version old + 1 end.

Lemma UpsertTopicSchemaAndNotify_calm t j s e w :
  w_faults w = [] → avro_Parse j = Some s → int4 (next_version (w_db w) t) →
  let ts := mkTopicSchema t j (next_version (w_db w) t) (pg_now e) in
  UpsertTopicSchemaAndNotify t j e w =
    (Ok ts, schema_invalidated t
       (set_schemas (<[t:=ts]> (topic_schemas (w_db w))) (w_db w)) w).
Proof.
  intros Hf Hp Hv ts. unfold UpsertTopicSchemaAndNotify, UpsertTopicSchema. rewrite Hp.
  unfold evict_schema. rewrite run_bind_bind, run_modify, run_bind, pool_stmt_calm by done.
  unfold sql_upsert_schema. fold (next_version (w_db (set_schema_cache
    (delete t (w_schemaCache w)) w)) t).
  rewrite decide_True by done.
  rewrite run_bind, cache_Delete_calm, run_bind, Publish_calm by done. done.
Qed.

Lemma DeleteTopicSchemaAndNotify_calm t e w :
  w_faults w = [] →
  DeleteTopicSchemaAndNotify t e w =
    (Ok tt, schema_invalidated t (set_schemas (delete t (topic_schemas (w_db w))) (w_db w)) w).
Proof.
  intros Hf. unfold DeleteTopicSchemaAndNotify, DeleteTopicSchema, evict_schema.
  rewrite run_bind_bind, run_modify, run_bind, pool_stmt_calm by done.
  unfold sql_delete_schema.
  rewrite run_bind, cache_Delete_calm, run_bind, Publish_calm by done. done.
Qed.

(** A lookup that finds no cache entry answers from the table. *)
Lemma getTopicSchemaCached_uncached t e w :
  w_faults w = [] →
  (∀ st, w_cache w = Some st → storage_get st (schemaCachePrefix +:+ t) = None) →
  ∃ c, getTopicSchemaCached t e w = (Ok (topic_schemas (w_db w) !! t), set_cache c w).
Proof.
  destruct w as [db tx l1 sc ca pu me fs]. intros [= ->] Hnone. simpl in Hnone.
  assert (∃ c, get_schema_db t e (mkWorld db tx l1 sc ca pu me []) =
    (Ok (topic_schemas db !! t), mkWorld db tx l1 sc c pu me [])) as [c Hc].
  { unfold get_schema_db. rewrite run_bind. simpl.
    destruct (topic_schemas db !! t), ca; cbv -[insert]; eauto. }
  exists c. unfold getTopicSchemaCached, cache_Get. rewrite run_bind_bind, run_get. simpl.
  destruct ca as [st|]; [|exact Hc].
  rewrite run_bind_bind, run_bind. simpl. by rewrite Hnone.
Qed.

(** After a schema is registered without a failed round trip, the caches are in
    step with the table, the version is the successor of the previous one, and every
    payload submitted to the topic afterwards is judged by the new schema: it is
    accepted exactly when the validator accepts it against the parsed text, whatever
    compiled schema or cache entry was there before, unless the lookup itself fails
    with an SQL error; other topics are judged as before. *)
Theorem registered_schema_governs t j s e e' w fs t' p :
  w_faults w = [] → schema_coherent w → avro_Parse j = Some s →
  int4 (next_version (w_db w) t) →
  ∃ w1, UpsertTopicSchemaAndNotify t j e w =
      (Ok (mkTopicSchema t j (next_version (w_db w) t) (pg_now e)), w1) ∧
    schema_coherent w1 ∧
    let answer := (validatePayload t' p e' (set_faults fs w1)).1 in
    (∃ x, answer = Err x ∧ lost x) ∨
    answer = if decide (t' = t) then
               match validateJSONAgainstAvro s (json_Unmarshal p) with
               | Ok _ => Ok tt
               | Err x => Err (ErrSchemaValidation x)
               end
             else table_verdict (w_db w) t' p.
Proof.
  intros Hf Hw Hp Hv. eexists.
  split; [by eapply UpsertTopicSchemaAndNotify_calm|].
  match goal with |- schema_coherent ?w1 ∧ _ => assert (schema_coherent w1) as Hc1 end.
  { apply schema_invalidated_coherent; [|done]. intros ??. by apply lookup_insert_ne. }
  split; [done|]. intros answer.
  destruct (validatePayload_correct t' p e' (set_faults fs (schema_invalidated t
     (set_schemas (<[t:=mkTopicSchema t j (next_version (w_db w) t) (pg_now e)]>
        (topic_schemas (w_db w))) (w_db w)) w))) as [_ Hans];
    [by eapply schema_coherent_same; [..|exact Hc1]|].
  destruct Hans as [Hans|Hans]; [right|left; exact Hans].
  unfold answer. rewrite Hans. unfold table_verdict. simpl.
  case_decide as Heq; [subst t'; rewrite lookup_insert_eq; simpl; by rewrite Hp|].
  by rewrite lookup_insert_ne.
Qed.

(** Versions restart: a process that missed the broadcasts keeps its compiled
    schema when the topic's schema is deleted and registered anew, because the new
    row has version 1 again; its validations then use the deleted schema. *)
Theorem recreated_schema_keeps_stale_compilation t p s_old j e w w' :
  w_schemaCache w' !! t = Some (s_old, 1) → w_faults w = [] → w_faults w' = [] →
  is_Some (avro_Parse j) →
  let w1 := (DeleteTopicSchemaAndNotify t e w).2 in
  let w2 := (UpsertTopicSchemaAndNotify t j e w1).2 in
  (validatePayload t p e (set_db (w_db w2) (set_cache (w_cache w2) w'))).1 =
    match validateJSONAgainstAvro s_old (json_Unmarshal p) with
    | Ok _ => Ok tt
    | Err x => Err (ErrSchemaValidation x)
    end.
Proof.
  intros Hl1 Hf Hf' [s Hp] w1 w2.
  assert (w2 = (UpsertTopicSchemaAndNotify t j e w1).2) as Hw2 by done.
  subst w1. rewrite DeleteTopicSchemaAndNotify_calm in Hw2 by done. simpl in Hw2.
  erewrite UpsertTopicSchemaAndNotify_calm in Hw2; [|done..|].
  2: { unfold next_version. simpl. by rewrite lookup_delete_eq. }
  simpl in Hw2. unfold next_version in Hw2. simpl in Hw2. rewrite lookup_delete_eq in Hw2.
  rewrite Hw2. clear w2 Hw2. unfold validatePayload. rewrite run_bind.
  match goal with |- context [getTopicSchemaCached t e ?w0] =>
    destruct (getTopicSchemaCached_uncached t e w0) as [c Hget]; [done| |] end.
  { simpl. destruct (w_cache w); simpl; intros ? [= <-]. apply get_deleted. }
  rewrite Hget. simpl. rewrite lookup_insert_eq, run_bind.
  unfold resolveSchema. rewrite run_get. simpl. rewrite Hl1. simpl. by case_match.
Qed.
End schema.

#[export] Hint Resolve evict_schema_neutral GetTopicSchema_neutral ListTopicSchemas_neutral
  get_schema_db_neutral getTopicSchemaCached_neutral compile_schema_neutral
  resolveSchema_neutral validatePayload_neutral validatePayload_calm : queueti.
