(* ===== verification/Dequeue.v ===== *)
(** * Dequeue

    [backend/internal/queue/dequeue.go] and [message.go]: the four ways a consumer
    claims messages, alone or in batches, for itself or for a consumer group. *)

From S2P Require Import Prelude.
From S2P Require Import Store.
From S2P Require Import Avro.
From S2P Require Import Runtime.
From S2P Require Import Model.
From S2P Require Import TopicConfig.
From S2P Require Import Throttle.

(** [queue.Message]; a [nil] pointer or map is [None]. *)
Record Message := mkMessage {
  ID : string;
  msg_Topic : string;
  Key : option string;
  Payload : string;
  Metadata : option (gmap string string);
  Status : string;
  RetryCount : Z;
  msg_MaxRetries : Z;
  LastError : string;
  ExpiresAt : option Z;
  CreatedAt : Z;
  OriginalTopic : string;
  DLQMovedAt : option Z;
}.

(** [hydrateMessage]: the nullable error text and the metadata column. *)
Definition hydrate_last_error (lastError : option string) : string :=
  default "" lastError.
Definition hydrate_metadata (metaJSON : option metadata_json)
    : result Error (option (gmap string string)) :=
  match metaJSON with
  | None => Ok None
  | Some json_null => Ok None
  | Some (json_object m) => Ok (Some m)
  | Some json_other => Err ErrMetadata
  end.

(** The scan of a row of [messages] and its hydration; the status column is not
    selected by the dequeue queries. *)
Definition row_message (id : uuid) (r : MessageRow) : result Error Message :=
  match hydrate_metadata (m_metadata r) with
  | Err x => Err x
  | Ok md =>
      Ok (mkMessage id (m_topic r) (m_key r) (m_payload r) md "" (m_retry_count r)
            (m_max_retries r) (hydrate_last_error (m_last_error r)) (m_expires_at r)
            (m_created_at r) (default "" (m_original_topic r)) (m_dlq_moved_at r))
  end.

(** [scanMessageWithDelivery] and [scanMessageWithDeliveryRows]: the retry columns
    come from the delivery. *)
Definition scanMessageWithDelivery (id : uuid) (r : MessageRow) (d : DeliveryRow)
    : result Error Message :=
  match hydrate_metadata (m_metadata r) with
  | Err x => Err x
  | Ok md =>
      Ok (mkMessage id (m_topic r) (m_key r) (m_payload r) md "" (d_retry_count d)
            (d_max_retries d) (hydrate_last_error (d_last_error d)) (m_expires_at r)
            (m_created_at r) (default "" (m_original_topic r)) (m_dlq_moved_at r))
  end.

(** The columns the dequeue queries test, on a message or a delivery:
    [visibility_timeout IS NULL OR visibility_timeout < now()],
    [expires_at IS NULL OR expires_at > now()],
    [max_retries = 0 OR retry_count < max_retries]. *)
Definition visible (now : Z) (vt : option Z) : Prop :=
  match vt with None => True | Some t => t < now end.
Definition unexpired (now : Z) (exp : option Z) : Prop :=
  match exp with None => True | Some t => now < t end.
Definition retries_left (max_retries retry_count : Z) : Prop :=
  max_retries = 0 ∨ retry_count < max_retries.
#[export] Instance visible_dec now vt : Decision (visible now vt).
Proof. unfold visible. destruct vt; apply _. Defined.
#[export] Instance unexpired_dec now exp : Decision (unexpired now exp).
Proof. unfold unexpired. destruct exp; apply _. Defined.
#[export] Instance retries_left_dec mr rc : Decision (retries_left mr rc).
Proof. unfold retries_left. apply _. Defined.

(** The [WHERE] clause of [Dequeue]. *)
Definition eligible (now : Z) (topic : string) (r : MessageRow) : Prop :=
  m_topic r = topic ∧ m_status r = pending ∧ visible now (m_visibility_timeout r) ∧
  unexpired now (m_expires_at r) ∧ retries_left (m_max_retries r) (m_retry_count r).
#[export] Instance eligible_dec now t r : Decision (eligible now t r).
Proof. unfold eligible. apply _. Defined.

(** The [WHERE] clause of [DequeueN] also has [topic NOT LIKE '%.dlq']. *)
Definition eligible_batch (now : Z) (topic : string) (r : MessageRow) : Prop :=
  eligible now topic r ∧ HasSuffix (m_topic r) ".dlq" = false.
#[export] Instance eligible_batch_dec now t r : Decision (eligible_batch now t r).
Proof. unfold eligible_batch. apply _. Defined.

(** The [WHERE] clause of the consumer-group queries, on a delivery joined with its
    message. *)
Definition eligible_delivery (now : Z) (topic : string) (r : MessageRow) (d : DeliveryRow)
    : Prop :=
  m_topic r = topic ∧ d_status d = pending ∧ visible now (d_visibility_timeout d) ∧
  unexpired now (m_expires_at r) ∧ retries_left (d_max_retries d) (d_retry_count d).
#[export] Instance eligible_delivery_dec now t r d : Decision (eligible_delivery now t r d).
Proof. unfold eligible_delivery. apply _. Defined.

(** [id IN (SELECT ...)] and [(message_id, consumer_group) IN (SELECT ...)], for the
    ids the subquery selected. *)
Definition selected (ids : list uuid) (id : uuid) (_ : MessageRow) : Prop := id ∈ ids.
#[export] Instance selected_dec ids id r : Decision (selected ids id r).
Proof. unfold selected. apply _. Defined.
Definition selected_delivery (ids : list uuid) (group : string) (k : uuid * string)
    (_ : DeliveryRow) : Prop := k.1 ∈ ids ∧ k.2 = group.
#[export] Instance selected_delivery_dec ids g k d : Decision (selected_delivery ids g k d).
Proof. unfold selected_delivery. apply _. Defined.

Section dequeue.
Context `{PG : Postgres} `{ST : Storage}.

(** [resolveVisibilityTimeout] *)
Definition resolveVisibilityTimeout (s : Service) (requested : Z) : Z :=
  if 0 <? requested then requested else visibilityTimeout s.

(** The [SET] clause shared by the claims: [now() + 'secs seconds'::interval]. *)
Definition claim (now secs : Z) (r : MessageRow) : MessageRow :=
  mkMessageRow (m_topic r) (m_payload r) (m_metadata r) (m_key r) processing
    (m_retry_count r) (m_max_retries r) (m_last_error r) (Some (now + secs * 10 ^ 6))
    (m_expires_at r) (m_created_at r) now (m_original_topic r) (m_dlq_moved_at r).
Definition claim_delivery (now secs : Z) (d : DeliveryRow) : DeliveryRow :=
  mkDeliveryRow processing (Some (now + secs * 10 ^ 6)) (d_retry_count d) (d_max_retries d)
    (d_last_error d) (d_created_at d) now.

(** [SELECT ... ORDER BY created_at LIMIT n FOR UPDATE SKIP LOCKED] *)
Definition select_messages (P : MessageRow → Prop) `{∀ r, Decision (P r)} (n : Z)
    (e : Env) (db : DB) : list (uuid * MessageRow) :=
  take (Z.to_nat n)
    (order_by (λ ir, m_created_at ir.2)
       (map_to_list (filter (λ ir, P ir.2 ∧ ir.1 ∉ locked_messages e) (messages db)))).

(** The deliveries of [group] joined with their messages, [FOR UPDATE OF md SKIP
    LOCKED]. *)
Definition select_deliveries (topic group : string) (n : Z) (e : Env) (db : DB)
    : list (uuid * (MessageRow * DeliveryRow)) :=
  take (Z.to_nat n)
    (order_by (λ ird, m_created_at ird.2.1)
       (omap (λ kd,
          match messages db !! kd.1.1 with
          | Some r =>
              if decide (kd.1.2 = group ∧ eligible_delivery (pg_now e) topic r kd.2 ∧
                         kd.1 ∉ locked_deliveries e)
              then Some (kd.1.1, (r, kd.2)) else None
          | None => None
          end) (map_to_list (message_deliveries db)))).

(** The [UPDATE ... WHERE id = (SELECT ...) RETURNING] of [Dequeue]. *)
Definition sql_claim_one (topic : string) (secs : Z) (e : Env) (db : DB)
    : result PgError (option (uuid * MessageRow) * DB) :=
  match select_messages (eligible (pg_now e) topic) 1 e db with
  | [] => Ok (None, db)
  | (id, r) :: _ =>
      let r' := claim (pg_now e) secs r in
      Ok (Some (id, r'), set_messages (<[id:=r']> (messages db)) db)
  end.

(** The [UPDATE ... WHERE id IN (SELECT ...) RETURNING] of [DequeueN]. *)
Definition sql_claim_many (topic : string) (n secs : Z) (e : Env) (db : DB)
    : result PgError (list (uuid * MessageRow) * DB) :=
  let rows := select_messages (eligible_batch (pg_now e) topic) n e db in
  Ok (returning ((λ ir, (ir.1, claim (pg_now e) secs ir.2)) <$> rows),
      set_messages (map_update (selected rows.*1) (claim (pg_now e) secs) (messages db)) db).

(** The two claims on [message_deliveries], [RETURNING message_id]. *)
Definition sql_claim_deliveries (topic group : string) (n secs : Z) (e : Env) (db : DB)
    : result PgError (list uuid * DB) :=
  let rows := select_deliveries topic group n e db in
  Ok (returning rows.*1,
      set_deliveries
        (map_update (selected_delivery rows.*1 group) (claim_delivery (pg_now e) secs)
           (message_deliveries db)) db).

(** [deliveryJoinQuery] *)
Definition sql_join (id : uuid) (group : string) (db : DB)
    : option (uuid * (MessageRow * DeliveryRow)) :=
  r ← messages db !! id;
  d ← message_deliveries db !! (id, group);
  Some (id, (r, d)).

(** The batch form: [WHERE m.id = ANY($1) ... ORDER BY m.created_at]. *)
Definition sql_join_many (ids : list uuid) (group : string) (db : DB)
    : list (uuid * (MessageRow * DeliveryRow)) :=
  order_by (λ ird, m_created_at ird.2.1)
    (omap (λ ir, (λ d, (ir.1, (ir.2, d))) <$> message_deliveries db !! (ir.1, group))
       (map_to_list (filter (λ ir, ir.1 ∈ ids) (messages db)))).

Definition lift {A} (r : result Error A) : M A :=
  match r with Ok a => mret a | Err x => fail x end.

Definition Dequeue (s : Service) (topic : string) (requested : Z) : M Message :=
  let vt := resolveVisibilityTimeout s requested in
  begin_tx "dequeue begin tx";;
  allowed ← applyThroughputLimit topic 1;
  if allowed =? 0 then commit_tx "dequeue commit (throttled)";; fail ErrNoMessage
  else
    row ← tx_stmt "dequeue" (sql_claim_one topic (duration_seconds vt));
    match row with
    | None => commit_tx "dequeue commit (empty)";; fail ErrNoMessage
    | Some (id, r) =>
        msg ← lift (row_message id r);
        commit_tx "dequeue commit";;
        record (RecordDequeue (msg_Topic msg));;
        mret msg
    end.

Definition DequeueForGroup (s : Service) (topic group : string) (requested : Z) : M Message :=
  let vt := resolveVisibilityTimeout s requested in
  begin_tx "dequeue group begin tx";;
  allowed ← applyThroughputLimit topic 1;
  if allowed =? 0 then commit_tx "dequeue group commit (throttled)";; fail ErrNoMessage
  else
    ids ← tx_stmt "dequeue group" (sql_claim_deliveries topic group 1 (duration_seconds vt));
    match ids with
    | [] => commit_tx "dequeue group commit (empty)";; fail ErrNoMessage
    | messageID :: _ =>
        row ← tx_query "dequeue group fetch message" (λ _ db, sql_join messageID group db);
        match row with
        | None => fail (ErrSQL "dequeue group fetch message" NoRows)
        | Some (id, (r, d)) =>
            msg ← lift (scanMessageWithDelivery id r d);
            commit_tx "dequeue group commit";;
            record (RecordDequeue (msg_Topic msg));;
            mret msg
        end
    end.

(** The loop over the returned rows: scan, hydrate, record, append. *)
Fixpoint scan_rows {A} (scan : A → result Error Message) (rows : list A)
    : M (list Message) :=
  match rows with
  | [] => mret []
  | row :: rows' =>
      msg ← lift (scan row);
      record (RecordDequeue (msg_Topic msg));;
      msgs ← scan_rows scan rows';
      mret (msg :: msgs)
  end.

Definition DequeueNForGroup (s : Service) (topic group : string) (n requested : Z)
    : M (list Message) :=
  if (n <? 1) || (1000 <? n) then fail ErrInvalidBatchSize
  else
    let vt := resolveVisibilityTimeout s requested in
    begin_tx "dequeue group batch begin tx";;
    allowed ← applyThroughputLimit topic n;
    if allowed =? 0 then commit_tx "dequeue group batch commit (throttled)";; mret []
    else
      ids ← tx_stmt "dequeue group batch"
              (sql_claim_deliveries topic group allowed (duration_seconds vt));
      match ids with
      | [] => commit_tx "dequeue group batch commit (empty)";; mret []
      | _ =>
          rows ← tx_query "dequeue group batch fetch" (λ _ db, sql_join_many ids group db);
          msgs ← scan_rows (λ ird, scanMessageWithDelivery ird.1 ird.2.1 ird.2.2) rows;
          commit_tx "dequeue group batch commit";;
          mret msgs
      end.

Definition DequeueN (s : Service) (topic : string) (n requested : Z) : M (list Message) :=
  if (n <? 1) || (1000 <? n) then fail ErrInvalidBatchSize
  else
    let vt := resolveVisibilityTimeout s requested in
    begin_tx "dequeue batch begin tx";;
    allowed ← applyThroughputLimit topic n;
    if allowed =? 0 then commit_tx "dequeue batch commit (throttled)";; mret []
    else
      rows ← tx_stmt "dequeue batch" (sql_claim_many topic allowed (duration_seconds vt));
      msgs ← scan_rows (λ ir, row_message ir.1 ir.2) rows;
      commit_tx "dequeue batch commit";;
      mret msgs.

(** ** What a claim selects *)

Context `{LAWS : !PostgresLaws}.

(** [ORDER BY key LIMIT n]: what is left out is not before what is returned. *)
Lemma order_by_take_le {A} (key : A → Z) (n : nat) l x y :
  x ∈ take n (order_by key l) → y ∈ l → y ∉ take n (order_by key l) → key x ≤ key y.
Proof.
  intros Hx Hy Hny. pose proof (order_by_sorted key l) as Hs.
  rewrite <-(take_drop n (order_by key l)) in Hs.
  apply StronglySorted_app in Hs as (Hle & _ & _). apply Hle; [done|].
  rewrite <-(order_by_perm key l), <-(take_drop n (order_by key l)), elem_of_app in Hy.
  naive_solver.
Qed.

Lemma order_by_take_elem {A} (key : A → Z) (n : nat) l x :
  x ∈ take n (order_by key l) → x ∈ l.
Proof. rewrite <-(order_by_perm key l) at 2. apply subseteq_take. Qed.

Section select.
Context (P : MessageRow → Prop) `{∀ r, Decision (P r)}.

Lemma select_messages_elem n e db i r :
  (i, r) ∈ select_messages P n e db →
  messages db !! i = Some r ∧ P r ∧ i ∉ locked_messages e.
Proof.
  intros (Hr & HP)%order_by_take_elem%elem_of_map_to_list%map_lookup_filter_Some. done.
Qed.

Lemma select_messages_NoDup n e db : NoDup (select_messages P n e db).*1.
Proof.
  unfold select_messages. rewrite fmap_take.
  eapply sublist_NoDup; [|apply sublist_take].
  rewrite order_by_perm. apply NoDup_fst_map_to_list.
Qed.

Lemma select_messages_length n e db :
  (length (select_messages P n e db) ≤ Z.to_nat n)%nat.
Proof. unfold select_messages. rewrite length_take. lia. Qed.

(** First in, first out among the rows that are eligible and not locked. *)
Lemma select_messages_fifo n e db i r j rj :
  (i, r) ∈ select_messages P n e db →
  messages db !! j = Some rj → P rj → j ∉ locked_messages e →
  (j, rj) ∉ select_messages P n e db → m_created_at r ≤ m_created_at rj.
Proof.
  intros Hi Hj HP Hl Hnj.
  apply (order_by_take_le (λ ir, m_created_at ir.2) (Z.to_nat n) _ _ (j, rj) Hi); [|done].
  by apply elem_of_map_to_list, map_lookup_filter_Some.
Qed.

(** Fewer rows than asked for are returned only when no other row is eligible. *)
Lemma select_messages_complete n e db j rj :
  (length (select_messages P n e db) < Z.to_nat n)%nat →
  messages db !! j = Some rj → P rj → j ∉ locked_messages e →
  (j, rj) ∈ select_messages P n e db.
Proof.
  unfold select_messages. rewrite length_take. intros Hlen Hj HP Hl.
  rewrite take_ge by lia. rewrite order_by_perm.
  by apply elem_of_map_to_list, map_lookup_filter_Some.
Qed.
End select.

(** ** Dequeue *)

Lemma row_message_claim now secs id r : row_message id (claim now secs r) = row_message id r.
Proof. done. Qed.

Lemma row_message_fields id r msg :
  row_message id r = Ok msg →
  ID msg = id ∧ msg_Topic msg = m_topic r ∧ Payload msg = m_payload r ∧ Key msg = m_key r ∧
  RetryCount msg = m_retry_count r ∧ msg_MaxRetries msg = m_max_retries r.
Proof. unfold row_message. destruct (hydrate_metadata _); [|done]. by intros [= <-]. Qed.

Lemma lift_Ok {A} (r : result Error A) e w a w' :
  lift r e w = (Ok a, w') → r = Ok a ∧ w' = w.
Proof. destruct r; [|done]. by intros [= -> ->]. Qed.

(** What [applyThroughputLimit] leaves of the tables a claim works on. *)
Lemma throttled_tables topic want e w n w' :
  applyThroughputLimit topic want e w = (Ok n, w') →
  w_db w' = w_db w ∧ w_metrics w' = w_metrics w ∧
  messages (w_tx w') = messages (w_tx w) ∧
  message_deliveries (w_tx w') = message_deliveries (w_tx w) ∧
  (0 ≤ want → 0 ≤ n ≤ want).
Proof. intros (fs & tt' & -> & Hn)%applyThroughputLimit_Ok. done. Qed.

Lemma select_messages_same P `{∀ r, Decision (P r)} n e db db' :
  messages db' = messages db → select_messages P n e db' = select_messages P n e db.
Proof. unfold select_messages. by intros ->. Qed.

Lemma sql_claim_one_Ok topic secs e db row db' :
  sql_claim_one topic secs e db = Ok (row, db') →
  match row with
  | None => db' = db ∧ select_messages (eligible (pg_now e) topic) 1 e db = []
  | Some (id, r') => ∃ r,
      select_messages (eligible (pg_now e) topic) 1 e db = [(id, r)] ∧
      r' = claim (pg_now e) secs r ∧ db' = set_messages (<[id:=r']> (messages db)) db
  end.
Proof.
  unfold sql_claim_one.
  pose proof (select_messages_length (eligible (pg_now e) topic) 1 e db) as Hlen.
  destruct (select_messages _ _ _ _) as [|[id r] [|]]; simpl in Hlen; [by intros [= <- <-]| |lia].
  intros [= <- <-]. eauto.
Qed.

(** A successful [Dequeue]: the row it claimed and the world it leaves. *)
Lemma Dequeue_Ok s topic requested e w msg w' :
  Dequeue s topic requested e w = (Ok msg, w') →
  ∃ r fs tt' tx,
    select_messages (eligible (pg_now e) topic) 1 e (w_db w) = [(ID msg, r)] ∧
    row_message (ID msg) r = Ok msg ∧
    w' = set_metrics (w_metrics w ++ [RecordDequeue topic])
           (set_db (set_messages
              (<[ID msg := (claim (pg_now e)
                   (duration_seconds (resolveVisibilityTimeout s requested)) r)]>
                 (messages (w_db w))) (set_throughput tt' (w_db w)))
              (set_tx tx (set_faults fs w))).
Proof.
  unfold Dequeue. set (secs := duration_seconds _).
  intros (u & w1 & [fs ->]%begin_tx_Ok & H)%bind_Ok.
  apply bind_Ok in H as (n & w2 & Hlim & H).
  apply applyThroughputLimit_Ok in Hlim as (fs1 & tt' & -> & _).
  destruct (n =? 0).
  { by apply bind_Ok in H as (? & ? & _ & ?). }
  apply bind_Ok in H as (row & w3 & (fs2 & db' & Hq & ->)%tx_stmt_Ok & H).
  apply sql_claim_one_Ok in Hq. destruct row as [[id r']|].
  2: { by apply bind_Ok in H as (? & ? & _ & ?). }
  destruct Hq as (r & Hsel & -> & ->).
  apply bind_Ok in H as (m & w4 & [Hrow ->]%lift_Ok & H).
  apply bind_Ok in H as (? & w5 & [fs3 ->]%commit_tx_Ok & H).
  apply bind_Ok in H as (? & w6 & ->%record_Ok & H). apply ret_Ok in H as [-> ->].
  rewrite row_message_claim in Hrow.
  destruct (row_message_fields _ _ _ Hrow) as (<- & Htopic & _). simpl in *.
  change (select_messages (eligible (pg_now e) topic) 1 e (w_db w) = [(ID m, r)]) in Hsel.
  destruct (select_messages_elem (eligible (pg_now e) topic) 1 e (w_db w) (ID m) r) as (_ & Hel & _).
  { rewrite Hsel. by left. }
  rewrite (proj1 Hel) in Htopic. subst topic. by eexists r, fs3, tt', _.
Qed.

(** [C3] A message that [Dequeue] returns was, at the start of the call, a pending
    row of the topic, visible, not expired, with retries left and locked by nobody;
    no such row of the topic was created before it; its content is the row's
    content; and the committed effect on [messages] is exactly that this row is now
    [processing] with the visibility deadline [now + timeout], every other row and
    every delivery being unchanged. *)
Theorem dequeue_claims_oldest_eligible s topic requested e w msg w' :
  Dequeue s topic requested e w = (Ok msg, w') →
  ∃ r, messages (w_db w) !! ID msg = Some r ∧
    eligible (pg_now e) topic r ∧ (ID msg ∉ locked_messages e) ∧
    row_message (ID msg) r = Ok msg ∧
    (∀ j rj, messages (w_db w) !! j = Some rj → eligible (pg_now e) topic rj →
       j ∉ locked_messages e → j ≠ ID msg → m_created_at r ≤ m_created_at rj) ∧
    messages (w_db w') =
      <[ID msg := (claim (pg_now e)
          (duration_seconds (resolveVisibilityTimeout s requested)) r)]> (messages (w_db w)) ∧
    message_deliveries (w_db w') = message_deliveries (w_db w) ∧
    w_metrics w' = w_metrics w ++ [RecordDequeue topic] ∧
    m_topic r = topic ∧ m_status r = pending ∧
    (∀ x, m_expires_at r = Some x → pg_now e < x) ∧
    m_status <$> messages (w_db w') !! ID msg = Some processing.
Proof.
  intros (r & fs & tt' & tx & Hsel & Hrow & ->)%Dequeue_Ok.
  assert ((ID msg, r) ∈ select_messages (eligible (pg_now e) topic) 1 e (w_db w)) as Hin.
  { rewrite Hsel. by left. }
  destruct (select_messages_elem _ _ _ _ _ _ Hin) as (Hr & Hel & Hlock).
  exists r. rewrite (proj1 Hel). split_and!; try done.
  - intros j rj Hj Hej Hlj Hne. eapply (select_messages_fifo _ _ _ _ _ _ _ _ Hin Hj Hej Hlj).
    rewrite Hsel. intros Hin'%list_elem_of_singleton. by simplify_eq.
  - apply Hel.
  - intros deadline Hx. destruct Hel as (_ & _ & _ & Hun & _). by rewrite Hx in Hun.
  - simpl. by rewrite lookup_insert_eq.
Qed.

Lemma scan_rows_Ok {A} (scan : A → result Error Message) rows e w msgs w' :
  scan_rows scan rows e w = (Ok msgs, w') →
  Forall2 (λ row m, scan row = Ok m) rows msgs ∧
  w' = set_metrics (w_metrics w ++ ((λ m, RecordDequeue (msg_Topic m)) <$> msgs)) w.
Proof.
  revert w msgs w'. induction rows as [|row rows IH]; simpl; intros w msgs w' H.
  - apply ret_Ok in H as [-> ->]. simpl. rewrite app_nil_r. by destruct w.
  - apply bind_Ok in H as (m & w1 & [Hm ->]%lift_Ok & H).
    apply bind_Ok in H as (? & w2 & ->%record_Ok & H).
    apply bind_Ok in H as (ms & w3 & [Hms ->]%IH & H). apply ret_Ok in H as [-> ->].
    split; [by constructor|]. simpl. by rewrite <-app_assoc.
Qed.

(** Scanning the rows a claim returned gives the selected rows' messages, in some
    order. *)
Lemma claimed_scan now secs (sel : list (uuid * MessageRow)) ms :
  Forall2 (λ ir m, row_message ir.1 ir.2 = Ok m)
    (returning ((λ ir, (ir.1, claim now secs ir.2)) <$> sel)) ms →
  ID <$> ms ≡ₚ sel.*1 ∧
  ∀ m, m ∈ ms → ∃ r, (ID m, r) ∈ sel ∧ row_message (ID m) r = Ok m.
Proof.
  set (rows := returning _). intros Hall.
  assert (rows ≡ₚ (λ ir, (ir.1, claim now secs ir.2)) <$> sel) as Hrows
    by apply returning_perm.
  assert (ID <$> ms = rows.*1) as Hids.
  { clear Hrows. induction Hall as [|[id r] m rows' ms Hrow _ IH]; [done|].
    destruct (row_message_fields _ _ _ Hrow) as [Hid _].
    rewrite !fmap_cons, IH. by rewrite Hid. }
  split.
  - rewrite Hids, Hrows, <-list_fmap_compose. reflexivity.
  - intros m Hm. apply list_elem_of_lookup in Hm as [k Hk].
    destruct (Forall2_lookup_r _ _ _ _ _ Hall Hk) as ([id r'] & Hk' & Hrow). simpl in Hrow.
    destruct (row_message_fields _ _ _ Hrow) as [<- _].
    apply list_elem_of_lookup_2 in Hk'. rewrite Hrows in Hk'.
    apply list_elem_of_fmap in Hk' as ([id r] & Heq & Hin). injection Heq as <- ->.
    exists r. split; [exact Hin|exact Hrow].
Qed.

(** [C17] [DequeueN] rejects a batch size outside 1..1000.  Otherwise the messages it
    returns are at most [n] distinct rows of the topic that were pending, visible,
    unexpired, with retries left, unlocked and not in a dead-letter topic, each
    carrying its row's content; no eligible row that was left behind is older than
    one that was returned; and exactly the returned rows are now [processing]. *)
Theorem dequeueN_claims_batch s topic n requested e w r w' :
  DequeueN s topic n requested e w = (r, w') →
  (¬ (1 ≤ n ≤ 1000) → r = Err ErrInvalidBatchSize ∧ w' = w) ∧
  ∀ msgs, r = Ok msgs →
    (Z.of_nat (length msgs) ≤ n) ∧ NoDup (ID <$> msgs) ∧
    (∀ m, m ∈ msgs → ∃ r, messages (w_db w) !! ID m = Some r ∧
       eligible_batch (pg_now e) topic r ∧ (ID m ∉ locked_messages e) ∧
       row_message (ID m) r = Ok m ∧
       ∀ j rj, messages (w_db w) !! j = Some rj → eligible_batch (pg_now e) topic rj →
         j ∉ locked_messages e → j ∉ ID <$> msgs → m_created_at r ≤ m_created_at rj) ∧
    messages (w_db w') =
      map_update (selected (ID <$> msgs))
        (claim (pg_now e) (duration_seconds (resolveVisibilityTimeout s requested)))
        (messages (w_db w)).
Proof.
  unfold DequeueN. set (secs := duration_seconds _). intros H.
  destruct ((n <? 1) || (1000 <? n)) eqn:Hn.
  { injection H as <- <-. split; [done|]. by intros ? [=]. }
  apply orb_false_iff in Hn as [Hn1%Z.ltb_ge Hn2%Z.ltb_ge].
  split; [lia|]. intros msgs ->.
  apply bind_Ok in H as (u & w1 & [fs ->]%begin_tx_Ok & H).
  apply bind_Ok in H as (a & w2 & Hlim & H).
  apply throttled_tables in Hlim as (_ & Hmet & Hms & Hds & Ha).
  destruct (a =? 0).
  { apply bind_Ok in H as (? & ? & [fs3 ->]%commit_tx_Ok & H).
    apply ret_Ok in H as [-> ->]. simpl. split_and!; [lia|constructor|set_solver|].
    rewrite Hms. simpl. rewrite map_update_none; [done|].
    intros i r _ Hi. by apply elem_of_nil in Hi. }
  apply bind_Ok in H as (rows & w3 & (fs2 & db' & [= <- <-] & ->)%tx_stmt_Ok & H).
  apply bind_Ok in H as (ms & w4 & [Hscan ->]%scan_rows_Ok & H).
  apply bind_Ok in H as (? & w5 & [fs3 ->]%commit_tx_Ok & H). apply ret_Ok in H as [-> ->].
  simpl in *. rewrite (select_messages_same _ _ _ _ _ Hms) in Hscan |- *. simpl in *.
  set (sel := select_messages _ _ _ _) in *.
  apply claimed_scan in Hscan as [Hperm Hcont].
  assert (ID <$> ms ≡ₚ sel.*1) as Hids by exact Hperm.
  split_and!.
  - rewrite <-(length_fmap ID), Hids, length_fmap.
    pose proof (select_messages_length (eligible_batch (pg_now e) topic) a e (w_db w)) as Hlen.
    fold sel in Hlen. lia.
  - rewrite Hids. apply select_messages_NoDup.
  - intros m Hm. destruct (Hcont m Hm) as (r & Hin & Hrow). exists r.
    destruct (select_messages_elem _ _ _ _ _ _ Hin) as (Hr & Hel & Hlock).
    split_and!; [done..|]. intros j rj Hj Hej Hlj Hnj.
    eapply (select_messages_fifo _ _ _ _ _ _ _ _ Hin Hj Hej Hlj).
    intros Hin'. apply Hnj. rewrite Hids. by apply (list_elem_of_fmap_2 fst _ (j, rj)).
  - rewrite Hms. simpl. apply map_update_ext. intros i r. unfold selected. by rewrite Hids.
Qed.

(** ** Dequeue for a consumer group *)

(** The join [select_deliveries] sorts and cuts. *)
Definition joined (topic group : string) (e : Env) (db : DB) (k : uuid * string)
    (d : DeliveryRow) : option (uuid * (MessageRow * DeliveryRow)) :=
  match messages db !! k.1 with
  | Some r =>
      if decide (k.2 = group ∧ eligible_delivery (pg_now e) topic r d ∧
                 k ∉ locked_deliveries e)
      then Some (k.1, (r, d)) else None
  | None => None
  end.

Lemma joined_Some topic group e db k d i rd :
  joined topic group e db k d = Some (i, rd) ↔
  ∃ r, k = (i, group) ∧ messages db !! i = Some r ∧ rd = (r, d) ∧
    eligible_delivery (pg_now e) topic r d ∧ (i, group) ∉ locked_deliveries e.
Proof.
  destruct k as [i' g]. unfold joined. simpl.
  destruct (messages db !! i') as [r|] eqn:Hr; [|naive_solver congruence].
  case_decide as Hc; [destruct Hc as (-> & Hel & Hl)|]; naive_solver congruence.
Qed.

Lemma select_deliveries_elem topic group n e db i r d :
  (i, (r, d)) ∈ select_deliveries topic group n e db →
  messages db !! i = Some r ∧ message_deliveries db !! (i, group) = Some d ∧
  eligible_delivery (pg_now e) topic r d ∧ (i, group) ∉ locked_deliveries e.
Proof.
  intros Hin%order_by_take_elem.
  apply list_elem_of_omap in Hin as ([k d'] & Hin%elem_of_map_to_list & Hj).
  change (joined topic group e db k d' = Some (i, (r, d))) in Hj.
  apply joined_Some in Hj as (r' & -> & Hr & [= -> ->] & Hel & Hl). done.
Qed.

Lemma select_deliveries_NoDup topic group n e db :
  NoDup (select_deliveries topic group n e db).*1.
Proof.
  unfold select_deliveries. rewrite fmap_take.
  eapply sublist_NoDup; [|apply sublist_take]. rewrite order_by_perm.
  apply (NoDup_omap_keys (joined topic group e db)); [apply NoDup_fst_map_to_list|].
  intros k1 v1 k2 v2 i a b _ _ (? & -> & _)%joined_Some (? & -> & _)%joined_Some. done.
Qed.

Lemma select_deliveries_length topic group n e db :
  (length (select_deliveries topic group n e db) ≤ Z.to_nat n)%nat.
Proof. unfold select_deliveries. rewrite length_take. lia. Qed.

Lemma select_deliveries_fifo topic group n e db i r d j rj dj :
  (i, (r, d)) ∈ select_deliveries topic group n e db →
  messages db !! j = Some rj → message_deliveries db !! (j, group) = Some dj →
  eligible_delivery (pg_now e) topic rj dj → (j, group) ∉ locked_deliveries e →
  (j, (rj, dj)) ∉ select_deliveries topic group n e db → m_created_at r ≤ m_created_at rj.
Proof.
  intros Hi Hj Hdj HP Hl Hnj.
  apply (order_by_take_le (λ ird, m_created_at ird.2.1) (Z.to_nat n) _ _ (j, (rj, dj)) Hi);
    [|done].
  apply list_elem_of_omap. exists ((j, group), dj). rewrite elem_of_map_to_list.
  split; [done|]. apply (proj2 (joined_Some topic group e db (j, group) dj j (rj, dj))).
  eauto 10.
Qed.

Lemma select_deliveries_same topic group n e db db' :
  messages db' = messages db → message_deliveries db' = message_deliveries db →
  select_deliveries topic group n e db' = select_deliveries topic group n e db.
Proof. unfold select_deliveries. by intros -> ->. Qed.

Lemma map_update_one (ds : gmap (uuid * string) DeliveryRow) id group d f :
  ds !! (id, group) = Some d →
  map_update (selected_delivery [id] group) f ds = <[(id, group):=f d]> ds.
Proof.
  intros Hd. apply map_eq. intros [i g]. rewrite lookup_map_update, lookup_insert.
  unfold selected_delivery. case_decide as Heq; simplify_eq.
  - rewrite Hd. simpl. rewrite decide_True; [done|]. split; [by left|done].
  - destruct (ds !! (i, g)); simpl; [|done]. rewrite decide_False; [done|].
    simpl. rewrite list_elem_of_singleton. naive_solver.
Qed.

Lemma sql_claim_deliveries_one topic group secs e db ids db' :
  sql_claim_deliveries topic group 1 secs e db = Ok (ids, db') →
  match ids with
  | [] => True
  | id :: ids' => ∃ r d,
      ids' = [] ∧ select_deliveries topic group 1 e db = [(id, (r, d))] ∧
      messages db !! id = Some r ∧ message_deliveries db !! (id, group) = Some d ∧
      db' = set_deliveries
              (<[(id, group):=claim_delivery (pg_now e) secs d]> (message_deliveries db)) db
  end.
Proof.
  unfold sql_claim_deliveries. intros [= <- <-].
  pose proof (select_deliveries_length topic group 1 e db) as Hlen.
  destruct (select_deliveries _ _ _ _ _) as [|[id [r d]] [|]] eqn:Hsel;
    simpl in *; [|clear Hlen|lia].
  - assert (returning (A:=string) [] = []) as -> by (apply Permutation_nil_r, returning_perm).
    done.
  - assert (returning [id] = [id]) as ->
      by (apply Permutation_singleton_r, returning_perm).
    destruct (select_deliveries_elem topic group 1 e db id r d) as (Hr & Hd & _);
      [rewrite Hsel; by left|].
    exists r, d. by rewrite (map_update_one _ _ _ d).
Qed.

(** [C18] A message that [DequeueForGroup] returns is the oldest message of the topic
    whose delivery for this group is pending, visible, unexpired, with retries left
    and unlocked; it carries the message's content with the delivery's retry
    columns; and the committed effect is exactly that this delivery is [processing]:
    no message row and no delivery of another group or message changes. *)
Theorem dequeue_group_claims_oldest s topic group requested e w msg w' :
  DequeueForGroup s topic group requested e w = (Ok msg, w') →
  ∃ r d, messages (w_db w) !! ID msg = Some r ∧
    message_deliveries (w_db w) !! (ID msg, group) = Some d ∧
    eligible_delivery (pg_now e) topic r d ∧ ((ID msg, group) ∉ locked_deliveries e) ∧
    scanMessageWithDelivery (ID msg) r d = Ok msg ∧
    (∀ j rj dj, messages (w_db w) !! j = Some rj →
       message_deliveries (w_db w) !! (j, group) = Some dj →
       eligible_delivery (pg_now e) topic rj dj → (j, group) ∉ locked_deliveries e →
       j ≠ ID msg → m_created_at r ≤ m_created_at rj) ∧
    messages (w_db w') = messages (w_db w) ∧
    message_deliveries (w_db w') =
      <[(ID msg, group) := (claim_delivery (pg_now e)
          (duration_seconds (resolveVisibilityTimeout s requested)) d)]>
        (message_deliveries (w_db w)) ∧
    m_topic r = topic ∧ d_status d = pending ∧
    (∀ x, m_expires_at r = Some x → pg_now e < x) ∧
    d_status <$> message_deliveries (w_db w') !! (ID msg, group) = Some processing.
Proof.
  unfold DequeueForGroup. set (secs := duration_seconds _).
  intros (u & w1 & [fs ->]%begin_tx_Ok & H)%bind_Ok.
  apply bind_Ok in H as (n & w2 & Hlim & H).
  apply throttled_tables in Hlim as (_ & Hmet & Hms & Hds & _).
  destruct (n =? 0).
  { by apply bind_Ok in H as (? & ? & _ & ?). }
  apply bind_Ok in H as (ids & w3 & (fs2 & db' & Hq & ->)%tx_stmt_Ok & H).
  apply sql_claim_deliveries_one in Hq. destruct ids as [|id ids].
  { by apply bind_Ok in H as (? & ? & _ & ?). }
  destruct Hq as (r & d & -> & Hsel & Hr & Hd & ->). simpl in *.
  rewrite (select_deliveries_same _ _ _ _ _ _ Hms Hds) in Hsel. simpl in Hsel.
  apply bind_Ok in H as (row & w4 & (-> & fs3 & ->)%tx_query_Ok & H).
  unfold sql_join in H. simpl in H. rewrite Hr in H. simpl in H.
  rewrite lookup_insert_eq in H. simpl in H.
  apply bind_Ok in H as (m & w5 & [Hscan ->]%lift_Ok & H).
  apply bind_Ok in H as (? & w6 & [fs4 ->]%commit_tx_Ok & H).
  apply bind_Ok in H as (? & w7 & ->%record_Ok & H). apply ret_Ok in H as [-> ->].
  assert (ID m = id) as <-.
  { unfold scanMessageWithDelivery in Hscan. destruct (hydrate_metadata _); by simplify_eq/=. }
  simpl in *. rewrite Hms, Hds in *. simpl in *.
  assert ((ID m, (r, d)) ∈ select_deliveries topic group 1 e (w_db w)) as Hin
    by (rewrite Hsel; by left).
  destruct (select_deliveries_elem _ _ _ _ _ _ _ _ Hin) as (_ & _ & Hel & Hlock).
  exists r, d. split_and!; try done.
  - intros j rj dj Hj Hdj Hej Hlj Hne.
    eapply (select_deliveries_fifo _ _ _ _ _ _ _ _ _ _ _ Hin Hj Hdj Hej Hlj).
    rewrite Hsel. intros Hin'%list_elem_of_singleton. by simplify_eq.
  - apply Hel.
  - apply Hel.
  - intros deadline Hx. destruct Hel as (_ & _ & _ & Hun & _). by rewrite Hx in Hun.
  - by rewrite lookup_insert_eq.
Qed.

End dequeue.
