(* ===== verification/GroupBatch.v ===== *)
(** * Batches for a consumer group

    What [DequeueNForGroup] of [internal/queue/dequeue.go] hands out: it claims deliveries, and
    reads them back with their messages in a second query of the same transaction. *)

From S2P Require Import Prelude.
From S2P Require Import Store.
From S2P Require Import Avro.
From S2P Require Import Runtime.
From S2P Require Import Model.
From S2P Require Import TopicConfig.
From S2P Require Import Throttle.
From S2P Require Import Dequeue.

Section group_batch.
Context `{PG : Postgres} `{ST : Storage} `{LAWS : !PostgresLaws}.

(** ** The second query *)

Lemma join_many_elem ids group db i r d :
  (i, (r, d)) ∈ sql_join_many ids group db ↔
  i ∈ ids ∧ messages db !! i = Some r ∧ message_deliveries db !! (i, group) = Some d.
Proof.
  unfold sql_join_many. rewrite order_by_perm, list_elem_of_omap. split.
  - intros ([j r'] & Hj & Hd). apply elem_of_map_to_list, map_lookup_filter_Some in Hj as [Hj Hin].
    simpl in *. destruct (message_deliveries db !! (j, group)) as [d'|] eqn:Hk; simplify_eq/=. done.
  - intros (Hin & Hr & Hd). exists (i, r). rewrite elem_of_map_to_list, map_lookup_filter_Some.
    split; [done|]. simpl. by rewrite Hd.
Qed.

Lemma join_many_NoDup ids group db : NoDup (sql_join_many ids group db).*1.
Proof.
  unfold sql_join_many. rewrite order_by_perm.
  apply (NoDup_omap_keys (λ i r, (λ d, (i, (r, d))) <$> message_deliveries db !! (i, group)));
    [apply NoDup_fst_map_to_list|].
  intros k1 v1 k2 v2 i a b _ _ (d1 & _ & [= -> _])%fmap_Some_1 (d2 & _ & [= -> _])%fmap_Some_1. done.
Qed.

(** A batch that was read back has no more rows than were claimed. *)
Lemma join_many_length ids group db : (length (sql_join_many ids group db) ≤ length ids)%nat.
Proof.
  rewrite <-(length_fmap fst). apply submseteq_length, NoDup_submseteq; [apply join_many_NoDup|].
  intros i ([j [r d]] & -> & Hin)%list_elem_of_fmap. by apply join_many_elem in Hin as [? _].
Qed.

(** After the claim, it finds every delivery that was claimed. *)
Lemma join_claimed topic group n secs e db ids db' :
  sql_claim_deliveries topic group n secs e db = Ok (ids, db') →
  ids ≡ₚ (select_deliveries topic group n e db).*1 ∧
  (sql_join_many ids group db').*1 ≡ₚ ids ∧
  ∀ i r d', (i, (r, d')) ∈ sql_join_many ids group db' →
    ∃ d, (i, (r, d)) ∈ select_deliveries topic group n e db ∧
      d' = claim_delivery (pg_now e) secs d.
Proof.
  unfold sql_claim_deliveries. set (sel := select_deliveries topic group n e db).
  intros [= <- <-]. assert (returning sel.*1 ≡ₚ sel.*1) as Hids by apply returning_perm.
  assert (∀ i, i ∈ sel.*1 → ∃ r d, (i, (r, d)) ∈ sel ∧ messages db !! i = Some r ∧
    message_deliveries db !! (i, group) = Some d) as Hsel.
  { intros i ([j [r d]] & -> & Hin)%list_elem_of_fmap. exists r, d. split; [done|].
    by apply select_deliveries_elem in Hin as (? & ? & _). }
  split_and!; [done| |].
  - apply NoDup_Permutation; [apply join_many_NoDup| |].
    { rewrite Hids. apply select_deliveries_NoDup. }
    intros i. split.
    + intros ([j [r d]] & -> & Hin)%list_elem_of_fmap. by apply join_many_elem in Hin as [? _].
    + intros Hi. rewrite Hids in Hi. destruct (Hsel i Hi) as (r & d & _ & Hr & Hd).
      apply list_elem_of_fmap. exists (i, (r, claim_delivery (pg_now e) secs d)). split; [done|].
      apply join_many_elem. split_and!; [by rewrite Hids|done|]. simpl.
      rewrite lookup_map_update, Hd. simpl. by rewrite decide_True.
  - intros i r d' (Hi & Hr & Hd')%join_many_elem. rewrite Hids in Hi. simpl in *.
    destruct (Hsel i Hi) as (r0 & d & Hin & Hr0 & Hd). simplify_eq. exists d. split; [done|].
    rewrite lookup_map_update, Hd in Hd'. simpl in Hd'. rewrite decide_True in Hd' by done. congruence.
Qed.

(** The scan of rows takes neither the status nor the visibility timeout. *)
Lemma scan_claimed i r now secs d :
  scanMessageWithDelivery i r (claim_delivery now secs d) = scanMessageWithDelivery i r d.
Proof. done. Qed.

Lemma joined_scan rows ms :
  Forall2 (λ ird m, scanMessageWithDelivery ird.1 ird.2.1 ird.2.2 = Ok m) rows ms →
  ID <$> ms = rows.*1 ∧
  ∀ m, m ∈ ms → ∃ r d, (ID m, (r, d)) ∈ rows ∧ scanMessageWithDelivery (ID m) r d = Ok m.
Proof.
  intros Hall.
  assert (∀ i r d m, scanMessageWithDelivery i r d = Ok m → ID m = i) as Hid.
  { intros i r d m. unfold scanMessageWithDelivery. destruct (hydrate_metadata _); [|done].
    by intros [= <-]. }
  split.
  - induction Hall as [|[i [r d]] m rows ms Hrow _ IH]; [done|].
    rewrite !fmap_cons, IH. by rewrite (Hid _ _ _ _ Hrow).
  - intros m Hm. apply list_elem_of_lookup in Hm as [k Hk].
    destruct (Forall2_lookup_r _ _ _ _ _ Hall Hk) as ([i [r d]] & Hk' & Hrow). simpl in Hrow.
    rewrite (Hid _ _ _ _ Hrow). exists r, d. split; [by eapply list_elem_of_lookup_2|done].
Qed.

Lemma selected_none (group : string) (f : DeliveryRow → DeliveryRow) (ds : gmap (uuid * string) DeliveryRow) :
  map_update (selected_delivery [] group) f ds = ds.
Proof. apply map_update_none. intros k d _ [Hk _]. by apply elem_of_nil in Hk. Qed.

(** A topic without a throughput limit lets every batch through. *)
Definition unlimited (topic : string) (db : DB) : Prop :=
  match topic_config db !! topic ≫= ThroughputLimit with Some l => l = 0 | None => True end.

Lemma unlimited_allows topic want e w n w' :
  unlimited topic (w_tx w) → applyThroughputLimit topic want e w = (Ok n, w') → n = want.
Proof.
  unfold unlimited, applyThroughputLimit.
  intros Hun (lim & w1 & (-> & fs & ->)%tx_query_Ok & H)%bind_Ok.
  destruct (topic_config (w_tx w) !! topic ≫= ThroughputLimit) as [l|]; [subst l|];
    by apply ret_Ok in H as [-> _].
Qed.

(** A selection that is not full leaves nothing out. *)
Lemma select_deliveries_full topic group n e db j r d :
  (length (select_deliveries topic group n e db) < Z.to_nat n)%nat →
  messages db !! j = Some r → message_deliveries db !! (j, group) = Some d →
  eligible_delivery (pg_now e) topic r d → (j, group) ∉ locked_deliveries e →
  j ∈ (select_deliveries topic group n e db).*1.
Proof.
  unfold select_deliveries. rewrite length_take. intros Hlen Hr Hd Hel Hl.
  rewrite take_ge by lia. rewrite order_by_perm. apply (list_elem_of_fmap_2 fst _ (j, (r, d))).
  apply list_elem_of_omap. exists ((j, group), d). rewrite elem_of_map_to_list. split; [done|].
  apply (proj2 (joined_Some topic group e db (j, group) d j (r, d))). by exists r.
Qed.

(** A successful batch is a selection: its first statement claims it, its second reads it. *)
Lemma group_batch_selects s topic group n requested e w msgs w' :
  DequeueNForGroup s topic group n requested e w = (Ok msgs, w') → 1 ≤ n ≤ 1000 →
  ∃ a, 0 ≤ a ≤ n ∧ (unlimited topic (w_db w) → a = n) ∧
    let sel := select_deliveries topic group a e (w_db w) in
    ID <$> msgs ≡ₚ sel.*1 ∧
    (∀ m, m ∈ msgs → ∃ r d, (ID m, (r, d)) ∈ sel ∧ scanMessageWithDelivery (ID m) r d = Ok m) ∧
    messages (w_db w') = messages (w_db w) ∧
    message_deliveries (w_db w') =
      map_update (selected_delivery (ID <$> msgs) group)
        (claim_delivery (pg_now e) (duration_seconds (resolveVisibilityTimeout s requested)))
        (message_deliveries (w_db w)).
Proof.
  unfold DequeueNForGroup. set (secs := duration_seconds _). intros H Hn.
  replace ((n <? 1) || (1000 <? n)) with false in H by lia.
  apply bind_Ok in H as (u & w1 & [fs ->]%begin_tx_Ok & H).
  apply bind_Ok in H as (a & w2 & Hlim & H).
  assert (unlimited topic (w_db w) → a = n) as Hun
    by (intros Hun; eapply unlimited_allows; [|exact Hlim]; exact Hun).
  apply throttled_tables in Hlim as (_ & _ & Hms & Hds & Ha). simpl in Hms, Hds.
  exists a. split; [lia|]. split; [done|].
  set (sel := select_deliveries topic group a e (w_db w)). destruct (a =? 0) eqn:Ha0.
  { apply bind_Ok in H as (? & ? & [fs3 ->]%commit_tx_Ok & H). apply ret_Ok in H as [-> ->]. simpl.
    apply Z.eqb_eq in Ha0 as ->. unfold sel, select_deliveries.
    split_and!; [done|set_solver|done|]. by rewrite selected_none. }
  apply bind_Ok in H as (ids & w3 & (fs2 & db' & Hq & ->)%tx_stmt_Ok & H).
  pose proof (join_claimed _ _ _ _ _ _ _ _ Hq) as (Hids & Hjoin & Hrows).
  unfold sql_claim_deliveries in Hq. injection Hq as _ <-.
  rewrite (select_deliveries_same _ _ _ _ _ _ Hms Hds) in *. simpl in Hids, Hrows |- *.
  fold sel in Hids, Hrows, H |- *. destruct ids as [|i ids].
  { apply bind_Ok in H as (? & ? & [fs3 ->]%commit_tx_Ok & H). apply ret_Ok in H as [-> ->]. simpl.
    symmetry in Hids. apply Permutation_nil_r in Hids. rewrite Hids.
    split_and!; [done|set_solver|done|]. by rewrite Hds. }
  apply bind_Ok in H as (rows & w4 & (-> & fs3 & ->)%tx_query_Ok & H). simpl in Hjoin.
  apply bind_Ok in H as (ms & w5 & [Hscan ->]%scan_rows_Ok & H).
  apply bind_Ok in H as (? & w6 & [fs4 ->]%commit_tx_Ok & H). apply ret_Ok in H as [-> ->]. simpl in *.
  apply joined_scan in Hscan as [Hid Hcont].
  assert (ID <$> ms ≡ₚ sel.*1) as Hperm by (rewrite Hid; etrans; [exact Hjoin|exact Hids]).
  split_and!; [done| |done|].
  - intros m Hm. destruct (Hcont m Hm) as (r & d' & Hrow & Hm').
    destruct (Hrows _ _ _ Hrow) as (d & Hin & ->). eauto.
  - rewrite Hds. apply map_update_ext. intros k d. unfold selected_delivery. by rewrite Hperm.
Qed.

(** [C23] [DequeueNForGroup] rejects a batch size outside 1..1000.  Otherwise what it returns are
    at most [n] distinct messages of which the group had an eligible, unlocked delivery, each
    with its message's content and its delivery's counts; no eligible delivery that was left
    behind is of an older message than one that was returned, and on a topic without a
    throughput limit none is left behind when fewer than [n] are returned; and exactly the
    returned deliveries of the group are now [processing], every message and other delivery
    being as before. *)
Theorem dequeueN_group_claims_batch s topic group n requested e w r w' :
  DequeueNForGroup s topic group n requested e w = (r, w') →
  let claimable j rj dj :=
    messages (w_db w) !! j = Some rj ∧ message_deliveries (w_db w) !! (j, group) = Some dj ∧
    eligible_delivery (pg_now e) topic rj dj ∧ (j, group) ∉ locked_deliveries e in
  (¬ (1 ≤ n ≤ 1000) → r = Err ErrInvalidBatchSize ∧ w' = w) ∧
  ∀ msgs, r = Ok msgs →
    (Z.of_nat (length msgs) ≤ n) ∧ NoDup (ID <$> msgs) ∧
    (∀ m, m ∈ msgs → ∃ r d, claimable (ID m) r d ∧ scanMessageWithDelivery (ID m) r d = Ok m ∧
       ∀ j rj dj, claimable j rj dj → j ∉ ID <$> msgs → m_created_at r ≤ m_created_at rj) ∧
    (unlimited topic (w_db w) → Z.of_nat (length msgs) < n →
       ∀ j rj dj, claimable j rj dj → j ∈ ID <$> msgs) ∧
    messages (w_db w') = messages (w_db w) ∧
    message_deliveries (w_db w') =
      map_update (selected_delivery (ID <$> msgs) group)
        (claim_delivery (pg_now e) (duration_seconds (resolveVisibilityTimeout s requested)))
        (message_deliveries (w_db w)).
Proof.
  intros H claimable. destruct (decide (1 ≤ n ≤ 1000)) as [Hn|Hn].
  2: { assert (r = Err ErrInvalidBatchSize ∧ w' = w) as Hbad.
       { unfold DequeueNForGroup in H. replace ((n <? 1) || (1000 <? n)) with true in H by lia.
         by injection H as <- <-. }
       split; [done|]. intros msgs ->. by destruct Hbad. }
  split; [done|]. intros msgs ->.
  destruct (group_batch_selects _ _ _ _ _ _ _ _ _ H Hn) as (a & Ha & Hun & Hperm & Hcont & Htables).
  pose proof (select_deliveries_length topic group a e (w_db w)) as Hlen.
  assert (length msgs = length (select_deliveries topic group a e (w_db w))) as Hsize
    by (rewrite <-(length_fmap ID msgs), Hperm; apply length_fmap).
  split_and!; [lia| | | |apply Htables..].
  - rewrite Hperm. apply select_deliveries_NoDup.
  - intros m Hm. destruct (Hcont m Hm) as (r & d & Hin & Hscan). exists r, d.
    split; [by apply select_deliveries_elem in Hin|]. split; [done|].
    intros j rj dj (Hj & Hdj & Hej & Hlj) Hnj.
    eapply (select_deliveries_fifo _ _ _ _ _ _ _ _ _ _ _ Hin Hj Hdj Hej Hlj).
    intros Hin'. apply Hnj. rewrite Hperm. by apply (list_elem_of_fmap_2 fst _ (j, (rj, dj))).
  - intros Hlim Hless j rj dj (Hj & Hdj & Hej & Hlj). rewrite Hperm, (Hun Hlim) in *.
    eapply select_deliveries_full; [|done..]. lia.
Qed.
End group_batch.
