(* ===== verification/Enqueue.v ===== *)
(** * Enqueue

    [backend/internal/queue/enqueue.go]: the resolution of the per-topic parameters,
    the depth guard and the insertion, which is an upsert for a keyed message.  The
    reference definition [enqueue_on_tables] reads the tables only; the method, with
    its cached lookups, is proved to implement it. *)

From S2P Require Import Prelude.
From S2P Require Import Store.
From S2P Require Import Avro.
From S2P Require Import Runtime.
From S2P Require Import Model.
From S2P Require Import TopicConfig.
From S2P Require Import Throttle.
From S2P Require Import Schema.
From S2P Require Import Dequeue.

(** [status IN ('pending', 'processing')] on the messages of a topic. *)
Definition in_flight (topic : string) (r : MessageRow) : Prop :=
  m_topic r = topic ∧ (m_status r = pending ∨ m_status r = processing).
#[export] Instance in_flight_dec t r : Decision (in_flight t r).
Proof. unfold in_flight. apply _. Defined.

(** The arbiter of [ON CONFLICT (topic, key) WHERE key IS NOT NULL AND status =
    'pending']. *)
Definition same_pending_key (topic : string) (key : option string) (r : MessageRow) : Prop :=
  m_status r = pending ∧ m_topic r = topic ∧ m_key r = key ∧ key ≠ None.
#[export] Instance same_pending_key_dec t k r : Decision (same_pending_key t k r).
Proof. unfold same_pending_key. apply _. Defined.

Record enqueueParams := mkEnqueueParams {
  p_maxRetries : Z;
  p_expiresAt : option Z;
  p_maxDepth : Z;
}.

Section enqueue.
Context `{PG : Postgres} `{ST : Storage} `{CO : Codecs}.

(** [resolveExpiresAt], the instant in nanoseconds; [time.Duration(n) *
    time.Second] is a 64-bit product. *)
Definition resolveExpiresAt (s : Service) (cfg : option TopicConfig) (now : Z) : option Z :=
  let expiresAt := if 0 <? messageTTL s then Some (now + messageTTL s) else None in
  match cfg ≫= MessageTTLSeconds with
  | None => expiresAt
  | Some ttl => if ttl =? 0 then None else Some (now + wrap64 (ttl * Second))
  end.

(** The merge of the defaults with a topic's configuration. *)
Definition merge_params (s : Service) (cfg : option TopicConfig) (now : Z) : enqueueParams :=
  mkEnqueueParams (default (maxRetries s) (cfg ≫= MaxRetries))
    (resolveExpiresAt s cfg now) (default 0 (cfg ≫= MaxDepth)).

Definition resolveEnqueueParams (s : Service) (topic : string) : M enqueueParams :=
  cfg ← GetTopicConfig topic;
  e ← ask;
  mret (merge_params s cfg (go_now e)).

(** The count of the messages of a topic that are pending or processing. *)
Definition depth (topic : string) (db : DB) : Z :=
  Z.of_nat (size (filter (λ ir, in_flight topic ir.2) (messages db))).

(** [json.Marshal(metadata)]: a nil map is [null]. *)
Definition marshal_metadata (metadata : option (gmap string string)) : metadata_json :=
  match metadata with None => json_null | Some m => json_object m end.

(** The row [INSERT INTO messages] makes of the parameters and the defaults. *)
Definition fresh_row (topic payload : string) (metadata : option (gmap string string))
    (key : option string) (p : enqueueParams) (now : Z) : MessageRow :=
  mkMessageRow topic payload (Some (marshal_metadata metadata)) key pending 0
    (p_maxRetries p) None None (pg_of_go <$> p_expiresAt p) now now None None.

(** The [DO UPDATE SET] clause. *)
Definition overwrite_row (payload : string) (metadata : option (gmap string string))
    (p : enqueueParams) (now : Z) (r : MessageRow) : MessageRow :=
  mkMessageRow (m_topic r) payload (Some (marshal_metadata metadata)) (m_key r) (m_status r)
    (m_retry_count r) (p_maxRetries p) (m_last_error r) (m_visibility_timeout r)
    (m_expires_at r) (m_created_at r) now (m_original_topic r) (m_dlq_moved_at r).

(** The row that arbitrates the conflict. *)
Definition conflicting_row (topic : string) (key : option string) (db : DB)
    : option (uuid * MessageRow) :=
  head (map_to_list (filter (λ ir, same_pending_key topic key ir.2) (messages db))).

Definition sql_enqueue (topic payload : string) (metadata : option (gmap string string))
    (key : option string) (p : enqueueParams) (e : Env) (db : DB)
    : result PgError (uuid * DB) :=
  if decide (int4 (p_maxRetries p)) then
    match conflicting_row topic key db with
    | Some (id, r) =>
        Ok (id, set_messages
                  (<[id:=overwrite_row payload metadata p (pg_now e) r]> (messages db)) db)
    | None =>
        let id := new_uuid e 0 in
        match insert_message (pg_now e) id
                (fresh_row topic payload metadata key p (pg_now e)) db with
        | Ok db' => Ok (id, db')
        | Err x => Err x
        end
    end
  else Err NumericOutOfRange.

(** [Enqueue] from the resolution of the parameters on. *)
Definition enqueue_accepted (s : Service) (topic payload : string)
    (metadata : option (gmap string string)) (key : option string) : M uuid :=
  p ← resolveEnqueueParams s topic;
  (if 0 <? p_maxDepth p then
     n ← pool_query "enqueue depth check" (λ _ db, depth topic db);
     guard_ok (n <? p_maxDepth p) ErrQueueFull
   else mret tt);;
  id ← pool_stmt "enqueue" (sql_enqueue topic payload metadata key p);
  record (RecordEnqueue topic);;
  mret id.

Definition Enqueue (s : Service) (topic payload : string)
    (metadata : option (gmap string string)) (key : option string) : M uuid :=
  if HasSuffix topic ".dlq" then fail ErrReservedTopic
  else
    (if requireTopicRegistration s then
       cfg ← GetTopicConfig topic;
       guard_ok (bool_decide (is_Some cfg)) ErrTopicNotRegistered
     else mret tt);;
    validatePayload topic payload;;
    enqueue_accepted s topic payload metadata key.

(** ** The reference definition *)

(** What the method promises, as a function of the tables alone: the part that
    follows the checks, and the whole. *)
Definition accepted_on_tables (s : Service) (topic payload : string)
    (metadata : option (gmap string string)) (key : option string) (e : Env) (db : DB)
    : result Error (uuid * DB) :=
  let p := merge_params s (topic_config db !! topic) (go_now e) in
  if (0 <? p_maxDepth p) && (p_maxDepth p <=? depth topic db) then Err ErrQueueFull
  else match sql_enqueue topic payload metadata key p e db with
       | Ok r => Ok r
       | Err x => Err (ErrSQL "enqueue" x)
       end.

Definition enqueue_on_tables (s : Service) (topic payload : string)
    (metadata : option (gmap string string)) (key : option string) (e : Env) (db : DB)
    : result Error (uuid * DB) :=
  if HasSuffix topic ".dlq" then Err ErrReservedTopic
  else if requireTopicRegistration s && bool_decide (topic_config db !! topic = None)
  then Err ErrTopicNotRegistered
  else match table_verdict db topic payload with
       | Err x => Err x
       | Ok _ => accepted_on_tables s topic payload metadata key e db
       end.

Context `{SLAWS : !StorageLaws}.

Lemma sql_enqueue_no_loss topic payload metadata key p :
  reports_no_loss (sql_enqueue topic payload metadata key p).
Proof.
  intros e db. unfold sql_enqueue, insert_message. split_cases.
Qed.

Lemma Enqueue_calm s topic payload metadata key : calm (Enqueue s topic payload metadata key).
Proof.
  pose proof (sql_enqueue_no_loss topic payload metadata key).
  unfold Enqueue, resolveEnqueueParams. solve_calm.
Qed.

Lemma sql_enqueue_config topic payload metadata key p e db id db' :
  sql_enqueue topic payload metadata key p e db = Ok (id, db') →
  topic_config db' = topic_config db ∧ topic_schemas db' = topic_schemas db.
Proof.
  unfold sql_enqueue, insert_message. intros H. by split_cases.
Qed.

Lemma caches_ok_same w w' :
  topic_config (w_db w') = topic_config (w_db w) →
  topic_schemas (w_db w') = topic_schemas (w_db w) →
  w_topicConfigCache w' = w_topicConfigCache w → w_schemaCache w' = w_schemaCache w →
  w_cache w' = w_cache w → caches_ok w → caches_ok w'.
Proof.
  intros ????? [Hc Hs]. split; [by eapply coherent_same|by eapply schema_coherent_same].
Qed.

(** The last two steps of the method. *)
Lemma enqueue_insert topic payload metadata key p e w :
  caches_ok w →
  let run := (id ← pool_stmt "enqueue" (sql_enqueue topic payload metadata key p);
              record (RecordEnqueue topic);; mret id) e w in
  caches_ok run.2 ∧
  implements (match sql_enqueue topic payload metadata key p e (w_db w) with
              | Ok r => Ok r | Err x => Err (ErrSQL "enqueue" x) end) (w_db w) run.
Proof.
  intros Hw run. unfold run. rewrite run_bind.
  destruct (pool_stmt_cases "enqueue" (sql_enqueue topic payload metadata key p) e w)
    as [(fs & id & db' & Hq & Hrun)|[(fs & Hrun)|(fs & x & Hq & Hrun)]].
  - rewrite Hq. pose proof (sql_enqueue_config _ _ _ _ _ _ _ _ _ Hq) as [Hc Hs].
    destruct Hrun as [-> | ->]; simpl.
    + split; [by apply (caches_ok_same w)|]. by left.
    + split; [by apply (caches_ok_same w)|]. right. split; [eexists; by split; [|eexists]|].
      right. eauto.
  - rewrite Hrun. simpl. split; [by apply (caches_ok_same w)|]. right.
    split; [eexists; by split; [|eexists]|by left].
  - rewrite Hq, Hrun. simpl. split; [by apply (caches_ok_same w)|]. by left.
Qed.

Lemma enqueue_accepted_implements s topic payload metadata key e w :
  caches_ok w →
  let run := enqueue_accepted s topic payload metadata key e w in
  caches_ok run.2 ∧
  implements (accepted_on_tables s topic payload metadata key e (w_db w)) (w_db w) run.
Proof.
  intros Hw run. unfold run, enqueue_accepted, accepted_on_tables, resolveEnqueueParams.
  rewrite run_bind_bind, run_bind.
  destruct (GetTopicConfig_caches_ok topic e w Hw) as (Hw1 & Hdb & Hans).
  destruct (GetTopicConfig topic e w) as [[c|x] w1]; simpl in Hw1, Hdb, Hans;
    [|split; [done|by apply implements_lost]].
  rewrite run_bind_bind, run_ask, run_ret_bind. subst c. rewrite <-Hdb.
  generalize (merge_params s (topic_config (w_db w1) !! topic) (go_now e)) as p. intros p.
  clear run Hdb Hw w. destruct (0 <? p_maxDepth p); [|by apply enqueue_insert].
  rewrite run_bind_bind, run_bind.
  destruct (pool_query_cases "enqueue depth check" (λ _ db, depth topic db) e w1)
    as [fs [-> | ->]]; [|split; [by apply (caches_ok_same w1)|
                           apply implements_lost; [by eexists|done]]].
  rewrite Z.ltb_antisym. simpl. destruct (p_maxDepth p <=? depth topic (w_db w1)); simpl.
  - split; [by apply (caches_ok_same w1)|]. by left.
  - apply (enqueue_insert topic payload metadata key p e (set_faults fs w1)).
    by apply (caches_ok_same w1).
Qed.

(** The validation followed by the rest. *)
Lemma enqueue_validated_implements s topic payload metadata key e w db :
  caches_ok w → w_db w = db →
  let run := (validatePayload topic payload;;
              enqueue_accepted s topic payload metadata key) e w in
  caches_ok run.2 ∧
  implements (match table_verdict db topic payload with
              | Err x => Err x
              | Ok _ => accepted_on_tables s topic payload metadata key e db
              end) db run.
Proof.
  intros Hw <- run. unfold run. rewrite run_bind.
  destruct (validatePayload_caches_ok topic payload e w Hw) as (Hw2 & Hdb2 & Hans).
  destruct (validatePayload topic payload e w) as [[[]|x] w2]; simpl in Hw2, Hdb2, Hans.
  - destruct Hans as [<-|(? & ? & _)]; [|done]. rewrite <-Hdb2.
    by apply enqueue_accepted_implements.
  - destruct Hans as [<-|(? & [= <-] & Hl)]; (split; [done|]).
    + by left.
    + by apply implements_lost.
Qed.

Lemma enqueue_simulates s topic payload metadata key e w :
  caches_ok w →
  let run := Enqueue s topic payload metadata key e w in
  caches_ok run.2 ∧
  implements (enqueue_on_tables s topic payload metadata key e (w_db w)) (w_db w) run.
Proof.
  intros Hw run. unfold run, Enqueue, enqueue_on_tables. clear run.
  destruct (HasSuffix topic ".dlq"); [split; [done|by left]|].
  destruct (requireTopicRegistration s); simpl; [|by apply enqueue_validated_implements].
  rewrite run_bind_bind, run_bind.
  destruct (GetTopicConfig_caches_ok topic e w Hw) as (Hw1 & Hdb & Hans).
  destruct (GetTopicConfig topic e w) as [[c|x] w1]; simpl in Hw1, Hdb, Hans;
    [|split; [done|by apply implements_lost]].
  subst c. destruct (topic_config (w_db w) !! topic) as [cfg|] eqn:Hcfg; simpl.
  - by apply enqueue_validated_implements.
  - split; [done|]. by left.
Qed.


(** [C1] Whatever the in-process maps and Redis contain, as long as they are in step
    with the tables, and under any schedule of faults, [Enqueue] keeps them so and
    returns exactly what [enqueue_on_tables] computes from the tables - the order of
    the checks, the error, the id, the new tables - or reports a failed round trip,
    having applied the insertion or changed nothing; with no fault scheduled it
    always returns the former. *)
Theorem enqueue_implements_reference s topic payload metadata key e w :
  caches_ok w →
  let run := Enqueue s topic payload metadata key e w in
  let ref := enqueue_on_tables s topic payload metadata key e (w_db w) in
  caches_ok run.2 ∧ implements ref (w_db w) run ∧
  (w_faults w = [] →
   match ref with
   | Ok (id, db') => run.1 = Ok id ∧ w_db run.2 = db'
   | Err x => run.1 = Err x ∧ w_db run.2 = w_db w
   end).
Proof.
  intros Hw run ref. destruct (enqueue_simulates s topic payload metadata key e w Hw) as [Hc Hi].
  split_and!; [done..|]. intros Hf. by apply implements_calm; [|apply Enqueue_calm|].
Qed.

(** ** What the insertion does *)

Lemma conflicting_row_Some topic key db id r :
  conflicting_row topic key db = Some (id, r) →
  messages db !! id = Some r ∧ same_pending_key topic key r.
Proof.
  intros [Hr HP]%head_Some_elem_of%elem_of_map_to_list%map_lookup_filter_Some. done.
Qed.

Lemma conflicting_row_None topic key db i r :
  conflicting_row topic key db = None → messages db !! i = Some r →
  ¬ same_pending_key topic key r.
Proof.
  intros Hnone%head_None Hi HP.
  assert ((i, r) ∈ map_to_list (filter (λ ir, same_pending_key topic key ir.2) (messages db)))
    as Hin by by apply elem_of_map_to_list, map_lookup_filter_Some.
  rewrite Hnone in Hin. by destruct (not_elem_of_nil (i, r)).
Qed.

Lemma overwrite_key_free payload metadata p now topic key id r db :
  db_ok db → messages db !! id = Some r → same_pending_key topic key r →
  key_free id (overwrite_row payload metadata p now r) (messages db).
Proof.
  intros Hok Hr (Hs & Ht & Hk & Hne) j r' Hj Hji Hc.
  by eapply (ok_unique db Hok id j r r').
Qed.

Lemma set_message_ok id r db :
  is_Some (messages db !! id) → key_free id r (messages db) →
  db_ok db → db_ok (set_messages (<[id:=r]> (messages db)) db).
Proof.
  intros Hid Hfree [Hu Hfk Hst]. split; simpl.
  - by apply insert_unique.
  - intros i g d Hd. apply lookup_insert_is_Some.
    destruct (decide (id = i)); [by left|right]. split; [done|]. by eapply Hfk.
  - done.
Qed.

Lemma sql_enqueue_ok topic payload metadata key p e db id db' :
  sql_enqueue topic payload metadata key p e db = Ok (id, db') → db_ok db → db_ok db'.
Proof.
  unfold sql_enqueue. intros H Hok. case_decide; [|done].
  destruct (conflicting_row topic key db) as [[id' r]|] eqn:Hc.
  - simplify_eq. apply conflicting_row_Some in Hc as [Hr HP].
    apply set_message_ok; [by rewrite Hr|by eapply overwrite_key_free|done].
  - destruct (insert_message _ _ _ _) eqn:Hi; simplify_eq. by eapply insert_message_ok.
Qed.

(** The two outcomes of a successful insertion. *)
Definition coalesced (topic payload : string) (metadata : option (gmap string string))
    (key : option string) (p : enqueueParams) (now : Z) (id : uuid) (db db' : DB) : Prop :=
  ∃ r, messages db !! id = Some r ∧ same_pending_key topic key r ∧
    messages db' = <[id:=overwrite_row payload metadata p now r]> (messages db) ∧
    message_deliveries db' = message_deliveries db.
Definition inserted (topic payload : string) (metadata : option (gmap string string))
    (key : option string) (p : enqueueParams) (now : Z) (id : uuid) (db db' : DB) : Prop :=
  messages db !! id = None ∧
  (∀ i r, messages db !! i = Some r → ¬ same_pending_key topic key r) ∧
  messages db' = <[id:=fresh_row topic payload metadata key p now]> (messages db) ∧
  ∀ i g d, message_deliveries db' !! (i, g) = Some d ↔
    message_deliveries db !! (i, g) = Some d ∨
    (i = id ∧ is_Some (consumer_groups db !! (topic, g)) ∧
     d = new_delivery now (p_maxRetries p)).

Lemma sql_enqueue_Ok topic payload metadata key p e db id db' :
  db_ok db → sql_enqueue topic payload metadata key p e db = Ok (id, db') →
  coalesced topic payload metadata key p (pg_now e) id db db' ∨
  inserted topic payload metadata key p (pg_now e) id db db'.
Proof.
  unfold sql_enqueue. intros Hok H. case_decide; [|done].
  destruct (conflicting_row topic key db) as [[id' r]|] eqn:Hc.
  - simplify_eq. apply conflicting_row_Some in Hc as [Hr HP]. left. by exists r.
  - unfold insert_message in H. case_decide as Hd; [|done]. destruct Hd as [Hid _].
    simplify_eq. right. split_and!; [done|..].
    + intros i r Hi. by eapply conflicting_row_None.
    + done.
    + intros i g d. rewrite mint_deliveries_lookup. simpl. split; [naive_solver|].
      intros [Hd|(-> & Hg & ->)]; [by left|]. right. split_and!; [|done..].
      destruct (message_deliveries db !! (new_uuid e 0, g)) as [d|] eqn:Hd; [|done].
      apply (ok_foreign_key _ Hok) in Hd. rewrite Hid in Hd. by destruct Hd.
Qed.

Lemma accepted_on_tables_Ok s topic payload metadata key e db id db' :
  accepted_on_tables s topic payload metadata key e db = Ok (id, db') →
  let p := merge_params s (topic_config db !! topic) (go_now e) in
  sql_enqueue topic payload metadata key p e db = Ok (id, db') ∧
  (0 < p_maxDepth p → depth topic db < p_maxDepth p).
Proof.
  unfold accepted_on_tables. simpl. destruct (_ && _) eqn:Hd; [done|].
  intros H. split; [by case_match; simplify_eq|]. intros Hpos.
  apply andb_false_iff in Hd as [?|?]; reflect_bools; lia.
Qed.

(** A successful run has the reference's effect. *)
Lemma Enqueue_Ok s topic payload metadata key e w id w' :
  caches_ok w → Enqueue s topic payload metadata key e w = (Ok id, w') →
  HasSuffix topic ".dlq" = false ∧ table_verdict (w_db w) topic payload = Ok tt ∧
  accepted_on_tables s topic payload metadata key e (w_db w) = Ok (id, w_db w').
Proof.
  intros Hw Hrun.
  destruct (enqueue_simulates s topic payload metadata key e w Hw) as [_ Hi].
  rewrite Hrun in Hi. apply implements_Ok in Hi.
  unfold enqueue_on_tables in Hi. destruct (HasSuffix topic ".dlq"); [done|].
  destruct (_ && _); [done|].
  by destruct (table_verdict (w_db w) topic payload) as [[]|].
Qed.

(** A successful [Enqueue] leaves under the returned id a pending message of the
    topic with the given payload, metadata and key and the effective [max_retries],
    and touches no other message.  Either a pending message with the same topic and
    key was there, which keeps its id, age, retry count and expiry and whose
    deliveries stay; or there was none, the id is new, and exactly one delivery per
    consumer group of the topic is minted.  The unique index, the foreign key and the
    checks hold again. *)
Theorem enqueue_stores_message s topic payload metadata key e w id w' :
  caches_ok w → db_ok (w_db w) →
  Enqueue s topic payload metadata key e w = (Ok id, w') →
  let p := merge_params s (topic_config (w_db w) !! topic) (go_now e) in
  (coalesced topic payload metadata key p (pg_now e) id (w_db w) (w_db w') ∨
   inserted topic payload metadata key p (pg_now e) id (w_db w) (w_db w')) ∧
  (∃ r, messages (w_db w') !! id = Some r ∧ m_topic r = topic ∧ m_payload r = payload ∧
     m_key r = key ∧ m_status r = pending ∧ m_max_retries r = p_maxRetries p ∧
     m_metadata r = Some (marshal_metadata metadata)) ∧
  (∀ i, i ≠ id → messages (w_db w') !! i = messages (w_db w) !! i) ∧
  db_ok (w_db w').
Proof.
  intros Hw Hok Hrun p. apply Enqueue_Ok in Hrun as (_ & _ & Hrun); [|done].
  apply accepted_on_tables_Ok in Hrun as [Hq _]. fold p in Hq.
  pose proof (sql_enqueue_ok _ _ _ _ _ _ _ _ _ Hq Hok).
  pose proof (sql_enqueue_Ok _ _ _ _ _ _ _ _ _ Hok Hq) as Hcases.
  split_and!; [done| |..|done].
  - destruct Hcases as [(r & _ & (Hs & Ht & Hk & _) & -> & _)|(_ & _ & -> & _)];
      rewrite lookup_insert_eq; eexists; by split_and!.
  - intros i Hi. destruct Hcases as [(r & _ & _ & -> & _)|(_ & _ & -> & _)];
      by rewrite lookup_insert_ne.
Qed.

Lemma size_filter_insert (P : uuid * MessageRow → Prop) `{∀ x, Decision (P x)}
    (m : gmap uuid MessageRow) i r :
  (size (filter P (<[i:=r]> m)) ≤ size (filter P m) + 1)%nat.
Proof.
  destruct (decide (P (i, r))) as [HP|HP].
  - rewrite map_filter_insert_True by done.
    rewrite map_size_insert. case_match; cbv [id]; lia.
  - rewrite map_filter_insert_False by done.
    etrans; [apply map_subseteq_size, map_filter_subseteq_mono, delete_subseteq|lia].
Qed.

(** The depth guard: on a topic with [max_depth] [d > 0], a successful [Enqueue]
    started with fewer than [d] messages in flight and ends with at most [d], so
    enqueues one after the other never exceed the limit. *)
Theorem enqueue_depth_bound s topic payload metadata key e w id w' cfg d :
  caches_ok w → db_ok (w_db w) →
  topic_config (w_db w) !! topic = Some cfg → MaxDepth cfg = Some d → 0 < d →
  Enqueue s topic payload metadata key e w = (Ok id, w') →
  depth topic (w_db w) < d ∧ depth topic (w_db w') ≤ d.
Proof.
  intros Hw Hok Hcfg Hd Hpos Hrun. apply Enqueue_Ok in Hrun as (_ & _ & Hrun); [|done].
  apply accepted_on_tables_Ok in Hrun as [Hq Hdepth].
  unfold merge_params in Hdepth. rewrite Hcfg in Hdepth. simpl in Hdepth.
  rewrite Hd in Hdepth. simpl in Hdepth. specialize (Hdepth Hpos). split; [done|].
  unfold depth in *.
  apply sql_enqueue_Ok in Hq as [(r & _ & _ & -> & _)|(_ & _ & -> & _)]; [..|done];
    match goal with |- context [filter ?P (<[?i:=?r]> ?m)] =>
      pose proof (size_filter_insert P m i r) end; lia.
Qed.

(** A keyed enqueue that meets a pending message past its TTL, which the expiry
    reaper has not visited yet, reports success; but the expiry is not renewed, so
    the message just accepted is not eligible for any dequeue from then on. *)
Theorem keyed_enqueue_into_expired_is_lost s topic payload metadata key e w id w' i r t :
  caches_ok w → db_ok (w_db w) →
  messages (w_db w) !! i = Some r → same_pending_key topic key r →
  m_expires_at r = Some t → t ≤ pg_now e →
  Enqueue s topic payload metadata key e w = (Ok id, w') →
  id = i ∧ ∃ r', messages (w_db w') !! id = Some r' ∧ m_payload r' = payload ∧
    ∀ now, pg_now e ≤ now → ¬ eligible now topic r'.
Proof.
  intros Hw Hok Hi Hk Ht Hle Hrun. apply Enqueue_Ok in Hrun as (_ & _ & Hrun); [|done].
  apply accepted_on_tables_Ok in Hrun as [Hq _].
  apply sql_enqueue_Ok in Hq as [(r1 & Hr1 & Hk1 & -> & _)|(_ & Hno & _)];
    [|by destruct (Hno i r Hi)|done].
  assert (id = i) as ->.
  { destruct (decide (id = i)) as [|Hne]; [done|].
    destruct (ok_unique _ Hok id i r1 r Hr1 Hi Hne).
    destruct Hk as (?&?&?&?), Hk1 as (?&?&?&?). split_and!; congruence. }
  split; [done|]. eexists. rewrite lookup_insert_eq. split; [done|]. split; [done|].
  intros now Hnow (_ & _ & _ & Hexp & _). simplify_eq. unfold unexpired in Hexp. simpl in Hexp.
  rewrite Ht in Hexp. lia.
Qed.
End enqueue.
