(* ===== verification/Lifecycle.v ===== *)
(** * Acknowledgement, rejection, dead letters

    [backend/internal/queue/lifecycle.go]: [Ack], [Nack], their consumer-group
    variants, the promotion of a message to its dead-letter topic and [Requeue], which
    brings it back. *)

From S2P Require Import Prelude.
From S2P Require Import Store.
From S2P Require Import Avro.
From S2P Require Import Runtime.
From S2P Require Import Model.
From S2P Require Import TopicConfig.
From S2P Require Import Throttle.
From S2P Require Import Schema.
From S2P Require Import Dequeue.
From S2P Require Import Enqueue.

Section lifecycle.
Context `{PG : Postgres} `{ST : Storage}.

(** A failed lookup falls back to the global threshold. *)
Definition effectiveDLQThreshold (s : Service) (topic : string) : M Z :=
  cfg ← try (GetTopicConfig topic);
  mret (match cfg with
        | Ok (Some cfg) => default (dlqThreshold s) (MaxRetries cfg)
        | _ => dlqThreshold s
        end).

(** [INSERT INTO message_log], keyed by topic, [now()] and id. *)
Definition insert_log (topic : string) (acked_at : Z) (id : uuid) (l : LogRow) (db : DB)
    : result PgError DB :=
  match message_log db !! (topic, acked_at, id) with
  | Some _ => Err UniqueViolation
  | None => Ok (set_log (<[(topic, acked_at, id):=l]> (message_log db)) db)
  end.

(** [SELECT COALESCE(replayable, false)], false when there is no row. *)
Definition is_replayable (topic : string) (db : DB) : bool :=
  match topic_config db !! topic with Some cfg => Replayable cfg | None => false end.

Definition archiveToLog (id : uuid) (topic : string) (l : LogRow) : M unit :=
  replayable ← tx_query "check replayable" (λ _ db, is_replayable topic db);
  if negb replayable then mret tt
  else tx_exec "archive to log" (λ e, insert_log topic (pg_now e) id l).

(** The columns [Ack] and [AckForGroup] select. *)
Definition log_of_message (r : MessageRow) : LogRow :=
  mkLogRow (m_key r) (m_payload r) (m_metadata r) (m_retry_count r) (m_max_retries r)
    (m_last_error r) (m_original_topic r) (m_created_at r).
Definition log_of_delivery (r : MessageRow) (d : DeliveryRow) : LogRow :=
  mkLogRow (m_key r) (m_payload r) (m_metadata r) (d_retry_count d) (d_max_retries d)
    (d_last_error d) (m_original_topic r) (m_created_at r).

(** [DELETE FROM messages WHERE id = $1] *)
Definition has_id (id : uuid) (i : uuid) (_ : MessageRow) : Prop := i = id.
#[export] Instance has_id_dec id i r : Decision (has_id id i r).
Proof. unfold has_id. apply _. Defined.
Definition delete_message (id : uuid) (db : DB) : DB :=
  (delete_messages_where (has_id id) db).2.

Definition Ack (id : uuid) : M unit :=
  begin_tx "ack begin tx";;
  row ← tx_query "ack fetch"
          (λ _ db, r ← messages db !! id;
                   if decide (m_status r = processing) then Some r else None);
  match row with
  | None => fail ErrNotFound
  | Some r =>
      archiveToLog id (m_topic r) (log_of_message r);;
      tx_exec "ack delete" (λ _ db, Ok (delete_message id db));;
      commit_tx "ack commit";;
      record (RecordAck (m_topic r))
  end.

(** The promotion's [SET] clause. *)
Definition promote (now : Z) (topic processingError : string) (r : MessageRow) : MessageRow :=
  mkMessageRow (topic +:+ ".dlq") (m_payload r) (m_metadata r) (m_key r) pending 0 0
    (Some processingError) None (m_expires_at r) (m_created_at r) now (Some topic) (Some now).

(** The standard retry or failure. *)
Definition retry_or_fail (now : Z) (processingError : string) (next : Z) (st : status)
    (r : MessageRow) : MessageRow :=
  mkMessageRow (m_topic r) (m_payload r) (m_metadata r) (m_key r) st next (m_max_retries r)
    (Some processingError) None (m_expires_at r) (m_created_at r) now (m_original_topic r)
    (m_dlq_moved_at r).

Definition Nack (s : Service) (id : uuid) (processingError : string) : M unit :=
  begin_tx "nack begin tx";;
  row ← tx_query "nack fetch" (λ _ db, messages db !! id);
  match row with
  | None => fail ErrNotFound
  | Some r =>
      if decide (m_status r ≠ processing) then fail ErrNotProcessing
      else
        let topic := m_topic r in
        let next := m_retry_count r + 1 in
        threshold ← effectiveDLQThreshold s topic;
        if (0 <? threshold) && (threshold <=? next) then
          tx_exec "nack dlq promotion"
            (λ e, update_message id (promote (pg_now e) topic processingError));;
          commit_tx "nack commit";;
          record (RecordNack topic "dlq")
        else
          let newStatus := if m_max_retries r <=? next then failed else pending in
          tx_exec "nack update"
            (λ e, update_message id (retry_or_fail (pg_now e) processingError next newStatus));;
          commit_tx "nack commit";;
          record (RecordNack topic
                    (if bool_decide (newStatus = failed) then "failed" else "retry"))
  end.

(** [DELETE FROM message_deliveries WHERE message_id = $1 AND consumer_group = $2] *)
Definition delete_delivery (k : uuid * string) (db : DB) : DB :=
  set_deliveries (delete k (message_deliveries db)) db.

Definition count_deliveries (id : uuid) (db : DB) : Z :=
  Z.of_nat (size (filter (λ kd, kd.1.1 = id) (message_deliveries db))).

Definition AckForGroup (id : uuid) (group : string) : M unit :=
  begin_tx "ack group begin tx";;
  row ← tx_query "ack group fetch"
          (λ _ db, ird ← sql_join id group db;
                   if decide (d_status ird.2.2 = processing) then Some ird.2 else None);
  match row with
  | None => fail ErrNotFound
  | Some (r, d) =>
      tx_exec "ack group delete delivery" (λ _ db, Ok (delete_delivery (id, group) db));;
      remaining ← tx_query "ack group count deliveries" (λ _ db, count_deliveries id db);
      (if remaining =? 0 then
         archiveToLog id (m_topic r) (log_of_delivery r d);;
         tx_exec "ack group delete message" (λ _ db, Ok (delete_message id db))
       else mret tt);;
      commit_tx "ack group commit";;
      record (RecordAck (m_topic r))
  end.

(** The two [SET] clauses of [NackForGroup]. *)
Definition fail_delivery (now : Z) (processingError : string) (next : Z) (d : DeliveryRow)
    : DeliveryRow :=
  mkDeliveryRow failed (d_visibility_timeout d) next (d_max_retries d)
    (Some processingError) (d_created_at d) now.
Definition retry_delivery (now : Z) (processingError : string) (next : Z) (st : status)
    (d : DeliveryRow) : DeliveryRow :=
  mkDeliveryRow st None next (d_max_retries d) (Some processingError) (d_created_at d) now.

Definition NackForGroup (s : Service) (id : uuid) (group processingError : string) : M unit :=
  begin_tx "nack group begin tx";;
  row ← tx_query "nack group fetch" (λ _ db, sql_join id group db);
  match row with
  | None => fail ErrNotFound
  | Some (_, (r, d)) =>
      if decide (d_status d ≠ processing) then fail ErrNotProcessing
      else
        let topic := m_topic r in
        let next := d_retry_count d + 1 in
        threshold ← effectiveDLQThreshold s topic;
        if (0 <? threshold) && (threshold <=? next) then
          tx_exec "nack group dlq mark failed"
            (λ e, update_delivery (id, group) (fail_delivery (pg_now e) processingError next));;
          commit_tx "nack group commit";;
          record (RecordNack topic "dlq")
        else
          let newStatus :=
            if (0 <? d_max_retries d) && (d_max_retries d <=? next) then failed else pending in
          tx_exec "nack group update"
            (λ e, update_delivery (id, group)
                    (retry_delivery (pg_now e) processingError next newStatus));;
          commit_tx "nack group commit";;
          record (RecordNack topic
                    (if bool_decide (newStatus = failed) then "failed" else "retry"))
  end.

(** [Requeue]'s [SET] clause. *)
Definition requeue_row (now : Z) (originalTopic : string) (max_retries : Z) (r : MessageRow)
    : MessageRow :=
  mkMessageRow originalTopic (m_payload r) (m_metadata r) (m_key r) pending 0 max_retries
    (m_last_error r) None (m_expires_at r) (m_created_at r) now None None.

Definition Requeue (s : Service) (id : uuid) : M unit :=
  begin_tx "requeue begin tx";;
  row ← tx_query "requeue fetch" (λ _ db, m_original_topic <$> messages db !! id);
  match row with
  | None => fail ErrNotFound
  | Some originalTopic =>
      match originalTopic with
      | None | Some EmptyString => fail ErrNotDLQ
      | Some topic =>
          threshold ← effectiveDLQThreshold s topic;
          tx_exec "requeue update"
            (λ e, update_message id (requeue_row (pg_now e) topic threshold));;
          commit_tx "requeue commit";;
          record (RecordRequeue topic)
      end
  end.

(** ** The reference definitions *)

Definition archive_on_tables (id : uuid) (topic : string) (l : LogRow) (e : Env) (db : DB)
    : result PgError DB :=
  if is_replayable topic db then insert_log topic (pg_now e) id l db else Ok db.

Definition ack_on_tables (id : uuid) (e : Env) (db : DB) : result Error (unit * DB) :=
  match messages db !! id with
  | None => Err ErrNotFound
  | Some r =>
      if decide (m_status r = processing) then
        match archive_on_tables id (m_topic r) (log_of_message r) e db with
        | Err x => Err (ErrSQL "archive to log" x)
        | Ok db1 => Ok (tt, delete_message id db1)
        end
      else Err ErrNotFound
  end.

(** What a nack makes of a row, given the threshold. *)
Definition nacked (threshold now : Z) (processingError : string) (r : MessageRow)
    : MessageRow :=
  let next := m_retry_count r + 1 in
  if (0 <? threshold) && (threshold <=? next) then promote now (m_topic r) processingError r
  else retry_or_fail now processingError next
         (if m_max_retries r <=? next then failed else pending) r.

Definition nack_on_tables (threshold : Z) (id : uuid) (processingError : string) (e : Env)
    (db : DB) : result Error (unit * DB) :=
  match messages db !! id with
  | None => Err ErrNotFound
  | Some r =>
      if decide (m_status r ≠ processing) then Err ErrNotProcessing
      else sql_result
             (if (0 <? threshold) && (threshold <=? m_retry_count r + 1)
              then "nack dlq promotion" else "nack update")
             (update_message id (nacked threshold (pg_now e) processingError) db)
  end.

Definition nacked_delivery (threshold now : Z) (processingError : string) (d : DeliveryRow)
    : DeliveryRow :=
  let next := d_retry_count d + 1 in
  if (0 <? threshold) && (threshold <=? next) then fail_delivery now processingError next d
  else retry_delivery now processingError next
         (if (0 <? d_max_retries d) && (d_max_retries d <=? next) then failed else pending) d.

Definition nack_group_on_tables (threshold : Z) (id : uuid) (group processingError : string)
    (e : Env) (db : DB) : result Error (unit * DB) :=
  match sql_join id group db with
  | None => Err ErrNotFound
  | Some (_, (r, d)) =>
      if decide (d_status d ≠ processing) then Err ErrNotProcessing
      else sql_result
             (if (0 <? threshold) && (threshold <=? d_retry_count d + 1)
              then "nack group dlq mark failed" else "nack group update")
             (update_delivery (id, group) (nacked_delivery threshold (pg_now e) processingError)
                db)
  end.

Definition ack_group_on_tables (id : uuid) (group : string) (e : Env) (db : DB)
    : result Error (unit * DB) :=
  match sql_join id group db with
  | None => Err ErrNotFound
  | Some (_, (r, d)) =>
      if decide (d_status d = processing) then
        let db1 := delete_delivery (id, group) db in
        if count_deliveries id db1 =? 0 then
          match archive_on_tables id (m_topic r) (log_of_delivery r d) e db1 with
          | Err x => Err (ErrSQL "archive to log" x)
          | Ok db2 => Ok (tt, delete_message id db2)
          end
        else Ok (tt, db1)
      else Err ErrNotFound
  end.

Definition requeue_on_tables (threshold : Z) (id : uuid) (e : Env) (db : DB)
    : result Error (unit * DB) :=
  match messages db !! id with
  | None => Err ErrNotFound
  | Some r =>
      match m_original_topic r with
      | None | Some EmptyString => Err ErrNotDLQ
      | Some topic =>
          sql_result "requeue update"
            (update_message id (requeue_row (pg_now e) topic threshold) db)
      end
  end.

(** The threshold the tables give for a topic. *)
Definition threshold_of (s : Service) (topic : string) (db : DB) : Z :=
  default (dlqThreshold s) (topic_config db !! topic ≫= MaxRetries).

(** The threshold a call uses: the global one may replace it when a round trip of the
    lookup fails. *)
Definition threshold_used (s : Service) (topic : string) (w : World) (threshold : Z) : Prop :=
  threshold = threshold_of s topic (w_db w) ∨
  (threshold = dlqThreshold s ∧ w_faults w ≠ []).

Context `{SLAWS : !StorageLaws}.

Lemma effectiveDLQThreshold_run s topic e w :
  coherent w →
  ∃ threshold w', effectiveDLQThreshold s topic e w = (Ok threshold, w') ∧
    threshold_used s topic w threshold ∧ w_db w' = w_db w ∧ w_tx w' = w_tx w.
Proof.
  intros Hw. unfold effectiveDLQThreshold, try. rewrite run_bind.
  destruct (GetTopicConfig_correct topic e w Hw) as [_ Hans].
  destruct (GetTopicConfig_neutral topic e w) as [Hdb Htx].
  pose proof (GetTopicConfig_error topic e w) as Herr.
  pose proof (GetTopicConfig_is_calm topic e w) as Hcalm.
  destruct (GetTopicConfig topic e w) as [[c|x] w1]; simpl in *;
    (eexists _, w1; split; [reflexivity|]; split; [|done]).
  - left. unfold threshold_of. rewrite <-(Hans c) by done. by destruct c.
  - right. split; [done|]. intros Hf. destruct (Hcalm Hf) as [_ Hx]. by apply (Hx x), Herr.
Qed.

(** The step shared by the methods that read the threshold inside a transaction. *)
Lemma threshold_ind {A} (Φ : result Error A * World → Prop) s topic (k : Z → M A) e w fs :
  (w_faults w = [] → fs = []) → coherent w →
  (∀ threshold w1, threshold_used s topic w threshold → w_db w1 = w_db w →
     w_tx w1 = w_db w → Φ (k threshold e w1)) →
  Φ ((effectiveDLQThreshold s topic ≫= k) e (set_tx (w_db w) (set_faults fs w))).
Proof.
  intros Hfs Hw Hk.
  destruct (effectiveDLQThreshold_run s topic e (set_tx (w_db w) (set_faults fs w)))
    as (threshold & w1 & Hrun & Hused & Hdb & Htx); [by apply (coherent_same w)|].
  rewrite run_bind, Hrun. apply Hk; [|done..].
  unfold threshold_used in *. simpl in Hused. naive_solver.
Qed.

Lemma archive_cases id topic l e w :
  ∃ fs, match archive_on_tables id topic l e (w_tx w) with
        | Ok db' => archiveToLog id topic l e w = (Ok tt, set_tx db' (set_faults fs w))
        | Err x => archiveToLog id topic l e w =
                     (Err (ErrSQL "archive to log" x), set_faults fs w)
        end ∨ ∃ x w', archiveToLog id topic l e w = (Err x, w') ∧ lost x ∧ w_db w' = w_db w.
Proof.
  unfold archiveToLog, archive_on_tables. rewrite run_bind.
  destruct (tx_query_cases "check replayable" (λ _ db, is_replayable topic db) e w)
    as [fs [-> | ->]]; [|exists fs; right; eexists _, _; split_and!; [reflexivity|by eexists|done]].
  simpl. destruct (is_replayable topic (w_tx w)); simpl.
  - destruct (tx_exec_cases "archive to log" (λ e, insert_log topic (pg_now e) id l) e
      (set_faults fs w)) as [fs' [Hq|Hq]].
    + exists fs'. left. simpl in Hq. by destruct (insert_log _ _ _ _ _).
    + exists fs'. right. rewrite Hq. eexists _, _; split_and!; [reflexivity|by eexists|done].
  - exists fs. left. by destruct w.
Qed.

Lemma ack_implements id e w :
  implements (ack_on_tables id e (w_db w)) (w_db w) (Ack id e w).
Proof.
  unfold Ack, ack_on_tables. apply begin_query_ind; [intros; by apply implements_lost|].
  intros fs Hfs. destruct (messages (w_db w) !! id) as [r|]; simpl; [|by left].
  case_decide; [|by left]. rewrite run_bind.
  destruct (archive_cases id (m_topic r) (log_of_message r) e (set_tx (w_db w) (set_faults fs w)))
    as [fs1 [Ha|(x & w' & -> & Hx & Hdb)]]; [|by apply implements_lost].
  simpl in Ha. destruct (archive_on_tables _ _ _ _ _) as [db1|x]; rewrite Ha; [|by left].
  by apply exec_commit_implements.
Qed.

Lemma nack_implements s id err e w :
  coherent w →
  ∃ threshold,
    (∀ r, messages (w_db w) !! id = Some r → threshold_used s (m_topic r) w threshold) ∧
    implements (nack_on_tables threshold id err e (w_db w)) (w_db w) (Nack s id err e w).
Proof.
  intros Hw. unfold Nack. apply begin_query_ind.
  { intros x w1 ??. exists (threshold_of s (default "" (m_topic <$> messages (w_db w) !! id)) (w_db w)).
    split; [|by apply implements_lost]. intros r ->. by left. }
  intros fs Hfs. unfold nack_on_tables.
  destruct (messages (w_db w) !! id) as [r|] eqn:Hr; simpl; [|exists 0; split; [done|by left]].
  case_decide as Hst.
  { exists (threshold_of s (m_topic r) (w_db w)). split; [|by left].
    intros ? [= <-]. by left. }
  apply threshold_ind; [done..|]. intros threshold w1 Hused Hdb Htx.
  exists threshold. split; [by intros ? [= <-]|].
  destruct (_ && _) eqn:Hth; apply exec_commit_implements; rewrite ?Htx; try done;
    f_equal; unfold update_message, nacked; by rewrite Hr, Hth.
Qed.

Lemma nack_group_implements s id group err e w :
  coherent w →
  ∃ threshold,
    (∀ r, messages (w_db w) !! id = Some r → threshold_used s (m_topic r) w threshold) ∧
    implements (nack_group_on_tables threshold id group err e (w_db w)) (w_db w)
      (NackForGroup s id group err e w).
Proof.
  intros Hw. unfold NackForGroup.
  assert (∃ threshold, ∀ r, messages (w_db w) !! id = Some r →
            threshold_used s (m_topic r) w threshold) as [any Hany].
  { exists (threshold_of s (default "" (m_topic <$> messages (w_db w) !! id)) (w_db w)).
    intros r ->. by left. }
  apply begin_query_ind.
  { intros x w1 ??. exists any. split; [done|]. by apply implements_lost. }
  intros fs Hfs. unfold nack_group_on_tables, sql_join.
  destruct (messages (w_db w) !! id) as [r|] eqn:Hr; simpl; [|exists any; split; [done|by left]].
  destruct (message_deliveries (w_db w) !! (id, group)) as [d|] eqn:Hd; simpl;
    [|exists any; split; [done|by left]].
  case_decide as Hst; [exists any; split; [done|by left]|].
  apply threshold_ind; [done..|]. intros threshold w1 Hused Hdb Htx.
  exists threshold. split; [by intros ? [= <-]|].
  destruct (_ && _) eqn:Hth; apply exec_commit_implements; rewrite ?Htx; try done;
    f_equal; unfold update_delivery, nacked_delivery; by rewrite Hd, Hth.
Qed.

Lemma ack_group_implements id group e w :
  implements (ack_group_on_tables id group e (w_db w)) (w_db w) (AckForGroup id group e w).
Proof.
  unfold AckForGroup, ack_group_on_tables.
  apply begin_query_ind; [intros; by apply implements_lost|].
  intros fs _. unfold sql_join.
  destruct (messages (w_db w) !! id) as [r|]; simpl; [|by left].
  destruct (message_deliveries (w_db w) !! (id, group)) as [d|]; simpl; [|by left].
  case_decide; [|by left]. set (db1 := delete_delivery (id, group) (w_db w)).
  rewrite run_bind.
  match goal with |- context [tx_exec ?what ?q e ?w1] =>
    destruct (tx_exec_cases what q e w1) as [fs1 [Hq|Hq]]; simpl in Hq; rewrite Hq;
      [|by apply implements_lost; [eexists|]]; clear Hq end.
  rewrite run_bind.
  match goal with |- context [tx_query ?what ?q e ?w1] =>
    destruct (tx_query_cases what q e w1) as [fs2 [Hq|Hq]]; simpl in Hq; rewrite Hq;
      [|by apply implements_lost; [eexists|]]; clear Hq end.
  fold db1. destruct (count_deliveries id db1 =? 0); [|by apply commit_implements].
  rewrite run_bind_bind, run_bind.
  match goal with |- context [archiveToLog ?i ?t ?l e ?w1] =>
    destruct (archive_cases i t l e w1) as [fs3 [Ha|(x & w' & -> & Hx & Hdb)]];
      [|by apply implements_lost] end.
  simpl in Ha. destruct (archive_on_tables _ _ _ _ _) as [db2|x]; rewrite Ha; [|by left].
  by apply exec_commit_implements.
Qed.

Lemma requeue_implements s id e w :
  coherent w →
  ∃ threshold,
    (∀ r topic, messages (w_db w) !! id = Some r → m_original_topic r = Some topic →
       threshold_used s topic w threshold) ∧
    implements (requeue_on_tables threshold id e (w_db w)) (w_db w) (Requeue s id e w).
Proof.
  intros Hw. unfold Requeue.
  assert (∃ threshold, ∀ r topic, messages (w_db w) !! id = Some r →
            m_original_topic r = Some topic → threshold_used s topic w threshold) as [any Hany].
  { exists (threshold_of s (default "" (messages (w_db w) !! id ≫= m_original_topic)) (w_db w)).
    intros r topic -> Ht. left. simpl. by rewrite Ht. }
  apply begin_query_ind.
  { intros x w1 ??. exists any. split; [done|]. by apply implements_lost. }
  intros fs Hfs. unfold requeue_on_tables.
  destruct (messages (w_db w) !! id) as [r|] eqn:Hr; simpl; [|exists any; split; [done|by left]].
  destruct (m_original_topic r) as [topic|] eqn:Ht; [|exists any; split; [done|by left]].
  destruct topic as [|c topic]; [exists any; split; [done|by left]|].
  apply threshold_ind; [done..|]. intros threshold w1 Hused Hdb Htx.
  exists threshold. split; [intros ?? [= <-]; rewrite Ht; by intros [= <-]|].
  apply exec_commit_implements; rewrite ?Htx; done.
Qed.

(** ** Runs without a failing round trip *)

Lemma update_message_no_loss (f : Env → MessageRow → MessageRow) id :
  reports_no_loss (λ e, update_message id (f e)).
Proof. intros e db. unfold update_message. split_cases. Qed.
Lemma update_delivery_no_loss (f : Env → DeliveryRow → DeliveryRow) k :
  reports_no_loss (λ e, update_delivery k (f e)).
Proof. intros e db. unfold update_delivery. split_cases. Qed.
Lemma insert_log_no_loss (t : Env → Z) topic id l :
  reports_no_loss (λ e, insert_log topic (t e) id l).
Proof. intros e db. unfold insert_log. split_cases. Qed.
Hint Resolve update_message_no_loss update_delivery_no_loss insert_log_no_loss : queueti.

Lemma effectiveDLQThreshold_calm s topic : calm (effectiveDLQThreshold s topic).
Proof.
  unfold effectiveDLQThreshold. apply calm_bind; [|solve_calm]. intros e w Hw.
  destruct (GetTopicConfig_is_calm topic e w Hw) as [Hf _]. unfold try.
  by destruct (GetTopicConfig topic e w).
Qed.
Hint Resolve effectiveDLQThreshold_calm : queueti.
Lemma archiveToLog_calm id topic l : calm (archiveToLog id topic l).
Proof. unfold archiveToLog. solve_calm. Qed.
Hint Resolve archiveToLog_calm : queueti.

Lemma Ack_calm id : calm (Ack id).
Proof. unfold Ack. solve_calm. Qed.
Lemma Nack_calm s id err : calm (Nack s id err).
Proof. unfold Nack. solve_calm. Qed.
Lemma AckForGroup_calm id group : calm (AckForGroup id group).
Proof. unfold AckForGroup. solve_calm. Qed.
Lemma NackForGroup_calm s id group err : calm (NackForGroup s id group err).
Proof. unfold NackForGroup. solve_calm. Qed.
Lemma Requeue_calm s id : calm (Requeue s id).
Proof. unfold Requeue. solve_calm. Qed.

(** ** Acknowledgement *)

Lemma delete_message_messages id db : messages (delete_message id db) = delete id (messages db).
Proof.
  apply map_eq. intros i. simpl. rewrite map_lookup_filter, lookup_delete.
  unfold has_id. destruct (messages db !! i) as [r|]; simpl; [|by case_decide].
  unfold guard. repeat case_decide; naive_solver.
Qed.

Lemma delete_message_deliveries id db i g :
  db_ok db →
  message_deliveries (delete_message id db) !! (i, g) =
    if decide (i = id) then None else message_deliveries db !! (i, g).
Proof.
  intros Hok. apply option_eq. intros d. simpl. rewrite map_lookup_filter_Some. simpl.
  rewrite map_lookup_filter. unfold has_id. split.
  - intros [Hd Hm]. destruct (messages db !! i) as [r|] eqn:Hi; simpl in Hm; [|by destruct Hm].
    unfold guard in Hm. repeat case_decide; try done; by destruct Hm.
  - case_decide as Hi; [done|]. intros Hd. split; [done|].
    destruct (ok_foreign_key _ Hok _ _ _ Hd) as [r ->]. simpl. unfold guard.
    by case_decide.
Qed.

Lemma archive_on_tables_Ok id topic l e db db' :
  archive_on_tables id topic l e db = Ok db' →
  messages db' = messages db ∧ message_deliveries db' = message_deliveries db ∧
  message_log db' = (if is_replayable topic db
                     then <[(topic, pg_now e, id):=l]> (message_log db) else message_log db).
Proof.
  unfold archive_on_tables, insert_log. intros H. by split_cases.
Qed.

(** The effect of a message leaving the queue through an acknowledgement. *)
Definition settled (id : uuid) (topic : string) (l : LogRow) (now : Z) (db db' : DB) : Prop :=
  messages db' = delete id (messages db) ∧
  (∀ i g, message_deliveries db' !! (i, g) =
     if decide (i = id) then None else message_deliveries db !! (i, g)) ∧
  message_log db' = (if is_replayable topic db
                     then <[(topic, now, id):=l]> (message_log db) else message_log db).

Lemma settled_intro id topic l e db db' :
  db_ok db → archive_on_tables id topic l e db = Ok db' →
  settled id topic l (pg_now e) db (delete_message id db').
Proof.
  intros Hok (Hm & Hd & Hl)%archive_on_tables_Ok.
  assert (db_ok db') as Hok' by by apply (db_ok_same db).
  split_and!; [by rewrite delete_message_messages, Hm| |exact Hl].
  intros i g. by rewrite delete_message_deliveries, Hd.
Qed.

(** [C4] [Ack] removes a message exactly when it is being processed: on success the
    message was [processing], it is gone with all its deliveries, a copy is in the log
    if and only if the topic is replayable, and no other message, delivery or log row
    changed; on an error nothing changed, unless the failed round trip is a commit
    that the server had applied; and without faults a message that is not in
    processing is refused with [ErrNotFound]. *)
Theorem ack_settles_message id e w :
  db_ok (w_db w) →
  let run := Ack id e w in
  let effect db' := ∃ r, messages (w_db w) !! id = Some r ∧ m_status r = processing ∧
    settled id (m_topic r) (log_of_message r) (pg_now e) (w_db w) db' in
  match run.1 with
  | Ok _ => effect (w_db run.2)
  | Err x => w_db run.2 = w_db w ∨ (lost x ∧ effect (w_db run.2))
  end ∧
  (w_faults w = [] → (∀ r, messages (w_db w) !! id = Some r → m_status r ≠ processing) →
   run.1 = Err ErrNotFound).
Proof.
  intros Hok run effect. pose proof (ack_implements id e w) as Hi. fold run in Hi.
  assert (∀ u db', ack_on_tables id e (w_db w) = Ok (u, db') → effect db') as Heff.
  { intros u db'. unfold ack_on_tables.
    destruct (messages (w_db w) !! id) as [r|] eqn:Hr; [|done]. case_decide as Hst; [|done].
    destruct (archive_on_tables _ _ _ _ _) as [db1|] eqn:Ha; [|done]. intros [= _ <-].
    exists r. split_and!; [done..|]. by apply settled_intro. }
  split.
  - destruct Hi as [Hi|[(x & -> & Hl) [Hdb|(u & db' & Href & Hdb)]]];
      [|by left|right; rewrite Hdb; by eauto].
    destruct (ack_on_tables id e (w_db w)) as [[u db']|x]; destruct Hi as [-> ->];
      [by eapply Heff|by left].
  - intros Hf Hno. unfold run in *. pose proof (implements_calm _ _ _ _ Hi (Ack_calm id) Hf) as Hcalm.
    unfold ack_on_tables in Hcalm. destruct (messages (w_db w) !! id) as [r|];
      [rewrite decide_False in Hcalm by by apply Hno|]; by destruct Hcalm.
Qed.

(** ** Rejection *)

Lemma nack_on_tables_Ok threshold id err e db u db' :
  nack_on_tables threshold id err e db = Ok (u, db') →
  ∃ r, messages db !! id = Some r ∧ m_status r = processing ∧
    key_free id (nacked threshold (pg_now e) err r) (messages db) ∧
    db' = set_messages (<[id:=nacked threshold (pg_now e) err r]> (messages db)) db.
Proof.
  unfold nack_on_tables, sql_result, update_message.
  destruct (messages db !! id) as [r|]; [|done]. case_decide as Hst; [done|].
  case_decide; [|done]. case_decide; [|done].
  intros [= _ <-]. eauto 10.
Qed.

(** The three outcomes of a nack on a row. *)
Lemma nacked_cases threshold now err r :
  let r' := nacked threshold now err r in
  let next := m_retry_count r + 1 in
  m_payload r' = m_payload r ∧ m_metadata r' = m_metadata r ∧ m_key r' = m_key r ∧
  m_created_at r' = m_created_at r ∧ m_expires_at r' = m_expires_at r ∧
  m_last_error r' = Some err ∧ m_visibility_timeout r' = None ∧
  ((0 < threshold ≤ next ∧
    m_topic r' = m_topic r +:+ ".dlq" ∧ m_status r' = pending ∧ m_retry_count r' = 0 ∧
    m_max_retries r' = 0 ∧ m_original_topic r' = Some (m_topic r) ∧
    m_dlq_moved_at r' = Some now) ∨
   (¬ 0 < threshold ≤ next ∧ m_topic r' = m_topic r ∧ m_retry_count r' = next ∧
    m_max_retries r' = m_max_retries r ∧ m_original_topic r' = m_original_topic r ∧
    m_status r' = if decide (m_max_retries r ≤ next) then failed else pending)).
Proof.
  intros r' next. unfold r', nacked. fold next. destruct (_ && _) eqn:Hth; reflect_bools.
  - split_and!; try done. left. split_and!; try done; lia.
  - split_and!; try done. right. split_and!; try done.
    + intros [H1 H2]. apply andb_false_iff in Hth as [?|?]; reflect_bools; lia.
    + simpl. case_decide; case_match; reflect_bools; try done; lia.
Qed.

(** [C5] [Nack]: on success the message was [processing] and has, for the threshold in
    force - the topic's [max_retries] or else the global one, which also stands in
    when the lookup fails - exactly one of three fates: at the threshold it is
    pending, with its counters reset, in the dead-letter topic that remembers where
    it came from; below it, it is [failed] when its retries are used up and otherwise
    pending and visible at once; its content, key, age and expiry are kept, nothing
    else changes.  On an error nothing changed, unless a commit was lost. *)
Theorem nack_fates s id err e w :
  coherent w →
  let run := Nack s id err e w in
  let effect db' := ∃ r threshold, messages (w_db w) !! id = Some r ∧ m_status r = processing ∧
    threshold_used s (m_topic r) w threshold ∧
    db' = set_messages (<[id:=nacked threshold (pg_now e) err r]> (messages (w_db w))) (w_db w) ∧
    let r' := nacked threshold (pg_now e) err r in
    let next := m_retry_count r + 1 in
    m_payload r' = m_payload r ∧ m_metadata r' = m_metadata r ∧ m_key r' = m_key r ∧
    m_created_at r' = m_created_at r ∧ m_expires_at r' = m_expires_at r ∧
    m_last_error r' = Some err ∧ m_visibility_timeout r' = None ∧
    ((0 < threshold ≤ next ∧
      m_topic r' = m_topic r +:+ ".dlq" ∧ m_status r' = pending ∧ m_retry_count r' = 0 ∧
      m_max_retries r' = 0 ∧ m_original_topic r' = Some (m_topic r) ∧
      m_dlq_moved_at r' = Some (pg_now e)) ∨
     (¬ 0 < threshold ≤ next ∧ m_topic r' = m_topic r ∧ m_retry_count r' = next ∧
      m_max_retries r' = m_max_retries r ∧ m_original_topic r' = m_original_topic r ∧
      m_status r' = if decide (m_max_retries r ≤ next) then failed else pending)) in
  match run.1 with
  | Ok _ => effect (w_db run.2)
  | Err x => w_db run.2 = w_db w ∨ (lost x ∧ effect (w_db run.2))
  end.
Proof.
  intros Hw run effect. destruct (nack_implements s id err e w Hw) as (threshold & Hused & Hi).
  fold run in Hi.
  assert (∀ u db', nack_on_tables threshold id err e (w_db w) = Ok (u, db') → effect db') as Heff.
  { intros u db' (r & Hr & Hst & _ & ->)%nack_on_tables_Ok.
    exists r, threshold. split_and!; [done|done|by apply Hused|done|]. apply nacked_cases. }
  destruct Hi as [Hi|[(x & -> & Hl) [Hdb|(u & db' & Href & Hdb)]]];
    [|by left|right; rewrite Hdb; by eauto].
  destruct (nack_on_tables threshold id err e (w_db w)) as [[u db']|x]; destruct Hi as [-> ->];
    [by eapply Heff|by left].
Qed.

(** A delivery attempt: claimed at [now] for [secs] seconds and nacked. *)
Definition attempt (threshold : Z) (c : Z * Z * string) (r : MessageRow) : MessageRow :=
  nacked threshold c.1.1 c.2 (claim c.1.1 c.1.2 r).

Lemma attempts_before (threshold m : Z) cs r :
  m_status r = pending → m_retry_count r = 0 → m_max_retries r = m → 0 ≤ m →
  Z.of_nat (length cs) < Z.max 1 m → (0 < threshold → Z.of_nat (length cs) < threshold) →
  let r' := foldl (λ r c, attempt threshold c r) r cs in
  m_status r' = pending ∧ m_topic r' = m_topic r ∧
  m_retry_count r' = Z.of_nat (length cs) ∧ m_max_retries r' = m.
Proof.
  intros Hs Hc Hm H0. induction cs as [|c cs IH] using rev_ind; simpl; [done|].
  rewrite length_app, foldl_app. simpl. intros Hlt Hth.
  destruct IH as (Hs' & Ht' & Hc' & Hm'); [lia..|].
  set (r1 := foldl _ r cs) in *. unfold attempt.
  destruct (nacked_cases threshold c.1.1 c.2 (claim c.1.1 c.1.2 r1))
    as (_ & _ & _ & _ & _ & _ & _ & [[? _]|(_ & -> & -> & -> & _ & ->)]); simpl in *.
  - lia.
  - rewrite decide_False by lia. split_and!; [done|done|lia|done].
Qed.

(** [C33] Retries end.  A fresh message with [max_retries = m] whose every delivery is
    nacked stays pending in its topic with one more retry counted each time, and is
    allowed another delivery, until attempt number [K] - the threshold if it is
    positive and not above [max(1, m)], otherwise [max(1, m)] - which moves it to the
    dead-letter topic or marks it failed, whatever the times and errors of the
    attempts. *)
Theorem retries_are_bounded threshold m cs c r :
  m_status r = pending → m_retry_count r = 0 → m_max_retries r = m → 0 ≤ m →
  let dead := bool_decide (0 < threshold ≤ Z.max 1 m) in
  let K := if dead then threshold else Z.max 1 m in
  Z.of_nat (length cs) = K - 1 →
  (∀ n, (n ≤ length cs)%nat →
     let rn := foldl (λ r c, attempt threshold c r) r (take n cs) in
     m_status rn = pending ∧ m_topic rn = m_topic r ∧ m_retry_count rn = Z.of_nat n ∧
     retries_left (m_max_retries rn) (m_retry_count rn)) ∧
  let r' := foldl (λ r c, attempt threshold c r) r (cs ++ [c]) in
  if dead then m_topic r' = m_topic r +:+ ".dlq" ∧ m_status r' = pending ∧
               m_original_topic r' = Some (m_topic r)
  else m_status r' = failed ∧ m_topic r' = m_topic r.
Proof.
  intros Hs Hc Hm H0 dead K Hlen.
  assert (Z.of_nat (length cs) < Z.max 1 m ∧ (0 < threshold → Z.of_nat (length cs) < threshold))
    as [Hlt1 Hlt2].
  { unfold K, dead in Hlen. case_bool_decide; [lia|]. split; lia. }
  split.
  - intros n Hn rn. unfold rn. assert (length (take n cs) = n) as Hlen' by (rewrite length_take; lia).
    destruct (attempts_before threshold m (take n cs) r Hs Hc Hm H0) as (-> & -> & -> & ->);
      rewrite ?Hlen'; [lia|lia|]. split_and!; [done..|]. unfold retries_left. lia.
  - destruct (attempts_before threshold m cs r Hs Hc Hm H0) as (Hs' & Ht' & Hc' & Hm');
      [done..|]. intros r'. unfold r'. rewrite foldl_app. simpl.
    set (r1 := foldl _ r cs) in *. unfold attempt.
    destruct (nacked_cases threshold c.1.1 c.2 (claim c.1.1 c.1.2 r1))
      as (_ & _ & _ & _ & _ & _ & _ & [(?&->&->&_&_&->&_)|(? & -> & _ & _ & _ & ->)]); simpl in *;
      rewrite Ht', Hc' in *; unfold K, dead in *; case_bool_decide; try lia; try done.
    rewrite decide_True by lia. done.
Qed.

(** While a keyed message is being processed a second one with the same topic and
    key can become pending.  A nack that would make the first pending again then
    violates the unique index: it fails, on every call, with nothing changed, so the
    message stays [processing], where no dequeue can reach it. *)
Theorem nack_blocked_by_newer_key s id err e w r j rj :
  coherent w → w_faults w = [] →
  messages (w_db w) !! id = Some r → m_status r = processing → int4 (m_retry_count r + 1) →
  int4 (m_max_retries r) → m_key r ≠ None →
  messages (w_db w) !! j = Some rj → m_status rj = pending → m_topic rj = m_topic r →
  m_key rj = m_key r →
  let threshold := threshold_of s (m_topic r) (w_db w) in
  ¬ 0 < threshold ≤ m_retry_count r + 1 → m_retry_count r + 1 < m_max_retries r →
  (Nack s id err e w).1 = Err (ErrSQL "nack update" UniqueViolation) ∧
  w_db (Nack s id err e w).2 = w_db w ∧
  ∀ now topic, ¬ eligible now topic r.
Proof.
  intros Hw Hf Hr Hst Hi1 Hi2 Hkey Hj Hsj Htj Hkj threshold Hth Hmax.
  destruct (nack_implements s id err e w Hw) as (th & Hused & Hi).
  destruct (Hused r Hr) as [Hth'|[_ Hf']]; [fold threshold in Hth'; subst th|done].
  apply implements_calm in Hi; [|apply Nack_calm|done].
  assert (nack_on_tables threshold id err e (w_db w) =
    Err (ErrSQL "nack update" UniqueViolation)) as Heq.
  { unfold nack_on_tables. rewrite Hr, decide_False by (by rewrite Hst; intros H; apply H).
    unfold update_message. rewrite Hr.
    destruct (nacked_cases threshold (pg_now e) err r)
      as (_ & _ & Hk & _ & _ & _ & _ & [[? _]|(_ & Ht & Hc & Hm & _ & Hs)]); [done|].
    rewrite decide_False in Hs by lia.
    destruct ((0 <? threshold) && _) eqn:Hb; reflect_bools; [lia|].
    rewrite decide_True by (rewrite Hc, Hm; done).
    rewrite decide_False; [done|]. intros Hfree. apply (Hfree j rj Hj).
    - intros ->. congruence.
    - unfold key_clash. rewrite Hs, Hsj, Ht, Htj, Hk, Hkj. done. }
  rewrite Heq in Hi. destruct Hi as [-> ->]. split_and!; [done..|].
  intros now topic (_ & Hp & _). congruence.
Qed.

(** ** Dead letters *)

(** The dead-letter round trip: a [Nack] that promotes a message followed at any
    time by a [Requeue] gives back the message in its original topic, with the same
    id, payload, metadata, key, age and expiry, pending and visible, with no retry
    used and the topic's threshold as its new [max_retries]; only the error text and
    the modification time tell what happened. *)
Theorem promote_requeue_roundtrip s id err e e' w w1 w2 w1' r :
  coherent w → w_faults w = [] → messages (w_db w) !! id = Some r →
  0 < threshold_of s (m_topic r) (w_db w) ≤ m_retry_count r + 1 → m_topic r ≠ "" →
  Nack s id err e w = (Ok tt, w1) →
  coherent w1' → w_faults w1' = [] → w_db w1' = w_db w1 →
  Requeue s id e' w1' = (Ok tt, w2) →
  messages (w_db w2) =
    <[id := mkMessageRow (m_topic r) (m_payload r) (m_metadata r) (m_key r) pending 0
              (threshold_of s (m_topic r) (w_db w)) (Some err) None (m_expires_at r)
              (m_created_at r) (pg_now e') None None]> (messages (w_db w)) ∧
  message_deliveries (w_db w2) = message_deliveries (w_db w).
Proof.
  intros Hw Hf Hr Hth Hne Hnack Hw1 Hf1 Hdb1 Hreq.
  destruct (nack_implements s id err e w Hw) as (th & Hused & Hi).
  destruct (Hused r Hr) as [->|[_ Hf']]; [|done]. rewrite Hnack in Hi.
  apply implements_Ok, nack_on_tables_Ok in Hi as (r0 & Hr0 & _ & _ & Hdb).
  rewrite Hr in Hr0. injection Hr0 as <-.
  set (th := threshold_of s (m_topic r) (w_db w)) in *.
  assert (nacked th (pg_now e) err r = promote (pg_now e) (m_topic r) err r) as Hprom.
  { unfold nacked. destruct (_ && _) eqn:Hb; [done|].
    apply andb_false_iff in Hb as [?|?]; reflect_bools; lia. }
  rewrite Hprom in Hdb.
  destruct (requeue_implements s id e' w1' Hw1) as (th' & Hused' & Hi').
  rewrite Hreq in Hi'. apply implements_Ok in Hi'. rewrite Hdb1, Hdb in *.
  unfold requeue_on_tables, update_message, sql_result in Hi'. simpl in Hi', Hused'.
  rewrite lookup_insert_eq in Hi'. simpl in Hi'.
  specialize (Hused' _ (m_topic r) (lookup_insert_eq _ _ _) eq_refl).
  destruct Hused' as [->|[_ ?]]; [|done].
  destruct (m_topic r) as [|ch topic] eqn:Ht; [done|].
  case_decide; [|done]. case_decide; [|done].
  injection Hi' as <-. simpl. rewrite insert_insert_eq. split; [|done].
  f_equal. unfold requeue_row, promote. simpl. f_equal.
  unfold threshold_of. simpl. by rewrite Hdb1.
Qed.

(** ** Consumer groups *)

Lemma count_deliveries_0 id db :
  count_deliveries id db = 0 ↔ ∀ g, message_deliveries db !! (id, g) = None.
Proof.
  unfold count_deliveries. rewrite (Nat2Z.inj_iff _ 0), map_size_empty_iff, map_empty_filter.
  split.
  - intros H g. destruct (message_deliveries db !! (id, g)) as [d|] eqn:Hd; [|done].
    by destruct (H (id, g) d Hd).
  - intros H [i g] d Hd. simpl. intros ->. by rewrite H in Hd.
Qed.

Lemma delete_delivery_ok k db : db_ok db → db_ok (delete_delivery k db).
Proof.
  intros Hok. apply set_deliveries_ok; [| |done]; destruct Hok as [_ Hfk Hst].
  - intros i g d [_ Hd]%lookup_delete_Some. by eapply Hfk.
  - intros k' d [_ Hd]%lookup_delete_Some. by eapply Hst.
Qed.

(** The effect of an acknowledgement by a group, the last one or not. *)
Definition group_settled (id : uuid) (group : string) (r : MessageRow) (d : DeliveryRow)
    (now : Z) (db db' : DB) : Prop :=
  ((∀ g, g ≠ group → message_deliveries db !! (id, g) = None) ∧
   settled id (m_topic r) (log_of_delivery r d) now db db') ∨
  ((∃ g, g ≠ group ∧ is_Some (message_deliveries db !! (id, g))) ∧
   db' = delete_delivery (id, group) db).

Lemma sql_join_Some id group db i r d :
  sql_join id group db = Some (i, (r, d)) ↔
  i = id ∧ messages db !! id = Some r ∧ message_deliveries db !! (id, group) = Some d.
Proof.
  unfold sql_join. destruct (messages db !! id) as [r'|]; simpl; [|naive_solver].
  destruct (message_deliveries db !! (id, group)) as [d'|]; simpl; naive_solver.
Qed.

Lemma ack_group_on_tables_Ok id group e db u db' :
  db_ok db → ack_group_on_tables id group e db = Ok (u, db') →
  ∃ r d, messages db !! id = Some r ∧ message_deliveries db !! (id, group) = Some d ∧
    d_status d = processing ∧ group_settled id group r d (pg_now e) db db'.
Proof.
  unfold ack_group_on_tables. intros Hok H.
  destruct (sql_join id group db) as [[i [r d]]|] eqn:Hj; [|done].
  apply sql_join_Some in Hj as (-> & Hr & Hd). case_decide as Hst; [|done].
  exists r, d. split_and!; [done..|]. set (db1 := delete_delivery (id, group) db) in *.
  pose proof (delete_delivery_ok (id, group) db Hok) as Hok1. fold db1 in Hok1.
  assert (∀ g, g ≠ group → message_deliveries db1 !! (id, g) = message_deliveries db !! (id, g))
    as Hother by (intros g Hg; unfold db1; simpl; rewrite lookup_delete_ne; congruence).
  destruct (count_deliveries id db1 =? 0) eqn:Hc; reflect_bools.
  - rewrite count_deliveries_0 in Hc. left. split; [intros g Hg; by rewrite <-Hother|].
    destruct (archive_on_tables _ _ _ _ _) as [db2|] eqn:Ha; [|done]. injection H as _ <-.
    destruct (settled_intro _ _ _ _ _ _ Hok1 Ha) as (Hm' & Hd' & Hl').
    split_and!; [done| |done]. intros i g. rewrite Hd'. case_decide; [done|].
    unfold db1. simpl. rewrite lookup_delete_ne; congruence.
  - right. injection H as _ <-. split; [|done].
    destruct (decide (map_Forall (λ k _, k.1 ≠ id) (message_deliveries db1))) as [Hall|Hall].
    + destruct Hc. apply count_deliveries_0. intros g.
      destruct (message_deliveries db1 !! (id, g)) as [d'|] eqn:Hd'; [|done].
      by destruct (Hall _ _ Hd').
    + apply map_not_Forall in Hall as ([i g] & d' & Hd' & Hi%dec_stable); [|apply _].
      simpl in Hi. subst i. exists g. assert (g ≠ group) as Hg.
      { intros ->. unfold db1 in Hd'. simpl in Hd'. by rewrite lookup_delete_eq in Hd'. }
      split; [done|]. rewrite <-Hother by done. eauto.
Qed.

(** [AckForGroup]: on success this group's delivery was [processing]; while another
    group still has a delivery of the message only this delivery disappears, and with
    the last one the message itself goes, archived (with the counters of that last
    delivery) if and only if its topic is replayable.  On an error nothing changed,
    unless a commit was lost. *)
Theorem group_ack_settles id group e w :
  db_ok (w_db w) →
  let run := AckForGroup id group e w in
  let effect db' := ∃ r d, messages (w_db w) !! id = Some r ∧
    message_deliveries (w_db w) !! (id, group) = Some d ∧ d_status d = processing ∧
    group_settled id group r d (pg_now e) (w_db w) db' in
  match run.1 with
  | Ok _ => effect (w_db run.2)
  | Err x => w_db run.2 = w_db w ∨ (lost x ∧ effect (w_db run.2))
  end.
Proof.
  intros Hok run effect. pose proof (ack_group_implements id group e w) as Hi. fold run in Hi.
  assert (∀ u db', ack_group_on_tables id group e (w_db w) = Ok (u, db') → effect db') as Heff
    by (intros u db'; by apply ack_group_on_tables_Ok).
  destruct Hi as [Hi|[(x & -> & Hl) [Hdb|(u & db' & Href & Hdb)]]];
    [|by left|right; rewrite Hdb; by eauto].
  destruct (ack_group_on_tables id group e (w_db w)) as [[u db']|x]; destruct Hi as [-> ->];
    [by eapply Heff|by left].
Qed.

(** [NackForGroup] touches this group's delivery only: below the threshold it is
    pending and visible again, for ever when its [max_retries] is 0; it fails when the
    threshold or its [max_retries] is reached.  The message stays where it is; no
    dead-letter copy is made. *)
Theorem group_nack_fates s id group err e w w' :
  coherent w → NackForGroup s id group err e w = (Ok tt, w') →
  ∃ r d threshold d', messages (w_db w) !! id = Some r ∧
    message_deliveries (w_db w) !! (id, group) = Some d ∧ d_status d = processing ∧
    threshold_used s (m_topic r) w threshold ∧
    w_db w' = set_deliveries (<[(id, group):=d']> (message_deliveries (w_db w))) (w_db w) ∧
    d_retry_count d' = d_retry_count d + 1 ∧ d_max_retries d' = d_max_retries d ∧
    d_last_error d' = Some err ∧
    (d_status d' = failed ↔
       0 < threshold ≤ d_retry_count d' ∨ 0 < d_max_retries d ≤ d_retry_count d') ∧
    (d_status d' ≠ failed → d_status d' = pending ∧ d_visibility_timeout d' = None).
Proof.
  intros Hw Hrun. destruct (nack_group_implements s id group err e w Hw) as (th & Hused & Hi).
  rewrite Hrun in Hi. apply implements_Ok in Hi. unfold nack_group_on_tables in Hi.
  destruct (sql_join id group (w_db w)) as [[i [r d]]|] eqn:Hj; [|done].
  apply sql_join_Some in Hj as (-> & Hr & Hd). case_decide as Hst; [done|].
  unfold sql_result, update_delivery in Hi. rewrite Hd in Hi. case_decide; [|done].
  injection Hi as <-. exists r, d, th, (nacked_delivery th (pg_now e) err d).
  split_and!; [done|done|done|by apply Hused|done|..];
    unfold nacked_delivery; destruct (_ && _) eqn:Hb; simpl; try done.
  - reflect_bools. split; [left; lia|done].
  - case_match eqn:Hb2; simpl; reflect_bools.
    + split; [right; lia|done].
    + split; [done|]. apply andb_false_iff in Hb as [?|?], Hb2 as [?|?]; reflect_bools; lia.
  - intros ?. by case_match.
Qed.

(** Every group acknowledges in turn. *)
Fixpoint ack_groups (id : uuid) (groups : list string) : M unit :=
  match groups with
  | [] => mret tt
  | g :: gs => AckForGroup id g;; ack_groups id gs
  end.

Lemma ack_groups_app id gs gs' e w :
  ack_groups id (gs ++ gs') e w = (ack_groups id gs;; ack_groups id gs') e w.
Proof.
  revert w. induction gs as [|g gs IH]; intros w; [done|]. simpl.
  rewrite !run_bind. destruct (AckForGroup id g e w) as [[]]; [by rewrite IH|done].
Qed.

Lemma ack_group_on_tables_total id group e db r d :
  messages db !! id = Some r → message_deliveries db !! (id, group) = Some d →
  d_status d = processing → message_log db !! (m_topic r, pg_now e, id) = None →
  ∃ db', ack_group_on_tables id group e db = Ok (tt, db').
Proof.
  intros Hr Hd Hst Hl. unfold ack_group_on_tables, sql_join. rewrite Hr. simpl. rewrite Hd. simpl.
  rewrite decide_True by done. case_match; [|by eexists].
  unfold archive_on_tables, insert_log. simpl. rewrite Hl. destruct (is_replayable _ _); by eexists.
Qed.

(** One acknowledgement of [all_groups_ack], without faults. *)
Lemma ack_group_step id group e w r d :
  db_ok (w_db w) → w_faults w = [] → messages (w_db w) !! id = Some r →
  message_log (w_db w) !! (m_topic r, pg_now e, id) = None →
  message_deliveries (w_db w) !! (id, group) = Some d → d_status d = processing →
  ∃ w', AckForGroup id group e w = (Ok tt, w') ∧ w_faults w' = [] ∧
    group_settled id group r d (pg_now e) (w_db w) (w_db w').
Proof.
  intros Hok Hf Hr Hl Hd Hst.
  destruct (ack_group_on_tables_total id group e (w_db w) r d) as [db' Href]; [done..|].
  pose proof (implements_calm _ _ _ _ (ack_group_implements id group e w)
    (AckForGroup_calm id group) Hf) as Hrun.
  destruct (AckForGroup_calm id group e w Hf) as [Hf' _].
  rewrite Href in Hrun. destruct Hrun as [Hrun Hdb].
  exists (AckForGroup id group e w).2. split; [by apply run_eta|]. split; [done|].
  rewrite Hdb. apply ack_group_on_tables_Ok in Href as (r' & d' & Hr' & Hd' & _ & Hs); [|done].
  by simplify_eq.
Qed.

(** Before the last group, only deliveries disappear. *)
Lemma ack_groups_before id gs rest e w r :
  db_ok (w_db w) → w_faults w = [] → NoDup (gs ++ rest) → rest ≠ [] →
  messages (w_db w) !! id = Some r →
  message_log (w_db w) !! (m_topic r, pg_now e, id) = None →
  (∀ g, g ∈ gs ++ rest ↔ is_Some (message_deliveries (w_db w) !! (id, g))) →
  (∀ g d, message_deliveries (w_db w) !! (id, g) = Some d → d_status d = processing) →
  ∃ w' ds, ack_groups id gs e w = (Ok tt, w') ∧ w_faults w' = [] ∧
    w_db w' = set_deliveries ds (w_db w) ∧ db_ok (w_db w') ∧
    ∀ g, ds !! (id, g) = if decide (g ∈ gs) then None
                         else message_deliveries (w_db w) !! (id, g).
Proof.
  revert w. induction gs as [|g gs IH]; intros w Hok Hf Hnd Hne Hr Hl Hg Hst; simpl.
  { exists w, (message_deliveries (w_db w)). split_and!; try done. by destruct (w_db w). }
  destruct (proj1 (Hg g)) as [d Hd]; [by left|].
  destruct (ack_group_step id g e w r d) as (w1 & Hrun & Hf1 & Hset); [by eauto..|].
  simpl in Hnd. apply NoDup_cons in Hnd as [Hgn Hnd].
  destruct Hset as [[Hnone _]|[_ Hdb]].
  { destruct rest as [|g' rest]; [done|].
    destruct (proj1 (Hg g')) as [d' Hd']; [right; apply elem_of_app; right; by left|].
    rewrite Hnone in Hd'; [done|]. intros ->. apply Hgn, elem_of_app. right. by left. }
  rewrite run_bind, Hrun.
  assert (∀ g', message_deliveries (w_db w1) !! (id, g') =
    if decide (g' = g) then None else message_deliveries (w_db w) !! (id, g')) as Hlk.
  { intros g'. rewrite Hdb. simpl. case_decide as Heq; [subst; apply lookup_delete_eq|].
    apply lookup_delete_ne. congruence. }
  destruct (IH w1) as (w2 & ds & Hrun2 & Hf2 & Hdb2 & Hok2 & Hds).
  - rewrite Hdb. by apply delete_delivery_ok.
  - done.
  - done.
  - done.
  - by rewrite Hdb.
  - by rewrite Hdb.
  - intros g'. rewrite Hlk. case_decide as Heq.
    + subst. split; [done|by intros [? ?]].
    + rewrite <-Hg. simpl. rewrite elem_of_cons. naive_solver.
  - intros g' d'. rewrite Hlk. case_decide; [done|]. apply Hst.
  - exists w2, ds. split_and!; try done.
    + rewrite Hdb2, Hdb. done.
    + intros g'. rewrite Hds, Hlk. repeat case_decide; set_solver.
Qed.

(** [C7] Fan-out: the groups that have a delivery of a message, all of them processing
    it, acknowledge it in any order; the message stays untouched until the last one
    has done so, and is then gone with no delivery left behind. *)
Theorem all_groups_ack id groups e w r :
  db_ok (w_db w) → w_faults w = [] → NoDup groups → groups ≠ [] →
  messages (w_db w) !! id = Some r →
  message_log (w_db w) !! (m_topic r, pg_now e, id) = None →
  (∀ g, g ∈ groups ↔ is_Some (message_deliveries (w_db w) !! (id, g))) →
  (∀ g d, message_deliveries (w_db w) !! (id, g) = Some d → d_status d = processing) →
  (∀ n, (n < length groups)%nat →
     let run := ack_groups id (take n groups) e w in
     run.1 = Ok tt ∧ messages (w_db run.2) = messages (w_db w)) ∧
  let run := ack_groups id groups e w in
  run.1 = Ok tt ∧ messages (w_db run.2) = delete id (messages (w_db w)) ∧
  (∀ g, message_deliveries (w_db run.2) !! (id, g) = None) ∧
  (is_replayable (m_topic r) (w_db w) = true →
   is_Some (message_log (w_db run.2) !! (m_topic r, pg_now e, id))).
Proof.
  intros Hok Hf Hnd Hne Hr Hl Hg Hst. split.
  - intros n Hn run. destruct (ack_groups_before id (take n groups) (drop n groups) e w r)
      as (w' & ds & Hrun & _ & Hdb & _); rewrite ?take_drop; try done.
    { intros Hdrop. apply (f_equal length) in Hdrop. rewrite length_drop in Hdrop.
      simpl in Hdrop. lia. }
    unfold run. rewrite Hrun. simpl. by rewrite Hdb.
  - destruct groups as [|glast gs _] using rev_ind; [done|]. intros run.
    destruct (ack_groups_before id gs [glast] e w r)
      as (w' & ds & Hrun & Hf' & Hdb & Hok' & Hds); try done.
    apply NoDup_app in Hnd as (_ & Hdis & _).
    assert (glast ∉ gs) as Hnin by (intros Hin; apply (Hdis _ Hin); by left).
    destruct (proj1 (Hg glast)) as [d Hd]; [apply elem_of_app; right; by left|].
    destruct (ack_group_step id glast e w' r d) as (w2 & Hrun2 & _ & Hset).
    { done. } { done. } { by rewrite Hdb. } { by rewrite Hdb. }
    { rewrite Hdb. simpl. rewrite Hds. by rewrite decide_False. } { by eapply Hst. }
    assert (run = (Ok tt, w2)) as ->.
    { unfold run. rewrite ack_groups_app, run_bind, Hrun. simpl. by rewrite run_bind, Hrun2. }
    simpl. destruct Hset as [[_ (Hm & Hd' & Hl')]|[(g & Hgne & [d' Hd']) _]].
    + split_and!; [done|by rewrite Hm, Hdb| |].
      * intros g. rewrite Hd'. by rewrite decide_True.
      * intros Hrep. rewrite Hl', Hdb. unfold is_replayable in *. simpl. rewrite Hrep.
        rewrite lookup_insert_eq. eauto.
    + rewrite Hdb in Hd'. simpl in Hd'. rewrite Hds in Hd'. case_decide as Hin; [done|].
      assert (g ∈ gs ++ [glast]) as Hin' by (apply Hg; eauto).
      apply elem_of_app in Hin' as [?|?%list_elem_of_singleton]; done.
Qed.
End lifecycle.

#[export] Hint Resolve update_message_no_loss update_delivery_no_loss insert_log_no_loss
  effectiveDLQThreshold_calm archiveToLog_calm Ack_calm Nack_calm AckForGroup_calm
  NackForGroup_calm Requeue_calm : queueti.
