(* ===== verification/Concurrency.v ===== *)
(** * Acknowledgements by several groups at the same time

    [AckForGroup] (lifecycle.go) as a transaction that runs beside others under
    PostgreSQL's READ COMMITTED: each statement sees what is committed when it starts
    and the transaction's own writes; [FOR UPDATE OF md] makes a second transaction on
    the same delivery wait until the first has ended.  [Lifecycle.AckForGroup] is such a
    transaction running alone. *)

From S2P Require Import Prelude.
From S2P Require Import Store.
From S2P Require Import Avro.
From S2P Require Import Runtime.
From S2P Require Import Dequeue.
From S2P Require Import Lifecycle.

Section concurrency.
Context `{PG : Postgres} `{ST : Storage}.

(** ** A transaction in progress *)

(** What it has written and not committed. *)
Inductive Write :=
| DeleteDelivery (k : uuid * string)
| InsertLog (k : string * Z * uuid) (l : LogRow)
| DeleteMessage (i : uuid).

Definition apply_write (db : DB) (wr : Write) : DB :=
  match wr with
  | DeleteDelivery k => delete_delivery k db
  | InsertLog k l => set_log (<[k:=l]> (message_log db)) db
  | DeleteMessage i => delete_message i db
  end.

(** The next statement of [AckForGroup], with the rows it has read so far; [Gone] and
    [RolledBack] are the two failures. *)
Inductive AckState :=
| Fetch
| DeleteOwn (r : MessageRow) (d : DeliveryRow)
| Count (r : MessageRow) (d : DeliveryRow)
| Archive (r : MessageRow) (d : DeliveryRow)
| Remove (r : MessageRow)
| Commit (r : MessageRow)
| Acked
| Gone
| RolledBack.

Record Txn := mkTxn {
  t_group : string;
  t_now : Z;
  t_state : AckState;
  t_writes : list Write;
}.

(** It holds the lock of its delivery. *)
Definition holds_lock (s : AckState) : bool :=
  match s with
  | DeleteOwn _ _ | Count _ _ | Archive _ _ | Remove _ | Commit _ => true
  | _ => false
  end.

Definition goto (s : AckState) (ws : list Write) (t : Txn) : Txn :=
  mkTxn (t_group t) (t_now t) s ws.

(** What a statement of [t] sees. *)
Definition snapshot (db : DB) (t : Txn) : DB := foldl apply_write db (t_writes t).

(** One statement of [AckForGroup(id, group)]; a failed archive rolls back. *)
Definition ack_statement (id : uuid) (db : DB) (t : Txn) : Txn :=
  let seen := snapshot db t in
  let k := (id, t_group t) in
  match t_state t with
  | Fetch =>
      match sql_join id (t_group t) seen with
      | Some (_, (r, d)) =>
          if decide (d_status d = processing)
          then goto (DeleteOwn r d) (t_writes t) t else goto Gone [] t
      | None => goto Gone [] t
      end
  | DeleteOwn r d => goto (Count r d) (t_writes t ++ [DeleteDelivery k]) t
  | Count r d =>
      goto (if count_deliveries id seen =? 0 then Archive r d else Commit r) (t_writes t) t
  | Archive r d =>
      if is_replayable (m_topic r) seen then
        match message_log seen !! (m_topic r, t_now t, id) with
        | Some _ => goto RolledBack [] t
        | None =>
            goto (Remove r)
              (t_writes t ++ [InsertLog (m_topic r, t_now t, id) (log_of_delivery r d)]) t
        end
      else goto (Remove r) (t_writes t) t
  | Remove r => goto (Commit r) (t_writes t ++ [DeleteMessage id]) t
  | _ => t
  end.

(** ** Transactions side by side *)

Record Cluster := mkCluster {
  committed : DB;
  txns : gmap nat Txn;
}.

(** No other transaction holds the lock of [t]'s delivery. *)
Definition lock_free (c : Cluster) (n : nat) (g : string) : Prop :=
  ∀ j t, txns c !! j = Some t → j ≠ n → t_group t = g → holds_lock (t_state t) = false.

Inductive ack_step (id : uuid) : Cluster → Cluster → Prop :=
| step_statement c n t :
    txns c !! n = Some t →
    (t_state t = Fetch → lock_free c n (t_group t)) →
    (∀ r, t_state t ≠ Commit r) →
    ack_step id c (mkCluster (committed c) (<[n:=ack_statement id (committed c) t]> (txns c)))
| step_commit c n t r :
    txns c !! n = Some t → t_state t = Commit r →
    ack_step id c (mkCluster (snapshot (committed c) t) (<[n:=goto Acked [] t]> (txns c)))
| step_rollback c n t :
    txns c !! n = Some t → t_state t ≠ Acked →
    ack_step id c (mkCluster (committed c) (<[n:=goto RolledBack [] t]> (txns c))).

(** A call that has not issued its first statement. *)
Definition calling (group : string) (now : Z) : Txn := mkTxn group now Fetch [].

(** ** Alone, a transaction does what [AckForGroup] does *)

Fixpoint statements (fuel : nat) (id : uuid) (db : DB) (t : Txn) : Txn :=
  match fuel with O => t | S f => statements f id db (ack_statement id db t) end.

(** [calling] for five statements, then the commit. *)
Definition run_alone (id : uuid) (group : string) (now : Z) (db : DB) : AckState * DB :=
  let t := statements 5 id db (calling group now) in
  match t_state t with
  | Commit _ => (Acked, snapshot db t)
  | s => (s, db)
  end.

(** The statements one by one. *)
Section statements.
Context (id : uuid) (db : DB) (g : string) (now : Z).
Implicit Types (ws : list Write) (r : MessageRow) (d : DeliveryRow).

Lemma statements_S f t : statements (S f) id db t = statements f id db (ack_statement id db t).
Proof. done. Qed.
Lemma at_fetch ws :
  ack_statement id db (mkTxn g now Fetch ws) =
  match sql_join id g (snapshot db (mkTxn g now Fetch ws)) with
  | Some (_, (r, d)) => if decide (d_status d = processing)
                        then mkTxn g now (DeleteOwn r d) ws else mkTxn g now Gone []
  | None => mkTxn g now Gone []
  end.
Proof. done. Qed.
Lemma at_delete r d ws :
  ack_statement id db (mkTxn g now (DeleteOwn r d) ws) =
  mkTxn g now (Count r d) (ws ++ [DeleteDelivery (id, g)]).
Proof. done. Qed.
Lemma at_count r d ws :
  ack_statement id db (mkTxn g now (Count r d) ws) =
  mkTxn g now (if count_deliveries id (snapshot db (mkTxn g now (Count r d) ws)) =? 0
               then Archive r d else Commit r) ws.
Proof. done. Qed.
Lemma at_archive r d ws :
  let seen := snapshot db (mkTxn g now (Archive r d) ws) in
  ack_statement id db (mkTxn g now (Archive r d) ws) =
  if is_replayable (m_topic r) seen then
    match message_log seen !! (m_topic r, now, id) with
    | Some _ => mkTxn g now RolledBack []
    | None => mkTxn g now (Remove r)
                (ws ++ [InsertLog (m_topic r, now, id) (log_of_delivery r d)])
    end
  else mkTxn g now (Remove r) ws.
Proof. done. Qed.
Lemma statements_idle f s ws :
  match s with Commit _ | Acked | Gone | RolledBack => True | _ => False end →
  statements f id db (mkTxn g now s ws) = mkTxn g now s ws.
Proof. intros Hs. induction f as [|f IH]; [done|]. simpl. by destruct s. Qed.
End statements.

Lemma run_alone_on_tables id group e db :
  match ack_group_on_tables id group e db with
  | Ok (_, db') => run_alone id group (pg_now e) db = (Acked, db')
  | Err ErrNotFound => run_alone id group (pg_now e) db = (Gone, db)
  | Err _ => run_alone id group (pg_now e) db = (RolledBack, db)
  end.
Proof.
  unfold run_alone, ack_group_on_tables, calling.
  rewrite statements_S, at_fetch. unfold snapshot. cbn [foldl t_writes].
  destruct (sql_join id group db) as [[i [r d]]|]; [|by rewrite statements_idle].
  case_decide as Hst; [|by rewrite statements_idle].
  rewrite statements_S, at_delete, statements_S, at_count. unfold snapshot.
  cbn [foldl t_writes apply_write app].
  destruct (count_deliveries id (delete_delivery (id, group) db) =? 0);
    [|by rewrite statements_idle].
  rewrite statements_S, at_archive. unfold snapshot, archive_on_tables, insert_log.
  cbn [foldl t_writes apply_write app].
  destruct (is_replayable (m_topic r) (delete_delivery (id, group) db)); [|done].
  destruct (message_log (delete_delivery (id, group) db) !! (m_topic r, pg_now e, id));
    [by rewrite statements_idle|done].
Qed.

(** A transaction whose statements no other transaction separates ends, after five
    statements and the commit, with the answer and the tables of [AckForGroup]. *)
Theorem run_alone_is_AckForGroup id group e w :
  w_faults w = [] →
  let run := AckForGroup id group e w in
  run_alone id group (pg_now e) (w_db w) =
    (match run.1 with Ok _ => Acked | Err ErrNotFound => Gone | Err _ => RolledBack end,
     w_db run.2).
Proof.
  intros Hf run. pose proof (run_alone_on_tables id group e (w_db w)) as Hr.
  pose proof (implements_calm _ _ _ _ (ack_group_implements id group e w)
    (AckForGroup_calm id group) Hf) as Hi. fold run in Hi.
  destruct (ack_group_on_tables id group e (w_db w)) as [[u db']|x]; destruct Hi as [-> ->];
    [done|by destruct x].
Qed.

(** ** What holds under every interleaving *)

Definition is_log (wr : Write) : Prop := match wr with InsertLog _ _ => True | _ => False end.

(** What a transaction has written when it is in a state. *)
Definition writes_of (id : uuid) (t : Txn) : Prop :=
  let own := DeleteDelivery (id, t_group t) in
  match t_state t with
  | Fetch | DeleteOwn _ _ | Acked | Gone | RolledBack => t_writes t = []
  | Count _ _ | Archive _ _ => t_writes t = [own]
  | Remove _ => ∃ lg, t_writes t = own :: lg ∧ Forall is_log lg
  | Commit _ => t_writes t = [own] ∨
      ∃ lg, t_writes t = own :: lg ++ [DeleteMessage id] ∧ Forall is_log lg
  end.

Definition removes (ws : list Write) : bool :=
  existsb (λ wr, match wr with DeleteMessage _ => true | _ => false end) ws.

(** It has counted no delivery besides its own. *)
Definition was_last (t : Txn) : Prop :=
  match t_state t with
  | Archive _ _ | Remove _ => True
  | Commit _ => removes (t_writes t) = true
  | _ => False
  end.

Record cluster_ok (id : uuid) (db0 : DB) (c : Cluster) : Prop := {
  ok_tables : db_ok (committed c);
  ok_writes n t : txns c !! n = Some t → writes_of id t;
  ok_locked n t : txns c !! n = Some t → holds_lock (t_state t) = true →
    is_Some (message_deliveries (committed c) !! (id, t_group t));
  ok_exclusive n m t u : txns c !! n = Some t → txns c !! m = Some u →
    holds_lock (t_state t) = true → holds_lock (t_state u) = true →
    t_group t = t_group u → n = m;
  ok_last n t g : txns c !! n = Some t → was_last t → g ≠ t_group t →
    message_deliveries (committed c) !! (id, g) = None;
  ok_acked n t : txns c !! n = Some t → t_state t = Acked →
    message_deliveries (committed c) !! (id, t_group t) = None;
  ok_once n m t u : txns c !! n = Some t → txns c !! m = Some u →
    t_state t = Acked → t_state u = Acked → t_group t = t_group u → n = m;
  ok_message : messages (committed c) !! id = messages db0 !! id ∨
    (messages (committed c) !! id = None ∧
     ∀ g, message_deliveries (committed c) !! (id, g) = None);
  ok_delivered g : message_deliveries (committed c) !! (id, g) =
      message_deliveries db0 !! (id, g) ∨
    (message_deliveries (committed c) !! (id, g) = None ∧
     ∃ n t, txns c !! n = Some t ∧ t_group t = g ∧ t_state t = Acked);
  ok_others i g : i ≠ id → messages (committed c) !! i = messages db0 !! i ∧
    message_deliveries (committed c) !! (i, g) = message_deliveries db0 !! (i, g);
}.

Lemma logs_frame lg db : Forall is_log lg →
  messages (foldl apply_write db lg) = messages db ∧
  message_deliveries (foldl apply_write db lg) = message_deliveries db.
Proof.
  intros Hlg. revert db. induction Hlg as [|[] lg Hw _ IH]; intros db; simpl in *; try done.
  destruct (IH (set_log (<[k:=l]> (message_log db)) db)) as [-> ->]. done.
Qed.

Lemma apply_write_ok db wr : db_ok db → db_ok (apply_write db wr).
Proof.
  destruct wr; simpl; [apply delete_delivery_ok| |apply delete_messages_where_ok].
  by intros [? ? ?].
Qed.

Lemma snapshot_ok db t : db_ok db → db_ok (snapshot db t).
Proof.
  unfold snapshot. revert db. induction (t_writes t) as [|wr ws IH]; intros db Hdb; [done|].
  by apply IH, apply_write_ok.
Qed.

(** The tables a commit leaves. *)
Lemma snapshot_commit id db t r :
  db_ok db → writes_of id t → t_state t = Commit r →
  (∀ i g, message_deliveries (snapshot db t) !! (i, g) =
     if decide (i = id ∧ (g = t_group t ∨ removes (t_writes t) = true)) then None
     else message_deliveries db !! (i, g)) ∧
  messages (snapshot db t) =
    if removes (t_writes t) then delete id (messages db) else messages db.
Proof.
  intros Hdb Hw Hst. unfold writes_of in Hw. rewrite Hst in Hw. unfold snapshot.
  destruct Hw as [->|(lg & -> & Hlg)]; cbn [foldl apply_write app].
  - split; [|done]. intros i g. simpl. rewrite lookup_delete.
    repeat case_decide; naive_solver.
  - rewrite foldl_app. cbn [foldl apply_write].
    assert (removes (DeleteDelivery (id, t_group t) :: lg ++ [DeleteMessage id]) = true)
      as -> by (unfold removes; simpl; rewrite existsb_app; apply orb_true_iff; by right).
    destruct (logs_frame lg (delete_delivery (id, t_group t) db) Hlg) as [Hm Hd].
    rewrite delete_message_messages, Hm. split; [|done]. intros i g.
    rewrite delete_message_deliveries, Hd;
      [|by apply (snapshot_ok _ (mkTxn "" 0 Fetch lg)), delete_delivery_ok].
    simpl. rewrite lookup_delete.
    repeat case_decide; naive_solver.
Qed.

(** The calls have not started. *)
Definition all_calling (c : Cluster) : Prop :=
  ∀ n t, txns c !! n = Some t → t_state t = Fetch ∧ t_writes t = [].

Lemma cluster_ok_init id c :
  db_ok (committed c) → all_calling c → cluster_ok id (committed c) c.
Proof.
  intros Hdb Hc.
  split; [done|intros n t [Hst Hw]%Hc|intros n t [Hst _]%Hc| |intros n t g [Hst _]%Hc|intros n t [Hst _]%Hc| |by left|by left|done].
  - unfold writes_of. by rewrite Hst.
  - by rewrite Hst.
  - intros n m t u [Hst _]%Hc. by rewrite Hst.
  - unfold was_last. by rewrite Hst.
  - by rewrite Hst.
  - intros n m t u [Hst _]%Hc. by rewrite Hst.
Qed.

(** A statement keeps the transaction's group, its record of writes, and needs its
    delivery only to be there when it locks it. *)
Lemma ack_statement_ok id db t :
  writes_of id t → (∀ r, t_state t ≠ Commit r) → 
  let t' := ack_statement id db t in
  writes_of id t' ∧ t_group t' = t_group t ∧
  (t_state t' = Acked ↔ t_state t = Acked) ∧
  (holds_lock (t_state t') = true →
     holds_lock (t_state t) = true ∨
     t_state t = Fetch ∧ is_Some (message_deliveries db !! (id, t_group t))) ∧
  (was_last t' → was_last t ∨
     ∀ g, g ≠ t_group t → message_deliveries db !! (id, g) = None).
Proof.
  destruct t as [g now st ws]. unfold writes_of. simpl. intros Hw Hst.
  destruct st as [|r d|r d|r d|r|r| | |]; try by destruct (Hst r).
  - subst ws. rewrite at_fetch. unfold snapshot. simpl.
    destruct (sql_join id g db) as [[i [r d]]|] eqn:Hj; [|by split_and!].
    apply sql_join_Some in Hj as (-> & _ & Hd).
    case_decide; simpl; split_and!; try done. intros _. right. eauto.
  - subst ws. rewrite at_delete. split_and!; try done. by left.
  - subst ws. rewrite at_count. unfold snapshot. cbn [foldl t_writes apply_write].
    destruct (count_deliveries id (delete_delivery (id, g) db) =? 0) eqn:Hc; simpl;
      split_and!; try done; try by left.
    intros _. right. intros g' Hg. reflect_bools.
    rewrite count_deliveries_0 in Hc. specialize (Hc g'). simpl in Hc.
    rewrite lookup_delete_ne in Hc; congruence.
  - subst ws. rewrite at_archive. unfold was_last. repeat case_match; simpl;
      split_and!; try done; try (by left); eexists _; (split; [done|]); by repeat constructor.
  - destruct Hw as (lg & -> & Hlg). unfold ack_statement. simpl. split_and!; try done.
    + right. exists lg. done.
    + by left.
    + by left.
  - by split_and!; [..|left|left].
  - by split_and!; [..|left|left].
  - by split_and!; [..|left|left].
Qed.

Lemma cluster_ok_statement id db0 c n t :
  cluster_ok id db0 c → txns c !! n = Some t →
  (t_state t = Fetch → lock_free c n (t_group t)) → (∀ r, t_state t ≠ Commit r) →
  cluster_ok id db0 (mkCluster (committed c) (<[n:=ack_statement id (committed c) t]> (txns c))).
Proof.
  intros Hc Ht Hfree Hst.
  destruct (ack_statement_ok id (committed c) t (ok_writes _ _ _ Hc n t Ht) Hst)
    as (Hw & Hg & Hack & Hlock & Hlast).
  set (t' := ack_statement id (committed c) t) in *.
  assert (Hex : ∀ m u, txns c !! m = Some u → m ≠ n → holds_lock (t_state t') = true →
    holds_lock (t_state u) = true → t_group t' = t_group u → False).
  { intros m u Hu Hmn Hl' Hl Hgu. rewrite Hg in Hgu.
    destruct (Hlock Hl') as [?|[Hf _]].
    - apply Hmn. by eapply (ok_exclusive _ _ _ Hc m n u t).
    - rewrite (Hfree Hf m u) in Hl; done. }
  destruct Hc as [Hdb Hwr Hlk Hexc Hls Hak Hon Hmsg Hdel Hoth].
  split; simpl; [done| | | | | | |done| |done].
  - intros m u [[<- <-]|[_ Hu]]%lookup_insert_Some; [done|by eapply Hwr].
  - intros m u [[<- <-]|[_ Hu]]%lookup_insert_Some Hl; [|by eapply Hlk].
    rewrite Hg. destruct (Hlock Hl) as [?|[_ ?]]; [by eapply Hlk|done].
  - intros m k u v [[<- <-]|[? Hu]]%lookup_insert_Some [[<- <-]|[? Hv]]%lookup_insert_Some
      Hlu Hlv Huv; [done| | |by eapply Hexc].
    + exfalso. by apply (Hex k v).
    + exfalso. by apply (Hex m u).
  - intros m u g [[<- <-]|[_ Hu]]%lookup_insert_Some Hl; [|by eapply Hls].
    rewrite Hg. intros Hne. destruct (Hlast Hl) as [?|Hall]; [by eapply Hls|by apply Hall].
  - intros m u [[<- <-]|[_ Hu]]%lookup_insert_Some Hl; [|by eapply Hak].
    rewrite Hg. eapply Hak; [done|by apply Hack].
  - intros m k u v [[<- <-]|[? Hu]]%lookup_insert_Some [[<- <-]|[? Hv]]%lookup_insert_Some
      Hlu Hlv Huv; [done|apply (Hon _ _ t v)|apply (Hon _ _ u t)|by eapply Hon]; try done;
      first [by apply Hack | by rewrite <-Hg].
  - intros g. destruct (Hdel g) as [?|[? (m & u & Hu & Hgu & Hau)]]; [by left|right].
    split; [done|]. destruct (decide (n = m)) as [<-|Hnm].
    + simplify_eq. exists n, t'. rewrite lookup_insert_eq, Hg. split_and!; [done..|by apply Hack].
    + exists m, u. by rewrite lookup_insert_ne.
Qed.

Lemma was_last_removes t r : t_state t = Commit r → was_last t ↔ removes (t_writes t) = true.
Proof. unfold was_last. by intros ->. Qed.

Lemma cluster_ok_commit id db0 c n t r :
  cluster_ok id db0 c → txns c !! n = Some t → t_state t = Commit r →
  cluster_ok id db0 (mkCluster (snapshot (committed c) t) (<[n:=goto Acked [] t]> (txns c))).
Proof.
  intros [Hdb Hwr Hlk Hexc Hls Hak Hon Hmsg Hdel Hoth] Ht Hst.
  destruct (snapshot_commit id (committed c) t r Hdb (Hwr n t Ht) Hst) as [Hd Hm].
  assert (Hown : is_Some (message_deliveries (committed c) !! (id, t_group t)))
    by (apply (Hlk n t Ht); by rewrite Hst).
  assert (Hl : removes (t_writes t) = true → ∀ g, g ≠ t_group t →
    message_deliveries (committed c) !! (id, g) = None).
  { intros Hr g. apply (Hls n t g Ht). by apply (was_last_removes t r). }
  assert (Hgone : ∀ g, message_deliveries (committed c) !! (id, g) = None →
    message_deliveries (snapshot (committed c) t) !! (id, g) = None)
    by (intros g Hg; rewrite Hd, Hg; by destruct (decide _)).
  assert (Hfirst : ∀ m u, txns c !! m = Some u → t_state u = Acked → t_group u ≠ t_group t).
  { intros m u Hu Hua Hgu. rewrite <-Hgu, (Hak m u Hu Hua) in Hown. by destruct Hown. }
  split; simpl; [by apply snapshot_ok|..].
  - intros m u [[<- <-]|[_ Hu]]%lookup_insert_Some; [done|by eapply Hwr].
  - intros m u [[<- <-]|[Hmn Hu]]%lookup_insert_Some Hlu; [done|].
    rewrite Hd. destruct (Hlk m u Hu Hlu) as [d Hdu]. rewrite decide_False; [eauto|].
    intros [_ Hor]. assert (t_group u ≠ t_group t) as Hgu.
    { intros Hgu. apply Hmn. apply (Hexc n m t u); try done. by rewrite Hst. }
    destruct Hor as [?|Hr]; [done|]. by rewrite (Hl Hr _ Hgu) in Hdu.
  - intros m k u v [[<- <-]|[? Hu]]%lookup_insert_Some [[<- <-]|[? Hv]]%lookup_insert_Some
      Hlu Hlv Huv; [done|done|done|by eapply Hexc].
  - intros m u g [[<- <-]|[_ Hu]]%lookup_insert_Some Hlu; [done|].
    intros Hne. by eapply Hgone, Hls.
  - intros m u [[<- <-]|[_ Hu]]%lookup_insert_Some Hau; simpl.
    + rewrite Hd. rewrite decide_True; [done|]. split; [done|by left].
    + by eapply Hgone, Hak.
  - intros m k u v [[<- <-]|[? Hu]]%lookup_insert_Some [[<- <-]|[? Hv]]%lookup_insert_Some
      Hlu Hlv Huv; [done| | |by eapply Hon]; simpl in Huv.
    + by destruct (Hfirst k v Hv).
    + by destruct (Hfirst m u Hu).
  - rewrite Hm. destruct (removes (t_writes t)) eqn:Hr.
    + right. rewrite lookup_delete_eq. split; [done|]. intros g. rewrite Hd.
      rewrite decide_True; [done|auto].
    + destruct Hmsg as [?|[? Hnone]]; [by left|right]. auto.
  - intros g. destruct (decide (g = t_group t)) as [->|Hg].
    + right. rewrite Hd, decide_True by auto. split; [done|].
      exists n, (goto Acked [] t). by rewrite lookup_insert_eq.
    + destruct (Hdel g) as [Heq|[Hnone (m & u & Hu & Hgu & Hau)]].
      * destruct (message_deliveries db0 !! (id, g)) as [d|] eqn:H0; [|left; by apply Hgone].
        left. rewrite Hd, decide_False; [done|]. intros [_ [?|Hr]]; [done|].
        by rewrite (Hl Hr g Hg) in Heq.
      * right. split; [by apply Hgone|]. exists m, u. split_and!; [|done..].
        rewrite lookup_insert_ne; [done|]. intros <-. simplify_eq.
  - intros i g Hi. rewrite Hd, decide_False by naive_solver. destruct (Hoth i g Hi) as [<- <-].
    split; [|done]. rewrite Hm. case_match; [by apply lookup_delete_ne|done].
Qed.

Lemma cluster_ok_rollback id db0 c n t :
  cluster_ok id db0 c → txns c !! n = Some t → t_state t ≠ Acked →
  cluster_ok id db0 (mkCluster (committed c) (<[n:=goto RolledBack [] t]> (txns c))).
Proof.
  intros [Hdb Hwr Hlk Hexc Hls Hak Hon Hmsg Hdel Hoth] Ht Hst.
  split; simpl; [done| | | | | | |done| |done].
  - intros m u [[<- <-]|[_ Hu]]%lookup_insert_Some; [done|by eapply Hwr].
  - intros m u [[<- <-]|[_ Hu]]%lookup_insert_Some Hlu; [done|by eapply Hlk].
  - intros m k u v [[<- <-]|[? Hu]]%lookup_insert_Some [[<- <-]|[? Hv]]%lookup_insert_Some
      Hlu Hlv Huv; [done|done|done|by eapply Hexc].
  - intros m u g [[<- <-]|[_ Hu]]%lookup_insert_Some Hlu; [done|by eapply Hls].
  - intros m u [[<- <-]|[_ Hu]]%lookup_insert_Some Hau; [done|by eapply Hak].
  - intros m k u v [[<- <-]|[? Hu]]%lookup_insert_Some [[<- <-]|[? Hv]]%lookup_insert_Some
      Hlu Hlv Huv; [done|done|done|by eapply Hon].
  - intros g. destruct (Hdel g) as [?|[Hnone (m & u & Hu & Hgu & Hau)]]; [by left|right].
    split; [done|]. exists m, u. split_and!; [|done..].
    rewrite lookup_insert_ne; [done|]. intros <-. simplify_eq.
Qed.

Lemma cluster_ok_reachable id c c' :
  db_ok (committed c) → all_calling c → rtc (ack_step id) c c' →
  cluster_ok id (committed c) c'.
Proof.
  intros Hdb Hc Hrtc. pose proof (cluster_ok_init id c Hdb Hc) as H0.
  clear Hdb Hc. revert H0. generalize (committed c). intros db0.
  induction Hrtc as [c|c1 c2 c3 Hstep _ IH]; [done|]. intros H. apply IH.
  destruct Hstep; [by apply cluster_ok_statement|by eapply cluster_ok_commit|
    by apply cluster_ok_rollback].
Qed.

(** [C8] Any number of [AckForGroup] calls of one message, interleaved and rolled back in
    any way: a delivery disappears only by the one call of its group that commits, the
    message only when every delivery it had has been acknowledged, and nothing else in
    the two tables changes. *)
Theorem concurrent_acks_safe id c c' :
  db_ok (committed c) → all_calling c → rtc (ack_step id) c c' →
  let acked g := ∃ n t, txns c' !! n = Some t ∧ t_group t = g ∧ t_state t = Acked in
  db_ok (committed c') ∧
  (∀ n m t u, txns c' !! n = Some t → txns c' !! m = Some u → t_state t = Acked →
     t_state u = Acked → t_group t = t_group u → n = m) ∧
  (∀ g, message_deliveries (committed c') !! (id, g) = message_deliveries (committed c) !! (id, g)
     ∨ message_deliveries (committed c') !! (id, g) = None ∧ acked g) ∧
  (messages (committed c') !! id = messages (committed c) !! id ∨
   messages (committed c') !! id = None ∧
   ∀ g, is_Some (message_deliveries (committed c) !! (id, g)) → acked g) ∧
  (∀ i g, i ≠ id → messages (committed c') !! i = messages (committed c) !! i ∧
     message_deliveries (committed c') !! (i, g) = message_deliveries (committed c) !! (i, g)).
Proof.
  intros Hdb Hc Hrtc acked. destruct (cluster_ok_reachable id c c' Hdb Hc Hrtc).
  split_and!; [done|done|done| |done].
  destruct ok_message0 as [?|[? Hnone]]; [by left|right]. split; [done|]. intros g [d Hd].
  destruct (ok_delivered0 g) as [Heq|[_ ?]]; [|done].
  rewrite Hnone, Hd in Heq. done.
Qed.

(** A call that finds another group's delivery reaches its commit. *)
Lemma ack_reaches_commit id c n g now r d g' :
  txns c !! n = Some (calling g now) → lock_free c n g → g' ≠ g →
  messages (committed c) !! id = Some r →
  message_deliveries (committed c) !! (id, g) = Some d → d_status d = processing →
  is_Some (message_deliveries (committed c) !! (id, g')) →
  rtc (ack_step id) c (mkCluster (committed c)
    (<[n:=mkTxn g now (Commit r) [DeleteDelivery (id, g)]]> (txns c))).
Proof.
  intros Hn Hfree Hg Hr Hd Hst [d' Hd'].
  eapply rtc_l; [by eapply (step_statement _ c n)|].
  unfold calling. rewrite at_fetch. unfold snapshot. simpl.
  rewrite (proj2 (sql_join_Some id g (committed c) id r d)) by done.
  rewrite decide_True by done.
  eapply rtc_l; [eapply (step_statement _ _ n); [apply lookup_insert_eq|done|done]|].
  rewrite at_delete. simpl. rewrite insert_insert_eq.
  eapply rtc_l; [eapply (step_statement _ _ n); [apply lookup_insert_eq|done|done]|].
  rewrite at_count. unfold snapshot. cbn [foldl t_writes apply_write committed txns].
  rewrite insert_insert_eq.
  destruct (count_deliveries id (delete_delivery (id, g) (committed c)) =? 0) eqn:Hc;
    [exfalso|done].
  reflect_bools. rewrite count_deliveries_0 in Hc. specialize (Hc g'). simpl in Hc.
  rewrite lookup_delete_ne in Hc; congruence.
Qed.

(** *** Settlements of a delivery that is not there *)

(** What a group may say of a message. *)
Inductive group_verdict :=
| acknowledges
| rejects (s : Service) (processingError : string).

Definition group_settles (id : uuid) (group : string) (v : group_verdict) : M unit :=
  match v with
  | acknowledges => AckForGroup id group
  | rejects s processingError => NackForGroup s id group processingError
  end.

(** Settlements one after the other, by any groups, at any time. *)
Definition groups_settle (id : uuid) (calls : list (string * group_verdict * Env)) (w : World) : World :=
  foldl (λ w c, (group_settles id c.1.1 c.1.2 c.2 w).2) w calls.

Lemma group_settles_calm id group v : calm (group_settles id group v).
Proof. destruct v; [apply AckForGroup_calm|apply NackForGroup_calm]. Qed.

Lemma group_settles_unjoined id group v e w :
  sql_join id group (w_db w) = None →
  implements (Err ErrNotFound) (w_db w) (group_settles id group v e w).
Proof.
  intros Hj. destruct v as [|s err]; simpl.
  - pose proof (ack_group_implements id group e w) as Hi.
    unfold ack_group_on_tables in Hi. by rewrite Hj in Hi.
  - unfold NackForGroup. apply begin_query_ind; [intros; by apply implements_lost|].
    intros fs _. rewrite Hj. by left.
Qed.

Lemma implements_Err_same {A} x db (r : result Error A) w :
  implements (A := A) (Err x) db (r, w) → w_db w = db.
Proof. intros [[_ H]|[_ [H|(a & db' & [=] & _)]]]; done. Qed.

Lemma groups_settle_unjoined id calls w :
  (∀ g, sql_join id g (w_db w) = None) → w_db (groups_settle id calls w) = w_db w.
Proof.
  revert w. induction calls as [|[[g v] e] calls IH]; intros w Hj; [done|]. simpl.
  pose proof (group_settles_unjoined id g v e w (Hj g)) as Hi.
  destruct (group_settles id g v e w) as [r w'] eqn:Hrun. apply implements_Err_same in Hi.
  simpl. rewrite IH; [done|]. intros g'. by rewrite Hi.
Qed.

(** [C9] The two groups of a message acknowledge it at the same time: each counts the
    other's uncommitted delivery, so both succeed, no delivery is left, and the message
    stays in its table.  From then on, whatever groups acknowledge or reject it, whenever and in
    whatever order, each of these calls finds nothing and the tables stay as they are. *)
Theorem concurrent_acks_strand_message id db g1 g2 now1 now2 r d1 d2 :
  g1 ≠ g2 → messages db !! id = Some r →
  message_deliveries db !! (id, g1) = Some d1 → d_status d1 = processing →
  message_deliveries db !! (id, g2) = Some d2 → d_status d2 = processing →
  (∀ g, is_Some (message_deliveries db !! (id, g)) → g = g1 ∨ g = g2) →
  let c := mkCluster db (<[0%nat:=calling g1 now1]> {[1%nat:=calling g2 now2]}) in
  ∃ c', rtc (ack_step id) c c' ∧
    (∀ n, (n < 2)%nat → t_state <$> txns c' !! n = Some Acked) ∧
    messages (committed c') !! id = Some r ∧
    (∀ g, message_deliveries (committed c') !! (id, g) = None) ∧
    ∀ w calls, w_db w = committed c' →
      w_db (groups_settle id calls w) = committed c' ∧
      ∀ g v e, w_faults (groups_settle id calls w) = [] →
        (group_settles id g v e (groups_settle id calls w)).1 = Err ErrNotFound.
Proof.
  intros Hg Hr Hd1 Hs1 Hd2 Hs2 Hall c.
  set (c1 := mkCluster db (<[0%nat:=mkTxn g1 now1 (Commit r) [DeleteDelivery (id, g1)]]>
    (txns c))).
  set (c2 := mkCluster db (<[1%nat:=mkTxn g2 now2 (Commit r) [DeleteDelivery (id, g2)]]>
    (txns c1))).
  set (t1 := mkTxn g1 now1 (Commit r) [DeleteDelivery (id, g1)]).
  set (t2 := mkTxn g2 now2 (Commit r) [DeleteDelivery (id, g2)]).
  set (c3 := mkCluster (snapshot db t1) (<[0%nat:=goto Acked [] t1]> (txns c2))).
  set (c4 := mkCluster (snapshot (snapshot db t1) t2) (<[1%nat:=goto Acked [] t2]> (txns c3))).
  assert (Hnone : ∀ g, message_deliveries (committed c4) !! (id, g) = None).
  { intros g. simpl. rewrite !lookup_delete. repeat case_decide; try done.
    apply eq_None_not_Some. intros [-> | ->]%Hall; simplify_eq. }
  exists c4. split_and!; [|intros [|[|n]] Hn; [done|done|lia]|done|done|].
  - etrans; [|etrans; [|eapply rtc_l; [|apply rtc_once]]].
    + apply (ack_reaches_commit id c 0 g1 now1 r d1 g2); try done.
      intros j t. unfold c. simpl.
      by intros [[<- <-]|[_ [<- <-]%lookup_singleton_Some]]%lookup_insert_Some.
    + apply (ack_reaches_commit id c1 1 g2 now2 r d2 g1); try done.
      intros j t. unfold c1, c. simpl. rewrite insert_insert_eq.
      by intros [[<- <-]|[_ [<- <-]%lookup_singleton_Some]]%lookup_insert_Some.
    + by apply (step_commit _ c2 0 t1 r).
    + by apply (step_commit _ c3 1 t2 r).
  - intros w calls Hw. assert (∀ g, sql_join id g (committed c4) = None) as Hj.
    { intros g. destruct (sql_join id g (committed c4)) as [[i [r' d]]|] eqn:Hj; [|done].
      apply sql_join_Some in Hj as (_ & _ & Hd). by rewrite Hnone in Hd. }
    rewrite <-Hw in Hj. pose proof (groups_settle_unjoined id calls w Hj) as Hdb.
    split; [by rewrite Hdb|]. intros g v e Hf. rewrite <-Hdb in Hj.
    apply (implements_calm (Err ErrNotFound) _ e _
      (group_settles_unjoined id g v e _ (Hj g)) (group_settles_calm id g v) Hf).
Qed.
End concurrency.
