(* ===== verification/ConsumerGroup.v ===== *)
(** * Consumer groups

    [backend/internal/queue/consumer_group.go]: registration, with the backfill of
    deliveries for the messages already pending, removal and listing. *)

From S2P Require Import Prelude.
From S2P Require Import Store.
From S2P Require Import Avro.
From S2P Require Import Runtime.
From S2P Require Import Model.
From S2P Require Import TopicConfig.
From S2P Require Import Throttle.
From S2P Require Import Schema.
From S2P Require Import Dequeue.
From S2P Require Import Enqueue.
From S2P Require Import Lifecycle.

Section consumer_group.
Context `{PG : Postgres} `{ST : Storage}.

(** [INSERT INTO consumer_groups ... ON CONFLICT DO NOTHING], the rows affected. *)
Definition sql_insert_group (topic group : string) (e : Env) (db : DB)
    : result PgError (Z * DB) :=
  match consumer_groups db !! (topic, group) with
  | Some _ => Ok (0, db)
  | None => Ok (1, set_groups (<[(topic, group):=pg_now e]> (consumer_groups db)) db)
  end.

(** The [INSERT INTO message_deliveries ... SELECT] over the pending messages. *)
Definition sql_backfill (topic group : string) (e : Env) (db : DB) : result PgError DB :=
  Ok (set_deliveries
    (message_deliveries db ∪
     map_collect (λ id r, if decide (m_topic r = topic ∧ m_status r = pending)
                          then Some ((id, group), new_delivery (pg_now e) (m_max_retries r))
                          else None) (messages db)) db).

Definition RegisterConsumerGroup (s : Service) (topic group : string) : M unit :=
  (if requireTopicRegistration s then
     cfg ← GetTopicConfig topic;
     guard_ok (bool_decide (is_Some cfg)) ErrTopicNotRegistered
   else mret tt);;
  begin_tx "register consumer group begin tx";;
  rows ← tx_stmt "register consumer group insert" (sql_insert_group topic group);
  if rows =? 0 then fail ErrConsumerGroupExists
  else
    tx_exec "register consumer group backfill" (sql_backfill topic group);;
    commit_tx "register consumer group commit".

Definition sql_delete_group (topic group : string) (_ : Env) (db : DB)
    : result PgError (Z * DB) :=
  match consumer_groups db !! (topic, group) with
  | None => Ok (0, db)
  | Some _ => Ok (1, set_groups (delete (topic, group) (consumer_groups db)) db)
  end.

(** [DELETE FROM message_deliveries md USING messages m WHERE ...] *)
Definition of_topic_group (topic group : string) (db : DB) (k : uuid * string) : Prop :=
  k.2 = group ∧ m_topic <$> messages db !! k.1 = Some topic.
#[export] Instance of_topic_group_dec topic group db k :
  Decision (of_topic_group topic group db k).
Proof. unfold of_topic_group. apply _. Defined.

Definition sql_delete_group_deliveries (topic group : string) (_ : Env) (db : DB)
    : result PgError DB :=
  Ok (set_deliveries
        (filter (λ kd, ¬ of_topic_group topic group db kd.1) (message_deliveries db)) db).

Definition UnregisterConsumerGroup (topic group : string) : M unit :=
  begin_tx "unregister consumer group begin tx";;
  rows ← tx_stmt "unregister consumer group" (sql_delete_group topic group);
  if rows =? 0 then fail ErrConsumerGroupNotFound
  else
    tx_exec "unregister consumer group delete deliveries"
      (sql_delete_group_deliveries topic group);;
    commit_tx "unregister consumer group commit".

Definition ListConsumerGroups (topic : string) : M (list string) :=
  pool_query "list consumer groups"
    (λ _ db, (λ tgc, tgc.1.2) <$>
       order_by snd (filter (λ tgc, tgc.1.1 = topic) (map_to_list (consumer_groups db)))).

(** ** Registration *)

Lemma sql_backfill_lookup topic group e db db' i g d :
  sql_backfill topic group e db = Ok db' →
  message_deliveries db' !! (i, g) = Some d ↔
  message_deliveries db !! (i, g) = Some d ∨
  (message_deliveries db !! (i, g) = None ∧ g = group ∧
   ∃ r, messages db !! i = Some r ∧ m_topic r = topic ∧ m_status r = pending ∧
     d = new_delivery (pg_now e) (m_max_retries r)).
Proof.
  intros [= <-]. simpl. rewrite lookup_union_Some_raw.
  apply or_iff_compat_l, and_iff_compat_l. rewrite lookup_map_collect.
  - split.
    + intros (id & r & Hr & Hf). case_decide; simplify_eq. naive_solver.
    + intros (-> & r & Hr & Ht & Hs & ->). exists i, r. split; [done|].
      by rewrite decide_True.
  - intros *. intros. repeat case_decide; simplify_eq. done.
Qed.

Lemma sql_backfill_ok topic group e db db' :
  sql_backfill topic group e db = Ok db' → db_ok db → db_ok db'.
Proof.
  intros Hb Hok. pose proof (λ i g d, sql_backfill_lookup _ _ _ _ _ i g d Hb) as Hl.
  injection Hb as <-. apply set_deliveries_ok; [..|done].
  - intros i g d [Hd|(_ & _ & r & Hr & _)]%Hl; [by eapply ok_foreign_key|eauto].
  - intros [i g] d [Hd|(_ & _ & r & _ & _ & _ & ->)]%Hl; [by eapply ok_delivery_status|done].
Qed.

(** Registering a group starts it on everything that is pending: on success the
    group was not registered, it is now, each pending message of the topic has a
    delivery for it - the one it had, or a fresh one with the message's
    [max_retries] - no other delivery is added or removed and no message changes. *)
Theorem register_backfills s topic group e w w' :
  db_ok (w_db w) → RegisterConsumerGroup s topic group e w = (Ok tt, w') →
  consumer_groups (w_db w) !! (topic, group) = None ∧
  consumer_groups (w_db w') = <[(topic, group):=pg_now e]> (consumer_groups (w_db w)) ∧
  messages (w_db w') = messages (w_db w) ∧
  (∀ i r, messages (w_db w) !! i = Some r → m_topic r = topic → m_status r = pending →
     is_Some (message_deliveries (w_db w') !! (i, group))) ∧
  (∀ i g d, message_deliveries (w_db w') !! (i, g) = Some d ↔
     message_deliveries (w_db w) !! (i, g) = Some d ∨
     (message_deliveries (w_db w) !! (i, g) = None ∧ g = group ∧
      ∃ r, messages (w_db w) !! i = Some r ∧ m_topic r = topic ∧ m_status r = pending ∧
        d = new_delivery (pg_now e) (m_max_retries r))) ∧
  db_ok (w_db w').
Proof.
  intros Hok Hrun. unfold RegisterConsumerGroup in Hrun.
  apply bind_Ok in Hrun as (u & w1 & Hpre & Hrun).
  assert (w_db w1 = w_db w) as Hdb.
  { assert (neutral (if requireTopicRegistration s then
      cfg ← GetTopicConfig topic; guard_ok (bool_decide (is_Some cfg)) ErrTopicNotRegistered
      else mret tt)) as Hn by solve_neutral.
    destruct (Hn e w) as [Hdb _]. by rewrite Hpre in Hdb. }
  clear Hpre. inv_ok. unfold tx_exec in *. inv_ok. rewrite <-Hdb in *. clear Hdb w. simpl in *.
  unfold sql_insert_group in *. destruct (consumer_groups (w_db w1) !! (topic, group)) eqn:Hg;
    simplify_eq.
  set (db1 := set_groups (<[(topic, group):=pg_now e]> (consumer_groups (w_db w1))) (w_db w1)).
  pose proof (eq_refl (sql_backfill topic group e db1)) as Hb.
  unfold sql_backfill at 2 in Hb. simpl in Hb.
  pose proof (λ i g d, sql_backfill_lookup _ _ _ _ _ i g d Hb) as Hl. simpl in Hl.
  apply sql_backfill_ok in Hb as Hok2; [|by apply (db_ok_same (w_db w1))].
  simpl. split_and!; try done.
  intros i r Hr Ht Hs. destruct (message_deliveries (w_db w1) !! (i, group)) as [d|] eqn:Hd.
  - exists d. apply Hl. by left.
  - eexists. apply Hl. right. split_and!; [done..|]. by exists r.
Qed.

(** Unregistering drops the group and its deliveries of the topic's messages, and
    nothing else: in particular a message that every other group has acknowledged
    already, so that the deliveries removed were its last, is not settled but stays
    in the table with no delivery at all. *)
Theorem unregister_strands_messages topic group e w w' :
  UnregisterConsumerGroup topic group e w = (Ok tt, w') →
  is_Some (consumer_groups (w_db w) !! (topic, group)) ∧
  consumer_groups (w_db w') = delete (topic, group) (consumer_groups (w_db w)) ∧
  messages (w_db w') = messages (w_db w) ∧
  (∀ i g, message_deliveries (w_db w') !! (i, g) =
     if decide (g = group ∧ m_topic <$> messages (w_db w) !! i = Some topic) then None
     else message_deliveries (w_db w) !! (i, g)) ∧
  (∀ i r, messages (w_db w) !! i = Some r → m_topic r = topic →
     (∀ g, g ≠ group → message_deliveries (w_db w) !! (i, g) = None) →
     messages (w_db w') !! i = Some r ∧
     ∀ g, message_deliveries (w_db w') !! (i, g) = None).
Proof.
  intros Hrun. unfold UnregisterConsumerGroup, tx_exec in Hrun. inv_ok. simpl in *.
  unfold sql_delete_group in *. destruct (consumer_groups (w_db w) !! (topic, group)) eqn:Hg;
    simplify_eq. simpl in *.
  assert (∀ i g, filter (λ kd, ¬ of_topic_group topic group
            (set_groups (delete (topic, group) (consumer_groups (w_db w))) (w_db w)) kd.1)
            (message_deliveries (w_db w)) !! (i, g) =
    if decide (g = group ∧ m_topic <$> messages (w_db w) !! i = Some topic) then None
    else message_deliveries (w_db w) !! (i, g)) as Hl.
  { intros i g. apply option_eq. intros d. rewrite map_lookup_filter_Some.
    unfold of_topic_group. simpl. case_decide; naive_solver. }
  split_and!; [done..|]. intros i r Hr Ht Hno. split; [done|]. intros g. rewrite Hl.
  case_decide as Hd; [done|]. apply Hno. intros ->. apply Hd. by rewrite Hr, <-Ht.
Qed.
End consumer_group.
