(* ===== verification/Reaper.v ===== *)
(** * The reapers

    [backend/internal/queue/reaper.go]: expiry of messages past their TTL, deletion of
    expired messages and of log rows past their topic's replay window, under an
    advisory lock when scheduled, and the schedule itself. *)

From S2P Require Import Prelude.
From S2P Require Import Store.
From S2P Require Import Avro.
From S2P Require Import Runtime.
From S2P Require Import Model.
From S2P Require Import TopicConfig.
From S2P Require Import Throttle.
From S2P Require Import Schema.
From S2P Require Import Dequeue.
From S2P Require Import Enqueue.
From S2P Require Import Lifecycle.

(** [expires_at IS NOT NULL AND expires_at < now() AND status IN ('pending',
    'processing')] *)
Definition past_ttl (now : Z) (_ : uuid) (r : MessageRow) : Prop :=
  match m_expires_at r with
  | Some t => t < now ∧ (m_status r = pending ∨ m_status r = processing)
  | None => False
  end.
#[export] Instance past_ttl_dec now i r : Decision (past_ttl now i r).
Proof. unfold past_ttl. destruct (m_expires_at r); apply _. Defined.

Definition expire (now : Z) (r : MessageRow) : MessageRow :=
  mkMessageRow (m_topic r) (m_payload r) (m_metadata r) (m_key r) expired (m_retry_count r)
    (m_max_retries r) (m_last_error r) (m_visibility_timeout r) (m_expires_at r)
    (m_created_at r) now (m_original_topic r) (m_dlq_moved_at r).

(** [DELETE FROM messages WHERE status = 'expired'] *)
Definition is_expired (_ : uuid) (r : MessageRow) : Prop := m_status r = expired.
#[export] Instance is_expired_dec i r : Decision (is_expired i r).
Proof. unfold is_expired. apply _. Defined.

(** The scheduler: the schedules of the cron instances that run, and what
    [deleteReaperStop] stops ([None] for [nil], [Some None] for the no-op). *)
Record Cron := mkCron {
  running : list string;
  deleteReaperStop : option (option string);
}.

Section reaper.
Context `{PG : Postgres} `{ST : Storage}.

Definition sql_expire (e : Env) (db : DB) : result PgError (Z * DB) :=
  Ok (update_messages_where (past_ttl (pg_now e)) (expire (pg_now e)) db).

(** [archiveReaperSQL]'s [WHERE] clause, for the log row keyed [(topic, acked_at, id)]. *)
Definition past_window (now : Z) (db : DB) (k : string * Z * uuid) : Prop :=
  match topic_config db !! k.1.1 with
  | Some cfg =>
      Replayable cfg = true ∧
      match ReplayWindowSeconds cfg with
      | Some window => 0 < window ∧ k.1.2 < now - window * 10 ^ 6
      | None => False
      end
  | None => False
  end.
#[export] Instance past_window_dec now db k : Decision (past_window now db k).
Proof.
  unfold past_window. destruct (topic_config db !! k.1.1); [|apply _].
  destruct (ReplayWindowSeconds t); apply _.
Defined.

Definition archiveReaperSQL (e : Env) (db : DB) : result PgError (Z * DB) :=
  Ok (Z.of_nat (size (filter (λ kl, past_window (pg_now e) db kl.1) (message_log db))),
      set_log (filter (λ kl, ¬ past_window (pg_now e) db kl.1) (message_log db)) db).

Definition sql_delete_expired (_ : Env) (db : DB) : result PgError (Z * DB) :=
  Ok (delete_messages_where is_expired db).

(** [if n := tag.RowsAffected(); n > 0 { ... }] *)
Definition record_if (n : Z) (m : Metric) : M unit :=
  if 0 <? n then record m else mret tt.

(** [tryWithReaperLock]; [acquired] is the answer of [pg_try_advisory_xact_lock]. *)
Definition tryWithReaperLock (acquired : bool) (fn : M unit) : M unit :=
  begin_tx "reaper lock begin tx";;
  acquired ← tx_query "reaper advisory lock" (λ _ _, acquired);
  if negb acquired then mret tt
  else fn;; commit_tx "reaper commit".

(** One tick of [StartExpiryReaper]; its error is only logged. *)
Definition expiry_tick (acquired : bool) : M (result Error unit) :=
  try (tryWithReaperLock acquired
         (n ← tx_stmt "expiry reaper" sql_expire;
          record_if n (RecordExpired n))).

Definition RunExpiryReaperOnce : M Z :=
  n ← pool_stmt "run expiry reaper" sql_expire;
  record_if n (RecordExpired n);;
  mret n.

Definition runDeleteWork : M Z :=
  n ← tx_stmt "delete reaper" sql_delete_expired;
  record_if n (RecordDeleted n);;
  tx_stmt "archive reaper" archiveReaperSQL;;
  mret n.

Definition RunDeleteReaperOnce : M Z :=
  begin_tx "run delete reaper begin tx";;
  n ← runDeleteWork;
  commit_tx "run delete reaper commit";;
  mret n.

Definition RunArchiveReaperOnce : M Z := pool_stmt "run archive reaper" archiveReaperSQL.

(** The function [StartDeleteReaper] schedules; its error is only logged. *)
Definition delete_tick (acquired : bool) : M (result Error unit) :=
  try (tryWithReaperLock acquired (runDeleteWork;; mret tt)).

(** ** The schedule *)

Section schedule.
Context (cron_valid : string → bool).

(** [c.Stop()], once per instance. *)
Fixpoint remove_first (x : string) (l : list string) : list string :=
  match l with
  | [] => []
  | y :: l' => if bool_decide (x = y) then l' else y :: remove_first x l'
  end.

Definition StartDeleteReaper (schedule : string) (c : Cron) : result Error unit * Cron :=
  if bool_decide (schedule = "") then (Ok tt, mkCron (running c) (Some None))
  else if cron_valid schedule
  then (Ok tt, mkCron (schedule :: running c) (Some (Some schedule)))
  else (Err ErrCronSchedule, c).

Definition delete_reaper_schedule : string := "delete_reaper_schedule".

Definition GetDeleteReaperSchedule : M string :=
  pool_query "get delete reaper schedule"
    (λ _ db, default "" (system_settings db !! delete_reaper_schedule)).

(** The schedule [main] starts with: the stored one, unless it is empty or cannot be
    read; then the configured one. *)
Definition boot_schedule (configured : string) : M string :=
  r ← try GetDeleteReaperSchedule;
  mret (match r with
        | Ok dbSchedule => if bool_decide (dbSchedule = "") then configured else dbSchedule
        | Err _ => configured
        end).

(** Stop the current cron, if any. *)
Definition stop_current (c : Cron) : Cron :=
  match deleteReaperStop c with
  | Some (Some schedule) => mkCron (remove_first schedule (running c)) None
  | _ => mkCron (running c) None
  end.

Definition UpdateDeleteReaperSchedule (schedule : string) (c : Cron)
    : M (result Error unit * Cron) :=
  if negb (bool_decide (schedule = "")) && negb (cron_valid schedule)
  then mret (Err ErrCronSchedule, c)
  else
    r ← try (pool_stmt "persist delete reaper schedule" (λ _ db,
           Ok (tt, set_settings (<[delete_reaper_schedule:=schedule]> (system_settings db)) db)));
    match r with
    | Err x => mret (Err x, c)
    | Ok _ =>
        let c' := stop_current c in
        if bool_decide (schedule = "") then mret (Ok tt, c')
        else mret (StartDeleteReaper schedule c')
    end.

End schedule.

(** ** Expiry *)

(** [C36] The expiry reaper marks exactly the pending and processing messages whose TTL
    is over, counts them, and changes nothing else; afterwards no message past its
    TTL at that instant can be claimed, by a consumer or for a group whose delivery
    outlived it, and a second pass at the same instant finds nothing. *)
Theorem expiry_reaper_exact e w n w' :
  db_ok (w_db w) → RunExpiryReaperOnce e w = (Ok n, w') →
  (∀ i, messages (w_db w') !! i =
     (λ r, if decide (past_ttl (pg_now e) i r) then expire (pg_now e) r else r) <$>
       messages (w_db w) !! i) ∧
  message_deliveries (w_db w') = message_deliveries (w_db w) ∧
  n = Z.of_nat (size (filter (λ ir, past_ttl (pg_now e) ir.1 ir.2) (messages (w_db w)))) ∧
  db_ok (w_db w') ∧
  (∀ i r, messages (w_db w') !! i = Some r → ¬ past_ttl (pg_now e) i r) ∧
  (∀ e', pg_now e' = pg_now e → w_faults w' = [] →
     (RunExpiryReaperOnce e' w').1 = Ok 0 ∧ w_db (RunExpiryReaperOnce e' w').2 = w_db w').
Proof.
  intros Hok Hrun. unfold RunExpiryReaperOnce in Hrun.
  apply bind_Ok in Hrun as (m & w1 & (fs & db' & Hq & ->)%pool_stmt_Ok & Hrun).
  injection Hq as <- <-. apply bind_Ok in Hrun as (u & w2 & Hrec & [-> ->]%ret_Ok).
  assert (w_db w2 = set_messages (map_update (past_ttl (pg_now e)) (expire (pg_now e))
                      (messages (w_db w))) (w_db w)) as Hdb.
  { unfold record_if in Hrec. case_match; [apply record_Ok in Hrec|apply ret_Ok in Hrec as [_ ?]];
      by subst. }
  rewrite Hdb. simpl.
  assert (∀ i r, map_update (past_ttl (pg_now e)) (expire (pg_now e)) (messages (w_db w)) !! i =
                   Some r → ¬ past_ttl (pg_now e) i r) as Hnone.
  { intros i r (r0 & Hr0 & ->)%lookup_map_update_Some. case_decide as Hp; [|done].
    unfold past_ttl, expire. simpl. destruct (m_expires_at r0); [|by intros []].
    intros (_ & [?|?]); done. }
  split_and!; [|done|done| |done|].
  - intros i. apply lookup_map_update.
  - by apply (update_messages_where_ok (past_ttl (pg_now e)) (expire (pg_now e)) (w_db w)).
  - intros e' He Hf. unfold RunExpiryReaperOnce. rewrite run_bind, pool_stmt_calm by done.
    unfold sql_expire, update_messages_where. rewrite He, Hdb. simpl.
    rewrite (map_empty_filter_2 _ (map_update _ _ _)) by (intros i r Hr; by apply (Hnone i r)).
    rewrite map_update_none by (intros i r Hr; by apply (Hnone i r)). done.
Qed.

(** ** Scheduled ticks *)

(** [fn] works on the transaction's copy and turns it, when it succeeds, into [f] of it. *)
Definition works_on_tx (fn : M unit) (f : Env → DB → DB) : Prop := ∀ e w,
  w_db (fn e w).2 = w_db w ∧ ((fn e w).1 = Ok tt → w_tx (fn e w).2 = f e (w_tx w)).

Lemma locked_tick acquired fn f e w :
  works_on_tx fn f →
  let run := tryWithReaperLock acquired fn e w in
  w_db run.2 = w_db w ∨ (acquired = true ∧ w_db run.2 = f e (w_db w)).
Proof.
  intros Hfn run. unfold run, tryWithReaperLock. apply begin_query_ind; [by left|].
  intros fs _. destruct acquired; simpl; [|by left]. rewrite run_bind.
  destruct (Hfn e (set_tx (w_db w) (set_faults fs w))) as [Hdb Htx].
  destruct (fn e _) as [[[]|x] w1]; simpl in *; [|by left].
  specialize (Htx eq_refl).
  destruct w1 as [db1 tx1 ? ? ? ? ? [|[] fs1]]; simpl in *; subst; auto.
Qed.

Lemma locked_tick_calm fn f e w :
  works_on_tx fn f → (∀ w1, w_faults w1 = [] → (fn e w1).1 = Ok tt ∧ w_faults (fn e w1).2 = []) →
  w_faults w = [] → w_db (tryWithReaperLock true fn e w).2 = f e (w_db w).
Proof.
  intros Hfn Hok Hf. unfold tryWithReaperLock.
  rewrite run_bind, begin_tx_calm, run_bind, tx_query_calm by done. simpl.
  rewrite run_bind. set (w0 := set_tx (w_db w) w).
  destruct (Hfn e w0) as [Hdb Htx]. destruct (Hok w0 Hf) as [Hrun Hf'].
  rewrite (run_eta _ _ Hrun). specialize (Htx Hrun).
  by rewrite commit_tx_calm.
Qed.

Lemma record_if_run n m e w :
  ∃ ms, record_if n m e w = (Ok tt, set_metrics ms w).
Proof. unfold record_if. case_match; [by eexists|]. exists (w_metrics w). by destruct w. Qed.

Lemma expiry_works :
  works_on_tx (n ← tx_stmt "expiry reaper" sql_expire; record_if n (RecordExpired n))
    (λ e db, set_messages (map_update (past_ttl (pg_now e)) (expire (pg_now e)) (messages db)) db).
Proof.
  intros e w. rewrite run_bind.
  destruct (tx_stmt_cases "expiry reaper" sql_expire e w _ _ eq_refl) as [fs [-> | ->]]; [|done].
  match goal with |- context [record_if ?n ?m ?e' ?w'] =>
    destruct (record_if_run n m e' w') as [ms ->] end. done.
Qed.

Lemma delete_works :
  works_on_tx (runDeleteWork;; mret tt)
    (λ e db, set_log (filter (λ kl, ¬ past_window (pg_now e) db kl.1) (message_log db))
               (delete_messages_where is_expired db).2).
Proof.
  intros e w. unfold runDeleteWork. rewrite run_bind_bind, run_bind.
  destruct (tx_stmt_cases "delete reaper" sql_delete_expired e w _ _ eq_refl)
    as [fs [-> | ->]]; [|done].
  rewrite run_bind_bind, run_bind.
  match goal with |- context [record_if ?n ?m ?e' ?w'] =>
    destruct (record_if_run n m e' w') as [ms ->] end.
  rewrite run_bind_bind, run_bind.
  match goal with |- context [tx_stmt ?what ?q ?e' ?w'] =>
    destruct (tx_stmt_cases what q e' w' _ _ eq_refl) as [fs' [-> | ->]] end; done.
Qed.

Lemma record_if_calm n m : calm (record_if n m).
Proof. unfold record_if. solve_calm. Qed.

(** A scheduled tick that does not get the advisory lock does nothing, and one that
    fails anywhere before its commit is undone as a whole: the tables afterwards are
    those of before or, with the lock, those after the complete pass; without faults
    the pass is complete. *)
Theorem reaper_ticks_are_atomic acquired e w :
  let expired db := set_messages
    (map_update (past_ttl (pg_now e)) (expire (pg_now e)) (messages db)) db in
  let reaped db := set_log
    (filter (λ kl, ¬ past_window (pg_now e) db kl.1) (message_log db))
    (delete_messages_where is_expired db).2 in
  let db1 := w_db (expiry_tick acquired e w).2 in
  let db2 := w_db (delete_tick acquired e w).2 in
  (db1 = w_db w ∨ (acquired = true ∧ db1 = expired (w_db w))) ∧
  (db2 = w_db w ∨ (acquired = true ∧ db2 = reaped (w_db w))) ∧
  (w_faults w = [] → acquired = true → db1 = expired (w_db w) ∧ db2 = reaped (w_db w)).
Proof.
  intros expired reaped db1 db2. unfold db1, db2, expiry_tick, delete_tick. rewrite !run_try. simpl.
  pose proof expiry_works as He. pose proof delete_works as Hd.
  split_and!; [by apply (locked_tick _ _ _ e w He)|by apply (locked_tick _ _ _ e w Hd)|].
  intros Hf ->. split; [apply (locked_tick_calm _ _ e w He); [|done]|apply (locked_tick_calm _ _ e w Hd); [|done]];
    intros w1 Hw1.
  - rewrite run_bind, tx_stmt_calm by done. simpl.
    match goal with |- context [record_if ?n ?m ?e' ?w'] =>
      destruct (record_if_run n m e' w') as [ms ->] end. done.
  - unfold runDeleteWork. rewrite run_bind_bind, run_bind, tx_stmt_calm by done. simpl.
    rewrite run_bind_bind, run_bind.
    match goal with |- context [record_if ?n ?m ?e' ?w'] =>
      destruct (record_if_run n m e' w') as [ms ->] end.
    rewrite run_bind_bind, run_bind, tx_stmt_calm by done. done.
Qed.

(** Deleting expired messages takes exactly those, with their deliveries, and exactly
    the log rows older than their replayable topic's positive window; a replayable
    topic without a window keeps its log for ever. *)
Theorem delete_reaper_exact e w n w' :
  db_ok (w_db w) → RunDeleteReaperOnce e w = (Ok n, w') →
  n = Z.of_nat (size (filter (λ ir, m_status ir.2 = expired) (messages (w_db w)))) ∧
  (∀ i r, messages (w_db w') !! i = Some r ↔
     messages (w_db w) !! i = Some r ∧ m_status r ≠ expired) ∧
  (∀ i g d, message_deliveries (w_db w') !! (i, g) = Some d ↔
     message_deliveries (w_db w) !! (i, g) = Some d ∧ is_Some (messages (w_db w') !! i)) ∧
  (∀ t at_ i l, message_log (w_db w') !! (t, at_, i) = Some l ↔
     message_log (w_db w) !! (t, at_, i) = Some l ∧
     ¬ (∃ cfg window, topic_config (w_db w) !! t = Some cfg ∧ Replayable cfg = true ∧
          ReplayWindowSeconds cfg = Some window ∧ 0 < window ∧
          at_ < pg_now e - window * 10 ^ 6)) ∧
  db_ok (w_db w').
Proof.
  intros Hok Hrun. unfold RunDeleteReaperOnce, runDeleteWork in Hrun.
  rewrite run_bind in Hrun.
  destruct (begin_tx _ e w) as [[u|] w1] eqn:Hb; [|done]. apply begin_tx_Ok in Hb as [fs ->].
  rewrite run_bind_bind in Hrun.
  apply bind_Ok in Hrun as (m & w2 & (fs2 & db2 & [= <- <-] & ->)%tx_stmt_Ok & Hrun).
  rewrite run_bind_bind in Hrun.
  apply bind_Ok in Hrun as (u2 & w3 & Hrec & Hrun).
  match type of Hrec with record_if ?n ?m ?e' ?w' = _ =>
    destruct (record_if_run n m e' w') as [ms Hms]; rewrite Hms in Hrec end.
  injection Hrec as <- <-. rewrite run_bind_bind in Hrun.
  apply bind_Ok in Hrun as (m' & w4 & (fs4 & db4 & [= <- <-] & ->)%tx_stmt_Ok & Hrun).
  inv_ok. simpl. split_and!; [done|..].
  - intros i r. rewrite map_lookup_filter_Some. done.
  - intros i g d. rewrite map_lookup_filter_Some. done.
  - intros t at_ i l. rewrite map_lookup_filter_Some. simpl. apply and_iff_compat_l.
    unfold past_window. simpl. destruct (topic_config (w_db w) !! t) as [cfg|]; [|naive_solver].
    destruct (ReplayWindowSeconds cfg) as [window|] eqn:Hw; naive_solver.
  - apply (db_ok_same (delete_messages_where is_expired (w_db w)).2); [done..|].
    by apply delete_messages_where_ok.
Qed.

(** ** The schedule *)

Lemma remove_first_single x : remove_first x [x] = [].
Proof. simpl. by rewrite bool_decide_true. Qed.

(** What runs is what [deleteReaperStop] can stop. *)
Definition cron_ok (c : Cron) : Prop :=
  running c = match deleteReaperStop c with Some (Some s) => [s] | _ => [] end.

Lemma boot_stored configured e w :
  w_faults w = [] →
  (boot_schedule configured e w).1 =
    Ok (let stored := default "" (system_settings (w_db w) !! delete_reaper_schedule) in
        if bool_decide (stored = "") then configured else stored).
Proof.
  intros Hf. unfold boot_schedule, GetDeleteReaperSchedule, pool_query.
  by rewrite run_bind, run_try, pool_stmt_calm.
Qed.

Section schedule_laws.
Context (cron_valid : string → bool).

(** One schedule at a time: an update with a valid schedule, or the empty one, stops
    the running cron, starts exactly the new schedule (none for the empty one) and
    stores it; an invalid schedule, or a failed write, leaves the running cron as it
    was.  A restart finds a stored schedule again, but a reaper disabled by the empty
    one comes back with the configured schedule. *)
Theorem schedule_update schedule c e w :
  cron_ok c →
  let run := UpdateDeleteReaperSchedule cron_valid schedule c e w in
  ∃ r c', run.1 = Ok (r, c') ∧ cron_ok c' ∧
    match r with
    | Ok _ => (schedule = "" ∨ cron_valid schedule = true) ∧
        running c' = (if bool_decide (schedule = "") then [] else [schedule]) ∧
        default "" (system_settings (w_db run.2) !! delete_reaper_schedule) = schedule ∧
        (∀ e' configured, w_faults run.2 = [] → (boot_schedule configured e' run.2).1 =
           Ok (if bool_decide (schedule = "") then configured else schedule))
    | Err x => c' = c ∧ (x = ErrCronSchedule ∧ cron_valid schedule = false ∧ w_db run.2 = w_db w ∨ lost x)
    end.
Proof.
  intros Hc run. unfold run, UpdateDeleteReaperSchedule.
  destruct (negb _ && negb _) eqn:Hv.
  { eexists _, c. split; [done|]. split; [done|]. simpl. reflect_bools. naive_solver. }
  rewrite run_bind. unfold try.
  match goal with |- context [pool_stmt ?what ?q e w] =>
    destruct (pool_stmt_cases what q e w) as
      [(fs & u & db' & [= <- <-] & [-> | ->])|[(fs & ->)|(fs & x & [=] & _)]] end; simpl.
  2, 3: eexists _, c; split; [done|]; split; [done|]; split; [done|]; right; by eexists.
  assert (running (stop_current c) = []) as Hstop.
  { unfold stop_current, cron_ok in *. destruct (deleteReaperStop c) as [[s|]|]; rewrite Hc; simpl;
      [by rewrite bool_decide_true|done..]. }
  apply andb_false_iff in Hv as Hv. case_bool_decide as He; subst; simpl.
  - eexists _, _. split; [done|]. split.
    + unfold cron_ok. rewrite Hstop. unfold stop_current.
      by destruct (deleteReaperStop c) as [[]|].
    + split_and!; [by left|done|by rewrite lookup_insert_eq|].
      intros e' configured Hf. rewrite boot_stored by done. simpl.
      by rewrite lookup_insert_eq.
  - unfold StartDeleteReaper. rewrite bool_decide_false by done.
    assert (cron_valid schedule = true) as -> by (destruct Hv as [?|?]; reflect_bools; done).
    eexists _, _. split; [done|]. unfold cron_ok. simpl. rewrite Hstop.
    split_and!; [done|by right|done|by rewrite lookup_insert_eq|].
    intros e' configured Hf. rewrite boot_stored by done. simpl.
    rewrite lookup_insert_eq. simpl. by rewrite bool_decide_false.
Qed.
End schedule_laws.
End reaper.
