(* ===== verification/ReaperSchedule.v ===== *)
(** * Updates of the reaper's schedule at the same time

    [UpdateDeleteReaperSchedule] and [StartDeleteReaper] of [internal/queue/reaper.go]
    statement by statement, by requests that run beside each other.  [Reaper] has them as
    one step.  The mutex [deleteReaperMu] protects the stop function, not the replacement of
    the cron instance: it is released between the stop of the old instance and the start of
    the new one, and taken again to store the new stop function. *)

From S2P Require Import Prelude.
From S2P Require Import Store.
From S2P Require Import Avro.
From S2P Require Import Runtime.
From S2P Require Import TopicConfig.
From S2P Require Import Schema.
From S2P Require Import Reaper.

(** Before the first statement; with the schedule stored; with the old instance stopped and
    the mutex released; with instance [k] started and its stop function not yet stored;
    returned. *)
Inductive UpdatePhase :=
| update_begun
| update_persisted
| update_stopped
| update_started (k : nat)
| update_returned (r : result Error unit).

Record Update := mkUpdate { u_schedule : string; u_phase : UpdatePhase }.

(** The stored schedule, the cron instances that run, the number of the next one, what
    [deleteReaperStop] stops ([None] for [nil], [Some None] for the no-op), the calls. *)
Record Scheduler := mkScheduler {
  stored_schedule : string;
  crons : gmap nat string;
  next_cron : nat;
  stop_function : option (option nat);
  updates : gmap nat Update }.

Section reaper_schedule.
Context (cron_valid : string → bool).

Definition at_phase (s : Scheduler) (n : nat) (u : Update) (p : UpdatePhase) : Scheduler :=
  mkScheduler (stored_schedule s) (crons s) (next_cron s) (stop_function s)
    (<[n:=mkUpdate (u_schedule u) p]> (updates s)).

(** [s.deleteReaperStop()] *)
Definition stop_cron (s : Scheduler) : gmap nat string :=
  match stop_function s with Some (Some k) => delete k (crons s) | _ => crons s end.

(** The next statement of call [n]. *)
Definition update_step (s : Scheduler) (n : nat) : option Scheduler :=
  u ← updates s !! n;
  match u_phase u with
  | update_begun =>
      if negb (bool_decide (u_schedule u = "")) && negb (cron_valid (u_schedule u))
      then Some (at_phase s n u (update_returned (Err ErrCronSchedule)))
      else Some (mkScheduler (u_schedule u) (crons s) (next_cron s) (stop_function s)
                   (<[n:=mkUpdate (u_schedule u) update_persisted]> (updates s)))
  | update_persisted =>
      Some (mkScheduler (stored_schedule s) (stop_cron s) (next_cron s) None
              (<[n:=mkUpdate (u_schedule u)
                      (if bool_decide (u_schedule u = "") then update_returned (Ok tt)
                       else update_stopped)]> (updates s)))
  | update_stopped =>
      if cron_valid (u_schedule u)
      then Some (mkScheduler (stored_schedule s) (<[next_cron s:=u_schedule u]> (crons s))
                   (S (next_cron s)) (stop_function s)
                   (<[n:=mkUpdate (u_schedule u) (update_started (next_cron s))]> (updates s)))
      else Some (at_phase s n u (update_returned (Err ErrCronSchedule)))
  | update_started k =>
      Some (mkScheduler (stored_schedule s) (crons s) (next_cron s) (Some (Some k))
              (<[n:=mkUpdate (u_schedule u) (update_returned (Ok tt))]> (updates s)))
  | update_returned _ => None
  end.

(** The write of the schedule is lost. *)
Definition update_fails (s : Scheduler) (n : nat) (x : Error) : option Scheduler :=
  u ← updates s !! n;
  match u_phase u with
  | update_begun => Some (at_phase s n u (update_returned (Err x)))
  | _ => None
  end.

Inductive schedule_step : Scheduler → Scheduler → Prop :=
| schedule_advance s n s' : update_step s n = Some s' → schedule_step s s'
| schedule_fails s n x s' : update_fails s n x = Some s' → schedule_step s s'
| schedule_request s n schedule : updates s !! n = None →
    schedule_step s (mkScheduler (stored_schedule s) (crons s) (next_cron s) (stop_function s)
      (<[n:=mkUpdate schedule update_begun]> (updates s))).

Definition run_updates (ns : list nat) (s : Scheduler) : option Scheduler :=
  foldl (λ s n, s ← s; update_step s n) (Some s) ns.

(** ** What holds of every interleaving *)

(** The call is between the stop of the old instance and the stop function of the new. *)
Definition replacing (u : Update) : bool :=
  match u_phase u with update_stopped | update_started _ => true | _ => false end.

(** The instance runs, and neither [deleteReaperStop] nor a call can stop it. *)
Definition leaked (s : Scheduler) (k : nat) : Prop :=
  is_Some (crons s !! k) ∧ stop_function s ≠ Some (Some k) ∧
  ∀ n u, updates s !! n = Some u → u_phase u ≠ update_started k.

(** The instances that calls and [deleteReaperStop] refer to run, each for one of them. *)
Record scheduler_ok (s : Scheduler) : Prop := {
  so_next k : is_Some (crons s !! k) → (k < next_cron s)%nat;
  so_stop k : stop_function s = Some (Some k) → is_Some (crons s !! k);
  so_started n u k : updates s !! n = Some u → u_phase u = update_started k →
    crons s !! k = Some (u_schedule u) ∧ stop_function s ≠ Some (Some k) ∧
    ∀ m v, updates s !! m = Some v → u_phase v = update_started k → m = n;
}.

(** No call is replacing an instance, and what runs can be stopped. *)
Definition idle (s : Scheduler) : Prop :=
  scheduler_ok s ∧ (∀ n u, updates s !! n = Some u → replacing u = false) ∧
  ∀ k, is_Some (crons s !! k) → stop_function s = Some (Some k).

Ltac update_cases H :=
  apply lookup_insert_Some in H as [[<- <-]|[? H]]; simpl in *.

(** A call that changes only its own phase, and not to the start of an instance. *)
Lemma scheduler_ok_phase s n u p st :
  scheduler_ok s → updates s !! n = Some u → (∀ k, p ≠ update_started k) →
  scheduler_ok (mkScheduler st (crons s) (next_cron s) (stop_function s)
    (<[n:=mkUpdate (u_schedule u) p]> (updates s))).
Proof.
  intros [Hn Hs Hst] Hu Hp. split; simpl; [done..|].
  intros m v k Hv Hk. update_cases Hv; [by destruct (Hp k)|].
  destruct (Hst _ _ _ Hv Hk) as (? & ? & Hone). split_and!; [done..|].
  intros m' v' Hv' Hk'. update_cases Hv'; [by destruct (Hp k)|]. by eapply Hone.
Qed.

Lemma scheduler_ok_step s n s' : scheduler_ok s → update_step s n = Some s' → scheduler_ok s'.
Proof.
  intros Hok Hstep. unfold update_step, at_phase in Hstep.
  destruct (updates s !! n) as [u|] eqn:Hu; simpl in Hstep; [|done].
  destruct (u_phase u) as [| | |j|r] eqn:Hp; [| | | |done].
  - by case_match; simplify_eq; apply scheduler_ok_phase.
  - simplify_eq. destruct (scheduler_ok_phase s n u
      (if bool_decide (u_schedule u = "") then update_returned (Ok tt) else update_stopped)
      (stored_schedule s)) as [Hn Hs Hst]; [done..|by intros k; case_match|].
    simpl in *. split; simpl; [|done|].
    + intros k Hk. apply Hn. unfold stop_cron in Hk. destruct (stop_function s) as [[j|]|]; try done.
      rewrite lookup_delete_is_Some in Hk. tauto.
    + intros m v k Hv Hk. destruct (Hst _ _ _ Hv Hk) as (Hc & Hne & Hone).
      split_and!; [|done..]. unfold stop_cron. destruct (stop_function s) as [[j|]|]; try done.
      rewrite lookup_delete_ne; congruence.
  - case_match; simplify_eq; [|by apply scheduler_ok_phase]. destruct Hok as [Hn Hs Hst].
    assert (crons s !! next_cron s = None) as Hfresh.
    { apply eq_None_not_Some. intros Hk. apply Hn in Hk. lia. }
    split; simpl.
    + intros k [<-|[_ Hk]]%lookup_insert_is_Some; [lia|]. apply Hn in Hk. lia.
    + intros k Hk. apply lookup_insert_is_Some'. right. by apply Hs.
    + intros m v k Hv Hk. update_cases Hv.
      * simplify_eq. rewrite lookup_insert_eq. split_and!; [done|intros Hk; apply Hs in Hk; rewrite Hfresh in Hk; by destruct Hk|].
        intros m' v' Hv' Hk'. update_cases Hv'; [done|].
        destruct (Hst _ _ _ Hv' Hk') as [Hc _]. congruence.
      * destruct (Hst _ _ _ Hv Hk) as (Hc & Hne & Hone).
        rewrite lookup_insert_ne by congruence. split_and!; [done..|].
        intros m' v' Hv' Hk'. update_cases Hv'; [simplify_eq; congruence|by eapply Hone].
  - simplify_eq. destruct Hok as [Hn Hs Hst]. destruct (Hst _ _ _ Hu Hp) as (Hc & Hne & Hone).
    split; simpl; [done|intros k [= <-]; eauto|].
    intros m v k Hv Hk. update_cases Hv; [done|].
    destruct (Hst _ _ _ Hv Hk) as (Hc' & Hne' & Hone'). split_and!; [done| |].
    + intros [= ->]. specialize (Hone m v Hv Hk). congruence.
    + intros m' v' Hv' Hk'. update_cases Hv'; [done|by eapply Hone'].
Qed.

Lemma scheduler_ok_run s s' : scheduler_ok s → rtc schedule_step s s' → scheduler_ok s'.
Proof.
  intros Hok. induction 1 as [|s1 s2 s3 Hstep _ IH]; [done|]. apply IH.
  destruct Hstep as [s n s' Hs|s n x s' Hs|s n schedule Hnone]; [by eapply scheduler_ok_step| |].
  - unfold update_fails in Hs. destruct (updates s !! n) as [u|] eqn:Hu; simpl in Hs; [|done].
    case_match; simplify_eq. by apply scheduler_ok_phase.
  - destruct Hok as [Hn Hs Hst]. split; simpl; [done..|].
    intros m v k Hv Hk. update_cases Hv; [done|].
    destruct (Hst _ _ _ Hv Hk) as (? & ? & Hone). split_and!; [done..|].
    intros m' v' Hv' Hk'. update_cases Hv'; [done|by eapply Hone].
Qed.

(** Nothing stops an instance that nobody refers to. *)
Lemma leaked_step s s' k :
  scheduler_ok s → leaked s k → schedule_step s s' → leaked s' k ∧ crons s' !! k = crons s !! k.
Proof.
  intros [Hn Hs Hst] (Hk & Hne & Hno) Hstep.
  assert (∀ n u p, updates s !! n = Some u → p ≠ update_started k → ∀ m v,
    <[n:=mkUpdate (u_schedule u) p]> (updates s) !! m = Some v → u_phase v ≠ update_started k)
    as Hrest.
  { intros n u p Hu Hp m v Hv. update_cases Hv; [done|by eapply Hno]. }
  destruct Hstep as [s n s' Hstep|s n x s' Hstep|s n schedule Hnone].
  - unfold update_step, at_phase in Hstep.
    destruct (updates s !! n) as [u|] eqn:Hu; simpl in Hstep; [|done].
    destruct (u_phase u) as [| | |j|r] eqn:Hp; [| | | |done].
    + case_match; simplify_eq; (split; [|done]); split_and!; try done; by eapply Hrest.
    + assert (stop_cron s !! k = crons s !! k) as Hsame.
      { unfold stop_cron. destruct (stop_function s) as [[j|]|]; try done.
        rewrite lookup_delete_ne; congruence. }
      simplify_eq. unfold leaked. simpl. rewrite Hsame. split_and!; try done.
      eapply Hrest; [done|]. by case_match.
    + case_match; simplify_eq; [|split; [|done]; split_and!; try done; by eapply Hrest].
      pose proof (Hn _ Hk). unfold leaked. simpl. rewrite lookup_insert_ne by lia.
      split_and!; try done. eapply Hrest; [done|]. intros [=]. lia.
    + simplify_eq. split; [|done]. split_and!; simpl; [done| |by eapply Hrest].
      intros [= ->]. by apply (Hno n u).
  - unfold update_fails in Hstep. destruct (updates s !! n) as [u|] eqn:Hu; simpl in Hstep; [|done].
    case_match; simplify_eq. split; [|done]. split_and!; try done. by eapply Hrest.
  - split; [|done]. split_and!; simpl; [done..|]. intros m v Hv. update_cases Hv; [done|].
    by eapply Hno.
Qed.

Lemma leaked_run s s' k :
  scheduler_ok s → leaked s k → rtc schedule_step s s' →
  leaked s' k ∧ crons s' !! k = crons s !! k.
Proof.
  intros Hok Hl Hrun. revert Hok Hl. induction Hrun as [|s1 s2 s3 Hstep _ IH]; [done|].
  intros Hok Hl. destruct (leaked_step _ _ _ Hok Hl Hstep) as [Hl2 <-]. apply IH; [|done].
  eapply scheduler_ok_run; [done|]. by apply rtc_once.
Qed.

(** ** One replacement at a time *)

Definition one_replacing (s : Scheduler) : Prop :=
  ∀ n m u v, updates s !! n = Some u → updates s !! m = Some v → replacing u = true →
    replacing v = true → n = m.
Definition alone_step (s s' : Scheduler) : Prop := schedule_step s s' ∧ one_replacing s'.

(** What runs can be stopped, or is about to be; a call that replaces found nothing left. *)
Definition stoppable (s : Scheduler) : Prop :=
  (∀ k, is_Some (crons s !! k) → stop_function s = Some (Some k) ∨
     ∃ n u, updates s !! n = Some u ∧ u_phase u = update_started k) ∧
  ∀ n u, updates s !! n = Some u → replacing u = true → ∀ k, stop_function s ≠ Some (Some k).

Lemma stoppable_step s s' :
  stoppable s → one_replacing s → schedule_step s s' → stoppable s'.
Proof.
  intros [Hrun Hrep] Hone Hstep.
  assert (∀ n u p k m v, updates s !! n = Some u → (∀ j, u_phase u ≠ update_started j) →
    updates s !! m = Some v → u_phase v = update_started k →
    ∃ m' v', <[n:=mkUpdate (u_schedule u) p]> (updates s) !! m' = Some v' ∧
      u_phase v' = update_started k) as Hkeep.
  { intros n u p k m v Hu Hp Hv Hk. exists m, v. split; [|done].
    rewrite lookup_insert_ne; [done|]. intros <-. simplify_eq. by destruct (Hp k). }
  assert (∀ st n u p, updates s !! n = Some u → (∀ j, u_phase u ≠ update_started j) →
    replacing (mkUpdate (u_schedule u) p) = false →
    stoppable (mkScheduler st (crons s) (next_cron s) (stop_function s)
      (<[n:=mkUpdate (u_schedule u) p]> (updates s)))) as Hphase.
  { intros st n u p Hu Hp Hr. split; simpl.
    - intros k Hk. destruct (Hrun k Hk) as [?|(m & v & Hv & Hvk)]; [by left|right; by eapply Hkeep].
    - intros m v Hv Hmv. update_cases Hv; [congruence|by eapply Hrep]. }
  destruct Hstep as [s n s' Hstep|s n x s' Hstep|s n schedule Hnone].
  - unfold update_step, at_phase in Hstep.
    destruct (updates s !! n) as [u|] eqn:Hu; simpl in Hstep; [|done].
    destruct (u_phase u) as [| | |j|r] eqn:Hp; [| | | |done].
    + case_match; simplify_eq; apply Hphase; try done; by rewrite Hp.
    + simplify_eq. split; simpl; [|done]. intros k Hk. right.
      unfold stop_cron in Hk. destruct (Hrun k) as [Hstop|(m & v & Hv & Hvk)].
      * destruct (stop_function s) as [[j|]|]; [|done..]. apply lookup_delete_is_Some in Hk. tauto.
      * rewrite Hstop in Hk. apply lookup_delete_is_Some in Hk. tauto.
      * eapply Hkeep; [done|by rewrite Hp|done..].
    + assert (∀ k, stop_function s ≠ Some (Some k)) as Hno.
      { apply (Hrep n u Hu). unfold replacing. by rewrite Hp. }
      case_match; simplify_eq; [|apply Hphase; try done; by rewrite Hp].
      split; simpl; [|by intros]. intros k Hk. right.
      apply lookup_insert_is_Some in Hk as [<-|[_ Hk]]; [exists n; eexists; by rewrite lookup_insert_eq|].
      destruct (Hrun k Hk) as [?|(m & v & Hv & Hvk)]; [by destruct (Hno k)|].
      eapply Hkeep; [done|by rewrite Hp|done..].
    + assert (replacing u = true) as Hru by (unfold replacing; by rewrite Hp).
      simplify_eq. split; simpl.
      * intros k Hk. destruct (decide (k = j)) as [->|Hne]; [by left|right].
        destruct (Hrun k Hk) as [Hstop|(m & v & Hv & Hvk)]; [by destruct (Hrep n u Hu Hru k)|].
        exists m, v. rewrite lookup_insert_ne; [done|]. intros <-. congruence.
      * intros m v Hv Hmv. update_cases Hv; [done|]. by destruct (Hone n m u v).
  - unfold update_fails in Hstep. destruct (updates s !! n) as [u|] eqn:Hu; simpl in Hstep; [|done].
    destruct (u_phase u) eqn:Hp; simplify_eq. apply Hphase; try done. by rewrite Hp.
  - split; simpl.
    + intros k Hk. destruct (Hrun k Hk) as [?|(m & v & Hv & Hvk)]; [by left|right].
      exists m, v. rewrite lookup_insert_ne; [done|]. intros <-. congruence.
    + intros m v Hv Hmv. update_cases Hv; [done|by eapply Hrep].
Qed.

Lemma idle_stoppable s : idle s → stoppable s.
Proof.
  intros (_ & Hno & Hrun). split; [intros k Hk; left; by apply Hrun|].
  intros n u Hu Hr. by rewrite (Hno n u Hu) in Hr.
Qed.

Lemma idle_one_replacing s : idle s → one_replacing s.
Proof. intros (_ & Hno & _) n m u v Hu _ Hr. by rewrite (Hno n u Hu) in Hr. Qed.

Lemma alone_stoppable s s' :
  stoppable s → one_replacing s → rtc alone_step s s' → stoppable s'.
Proof.
  intros Hs Ho Hrun. revert Hs Ho. induction Hrun as [|s1 s2 s3 [Hstep Hone] _ IH]; [done|].
  intros Hs Ho. apply IH; [by eapply stoppable_step|done].
Qed.

Lemma stoppable_not_leaked s k : stoppable s → ¬ leaked s k.
Proof.
  intros [Hrun _] (Hk & Hne & Hno). destruct (Hrun k Hk) as [?|(n & u & Hu & Hp)]; [done|].
  by apply (Hno n u).
Qed.

(** ** The two ways *)

(** What [Reaper] sees of the state. *)
Definition cron_of (s : Scheduler) : Cron :=
  mkCron (match stop_function s with
          | Some (Some k) => option_list (crons s !! k)
          | _ => []
          end)
    ((λ o, k ← o; crons s !! k) <$> stop_function s).

Lemma run_updates_app ns ns' s :
  run_updates (ns ++ ns') s = s' ← run_updates ns s; run_updates ns' s'.
Proof.
  unfold run_updates. rewrite foldl_app. destruct (foldl _ _ ns) as [s'|]; [done|].
  induction ns' as [|n ns' IH]; [done|exact IH].
Qed.

Lemma run_updates_steps ns s s' : run_updates ns s = Some s' → rtc schedule_step s s'.
Proof.
  revert s'. induction ns as [|n ns IH] using rev_ind; intros s'.
  - by intros [= ->].
  - rewrite run_updates_app. destruct (run_updates ns s) as [s1|]; [|done]. intros Hlast.
    eapply rtc_r; [by apply IH|]. by eapply schedule_advance.
Qed.

Lemma idle_stop_cron s : idle s → stop_cron s = ∅.
Proof.
  intros (_ & _ & Hrun). apply map_empty. intros k. apply eq_None_not_Some. intros Hk.
  unfold stop_cron in Hk. destruct (stop_function s) as [[j|]|] eqn:Hs.
  - apply lookup_delete_is_Some in Hk as [Hne Hk]. apply Hrun in Hk. congruence.
  - by apply Hrun in Hk.
  - by apply Hrun in Hk.
Qed.

Lemma stop_current_cron_of s : scheduler_ok s → stop_current (cron_of s) = mkCron [] None.
Proof.
  intros [_ Hs _]. unfold stop_current, cron_of. destruct (stop_function s) as [[k|]|] eqn:Hk; [|done..].
  simpl. destruct (Hs k eq_refl) as [x ->]. simpl. by rewrite bool_decide_true.
Qed.

Lemma idle_returned s n u r ns s' :
  idle s → run_updates ns s = Some s' →
  updates s' = <[n:=mkUpdate u (update_returned r)]> (updates s) →
  (∀ k, is_Some (crons s' !! k) → stop_function s' = Some (Some k)) → idle s'.
Proof.
  intros (Hok & Hno & _) Hrun Hus Hcs. split_and!; [|rewrite Hus|done].
  - eapply scheduler_ok_run; [done|]. by eapply run_updates_steps.
  - intros m v Hv. update_cases Hv; [done|by eapply Hno].
Qed.

(** The statements of an update beside which no other call is replacing an instance. *)
Lemma lone_update_run s n schedule :
  idle s → updates s !! n = Some (mkUpdate schedule update_begun) →
  let returned r := <[n:=mkUpdate schedule (update_returned r)]> (updates s) in
  if negb (bool_decide (schedule = "")) && negb (cron_valid schedule)
  then run_updates [n] s = Some (mkScheduler (stored_schedule s) (crons s) (next_cron s)
         (stop_function s) (returned (Err ErrCronSchedule)))
  else if bool_decide (schedule = "")
  then run_updates [n; n] s = Some (mkScheduler schedule ∅ (next_cron s) None (returned (Ok tt)))
  else run_updates [n; n; n; n] s = Some (mkScheduler schedule {[next_cron s := schedule]}
         (S (next_cron s)) (Some (Some (next_cron s))) (returned (Ok tt))).
Proof.
  intros Hidle Hu returned. pose proof (idle_stop_cron s Hidle) as Hstop.
  unfold run_updates, update_step. simpl. rewrite Hu. simpl.
  destruct (negb _ && negb _) eqn:Hv; [done|]. simpl. rewrite lookup_insert_eq. simpl.
  change (stop_cron (mkScheduler _ _ _ _ _)) with (stop_cron s). rewrite Hstop.
  case_bool_decide as He; simpl; [by rewrite insert_insert_eq|].
  rewrite lookup_insert_eq. simpl. destruct (cron_valid schedule); [|done]. simpl.
  rewrite lookup_insert_eq. simpl. by rewrite !insert_insert_eq.
Qed.

Context `{PG : Postgres} `{STO : Storage}.

(** An update beside which no other call is replacing an instance does what
    [UpdateDeleteReaperSchedule] does in one step, to the instances and to the settings. *)
Lemma lone_update_is_atomic s n schedule e w :
  idle s → updates s !! n = Some (mkUpdate schedule update_begun) → w_faults w = [] →
  default "" (system_settings (w_db w) !! delete_reaper_schedule) = stored_schedule s →
  ∃ k s' r w', run_updates (replicate k n) s = Some s' ∧
    updates s' !! n = Some (mkUpdate schedule (update_returned r)) ∧
    UpdateDeleteReaperSchedule cron_valid schedule (cron_of s) e w = (Ok (r, cron_of s'), w') ∧
    default "" (system_settings (w_db w') !! delete_reaper_schedule) = stored_schedule s' ∧
    idle s'.
Proof.
  intros Hidle Hu Hf Hset. pose proof (lone_update_run s n schedule Hidle Hu) as Hrun.
  pose proof Hidle as (Hok & _ & Hcs). unfold UpdateDeleteReaperSchedule.
  destruct (negb _ && negb _) eqn:Hv.
  { exists 1%nat. eexists _, _, _. split_and!; [exact Hrun|apply lookup_insert_eq|done|done|].
    by eapply idle_returned. }
  rewrite run_bind, run_try, pool_stmt_calm by done. simpl. rewrite stop_current_cron_of by done.
  case_bool_decide as He; simpl in Hrun.
  - exists 2%nat. eexists _, _, _. split_and!; [exact Hrun|apply lookup_insert_eq|done| |].
    + simpl. by rewrite lookup_insert_eq.
    + eapply idle_returned; [done|exact Hrun|done|]. simpl. intros k. rewrite lookup_empty. by intros [].
  - exists 4%nat. eexists _, _, _. split_and!; [exact Hrun|apply lookup_insert_eq| | |].
    + unfold StartDeleteReaper, cron_of. rewrite bool_decide_false by done. simpl.
      rewrite lookup_singleton_eq. by destruct (cron_valid schedule).
    + simpl. by rewrite lookup_insert_eq.
    + eapply idle_returned; [done|exact Hrun|done|]. simpl. intros k.
      rewrite lookup_singleton_is_Some. by intros ->.
Qed.

(** Two calls, the second of which stops before the first has stored its stop function. *)
Lemma leaking_run s n m a b :
  idle s → n ≠ m → a ≠ "" → b ≠ "" → cron_valid a = true → cron_valid b = true →
  updates s !! n = Some (mkUpdate a update_begun) →
  updates s !! m = Some (mkUpdate b update_begun) →
  ∃ us, run_updates [n; m; n; m; n; n; m; m] s =
    Some (mkScheduler b (<[S (next_cron s):=b]> {[next_cron s := a]}) (S (S (next_cron s)))
            (Some (Some (S (next_cron s)))) us) ∧
    us !! n = Some (mkUpdate a (update_returned (Ok tt))) ∧
    us !! m = Some (mkUpdate b (update_returned (Ok tt))) ∧
    ∀ i u, us !! i = Some u → i = n ∨ i = m ∨ updates s !! i = Some u.
Proof.
  intros Hidle Hne Ha Hb Hva Hvb Hn Hm. pose proof (idle_stop_cron s Hidle) as Hstop.
  eexists. split.
  - unfold run_updates, update_step. simpl.
    repeat first [progress simpl | rewrite Hn | rewrite Hm | rewrite lookup_insert_eq
      | rewrite lookup_insert_ne by done | rewrite Hva | rewrite Hvb
      | rewrite (bool_decide_false (a = "")) by done | rewrite (bool_decide_false (b = "")) by done].
    change (stop_cron (mkScheduler _ (crons s) _ (stop_function s) _)) with (stop_cron s).
    rewrite Hstop. reflexivity.
  - split_and!.
    + by simplify_map_eq.
    + by simplify_map_eq.
    + intros i u Hi. destruct (decide (i = n)) as [->|]; [by left|].
      destruct (decide (i = m)) as [->|]; [by right; left|]. right; right.
      by rewrite !lookup_insert_ne in Hi by done.
Qed.

(** [C25] Calls that replace the instance at the same time leave one running that nothing can
    stop.  Whatever the calls and their order: an instance that neither [deleteReaperStop]
    nor a call refers to runs on with its schedule, under every later update, also one that
    disables the reaper.  None exists as long as each
    call runs from its stop of the old instance to its new stop function with no other call
    in that stretch.  But the mutex does not see to that: of any two updates with valid schedules both can succeed,
    the second be the stored one and the one that can be stopped, and the instance of the
    first run on. *)
Theorem overlapping_updates_leak_cron s0 s :
  idle s0 → rtc schedule_step s0 s →
  (∀ k s', leaked s k → rtc schedule_step s s' →
     leaked s' k ∧ crons s' !! k = crons s !! k) ∧
  (rtc alone_step s0 s → ∀ k, ¬ leaked s k) ∧
  (∀ n m a b, n ≠ m → a ≠ "" → b ≠ "" → cron_valid a = true → cron_valid b = true →
     updates s0 !! n = Some (mkUpdate a update_begun) →
     updates s0 !! m = Some (mkUpdate b update_begun) →
     ∃ s1 k k', rtc schedule_step s0 s1 ∧
       updates s1 !! n = Some (mkUpdate a (update_returned (Ok tt))) ∧
       updates s1 !! m = Some (mkUpdate b (update_returned (Ok tt))) ∧
       stored_schedule s1 = b ∧ stop_function s1 = Some (Some k') ∧ crons s1 !! k' = Some b ∧
       leaked s1 k ∧ crons s1 !! k = Some a).
Proof.
  intros Hidle Hrun. pose proof Hidle as (Hok & Hno & _).
  split_and!.
  - intros k s' Hl. apply leaked_run; [by eapply scheduler_ok_run|done].
  - intros Halone k. apply stoppable_not_leaked.
    by eapply alone_stoppable; [apply idle_stoppable|apply idle_one_replacing|].
  - intros n m a b Hne Ha Hb Hva Hvb Hn Hm.
    destruct (leaking_run s0 n m a b) as (us & Hus & Hn' & Hm' & Hother); try done.
    eexists _, (next_cron s0), (S (next_cron s0)).
    split; [by eapply run_updates_steps|]. simpl.
    split_and!; [done|done|done|done|by rewrite lookup_insert_eq| |by rewrite lookup_insert_ne, lookup_singleton_eq by lia].
    split_and!; simpl; [rewrite lookup_insert_ne, lookup_singleton_eq by lia; done|intros [=]; lia|].
    intros i u Hi. destruct (Hother i u Hi) as [->|[->|Hold]]; [by simplify_eq/=|by simplify_eq/=|].
    apply Hno in Hold. unfold replacing in Hold. by destruct (u_phase u).
Qed.
End reaper_schedule.
