(* ===== verification/Replay.v ===== *)
(** * Replay and the message log

    [backend/internal/queue/replay.go]: re-enqueueing copies of archived messages of a
    replayable topic, within its replay window, and the listing and trimming of the
    log. *)

From S2P Require Import Prelude.
From S2P Require Import Store.
From S2P Require Import Avro.
From S2P Require Import Runtime.
From S2P Require Import Model.
From S2P Require Import TopicConfig.
From S2P Require Import Throttle.
From S2P Require Import Schema.
From S2P Require Import Dequeue.
From S2P Require Import Enqueue.

(** [queue.ArchivedMessage] *)
Record ArchivedMessage := mkArchivedMessage {
  am_ID : string;
  am_Topic : string;
  am_Key : option string;
  am_Payload : string;
  am_Metadata : option (gmap string string);
  am_RetryCount : Z;
  am_CreatedAt : Z;
  AckedAt : Z;
  am_OriginalTopic : string;
}.

(** [queue.PagedResult] *)
Record PagedResult (A : Type) := mkPagedResult { Items : list A; Total : Z }.
Arguments mkPagedResult {A}.
Arguments Items {A}.
Arguments Total {A}.

Section replay.
Context `{PG : Postgres} `{ST : Storage}.

(** [ORDER BY ... LIMIT limit OFFSET offset] on ordered rows. *)
Definition sql_page {A} (limit offset : Z) (rows : list A) : result PgError (list A) :=
  if (limit <? 0) || (offset <? 0) then Err InvalidRowCount
  else Ok (take (Z.to_nat limit) (drop (Z.to_nat offset) rows)).

(** The row the replay inserts for a log row. *)
Definition replayed_row (topic : string) (l : LogRow) (expires_at : option Z) (now : Z)
    : MessageRow :=
  mkMessageRow topic (l_payload l) (l_metadata l) (l_key l) pending 0 (l_max_retries l) None
    None expires_at now now (l_original_topic l) None.

(** The insertion of the selected rows one after the other, a row that violates a
    unique index being skipped ([ON CONFLICT DO NOTHING]); [n] numbers the calls of
    [gen_random_uuid()]. *)
Fixpoint replay_rows (topic : string) (expires_at : option Z) (e : Env) (n : nat)
    (rows : list LogRow) (db : DB) : Z * DB :=
  match rows with
  | [] => (0, db)
  | l :: rows' =>
      match insert_message (pg_now e) (new_uuid e n)
              (replayed_row topic l expires_at (pg_now e)) db with
      | Ok db' =>
          let '(count, db'') := replay_rows topic expires_at e (S n) rows' db' in
          (count + 1, db'')
      | Err _ => replay_rows topic expires_at e (S n) rows' db
      end
  end.

(** [WHERE topic = $1 AND acked_at >= $2], the second condition if there is a bound. *)
Definition in_replay (topic : string) (from : option Z) (k : string * Z * uuid) : Prop :=
  k.1.1 = topic ∧ match from with Some t => t ≤ k.1.2 | None => True end.
#[export] Instance in_replay_dec topic from k : Decision (in_replay topic from k).
Proof. unfold in_replay. destruct from; apply _. Defined.

Definition archived_rows (topic : string) (from : option Z) (db : DB) : list LogRow :=
  (map_to_list (filter (λ kl, in_replay topic from kl.1) (message_log db))).*2.

Definition sql_replay (topic : string) (from expires_at : option Z) (e : Env) (db : DB)
    : result PgError (Z * DB) :=
  Ok (replay_rows topic expires_at e 0 (returning (archived_rows topic from db)) db).

(** The start of the replay window, in nanoseconds; [None] is the zero time. *)
Definition windowStart (cfg : TopicConfig) (now : Z) : option Z :=
  match ReplayWindowSeconds cfg with
  | Some window => if 0 <? window then Some (now + wrap64 (- window * Second)) else None
  | None => None
  end.

(** [fromTime] is [None] for the zero time. *)
Definition ReplayTopic (s : Service) (topic : string) (fromTime : option Z) : M Z :=
  cfg ← GetTopicConfig topic;
  match cfg with
  | None => fail ErrTopicNotReplayable
  | Some cfg =>
      if negb (Replayable cfg) then fail ErrTopicNotReplayable
      else
        e ← ask;
        let start := windowStart cfg (go_now e) in
        let too_old := match fromTime, start with
                       | Some from, Some start => from <? start
                       | _, _ => false
                       end in
        if too_old then fail ErrReplayWindowTooOld
        else
          let effectiveFrom := match fromTime with Some _ => fromTime | None => start end in
          let expiresAt := resolveExpiresAt s (Some cfg) (go_now e) in
          n ← pool_stmt "replay insert"
                (sql_replay topic (pg_of_go <$> effectiveFrom) (pg_of_go <$> expiresAt));
          (if 0 <? n then record (RecordReplay topic n) else mret tt);;
          mret n
  end.

(** The scan of a row of [message_log]. *)
Definition archived_message (k : string * Z * uuid) (l : LogRow) : result Error ArchivedMessage :=
  match hydrate_metadata (l_metadata l) with
  | Err x => Err x
  | Ok md =>
      Ok (mkArchivedMessage k.2 k.1.1 (l_key l) (l_payload l) md (l_retry_count l)
            (l_created_at l) k.1.2 (default "" (l_original_topic l)))
  end.

(** The loops over rows that stop at the first row that does not scan. *)
Fixpoint collect {A B} (scan : A → result Error B) (rows : list A) : result Error (list B) :=
  match rows with
  | [] => Ok []
  | row :: rows' =>
      match scan row with
      | Err x => Err x
      | Ok b => match collect scan rows' with Ok bs => Ok (b :: bs) | Err x => Err x end
      end
  end.

(** The rows of a topic's log, the most recently acknowledged first. *)
Definition log_of_topic (topic : string) (db : DB) : list (string * Z * uuid * LogRow) :=
  order_by (λ kl, - kl.1.1.2)
    (map_to_list (filter (λ kl, kl.1.1.1 = topic) (message_log db))).

Definition ListMessageLog (topic : string) (limit offset : Z)
    : M (PagedResult ArchivedMessage) :=
  total ← pool_query "list message log count"
            (λ _ db, Z.of_nat (size (filter (λ kl, kl.1.1.1 = topic) (message_log db))));
  rows ← pool_stmt "list message log"
           (λ _ db, match sql_page limit offset (log_of_topic topic db) with
                    | Ok rows => Ok (rows, db) | Err x => Err x end);
  msgs ← lift (collect (λ kl, archived_message kl.1 kl.2) rows);
  mret (mkPagedResult msgs total).

Definition before_in_topic (topic : string) (before : Z) (k : string * Z * uuid) : Prop :=
  k.1.1 = topic ∧ k.1.2 < before.
#[export] Instance before_in_topic_dec topic before k : Decision (before_in_topic topic before k).
Proof. unfold before_in_topic. apply _. Defined.

(** [before] is a Go instant. *)
Definition TrimMessageLog (topic : string) (before : Z) : M Z :=
  pool_stmt "trim message log"
    (λ _ db,
       let P kl := before_in_topic topic (pg_of_go before) kl.1 in
       Ok (Z.of_nat (size (filter P (message_log db))),
           set_log (filter (λ kl, ¬ P kl) (message_log db)) db)).

(** ** What a replay inserts *)

Context `{LAWS : !PostgresLaws} `{SLAWS : !StorageLaws}.

Lemma insert_message_Ok now id r db db' :
  insert_message now id r db = Ok db' →
  messages db !! id = None ∧ key_free id r (messages db) ∧
  messages db' = <[id:=r]> (messages db) ∧ message_log db' = message_log db ∧
  topic_config db' = topic_config db ∧ topic_schemas db' = topic_schemas db.
Proof. unfold insert_message. case_decide as Hd; [|done]. intros [= <-]. naive_solver. Qed.

(** The ids the loop will use from the [n]-th on are new. *)
Definition fresh_from (e : Env) (n : nat) (db : DB) : Prop :=
  ∀ m, (n ≤ m)%nat → messages db !! new_uuid e m = None.

(** The loop, on any list of rows: what it keeps and what it adds. *)
Lemma replay_rows_sound topic exp e n rows db count db' :
  replay_rows topic exp e n rows db = (count, db') → db_ok db →
  db_ok db' ∧ messages db ⊆ messages db' ∧
  count = Z.of_nat (size (messages db')) - Z.of_nat (size (messages db)) ∧
  message_log db' = message_log db ∧
  topic_config db' = topic_config db ∧ topic_schemas db' = topic_schemas db ∧
  (∀ i r, messages db' !! i = Some r → messages db !! i = None →
     ∃ l, l ∈ rows ∧ r = replayed_row topic l exp (pg_now e)).
Proof.
  revert n db count db'. induction rows as [|l rows IH]; intros n db count db' Hrun Hok; simpl in *.
  { injection Hrun as <- <-. split_and!; try done; [lia|]. intros i r Hi Hn. congruence. }
  destruct (insert_message _ _ _ _) as [db1|] eqn:Hins.
  - destruct (replay_rows _ _ _ _ rows db1) as [c1 db2] eqn:Hrest. injection Hrun as <- <-.
    pose proof (insert_message_ok _ _ _ _ _ Hins Hok) as Hok1.
    apply insert_message_Ok in Hins as (Hid & _ & Hm & Hl & Hc & Hs).
    destruct (IH _ _ _ _ Hrest Hok1) as (Hok2 & Hsub & Hcount & Hl2 & Hc2 & Hs2 & Hnew).
    split_and!; [done| | |congruence..|].
    + etrans; [|done]. rewrite Hm. by apply insert_subseteq.
    + rewrite Hcount, Hm, map_size_insert_None by done. lia.
    + intros i r Hi Hn. destruct (decide (i = new_uuid e n)) as [->|Hne].
      * exists l. split; [by left|].
        assert (messages db2 !! new_uuid e n =
                  Some (replayed_row topic l exp (pg_now e))) as Hi2.
        { eapply lookup_weaken, Hsub. by rewrite Hm, lookup_insert_eq. }
        congruence.
      * destruct (Hnew i r Hi) as (l' & Hl' & ->);
          [by rewrite Hm, lookup_insert_ne|]. exists l'. split; [by right|done].
  - destruct (IH _ _ _ _ Hrun Hok) as (Hok2 & Hsub & Hcount & Hl2 & Hc2 & Hs2 & Hnew).
    split_and!; try done. intros i r Hi Hn.
    destruct (Hnew i r Hi Hn) as (l' & ? & ->). exists l'. split; [by right|done].
Qed.

(** With fresh ids no row is lost: each is inserted or meets a pending message with its
    key. *)
Lemma replay_rows_complete topic exp e n rows db count db' l :
  replay_rows topic exp e n rows db = (count, db') → db_ok db →
  fresh_from e n db → Inj (=) (=) (new_uuid e) → l ∈ rows →
  ∃ i r, messages db' !! i = Some r ∧
    (r = replayed_row topic l exp (pg_now e) ∨
     key_clash (replayed_row topic l exp (pg_now e)) r).
Proof.
  intros Hrun Hok Hfresh Hinj. revert n db count db' Hrun Hok Hfresh.
  induction rows as [|l' rows IH]; intros n db count db' Hrun Hok Hfresh Hin; simpl in *.
  { by destruct (not_elem_of_nil l). }
  destruct (insert_message _ _ _ _) as [db1|] eqn:Hins.
  - destruct (replay_rows _ _ _ _ rows db1) as [c1 db2] eqn:Hrest. injection Hrun as <- <-.
    pose proof (insert_message_ok _ _ _ _ _ Hins Hok) as Hok1.
    apply insert_message_Ok in Hins as (Hid & _ & Hm & _).
    destruct (replay_rows_sound _ _ _ _ _ _ _ _ Hrest Hok1) as (_ & Hsub & _).
    apply elem_of_cons in Hin as [->|Hin].
    + eexists _, _. split; [|by left]. eapply lookup_weaken, Hsub.
      by rewrite Hm, lookup_insert_eq.
    + eapply IH; [done..| |done]. intros m Hm'. rewrite Hm, lookup_insert_ne;
        [apply Hfresh; lia|]. intros Heq%(inj _). lia.
  - assert (fresh_from e (S n) db) by (intros m Hm; apply Hfresh; lia).
    apply elem_of_cons in Hin as [->|Hin]; [|by eapply IH].
    unfold insert_message in Hins. case_decide as Hd; [done|].
    destruct (decide (key_free (new_uuid e n) (replayed_row topic l' exp (pg_now e))
      (messages db))) as [Hfree|Hclash]; [by destruct Hd; split; [apply Hfresh|]|].
    apply map_not_Forall in Hclash as (j & rj & Hj & Hc); [|apply _].
    assert (key_clash (replayed_row topic l' exp (pg_now e)) rj) as Hcl.
    { destruct (decide (key_clash (replayed_row topic l' exp (pg_now e)) rj)) as [|Hn]; [done|].
      by destruct Hc. }
    destruct (replay_rows_sound _ _ _ _ _ _ _ _ Hrun Hok) as (_ & Hsub & _).
    exists j, rj. split; [by eapply lookup_weaken|by right].
Qed.

Lemma archived_rows_elem topic from db l :
  l ∈ archived_rows topic from db ↔
  ∃ at_ i, message_log db !! (topic, at_, i) = Some l ∧
    match from with Some t => t ≤ at_ | None => True end.
Proof.
  unfold archived_rows. rewrite list_elem_of_fmap. split.
  - intros ([[[t at_] i] l'] & -> & [Hl [Ht Hf]]%elem_of_map_to_list%map_lookup_filter_Some).
    simpl in *. subst t. eauto.
  - intros (at_ & i & Hl & Hf). exists ((topic, at_, i), l). split; [done|].
    apply elem_of_map_to_list, map_lookup_filter_Some. by split.
Qed.

(** [C37] A successful replay of a topic: the topic is replayable and the requested start
    is not before its window; the number returned is the number of messages added;
    every added message is a pending copy of a log row of the topic acknowledged no
    earlier than the requested start or, without one, than the start of the window,
    with retries reset and a new TTL; every such log row is replayed, except where a
    pending message has its key; messages that were there, and the log, are kept, and
    the constraints hold. *)
Theorem replay_exact s topic from e w n w' :
  coherent w → db_ok (w_db w) → fresh_from e 0 (w_db w) → Inj (=) (=) (new_uuid e) →
  ReplayTopic s topic from e w = (Ok n, w') →
  ∃ cfg, topic_config (w_db w) !! topic = Some cfg ∧ Replayable cfg = true ∧
    let start := windowStart cfg (go_now e) in
    (∀ f st, from = Some f → start = Some st → st ≤ f) ∧
    let bound := pg_of_go <$> match from with Some _ => from | None => start end in
    let row l := replayed_row topic l (pg_of_go <$> resolveExpiresAt s (Some cfg) (go_now e))
                   (pg_now e) in
    let due l := ∃ at_ i, message_log (w_db w) !! (topic, at_, i) = Some l ∧
      match bound with Some t => t ≤ at_ | None => True end in
    n = Z.of_nat (size (messages (w_db w'))) - Z.of_nat (size (messages (w_db w))) ∧
    messages (w_db w) ⊆ messages (w_db w') ∧
    (∀ i r, messages (w_db w') !! i = Some r → messages (w_db w) !! i = None →
       ∃ l, due l ∧ r = row l) ∧
    (∀ l, due l → ∃ i r, messages (w_db w') !! i = Some r ∧ (r = row l ∨ key_clash (row l) r)) ∧
    message_log (w_db w') = message_log (w_db w) ∧ db_ok (w_db w').
Proof.
  intros Hw Hok Hfresh Hinj Hrun. unfold ReplayTopic in Hrun.
  apply bind_Ok in Hrun as (c & w1 & Hget & Hrun).
  destruct (GetTopicConfig_correct topic e w Hw) as [_ Hans].
  destruct (GetTopicConfig_neutral topic e w) as [Hdb _]. rewrite Hget in Hans, Hdb. simpl in Hdb.
  specialize (Hans c eq_refl). subst c.
  destruct (topic_config (w_db w) !! topic) as [cfg|]; [|done].
  exists cfg. split; [done|]. destruct (Replayable cfg); [|done]. split; [done|]. simpl in Hrun.
  apply bind_Ok in Hrun as (e' & w1' & [= <- <-] & Hrun). intros start. fold start in Hrun.
  destruct (match from with Some _ => _ | None => _ end) eqn:Hold in Hrun; [done|].
  split.
  { intros f st -> ->. by reflect_bools. }
  intros bound row due.
  apply bind_Ok in Hrun as (m & w2 & (fs & db' & Hq & ->)%pool_stmt_Ok & Hrun).
  unfold sql_replay in Hq. injection Hq as Hq. rewrite Hdb in Hq.
  apply bind_Ok in Hrun as (u & w3 & Hrec & [-> ->]%ret_Ok).
  assert (w_db w3 = db') as ->.
  { case_match; [apply record_Ok in Hrec|apply ret_Ok in Hrec as [_ ?]]; by subst. }
  fold bound in Hq.
  destruct (replay_rows_sound _ _ _ _ _ _ _ _ Hq Hok) as (Hok' & Hsub & Hcount & Hlog & _ & _ & Hnew).
  split_and!; try done.
  - intros i r Hi Hn. destruct (Hnew i r Hi Hn) as (l & Hl & ->). exists l. split; [|done].
    rewrite returning_perm in Hl. by apply archived_rows_elem.
  - intros l Hl. eapply replay_rows_complete; [done..|].
    rewrite returning_perm. by apply archived_rows_elem.
Qed.

(** ** Listing and trimming *)

Lemma collect_Ok {A B} (scan : A → result Error B) rows bs :
  collect scan rows = Ok bs → Forall2 (λ row b, scan row = Ok b) rows bs.
Proof.
  revert bs. induction rows as [|row rows IH]; simpl; intros bs H; [by simplify_eq|].
  destruct (scan row) as [b|] eqn:Hs; [|done].
  destruct (collect scan rows); [|done]. simplify_eq. constructor; auto.
Qed.

Lemma StronglySorted_page {A} (R : relation A) (n m : nat) l :
  StronglySorted R l → StronglySorted R (take n (drop m l)).
Proof.
  intros Hs. rewrite <-(take_drop m l) in Hs. apply StronglySorted_app in Hs as (_ & _ & Hs).
  rewrite <-(take_drop n (drop m l)) in Hs. by apply StronglySorted_app in Hs as (_ & Hs & _).
Qed.

Lemma StronglySorted_Forall2 {A B} (R : relation A) (R' : relation B) (P : A → B → Prop) l l' :
  (∀ a b a' b', P a b → P a' b' → R a a' → R' b b') →
  Forall2 P l l' → StronglySorted R l → StronglySorted R' l'.
Proof.
  intros HR. induction 1 as [|a b l l' Hab Hl IH]; [constructor|].
  intros [Hs Hall]%StronglySorted_inv. constructor; [by apply IH|].
  clear IH Hs. induction Hl as [|a' b' l l' ?? IH]; [constructor|].
  apply Forall_cons in Hall as [? ?]. constructor; [by eapply HR|by apply IH].
Qed.

Lemma size_filter_split (P : string * Z * uuid * LogRow → Prop) `{∀ x, Decision (P x)}
    (m : gmap (string * Z * uuid) LogRow) :
  size m = (size (filter P m) + size (filter (λ x, ¬ P x) m))%nat.
Proof.
  rewrite <-(map_filter_union_complement P m) at 1.
  apply map_size_disj_union, map_disjoint_filter_complement.
Qed.

Lemma archived_message_fields k l m :
  archived_message k l = Ok m →
  am_ID m = k.2 ∧ am_Topic m = k.1.1 ∧ AckedAt m = k.1.2 ∧ am_Payload m = l_payload l ∧
  am_Key m = l_key l.
Proof. unfold archived_message. destruct (hydrate_metadata _); [|done]. by intros [= <-]. Qed.

Lemma ListMessageLog_Ok topic limit offset e w page w' :
  ListMessageLog topic limit offset e w = (Ok page, w') →
  0 ≤ limit ∧ 0 ≤ offset ∧
  Total page = Z.of_nat (size (filter (λ kl, kl.1.1.1 = topic) (message_log (w_db w)))) ∧
  Forall2 (λ kl m, archived_message kl.1 kl.2 = Ok m)
    (take (Z.to_nat limit) (drop (Z.to_nat offset) (log_of_topic topic (w_db w)))) (Items page).
Proof.
  intros (tot & w1 & (fs & db1 & [= <- <-] & ->)%pool_stmt_Ok & H)%bind_Ok.
  apply bind_Ok in H as (rows & w2 & (fs2 & db2 & Hq & ->)%pool_stmt_Ok & H). simpl in Hq.
  apply bind_Ok in H as (msgs & w3 & [Hcol ->]%lift_Ok & [-> _]%ret_Ok). simpl.
  unfold sql_page in Hq. destruct (_ || _) eqn:Hneg; [done|]. injection Hq as <- _.
  reflect_bools. split_and!; [done..|]. by apply collect_Ok.
Qed.

Lemma order_by_take_all {A} (key : A → Z) l x : x ∈ order_by key l → x ∈ l.
Proof. by rewrite order_by_perm. Qed.

(** Trimming and listing the log: [TrimMessageLog] removes, and counts, exactly the
    rows of the topic acknowledged before the instant given; a page of [ListMessageLog]
    carries the topic's total and at most [limit] of its rows, latest acknowledgement
    first, and a negative [limit] or [offset] is refused by the server. *)
Theorem message_log_trim_and_page topic before limit offset e w n w1 page w2 :
  TrimMessageLog topic before e w = (Ok n, w1) →
  ListMessageLog topic limit offset e w1 = (Ok page, w2) →
  n = Z.of_nat (size (message_log (w_db w))) - Z.of_nat (size (message_log (w_db w1))) ∧
  (∀ t at_ i l, message_log (w_db w1) !! (t, at_, i) = Some l ↔
     message_log (w_db w) !! (t, at_, i) = Some l ∧ ¬ (t = topic ∧ at_ < pg_of_go before)) ∧
  0 ≤ limit ∧ 0 ≤ offset ∧ Z.of_nat (length (Items page)) ≤ limit ∧
  Total page = Z.of_nat (size (filter (λ kl, kl.1.1.1 = topic) (message_log (w_db w1)))) ∧
  StronglySorted (λ a b, AckedAt b ≤ AckedAt a) (Items page) ∧
  Forall (λ m, am_Topic m = topic ∧ pg_of_go before ≤ AckedAt m ∧
    ∃ l, message_log (w_db w) !! (topic, AckedAt m, am_ID m) = Some l ∧
         am_Payload m = l_payload l ∧ am_Key m = l_key l) (Items page).
Proof.
  intros (fs & db1 & [= <- <-] & ->)%pool_stmt_Ok.
  intros (Hl & Ho & Htot & Hitems)%ListMessageLog_Ok. simpl in *.
  set (P kl := before_in_topic topic (pg_of_go before) kl.1).
  set (rows := log_of_topic topic _) in Hitems. split_and!; try done.
  - rewrite (size_filter_split P (message_log (w_db w))). unfold P. lia.
  - intros t at_ i l. rewrite map_lookup_filter_Some. done.
  - apply Forall2_length in Hitems. rewrite length_take in Hitems. lia.
  - eapply StronglySorted_Forall2; [|exact Hitems|].
    2: { apply StronglySorted_page. apply order_by_sorted. }
    simpl. intros a b a' b' (_&_&->&_)%archived_message_fields (_&_&->&_)%archived_message_fields.
    lia.
  - apply Forall_forall. intros m Hm.
    apply list_elem_of_lookup_1 in Hm as [n Hn].
    destruct (Forall2_lookup_r _ _ _ _ _ Hitems Hn) as ([[[t at_] i] l] & Hkl & Hm).
    apply archived_message_fields in Hm as (-> & -> & -> & -> & ->).
    apply list_elem_of_lookup_2, (subseteq_take _ _) in Hkl.
    apply (subseteq_drop _ _), order_by_take_all in Hkl.
    apply elem_of_map_to_list, map_lookup_filter_Some in Hkl as [Hkl Ht]. simpl in *. subst t.
    apply map_lookup_filter_Some in Hkl as [Hkl Hb]. unfold before_in_topic in Hb. simpl in Hb.
    split_and!; [done| |by exists l].
    destruct (decide (at_ < pg_of_go before)); [by destruct Hb|lia].
Qed.
End replay.
