(* ===== verification/Query.v ===== *)
(** * Queries and purges

    [backend/internal/queue/query.go] and [purge.go]: the message list, the
    statistics, the topic of a message, and the two deletions an administrator can
    ask for. *)

From S2P Require Import Prelude.
From S2P Require Import Store.
From S2P Require Import Avro.
From S2P Require Import Runtime.
From S2P Require Import Model.
From S2P Require Import TopicConfig.
From S2P Require Import Throttle.
From S2P Require Import Schema.
From S2P Require Import Dequeue.
From S2P Require Import Enqueue.
From S2P Require Import Replay.

(** [queue.TopicStat] *)
Record TopicStat := mkTopicStat { stat_Topic : string; stat_Status : string; Count : Z }.

Section query.
Context `{PG : Postgres} `{ST : Storage}.

(** The list's scan, which reads the status column too. *)
Definition list_message (id : uuid) (r : MessageRow) : result Error Message :=
  match hydrate_metadata (m_metadata r) with
  | Err x => Err x
  | Ok md =>
      Ok (mkMessage id (m_topic r) (m_key r) (m_payload r) md (status_text (m_status r))
            (m_retry_count r) (m_max_retries r) (hydrate_last_error (m_last_error r))
            (m_expires_at r) (m_created_at r) (default "" (m_original_topic r))
            (m_dlq_moved_at r))
  end.

(** The rows a listing ranges over: one topic's, or all for the empty name. *)
Definition listed (topic : string) (r : MessageRow) : Prop := topic = "" ∨ m_topic r = topic.
#[export] Instance listed_dec topic r : Decision (listed topic r).
Proof. unfold listed. apply _. Defined.

Definition listed_rows (topic : string) (db : DB) : list (uuid * MessageRow) :=
  order_by (λ ir, - m_created_at ir.2)
    (map_to_list (filter (λ ir, listed topic ir.2) (messages db))).

Definition List_ (topic : string) (limit offset : Z) : M (PagedResult Message) :=
  total ← pool_query "list count"
            (λ _ db, Z.of_nat (size (filter (λ ir, listed topic ir.2) (messages db))));
  rows ← pool_stmt "list"
           (λ _ db, match sql_page limit offset (listed_rows topic db) with
                    | Ok rows => Ok (rows, db) | Err x => Err x end);
  msgs ← lift (collect (λ ir, list_message ir.1 ir.2) rows);
  mret (mkPagedResult msgs total).

(** [GROUP BY topic, status]: the groups that occur, with their sizes. *)
Definition group_of (ir : uuid * MessageRow) : string * status :=
  (m_topic ir.2, m_status ir.2).
Definition in_group (g : string * status) (ir : uuid * MessageRow) : Prop := group_of ir = g.
#[export] Instance in_group_dec g ir : Decision (in_group g ir).
Proof. unfold in_group. apply _. Defined.

Definition stat_rows (db : DB) : list TopicStat :=
  (λ g, mkTopicStat g.1 (status_text g.2)
          (Z.of_nat (length (filter (in_group g) (map_to_list (messages db))))))
    <$> remove_dups (group_of <$> map_to_list (messages db)).

Definition sql_stats (db : DB) : list TopicStat :=
  order_by_text2 stat_Topic stat_Status (stat_rows db).

Definition Stats : M (list TopicStat) := pool_query "stats" (λ _ db, sql_stats db).

Definition TopicForMessage (id : uuid) : M string :=
  row ← pool_query "topic for message" (λ _ db, m_topic <$> messages db !! id);
  match row with None => fail ErrNotFound | Some topic => mret topic end.

(** [topic = $1 AND status = ANY($2)] *)
Definition purged (topic : string) (statuses : list string) (_ : uuid) (r : MessageRow) : Prop :=
  m_topic r = topic ∧ status_text (m_status r) ∈ statuses.
#[export] Instance purged_dec t ss i r : Decision (purged t ss i r).
Proof. unfold purged. apply _. Defined.

Definition PurgeTopic (topic : string) (statuses : list string) : M Z :=
  pool_stmt "purge topic" (λ _ db, Ok (delete_messages_where (purged topic statuses) db)).

(** [topic = $1 AND key = $2] *)
Definition keyed (topic key : string) (_ : uuid) (r : MessageRow) : Prop :=
  m_topic r = topic ∧ m_key r = Some key.
#[export] Instance keyed_dec t k i r : Decision (keyed t k i r).
Proof. unfold keyed. apply _. Defined.

Definition PurgeByKey (topic key : string) : M Z :=
  pool_stmt "purge by key" (λ _ db, Ok (delete_messages_where (keyed topic key) db)).

(** ** Purges *)

Lemma size_filter_messages (P : uuid * MessageRow → Prop) `{∀ x, Decision (P x)}
    (m : gmap uuid MessageRow) :
  size m = (size (filter P m) + size (filter (λ x, ¬ P x) m))%nat.
Proof.
  rewrite <-(map_filter_union_complement P m) at 1.
  apply map_size_disj_union, map_disjoint_filter_complement.
Qed.

(** A purge removes exactly the messages it names - by topic and status, or by topic
    and key whatever their status - together with their deliveries; the number it
    returns is the number of messages gone; the constraints hold again. *)
Theorem purges_are_exact topic statuses key e w n1 w1 n2 w2 :
  db_ok (w_db w) →
  PurgeTopic topic statuses e w = (Ok n1, w1) → PurgeByKey topic key e w1 = (Ok n2, w2) →
  n1 = Z.of_nat (size (messages (w_db w))) - Z.of_nat (size (messages (w_db w1))) ∧
  n2 = Z.of_nat (size (messages (w_db w1))) - Z.of_nat (size (messages (w_db w2))) ∧
  (∀ i r, messages (w_db w2) !! i = Some r ↔
     messages (w_db w) !! i = Some r ∧
     ¬ (m_topic r = topic ∧ (status_text (m_status r) ∈ statuses ∨ m_key r = Some key))) ∧
  (∀ i g d, message_deliveries (w_db w2) !! (i, g) = Some d ↔
     message_deliveries (w_db w) !! (i, g) = Some d ∧ is_Some (messages (w_db w2) !! i)) ∧
  db_ok (w_db w2).
Proof.
  intros Hok (fs & db1 & [= <- <-] & ->)%pool_stmt_Ok (fs2 & db2 & [= <- <-] & ->)%pool_stmt_Ok.
  simpl. split_and!.
  - rewrite (size_filter_messages (λ ir, purged topic statuses ir.1 ir.2) (messages (w_db w))).
    lia.
  - match goal with |- context [filter (λ ir, ¬ keyed _ _ _ _) ?m] =>
      rewrite (size_filter_messages (λ ir, keyed topic key ir.1 ir.2) m) end. lia.
  - intros i r. rewrite !map_lookup_filter_Some. unfold purged, keyed. simpl. naive_solver.
  - intros i g d. rewrite !map_lookup_filter_Some. simpl. split; [naive_solver|].
    intros [Hd [r Hr]]. split_and!; [done| |by eexists].
    apply map_lookup_filter_Some in Hr as [Hr _]. by eexists.
  - by apply (delete_messages_where_ok (keyed topic key)
      (delete_messages_where (purged topic statuses) (w_db w)).2),
      (delete_messages_where_ok (purged topic statuses)).
Qed.

(** ** Listing and statistics *)

Context `{LAWS : !PostgresLaws}.

(** The listing: a page has at most [limit] messages, newest first, each of them a
    row of the table (of the topic, when one is named) with its status, no row twice,
    and the total is the number of rows listed. *)
Theorem list_page_correct topic limit offset e w page w' :
  List_ topic limit offset e w = (Ok page, w') →
  0 ≤ limit ∧ 0 ≤ offset ∧ Z.of_nat (length (Items page)) ≤ limit ∧
  Total page = Z.of_nat (size (filter (λ ir, listed topic ir.2) (messages (w_db w)))) ∧
  StronglySorted (λ a b, CreatedAt b ≤ CreatedAt a) (Items page) ∧
  NoDup (ID <$> Items page) ∧
  Forall (λ m, ∃ r, messages (w_db w) !! ID m = Some r ∧ listed topic r ∧
    msg_Topic m = m_topic r ∧ Payload m = m_payload r ∧
    Status m = status_text (m_status r)) (Items page) ∧
  w_db w' = w_db w.
Proof.
  intros (tot & w1 & (fs & db1 & [= <- <-] & ->)%pool_stmt_Ok & H)%bind_Ok.
  apply bind_Ok in H as (rows & w2 & (fs2 & db2 & Hq & ->)%pool_stmt_Ok & H). simpl in Hq.
  apply bind_Ok in H as (msgs & w3 & [Hcol ->]%lift_Ok & [-> ->]%ret_Ok). simpl.
  unfold sql_page in Hq. destruct (_ || _) eqn:Hneg; [done|]. injection Hq as <- <-.
  reflect_bools. apply collect_Ok in Hcol.
  assert (∀ i r m, list_message i r = Ok m → ID m = i ∧ msg_Topic m = m_topic r ∧
    Payload m = m_payload r ∧ Status m = status_text (m_status r) ∧ CreatedAt m = m_created_at r)
    as Hfields.
  { intros i r m. unfold list_message. destruct (hydrate_metadata _); [|done]. by intros [= <-]. }
  set (rows := take _ _) in Hcol. split_and!; try done.
  - apply Forall2_length in Hcol. unfold rows in Hcol. rewrite length_take in Hcol. lia.
  - eapply StronglySorted_Forall2; [|exact Hcol|apply StronglySorted_page, order_by_sorted].
    simpl. intros a b a' b' (_&_&_&_&->)%Hfields (_&_&_&_&->)%Hfields. lia.
  - assert (ID <$> msgs = rows.*1) as ->.
    { clearbody rows. clear -Hcol Hfields. induction Hcol as [|[i r] m rows msgs Hm]; [done|].
      simpl. f_equal; [by apply Hfields in Hm as [-> _]|done]. }
    unfold rows, listed_rows. eapply sublist_NoDup;
      [|apply fmap_sublist, (sublist_take _ _)].
    eapply sublist_NoDup; [|apply fmap_sublist, (sublist_drop _ _)].
    rewrite order_by_perm. apply NoDup_fst_map_to_list.
  - apply Forall_forall. intros m Hm. apply list_elem_of_lookup_1 in Hm as [n Hn].
    destruct (Forall2_lookup_r _ _ _ _ _ Hcol Hn) as ([i r] & Hir & Hm).
    apply Hfields in Hm as (-> & -> & -> & -> & _).
    apply list_elem_of_lookup_2, (subseteq_take _ _) in Hir.
    apply (subseteq_drop _ _), order_by_take_all in Hir.
    apply elem_of_map_to_list, map_lookup_filter_Some in Hir as [Hir Hl].
    by exists r.
Qed.

Lemma length_filter_map_to_list (P : uuid * MessageRow → Prop) `{∀ x, Decision (P x)}
    (m : gmap uuid MessageRow) :
  length (filter P (map_to_list m)) = size (filter P m).
Proof.
  rewrite <-length_map_to_list. apply Permutation_length, NoDup_Permutation.
  - apply NoDup_filter, NoDup_map_to_list.
  - apply NoDup_map_to_list.
  - intros [i r]. rewrite list_elem_of_filter, !elem_of_map_to_list, map_lookup_filter_Some.
    naive_solver.
Qed.

(** The groups of a list partition it. *)
Lemma group_sizes (gs : list (string * status)) (l : list (uuid * MessageRow)) :
  NoDup gs → (∀ x, x ∈ l → group_of x ∈ gs) →
  foldr Z.add 0 ((λ g, Z.of_nat (length (filter (in_group g) l))) <$> gs) = Z.of_nat (length l).
Proof.
  intros Hnd. induction l as [|x l IH]; intros Hall.
  { clear. induction gs as [|g gs IH]; [done|]. exact IH. }
  assert (group_of x ∈ gs) as Hx by (apply Hall; by left).
  transitivity (1 + foldr Z.add 0 ((λ g, Z.of_nat (length (filter (in_group g) l))) <$> gs)).
  2: { rewrite IH; [simpl; lia|]. intros y Hy. apply Hall. by right. }
  clear IH Hall. induction gs as [|g gs IH]; [by destruct (not_elem_of_nil (group_of x))|].
  apply NoDup_cons in Hnd as [Hg Hnd]. rewrite !fmap_cons. cbn [foldr]. rewrite filter_cons.
  unfold in_group at 1. case_decide as Heq.
  - assert (∀ hs, g ∉ hs →
      foldr Z.add 0 ((λ g, Z.of_nat (length (filter (in_group g) (x :: l)))) <$> hs) =
      foldr Z.add 0 ((λ g, Z.of_nat (length (filter (in_group g) l))) <$> hs)) as ->; [|cbn [length]; lia|done].
    clear -Heq. induction hs as [|h hs IHh]; [done|]. intros Hn.
    rewrite !fmap_cons. cbn [foldr]. rewrite IHh by (intros ?; apply Hn; by right). rewrite filter_cons.
    rewrite decide_False; [done|]. unfold in_group. intros Hh. apply Hn. rewrite <-Heq, Hh. by left.
  - apply elem_of_cons in Hx as [?|Hx]; [done|]. rewrite (IH Hnd Hx). lia.
Qed.

(** The statistics have exactly one entry per topic and status that occurs, with the
    positive number of its messages, so the entries add up to the whole table. *)
Theorem stats_partition e w stats w' :
  Stats e w = (Ok stats, w') →
  NoDup ((λ s, (stat_Topic s, stat_Status s)) <$> stats) ∧
  (∀ t st n, mkTopicStat t st n ∈ stats ↔
     0 < n ∧ n = Z.of_nat (size (filter (λ ir, m_topic ir.2 = t ∧ status_text (m_status ir.2) = st)
                              (messages (w_db w))))) ∧
  foldr Z.add 0 (Count <$> stats) = Z.of_nat (size (messages (w_db w))).
Proof.
  intros (fs & db1 & [= <- <-] & _)%pool_stmt_Ok. unfold sql_stats, stat_rows.
  set (l := map_to_list (messages (w_db w))).
  set (gs := remove_dups (group_of <$> l)).
  assert (NoDup gs) as Hnd by apply NoDup_remove_dups.
  split_and!.
  - rewrite order_by_text2_perm, <-list_fmap_compose.
    apply (NoDup_fmap_2_strong _ gs); [|done]. intros [t st] [t' st'] _ _. simpl.
    intros [= -> Hst%status_text_inj]. by subst.
  - intros t st n. rewrite order_by_text2_perm, list_elem_of_fmap. split.
    + intros ([t' st'] & [= -> -> ->] & Hin). 
      assert (filter (in_group (t', st')) (messages (w_db w)) =
        filter (λ ir, m_topic ir.2 = t' ∧ status_text (m_status ir.2) = status_text st')
          (messages (w_db w))) as <-.
      { apply map_filter_ext. intros i r _. unfold in_group, group_of. simpl. split.
        - intros [= -> ->]. done.
        - intros [-> ->%status_text_inj]. done. }
      unfold l at 1 2. rewrite !length_filter_map_to_list. split; [|done].
      apply elem_of_remove_dups, list_elem_of_fmap in Hin as ([i r] & Hg & Hin).
      unfold l in Hin. apply elem_of_map_to_list in Hin.
      destruct (decide (filter (in_group (t', st')) (messages (w_db w)) = ∅)) as [He|He].
      * exfalso. apply (map_empty_filter_1 _ _ He i r Hin). by symmetry.
      * apply map_size_non_empty_iff in He. lia.
    + intros [Hpos ->].
      assert (filter (λ ir, m_topic ir.2 = t ∧ status_text (m_status ir.2) = st)
        (messages (w_db w)) ≠ ∅) as (i & r & Hir)%map_choose
        by (intros He; rewrite He, map_size_empty in Hpos; lia).
      apply map_lookup_filter_Some in Hir as [Hir [Ht Hst]]. simpl in Ht, Hst. subst t st.
      exists (group_of (i, r)). split.
      * unfold l. rewrite length_filter_map_to_list. simpl. do 3 f_equal.
        apply map_filter_ext. intros j rj _. unfold in_group, group_of. simpl. split.
        -- intros [-> ->%status_text_inj]. done.
        -- intros [= -> ->]. done.
      * apply elem_of_remove_dups, list_elem_of_fmap. exists (i, r). split; [done|].
        by apply elem_of_map_to_list.
  - assert (∀ a b : list TopicStat, a ≡ₚ b →
      foldr Z.add 0 (Count <$> a) = foldr Z.add 0 (Count <$> b)) as Hperm.
    { induction 1; rewrite ?fmap_cons; cbn [foldr]; try done; lia. }
    rewrite (Hperm _ _ (order_by_text2_perm _ _ _)), <-list_fmap_compose.
    rewrite <-length_map_to_list. apply (group_sizes gs l Hnd).
    intros x Hx. by apply elem_of_remove_dups, list_elem_of_fmap_2.
Qed.
End query.
