(* ===== verification/RowLocks.v ===== *)
(** * Transactions on one table, statement by statement

    How PostgreSQL runs the statements of [internal/queue] beside each other under READ
    COMMITTED, as far as they are about the rows of one table.  A statement that goes
    through rows takes its candidates from a snapshot and then visits them one by one: a
    row another transaction has locked is skipped ([SKIP LOCKED]) or waited for, and a row
    that has changed since is looked at again.  [SELECT ... FOR UPDATE] locks one row; an
    insertion conflicts with a row, inserts, or waits for the transaction that decides it.
    What a table's transactions do is a [Statements]; [Claiming] has those of [messages],
    [GroupClaiming] those of [message_deliveries]. *)

From S2P Require Import Prelude.

(** A statement that goes through rows, one that locks the row of a key, an insertion, one
    that fails at once; [skip_locked] is [SKIP LOCKED], [tolerant] is [ON CONFLICT DO NOTHING]. *)
Inductive Kind (K : Type) :=
| scans (skip_locked : bool)
| settles (i : K)
| inserts (tolerant : bool)
| refuses.
Arguments scans {K} skip_locked.
Arguments settles {K} i.
Arguments inserts {K} tolerant.
Arguments refuses {K}.

(** The transactions [W] on a table of rows [R] under keys [K], beside other tables [X].
    [candidates] are the rows a statement selects from its snapshot, or those an insertion
    conflicts with; [fits] is the part of the condition that is checked again, at [now]. *)
Class Statements (K R X W : Type) `{Countable K} := {
  kind : W → Kind K;
  candidates : W → Z → X → gmap K R → list K;
  fits : W → Z → K → R → Prop;
  fits_dec w now i r :: Decision (fits w now i r);
  (* [LIMIT] *)
  limit : W → option nat;
  (* what a statement that goes through rows makes of a row, [None] if it deletes it *)
  change : W → Z → R → option R;
  (* what is made of the one row that is held; the outer [None] is an error *)
  settles_to : W → Z → R → option (option R);
  new_rows : W → Z → X → list (K * R);
  (* two rows that a unique index does not allow together *)
  clash : R → R → Prop;
  clash_dec r r' :: Decision (clash r r');
  clash_sym r r' : clash r r' → clash r' r;
}.

(** A state in which nothing is written. *)
Ltac nothing_written := intros ? ?; cbn; by rewrite lookup_empty.

Section row_locks.
Context {K R X W : Type} `{ST : Statements K R X W}.
Implicit Types (w : W) (tbl : gmap K R) (x : X) (i j : K).

(** ** Sessions *)

(** What a transaction has written, by row; [None] is a deletion. *)
Abbreviation Writes := (gmap K (option R)).

(** Before the first statement; going through rows, with the candidates left and the rows
    locked; after a statement that locks one row; before the commit; committed; ended
    without one. *)
Inductive Progress :=
| Started
| Scanning (todo taken : list K)
| Holding (i : K)
| Wrote (ws : Writes)
| Committed
| Ended.

(** [ss_now] is the transaction's [now()]. *)
Record Session := mkSession { ss_work : W; ss_now : Z; ss_state : Progress }.

(** The committed rows, the other tables, the sessions, and the commits so far. *)
Record Sessions := mkSessions {
  table : gmap K R;
  outside : X;
  sessions : gmap nat Session;
  history : list (nat * Writes) }.

Definition written (s : Progress) : Writes := match s with Wrote ws => ws | _ => ∅ end.

Definition locks (s : Progress) : gset K :=
  match s with
  | Scanning _ taken => list_to_set taken
  | Holding i => {[i]}
  | _ => dom (written s)
  end.

Definition locked_by_others (n : nat) (ss : gmap nat Session) : gset K :=
  ⋃ ((λ jt, locks (ss_state jt.2)) <$> map_to_list (delete n ss)).

(** ** The statements *)

Definition apply_writes (ws : Writes) (tbl : gmap K R) : gmap K R :=
  merge (λ v old, match v with Some v => v | None => old end) ws tbl.

(** The rows of a map of writes, without the deletions. *)
Definition rows_of (ws : Writes) : list (K * R) := map_to_list (omap id ws).

(** The rows that an open transaction writes, as they were and as they will be. *)
Definition in_doubt (n : nat) (c : Sessions) : list (K * R) :=
  mjoin ((λ jt, let ws := written (ss_state jt.2) in
                rows_of ws ++ map_to_list (filter (λ ir, ir.1 ∈ dom ws) (table c)))
           <$> map_to_list (delete n (sessions c))).

(** The unique index must know how another transaction ends. *)
Definition blocked (c : Sessions) (n : nat) (ws : Writes) : Prop :=
  Exists (λ ir, Exists (λ jr, ir.1 ≠ jr.1 ∧ clash ir.2 jr.2) (in_doubt n c)) (rows_of ws).
#[export] Instance blocked_dec c n ws : Decision (blocked c n ws).
Proof. unfold blocked. apply _. Defined.

(** No other row of the table collides with [r]. *)
Definition clash_free (i : K) (r : R) (tbl : gmap K R) : Prop :=
  map_Forall (λ j r', j ≠ i → ¬ clash r r') tbl.
Definition unique_ok (ws : Writes) (tbl : gmap K R) : Prop :=
  map_Forall (λ i v, from_option (λ r, clash_free i r (apply_writes ws tbl)) True v) ws.
#[export] Instance clash_free_dec i r tbl : Decision (clash_free i r tbl).
Proof. unfold clash_free. apply _. Defined.
#[export] Instance unique_ok_dec ws tbl : Decision (unique_ok ws tbl).
Proof. unfold unique_ok. apply map_Forall_dec. intros i [r|]; simpl; apply _. Defined.

Definition in_state (c : Sessions) (n : nat) (t : Session) (s : Progress) : Sessions :=
  mkSessions (table c) (outside c) (<[n:=mkSession (ss_work t) (ss_now t) s]> (sessions c))
    (history c).

(** The row version is written; [None] is waiting. *)
Definition write (c : Sessions) (n : nat) (t : Session) (ws : Writes) : option Sessions :=
  if decide (blocked c n ws) then None
  else if decide (unique_ok ws (table c)) then Some (in_state c n t (Wrote ws))
  else Some (in_state c n t Ended).

(** [SELECT ... FOR UPDATE] of one row, and [ON CONFLICT DO UPDATE] finding its row. *)
Definition lock_row (c : Sessions) (n : nat) (t : Session) (i : K) : option Sessions :=
  match table c !! i with
  | Some r =>
      if decide (fits (ss_work t) (ss_now t) i r) then
        if decide (i ∈ locked_by_others n (sessions c)) then None
        else Some (in_state c n t (Holding i))
      else Some (in_state c n t Ended)
  | None => Some (in_state c n t Ended)
  end.

(** Row after row; one whose key exists or that collides is an error, or left out. *)
Fixpoint insert_fresh (tolerant : bool) (rows : list (K * R)) (tbl : gmap K R) (ws : Writes)
    : option Writes :=
  match rows with
  | [] => Some ws
  | (i, r) :: rows' =>
      if decide (tbl !! i = None ∧ ws !! i = None ∧ clash_free i r (apply_writes ws tbl))
      then insert_fresh tolerant rows' tbl (<[i:=Some r]> ws)
      else if tolerant then insert_fresh tolerant rows' tbl ws else None
  end.

Definition insert_rows (tolerant : bool) (c : Sessions) (n : nat) (t : Session)
    : option Sessions :=
  let rows := new_rows (ss_work t) (ss_now t) (outside c) in
  if decide (Exists (λ ir, ir.1 ∈ locked_by_others n (sessions c)) rows ∨
             blocked c n (Some <$> list_to_map rows)) then None
  else match insert_fresh tolerant rows (table c) ∅ with
       | Some ws => write c n t ws
       | None => Some (in_state c n t Ended)
       end.

(** The update of the rows taken. *)
Definition scan_writes (w : W) (now : Z) (taken : list K) (tbl : gmap K R) : Writes :=
  list_to_map (omap (λ i, r ← tbl !! i; Some (i, change w now r)) taken).

Definition room (w : W) (taken : list K) : Prop :=
  match limit w with Some k => (length taken < k)%nat | None => True end.
#[export] Instance room_dec w taken : Decision (room w taken).
Proof. unfold room. destruct (limit w); apply _. Defined.

(** The next candidate. *)
Definition visit (skip_locked : bool) (c : Sessions) (n : nat) (t : Session)
    (todo taken : list K) : option Sessions :=
  let finish := write c n t (scan_writes (ss_work t) (ss_now t) taken (table c)) in
  match todo with
  | [] => finish
  | i :: todo' =>
      if decide (room (ss_work t) taken) then
        if decide (i ∈ locked_by_others n (sessions c)) then
          if skip_locked then Some (in_state c n t (Scanning todo' taken)) else None
        else
          match table c !! i with
          | Some r =>
              if decide (fits (ss_work t) (ss_now t) i r)
              then Some (in_state c n t (Scanning todo' (taken ++ [i])))
              else Some (in_state c n t (Scanning todo' taken))
          | None => Some (in_state c n t (Scanning todo' taken))
          end
      else finish
  end.

(** One statement of session [n], one row of it for a statement that goes through rows;
    [None] if it waits for another session or is over. *)
Definition advance (c : Sessions) (n : nat) : option Sessions :=
  t ← sessions c !! n;
  match ss_state t with
  | Started =>
      match kind (ss_work t) with
      | scans _ => Some (in_state c n t
                     (Scanning (candidates (ss_work t) (ss_now t) (outside c) (table c)) []))
      | settles i => lock_row c n t i
      | inserts tolerant =>
          match candidates (ss_work t) (ss_now t) (outside c) (table c) with
          | i :: _ => lock_row c n t i
          | [] => insert_rows tolerant c n t
          end
      | refuses => Some (in_state c n t Ended)
      end
  | Scanning todo taken =>
      match kind (ss_work t) with
      | scans skip_locked => visit skip_locked c n t todo taken
      | _ => None
      end
  | Holding i =>
      match table c !! i ≫= settles_to (ss_work t) (ss_now t) with
      | Some v => write c n t {[i := v]}
      | None => Some (in_state c n t Ended)
      end
  | Wrote ws =>
      Some (mkSessions (apply_writes ws (table c)) (outside c)
              (<[n:=mkSession (ss_work t) (ss_now t) Committed]> (sessions c))
              (history c ++ [(n, ws)]))
  | Committed | Ended => None
  end.

(** A failed statement, a deadlock, a lost connection, [defer tx.Rollback]. *)
Definition rollback (c : Sessions) (n : nat) : option Sessions :=
  t ← sessions c !! n;
  match ss_state t with Committed => None | _ => Some (in_state c n t Ended) end.

Inductive session_step : Sessions → Sessions → Prop :=
| step_advance c n c' : advance c n = Some c' → session_step c c'
| step_roll_back c n c' : rollback c n = Some c' → session_step c c'
| step_outside c x : session_step c (mkSessions (table c) x (sessions c) (history c)).

(** ** Histories *)

(** The rows after some commits. *)
Definition replay (h : list (nat * Writes)) (tbl : gmap K R) : gmap K R :=
  foldl (λ tbl nws, apply_writes nws.2 tbl) tbl h.

Lemma lookup_apply_writes ws tbl i :
  apply_writes ws tbl !! i = match ws !! i with Some v => v | None => tbl !! i end.
Proof.
  unfold apply_writes. rewrite lookup_merge. destruct (ws !! i) as [[]|]; simpl; [done..|].
  by destruct (tbl !! i).
Qed.

(** A row as it is after some commits was so before them, or one of them has written it. *)
Lemma replay_row h tbl i r :
  replay h tbl !! i = Some r →
  tbl !! i = Some r ∨ ∃ k ws, (k, ws) ∈ h ∧ ws !! i = Some (Some r).
Proof.
  intros Hr. induction h as [|[k ws] h IH] using rev_ind; [by left|].
  unfold replay in Hr. rewrite foldl_app in Hr. simpl in Hr.
  rewrite lookup_apply_writes in Hr. destruct (ws !! i) as [v|] eqn:Hv.
  - right. exists k, ws. rewrite Hv, Hr, elem_of_app, list_elem_of_singleton. auto.
  - destruct (IH Hr) as [?|(k' & ws' & Hin & Hw)]; [by left|right].
    exists k', ws'. rewrite elem_of_app. auto.
Qed.

Lemma locked_by_others_spec n ss i :
  i ∈ locked_by_others n ss ↔ ∃ m t, ss !! m = Some t ∧ m ≠ n ∧ i ∈ locks (ss_state t).
Proof.
  unfold locked_by_others. rewrite elem_of_union_list. split.
  - intros (Y & ([m t] & -> & Hin%elem_of_map_to_list)%list_elem_of_fmap & Hi).
    apply lookup_delete_Some in Hin as [? ?]. eauto.
  - intros (m & t & Ht & Hn & Hi). eexists. split; [|exact Hi]. apply list_elem_of_fmap.
    exists (m, t). split; [done|]. apply elem_of_map_to_list, lookup_delete_Some. done.
Qed.

Lemma rows_of_spec ws i r : (i, r) ∈ rows_of ws ↔ ws !! i = Some (Some r).
Proof.
  unfold rows_of. rewrite elem_of_map_to_list, lookup_omap.
  destruct (ws !! i) as [[]|]; simpl; naive_solver.
Qed.

Lemma lookup_scan_writes w now taken tbl i v :
  scan_writes w now taken tbl !! i = Some v →
  i ∈ taken ∧ ∃ r, tbl !! i = Some r ∧ v = change w now r.
Proof.
  intros Hl%elem_of_list_to_map_2. apply list_elem_of_omap in Hl as (j & Hj & Hr).
  destruct (tbl !! j) as [r|] eqn:Ht; simplify_eq/=. eauto.
Qed.

Lemma insert_fresh_rows tolerant rows tbl ws0 ws :
  insert_fresh tolerant rows tbl ws0 = Some ws → ∀ i v, ws !! i = Some v →
  ws0 !! i = Some v ∨ tbl !! i = None ∧ ∃ r, (i, r) ∈ rows ∧ v = Some r.
Proof.
  revert ws0. induction rows as [|[j r] rows IH]; intros ws0; simpl; [intros [= ->]; by left|].
  case_decide as Hj.
  - intros Hf i v Hi. destruct (IH _ Hf i v Hi) as [Hv|(? & r' & ? & ?)].
    + apply lookup_insert_Some in Hv as [[<- <-]|[_ Hv]]; [|by left].
      right. split; [by apply Hj|]. exists r. split; [by left|done].
    + right. split; [done|]. exists r'. split; [by right|done].
  - destruct tolerant; [|done]. intros Hf i v Hi.
    destruct (IH _ Hf i v Hi) as [?|(? & r' & ? & ?)]; [by left|right].
    split; [done|]. exists r'. split; [by right|done].
Qed.

(** ** What holds under every interleaving *)

(** Where the value [v] that a transaction writes into row [i] of [tbl] comes from. *)
Definition produced (w : W) (now : Z) (tbl : gmap K R) (i : K) (v : option R) : Prop :=
  (∃ r, tbl !! i = Some r ∧ fits w now i r ∧
     match kind w with
     | scans _ => v = change w now r ∧ ∃ x tbl', i ∈ candidates w now x tbl'
     | _ => settles_to w now r = Some v
     end) ∨
  (∃ r tolerant x, kind w = inserts tolerant ∧ tbl !! i = None ∧ (i, r) ∈ new_rows w now x ∧
     v = Some r).

(** What a session knows of the committed rows it has locked. *)
Definition session_ok (tbl : gmap K R) (t : Session) : Prop :=
  let w := ss_work t in
  let now := ss_now t in
  match ss_state t with
  | Scanning todo taken => (∃ b, kind w = scans b) ∧
      (∀ i, i ∈ todo ++ taken → ∃ x tbl', i ∈ candidates w now x tbl') ∧
      (∀ i, i ∈ taken → ∃ r, tbl !! i = Some r ∧ fits w now i r)
  | Holding i => (∀ b, kind w ≠ scans b) ∧ ∃ r, tbl !! i = Some r ∧ fits w now i r
  | s => ∀ i v, written s !! i = Some v → produced w now tbl i v
  end.

(** Every write of a history was produced from the rows committed just before. *)
Definition history_ok (tbl0 : gmap K R) (ss : gmap nat Session) (h : list (nat * Writes))
    : Prop :=
  ∀ h1 n ws h2 t, h = h1 ++ (n, ws) :: h2 → ss !! n = Some t →
  ∀ i v, ws !! i = Some v → produced (ss_work t) (ss_now t) (replay h1 tbl0) i v.

Record sessions_ok (tbl0 : gmap K R) (c : Sessions) : Prop := {
  ok_session n t : sessions c !! n = Some t → session_ok (table c) t;
  ok_locks n m t u i : sessions c !! n = Some t → sessions c !! m = Some u → n ≠ m →
    i ∈ locks (ss_state t) → i ∉ locks (ss_state u);
  ok_history : table c = replay (history c) tbl0;
  ok_produced : history_ok tbl0 (sessions c) (history c);
  ok_committed n ws : (n, ws) ∈ history c → is_Some (sessions c !! n);
}.

(** The transactions have not issued a statement. *)
Definition started (c : Sessions) : Prop :=
  history c = [] ∧ ∀ n t, sessions c !! n = Some t → ss_state t = Started.

Lemma sessions_ok_start c : started c → sessions_ok (table c) c.
Proof.
  intros [Hh Hs]. split.
  - intros n t Ht. unfold session_ok. rewrite (Hs n t Ht). nothing_written.
  - intros n m t u i Ht Hu _. rewrite (Hs n t Ht). simpl. set_solver.
  - by rewrite Hh.
  - intros h1 n ws h2 t. rewrite Hh. by destruct h1.
  - rewrite Hh. set_solver.
Qed.

(** A session that changes only its own state, locking no row of another. *)
Lemma sessions_ok_goto tbl0 c n t s :
  sessions_ok tbl0 c → sessions c !! n = Some t →
  session_ok (table c) (mkSession (ss_work t) (ss_now t) s) →
  (∀ i, i ∈ locks s → i ∈ locks (ss_state t) ∨ i ∉ locked_by_others n (sessions c)) →
  sessions_ok tbl0 (in_state c n t s).
Proof.
  intros [Hs Hl Hh Hc Hd] Ht Hok Hfree.
  assert (∀ m u i, sessions c !! m = Some u → m ≠ n → i ∈ locks s → i ∉ locks (ss_state u)) as Hnew.
  { intros m u i Hu Hm Hi. destruct (Hfree i Hi) as [Hold|Hno].
    - by apply (Hl n m t u).
    - intros Hiu. apply Hno, locked_by_others_spec. eauto. }
  split; simpl; [| |done| |].
  - intros m u [[<- <-]|[_ Hu]]%lookup_insert_Some; [done|by eapply Hs].
  - intros k m u v i [[<- <-]|[Hk Hu]]%lookup_insert_Some [[<- <-]|[Hm Hv]]%lookup_insert_Some Hne Hi;
      simpl in *; [done|by apply (Hnew m v i)| |by apply (Hl k m u v)].
    intros Hi'. by apply (Hnew k u i Hu (not_eq_sym Hk) Hi').
  - intros h1 m ws h2 u Hhist Hu. apply lookup_insert_Some in Hu as [[<- <-]|[Hne Hu]];
      [by eapply (Hc h1 n ws h2 t)|by eapply Hc].
  - intros m ws Hin. apply lookup_insert_is_Some'. right. by eapply Hd.
Qed.

Lemma sessions_ok_ended tbl0 c n t :
  sessions_ok tbl0 c → sessions c !! n = Some t → sessions_ok tbl0 (in_state c n t Ended).
Proof.
  intros Hok Ht. apply sessions_ok_goto; [done..| |simpl; set_solver].
  nothing_written.
Qed.

Lemma session_ok_frame tbl tbl' t :
  (∀ i, i ∈ locks (ss_state t) → tbl' !! i = tbl !! i) → session_ok tbl t → session_ok tbl' t.
Proof.
  intros Hsame. unfold session_ok.
  assert (∀ w now i v, i ∈ locks (ss_state t) → produced w now tbl i v → produced w now tbl' i v) as Hp
    by (intros w now i v Hi; unfold produced; by rewrite Hsame).
  destruct (ss_state t) as [|todo taken|i|ws| |]; simpl in *.
  - intros _; nothing_written.
  - intros (Hk & Hcand & Hall). split_and!; [done..|]. intros i Hi.
    rewrite Hsame by set_solver. by apply Hall.
  - by rewrite Hsame by set_solver.
  - intros Hall i v Hv. apply Hp; [apply elem_of_dom; by eexists|by apply Hall].
  - intros _; nothing_written.
  - intros _; nothing_written.
Qed.

Lemma sessions_ok_commit tbl0 c n t ws :
  sessions_ok tbl0 c → sessions c !! n = Some t → ss_state t = Wrote ws →
  sessions_ok tbl0
    (mkSessions (apply_writes ws (table c)) (outside c)
       (<[n:=mkSession (ss_work t) (ss_now t) Committed]> (sessions c)) (history c ++ [(n, ws)])).
Proof.
  intros [Hs Hl Hh Hc Hd] Ht Hst. split; simpl.
  - intros m u [[<- <-]|[Hne Hu]]%lookup_insert_Some; [nothing_written|].
    apply (session_ok_frame (table c)); [|by eapply Hs]. intros i Hi.
    rewrite lookup_apply_writes. destruct (ws !! i) as [v|] eqn:Hv; [|done]. exfalso.
    apply (Hl n m t u i Ht Hu Hne); [|done]. rewrite Hst. simpl. apply elem_of_dom. by eexists.
  - intros k m u v i [[<- <-]|[Hk Hu]]%lookup_insert_Some [[<- <-]|[Hm Hv]]%lookup_insert_Some Hne;
      simpl; [done|set_solver|set_solver|by apply (Hl k m u v)].
  - unfold replay in *. by rewrite foldl_app, <-Hh.
  - intros h1 m ws' h2 u Hhist Hu.
    assert (∃ u0, sessions c !! m = Some u0 ∧ ss_work u0 = ss_work u ∧ ss_now u0 = ss_now u)
      as (u0 & Hu0 & Hwork & Hnow).
    { apply lookup_insert_Some in Hu as [[<- <-]|[_ Hu]]; by eexists. }
    rewrite <-Hwork, <-Hnow in *.
    destruct h2 as [|y h2 _] using rev_ind.
    + apply app_inj_tail in Hhist as [<- [= <- <-]]. intros i v Hv.
      assert (u0 = t) as -> by congruence. rewrite <-Hh.
      pose proof (Hs n t Ht) as Hok. unfold session_ok in Hok. rewrite Hst in Hok. by apply Hok.
    + rewrite app_comm_cons, app_assoc in Hhist. apply app_inj_tail in Hhist as [Hhist _].
      by eapply Hc.
  - intros m ws' [Hin|[= -> ->]%list_elem_of_singleton]%elem_of_app.
    + apply lookup_insert_is_Some'. right. by eapply Hd.
    + rewrite lookup_insert_eq. by eexists.
Qed.

Section one_statement.
Context (tbl0 : gmap K R) (c : Sessions) (n : nat) (t : Session).
Context (Hok : sessions_ok tbl0 c) (Ht : sessions c !! n = Some t).

Lemma write_ok ws c' :
  (∀ i v, ws !! i = Some v → produced (ss_work t) (ss_now t) (table c) i v) →
  (∀ i, i ∈ dom ws → i ∈ locks (ss_state t) ∨ i ∉ locked_by_others n (sessions c)) →
  write c n t ws = Some c' → sessions_ok tbl0 c'.
Proof.
  intros Hp Hl. unfold write. case_decide; [done|]. case_decide; intros [= <-];
    [|by apply sessions_ok_ended]. by apply sessions_ok_goto.
Qed.

Lemma lock_row_ok i c' :
  (∀ b, kind (ss_work t) ≠ scans b) → lock_row c n t i = Some c' → sessions_ok tbl0 c'.
Proof.
  intros Hk. unfold lock_row. destruct (table c !! i) as [r|] eqn:Hr;
    [|intros [= <-]; by apply sessions_ok_ended].
  case_decide; [|intros [= <-]; by apply sessions_ok_ended].
  case_decide; [done|]. intros [= <-].
  apply sessions_ok_goto; [done..|split; [done|by exists r]|].
  intros j. simpl. rewrite elem_of_singleton. intros ->. by right.
Qed.

Lemma insert_rows_ok tolerant c' :
  kind (ss_work t) = inserts tolerant → insert_rows tolerant c n t = Some c' → sessions_ok tbl0 c'.
Proof.
  intros Hk. unfold insert_rows. case_decide as Ho; [done|].
  destruct (insert_fresh _ _ _ _) as [ws|] eqn:Hf; [|intros [= <-]; by apply sessions_ok_ended].
  assert (∀ i v, ws !! i = Some v → table c !! i = None ∧
    ∃ r, (i, r) ∈ new_rows (ss_work t) (ss_now t) (outside c) ∧ v = Some r) as Hrows.
  { intros i v Hi. destruct (insert_fresh_rows _ _ _ _ _ Hf i v Hi) as [He|?]; [|done].
    by rewrite lookup_empty in He. }
  apply write_ok.
  - intros i v (Hnone & r & Hin & ->)%Hrows. right. by exists r, tolerant, (outside c).
  - intros i [v (_ & r & Hin & _)%Hrows]%elem_of_dom. right. intros Hi. apply Ho. left.
    apply Exists_exists. by exists (i, r).
Qed.

Lemma visit_ok skip_locked todo taken c' :
  ss_state t = Scanning todo taken → visit skip_locked c n t todo taken = Some c' →
  sessions_ok tbl0 c'.
Proof.
  intros Hst. pose proof (ok_session _ _ Hok n t Ht) as Hs. unfold session_ok in Hs.
  rewrite Hst in Hs. destruct Hs as ([b Hb] & Hcand & Hall).
  assert (∀ c', write c n t (scan_writes (ss_work t) (ss_now t) taken (table c)) = Some c' →
    sessions_ok tbl0 c') as Hfinish.
  { intros c''. apply write_ok.
    - intros i v (Hi & r & Hr & ->)%lookup_scan_writes. left.
      destruct (Hall i Hi) as (r' & Hr' & Hf). simplify_eq. exists r. rewrite Hb.
      split_and!; [done..|apply Hcand; set_solver].
    - intros i [v Hv]%elem_of_dom. apply lookup_scan_writes in Hv as [Hi _]. left. rewrite Hst.
      simpl. by apply elem_of_list_to_set. }
  unfold visit. destruct todo as [|i todo]; [apply Hfinish|].
  case_decide; [|apply Hfinish].
  assert (sessions_ok tbl0 (in_state c n t (Scanning todo taken))) as Hskip.
  { apply sessions_ok_goto; [done..| |by rewrite Hst; left]. split_and!; [by exists b| |done].
    intros j Hj. apply Hcand. set_solver. }
  case_decide as Ho; [destruct skip_locked; [by intros [= <-]|done]|].
  destruct (table c !! i) as [r|] eqn:Hr; [|by intros [= <-]].
  case_decide as Hf; intros [= <-]; [|done]. apply sessions_ok_goto; [done..| |].
  - split_and!; [by exists b| |].
    + intros j Hj. apply Hcand. set_solver.
    + intros j [Hj|Hj%list_elem_of_singleton]%elem_of_app; [by apply Hall|]. subst j. by exists r.
  - intros j. simpl. rewrite Hst, list_to_set_app_L. simpl. set_solver.
Qed.
End one_statement.

Lemma advance_ok tbl0 c n c' : sessions_ok tbl0 c → advance c n = Some c' → sessions_ok tbl0 c'.
Proof.
  intros Hok. unfold advance. destruct (sessions c !! n) as [t|] eqn:Ht; [|done]. simpl.
  pose proof (ok_session _ _ Hok n t Ht) as Hst. unfold session_ok in Hst.
  destruct (ss_state t) as [|todo taken|i|ws| |] eqn:Hs; try done.
  - destruct (kind (ss_work t)) as [b|i|b|] eqn:Hk.
    + intros [= <-]. apply sessions_ok_goto; [done..| |simpl; set_solver].
      split_and!; [by exists b| |set_solver]. intros i Hi. rewrite app_nil_r in Hi. eauto.
    + apply (lock_row_ok tbl0); [done..|by rewrite Hk].
    + destruct (candidates _ _ _ _) as [|i ids];
        [by apply (insert_rows_ok tbl0)|apply (lock_row_ok tbl0); [done..|by rewrite Hk]].
    + intros [= <-]. by apply sessions_ok_ended.
  - destruct (kind (ss_work t)); try done. by apply (visit_ok tbl0).
  - destruct Hst as [Hk (r & Hr & Hf)]. rewrite Hr. simpl.
    destruct (settles_to _ _ r) as [v|] eqn:Hv; [|intros [= <-]; by apply sessions_ok_ended].
    apply (write_ok tbl0); [done..| |].
    + intros j v' [<- <-]%lookup_singleton_Some. left. exists r. split_and!; [done..|].
      destruct (kind (ss_work t)); try done. by destruct (Hk skip_locked).
    + intros j. rewrite dom_singleton_L, Hs. by left.
  - intros [= <-]. by apply sessions_ok_commit.
Qed.

Lemma session_step_ok tbl0 c c' : sessions_ok tbl0 c → session_step c c' → sessions_ok tbl0 c'.
Proof.
  intros Hok Hstep. destruct Hstep as [c1 n c2 Hadv|c1 n c2 Hr|c1 x]; [by eapply advance_ok| |by destruct Hok].
  revert Hr. unfold rollback. destruct (sessions c1 !! n) as [t|] eqn:Ht; [|done]. simpl.
  destruct (ss_state t); intros [= <-]; by apply sessions_ok_ended.
Qed.

Lemma sessions_ok_reached c0 c : started c0 → rtc session_step c0 c → sessions_ok (table c0) c.
Proof.
  intros Hs Hrun. assert (sessions_ok (table c0) c0) as Hok by by apply sessions_ok_start.
  revert Hok. generalize (table c0) as tbl0. clear Hs.
  induction Hrun as [c|c1 c2 c3 Hstep _ IH]; intros tbl0 Hok; [done|]. apply IH.
  by eapply session_step_ok.
Qed.

(** ** The unique index *)

Definition unique_table (tbl : gmap K R) : Prop :=
  ∀ i j r r', tbl !! i = Some r → tbl !! j = Some r' → i ≠ j → ¬ clash r r'.

(** No two rows collide, neither committed ones nor those that open transactions write. *)
Record sessions_unique (c : Sessions) : Prop := {
  uq_table : unique_table (table c);
  uq_writes n t : sessions c !! n = Some t → unique_ok (written (ss_state t)) (table c);
  uq_pairs n m t u i j r r' : sessions c !! n = Some t → sessions c !! m = Some u → n ≠ m →
    written (ss_state t) !! i = Some (Some r) → written (ss_state u) !! j = Some (Some r') →
    i ≠ j → ¬ clash r r';
}.

Lemma unique_ok_empty tbl : unique_ok ∅ tbl.
Proof. apply map_Forall_empty. Qed.
Hint Resolve unique_ok_empty : core.

Lemma unique_ok_row ws tbl i r j r' :
  unique_ok ws tbl → ws !! i = Some (Some r) → apply_writes ws tbl !! j = Some r' → i ≠ j →
  ¬ clash r r'.
Proof. intros Hu Hi Hj Hne. apply (Hu i (Some r) Hi j r' Hj). congruence. Qed.

Lemma sessions_unique_start c : unique_table (table c) → started c → sessions_unique c.
Proof.
  intros Hu [_ Hs]. split; [done| |].
  - intros n t Ht. by rewrite (Hs n t Ht).
  - intros n m t u i j r r' Ht _ _. rewrite (Hs n t Ht). cbn. by rewrite lookup_empty.
Qed.

Lemma not_blocked c n ws i r m u j r' :
  ¬ blocked c n ws → ws !! i = Some (Some r) → sessions c !! m = Some u → n ≠ m →
  written (ss_state u) !! j = Some (Some r') → i ≠ j → ¬ clash r r'.
Proof.
  intros Hb Hi Hu Hnm Hj Hij Hc. apply Hb. apply Exists_exists. exists (i, r).
  split; [by apply rows_of_spec|]. apply Exists_exists. exists (j, r'). split; [|done].
  apply list_elem_of_join.
  eexists. split; [|apply list_elem_of_fmap; exists (m, u); split; [done|]].
  - apply elem_of_app. left. by apply rows_of_spec.
  - by apply elem_of_map_to_list, lookup_delete_Some.
Qed.

Lemma sessions_unique_goto c n t s :
  sessions_unique c → (∃ ws, s = Wrote ws ∧ unique_ok ws (table c) ∧ ¬ blocked c n ws) ∨ written s = ∅ →
  sessions_unique (in_state c n t s).
Proof.
  intros [Ht Hw Hp] Hs.
  assert (∀ m u i j r r', sessions c !! m = Some u → n ≠ m → written s !! i = Some (Some r) →
    written (ss_state u) !! j = Some (Some r') → i ≠ j → ¬ clash r r') as Hnew.
  { intros m u i j r r' Hu Hne Hi. destruct Hs as [(ws & -> & _ & Hb)|Hs].
    - by eapply not_blocked.
    - by rewrite Hs, lookup_empty in Hi. }
  split; simpl; [done| |].
  - intros m u [[<- <-]|[_ Hu]]%lookup_insert_Some; [|by eapply Hw].
    destruct Hs as [(ws & -> & ? & _)|Hs]; simpl; [done|]. by rewrite Hs.
  - intros k m u v i j r r' [[<- <-]|[Hk Hu]]%lookup_insert_Some
      [[<- <-]|[Hm Hv]]%lookup_insert_Some Hne; [done|by eapply Hnew| |by eapply Hp].
    intros Hi Hj Hij Hc. eapply (Hnew k u j i); [done..|]. by apply clash_sym.
Qed.

Lemma sessions_unique_commit c n t ws :
  sessions_unique c → sessions c !! n = Some t → ss_state t = Wrote ws →
  sessions_unique
    (mkSessions (apply_writes ws (table c)) (outside c)
       (<[n:=mkSession (ss_work t) (ss_now t) Committed]> (sessions c)) (history c ++ [(n, ws)])).
Proof.
  intros [Hu Hw Hp] Ht Hst. pose proof (Hw n t Ht) as Hws. rewrite Hst in Hws. simpl in Hws.
  split; simpl.
  - intros i j r r' Hi Hj Hij. destruct (ws !! i) as [v|] eqn:Hvi.
    { pose proof Hi as Hi'. rewrite lookup_apply_writes, Hvi in Hi'. subst v.
      by eapply unique_ok_row. }
    destruct (ws !! j) as [v|] eqn:Hvj.
    { pose proof Hj as Hj'. rewrite lookup_apply_writes, Hvj in Hj'. subst v.
      intros Hc%clash_sym. revert Hc. by eapply unique_ok_row. }
    rewrite lookup_apply_writes, Hvi in Hi. rewrite lookup_apply_writes, Hvj in Hj.
    by eapply Hu.
  - intros m u [[<- <-]|[Hnm Hm]]%lookup_insert_Some; [done|].
    intros i v Hi. destruct v as [r|]; [|done]. simpl. intros j r' Hj Hji.
    pose proof (Hw m u Hm) as Hwu. rewrite lookup_apply_writes in Hj.
    destruct (written (ss_state u) !! j) as [vj|] eqn:Hvj; rewrite ?Hvj in Hj.
    { apply (unique_ok_row _ _ i r j r' Hwu Hi); [|done]. by rewrite lookup_apply_writes, Hvj. }
    rewrite lookup_apply_writes in Hj. destruct (ws !! j) as [vj|] eqn:Hwj; rewrite ?Hwj in Hj.
    { subst vj. apply (Hp m n u t i j r r'); [done..| |done]. by rewrite Hst. }
    apply (unique_ok_row _ _ i r j r' Hwu Hi); [|done]. by rewrite lookup_apply_writes, Hvj.
  - intros k m u v i j r r' [[<- <-]|[Hk Hku]]%lookup_insert_Some
      [[<- <-]|[Hm Hv]]%lookup_insert_Some Hne; cbn;
      [done|by rewrite lookup_empty| |by eapply Hp].
    intros _. by rewrite lookup_empty.
Qed.

Lemma write_unique c n t ws c' :
  sessions_unique c → write c n t ws = Some c' → sessions_unique c'.
Proof.
  intros Hu. unfold write. case_decide; [done|].
  case_decide; intros [= <-]; apply sessions_unique_goto; eauto.
Qed.
Lemma lock_row_unique c n t i c' :
  sessions_unique c → lock_row c n t i = Some c' → sessions_unique c'.
Proof.
  intros Hu. unfold lock_row. intros Heq. repeat case_match; simplify_eq;
    apply sessions_unique_goto; auto.
Qed.

Lemma session_step_unique c c' : sessions_unique c → session_step c c' → sessions_unique c'.
Proof.
  intros Hu Hstep. destruct Hstep as [c n c' Hadv|c n c' Hr|c x]; [| |by destruct Hu].
  - revert Hadv. unfold advance. destruct (sessions c !! n) as [t|] eqn:Ht; [|done]. simpl.
    destruct (ss_state t) as [|todo taken|i|ws| |] eqn:Hs; try done.
    + destruct (kind (ss_work t)) as [b|i|b|]; [|by apply lock_row_unique| |].
      * intros [= <-]. apply sessions_unique_goto; auto.
      * destruct (candidates _ _ _ _); [|by apply lock_row_unique]. unfold insert_rows.
        case_decide; [done|]. case_match; [by apply write_unique|intros [= <-]].
        apply sessions_unique_goto; auto.
      * intros [= <-]. apply sessions_unique_goto; auto.
    + destruct (kind (ss_work t)); try done. unfold visit. intros Heq.
      repeat case_match; simplify_eq; try (by eapply write_unique);
        apply sessions_unique_goto; auto.
    + destruct (_ ≫= _); [by apply write_unique|intros [= <-]].
      apply sessions_unique_goto; auto.
    + intros [= <-]. by apply sessions_unique_commit.
  - revert Hr. unfold rollback. destruct (sessions c !! n) as [t|]; [|done]. simpl.
    intros Heq. repeat case_match; simplify_eq; apply sessions_unique_goto; auto.
Qed.

(** The unique index holds in every state, whatever overlaps. *)
Lemma sessions_unique_reached c0 c :
  unique_table (table c0) → started c0 → rtc session_step c0 c → unique_table (table c).
Proof.
  intros Hu Hs Hrun. assert (sessions_unique c0) as H0 by by apply sessions_unique_start.
  clear Hu Hs. induction Hrun as [c|c1 c2 c3 Hstep _ IH]; [apply H0|].
  by eapply IH, session_step_unique.
Qed.

(** ** Two writes of one row *)

(** What the condition of a statement asks of a row, and the statement undoes, some
    transaction has restored before the statement finds the row again. *)
Lemma rewritten c0 c (P : R → Prop) h1 n ws h2 m ws' h3 i r t :
  started c0 → rtc session_step c0 c →
  history c = h1 ++ (n, ws) :: h2 ++ (m, ws') :: h3 →
  ws !! i = Some (Some r) → ¬ P r →
  sessions c !! m = Some t → (∀ now r, fits (ss_work t) now i r → P r) →
  (∀ tolerant, kind (ss_work t) ≠ inserts tolerant) → is_Some (ws' !! i) →
  ∃ k u wk r', (k, wk) ∈ h2 ∧ sessions c !! k = Some u ∧ wk !! i = Some (Some r') ∧ P r'.
Proof.
  intros Hstart Hrun Hh Hi Hr Ht Hfits Hk [v Hv].
  destruct (sessions_ok_reached _ _ Hstart Hrun) as [_ _ _ Hc Hd].
  pose proof Hh as Hall. rewrite app_comm_cons, app_assoc in Hh.
  destruct (Hc _ _ _ _ _ Hh Ht i v Hv) as [(r' & Hr' & Hp%Hfits & _)|(? & b & ? & Hb & _)];
    [|by destruct (Hk b)].
  unfold replay in Hr'. rewrite foldl_app in Hr'. simpl in Hr'.
  apply replay_row in Hr' as [Hr'|(k & wk & Hin & Hwk)].
  - rewrite lookup_apply_writes, Hi in Hr'. by simplify_eq.
  - destruct (Hd k wk) as [u Hu]; [rewrite Hall; set_solver|]. by exists k, u, wk, r'.
Qed.

(** ** A statement that nobody disturbs *)

(** Statements of one session. *)
Fixpoint advance_n (k : nat) (c : Sessions) (n : nat) : option Sessions :=
  match k with O => Some c | S k' => c' ← advance c n; advance_n k' c' n end.

Lemma advance_n_last k c1 c2 c3 n :
  advance_n k c1 n = Some c2 → advance c2 n = Some c3 → advance_n (k + 1) c1 n = Some c3.
Proof.
  revert c1. induction k as [|k IH]; intros c1 H1 H2; simpl in *.
  - injection H1 as ->. by rewrite H2.
  - destruct (advance c1 n) as [c|]; [|done]. simpl in *. by eapply IH.
Qed.

Lemma in_state_twice c n t s s' : in_state (in_state c n t s) n t s' = in_state c n t s'.
Proof. unfold in_state. simpl. by rewrite insert_insert_eq. Qed.

Lemma others_in_state c n t s :
  locked_by_others n (sessions (in_state c n t s)) = locked_by_others n (sessions c).
Proof. unfold locked_by_others, in_state. simpl. by rewrite delete_insert_eq. Qed.

(** What is left of a list under the limit. *)
Definition under_limit (w : W) (taken l : list K) : list K :=
  match limit w with Some k => take (k - length taken) l | None => l end.

Lemma under_limit_nil w taken : under_limit w taken [] = [].
Proof. unfold under_limit. destruct (limit w); by rewrite ?take_nil. Qed.
Lemma under_limit_full w taken l : ¬ room w taken → under_limit w taken l = [].
Proof.
  unfold room, under_limit. destruct (limit w) as [k|]; [|tauto]. intros Hk.
  by replace (k - length taken)%nat with 0%nat by lia.
Qed.
Lemma under_limit_cons w taken i l :
  room w taken → under_limit w taken (i :: l) = i :: under_limit w (taken ++ [i]) l.
Proof.
  unfold room, under_limit. destruct (limit w) as [k|]; [|done]. intros Hk. rewrite length_app. simpl.
  by replace (k - length taken)%nat with (S (k - (length taken + 1))) by lia.
Qed.

Section undisturbed.
Context (c : Sessions) (n : nat) (t : Session).
Context (Hkind : kind (ss_work t) = scans true).
(* what it writes collides with nothing *)
Context (Hquiet : ∀ r r' r2, change (ss_work t) (ss_now t) r = Some r' → ¬ clash r' r2).
Let others := locked_by_others n (sessions c).
Let writes ids := scan_writes (ss_work t) (ss_now t) ids (table c).

Lemma write_quietly s ids :
  write (in_state c n t s) n t (writes ids) = Some (in_state c n t (Wrote (writes ids))).
Proof.
  unfold write. rewrite decide_False.
  - rewrite decide_True; [by rewrite in_state_twice|].
    intros i v (_ & r & _ & ->)%lookup_scan_writes. destruct (change _ _ r) eqn:Hr; [|done]. simpl.
    intros j r' _ _. by eapply Hquiet.
  - unfold blocked. rewrite Exists_exists. intros ([i r'] & Hin & ([j r2] & _ & _ & Hc)%Exists_exists).
    apply rows_of_spec, lookup_scan_writes in Hin as (_ & r & _ & Hr). by eapply Hquiet.
Qed.

Lemma advance_scanning todo taken :
  advance (in_state c n t (Scanning todo taken)) n = Some (in_state c n t
    match todo with
    | [] => Wrote (writes taken)
    | i :: todo' =>
        if decide (room (ss_work t) taken) then
          if decide (i ∈ others) then Scanning todo' taken
          else match table c !! i with
               | Some r => Scanning todo' (if decide (fits (ss_work t) (ss_now t) i r)
                                           then taken ++ [i] else taken)
               | None => Scanning todo' taken
               end
        else Wrote (writes taken)
    end).
Proof.
  set (s := Scanning todo taken). assert (advance (in_state c n t s) n =
    visit true (in_state c n t s) n t todo taken) as ->.
  { unfold advance. unfold in_state at 1. simpl. rewrite lookup_insert_eq. simpl. rewrite Hkind.
    destruct todo as [|i todo]; [done|]. simpl. by destruct t. }
  pose proof (write_quietly s taken) as Hwrite. unfold visit.
  change (table (in_state c n t s)) with (table c). fold (writes taken). rewrite Hwrite.
  destruct todo as [|i todo]; [done|]. rewrite others_in_state. fold others.
  repeat case_decide; try done; [by rewrite in_state_twice|].
  destruct (table c !! i) as [r|]; [|by rewrite in_state_twice].
  case_decide; by rewrite in_state_twice.
Qed.

(** The rest of the subquery and the update. *)
Lemma scan_alone todo taken :
  (∀ i, i ∈ todo → ∃ r, table c !! i = Some r ∧ fits (ss_work t) (ss_now t) i r) →
  ∃ k, advance_n k (in_state c n t (Scanning todo taken)) n =
    Some (in_state c n t (Wrote (writes
      (taken ++ under_limit (ss_work t) taken (filter (λ i, i ∉ others) todo))))).
Proof.
  revert taken. induction todo as [|i todo IH]; intros taken Hall.
  { exists 1%nat. simpl. by rewrite advance_scanning, under_limit_nil, app_nil_r. }
  destruct (Hall i) as (r & Hr & Hf); [by left|].
  assert (∀ j, j ∈ todo → ∃ r, table c !! j = Some r ∧ fits (ss_work t) (ss_now t) j r) as Htodo
    by (intros j Hj; apply Hall; by right).
  pose proof (advance_scanning (i :: todo) taken) as Hadv. cbv beta iota in Hadv.
  rewrite Hr in Hadv. rewrite filter_cons.
  destruct (decide (room (ss_work t) taken)) as [Hroom|Hroom].
  - destruct (decide (i ∉ others)) as [Hi|Hi].
    + rewrite decide_False, decide_True in Hadv by done.
      destruct (IH (taken ++ [i]) Htodo) as [k Hk].
      exists (S k). simpl. rewrite Hadv. simpl. rewrite Hk, under_limit_cons by done.
      by rewrite <-app_assoc.
    + rewrite decide_True in Hadv by (by apply dec_stable).
      destruct (IH taken Htodo) as [k Hk]. exists (S k). simpl. rewrite Hadv. simpl. by rewrite Hk.
  - exists 1%nat. simpl. rewrite Hadv. simpl. by rewrite under_limit_full, app_nil_r.
Qed.

(** The whole transaction: it takes the candidates that nobody has locked. *)
Lemma undisturbed_scan :
  sessions c !! n = Some t → ss_state t = Started →
  let cands := candidates (ss_work t) (ss_now t) (outside c) (table c) in
  (∀ i, i ∈ cands → ∃ r, table c !! i = Some r ∧ fits (ss_work t) (ss_now t) i r) →
  let ws := writes (under_limit (ss_work t) [] (filter (λ i, i ∉ others) cands)) in
  ∃ k, advance_n k c n = Some (mkSessions (apply_writes ws (table c)) (outside c)
    (<[n:=mkSession (ss_work t) (ss_now t) Committed]> (sessions c)) (history c ++ [(n, ws)])).
Proof.
  intros Ht Hst cands Hall ws. destruct (scan_alone cands [] Hall) as [k Hk].
  exists (S k + 1)%nat. eapply advance_n_last.
  - simpl. assert (advance c n = Some (in_state c n t (Scanning cands []))) as ->; [|exact Hk].
    unfold advance. rewrite Ht. simpl. by rewrite Hst, Hkind.
  - unfold advance. unfold in_state at 1. simpl. rewrite lookup_insert_eq. simpl.
    by rewrite insert_insert_eq.
Qed.
End undisturbed.

Lemma lookup_after_scan w now ids tbl i :
  apply_writes (scan_writes w now ids tbl) tbl !! i =
    r ← tbl !! i; if decide (i ∈ ids) then change w now r else Some r.
Proof.
  rewrite lookup_apply_writes. destruct (scan_writes w now ids tbl !! i) as [v|] eqn:Hv.
  - apply lookup_scan_writes in Hv as [Hi (r & -> & ->)]. simpl. by rewrite decide_True.
  - destruct (tbl !! i) as [r|] eqn:Hr; [|done]. simpl. rewrite decide_False; [done|]. intros Hi.
    apply not_elem_of_list_to_map_2 in Hv. apply Hv, list_elem_of_fmap.
    exists (i, change w now r). split; [done|]. apply list_elem_of_omap.
    exists i. by rewrite Hr.
Qed.
End row_locks.
