(* ===== verification/Claiming.v ===== *)
(** * The transactions on [messages] at the same time

    The statements on [messages] of dequeue.go, enqueue.go, lifecycle.go, reaper.go,
    replay.go and purge.go as transactions that run beside each other ([RowLocks]).  A
    claim, [UPDATE ... WHERE id IN (SELECT ... ORDER BY created_at LIMIT n FOR UPDATE SKIP
    LOCKED)], is not atomic: it takes its candidates from a snapshot and then goes through
    them one by one, skipping a row that is locked and looking again at one that has changed
    in the meantime.  The methods of [Dequeue] and [Lifecycle] are atomic instead, and take
    the rows that others have locked from the environment; the last theorem says why. *)

From S2P Require Import Prelude.
From S2P Require Import Store.
From S2P Require Import Avro.
From S2P Require Import Runtime.
From S2P Require Import RowLocks.
From S2P Require Import Dequeue.
From S2P Require Import Enqueue.
From S2P Require Import Lifecycle.
From S2P Require Import Reaper.
From S2P Require Import Replay.
From S2P Require Import Query.

(** What a transaction is for; the thresholds, parameters and log rows are those its method
    has read before. *)
Inductive Work :=
| work_dequeue (topic : string) (secs : Z)
| work_dequeueN (topic : string) (n secs : Z)
| work_ack (id : uuid)
| work_nack (id : uuid) (threshold : Z) (err : string)
| work_requeue (id : uuid) (threshold : Z)
| work_enqueue (id : uuid) (topic payload : string) (metadata : option (gmap string string))
    (key : option string) (p : enqueueParams)
| work_replay (topic : string) (expires_at : option Z) (rows : list (uuid * LogRow))
| work_expire
| work_delete_expired
| work_purge (topic : string) (statuses : list string)
| work_purge_key (topic key : string)
| work_delete (id : uuid).

Abbreviation MessageSession := (Session (K:=uuid) (R:=MessageRow) (W:=Work)).
Abbreviation MessageSessions := (Sessions (K:=uuid) (R:=MessageRow) (X:=unit) (W:=Work)).

Section claiming.
Context `{PG : Postgres} `{STO : Storage}.

(** ** The statements *)

Definition is_claim (w : Work) : bool :=
  match w with work_dequeue _ _ | work_dequeueN _ _ _ => true | _ => false end.

Definition work_kind (w : Work) : Kind uuid :=
  match w with
  | work_dequeue _ _ | work_dequeueN _ _ _ => scans true
  | work_ack i | work_nack i _ _ | work_requeue i _ => settles i
  | work_enqueue _ _ _ _ _ p => if decide (int4 (p_maxRetries p)) then inserts false else refuses
  | work_replay _ _ _ => inserts true
  | work_expire | work_delete_expired | work_purge _ _ | work_purge_key _ _ | work_delete _ =>
      scans false
  end.

(** The [WHERE] clauses; [Nack] and [Requeue] lock whatever row the id has, and
    [Enqueue]'s [ON CONFLICT] names its arbiter. *)
Definition work_fits (w : Work) (now : Z) (i : uuid) (r : MessageRow) : Prop :=
  match w with
  | work_dequeue topic _ => eligible now topic r
  | work_dequeueN topic _ _ => eligible_batch now topic r
  | work_ack _ => m_status r = processing
  | work_nack _ _ _ | work_requeue _ _ => True
  | work_enqueue _ topic _ _ key _ => same_pending_key topic key r
  | work_replay _ _ _ => False
  | work_expire => past_ttl now i r
  | work_delete_expired => is_expired i r
  | work_purge topic statuses => purged topic statuses i r
  | work_purge_key topic key => keyed topic key i r
  | work_delete id => i = id
  end.
#[export] Instance work_fits_dec w now i r : Decision (work_fits w now i r).
Proof. destruct w; simpl; apply _. Defined.

(** A claim goes through its rows in their order, the others in any. *)
Definition work_candidates (w : Work) (now : Z) (tbl : gmap uuid MessageRow) : list uuid :=
  let rows := map_to_list (filter (λ ir, work_fits w now ir.1 ir.2) tbl) in
  (if is_claim w then order_by (λ ir, m_created_at ir.2) rows else returning rows).*1.

Definition work_limit (w : Work) : option nat :=
  match w with
  | work_dequeue _ _ => Some 1%nat
  | work_dequeueN _ n _ => Some (Z.to_nat n)
  | _ => None
  end.

(** The [UPDATE] of a claim and of the expiry reaper; the others delete. *)
Definition work_change (w : Work) (now : Z) (r : MessageRow) : option MessageRow :=
  match w with
  | work_dequeue _ secs | work_dequeueN _ _ secs => Some (claim now secs r)
  | work_expire => Some (expire now r)
  | _ => None
  end.

(** A row as the columns can store it. *)
Definition stored (r : MessageRow) : option (option MessageRow) :=
  if decide (int4 (m_retry_count r) ∧ int4 (m_max_retries r)) then Some (Some r) else None.

(** What a method makes of the row it holds; [None] is one of its errors. *)
Definition settlement (w : Work) (now : Z) (r : MessageRow) : option (option MessageRow) :=
  match w with
  | work_ack _ => Some None
  | work_nack _ threshold err =>
      if decide (m_status r ≠ processing) then None else stored (nacked threshold now err r)
  | work_requeue _ threshold =>
      match m_original_topic r with
      | None | Some EmptyString => None
      | Some topic => stored (requeue_row now topic threshold r)
      end
  | work_enqueue _ _ payload metadata _ p => Some (Some (overwrite_row payload metadata p now r))
  | _ => None
  end.

Definition work_rows (w : Work) (now : Z) : list (uuid * MessageRow) :=
  match w with
  | work_enqueue i topic payload metadata key p =>
      [(i, fresh_row topic payload metadata key p now)]
  | work_replay topic expires_at rows =>
      (λ il, (il.1, replayed_row topic il.2 expires_at now)) <$> rows
  | _ => []
  end.

#[export] Instance message_statements : Statements uuid MessageRow unit Work := {
  kind := work_kind;
  candidates w now _ tbl := work_candidates w now tbl;
  fits := work_fits;
  limit := work_limit;
  change := work_change;
  settles_to := settlement;
  new_rows w now _ := work_rows w now;
  clash := key_clash;
  clash_sym := key_clash_sym;
}.

(** ** What holds under every interleaving *)

Lemma claim_scans w b : is_claim w = true → kind w ≠ inserts b.
Proof. by destruct w. Qed.
Lemma claim_fits_pending w now i r : is_claim w = true → fits w now i r → m_status r = pending.
Proof. destruct w; simpl; unfold eligible_batch, eligible; try done; tauto. Qed.
Lemma claim_changes w now r r' :
  is_claim w = true → change w now r = Some r' → m_status r' = processing.
Proof. destruct w; simpl; intros ? [= <-]; done. Qed.

(** What a claim writes. *)
Lemma claim_produces w now tbl i v :
  is_claim w = true → produced w now tbl i v → ∃ r, v = Some r ∧ m_status r = processing.
Proof.
  intros Hc [(r & _ & _ & Hv)|(? & b & ? & Hk & _)]; [|by destruct (claim_scans w b)].
  destruct w as [topic secs|topic n secs| | | | | | | | | |]; try done; simpl in Hv; destruct Hv as [-> _]; eauto.
Qed.

(** [C10] Exclusive delivery under every interleaving of the statements of dequeues, batch
    dequeues, acknowledgements, rejections, requeues, enqueues with and without a key,
    replays, the two reapers and the purges, with transactions that end at any point.  No
    row is locked by two transactions, and no two pending messages of a topic have the same
    key.  Whatever a committed transaction has written, it made of the rows as they were
    committed just before: a claim, of rows that were pending, visible, unexpired and had
    retries left, although the snapshot they were selected from is older; a keyed enqueue,
    of a message that was still pending; a reaper, of rows past their time.  And between two
    claims of one message there is a commit that has made it pending again: no message is
    handed to two consumers. *)
Theorem exclusive_delivery c0 c :
  started c0 → rtc session_step c0 c →
  (∀ n m t u i, sessions c !! n = Some t → sessions c !! m = Some u → n ≠ m →
     i ∈ locks (ss_state t) → i ∉ locks (ss_state u)) ∧
  (unique_table (table c0) → unique_table (table c)) ∧
  (∀ h1 n ws h2 i v, history c = h1 ++ (n, ws) :: h2 → ws !! i = Some v →
     ∃ t, sessions c !! n = Some t ∧
       produced (ss_work t) (ss_now t) (replay h1 (table c0)) i v) ∧
  let claimed n ws i := ∃ t, sessions c !! n = Some t ∧ is_claim (ss_work t) = true ∧
    is_Some (ws !! i) in
  (∀ h1 n ws h2 m ws' h3 i, history c = h1 ++ (n, ws) :: h2 ++ (m, ws') :: h3 →
     claimed n ws i → claimed m ws' i →
     ∃ k t wk r, (k, wk) ∈ h2 ∧ sessions c !! k = Some t ∧ is_claim (ss_work t) = false ∧
       wk !! i = Some (Some r) ∧ m_status r = pending).
Proof.
  intros Hstart Hrun. destruct (sessions_ok_reached _ _ Hstart Hrun) as [_ Hl _ Hc Hd].
  assert (∀ h1 n ws h2 i v, history c = h1 ++ (n, ws) :: h2 → ws !! i = Some v →
    ∃ t, sessions c !! n = Some t ∧ produced (ss_work t) (ss_now t) (replay h1 (table c0)) i v)
    as Hwrites.
  { intros h1 n ws h2 i v Hh Hi. destruct (Hd n ws) as [t Ht]; [rewrite Hh; set_solver|].
    exists t. split; [done|]. by eapply Hc. }
  split_and!; [exact Hl|intros Hu; by eapply sessions_unique_reached|exact Hwrites|].
  intros claimed h1 n ws h2 m ws' h3 i Hh (t & Ht & Hcl & [v Hv]) (u & Hu & Hcl' & Hi').
  destruct (Hwrites _ _ _ _ _ _ Hh Hv) as (t' & Ht' & Hp). simplify_eq.
  destruct (claim_produces _ _ _ _ _ Hcl Hp) as (r & -> & Hr).
  destruct (rewritten c0 c (λ r, m_status r = pending) h1 n ws h2 m ws' h3 i r u)
    as (k & s & wk & r' & Hin & Hk & Hwk & Hr'); try done; [by rewrite Hr|..].
  { intros now r'. by apply claim_fits_pending. }
  { intros b. by apply claim_scans. }
  exists k, s, wk, r'. split_and!; try done. destruct (is_claim (ss_work s)) eqn:Hclaim; [|done].
  apply list_elem_of_split in Hin as (a & b & ->).
  replace (h1 ++ (n, ws) :: (a ++ (k, wk) :: b) ++ (m, ws') :: h3)
    with ((h1 ++ (n, ws) :: a) ++ (k, wk) :: b ++ (m, ws') :: h3) in Hh
    by by rewrite <-!app_assoc.
  destruct (Hwrites _ _ _ _ _ _ Hh Hwk) as (s' & Hs' & Hps). simplify_eq.
  destruct (claim_produces _ _ _ _ _ Hclaim Hps) as (? & [= <-] & ?). congruence.
Qed.

(** ** A claim that nobody disturbs *)

Context `{LAWS : !PostgresLaws}.

(** Creation times tell the rows a claim may take apart. *)
Definition distinct_times (w : Work) (now : Z) (tbl : gmap uuid MessageRow) : Prop :=
  ∀ i j ri rj, tbl !! i = Some ri → tbl !! j = Some rj → fits w now i ri → fits w now j rj →
    m_created_at ri = m_created_at rj → i = j.

(** Skipping the locked rows one by one selects what the atomic subquery selects. *)
Lemma unlocked_candidates w now (others : gset uuid) (tbl : gmap uuid MessageRow) :
  is_claim w = true → distinct_times w now tbl →
  filter (λ i, i ∉ others) (work_candidates w now tbl) =
    (order_by (λ ir, m_created_at ir.2)
       (map_to_list (filter (λ ir, work_fits w now ir.1 ir.2 ∧ ir.1 ∉ others) tbl))).*1.
Proof.
  intros Hc Hd. unfold work_candidates. rewrite Hc, filter_fmap, filter_order_by.
  - f_equal. apply order_by_unique.
    + intros [i ri] [j rj] [_ Hi]%list_elem_of_filter [_ Hj]%list_elem_of_filter Heq.
      apply elem_of_map_to_list, map_lookup_filter_Some in Hi as [Hi Hfi], Hj as [Hj Hfj]. simpl in *.
      assert (i = j) as -> by by eapply Hd. congruence.
    + apply NoDup_Permutation.
      * apply NoDup_filter, NoDup_map_to_list.
      * apply NoDup_map_to_list.
      * intros [i r]. rewrite list_elem_of_filter, !elem_of_map_to_list, !map_lookup_filter_Some.
        simpl. tauto.
  - intros [i ri] [j rj] Hi Hj Heq.
    apply elem_of_map_to_list, map_lookup_filter_Some in Hi as [Hi Hfi], Hj as [Hj Hfj]. simpl in *.
    assert (i = j) as -> by by eapply Hd. congruence.
Qed.

(** The claim of the atomic methods. *)
Definition atomic_claim (w : Work) (e : Env) (db : DB) : option DB :=
  match w with
  | work_dequeue topic secs =>
      match sql_claim_one topic secs e db with Ok (_, db') => Some db' | Err _ => None end
  | work_dequeueN topic n secs =>
      match sql_claim_many topic n secs e db with Ok (_, db') => Some db' | Err _ => None end
  | _ => None
  end.

Definition claim_secs (w : Work) : Z :=
  match w with work_dequeue _ secs | work_dequeueN _ _ secs => secs | _ => 0 end.

Lemma atomic_claim_update w e db :
  is_claim w = true →
  let rows := order_by (λ ir, m_created_at ir.2)
    (map_to_list (filter (λ ir, work_fits w (pg_now e) ir.1 ir.2 ∧ ir.1 ∉ locked_messages e)
      (messages db))) in
  messages <$> atomic_claim w e db =
    Some (map_update (selected (under_limit w [] rows.*1)) (claim (pg_now e) (claim_secs w))
      (messages db)).
Proof.
  intros Hcl rows. unfold under_limit. simpl limit. destruct w as [topic secs|topic m secs| | | | | | | | | |]; try done.
  2: { unfold atomic_claim, sql_claim_many, select_messages. simpl. by rewrite Nat.sub_0_r, fmap_take. }
  unfold atomic_claim, sql_claim_one. simpl work_limit. cbv iota. simpl length. rewrite <-fmap_take, Nat.sub_0_r.
  pose proof (select_messages_length (eligible (pg_now e) topic) 1 e db) as Hlen.
  pose proof (select_messages_elem (eligible (pg_now e) topic) 1 e db) as Hel.
  change (select_messages (eligible (pg_now e) topic) 1 e db) with (take 1 rows) in *.
  clearbody rows. revert Hlen Hel. generalize (take 1 rows). clear rows. intros rows Hlen Hel.
  destruct rows as [|[i r] [|]]; simpl in *; [| |lia].
  - f_equal. apply map_eq. intros j. rewrite lookup_map_update. unfold selected.
    destruct (messages db !! j); [|done]. cbn [fmap option_fmap option_map]. by rewrite decide_False by set_solver.
  - destruct (Hel i r) as [Hr _]; [by left|]. f_equal. apply map_eq. intros j.
    rewrite lookup_map_update, lookup_insert. unfold selected. case_decide as Hj.
    + subst j. rewrite Hr. cbn [fmap option_fmap option_map]. by rewrite decide_True by set_solver.
    + destruct (messages db !! j); [|done]. cbn [fmap option_fmap option_map]. by rewrite decide_False by set_solver.
Qed.

(** [C11] The atomic claims are claims that nobody disturbs.  A dequeue or batch dequeue whose
    statement no other session's statements separate, and whose rows have distinct creation
    times, locks, updates and commits exactly what [sql_claim_one] or [sql_claim_many] does
    with the rows locked by the other sessions as the environment's. *)
Theorem undisturbed_claim_is_atomic c n t e db :
  sessions c !! n = Some t → ss_state t = Started → is_claim (ss_work t) = true →
  messages db = table c → pg_now e = ss_now t →
  locked_messages e = locked_by_others n (sessions c) →
  distinct_times (ss_work t) (ss_now t) (table c) →
  ∃ k c' db', advance_n k c n = Some c' ∧ atomic_claim (ss_work t) e db = Some db' ∧
    table c' = messages db' ∧
    sessions c' = <[n:=mkSession (ss_work t) (ss_now t) Committed]> (sessions c) ∧
    ∃ ws, history c' = history c ++ [(n, ws)] ∧ table c' = apply_writes ws (table c) ∧
      ∀ i, is_Some (ws !! i) → i ∉ locked_by_others n (sessions c).
Proof.
  intros Ht Hst Hcl Hdb Hnow Hlocks Hd.
  destruct (undisturbed_scan c n t) as [k Hk]; try done.
  { destruct (ss_work t); done. }
  { intros r r' r2 Hr%claim_changes Hc; [|done]. destruct Hc as [Hc _]. congruence. }
  { intros i Hi. simpl in Hi. unfold work_candidates in Hi. rewrite Hcl in Hi.
    apply list_elem_of_fmap in Hi as ([j r] & -> & Hin). rewrite order_by_perm in Hin.
    apply elem_of_map_to_list, map_lookup_filter_Some in Hin. by exists r. }
  simpl candidates in Hk. rewrite unlocked_candidates in Hk by done.
  pose proof (atomic_claim_update (ss_work t) e db Hcl) as Hatomic. cbv zeta in Hatomic.
  rewrite Hdb, Hnow, Hlocks in Hatomic.
  set (ids := under_limit (ss_work t) [] _) in *. set (ws := scan_writes _ _ ids _) in *.
  destruct (atomic_claim (ss_work t) e db) as [db'|]; [|done]. injection Hatomic as Hdb'.
  eexists k, _, db'. split; [exact Hk|]. split_and!; simpl; [done| |done|].
  - rewrite Hdb'. apply map_eq. intros i. unfold ws. rewrite lookup_after_scan, lookup_map_update.
    destruct (table c !! i) as [r|]; [|done]. cbn [mbind option_bind fmap option_fmap option_map].
    unfold selected. repeat case_decide; try done. clear -Hcl. by destruct (ss_work t).
  - exists ws. split_and!; [done..|]. intros i [v [Hi _]%lookup_scan_writes]. unfold ids in Hi.
    assert (i ∈ (order_by (λ ir, m_created_at ir.2) (map_to_list (filter (λ ir,
      work_fits (ss_work t) (ss_now t) ir.1 ir.2 ∧ ir.1 ∉ locked_by_others n (sessions c))
      (table c)))).*1) as Hin.
    { revert Hi. unfold under_limit. destruct (limit _); [|done]. intros (?&Hi&_)%elem_of_take. by eapply list_elem_of_lookup_2. }
    apply list_elem_of_fmap in Hin as ([j r] & -> & Hin). rewrite order_by_perm in Hin.
    by apply elem_of_map_to_list, map_lookup_filter_Some in Hin as [_ [_ ?]].
Qed.
End claiming.
