(* ===== verification/GroupClaiming.v ===== *)
(** * The transactions on [message_deliveries] at the same time

    The statements on [message_deliveries] of dequeue.go, lifecycle.go and
    consumer_group.go, of the trigger of the migrations and of [ON DELETE CASCADE], as
    transactions that run beside each other ([RowLocks]), while the other tables change in
    any way.  The claim of a group locks its deliveries only ([FOR UPDATE OF md]): what it
    has read of the message it joined is as old as its snapshot. *)

From S2P Require Import Prelude.
From S2P Require Import Store.
From S2P Require Import Avro.
From S2P Require Import Runtime.
From S2P Require Import Dequeue.
From S2P Require Import Lifecycle.
From S2P Require Import ConsumerGroup.
From S2P Require Import RowLocks.

(** What a transaction is for. *)
Inductive GroupWork :=
| group_dequeue (topic group : string) (n secs : Z)
| group_ack (id : uuid) (group : string)
| group_nack (id : uuid) (group : string) (threshold : Z) (err : string)
| group_mint (id : uuid) (topic : string) (max_retries : Z)
| group_backfill (topic group : string)
| group_unregister (topic group : string)
| group_cascade (id : uuid).

(** The tables the statements join. *)
Record Joined := mkJoined {
  joined_messages : gmap uuid MessageRow;
  joined_groups : gmap (string * string) Z }.

Abbreviation DeliverySession :=
  (Session (K:=uuid * string) (R:=DeliveryRow) (W:=GroupWork)).
Abbreviation DeliverySessions :=
  (Sessions (K:=uuid * string) (R:=DeliveryRow) (X:=Joined) (W:=GroupWork)).

Section group_claiming.
Context `{PG : Postgres} `{STO : Storage}.
Implicit Types (x : Joined) (tbl : gmap (uuid * string) DeliveryRow).

(** ** The statements *)

Definition group_kind (w : GroupWork) : Kind (uuid * string) :=
  match w with
  | group_dequeue _ _ _ _ => scans true
  | group_ack i g | group_nack i g _ _ => settles (i, g)
  | group_mint _ _ _ | group_backfill _ _ => inserts true
  | group_unregister _ _ | group_cascade _ => scans false
  end.

(** The conditions on the delivery itself. *)
Definition group_fits (w : GroupWork) (now : Z) (k : uuid * string) (d : DeliveryRow) : Prop :=
  match w with
  | group_dequeue _ group _ _ => k.2 = group ∧ d_status d = pending ∧
      visible now (d_visibility_timeout d) ∧ retries_left (d_max_retries d) (d_retry_count d)
  | group_ack _ _ => d_status d = processing
  | group_nack _ _ _ _ => True
  | group_mint _ _ _ | group_backfill _ _ => False
  | group_unregister _ group => k.2 = group
  | group_cascade i => k.1 = i
  end.
#[export] Instance group_fits_dec w now k d : Decision (group_fits w now k d).
Proof. destruct w; simpl; apply _. Defined.

(** The rows of the claim's join. *)
Definition joined_rows (topic group : string) (now : Z) (x : Joined)
    (tbl : gmap (uuid * string) DeliveryRow) : list (uuid * string * MessageRow) :=
  omap (λ kd, r ← joined_messages x !! kd.1.1;
              if decide (kd.1.2 = group ∧ eligible_delivery now topic r kd.2)
              then Some (kd.1, r) else None) (map_to_list tbl).

Definition group_candidates (w : GroupWork) (now : Z) (x : Joined)
    (tbl : gmap (uuid * string) DeliveryRow) : list (uuid * string) :=
  match w with
  | group_dequeue topic group _ _ =>
      (order_by (λ kr, m_created_at kr.2) (joined_rows topic group now x tbl)).*1
  | group_unregister topic group =>
      returning (filter (λ k, k.2 = group ∧ m_topic <$> joined_messages x !! k.1 = Some topic)
                   (map_to_list tbl).*1)
  | group_cascade i => returning (filter (λ k, k.1 = i) (map_to_list tbl).*1)
  | _ => []
  end.

Definition group_limit (w : GroupWork) : option nat :=
  match w with group_dequeue _ _ n _ => Some (Z.to_nat n) | _ => None end.

Definition group_change (w : GroupWork) (now : Z) (d : DeliveryRow) : option DeliveryRow :=
  match w with group_dequeue _ _ _ secs => Some (claim_delivery now secs d) | _ => None end.

Definition group_settlement (w : GroupWork) (now : Z) (d : DeliveryRow)
    : option (option DeliveryRow) :=
  match w with
  | group_ack _ _ => Some None
  | group_nack _ _ threshold err =>
      let d' := nacked_delivery threshold now err d in
      if decide (d_status d ≠ processing) then None
      else if decide (int4 (d_retry_count d')) then Some (Some d') else None
  | _ => None
  end.

Definition group_rows (w : GroupWork) (now : Z) (x : Joined)
    : list (uuid * string * DeliveryRow) :=
  match w with
  | group_mint i topic max_retries =>
      (λ tgc, ((i, tgc.1.2), new_delivery now max_retries)) <$>
        returning (filter (λ tgc, tgc.1.1 = topic) (map_to_list (joined_groups x)))
  | group_backfill topic group =>
      (λ ir, ((ir.1, group), new_delivery now (m_max_retries ir.2))) <$>
        returning (filter (λ ir, m_topic ir.2 = topic ∧ m_status ir.2 = pending)
                     (map_to_list (joined_messages x)))
  | _ => []
  end.

#[export, refine] Instance delivery_statements
    : Statements (uuid * string) DeliveryRow Joined GroupWork := {
  kind := group_kind;
  candidates := group_candidates;
  fits := group_fits;
  limit := group_limit;
  change w now d := group_change w now d;
  settles_to := group_settlement;
  new_rows := group_rows;
  clash _ _ := False;
}.
Proof. done. Defined.

(** ** What holds under every interleaving *)

Context `{LAWS : !PostgresLaws}.

Lemma joined_rows_spec topic group now x tbl k r :
  (k, r) ∈ joined_rows topic group now x tbl ↔ ∃ d, tbl !! k = Some d ∧
    joined_messages x !! k.1 = Some r ∧ k.2 = group ∧ eligible_delivery now topic r d.
Proof.
  unfold joined_rows. rewrite list_elem_of_omap. split.
  - intros ([k' d] & Hk & Heq). apply elem_of_map_to_list in Hk. simpl in Heq.
    destruct (joined_messages x !! k'.1) as [r'|] eqn:Hr; [|done]. simpl in Heq.
    case_decide; simplify_eq. exists d. tauto.
  - intros (d & Hd & Hr & He). exists (k, d). split; [by apply elem_of_map_to_list|]. simpl.
    rewrite Hr. simpl. by rewrite decide_True.
Qed.

(** [C12] Exclusive delivery within a group, under every interleaving of claims,
    acknowledgements, rejections, deliveries minted for new messages and new groups, and
    removals of groups and messages.  No delivery is locked by two transactions.  A claim
    that commits has claimed, of its group, deliveries of messages that were of its topic
    and unexpired when it took its snapshot, and that were pending, visible and had retries
    left just before the commit.  And between two claims of one delivery there is a commit
    that has made it pending again: no member of the group gets a message another has. *)
Theorem exclusive_group_delivery c0 c :
  started c0 → rtc session_step c0 c →
  (∀ n m t u k, sessions c !! n = Some t → sessions c !! m = Some u → n ≠ m →
     k ∈ locks (ss_state t) → k ∉ locks (ss_state u)) ∧
  (∀ h1 n ws h2 k v t topic group lim secs, history c = h1 ++ (n, ws) :: h2 →
     ws !! k = Some v → sessions c !! n = Some t → ss_work t = group_dequeue topic group lim secs →
     ∃ d r, replay h1 (table c0) !! k = Some d ∧ k.2 = group ∧
       eligible_delivery (ss_now t) topic r d ∧ v = Some (claim_delivery (ss_now t) secs d)) ∧
  let claimed n ws k := ∃ t topic group lim secs, sessions c !! n = Some t ∧
    ss_work t = group_dequeue topic group lim secs ∧ is_Some (ws !! k) in
  (∀ h1 n ws h2 m ws' h3 k, history c = h1 ++ (n, ws) :: h2 ++ (m, ws') :: h3 →
     claimed n ws k → claimed m ws' k →
     ∃ j wj d, (j, wj) ∈ h2 ∧ wj !! k = Some (Some d) ∧ d_status d = pending).
Proof.
  intros Hstart Hrun. destruct (sessions_ok_reached _ _ Hstart Hrun) as [_ Hl _ Hc Hd].
  assert (∀ h1 n ws h2 k v t topic group lim secs, history c = h1 ++ (n, ws) :: h2 →
     ws !! k = Some v → sessions c !! n = Some t → ss_work t = group_dequeue topic group lim secs →
     ∃ d r, replay h1 (table c0) !! k = Some d ∧ k.2 = group ∧
       eligible_delivery (ss_now t) topic r d ∧ v = Some (claim_delivery (ss_now t) secs d))
    as Hclaims.
  { intros h1 n ws h2 k v t topic group lim secs Hh Hk Ht Hw.
    destruct (Hc _ _ _ _ _ Hh Ht k v Hk) as [(d & Hdel & Hf & Hv)|(? & b & ? & Hb & _)];
      rewrite Hw in *; [|done]. simpl in Hf, Hv. destruct Hf as (Hg & Hst & Hvis & Hret).
    destruct Hv as [-> (x & tbl & Hin)]. simpl in Hin.
    apply list_elem_of_fmap in Hin as ([k' r] & -> & Hin). rewrite order_by_perm in Hin.
    apply joined_rows_spec in Hin as (d' & _ & _ & _ & He).
    exists d, r. unfold eligible_delivery in *. simpl in *. tauto. }
  split_and!; [exact Hl|exact Hclaims|].
  intros claimed h1 n ws h2 m ws' h3 k Hh (t & topic & g & lim & secs & Ht & Hw & [v Hv])
    (u & topic' & g' & lim' & secs' & Hu & Hw' & Hk).
  destruct (Hclaims _ _ _ _ _ _ _ _ _ _ _ Hh Hv Ht Hw) as (d & _ & _ & _ & _ & ->).
  destruct (rewritten c0 c (λ d, d_status d = pending) h1 n ws h2 m ws' h3 k
    (claim_delivery (ss_now t) secs d) u) as (j & s & wj & d' & Hin & _ & Hwj & Hd'); try done.
  - intros now d'. rewrite Hw'. simpl. tauto.
  - intros b. by rewrite Hw'.
  - by exists j, wj, d'.
Qed.

(** ** A claim that nobody disturbs *)

(** Creation times tell the messages apart whose deliveries a claim may take. *)
Definition distinct_messages (topic group : string) (now : Z) (x : Joined)
    (tbl : gmap (uuid * string) DeliveryRow) : Prop :=
  key_distinct (λ kr, m_created_at kr.2) (joined_rows topic group now x tbl).

(** The rows of the atomic claim are those of the join that nobody has locked. *)
Lemma select_deliveries_joined topic group n e db :
  let x := mkJoined (messages db) (consumer_groups db) in
  distinct_messages topic group (pg_now e) x (message_deliveries db) →
  (λ i, (i, group)) <$> (select_deliveries topic group n e db).*1 =
    take (Z.to_nat n) (filter (λ k, k ∉ locked_deliveries e)
      (order_by (λ kr, m_created_at kr.2)
         (joined_rows topic group (pg_now e) x (message_deliveries db))).*1).
Proof.
  intros x Hd. unfold select_deliveries. rewrite filter_fmap, filter_order_by by done.
  set (φ := λ ird : uuid * (MessageRow * DeliveryRow), ((ird.1, group), ird.2.1)).
  rewrite !fmap_take, <-!list_fmap_compose.
  match goal with |- take _ (_ <$> order_by _ ?l) = _ => set (rows := l) end.
  assert (filter (λ kr, kr.1 ∉ locked_deliveries e)
    (joined_rows topic group (pg_now e) x (message_deliveries db)) = φ <$> rows) as Hrows.
  { unfold joined_rows, rows. induction (map_to_list (message_deliveries db)) as [|[[i g] d] l IH];
      [done|]. simpl. destruct (messages db !! i) as [r|]; [|exact IH]. simpl.
    destruct (decide (g = group ∧ eligible_delivery (pg_now e) topic r d)) as [[-> He]|Hn].
    - rewrite filter_cons. simpl. destruct (decide ((i, group) ∉ locked_deliveries e)) as [Hk|Hk].
      + rewrite (decide_True (P := _ ∧ _ ∧ _)) by done. simpl. f_equal. exact IH.
      + rewrite (decide_False (P := _ ∧ _ ∧ _)) by tauto. exact IH.
    - rewrite (decide_False (P := _ ∧ _ ∧ _)) by tauto. exact IH. }
  rewrite Hrows. rewrite order_by_fmap.
  - rewrite <-!list_fmap_compose. done.
  - rewrite <-Hrows. intros y z [_ Hy]%list_elem_of_filter [_ Hz]%list_elem_of_filter. by apply Hd.
Qed.

(** The atomic claims of a group are claims that nobody disturbs: a claim whose statement no
    other session's statements separate, and whose messages have distinct creation times,
    commits exactly what [sql_claim_deliveries] does with the deliveries locked by the other
    sessions as the environment's. *)
Theorem undisturbed_group_claim_is_atomic c j t topic group n secs e db :
  sessions c !! j = Some t → ss_state t = Started → ss_work t = group_dequeue topic group n secs →
  outside c = mkJoined (messages db) (consumer_groups db) → table c = message_deliveries db →
  pg_now e = ss_now t → locked_deliveries e = locked_by_others j (sessions c) →
  distinct_messages topic group (ss_now t) (outside c) (table c) →
  ∃ k c' ids db', advance_n k c j = Some c' ∧
    sql_claim_deliveries topic group n secs e db = Ok (ids, db') ∧
    table c' = message_deliveries db' ∧
    sessions c' = <[j:=mkSession (ss_work t) (ss_now t) Committed]> (sessions c).
Proof.
  intros Ht Hst Hw Hx Htbl Hnow Hlocks Hd.
  destruct (undisturbed_scan c j t) as [k Hk]; try done.
  { by rewrite Hw. }
  { intros r r' r2 _ []. }
  { rewrite Hw. simpl. intros k Hk. apply list_elem_of_fmap in Hk as ([k' r] & -> & Hin).
    rewrite order_by_perm in Hin. apply joined_rows_spec in Hin as (d & Hdel & _ & Hg & He).
    exists d. split; [done|]. unfold eligible_delivery in He. simpl. tauto. }
  pose proof (select_deliveries_joined topic group n e db) as Hsel. cbv zeta in Hsel.
  rewrite <-Hx, <-Htbl, Hnow, Hlocks in Hsel. specialize (Hsel Hd).
  eexists k, _, _, _. split; [exact Hk|]. split; [done|]. split; [|done]. simpl.
  apply map_eq. intros [i g]. rewrite Hw. rewrite lookup_after_scan, <-Htbl, lookup_map_update.
  unfold under_limit. simpl. rewrite Nat.sub_0_r, <-Hsel.
  destruct (table c !! (i, g)) as [d|]; [|done]. cbn [mbind option_bind fmap option_fmap option_map].
  unfold selected_delivery. simpl. rewrite Hnow.
  destruct (decide (i ∈ (select_deliveries topic group n e db).*1 ∧ g = group)) as [[Hi ->]|Hn].
  - rewrite decide_True; [done|]. apply list_elem_of_fmap. by exists i.
  - rewrite decide_False; [done|]. intros (i' & [= -> ->] & Hi)%list_elem_of_fmap. tauto.
Qed.
End group_claiming.
