(* ===== verification/GroupGaps.v ===== *)
(** * Where a consumer group misses messages

    Two ways past the promise of [docs/guide/consumer-groups.md] that a group gets every
    message that is pending when it is registered and every later one: an enqueue that
    overlaps the registration, and an enqueue with the key of a message the group has.
    [RegisterConsumerGroup] (consumer_group.go) and the insertion of [Enqueue] with its
    trigger are transactions here, statement by statement. *)

From S2P Require Import Prelude.
From S2P Require Import Store.
From S2P Require Import Avro.
From S2P Require Import Runtime.
From S2P Require Import Dequeue.
From S2P Require Import Enqueue.
From S2P Require Import Lifecycle.
From S2P Require Import ConsumerGroup.
From S2P Require Import TopicConfig.
From S2P Require Import Throttle.
From S2P Require Import Schema.

(** ** A registration and an enqueue at the same time *)

(** Before the first statement; with the group inserted; with the deliveries inserted, none
    of it committed; committed; refused. *)
Inductive Registration :=
| reg_begun
| reg_group_inserted
| reg_backfilled (ds : gmap (uuid * string) DeliveryRow)
| reg_committed
| reg_refused.

(** Before the statement; with the row and its deliveries inserted, not committed;
    committed; refused. *)
Inductive Insertion :=
| ins_begun
| ins_inserted (ds : gmap (uuid * string) DeliveryRow)
| ins_committed
| ins_refused.

(** Who takes the next step. *)
Inductive Turn := turn_reg | turn_ins.
#[export] Instance Turn_eq_dec : EqDecision Turn.
Proof. solve_decision. Defined.

Section race.
Context `{PG : Postgres} `{STO : Storage}.

Record Race := mkRace { race_db : DB; race_reg : Registration; race_ins : Insertion }.

Context (topic group : string) (id : uuid) (r : MessageRow) (e_reg e_ins : Env).

(** The rows a statement inserts. *)
Definition added (db db' : DB) : gmap (uuid * string) DeliveryRow :=
  message_deliveries db' ∖ message_deliveries db.

(** A statement or the commit of [RegisterConsumerGroup]; each statement sees what is
    committed when it starts. *)
Definition reg_step (s : Race) : Race :=
  let db := race_db s in
  match race_reg s with
  | reg_begun =>
      match sql_insert_group topic group e_reg db with
      | Ok (n, _) => mkRace db (if n =? 0 then reg_refused else reg_group_inserted) (race_ins s)
      | Err _ => mkRace db reg_refused (race_ins s)
      end
  | reg_group_inserted =>
      match sql_backfill topic group e_reg db with
      | Ok db' => mkRace db (reg_backfilled (added db db')) (race_ins s)
      | Err _ => mkRace db reg_refused (race_ins s)
      end
  | reg_backfilled ds =>
      mkRace (set_deliveries (message_deliveries db ∪ ds)
                (set_groups (<[(topic, group) := pg_now e_reg]> (consumer_groups db)) db))
        reg_committed (race_ins s)
  | reg_committed | reg_refused => s
  end.

(** The [INSERT] with its trigger, and its commit. *)
Definition ins_step (s : Race) : Race :=
  let db := race_db s in
  match race_ins s with
  | ins_begun =>
      match insert_message (pg_now e_ins) id r db with
      | Ok db' => mkRace db (race_reg s) (ins_inserted (added db db'))
      | Err _ => mkRace db (race_reg s) ins_refused
      end
  | ins_inserted ds =>
      mkRace (set_deliveries (message_deliveries db ∪ ds)
                (set_messages (<[id:=r]> (messages db)) db)) (race_reg s) ins_committed
  | ins_committed | ins_refused => s
  end.

Definition run_race (turns : list Turn) (s : Race) : Race :=
  foldl (λ s t, match t with turn_reg => reg_step s | turn_ins => ins_step s end) s turns.

(** The orders of the three steps of the registration and the two of the insertion. *)
Fixpoint interleavings {A} (fuel : nat) (l l' : list A) : list (list A) :=
  match fuel, l, l' with
  | S f, x :: xs, y :: ys =>
      (cons x <$> interleavings f xs l') ++ (cons y <$> interleavings f l ys)
  | _, [], _ => [l']
  | _, _, _ => [l]
  end.
Definition all_orders : list (list Turn) :=
  interleavings 5 [turn_reg; turn_reg; turn_reg] [turn_ins; turn_ins].

(** The insertion is committed before the backfill, or begins after the registration. *)
Definition ordered (turns : list Turn) : bool :=
  let steps t l := length (filter (λ u, u = t) l) in
  existsb (λ k, let l := take k turns in
     ((steps turn_ins l =? 2) && (steps turn_reg l =? 1)) ||
     ((steps turn_ins l =? 0) && (steps turn_reg l =? 3)))%nat (seq 0 6).

(** *** What a step knows *)

(** How far both are, and whether the backfill and the trigger have seen each other's row. *)
Record Seen := mkSeen { at_reg : nat; at_ins : nat; backfill_saw : bool; trigger_saw : bool }.

Definition seen_step (a : Seen) (t : Turn) : Seen :=
  match t with
  | turn_reg => mkSeen (S (at_reg a)) (at_ins a)
      (if (at_reg a =? 1)%nat then (at_ins a =? 2)%nat else backfill_saw a) (trigger_saw a)
  | turn_ins => mkSeen (at_reg a) (S (at_ins a)) (backfill_saw a)
      (if (at_ins a =? 0)%nat then (at_reg a =? 3)%nat else trigger_saw a)
  end.

Context (db0 : DB).
Context (Hgroup : consumer_groups db0 !! (topic, group) = None).
Context (Hid : messages db0 !! id = None) (Hfree : key_free id r (messages db0)).
Context (Htopic : m_topic r = topic) (Hpending : m_status r = pending).
Context (Hnone : message_deliveries db0 !! (id, group) = None).

Definition reg_at (s : Registration) (n : nat) (saw : bool) : Prop :=
  match s, n with
  | reg_begun, 0%nat | reg_group_inserted, 1%nat | reg_committed, 3%nat => True
  | reg_backfilled ds, 2%nat => is_Some (ds !! (id, group)) ↔ saw = true
  | _, _ => False
  end.
Definition ins_at (s : Insertion) (n : nat) (saw : bool) : Prop :=
  match s, n with
  | ins_begun, 0%nat | ins_committed, 2%nat => True
  | ins_inserted ds, 1%nat => is_Some (ds !! (id, group)) ↔ saw = true
  | _, _ => False
  end.

Record race_ok (s : Race) (a : Seen) : Prop := {
  rc_reg : reg_at (race_reg s) (at_reg a) (backfill_saw a);
  rc_ins : ins_at (race_ins s) (at_ins a) (trigger_saw a);
  rc_backfill : backfill_saw a = true → at_ins a = 2%nat;
  rc_trigger : trigger_saw a = true → at_reg a = 3%nat;
  rc_messages : messages (race_db s) =
    if (at_ins a =? 2)%nat then <[id:=r]> (messages db0) else messages db0;
  rc_groups : is_Some (consumer_groups (race_db s) !! (topic, group)) ↔ at_reg a = 3%nat;
  rc_delivery : is_Some (message_deliveries (race_db s) !! (id, group)) ↔
    (at_reg a = 3%nat ∧ backfill_saw a = true) ∨ (at_ins a = 2%nat ∧ trigger_saw a = true);
}.

(** The delivery among the rows a statement inserts. *)
Lemma added_lookup db db' :
  is_Some (added db db' !! (id, group)) ↔
  message_deliveries db !! (id, group) = None ∧ is_Some (message_deliveries db' !! (id, group)).
Proof.
  unfold added, is_Some. setoid_rewrite lookup_difference_Some. naive_solver.
Qed.

Lemma union_lookup (ds ds' : gmap (uuid * string) DeliveryRow) :
  is_Some ((ds ∪ ds') !! (id, group)) ↔ is_Some (ds !! (id, group)) ∨ is_Some (ds' !! (id, group)).
Proof. apply lookup_union_is_Some. Qed.

(** The delivery after the backfill, and after the trigger. *)
Lemma backfilled db db' m :
  messages db = (if (m =? 2)%nat then <[id:=r]> (messages db0) else messages db0) →
  sql_backfill topic group e_reg db = Ok db' →
  is_Some (message_deliveries db' !! (id, group)) ↔
    is_Some (message_deliveries db !! (id, group)) ∨ m = 2%nat.
Proof.
  intros Hm Hb. unfold is_Some. setoid_rewrite (sql_backfill_lookup _ _ _ _ _ _ _ _ Hb).
  rewrite Hm. split.
  - intros (d & [?|(_ & _ & r' & Hr' & _)]); [eauto|]. right.
    destruct (m =? 2)%nat eqn:Hm2; [by apply Nat.eqb_eq|]. congruence.
  - intros [[d Hd]| ->]; [eauto|]. simpl.
    destruct (message_deliveries db !! (id, group)) as [d|] eqn:Hd; [eauto|].
    eexists. right. split; [done|]. split; [done|]. exists r. by rewrite lookup_insert_eq.
Qed.

Lemma minted db db' :
  insert_message (pg_now e_ins) id r db = Ok db' →
  is_Some (message_deliveries db' !! (id, group)) ↔
    is_Some (message_deliveries db !! (id, group)) ∨
    is_Some (consumer_groups db !! (topic, group)).
Proof.
  unfold insert_message. case_decide; [|done]. intros [= <-]. unfold is_Some.
  setoid_rewrite mint_deliveries_lookup. simpl. rewrite Htopic. split.
  - intros (d & [?|(_ & _ & ? & _)]); eauto.
  - intros [[d Hd]|Hg]; [eauto|].
    destruct (message_deliveries db !! (id, group)) as [d|] eqn:Hd; [eauto|]. eauto 10.
Qed.

Lemma reg_step_ok s a :
  (at_reg a < 3)%nat → race_ok s a → race_ok (reg_step s) (seen_step a turn_reg).
Proof.
  destruct s as [db reg ins], a as [n m b t]. intros Hn [Hr Hi Hb Ht Hm Hg Hd]. simpl in *.
  unfold reg_step. cbn [race_db race_reg race_ins]. destruct reg as [| |ds| |], n as [|[|[|n]]]; try done; try lia.
  - unfold sql_insert_group. destruct (consumer_groups db !! (topic, group)) eqn:He.
    { destruct Hg as [Hg _]. by specialize (Hg (ex_intro _ _ eq_refl)). }
    simpl. split; simpl; rewrite ?He; try done; naive_solver lia.
  - destruct (sql_backfill topic group e_reg db) as [db'|] eqn:Hbf; [|done].
    pose proof (backfilled db db' m Hm Hbf) as Hrow.
    split; simpl; [|done|by rewrite Nat.eqb_eq|naive_solver lia|done|naive_solver lia|naive_solver lia].
    rewrite added_lookup, Hrow, Nat.eqb_eq, eq_None_not_Some, Hd. naive_solver lia.
  - split; simpl; [done|done|done|naive_solver lia|done| |].
    + rewrite lookup_insert_eq. naive_solver.
    + rewrite union_lookup. simpl in Hr. naive_solver lia.
Qed.

Lemma ins_step_ok s a :
  (at_ins a < 2)%nat → race_ok s a → race_ok (ins_step s) (seen_step a turn_ins).
Proof.
  destruct s as [db reg ins], a as [n m b t]. intros Hn [Hr Hi Hb Ht Hm Hg Hd]. simpl in *.
  unfold ins_step. cbn [race_db race_reg race_ins]. destruct ins as [|ds| |], m as [|[|m]]; try done; try lia.
  - destruct (insert_message (pg_now e_ins) id r db) as [db'|] eqn:Hins.
    + pose proof (minted db db' Hins) as Hrow.
      split; simpl; [done| |naive_solver lia|by rewrite Nat.eqb_eq|done|done|naive_solver lia].
      rewrite added_lookup, Hrow, Nat.eqb_eq, eq_None_not_Some, Hd, Hg. naive_solver lia.
    + exfalso. revert Hins. unfold insert_message. rewrite decide_True; [done|]. by rewrite Hm.
  - split; simpl; [done|done|naive_solver lia|done|by rewrite Hm|done|].
    rewrite union_lookup. simpl in Hi. naive_solver lia.
Qed.

Definition race_start : Race := mkRace db0 reg_begun ins_begun.
Definition seen_start : Seen := mkSeen 0 0 false false.

Lemma race_start_ok : race_ok race_start seen_start.
Proof.
  split; simpl; try done; rewrite ?Hgroup, ?Hnone; split; try naive_solver lia; by intros [].
Qed.

Lemma run_race_ok turns s a :
  race_ok s a → (at_reg a + length (filter (λ t, t = turn_reg) turns) ≤ 3)%nat →
  (at_ins a + length (filter (λ t, t = turn_ins) turns) ≤ 2)%nat →
  race_ok (run_race turns s) (foldl seen_step a turns).
Proof.
  revert s a. induction turns as [|t turns IH]; intros s a Hok Hr Hi; [done|].
  rewrite !filter_cons in Hr, Hi. destruct t; simpl in *.
  - apply IH; [apply reg_step_ok; [lia|done]|simpl in *; lia|simpl in *; lia].
  - apply IH; [apply ins_step_ok; [lia|done]|simpl in *; lia|simpl in *; lia].
Qed.

(** What the orders lead to, without the rows. *)
Lemma orders_seen turns :
  turns ∈ all_orders →
  length (filter (λ t, t = turn_reg) turns) = 3%nat ∧
  length (filter (λ t, t = turn_ins) turns) = 2%nat ∧
  at_reg (foldl seen_step seen_start turns) = 3%nat ∧
  at_ins (foldl seen_step seen_start turns) = 2%nat ∧
  backfill_saw (foldl seen_step seen_start turns) || trigger_saw (foldl seen_step seen_start turns)
    = ordered turns.
Proof. revert turns. apply Forall_forall. apply (bool_decide_unpack _). by vm_compute. Qed.

End race.

Section group_gaps.
Context `{PG : Postgres} `{STO : Storage} `{LAWS : !PostgresLaws}.

(** A message without a delivery for a group is in none of its claims. *)
Lemma undelivered_unselected topic group id n e db :
  message_deliveries db !! (id, group) = None → id ∉ (select_deliveries topic group n e db).*1.
Proof.
  intros Hn Hin. apply list_elem_of_fmap in Hin as ([i [r' d]] & -> & Hin).
  apply select_deliveries_elem in Hin as (_ & Hd & _). simpl in *. congruence.
Qed.

(** [C13] A message enqueued while a group is being registered may never reach it.  Whatever the
    order of the statements and commits of the two, both succeed: the group is registered
    and the message is pending.  But the message has a delivery for the group only if its
    transaction ends before the backfill starts, or begins after the registration is
    committed; in the six other orders it is in no claim of the group. *)
Theorem registration_race topic group id r e_reg e_ins db turns :
  db_ok db → consumer_groups db !! (topic, group) = None → messages db !! id = None →
  key_free id r (messages db) → m_topic r = topic → m_status r = pending →
  turns ∈ all_orders →
  let s := run_race topic group id r e_reg e_ins turns (race_start db) in
  race_reg s = reg_committed ∧ race_ins s = ins_committed ∧
  messages (race_db s) !! id = Some r ∧ is_Some (consumer_groups (race_db s) !! (topic, group)) ∧
  (is_Some (message_deliveries (race_db s) !! (id, group)) ↔ ordered turns = true) ∧
  (ordered turns = false → ∀ n e, id ∉ (select_deliveries topic group n e (race_db s)).*1).
Proof.
  intros Hok Hg Hid Hfree Ht Hp Hin s.
  destruct (orders_seen turns Hin) as (Hr & Hi & Har & Hai & Hsaw).
  assert (message_deliveries db !! (id, group) = None) as Hnone.
  { destruct (message_deliveries db !! (id, group)) eqn:Hd; [|done].
    apply (ok_foreign_key _ Hok) in Hd. rewrite Hid in Hd. by destruct Hd. }
  assert (race_ok topic group id r db s (foldl seen_step seen_start turns)) as Hs.
  { eapply run_race_ok; try done; [by apply race_start_ok|simpl; lia|simpl; lia]. }
  destruct Hs as [Hreg Hins _ _ Hm Hgr Hd]. rewrite Har, Hai in *. clear Har Hai.
  assert (is_Some (message_deliveries (race_db s) !! (id, group)) ↔ ordered turns = true) as Hdel.
  { rewrite Hd, <-Hsaw, orb_true_iff. tauto. }
  split_and!; [by destruct (race_reg s)|by destruct (race_ins s)| |by apply Hgr|done|].
  - rewrite Hm. apply lookup_insert_eq.
  - intros Hno n e. apply undelivered_unselected, eq_None_not_Some. rewrite Hdel. congruence.
Qed.

(** The acknowledgement of a group that is not the last. *)
Lemma ack_not_last id group other e w r d d2 :
  w_faults w = [] → messages (w_db w) !! id = Some r →
  message_deliveries (w_db w) !! (id, group) = Some d → d_status d = processing →
  message_deliveries (w_db w) !! (id, other) = Some d2 → other ≠ group →
  (AckForGroup id group e w).1 = Ok tt ∧
  w_db (AckForGroup id group e w).2 = delete_delivery (id, group) (w_db w).
Proof.
  intros Hf Hr Hd Hst Hd2 Hne.
  pose proof (implements_calm _ _ _ _ (ack_group_implements id group e w)
    (AckForGroup_calm id group) Hf) as Hrun.
  unfold ack_group_on_tables in Hrun.
  rewrite (proj2 (sql_join_Some id group (w_db w) id r d)), decide_True in Hrun by done.
  destruct (_ =? 0) eqn:Hc; [|done]. reflect_bools. rewrite count_deliveries_0 in Hc.
  specialize (Hc other). simpl in Hc. rewrite lookup_delete_ne in Hc; congruence.
Qed.

(** [C14] An enqueue with a key overwrites a message that a group is handling, and that other
    groups have done with: the row stays pending in [messages] while the deliveries move.
    The enqueue answers the old id and replaces the payload; the deliveries stay as they
    are, so a group that has settled its own never gets the new payload, and the group that
    has the old one settles the message with it - while another delivery is left, the
    acknowledgement removes nothing but its own. *)
Theorem upsert_misses_groups `{CO : Codecs} `{SLAWS : !StorageLaws} s topic k payload metadata id group other r d d2 e e2 w id' w' :
  caches_ok w → db_ok (w_db w) → w_faults w = [] →
  messages (w_db w) !! id = Some r → m_topic r = topic → m_status r = pending → m_key r = Some k →
  message_deliveries (w_db w) !! (id, group) = Some d → d_status d = processing →
  message_deliveries (w_db w) !! (id, other) = Some d2 → other ≠ group →
  Enqueue s topic payload metadata (Some k) e w = (Ok id', w') →
  id' = id ∧ (∃ r', messages (w_db w') !! id = Some r' ∧ m_payload r' = payload) ∧
  message_deliveries (w_db w') = message_deliveries (w_db w) ∧
  (∀ g n e', message_deliveries (w_db w) !! (id, g) = None →
     id ∉ (select_deliveries topic g n e' (w_db w')).*1) ∧
  (AckForGroup id group e2 w').1 = Ok tt ∧
  message_deliveries (w_db (AckForGroup id group e2 w').2) =
    delete (id, group) (message_deliveries (w_db w)).
Proof.
  intros Hw Hok Hf Hr Ht Hs Hk Hd Hst Hd2 Hne Hrun.
  assert (w_faults w' = []) as Hf'.
  { destruct (Enqueue_calm s topic payload metadata (Some k) e w Hf) as [Hf' _]. by rewrite Hrun in Hf'. }
  apply Enqueue_Ok in Hrun as (_ & _ & Hrun); [|done].
  apply accepted_on_tables_Ok in Hrun as [Hq _].
  apply sql_enqueue_Ok in Hq as [(r0 & Hr0 & Hsame & Hms & Hds)|(_ & Hnone & _)]; [| |done].
  2: { destruct (Hnone id r Hr). by split_and!. }
  assert (id' = id) as ->.
  { destruct (decide (id' = id)) as [|Hid]; [done|]. destruct (ok_unique _ Hok _ _ _ _ Hr0 Hr Hid).
    destruct Hsame as (? & ? & ? & ?). split_and!; congruence. }
  simplify_eq. rewrite <-Hds in Hd, Hd2.
  destruct (ack_not_last id group other e2 w' (overwrite_row payload metadata
    (merge_params s (topic_config (w_db w) !! m_topic r) (go_now e)) (pg_now e) r) d d2)
    as [Hack Htables]; try done; [by rewrite Hms, lookup_insert_eq|].
  split_and!; [done| |done| |done|by rewrite Htables, <-Hds].
  - rewrite Hms, lookup_insert_eq. eauto.
  - intros g n e' Hg. apply undelivered_unselected. by rewrite Hds.
Qed.
End group_gaps.
