(* ===== verification/System.v ===== *)
(** * The service as a whole

    Any sequence of calls of [queue.Service], at any times and under any faults: what
    each call can write to [messages] and [message_deliveries] ([writes]), that it
    writes nothing else, and what follows for every reachable state. *)

From S2P Require Import Prelude.
From S2P Require Import Store.
From S2P Require Import Avro.
From S2P Require Import Runtime.
From S2P Require Import Model.
From S2P Require Import TopicConfig.
From S2P Require Import Throttle.
From S2P Require Import Schema.
From S2P Require Import Dequeue.
From S2P Require Import Enqueue.
From S2P Require Import Lifecycle.
From S2P Require Import ConsumerGroup.
From S2P Require Import Reaper.
From S2P Require Import Replay.
From S2P Require Import Query.

(** ** Calls *)

Inductive call :=
| do_Enqueue (topic payload : string) (metadata : option (gmap string string))
    (key : option string)
| do_Dequeue (topic : string) (timeout : Z)
| do_DequeueN (topic : string) (n timeout : Z)
| do_DequeueForGroup (topic group : string) (timeout : Z)
| do_DequeueNForGroup (topic group : string) (n timeout : Z)
| do_Ack (id : uuid)
| do_Nack (id : uuid) (processingError : string)
| do_AckForGroup (id : uuid) (group : string)
| do_NackForGroup (id : uuid) (group processingError : string)
| do_Requeue (id : uuid)
| do_RegisterConsumerGroup (topic group : string)
| do_UnregisterConsumerGroup (topic group : string)
| do_RunExpiryReaperOnce
| do_RunDeleteReaperOnce
| do_RunArchiveReaperOnce
| do_expiry_tick (acquired : bool)
| do_delete_tick (acquired : bool)
| do_ReplayTopic (topic : string) (fromTime : option Z)
| do_TrimMessageLog (topic : string) (before : Z)
| do_PurgeTopic (topic : string) (statuses : list string)
| do_PurgeByKey (topic key : string)
| do_UpsertTopicConfig (cfg : TopicConfig)
| do_DeleteTopicConfig (topic : string)
| do_UpsertTopicSchema (topic schemaJSON : string)
| do_DeleteTopicSchema (topic : string)
| do_List (topic : string) (limit offset : Z)
| do_Stats
| do_ListMessageLog (topic : string) (limit offset : Z).

Section system.
Context `{PG : Postgres} `{ST : Storage} `{CO : Codecs}.

Definition discard {A} (m : M A) : M unit := m;; mret tt.

Definition run_call (s : Service) (c : call) : M unit :=
  match c with
  | do_Enqueue topic payload metadata key => discard (Enqueue s topic payload metadata key)
  | do_Dequeue topic vt => discard (Dequeue s topic vt)
  | do_DequeueN topic n vt => discard (DequeueN s topic n vt)
  | do_DequeueForGroup topic group vt => discard (DequeueForGroup s topic group vt)
  | do_DequeueNForGroup topic group n vt => discard (DequeueNForGroup s topic group n vt)
  | do_Ack id => Ack id
  | do_Nack id err => Nack s id err
  | do_AckForGroup id group => AckForGroup id group
  | do_NackForGroup id group err => NackForGroup s id group err
  | do_Requeue id => Requeue s id
  | do_RegisterConsumerGroup topic group => RegisterConsumerGroup s topic group
  | do_UnregisterConsumerGroup topic group => UnregisterConsumerGroup topic group
  | do_RunExpiryReaperOnce => discard RunExpiryReaperOnce
  | do_RunDeleteReaperOnce => discard RunDeleteReaperOnce
  | do_RunArchiveReaperOnce => discard RunArchiveReaperOnce
  | do_expiry_tick acquired => discard (expiry_tick acquired)
  | do_delete_tick acquired => discard (delete_tick acquired)
  | do_ReplayTopic topic from => discard (ReplayTopic s topic from)
  | do_TrimMessageLog topic before => discard (TrimMessageLog topic before)
  | do_PurgeTopic topic statuses => discard (PurgeTopic topic statuses)
  | do_PurgeByKey topic key => discard (PurgeByKey topic key)
  | do_UpsertTopicConfig cfg => UpsertTopicConfig cfg
  | do_DeleteTopicConfig topic => DeleteTopicConfig topic
  | do_UpsertTopicSchema topic j => discard (UpsertTopicSchemaAndNotify topic j)
  | do_DeleteTopicSchema topic => DeleteTopicSchemaAndNotify topic
  | do_List topic limit offset => discard (List_ topic limit offset)
  | do_Stats => discard Stats
  | do_ListMessageLog topic limit offset => discard (ListMessageLog topic limit offset)
  end.

(** A history: each call with the environment it meets. *)
Definition run_calls (s : Service) (calls : list (call * Env)) (w : World) : World :=
  foldl (λ w ce, (run_call s ce.1 ce.2 w).2) w calls.

(** ** What a call writes *)

(** What a rejection makes of a delivery: never [expired], the limit stays. *)
Definition settles (f : DeliveryRow → DeliveryRow) : Prop :=
  ∀ d, d_status (f d) ≠ expired ∧ d_max_retries (f d) = d_max_retries d.

(** The statement of a call that changes the two message tables. *)
Definition writes (c : call) (e : Env) (db db' : DB) : Prop :=
  match c with
  | do_Enqueue topic payload metadata key =>
      ∃ p id, sql_enqueue topic payload metadata key p e db = Ok (id, db')
  | do_Dequeue topic _ => ∃ secs row, sql_claim_one topic secs e db = Ok (row, db')
  | do_DequeueN topic _ _ => ∃ n secs rows, sql_claim_many topic n secs e db = Ok (rows, db')
  | do_DequeueForGroup topic group _ | do_DequeueNForGroup topic group _ _ =>
      ∃ n secs ids, sql_claim_deliveries topic group n secs e db = Ok (ids, db')
  | do_Ack id => db' = delete_message id db
  | do_Nack id _ | do_Requeue id => ∃ f, update_message id f db = Ok db'
  | do_AckForGroup id group => db' = delete_delivery (id, group) db ∨ db' = delete_message id db
  | do_NackForGroup id group _ =>
      ∃ f, settles f ∧ update_delivery (id, group) f db = Ok db'
  | do_RegisterConsumerGroup topic group => sql_backfill topic group e db = Ok db'
  | do_UnregisterConsumerGroup topic group => sql_delete_group_deliveries topic group e db = Ok db'
  | do_RunExpiryReaperOnce | do_expiry_tick _ => ∃ n, sql_expire e db = Ok (n, db')
  | do_RunDeleteReaperOnce | do_delete_tick _ => ∃ n, sql_delete_expired e db = Ok (n, db')
  | do_ReplayTopic topic _ => ∃ exp rows n, replay_rows topic exp e 0 rows db = (n, db') ∧
      ∃ from, rows = returning (archived_rows topic from db)
  | do_PurgeTopic topic statuses => db' = (delete_messages_where (purged topic statuses) db).2
  | do_PurgeByKey topic key => db' = (delete_messages_where (keyed topic key) db).2
  | _ => False
  end.

Lemma neutral_try {A} (m : M A) : neutral m → neutral (try m).
Proof. intros Hm e w. rewrite run_try. apply Hm. Qed.

Lemma effectiveDLQThreshold_neutral s topic : neutral (effectiveDLQThreshold s topic).
Proof.
  unfold effectiveDLQThreshold. apply neutral_bind; [|solve_neutral].
  apply neutral_try. solve_neutral.
Qed.

Lemma neutral_lift {A} (r : result Error A) : neutral (lift r).
Proof. destruct r; simpl; solve_neutral. Qed.
Hint Resolve effectiveDLQThreshold_neutral neutral_lift : queueti.

Lemma scan_rows_neutral {A} (scan : A → result Error Message) rows :
  neutral (scan_rows scan rows).
Proof. induction rows as [|row rows IH]; simpl; solve_neutral. Qed.
Hint Resolve scan_rows_neutral : queueti.

Definition other_tables (db db' : DB) : Prop :=
  messages db' = messages db ∧ message_deliveries db' = message_deliveries db.

(** The statements that leave the two tables alone, but for those of the throughput limit and
    the insertion into the log: rows of the log are only removed, a configuration or schema
    that was not there has columns that fit, and a text that parses; the configuration and
    the bucket of a topic change only where [reconfigured] says so. *)
Record other_writes (reconfigured : string → Prop) (db db' : DB) : Prop := {
  ow_tables : other_tables db db';
  ow_kept t : ¬ reconfigured t →
    topic_config db' !! t = topic_config db !! t ∧
    topic_throughput db' !! t = topic_throughput db !! t;
  ow_log k l : message_log db' !! k = Some l → message_log db !! k = Some l;
  ow_config t cfg : topic_config db' !! t = Some cfg →
    topic_config db !! t = Some cfg ∨ config_int4 cfg;
  ow_schemas t ts : topic_schemas db' !! t = Some ts →
    topic_schemas db !! t = Some ts ∨
    int4 (Version ts) ∧ is_Some (avro_Parse (SchemaJSON ts));
}.

(** The calls that insert into the log. *)
Definition archives (c : call) : bool :=
  match c with do_Ack _ | do_AckForGroup _ _ => true | _ => false end.

(** The calls that change a topic's configuration. *)
Definition reconfigures (c : call) (t : string) : Prop :=
  match c with
  | do_UpsertTopicConfig cfg => t = Topic cfg
  | do_DeleteTopicConfig topic => t = topic
  | _ => False
  end.

(** The calls that draw on a topic's bucket. *)
Definition throttles (c : call) (t : string) : Prop :=
  match c with
  | do_Dequeue topic _ | do_DequeueN topic _ _ | do_DequeueForGroup topic _ _
  | do_DequeueNForGroup topic _ _ _ => t = topic
  | _ => False
  end.

(** ** Walking through the methods *)

Section walk.
Context (R : relation DB) `{!PreOrder R} (reconfigured : string → Prop).
Context (Hother : ∀ db db', other_writes reconfigured db db' → R db db').

Definition respects_log : Prop :=
  ∀ topic t id l db db', insert_log topic t id l db = Ok db' → R db db'.
Definition respects_throttle (topic : string) : Prop :=
  ∀ n, body R (λ _, True) (applyThroughputLimit topic n) (λ _ _, True).

Abbreviation steps m := (body R (λ _, True) m (λ _ _, True)).
Abbreviation finish m := (in_tx R (λ _, True) m).

Lemma op_neutral {A} (m : M A) : neutral m → op R m.
Proof. intros Hm. by apply quiet_op, neutral_quiet. Qed.

Lemma op_discard {A} (m : M A) : op R m → op R (discard m).
Proof. intros Hm. apply op_bind; [done|done|]. intros _. apply op_neutral. solve_neutral. Qed.

Lemma op_stmt {A} what (q : Env → DB → result PgError (A * DB)) :
  (∀ e db a db', q e db = Ok (a, db') → R db db') → op R (pool_stmt what q).
Proof. intros Hq. apply op_pool_stmt; [done|]. intros e db a db' _ H. split; [by eapply Hq|done]. Qed.

Lemma op_read {A} what (q : Env → DB → result PgError A) :
  op R (pool_stmt what (λ e db, match q e db with Ok a => Ok (a, db) | Err x => Err x end)).
Proof. apply op_stmt. intros e db a db' H. destruct (q e db); by simplify_eq. Qed.

Lemma steps_stmt {A} what (q : Env → DB → result PgError (A * DB)) :
  (∀ e db a db', q e db = Ok (a, db') → R db db') → steps (tx_stmt what q).
Proof. intros Hq. apply body_tx_stmt; [done|]. intros e db a db' _ H. split; [by eapply Hq|done]. Qed.

Lemma steps_exec what (q : Env → DB → result PgError DB) :
  (∀ e db db', q e db = Ok db' → R db db') → steps (tx_exec what q).
Proof.
  intros Hq. apply steps_stmt. intros e db a db' H.
  destruct (q e db) eqn:Hqe; simplify_eq. by eapply Hq.
Qed.

Lemma steps_query {A} what (q : Env → DB → A) : steps (tx_query what q).
Proof. apply steps_stmt. intros e db a db' [= _ <-]. reflexivity. Qed.

Lemma steps_neutral {A} (m : M A) : neutral m → steps m.
Proof. apply (body_neutral R (λ _, True)). Qed.

Lemma steps_bind {A B} (m : M A) (k : A → M B) : steps m → (∀ a, steps (k a)) → steps (m ≫= k).
Proof. intros Hm Hk. by eapply body_bind. Qed.

Lemma finish_bind {A B} (m : M A) (k : A → M B) :
  steps m → (∀ a, finish (k a)) → finish (m ≫= k).
Proof. intros Hm Hk. by eapply in_tx_bind. Qed.

Lemma finish_quiet {A} (m : M A) : neutral m → finish m.
Proof. intros Hm. by apply in_tx_quiet, neutral_quiet. Qed.

Lemma finish_commit {A} what (m : unit → M A) :
  (∀ u, neutral (m u)) → finish (commit_tx what ≫= m).
Proof. intros Hm. apply in_tx_commit; [done|]. intros u. by apply neutral_quiet. Qed.

Lemma finish_commit_last what : finish (commit_tx what).
Proof.
  intros e w HR _. unfold commit_tx, round_trip. rewrite run_bind.
  destruct (w_faults w) as [|[] fs]; simpl; done.
Qed.

(** Statements that leave the two tables alone. *)
Ltac other_stmt :=
  intros; apply Hother;
  unfold sql_insert_group, sql_delete_group,
    archiveReaperSQL, sql_upsert_config, sql_delete_config, sql_delete_throughput,
    sql_upsert_schema, sql_delete_schema in *;
  repeat case_match; simplify_eq/=; split; simpl; try (by split); intros *;
  rewrite ?lookup_insert_Some, ?lookup_delete_Some, ?map_lookup_filter_Some;
  first [naive_solver | intros; rewrite ?lookup_insert_ne, ?lookup_delete_ne by congruence; done].

Lemma archiveToLog_steps id topic l : respects_log → steps (archiveToLog id topic l).
Proof.
  intros Hlog. unfold archiveToLog. apply steps_bind; [apply steps_query|]. intros b.
  case_match; [apply steps_neutral; solve_neutral|]. apply steps_exec. intros e *. apply Hlog.
Qed.

(** The commit with which a call ends, after code without effect on the tables. *)
Ltac ending :=
  intros; repeat first
    [ solve [apply finish_quiet; solve_neutral]
    | solve [apply finish_commit; intros; solve_neutral]
    | apply finish_commit_last
    | apply finish_bind; [solve [apply steps_neutral; solve_neutral]|intros]
    | case_match ].

Lemma Ack_op id :
  respects_log → (∀ db, R db (delete_message id db)) → op R (Ack id).
Proof.
  intros Hlog Hw. unfold Ack. apply op_begin_tx; [done|].
  apply finish_bind; [apply steps_query|]. intros [r|]; [|ending].
  apply finish_bind; [by apply archiveToLog_steps|]. intros _.
  apply finish_bind; [apply steps_exec; naive_solver|]. ending.
Qed.

Lemma Nack_op s id err :
  (∀ f db db', update_message id f db = Ok db' → R db db') → op R (Nack s id err).
Proof.
  intros Hw. unfold Nack. apply op_begin_tx; [done|].
  apply finish_bind; [apply steps_query|]. intros [r|]; [|ending].
  case_match; [ending|]. apply finish_bind.
  { apply steps_neutral, effectiveDLQThreshold_neutral. }
  intros threshold. case_match; (apply finish_bind; [apply steps_exec; eauto|]); ending.
Qed.

Lemma AckForGroup_op id group :
  respects_log →
  (∀ db, R db (delete_delivery (id, group) db)) → (∀ db, R db (delete_message id db)) →
  op R (AckForGroup id group).
Proof.
  intros Hlog Hd Hm. unfold AckForGroup. apply op_begin_tx; [done|].
  apply finish_bind; [apply steps_query|]. intros [[r d]|]; [|ending].
  apply finish_bind; [apply steps_exec; naive_solver|]. intros _.
  apply finish_bind; [apply steps_query|]. intros n. apply finish_bind; [|ending].
  case_match; [|apply steps_neutral; solve_neutral].
  apply steps_bind; [by apply archiveToLog_steps|]. intros _. apply steps_exec. naive_solver.
Qed.

Lemma NackForGroup_op s id group err :
  (∀ f db db', settles f → update_delivery (id, group) f db = Ok db' → R db db') →
  op R (NackForGroup s id group err).
Proof.
  intros Hw. unfold NackForGroup. apply op_begin_tx; [done|].
  apply finish_bind; [apply steps_query|]. intros [[i [r d]]|]; [|ending].
  case_match; [ending|]. apply finish_bind.
  { apply steps_neutral, effectiveDLQThreshold_neutral. }
  intros threshold. case_match;
    (apply finish_bind; [apply steps_exec; intros e db db'; apply Hw; intros d0; simpl|ending]).
  - done.
  - by case_match.
Qed.

Lemma Requeue_op s id :
  (∀ f db db', update_message id f db = Ok db' → R db db') → op R (Requeue s id).
Proof.
  intros Hw. unfold Requeue. apply op_begin_tx; [done|].
  apply finish_bind; [apply steps_query|]. intros [[[|c topic]|]|]; [ending| |ending..].
  apply finish_bind; [apply steps_neutral, effectiveDLQThreshold_neutral|].
  intros threshold. apply finish_bind; [apply steps_exec; eauto|]. ending.
Qed.

Lemma Dequeue_op s topic vt :
  respects_throttle topic →
  (∀ secs e db row db', sql_claim_one topic secs e db = Ok (row, db') → R db db') →
  op R (Dequeue s topic vt).
Proof.
  intros Hthrottle Hw. unfold Dequeue. apply op_begin_tx; [done|].
  apply finish_bind; [apply Hthrottle|]. intros n. case_match; [ending|].
  apply finish_bind; [apply steps_stmt; eauto|]. intros [[id r]|]; ending.
Qed.

Lemma DequeueN_op s topic n vt :
  respects_throttle topic →
  (∀ m secs e db rows db', sql_claim_many topic m secs e db = Ok (rows, db') → R db db') →
  op R (DequeueN s topic n vt).
Proof.
  intros Hthrottle Hw. unfold DequeueN. case_match; [apply op_neutral; solve_neutral|].
  apply op_begin_tx; [done|].
  apply finish_bind; [apply Hthrottle|]. intros m. case_match; [ending|].
  apply finish_bind; [apply steps_stmt; eauto|]. ending.
Qed.

Lemma DequeueForGroup_op s topic group vt :
  respects_throttle topic →
  (∀ m secs e db ids db', sql_claim_deliveries topic group m secs e db = Ok (ids, db') →
     R db db') → op R (DequeueForGroup s topic group vt).
Proof.
  intros Hthrottle Hw. unfold DequeueForGroup. apply op_begin_tx; [done|].
  apply finish_bind; [apply Hthrottle|]. intros m. case_match; [ending|].
  apply finish_bind; [apply steps_stmt; eauto|]. intros [|id ids]; [ending|].
  apply finish_bind; [apply steps_query|]. intros [[i [r d]]|]; ending.
Qed.

Lemma DequeueNForGroup_op s topic group n vt :
  respects_throttle topic →
  (∀ m secs e db ids db', sql_claim_deliveries topic group m secs e db = Ok (ids, db') →
     R db db') → op R (DequeueNForGroup s topic group n vt).
Proof.
  intros Hthrottle Hw. unfold DequeueNForGroup. case_match; [apply op_neutral; solve_neutral|].
  apply op_begin_tx; [done|].
  apply finish_bind; [apply Hthrottle|]. intros m. case_match; [ending|].
  apply finish_bind; [apply steps_stmt; eauto|]. intros [|id ids]; [ending|].
  apply finish_bind; [apply steps_query|]. ending.
Qed.

Lemma Enqueue_op s topic payload metadata key :
  (∀ p e db id db', sql_enqueue topic payload metadata key p e db = Ok (id, db') → R db db') →
  op R (Enqueue s topic payload metadata key).
Proof.
  intros Hw. unfold Enqueue, enqueue_accepted, resolveEnqueueParams.
  case_match; [apply op_neutral; solve_neutral|].
  apply op_bind; [done|apply op_neutral; solve_neutral|]. intros _.
  apply op_bind; [done|apply op_neutral; solve_neutral|]. intros _.
  apply op_bind; [done|apply op_neutral; solve_neutral|]. intros p.
  apply op_bind; [done|apply op_neutral; solve_neutral|]. intros _.
  apply op_bind; [done|by apply op_stmt; eauto|]. intros id. apply op_neutral; solve_neutral.
Qed.

Lemma RegisterConsumerGroup_op s topic group :
  (∀ e db db', sql_backfill topic group e db = Ok db' → R db db') →
  op R (RegisterConsumerGroup s topic group).
Proof.
  intros Hw. unfold RegisterConsumerGroup.
  apply op_bind; [done|apply op_neutral; solve_neutral|]. intros _.
  apply op_begin_tx; [done|]. apply finish_bind; [apply steps_stmt; other_stmt|].
  intros n. case_match; [ending|]. apply finish_bind; [apply steps_exec; eauto|]. ending.
Qed.

Lemma UnregisterConsumerGroup_op topic group :
  (∀ e db db', sql_delete_group_deliveries topic group e db = Ok db' → R db db') →
  op R (UnregisterConsumerGroup topic group).
Proof.
  intros Hw. unfold UnregisterConsumerGroup.
  apply op_begin_tx; [done|]. apply finish_bind; [apply steps_stmt; other_stmt|].
  intros n. case_match; [ending|]. apply finish_bind; [apply steps_exec; eauto|]. ending.
Qed.

(** A scheduled job: the lock, the work, the commit. *)
Lemma tryWithReaperLock_op acquired fn : steps fn → op R (try (tryWithReaperLock acquired fn)).
Proof.
  intros Hfn. apply op_try. unfold tryWithReaperLock. apply op_begin_tx; [done|].
  apply finish_bind; [apply steps_query|]. intros [|]; simpl; [|ending].
  apply finish_bind; [done|]. ending.
Qed.

Lemma record_if_neutral n m : neutral (record_if n m).
Proof. unfold record_if. solve_neutral. Qed.

Lemma runDeleteWork_steps :
  (∀ e db n db', sql_delete_expired e db = Ok (n, db') → R db db') → steps runDeleteWork.
Proof.
  intros Hw. unfold runDeleteWork. apply steps_bind; [apply steps_stmt; eauto|]. intros n.
  apply steps_bind; [apply steps_neutral, record_if_neutral|]. intros _.
  apply steps_bind; [apply steps_stmt; other_stmt|]. intros _.
  apply steps_neutral. solve_neutral.
Qed.

Lemma ReplayTopic_op s topic from :
  (∀ exp e from db n db', sql_replay topic from exp e db = Ok (n, db') → R db db') →
  op R (ReplayTopic s topic from).
Proof.
  intros Hw. unfold ReplayTopic. apply op_bind; [done|apply op_neutral; solve_neutral|].
  intros [cfg|]; [|apply op_neutral; solve_neutral].
  case_match; [apply op_neutral; solve_neutral|].
  apply op_bind; [done|apply op_neutral; solve_neutral|]. intros e0.
  case_match; [apply op_neutral; solve_neutral|].
  apply op_bind; [done| |intros n; apply op_neutral; solve_neutral].
  apply op_stmt. intros e db n db'. apply Hw.
Qed.

Lemma config_op cfg topic :
  (reconfigured (Topic cfg) → op R (UpsertTopicConfig cfg)) ∧
  (reconfigured topic → op R (DeleteTopicConfig topic)).
Proof.
  split; intros Hre; unfold UpsertTopicConfig, DeleteTopicConfig.
  - case_match; [apply op_neutral; solve_neutral|].
    apply op_bind; [done|apply op_stmt; other_stmt|].
    intros _. apply op_neutral, invalidate_config_neutral.
  - apply op_bind; [done|apply op_stmt; other_stmt|]. intros n.
    case_match; [apply op_neutral; solve_neutral|].
    apply op_bind; [done|apply op_stmt; other_stmt|].
    intros _. apply op_neutral, invalidate_config_neutral.
Qed.

Lemma schema_op topic j :
  op R (UpsertTopicSchemaAndNotify topic j) ∧ op R (DeleteTopicSchemaAndNotify topic).
Proof.
  split; unfold UpsertTopicSchemaAndNotify, UpsertTopicSchema, DeleteTopicSchemaAndNotify,
    DeleteTopicSchema; (apply op_bind; [done| |intros; apply op_neutral; solve_neutral]).
  - case_match; [|apply op_neutral; solve_neutral].
    apply op_bind; [done|apply op_neutral; solve_neutral|].
    intros _. apply op_stmt. other_stmt.
  - apply op_bind; [done|apply op_neutral; solve_neutral|].
    intros _. apply op_stmt. other_stmt.
Qed.

Lemma listing_op topic limit offset :
  op R (List_ topic limit offset) ∧ op R Stats ∧ op R (ListMessageLog topic limit offset).
Proof.
  split_and!; [|apply op_neutral; unfold Stats; solve_neutral|];
    unfold List_, ListMessageLog;
    (apply op_bind; [done|apply op_neutral; solve_neutral|]; intros total;
     apply op_bind; [done|apply op_read|]; intros rows; apply op_neutral; solve_neutral).
Qed.

(** A call relates the tables by every preorder that its own statement and changes of
    the other tables respect. *)
Lemma run_call_walk s c :
  (archives c = true → respects_log) → (∀ t, throttles c t → respects_throttle t) →
  (∀ t, reconfigures c t → reconfigured t) → (∀ e db db', writes c e db db' → R db db') →
  op R (run_call s c).
Proof.
  intros Hlog Hthr Hre Hw.
  destruct c; simpl; try apply op_discard; try done.
  - apply Enqueue_op. intros. apply (Hw e). simpl. eauto.
  - apply Dequeue_op; [by apply Hthr|]. intros. apply (Hw e). simpl. eauto.
  - apply DequeueN_op; [by apply Hthr|]. intros. apply (Hw e). simpl. eauto.
  - apply DequeueForGroup_op; [by apply Hthr|]. intros. apply (Hw e). simpl. eauto.
  - apply DequeueNForGroup_op; [by apply Hthr|]. intros. apply (Hw e). simpl. eauto.
  - apply Ack_op; [by apply Hlog|]. intros. by apply (Hw (mkEnv 0 0 (λ _, "") ∅ ∅)).
  - apply Nack_op. intros. apply (Hw (mkEnv 0 0 (λ _, "") ∅ ∅)). simpl. eauto.
  - apply AckForGroup_op; [by apply Hlog|..]; intros; apply (Hw (mkEnv 0 0 (λ _, "") ∅ ∅)); simpl; auto.
  - apply NackForGroup_op. intros. apply (Hw (mkEnv 0 0 (λ _, "") ∅ ∅)). simpl. eauto.
  - apply Requeue_op. intros. apply (Hw (mkEnv 0 0 (λ _, "") ∅ ∅)). simpl. eauto.
  - apply RegisterConsumerGroup_op. intros e *. apply (Hw e).
  - apply UnregisterConsumerGroup_op. intros e *. apply (Hw e).
  - apply op_bind; [done| |intros; apply op_neutral; unfold record_if; solve_neutral].
    apply op_stmt. intros e *. intros. apply (Hw e). simpl. eauto.
  - apply op_begin_tx; [done|]. apply finish_bind; [|ending].
    apply runDeleteWork_steps. intros e *. intros. apply (Hw e). simpl. eauto.
  - apply op_stmt. other_stmt.
  - apply tryWithReaperLock_op. apply steps_bind; [|intros; apply steps_neutral, record_if_neutral].
    apply steps_stmt. intros e *. intros. apply (Hw e). simpl. eauto.
  - apply tryWithReaperLock_op. apply steps_bind; [|intros; apply steps_neutral; solve_neutral].
    apply runDeleteWork_steps. intros e *. intros. apply (Hw e). simpl. eauto.
  - apply ReplayTopic_op. intros exp e from db n db' [= Hrows]. apply (Hw e). simpl. eauto 6.
  - apply op_stmt. other_stmt.
  - apply op_stmt. intros e db n db' [= _ <-]. by apply (Hw e).
  - apply op_stmt. intros e db n db' [= _ <-]. by apply (Hw e).
  - by apply (proj1 (config_op cfg "")), Hre.
  - by apply (proj2 (config_op (mkTopicConfig "" None None None false None None) topic)), Hre.
  - exact (proj1 (schema_op topic schemaJSON)).
  - exact (proj2 (schema_op topic "")).
  - exact (proj1 (listing_op topic limit offset)).
  - exact (proj1 (proj2 (listing_op "" 0 0))).
  - exact (proj2 (proj2 (listing_op topic limit offset))).
Qed.
End walk.

Lemma insert_log_other topic t id l db db' :
  insert_log topic t id l db = Ok db' → other_tables db db'.
Proof. unfold insert_log. case_match; [done|]. by intros [= <-]. Qed.

(** For relations that do not look at the topic's bucket. *)
Lemma throttle_steps (R : relation DB) `{!PreOrder R} topic n :
  (∀ db tt, (∀ t, t ≠ topic → tt !! t = topic_throughput db !! t) →
     R db (set_throughput tt db)) →
  body R (λ _, True) (applyThroughputLimit topic n) (λ _ _, True).
Proof.
  intros Htt. unfold applyThroughputLimit, consumeTokens.
  apply steps_bind; [apply steps_query; exact _|]. intros [limit|]; [|apply steps_neutral; solve_neutral].
  case_match; [apply steps_neutral; solve_neutral|].
  apply steps_bind; [apply steps_query; exact _|]. intros _.
  apply steps_bind; [apply steps_stmt; [exact _|]; intros e db a db' [= _ <-];
    apply Htt; intros; by rewrite lookup_insert_ne|]. intros t.
  case_match; [apply steps_neutral; solve_neutral|].
  apply steps_bind; [apply steps_stmt; [exact _|]; intros e db a db' [= _ <-];
    apply Htt; intros; by rewrite lookup_alter_ne|]. intros _.
  apply steps_neutral; solve_neutral.
Qed.

(** For relations that look at the two tables only. *)
Section two_tables.
Context (R : relation DB) `{!PreOrder R} (Hother : ∀ db db', other_tables db db' → R db db').

Lemma other_writes_related P db db' : other_writes P db db' → R db db'.
Proof. intros [? _ _ _ _]. by apply Hother. Qed.
Lemma related_throttle topic : respects_throttle R topic.
Proof. intros n. apply throttle_steps; [exact _|]. intros db tt' _. by apply Hother. Qed.
Lemma related_log : respects_log R.
Proof. intros topic t id l db db' H. apply Hother. by eapply insert_log_other. Qed.

Lemma run_call_op s c : (∀ e db db', writes c e db db' → R db db') → op R (run_call s c).
Proof.
  apply (run_call_walk R (λ _, True) (other_writes_related _)); [intros _; apply related_log| |done].
  intros t _. apply related_throttle.
Qed.
End two_tables.

(** ** The constraints hold in every reachable state *)

Context `{LAWS : !PostgresLaws}.

Lemma claim_one_ok topic secs e db row db' :
  sql_claim_one topic secs e db = Ok (row, db') → db_ok db → db_ok db'.
Proof.
  unfold sql_claim_one. destruct (select_messages _ 1 e db) as [|[i r] l] eqn:Hs;
    intros [= _ <-]; [done|].
  assert ((i, r) ∈ select_messages (eligible (pg_now e) topic) 1 e db) as Hin
    by (rewrite Hs; by left).
  apply select_messages_elem in Hin as (Hi & _ & _).
  apply set_message_ok; [by rewrite Hi|]. by apply key_free_not_pending.
Qed.

Lemma claim_deliveries_ok topic group n secs e db ids db' :
  sql_claim_deliveries topic group n secs e db = Ok (ids, db') → db_ok db → db_ok db'.
Proof.
  unfold sql_claim_deliveries. intros [= _ <-] Hok.
  apply set_deliveries_ok; [| |done]; destruct Hok as [_ Hfk Hst].
  - intros i g d (d0 & Hd & _)%lookup_map_update_Some. by eapply Hfk.
  - intros k d (d0 & Hd & ->)%lookup_map_update_Some. case_decide; [done|by eapply Hst].
Qed.

Lemma delete_group_deliveries_ok topic group e db db' :
  sql_delete_group_deliveries topic group e db = Ok db' → db_ok db → db_ok db'.
Proof.
  intros [= <-] Hok. apply set_deliveries_ok; [| |done]; destruct Hok as [_ Hfk Hst].
  - intros i g d [Hd _]%map_lookup_filter_Some. by eapply Hfk.
  - intros k d [Hd _]%map_lookup_filter_Some. by eapply Hst.
Qed.

Lemma writes_ok c e db db' : writes c e db db' → db_ok db → db_ok db'.
Proof.
  destruct c; simpl; try done.
  - intros (p & id & H). by eapply sql_enqueue_ok.
  - intros (secs & row & H). by eapply claim_one_ok.
  - intros (m & secs & rows & [= _ <-]). by apply update_messages_where_ok.
  - intros (m & secs & rows & H). by eapply claim_deliveries_ok.
  - intros (m & secs & rows & H). by eapply claim_deliveries_ok.
  - intros ->. by apply delete_messages_where_ok.
  - intros (f & H). by eapply update_message_ok.
  - intros [-> | ->]; [by apply delete_delivery_ok|by apply delete_messages_where_ok].
  - intros (f & Hf & H). eapply update_delivery_ok; [|exact H]. intros d _. apply Hf.
  - intros (f & H). by eapply update_message_ok.
  - intros H. by eapply sql_backfill_ok.
  - intros H. by eapply delete_group_deliveries_ok.
  - intros (n & [= _ <-]). by apply update_messages_where_ok.
  - intros (n & [= _ <-]). by apply delete_messages_where_ok.
  - intros (n & [= _ <-]). by apply update_messages_where_ok.
  - intros (n & [= _ <-]). by apply delete_messages_where_ok.
  - intros (exp & rows & n & H & _) Hok. by destruct (replay_rows_sound _ _ _ _ _ _ _ _ H Hok).
  - intros ->. by apply delete_messages_where_ok.
  - intros ->. by apply delete_messages_where_ok.
Qed.

Lemma run_calls_R (R : relation DB) `{!PreOrder R} s calls w :
  (∀ db db', other_tables db db' → R db db') →
  Forall (λ ce, ∀ e db db', writes ce.1 e db db' → R db db') calls →
  R (w_db w) (w_db (run_calls s calls w)).
Proof.
  intros Ho Hc. revert w. induction Hc as [|[c e] calls Hce _ IH]; intros w; [reflexivity|].
  simpl. etrans; [|apply IH]. by apply run_call_op.
Qed.

Definition keeps_ok (db db' : DB) : Prop := db_ok db → db_ok db'.
#[export] Instance keeps_ok_preorder : PreOrder keeps_ok.
Proof. split; [by intros db ?|]. intros db1 db2 db3 H1 H2 H. by apply H2, H1. Qed.

(** [C2] In every state the service reaches, by any calls at any times, whatever round
    trips fail and whether the calls succeed, no two pending messages of a topic share a
    key, every delivery belongs to a message that exists, and no delivery is in a status
    its table refuses. *)
Theorem constraints_invariant s calls w :
  db_ok (w_db w) → db_ok (w_db (run_calls s calls w)).
Proof.
  apply (run_calls_R keeps_ok).
  - intros db db' [Hm Hd]. intros ?; by apply (db_ok_same db).
  - apply Forall_true. intros [c e] e' db db' H Hok. by eapply writes_ok.
Qed.

(** ** A message nobody settles *)

(** The calls that do not concern row [r] of message [i]. *)
Definition spares (i : uuid) (r : MessageRow) (c : call) : Prop :=
  match c with
  | do_Ack j | do_Nack j _ | do_AckForGroup j _ | do_Requeue j => j ≠ i
  | do_RunExpiryReaperOnce | do_expiry_tick _ => m_expires_at r = None
  | do_PurgeTopic topic statuses => ¬ purged topic statuses i r
  | do_PurgeByKey topic key => ¬ keyed topic key i r
  | _ => True
  end.

Definition keeps_row (i : uuid) (r : MessageRow) (db db' : DB) : Prop :=
  messages db !! i = Some r → messages db' !! i = Some r.
#[local] Instance keeps_row_preorder i r : PreOrder (keeps_row i r).
Proof. split; [by intros db ?|]. intros db1 db2 db3 H1 H2 H. by apply H2, H1. Qed.

Lemma delete_where_keeps P `{∀ i r, Decision (P i r)} i r db :
  ¬ P i r → keeps_row i r db (delete_messages_where P db).2.
Proof. intros HP Hi. simpl. by apply map_lookup_filter_Some. Qed.

Lemma update_where_keeps P `{∀ i r, Decision (P i r)} f i r db :
  ¬ P i r → keeps_row i r db (set_messages (map_update P f (messages db)) db).
Proof. intros HP Hi. simpl. rewrite lookup_map_update, Hi. simpl. by rewrite decide_False. Qed.

Lemma insert_keeps now id r0 i r db db' :
  insert_message now id r0 db = Ok db' → keeps_row i r db db'.
Proof.
  intros (Hid & _ & Hm & _)%insert_message_Ok Hi. rewrite Hm.
  rewrite lookup_insert_ne; [done|]. intros ->. congruence.
Qed.

Lemma replay_rows_keeps topic exp e n rows i r db k db' :
  replay_rows topic exp e n rows db = (k, db') → keeps_row i r db db'.
Proof.
  revert n db k. induction rows as [|l rows IH]; intros n db k; simpl; [by intros [= _ <-]|].
  destruct (insert_message _ _ _ _) as [db1|] eqn:Hins; [|by apply IH].
  destruct (replay_rows _ _ _ _ rows db1) as [c1 db2] eqn:Hrest. intros [= _ <-] Hi.
  eapply IH; [done|]. by eapply insert_keeps.
Qed.

Lemma set_other_keeps j r' i r db :
  j ≠ i → keeps_row i r db (set_messages (<[j:=r']> (messages db)) db).
Proof. intros Hj Hi. simpl. by rewrite lookup_insert_ne. Qed.

Lemma writes_spare c e i r db db' :
  m_status r = processing → spares i r c → writes c e db db' → keeps_row i r db db'.
Proof.
  intros Hst Hsp. destruct c; simpl in *; try done.
  - intros (p & id & H) Hi. unfold sql_enqueue in H. case_decide; [|done].
    destruct (conflicting_row topic key db) as [[j rj]|] eqn:Hc.
    + injection H as _ <-. apply conflicting_row_Some in Hc as [Hj (Hs & _)].
      apply set_other_keeps; [|done]. intros ->. congruence.
    + destruct (insert_message _ _ _ _) eqn:Hins; simplify_eq. by eapply insert_keeps.
  - intros (secs & row & H) Hi. unfold sql_claim_one in H.
    destruct (select_messages _ 1 e db) as [|[j rj] l] eqn:Hs; injection H as _ <-; [done|].
    assert ((j, rj) ∈ select_messages (eligible (pg_now e) topic) 1 e db) as Hin
      by (rewrite Hs; by left).
    apply select_messages_elem in Hin as (Hj & (_ & Hp & _) & _).
    apply set_other_keeps; [|done]. intros ->. congruence.
  - intros (m & secs & rows & [= _ <-]) Hi. apply update_where_keeps; [|done].
    intros ([j rj] & -> & Hin)%list_elem_of_fmap.
    apply select_messages_elem in Hin as (Hj & ((_ & Hp & _) & _) & _). simpl in *. congruence.
  - intros (m & secs & ids & [= _ <-]) Hi. exact Hi.
  - intros (m & secs & ids & [= _ <-]) Hi. exact Hi.
  - intros ->. apply delete_where_keeps. by intros ->.
  - intros (f & H) Hi. unfold update_message in H. destruct (messages db !! id) eqn:Hid;
      [|by simplify_eq]. repeat case_decide; simplify_eq. by apply set_other_keeps.
  - intros [-> | ->]; [by intros Hi|]. apply delete_where_keeps. by intros ->.
  - intros (f & _ & H) Hi. unfold update_delivery in H. by repeat case_match; simplify_eq.
  - intros (f & H) Hi. unfold update_message in H. destruct (messages db !! id) eqn:Hid;
      [|by simplify_eq]. repeat case_decide; simplify_eq. by apply set_other_keeps.
  - intros [= <-] Hi. exact Hi.
  - intros [= <-] Hi. exact Hi.
  - intros (n & [= _ <-]). apply update_where_keeps. unfold past_ttl. rewrite Hsp. by intros [].
  - intros (n & [= _ <-]). apply delete_where_keeps. unfold is_expired. congruence.
  - intros (n & [= _ <-]). apply update_where_keeps. unfold past_ttl. rewrite Hsp. by intros [].
  - intros (n & [= _ <-]). apply delete_where_keeps. unfold is_expired. congruence.
  - intros (exp & rows & n & H & _). by eapply replay_rows_keeps.
  - intros ->. by apply delete_where_keeps.
  - intros ->. by apply delete_where_keeps.
Qed.

(** [C6] A claimed message comes back only through the client: while nobody acknowledges,
    rejects, purges or expires it, every other sequence of calls, however long after
    its visibility timeout, leaves it [processing] and as it was, and no dequeue can
    select it.  So the message of a consumer that disappears is never redelivered. *)
Theorem unsettled_message_is_stuck s calls i r w :
  messages (w_db w) !! i = Some r → m_status r = processing →
  Forall (λ ce, spares i r ce.1) calls →
  messages (w_db (run_calls s calls w)) !! i = Some r ∧
  ∀ now topic, ¬ eligible now topic r ∧ ¬ eligible_batch now topic r.
Proof.
  intros Hi Hst Hsp. split.
  2: { intros now topic. unfold eligible_batch, eligible. rewrite Hst. naive_solver. }
  revert Hi. apply (run_calls_R (keeps_row i r)).
  - intros db db' [Hm _] H. by rewrite Hm.
  - eapply Forall_impl; [exact Hsp|]. intros [c e] Hc e' db db'. by apply writes_spare.
Qed.
End system.
