(* ===== verification/Throughput.v ===== *)
(** * The throughput limit over time

    [Throttle] bounds what a bucket grants at one instant.  Here: what the dequeues of a topic
    hand out in a stretch of time, in any history of calls, with the rounding of float8
    arithmetic counted.  A dequeue's [now()] is the start of its transaction, and it waits for
    the advisory lock only then: the clocks of successive draws need not be in order. *)

From S2P Require Import Prelude.
From S2P Require Import Store.
From S2P Require Import Avro.
From S2P Require Import Runtime.
From S2P Require Import Model.
From S2P Require Import TopicConfig.
From S2P Require Import Throttle.
From S2P Require Import Schema.
From S2P Require Import Dequeue.
From S2P Require Import GroupBatch.
From S2P Require Import Enqueue.
From S2P Require Import Lifecycle.
From S2P Require Import ConsumerGroup.
From S2P Require Import Reaper.
From S2P Require Import Replay.
From S2P Require Import System.

(** ** float8

    The value of a float8 in units of the smallest positive one ([2 ^ -1074]), of which
    [f8_unit] make one.  Operations are rounded to 53 bits, and rounding keeps the order; the
    quotient, the product and the sum of a refill together are off by less than [2 ^ -50] of
    the magnitude [2 ^ B] of what they add. *)
Class Float8 `{PG : Postgres} := { f8_unit : Z; f8_val : f8 → Z }.

Class Float8Laws `{F8 : Float8} : Prop := {
  f8_unit_pos : 0 < f8_unit;
  f8_val_of_Z z : Z.abs z ≤ 2 ^ 53 → f8_val (f8_of_Z z) = z * f8_unit;
  f8_val_ltb x y : f8_ltb x y = true ↔ f8_val x < f8_val y;
  f8_val_int x : Z.abs (f8_val x) ≤ 2 ^ 53 * f8_unit → f8_int x = Z.quot (f8_val x) f8_unit;
  f8_val_sub x n : 0 ≤ n ≤ f8_int x → f8_int x ≤ 2 ^ 53 →
    f8_val (f8_sub x (f8_of_Z n)) = f8_val x - n * f8_unit;
  f8_val_refill x z d B :
    0 ≤ B → 0 ≤ z ≤ 2 ^ 53 → Z.abs (f8_val x) ≤ 2 ^ B * f8_unit →
    Z.abs (z * d) ≤ 2 ^ B * 10 ^ 6 →
    2 ^ 50 * Z.abs (10 ^ 6 * f8_val (f8_add x (f8_mul (f8_of_Z z) (f8_epoch d))) -
                    (10 ^ 6 * f8_val x + z * f8_unit * d)) ≤ 2 ^ B * 10 ^ 6 * f8_unit;
  f8_val_refill_mono x z d d' : 0 ≤ z → d ≤ d' →
    f8_val (f8_add x (f8_mul (f8_of_Z z) (f8_epoch d))) ≤
    f8_val (f8_add x (f8_mul (f8_of_Z z) (f8_epoch d')));
}.

(** ** Draws on a bucket *)

Section bucket.
Context `{PG : Postgres} `{F8 : !Float8}.
Context (limit : Z).

Abbreviation Bucket := (option (f8 * Z)).

(** The tokens after the refill of [sql_refill]. *)
Definition refilled (now : Z) (b : Bucket) : f8 :=
  match b with
  | None => f8_of_Z limit
  | Some (tokens, last_refill) =>
      f8_least (f8_of_Z limit)
        (f8_add tokens (f8_mul (f8_of_Z limit) (f8_epoch (now - last_refill))))
  end.

(** One [consumeTokens] that grants [n]. *)
Inductive draw (now : Z) : Z → Bucket → Bucket → Prop :=
| draw_nothing b : draw now 0 b (Some (refilled now b, now))
| draw_tokens n b : 1 ≤ n ≤ f8_int (refilled now b) →
    draw now n b (Some (f8_sub (refilled now b) (f8_of_Z n), now)).

(** [k] draws that grant [granted], their clocks between [T0] and [T1]. *)
Inductive drawn (T0 T1 : Z) : nat → Z → Bucket → Bucket → Prop :=
| drawn_nil b : drawn T0 T1 0 0 b b
| drawn_snoc k granted b b1 now n b2 :
    drawn T0 T1 k granted b b1 → T0 ≤ now ≤ T1 → draw now n b1 b2 →
    drawn T0 T1 (S k) (granted + n) b b2.

Context `{FL : !Float8Laws}.
Context (Hlimit : 1 ≤ limit ≤ 2 ^ 53).
Context (T0 T1 B : Z) (HT : T0 ≤ T1) (HB : 0 ≤ B ≤ 53).
Context (Hroom : 2 * limit * (10 ^ 6 + (T1 - T0)) ≤ 2 ^ B * 10 ^ 6).

Definition slack : Z := 2 ^ B * 10 ^ 6 * f8_unit.

(** A bucket that is neither overdrawn nor too full. *)
Definition fresh (b : Bucket) : Prop :=
  match b with
  | None => True
  | Some (t, l) => 0 ≤ f8_val t ≤ limit * f8_unit ∧ l ≤ T1
  end.

(** After [k] draws: what was granted and what is left came from the [limit] tokens of a full
    bucket and from the time since [T0]. *)
Record level (k granted : Z) (t : f8) (l : Z) : Prop := {
  lv_time : T0 ≤ l ≤ T1;
  lv_cap : f8_val t ≤ limit * f8_unit;
  lv_low : 2 ^ 50 * (limit * f8_unit * (l - T1)) - k * slack ≤ 2 ^ 50 * (10 ^ 6 * f8_val t);
  lv_up : 2 ^ 50 * (10 ^ 6 * (granted * f8_unit + f8_val t)) ≤
          2 ^ 50 * (limit * f8_unit * (10 ^ 6 + (l - T0))) + k * slack;
}.

Lemma slack_pos : 0 < slack.
Proof. unfold slack. pose proof f8_unit_pos. assert (0 < 2 ^ B) by (apply Z.pow_pos_nonneg; lia). nia. Qed.

Lemma least_val x y : f8_val (f8_least x y) = Z.min (f8_val x) (f8_val y).
Proof.
  unfold f8_least. destruct (f8_ltb y x) eqn:Hlt.
  - apply f8_val_ltb in Hlt. lia.
  - assert (¬ f8_val y < f8_val x); [|lia]. intros H%f8_val_ltb. congruence.
Qed.

Lemma limit_val : f8_val (f8_of_Z limit) = limit * f8_unit.
Proof. apply f8_val_of_Z. lia. Qed.

Lemma refilled_cap now b : f8_val (refilled now b) ≤ limit * f8_unit.
Proof.
  destruct b as [[t l]|]; simpl; [rewrite least_val, limit_val; lia|by rewrite limit_val].
Qed.

(** The arithmetic of a draw is within the range for which its rounding is bounded. *)
Lemma level_range k granted t l :
  0 ≤ k ≤ 2 ^ 49 → level k granted t l → Z.abs (f8_val t) ≤ 2 ^ B * f8_unit.
Proof.
  intros Hk [Ht Hcap Hlow _]. pose proof f8_unit_pos as Hu. unfold slack in Hlow.
  set (b := 2 ^ B) in *. set (v := f8_val t) in *. set (u := f8_unit) in *. clearbody b v u.
  change (2 ^ 50) with (2 * 2 ^ 49) in *. set (p := 2 ^ 49) in *. assert (0 < p) by (unfold p; lia).
  clearbody p. clear HB. assert (limit ≤ b) by nia.
  assert (2 * (limit * u * (T1 - l)) ≤ b * 10 ^ 6 * u).
  { assert (2 * limit * (T1 - l) ≤ b * 10 ^ 6) by nia. nia. }
  assert (k * (b * 10 ^ 6 * u) ≤ p * (b * 10 ^ 6 * u)) by (apply Z.mul_le_mono_nonneg_r; nia).
  assert (p * (- (b * 10 ^ 6 * u)) ≤ p * (10 ^ 6 * v)) as Hp by nia.
  apply Z.mul_le_mono_pos_l in Hp; [|done]. assert (limit * u ≤ b * u) by nia. lia.
Qed.

Lemma window_range l now : T0 ≤ l ≤ T1 → T0 ≤ now ≤ T1 → Z.abs (limit * (now - l)) ≤ 2 ^ B * 10 ^ 6.
Proof. intros Hl Hn. apply Z.abs_le. nia. Qed.

(** The refill, rounded. *)
Lemma refill_error t l now :
  Z.abs (f8_val t) ≤ 2 ^ B * f8_unit → T0 ≤ l ≤ T1 → T0 ≤ now ≤ T1 →
  let v := f8_val (f8_add t (f8_mul (f8_of_Z limit) (f8_epoch (now - l)))) in
  2 ^ 50 * (10 ^ 6 * v) ≤ 2 ^ 50 * (10 ^ 6 * f8_val t + limit * f8_unit * (now - l)) + slack ∧
  2 ^ 50 * (10 ^ 6 * f8_val t + limit * f8_unit * (now - l)) - slack ≤ 2 ^ 50 * (10 ^ 6 * v).
Proof.
  intros Ht Hl Hn v. pose proof (window_range l now Hl Hn) as Hw.
  pose proof (f8_val_refill t limit (now - l) B ltac:(lia) ltac:(lia) Ht Hw) as He.
  fold v in He. unfold slack. lia.
Qed.

Definition reached (k granted : Z) (b : Bucket) : Prop :=
  (fresh b ∧ granted = 0) ∨ ∃ t l, b = Some (t, l) ∧ level k granted t l.

Lemma refilled_level k granted b now :
  0 ≤ k ≤ 2 ^ 49 → reached k granted b → T0 ≤ now ≤ T1 →
  level (k + 1) granted (refilled now b) now.
Proof.
  intros Hk Hb Hn. pose proof f8_unit_pos as Hu. pose proof slack_pos as Hs.
  pose proof (refilled_cap now b) as Hcap.
  assert (∀ v, v = limit * f8_unit → 2 ^ 50 * (limit * f8_unit * (now - T1)) - (k + 1) * slack ≤
    2 ^ 50 * (10 ^ 6 * v)) as Hfull by (intros v ->; nia).
  destruct Hb as [[Hb ->]|(t & l & -> & Hlv)].
  - split; [done|done| |nia]. destruct b as [[t l]|]; simpl in *; [|by apply Hfull, limit_val].
    destruct Hb as [Hv Hl]. rewrite least_val, limit_val.
    destruct (Z.min_spec (limit * f8_unit)
      (f8_val (f8_add t (f8_mul (f8_of_Z limit) (f8_epoch (now - l)))))) as [[_ ->]|[_ ->]];
      [by apply Hfull|].
    assert (Z.abs (f8_val t) ≤ 2 ^ B * f8_unit) as Ht.
    { apply Z.abs_le. assert (limit ≤ 2 ^ B) by nia. nia. }
    set (l' := Z.max T0 l).
    destruct (refill_error t l' now Ht ltac:(lia) Hn) as [_ Hlow].
    pose proof (f8_val_refill_mono t limit (now - l') (now - l) ltac:(lia) ltac:(lia)) as Hmono.
    set (v := f8_val (f8_add t (f8_mul _ (f8_epoch (now - l))))) in *.
    set (v' := f8_val (f8_add t (f8_mul _ (f8_epoch (now - l'))))) in *.
    assert (limit * f8_unit * (now - T1) ≤ limit * f8_unit * (now - l')) by nia. nia.
  - pose proof (level_range k granted t l ltac:(lia) Hlv) as Ht. destruct Hlv as [Hl Hc Hlow Hup].
    destruct (refill_error t l now Ht Hl Hn) as [He1 He2].
    split; [done|done|..]; simpl; rewrite least_val, limit_val;
      set (v := f8_val (f8_add t _)) in *; clearbody v;
      set (a := limit * f8_unit) in *; assert (0 < a) by (unfold a; nia); clearbody a.
    + destruct (Z.min_spec a v) as [[_ ->]|[_ ->]]; [nia|]. lia.
    + assert (Z.min a v ≤ v) by lia. lia.
Qed.

Lemma draw_level k granted b now n b' :
  0 ≤ k < 2 ^ 49 → reached k granted b → T0 ≤ now ≤ T1 → draw now n b b' →
  reached (k + 1) (granted + n) b' ∧
  (1 ≤ n → 2 ^ 50 * (10 ^ 6 * ((granted + n) * f8_unit)) ≤
           2 ^ 50 * (limit * f8_unit * (10 ^ 6 + (T1 - T0))) + (k + 1) * slack).
Proof.
  intros Hk Hb Hn Hd. pose proof (refilled_level k granted b now ltac:(lia) Hb Hn) as Hlv.
  destruct Hd as [b|n b Hint]; [split; [|lia]; right; eexists _, _; split; [done|]; by rewrite Z.add_0_r|].
  pose proof (level_range (k + 1) granted _ now ltac:(lia) Hlv) as Hr.
  pose proof f8_unit_pos as Hu. pose proof slack_pos as Hs.
  assert (2 ^ B ≤ 2 ^ 53) as HB53 by (apply Z.pow_le_mono_r; lia).
  assert (f8_int (refilled now b) = Z.quot (f8_val (refilled now b)) f8_unit) as Hq.
  { apply f8_val_int. nia. }
  set (t := refilled now b) in *. destruct Hlv as [_ Hc Hlow Hup].
  assert (n * f8_unit ≤ f8_val t) as Hpay.
  { destruct (Z.le_gt_cases 0 (f8_val t)).
    - rewrite Z.quot_div_nonneg in Hq by lia. etrans; [|apply (Z.mul_div_le (f8_val t) f8_unit Hu)].
      rewrite (Z.mul_comm f8_unit). apply Z.mul_le_mono_nonneg_r; lia.
    - assert (Z.quot (f8_val t) f8_unit ≤ 0); [|lia].
      rewrite <-(Z.opp_involutive (f8_val t)), Z.quot_opp_l by lia.
      pose proof (Z.quot_pos (- f8_val t) f8_unit). lia. }
  assert (f8_int t ≤ 2 ^ 53) as Hint53.
  { rewrite Hq. apply Z.quot_le_upper_bound; nia. }
  pose proof (f8_val_sub t n ltac:(lia) Hint53) as Hsub.
  assert (0 ≤ n * f8_unit) as Hm by nia.
  rewrite (Z.mul_add_distr_r granted n) in *.
  assert (limit * f8_unit * (now - T1) ≤ 0) as Hlate by nia.
  assert (limit * f8_unit * (now - T0) ≤ limit * f8_unit * (T1 - T0)) as Hlong by nia.
  assert (0 ≤ (k + 1) * slack) as Hks by nia.
  split.
  - right. eexists _, _. split; [done|]. split; rewrite ?Z.mul_add_distr_r, ?Hsub; [done|lia..].
  - intros _. lia.
Qed.

Lemma drawn_reached k granted b b' :
  Z.of_nat k ≤ 2 ^ 49 → fresh b → drawn T0 T1 k granted b b' →
  reached (Z.of_nat k) granted b' ∧
  2 ^ 50 * (10 ^ 6 * (granted * f8_unit)) ≤
    2 ^ 50 * (limit * f8_unit * (10 ^ 6 + (T1 - T0))) + Z.of_nat k * slack.
Proof.
  intros Hk Hb Hd. pose proof f8_unit_pos. pose proof slack_pos.
  revert Hk Hb. induction Hd as [b|k granted b b1 now n b2 _ IH Hn Hd]; intros Hk Hb.
  { split; [by left|]. assert (0 ≤ limit * f8_unit * (10 ^ 6 + (T1 - T0))) by nia. lia. }
  destruct IH as [Hr Hbound]; [lia|done|]. rewrite Nat2Z.inj_succ, <-Z.add_1_r in *.
  destruct (draw_level (Z.of_nat k) granted b1 now n b2 ltac:(lia) Hr Hn Hd) as [Hr' Hb'].
  split; [done|]. destruct Hd as [|n b2 Hint]; [rewrite Z.add_0_r; lia|]. apply Hb'. lia.
Qed.

(** In [T1 - T0] microseconds the bucket grants [limit] tokens at once and [limit] per second,
    and [2 ^ (B - 50)] more for the rounding of each draw. *)
Lemma drawn_bound k granted b b' :
  Z.of_nat k ≤ 2 ^ 49 → fresh b → drawn T0 T1 k granted b b' →
  2 ^ 50 * (10 ^ 6 * granted) ≤
    2 ^ 50 * (limit * (10 ^ 6 + (T1 - T0))) + Z.of_nat k * (2 ^ B * 10 ^ 6).
Proof.
  intros Hk Hb Hd. pose proof f8_unit_pos as Hu. apply (Z.mul_le_mono_pos_r _ _ f8_unit); [done|].
  destruct (drawn_reached k granted b b' Hk Hb Hd) as [_ Hbound]. unfold slack in Hbound. lia.
Qed.

(** A draw whose clock is behind the last refill takes back what the time between them
    brought: if that is more than what is left, it is refused however full the bucket is. *)
Lemma stale_clock_refused t l now n b' :
  B ≤ 50 → Z.abs (f8_val t) ≤ 2 ^ B * f8_unit → T0 ≤ now ≤ l → l ≤ T1 →
  10 ^ 6 * (f8_val t + f8_unit) ≤ limit * f8_unit * (l - now) →
  draw now n (Some (t, l)) b' → n = 0.
Proof.
  intros HB50 Ht Hn Hl Hback Hd. inversion Hd as [|? ? Hint]; subst; [done|exfalso].
  pose proof f8_unit_pos as Hu.
  pose proof (window_range l now ltac:(lia) ltac:(lia)) as Hw.
  destruct (refill_error t l now Ht ltac:(lia) ltac:(lia)) as [Hup Hdown].
  simpl in Hint. pose proof (least_val (f8_of_Z limit)
    (f8_add t (f8_mul (f8_of_Z limit) (f8_epoch (now - l))))) as Hmin.
  rewrite limit_val in Hmin.
  set (v := f8_val (f8_add t _)) in *. set (x := f8_least _ _) in *.
  assert (slack ≤ 2 ^ 50 * 10 ^ 6 * f8_unit) as Hs.
  { unfold slack. assert (2 ^ B ≤ 2 ^ 50) by (apply Z.pow_le_mono_r; lia). nia. }
  assert (v ≤ 0) as Hv by lia.
  assert (- (2 ^ 53 * f8_unit) ≤ v) as Hv'.
  { assert (2 ^ B * f8_unit ≤ 2 ^ 50 * f8_unit).
    { apply Z.mul_le_mono_nonneg_r; [lia|]. apply Z.pow_le_mono_r; lia. }
    assert (- (2 ^ 50 * 10 ^ 6 * f8_unit) ≤ limit * f8_unit * (now - l)).
    { assert (2 ^ B * 10 ^ 6 ≤ 2 ^ 50 * 10 ^ 6).
      { apply Z.mul_le_mono_nonneg_r; [lia|]. apply Z.pow_le_mono_r; lia. }
      assert (- (2 ^ 50 * 10 ^ 6) ≤ limit * (now - l)) by lia. nia. }
    lia. }
  assert (0 < limit * f8_unit) by nia. assert (f8_val x = v) as Hx by lia.
  rewrite f8_val_int in Hint by lia. rewrite Hx in Hint.
  rewrite <-(Z.opp_involutive v), Z.quot_opp_l in Hint by lia.
  pose proof (Z.quot_pos (- v) f8_unit). lia.
Qed.
End bucket.

(** ** Dequeues *)

Section dequeues.
Context `{PG : Postgres} `{ST : Storage} `{CO : Codecs} `{F8 : !Float8}.
Context `{LAWS : !PostgresLaws}.
Context (topic : string).

Definition bucket (db : DB) : option (f8 * Z) := topic_throughput db !! topic.
Definition limit_of (db : DB) : option Z := topic_config db !! topic ≫= ThroughputLimit.

Definition same_bucket (db db' : DB) : Prop :=
  bucket db' = bucket db ∧ limit_of db' = limit_of db.
#[export] Instance same_bucket_preorder : PreOrder same_bucket.
Proof. split; [done|]. intros db1 db2 db3 [H1 H2] [H3 H4]. split; congruence. Qed.

(** A draw on a bucket whose topic has a limit. *)
Lemma limit_draws limit want e w r w' :
  limit_of (w_tx w) = Some limit → limit ≠ 0 → applyThroughputLimit topic want e w = (r, w') →
  w_db w' = w_db w ∧
  ∀ n, r = Ok n → draw limit (pg_now e) n (bucket (w_tx w)) (bucket (w_tx w')) ∧
    limit_of (w_tx w') = Some limit.
Proof.
  intros Hl H0 Hrun. split.
  { assert (PreOrder (λ _ _ : DB, True)) by by split.
    pose proof (throttle_steps (λ _ _, True) topic want) as Hs.
    destruct (Hs ltac:(done) e w I I) as [Hdb _]. by rewrite Hrun in Hdb. }
  intros n ->. unfold applyThroughputLimit in Hrun.
  apply bind_Ok in Hrun as (lim & w1 & (-> & fs & ->)%tx_query_Ok & Hrun).
  unfold limit_of in Hl. rewrite Hl in Hrun. rewrite (proj2 (Z.eqb_neq _ _)) in Hrun by done.
  unfold consumeTokens in Hrun.
  apply bind_Ok in Hrun as (u & w2 & (_ & fs2 & ->)%tx_query_Ok & Hrun).
  apply bind_Ok in Hrun as (t & w3 & (fs3 & db3 & Hq & ->)%tx_stmt_Ok & Hrun). simpl in Hq.
  assert (t = refilled limit (pg_now e) (bucket (w_tx w)) ∧
    db3 = set_throughput (<[topic:=(t, pg_now e)]> (topic_throughput (w_tx w))) (w_tx w)) as [Ht ->].
  { unfold sql_refill, bucket, refilled in *. destruct (topic_throughput (w_tx w) !! topic) as [[]|];
      by simplify_eq. }
  destruct (Z.min want (f8_int t) <=? 0) eqn:Hle; simpl in Hrun.
  - apply ret_Ok in Hrun as [-> ->]. split; [|done]. unfold bucket at 2. simpl.
    rewrite lookup_insert_eq, Ht. constructor.
  - apply bind_Ok in Hrun as (u' & w4 & (fs4 & db4 & [= _ <-] & ->)%tx_stmt_Ok & Hrun).
    apply ret_Ok in Hrun as [-> ->]. apply Z.leb_gt in Hle. split; [|done].
    unfold bucket at 2. simpl. rewrite lookup_alter_eq, lookup_insert_eq. simpl. rewrite Ht in *.
    constructor. lia.
Qed.

(** The rest of a dequeue: it is rolled back, or commits the bucket as the draw left it. *)
Section rest.
Context (b : option (f8 * Z)) (l : option Z).

Definition settled (db db' : DB) : Prop := db' = db ∨ (bucket db' = b ∧ limit_of db' = l).
#[local] Instance settled_preorder : PreOrder settled.
Proof. split; [by left|]. intros db1 db2 db3 [->|?] [->|?]; unfold settled; auto. Qed.

Abbreviation rest m := (in_tx settled (λ db, bucket db = b ∧ limit_of db = l) m).

Lemma rest_end {A} (m : M A) : neutral m → rest m.
Proof. intros Hm. apply in_tx_quiet; [exact _|]. by apply neutral_quiet. Qed.
Lemma rest_commit {A} what (m : unit → M A) : (∀ u, neutral (m u)) → rest (commit_tx what ≫= m).
Proof. intros Hm. apply in_tx_commit; [exact _|]. intros u. by apply neutral_quiet. Qed.
Lemma rest_neutral {A B} (m : M A) (k : A → M B) : neutral m → (∀ a, rest (k a)) → rest (m ≫= k).
Proof. intros Hm Hk. eapply in_tx_bind; [exact _|by apply body_neutral|done]. Qed.
Lemma rest_stmt {A B} what (q : Env → DB → result PgError (A * DB)) (k : A → M B) :
  (∀ e db a db', q e db = Ok (a, db') → same_bucket db db') → (∀ a, rest (k a)) →
  rest (tx_stmt what q ≫= k).
Proof.
  intros Hq Hk. eapply in_tx_bind; [exact _| |intros a; apply Hk]. apply body_tx_stmt; [exact _|].
  intros e db a db' [Hb Hl] Hqe. apply Hq in Hqe as [Hb' Hl'].
  assert (bucket db' = b ∧ limit_of db' = l) by (split; congruence). split; [by right|done].
Qed.
Lemma rest_query {A B} what (q : Env → DB → A) (k : A → M B) :
  (∀ a, rest (k a)) → rest (tx_query what q ≫= k).
Proof. apply rest_stmt. by intros e db a db' [= _ <-]. Qed.
End rest.

Lemma claim_one_bucket t secs e db row db' :
  sql_claim_one t secs e db = Ok (row, db') → same_bucket db db'.
Proof. unfold sql_claim_one. destruct (select_messages _ 1 e db) as [|[]]; by intros [= _ <-]. Qed.

(** A dequeue: one draw, and what is handed out was granted. *)
Lemma limited_dequeue {A} what want (k : Z → M A) (count : A → Z) limit e w r w' :
  (∀ b n, in_tx (settled b (Some limit)) (λ db, bucket db = b ∧ limit_of db = Some limit) (k n)) →
  (∀ n e w a w', 0 ≤ n → k n e w = (Ok a, w') →
     0 ≤ count a ≤ n ∧ same_bucket (w_tx w) (w_db w')) →
  limit_of (w_db w) = Some limit → limit ≠ 0 →
  (begin_tx what;; n ← applyThroughputLimit topic want; k n) e w = (r, w') →
  limit_of (w_db w') = Some limit ∧
  ∃ n, (n = 0 ∧ bucket (w_db w') = bucket (w_db w) ∨
        draw limit (pg_now e) n (bucket (w_db w)) (bucket (w_db w'))) ∧
       ∀ a, r = Ok a → 0 ≤ count a ≤ n.
Proof.
  intros Hrest Hok Hl H0 Hrun.
  assert (w_db w' = w_db w → ∀ x, r = Err x → limit_of (w_db w') = Some limit ∧
    ∃ n, (n = 0 ∧ bucket (w_db w') = bucket (w_db w) ∨
        draw limit (pg_now e) n (bucket (w_db w)) (bucket (w_db w'))) ∧
       ∀ a, r = Ok a → 0 ≤ count a ≤ n) as Hfail.
  { intros -> x ->. split; [done|]. exists 0. split; [by left|done]. }
  rewrite run_bind in Hrun. destruct (begin_tx what e w) as [[u|x] w1] eqn:Hbegin.
  2: { injection Hrun as <- <-. eapply Hfail; [|done]. revert Hbegin. unfold begin_tx, round_trip.
       rewrite run_bind. destruct (w_faults w) as [|[] fs]; by intros [= _ <-]. }
  apply begin_tx_Ok in Hbegin as [fs ->]. rewrite run_bind in Hrun.
  destruct (applyThroughputLimit topic want e _) as [r1 w1] eqn:Hlim.
  apply (limit_draws limit) in Hlim as [Hdb Hdraw]; [|done|done]. simpl in *.
  destruct r1 as [n|x]; [|injection Hrun as <- <-; by eapply Hfail].
  destruct (Hdraw n eq_refl) as [Hd Hl1]. clear Hdraw.
  assert (0 ≤ n) as Hn by (destruct Hd; lia).
  pose proof (Hrest (bucket (w_tx w1)) n e w1 ltac:(by right) ltac:(done)) as Hset.
  rewrite Hrun in Hset. simpl in Hset. destruct r as [a|x].
  - destruct (Hok n e w1 a w' Hn Hrun) as [Hcount [Hb Hl']]. split; [congruence|]. exists n.
    rewrite Hb. split; [by right|]. by intros a' [= <-].
  - destruct Hset as [Hs|[Hb Hl']]; [apply (Hfail ltac:(congruence) x eq_refl)|].
    split; [done|]. exists n. rewrite Hb. split; [by right|done].
Qed.

Lemma scan_rows_length {A} (scan : A → result Error Message) rows e w msgs w' :
  scan_rows scan rows e w = (Ok msgs, w') →
  length msgs = length rows ∧ w_tx w' = w_tx w ∧ w_db w' = w_db w.
Proof. intros [Hall ->]%scan_rows_Ok. by rewrite (Forall2_length _ _ _ Hall). Qed.

(** The end of a dequeue that hands nothing out. *)
Lemma nothing_handed {A} what (a : A) e w w' (x : A) :
  (commit_tx what;; mret x) e w = (Ok a, w') → a = x ∧ same_bucket (w_tx w) (w_db w').
Proof.
  intros (? & w1 & [fs ->]%commit_tx_Ok & H)%bind_Ok. by apply ret_Ok in H as [-> ->].
Qed.

Section methods.
Context (s : Service) (limit : Z) (H0 : limit ≠ 0).

(** One draw by a call, of as much as it hands out. *)
Definition one_draw (e : Env) (handed : Z) (db db' : DB) : Prop :=
  limit_of db' = Some limit ∧
  ∃ n, (n = 0 ∧ bucket db' = bucket db ∨ draw limit (pg_now e) n (bucket db) (bucket db')) ∧
       0 ≤ handed ≤ n.

Lemma draws_nonneg e n (b b' : option (f8 * Z)) :
  (n = 0 ∧ b' = b ∨ draw limit (pg_now e) n b b') → 0 ≤ n.
Proof. intros [[-> _]|Hd]; [done|]. inversion Hd; lia. Qed.

Lemma Dequeue_draws vt e w :
  limit_of (w_db w) = Some limit →
  one_draw e (match (Dequeue s topic vt e w).1 with Ok _ => 1 | Err _ => 0 end)
    (w_db w) (w_db (Dequeue s topic vt e w).2).
Proof.
  intros Hl. destruct (Dequeue s topic vt e w) as [r w'] eqn:Hrun. simpl. unfold Dequeue in Hrun.
  eapply (limited_dequeue _ _ _ (λ _, 1)) in Hrun as (Hl' & n & Hd & Hr); [| | |done|done].
  - split; [done|]. exists n. split; [done|]. destruct r; [by apply (Hr a)|].
    split; [done|]. by eapply draws_nonneg.
  - intros b m. case_match; [apply rest_commit; intros; solve_neutral|].
    apply rest_stmt; [intros *; apply claim_one_bucket|]. intros [[i row]|].
    2: { apply rest_commit. intros. solve_neutral. }
    apply rest_neutral; [destruct (row_message i row); simpl; solve_neutral|]. intros msg.
    apply rest_commit. intros. solve_neutral.
  - intros m e' w1 a w2 Hm H. destruct (m =? 0) eqn:Hm0.
    { by apply bind_Ok in H as (? & ? & _ & ?). }
    apply Z.eqb_neq in Hm0. split; [lia|].
    apply bind_Ok in H as (row & w3 & (fs2 & db' & Hq & ->)%tx_stmt_Ok & H).
    apply claim_one_bucket in Hq. destruct row as [[i r']|].
    2: { by apply bind_Ok in H as (? & ? & _ & ?). }
    apply bind_Ok in H as (msg & w4 & [_ ->]%lift_Ok & H).
    apply bind_Ok in H as (? & w5 & [fs3 ->]%commit_tx_Ok & H).
    apply bind_Ok in H as (? & w6 & ->%record_Ok & H). by apply ret_Ok in H as [-> ->].
Qed.

Lemma DequeueForGroup_draws group vt e w :
  limit_of (w_db w) = Some limit →
  one_draw e (match (DequeueForGroup s topic group vt e w).1 with Ok _ => 1 | Err _ => 0 end)
    (w_db w) (w_db (DequeueForGroup s topic group vt e w).2).
Proof.
  intros Hl. destruct (DequeueForGroup s topic group vt e w) as [r w'] eqn:Hrun. simpl.
  unfold DequeueForGroup in Hrun.
  eapply (limited_dequeue _ _ _ (λ _, 1)) in Hrun as (Hl' & n & Hd & Hr); [| | |done|done].
  - split; [done|]. exists n. split; [done|]. destruct r; [by apply (Hr a)|].
    split; [done|]. by eapply draws_nonneg.
  - intros b m. case_match; [apply rest_commit; intros; solve_neutral|].
    apply rest_stmt; [by intros e' db ids db' [= _ <-]|]. intros [|i ids].
    { apply rest_commit. intros. solve_neutral. }
    apply rest_query. intros [[i' [row d]]|]; [|apply rest_end; solve_neutral].
    apply rest_neutral; [destruct (scanMessageWithDelivery i' row d); simpl; solve_neutral|].
    intros msg. apply rest_commit. intros. solve_neutral.
  - intros m e' w1 a w2 Hm H. destruct (m =? 0) eqn:Hm0.
    { by apply bind_Ok in H as (? & ? & _ & ?). }
    apply Z.eqb_neq in Hm0. split; [lia|].
    apply bind_Ok in H as (ids & w3 & (fs2 & db' & [= _ <-] & ->)%tx_stmt_Ok & H).
    destruct ids as [|i ids]; [by apply bind_Ok in H as (? & ? & _ & ?)|].
    apply bind_Ok in H as (row & w4 & (_ & fs3 & ->)%tx_query_Ok & H).
    destruct row as [[i' [row d]]|]; [|done].
    apply bind_Ok in H as (msg & w5 & [_ ->]%lift_Ok & H).
    apply bind_Ok in H as (? & w6 & [fs4 ->]%commit_tx_Ok & H).
    apply bind_Ok in H as (? & w7 & ->%record_Ok & H). by apply ret_Ok in H as [-> ->].
Qed.

(** A refused batch size draws nothing. *)
Lemma refused_batch {A} (r : result Error A) e w w' (h : Z) :
  limit_of (w_db w) = Some limit → (Err ErrInvalidBatchSize, w) = (r, w') →
  (∀ x, r = Err x → h = 0) → one_draw e h (w_db w) (w_db w').
Proof.
  intros Hl [= <- <-] Hh. rewrite (Hh _ eq_refl). split; [done|]. exists 0. split; [by left|done].
Qed.

Definition handed_batch (r : result Error (list Message)) : Z :=
  match r with Ok ms => Z.of_nat (length ms) | Err _ => 0 end.

Lemma batch_draws e (r : result Error (list Message)) n w w' :
  limit_of (w_db w') = Some limit →
  (n = 0 ∧ bucket (w_db w') = bucket (w_db w) ∨
   draw limit (pg_now e) n (bucket (w_db w)) (bucket (w_db w'))) →
  (∀ ms, r = Ok ms → 0 ≤ Z.of_nat (length ms) ≤ n) →
  one_draw e (handed_batch r) (w_db w) (w_db w').
Proof.
  intros Hl Hd Hr. split; [done|]. exists n. split; [done|].
  destruct r as [ms|x]; [by apply Hr|]. split; [done|]. by eapply draws_nonneg.
Qed.

Lemma DequeueN_draws n vt e w :
  limit_of (w_db w) = Some limit →
  one_draw e (handed_batch (DequeueN s topic n vt e w).1) (w_db w) (w_db (DequeueN s topic n vt e w).2).
Proof.
  intros Hl. destruct (DequeueN s topic n vt e w) as [r w'] eqn:Hrun. simpl. unfold DequeueN in Hrun.
  destruct ((n <? 1) || (1000 <? n)).
  { eapply refused_batch; [done|exact Hrun|]. by intros x ->. }
  eapply (limited_dequeue _ _ _ (λ ms, Z.of_nat (length ms))) in Hrun as (Hl' & m & Hd & Hr);
    [by eapply batch_draws| | |done|done].
  - intros b m. case_match; [apply rest_commit; intros; solve_neutral|].
    apply rest_stmt; [by intros e' db ids db' [= _ <-]|]. intros rows.
    apply rest_neutral; [apply scan_rows_neutral|]. intros msgs.
    apply rest_commit. intros. solve_neutral.
  - intros m e' w1 ms w2 Hm H. destruct (m =? 0) eqn:Hm0.
    { apply nothing_handed in H as [-> ?]. by split. }
    apply bind_Ok in H as (rows & w3 & (fs2 & db' & [= <- <-] & ->)%tx_stmt_Ok & H).
    apply bind_Ok in H as (ms' & w4 & (Hlen & Htx & _)%scan_rows_length & H).
    apply nothing_handed in H as [-> [Hb Hl']]. rewrite Htx in *. split; [|done].
    rewrite Hlen, returning_perm, length_fmap.
    pose proof (select_messages_length (eligible_batch (pg_now e') topic) m e' (w_tx w1)). lia.
Qed.

Lemma DequeueNForGroup_draws group n vt e w :
  limit_of (w_db w) = Some limit →
  one_draw e (handed_batch (DequeueNForGroup s topic group n vt e w).1) (w_db w)
    (w_db (DequeueNForGroup s topic group n vt e w).2).
Proof.
  intros Hl. destruct (DequeueNForGroup s topic group n vt e w) as [r w'] eqn:Hrun. simpl.
  unfold DequeueNForGroup in Hrun. destruct ((n <? 1) || (1000 <? n)).
  { eapply refused_batch; [done|exact Hrun|]. by intros x ->. }
  eapply (limited_dequeue _ _ _ (λ ms, Z.of_nat (length ms))) in Hrun as (Hl' & m & Hd & Hr);
    [by eapply batch_draws| | |done|done].
  - intros b m. case_match; [apply rest_commit; intros; solve_neutral|].
    apply rest_stmt; [by intros e' db ids db' [= _ <-]|]. intros [|i ids].
    { apply rest_commit. intros. solve_neutral. }
    apply rest_query. intros rows. apply rest_neutral; [apply scan_rows_neutral|]. intros msgs.
    apply rest_commit. intros. solve_neutral.
  - intros m e' w1 ms w2 Hm H. destruct (m =? 0) eqn:Hm0.
    { apply nothing_handed in H as [-> ?]. by split. }
    apply bind_Ok in H as (ids & w3 & (fs2 & db' & [= Hids <-] & ->)%tx_stmt_Ok & H).
    assert (Z.of_nat (length ids) ≤ m) as Hm'.
    { rewrite <-Hids, returning_perm, length_fmap.
      pose proof (select_deliveries_length topic group m e' (w_tx w1)). lia. }
    destruct ids as [|i ids]; [apply nothing_handed in H as [-> ?]; by split|].
    apply bind_Ok in H as (rows & w4 & (-> & fs3 & ->)%tx_query_Ok & H).
    apply bind_Ok in H as (ms' & w5 & (Hlen & Htx & _)%scan_rows_length & H).
    apply nothing_handed in H as [-> [Hb Hl']]. rewrite Htx in *. split; [|done].
    rewrite Hlen.
    match goal with |- context [sql_join_many ?l ?g ?d] => pose proof (join_many_length l g d) end. lia.
Qed.

(** ** Histories *)

(** How many messages of the topic a call hands out. *)
Definition handed (c : call) (e : Env) (w : World) : Z :=
  match c with
  | do_Dequeue t vt =>
      if decide (t = topic) then match (Dequeue s t vt e w).1 with Ok _ => 1 | Err _ => 0 end else 0
  | do_DequeueForGroup t group vt =>
      if decide (t = topic)
      then match (DequeueForGroup s t group vt e w).1 with Ok _ => 1 | Err _ => 0 end else 0
  | do_DequeueN t n vt =>
      if decide (t = topic) then handed_batch (DequeueN s t n vt e w).1 else 0
  | do_DequeueNForGroup t group n vt =>
      if decide (t = topic) then handed_batch (DequeueNForGroup s t group n vt e w).1 else 0
  | _ => 0
  end.

Fixpoint handed_out (calls : list (call * Env)) (w : World) : Z :=
  match calls with
  | [] => 0
  | (c, e) :: calls' => handed c e w + handed_out calls' (run_call s c e w).2
  end.

Definition same_limits (db db' : DB) : Prop :=
  topic_config db' = topic_config db ∧ topic_throughput db' = topic_throughput db.

Lemma same_limits_bucket db db' : same_limits db db' → same_bucket db db'.
Proof. intros [Hc Ht]. unfold same_bucket, bucket, limit_of. by rewrite Hc, Ht. Qed.

Lemma insert_same_limits now id r db db' : insert_message now id r db = Ok db' → same_limits db db'.
Proof. unfold insert_message. case_decide; [|done]. by intros [= <-]. Qed.

Lemma replay_same_limits t exp e n rows db k db' :
  replay_rows t exp e n rows db = (k, db') → same_limits db db'.
Proof.
  revert n db k. induction rows as [|l rows IH]; intros n db k; simpl; [by intros [= _ <-]|].
  destruct (insert_message _ _ _ _) as [db1|] eqn:Hins; [|by apply IH].
  destruct (replay_rows _ _ _ _ rows db1) as [c1 db2] eqn:Hrest. intros [= _ <-].
  apply insert_same_limits in Hins as [? ?]. apply IH in Hrest as [? ?]. split; congruence.
Qed.

Lemma writes_same_limits c e db db' : writes c e db db' → same_limits db db'.
Proof.
  assert (∀ id f, update_message id f db = Ok db' → same_limits db db') as Hupdate.
  { intros id f. unfold update_message. by repeat case_match; intros [= <-]. }
  destruct c; simpl; try done.
  - intros (p & id & H). unfold sql_enqueue in H. case_decide; [|done].
    destruct (conflicting_row topic0 key db) as [[j r]|]; [by injection H as _ <-|].
    destruct (insert_message _ _ _ _) as [db1|] eqn:Hins; simplify_eq.
    by eapply insert_same_limits.
  - intros (secs & row & H). unfold sql_claim_one in H.
    destruct (select_messages _ 1 e db) as [|[]]; by injection H as _ <-.
  - by intros (m & secs & rows & [= _ <-]).
  - by intros (m & secs & rows & [= _ <-]).
  - by intros (m & secs & rows & [= _ <-]).
  - by intros ->.
  - intros (f & H). by eapply Hupdate.
  - by intros [-> | ->].
  - intros (f & _ & H). unfold update_delivery in H. by repeat case_match; simplify_eq.
  - intros (f & H). by eapply Hupdate.
  - by intros [= <-].
  - by intros [= <-].
  - by intros (n & [= _ <-]).
  - by intros (n & [= _ <-]).
  - by intros (n & [= _ <-]).
  - by intros (n & [= _ <-]).
  - intros (exp & rows & n & H & _). by eapply replay_same_limits.
  - by intros ->.
  - by intros ->.
Qed.

(** A call that neither draws on the bucket nor changes the configuration. *)
Lemma run_call_same_bucket c e w :
  ¬ reconfigures c topic → ¬ throttles c topic → same_bucket (w_db w) (w_db (run_call s c e w).2).
Proof.
  intros Hre Hthr. apply (run_call_walk same_bucket (λ t, t ≠ topic)).
  - intros db db' [_ Hkept _ _ _]. destruct (Hkept topic ltac:(auto)) as [Hc Ht].
    split; unfold bucket, limit_of; congruence.
  - intros _ t tt id l db db' Hins. apply same_limits_bucket. unfold insert_log in Hins.
    case_match; [done|]. by injection Hins as <-.
  - intros t Ht n. destruct (decide (t = topic)) as [->|Hne]; [done|].
    apply throttle_steps; [exact _|]. intros db tt' Htt. split; [|done].
    unfold bucket. simpl. by apply Htt.
  - intros t Ht ->. done.
  - intros e' db db' Hw. by apply same_limits_bucket, (writes_same_limits c e').
Qed.

Lemma call_draws c e w :
  limit_of (w_db w) = Some limit → ¬ reconfigures c topic →
  one_draw e (handed c e w) (w_db w) (w_db (run_call s c e w).2).
Proof.
  intros Hl Hre.
  assert (∀ {A} (m : M A), (discard m e w).2 = (m e w).2) as Hdiscard.
  { intros A m. unfold discard. rewrite run_bind. by destruct (m e w) as [[]]. }
  assert (¬ throttles c topic → handed c e w = 0 →
    one_draw e (handed c e w) (w_db w) (w_db (run_call s c e w).2)) as Hsame.
  { intros Hthr ->. destruct (run_call_same_bucket c e w Hre Hthr) as [Hb Hl'].
    split; [congruence|]. exists 0. split; [by left|done]. }
  destruct c as [|t vt|t n vt|t g vt|t g n vt| | | | | | | | | | | | | | | | | | | | | | |];
    try (apply Hsame; [by intros []|reflexivity]); simpl in *;
    (destruct (decide (t = topic)) as [->|Hne]; [rewrite Hdiscard|by apply Hsame; auto]).
  - by apply Dequeue_draws.
  - by apply DequeueN_draws.
  - by apply DequeueForGroup_draws.
  - by apply DequeueNForGroup_draws.
Qed.

Lemma history_drawn T0 T1 calls w k granted b0 :
  limit_of (w_db w) = Some limit →
  Forall (λ ce, T0 ≤ pg_now ce.2 ≤ T1 ∧ ¬ reconfigures ce.1 topic) calls →
  drawn limit T0 T1 k granted b0 (bucket (w_db w)) →
  ∃ k' granted', (k' ≤ k + length calls)%nat ∧ granted + handed_out calls w ≤ granted' ∧
    drawn limit T0 T1 k' granted' b0 (bucket (w_db (run_calls s calls w))).
Proof.
  intros Hl Hc. revert w k granted Hl.
  induction Hc as [|[c e] calls [Hn Hre] _ IH]; intros w k granted Hl Hd; simpl.
  { exists k, granted. split_and!; [lia|lia|done]. }
  destruct (call_draws c e w Hl Hre) as (Hl' & n & Hdraw & Hh).
  assert (∃ k1, (k1 ≤ S k)%nat ∧
    drawn limit T0 T1 k1 (granted + n) b0 (bucket (w_db (run_call s c e w).2))) as (k1 & Hk1 & Hd1).
  { destruct Hdraw as [[-> ->]|Hdraw]; [exists k; rewrite Z.add_0_r; by auto|].
    exists (S k). split; [done|]. by eapply drawn_snoc. }
  destruct (IH _ _ _ Hl' Hd1) as (k' & granted' & Hk' & Hg & Hd').
  exists k', granted'. split_and!; [lia|lia|done].
Qed.
End methods.

Context `{FL : !Float8Laws}.

(** [C34] The throughput limit holds over time.  In any history of calls whose clocks lie between
    [T0] and [T1] microseconds, in any order, and that leaves the limit of the topic as it is:
    the four ways to dequeue together hand out no more messages of the topic than a full
    bucket and [limit] more per second, whatever round trips fail; and [2 ^ (B - 50)] of a
    message more per call, for the rounding of float8, where [2 ^ B] is twice that number. *)
Theorem throughput_is_limited s limit T0 T1 B calls w :
  1 ≤ limit → T0 ≤ T1 → 0 ≤ B ≤ 53 →
  2 * limit * (10 ^ 6 + (T1 - T0)) ≤ 2 ^ B * 10 ^ 6 →
  Z.of_nat (length calls) ≤ 2 ^ 49 →
  limit_of (w_db w) = Some limit → fresh limit T1 (bucket (w_db w)) →
  Forall (λ ce, T0 ≤ pg_now ce.2 ≤ T1 ∧ ¬ reconfigures ce.1 topic) calls →
  2 ^ 50 * (10 ^ 6 * handed_out s calls w) ≤
    2 ^ 50 * (limit * (10 ^ 6 + (T1 - T0))) + Z.of_nat (length calls) * (2 ^ B * 10 ^ 6).
Proof.
  intros Hlim HT HB Hroom Hlen Hl Hfresh Hc.
  assert (limit ≤ 2 ^ 53) as Hmax.
  { assert (2 ^ B ≤ 2 ^ 53) by (apply Z.pow_le_mono_r; lia). nia. }
  destruct (history_drawn s limit ltac:(lia) T0 T1 calls w 0 0 _ Hl Hc (drawn_nil _ _ _ _))
    as (k & granted & Hk & Hg & Hd).
  pose proof (drawn_bound limit ltac:(lia) T0 T1 B HT HB Hroom k granted _ _ ltac:(lia) Hfresh Hd).
  assert (Z.of_nat k * (2 ^ B * 10 ^ 6) ≤ Z.of_nat (length calls) * (2 ^ B * 10 ^ 6)).
  { apply Z.mul_le_mono_nonneg_r; lia. }
  lia.
Qed.
End dequeues.
