(* ===== verification/Errors.v ===== *)
(** * What an error means

    An error of a method of [queue.Service] that does not report a failed round trip is a
    refusal: nothing has happened.  The logic of the proof follows the shape of the methods:
    code that writes nothing ([quiet]), code whose own errors come before it has written
    ([clean]), code that can only fail by a lost round trip ([only_lost]), and, for the four
    dequeues, which may spend tokens and then answer [ErrNoMessage], code of a transaction
    that so far has written to [topic_throughput] only ([spends]). *)

From S2P Require Import Prelude.
From S2P Require Import Store.
From S2P Require Import Avro.
From S2P Require Import Runtime.
From S2P Require Import Model.
From S2P Require Import TopicConfig.
From S2P Require Import Throttle.
From S2P Require Import Schema.
From S2P Require Import Dequeue.
From S2P Require Import Enqueue.
From S2P Require Import Lifecycle.
From S2P Require Import ConsumerGroup.
From S2P Require Import Reaper.
From S2P Require Import Replay.
From S2P Require Import Query.
From S2P Require Import System.

(** Nothing but the token buckets differs. *)
Definition tokens_only `{PG : Postgres} (db db' : DB) : Prop :=
  ∃ tt, db' = set_throughput tt db.

#[export] Instance tokens_only_preorder `{PG : Postgres} : PreOrder tokens_only.
Proof.
  split.
  - intros [? ? ? ? ? t ? ? ? ?]. by exists t.
  - intros db1 db2 db3 [t1 ->] [t2 ->]. by exists t2.
Qed.

Section errors.
Context `{PG : Postgres} `{ST : Storage}.

Definition clean {A} (m : M A) : Prop := ∀ e w x w',
  m e w = (Err x, w') → ¬ lost x → w_db w' = w_db w.
Definition only_lost {A} (m : M A) : Prop := ∀ e w x w', m e w = (Err x, w') → lost x.
Definition spends {A} (m : M A) : Prop := ∀ e w x w',
  tokens_only (w_db w) (w_tx w) → m e w = (Err x, w') → ¬ lost x → tokens_only (w_db w) (w_db w').

(** ** Code that can only fail by a lost round trip *)

Lemma only_lost_ret {A} (a : A) : only_lost (mret a).
Proof. by intros e w. Qed.
Lemma only_lost_get {A} (f : World → A) : only_lost (get f).
Proof. by intros e w. Qed.
Lemma only_lost_modify f : only_lost (modify f).
Proof. by intros e w. Qed.
Lemma only_lost_record m : only_lost (record m).
Proof. by intros e w. Qed.
Lemma only_lost_round_trip : only_lost round_trip.
Proof. intros e w x w'. unfold round_trip. by destruct (w_faults w). Qed.
Lemma only_lost_bind {A B} (m : M A) (k : A → M B) :
  only_lost m → (∀ a, only_lost (k a)) → only_lost (m ≫= k).
Proof.
  intros Hm Hk e w x w'. rewrite run_bind. destruct (m e w) as [[a|y] w1] eqn:Hrun.
  - apply Hk.
  - intros [= <- <-]. by eapply Hm.
Qed.
Lemma only_lost_commit what : only_lost (commit_tx what).
Proof.
  intros e w x w'. destruct w as [? ? ? ? ? ? ? [|[] fs]]; cbv; intros [= <- _]; by eexists.
Qed.
Lemma only_lost_pool_stmt {A} what (q : Env → DB → result PgError (A * DB)) :
  (∀ e db, is_ok (q e db) = true) → only_lost (pool_stmt what q).
Proof.
  intros Hq e w x w'. unfold pool_stmt. rewrite run_bind. unfold round_trip.
  specialize (Hq e (w_db w)).
  destruct (w_faults w) as [|[] fs]; cbn -[lost]; destruct (q e (w_db w)) as [[]|];
    intros Herr; simplify_eq; by eexists.
Qed.

(** ** Code that refuses before it writes *)

Lemma quiet_clean {A} (m : M A) : quiet m → clean m.
Proof. intros Hm e w x w' Hrun _. specialize (Hm e w). by rewrite Hrun in Hm. Qed.
Lemma only_lost_clean {A} (m : M A) : only_lost m → clean m.
Proof. intros Hm e w x w' Hrun Hx. by apply Hm in Hrun. Qed.

Lemma clean_bind_quiet {A B} (m : M A) (k : A → M B) :
  quiet m → (∀ a, clean (k a)) → clean (m ≫= k).
Proof.
  intros Hm Hk e w x w'. rewrite run_bind. specialize (Hm e w).
  destruct (m e w) as [[a|y] w1]; simpl in Hm; [|by intros [= <- <-]].
  intros Hrun Hx. by rewrite <-Hm, (Hk a _ _ _ _ Hrun Hx).
Qed.

Lemma clean_bind_last {A B} (m : M A) (k : A → M B) :
  clean m → (∀ a, only_lost (k a)) → clean (m ≫= k).
Proof.
  intros Hm Hk e w x w'. rewrite run_bind. destruct (m e w) as [[a|y] w1] eqn:Hrun.
  - intros Hrest Hx. by apply Hk in Hrest.
  - intros [= <- <-]. by eapply Hm.
Qed.

Lemma clean_pool_stmt {A} what (q : Env → DB → result PgError (A * DB)) :
  clean (pool_stmt what q).
Proof.
  intros e w x w' Hrun Hx.
  destruct (pool_stmt_cases what q e w) as
    [(fs & a & db' & _ & [Heq|Heq])|[(fs & Heq)|(fs & y & _ & Heq)]];
    rewrite Heq in Hrun; simplify_eq; [|done..]. destruct Hx. by eexists.
Qed.

Lemma quiet_pool_read {A} what (q : Env → DB → result PgError A) :
  quiet (pool_stmt what (λ e db, match q e db with Ok a => Ok (a, db) | Err x => Err x end)).
Proof.
  intros e w. unfold pool_stmt. rewrite run_bind. unfold round_trip.
  destruct w as [db ? ? ? ? ? ? [|[] fs]]; simpl; by destruct (q e db).
Qed.

Lemma quiet_begin_tx what : quiet (begin_tx what).
Proof. intros e w. destruct w as [? ? ? ? ? ? ? [|[] fs]]; done. Qed.
Lemma quiet_tx_stmt {A} what (q : Env → DB → result PgError (A * DB)) : quiet (tx_stmt what q).
Proof.
  intros e w. unfold tx_stmt. rewrite run_bind. unfold round_trip.
  destruct w as [? tx ? ? ? ? ? [|[] fs]]; simpl; by destruct (q e tx) as [[]|].
Qed.
Lemma quiet_tx_exec what q : quiet (tx_exec what q).
Proof. apply quiet_tx_stmt. Qed.
Lemma quiet_tx_query {A} what (q : Env → DB → A) : quiet (tx_query what q).
Proof. apply quiet_tx_stmt. Qed.
Lemma quiet_try {A} (m : M A) : quiet m → quiet (try m).
Proof. intros Hm e w. rewrite run_try. apply Hm. Qed.
Lemma clean_try {A} (m : M A) : clean (try m).
Proof. intros e w x w'. by rewrite run_try. Qed.

(** ** Transactions that have spent tokens *)

Lemma clean_spends {A} (m : M A) : clean m → spends m.
Proof. intros Hm e w x w' _ Hrun Hx. by rewrite (Hm _ _ _ _ Hrun Hx). Qed.

Lemma spends_begin {A} what (m : M A) e w x w' :
  spends m → (begin_tx what;; m) e w = (Err x, w') → ¬ lost x → tokens_only (w_db w) (w_db w').
Proof.
  intros Hm Hrun Hx. assert (tokens_only (w_db w) (w_db w)) as Hrefl by done. revert Hrun.
  unfold begin_tx. rewrite run_bind_bind, run_bind. unfold round_trip.
  destruct (w_faults w) as [|[] fs]; simpl; intros Hrun.
  - by apply (Hm _ (set_tx (w_db w) w) _ _ Hrefl Hrun Hx).
  - by apply (Hm _ (set_tx (w_db w) (set_faults fs w)) _ _ Hrefl Hrun Hx).
  - by injection Hrun as _ <-.
  - by injection Hrun as _ <-.
Qed.

Lemma spends_bind {A B} (m : M A) (k : A → M B) :
  body tokens_only (λ _, True) m (λ _ _, True) → (∀ a, spends (k a)) → spends (m ≫= k).
Proof.
  intros Hm Hk e w x w' Htx. rewrite run_bind.
  destruct (Hm e w Htx I) as (Hdb & Htx' & _).
  destruct (m e w) as [[a|y] w1]; simpl in *; [|by intros [= <- <-]; rewrite Hdb].
  rewrite <-Hdb in Htx' |- *. by apply Hk.
Qed.

(** The statement that may write more, if the rest is clean then. *)
Lemma spends_stmt {A B} what (q : Env → DB → result PgError (A * DB)) (k : A → M B) :
  (∀ e db a db', q e db = Ok (a, db') → db' = db ∧ spends (k a) ∨ clean (k a)) →
  spends (tx_stmt what q ≫= k).
Proof.
  intros Hq e w x w' Htx. rewrite run_bind.
  pose proof (quiet_tx_stmt what q e w) as Hdb.
  destruct (tx_stmt what q e w) as [[a|y] w1] eqn:Hrun; simpl in Hdb;
    [|by intros [= <- <-]; rewrite Hdb].
  intros Hrest Hx. apply tx_stmt_Ok in Hrun as (fs & db' & Ha & ->).
  destruct (Hq _ _ _ _ Ha) as [[-> Hk]|Hk].
  - by apply (Hk _ (set_tx (w_tx w) (set_faults fs w)) _ _ Htx Hrest Hx).
  - by rewrite (Hk _ _ _ _ Hrest Hx).
Qed.

Lemma spends_commit {A} what (m : unit → M A) :
  (∀ u, quiet (m u)) → spends (commit_tx what ≫= m).
Proof.
  intros Hm e w x w' Htx. rewrite run_bind.
  destruct (commit_tx what e w) as [[[]|y] w1] eqn:Hrun.
  - apply commit_tx_Ok in Hrun as [fs ->]. intros Hrest _. specialize (Hm tt e).
    specialize (Hm (set_db (w_tx w) (set_faults fs w))). rewrite Hrest in Hm. simpl in Hm.
    by rewrite Hm.
  - intros [= <- <-] Hx. by apply only_lost_commit in Hrun.
Qed.
End errors.

#[export] Hint Resolve only_lost_ret only_lost_get only_lost_modify only_lost_record
  only_lost_round_trip only_lost_commit quiet_begin_tx quiet_tx_stmt quiet_tx_exec
  quiet_tx_query quiet_try quiet_pool_read clean_pool_stmt clean_try : queueti.

Ltac solve_quiet :=
  repeat (intros; first
    [ solve [auto with queueti] | apply quiet_bind
    | solve [apply neutral_quiet; solve_neutral] | case_match ]).
Ltac solve_lost :=
  repeat (intros; first [ solve [auto with queueti] | apply only_lost_bind | case_match ]).
Ltac solve_clean :=
  repeat (intros; first
    [ solve [auto with queueti]
    | solve [apply quiet_clean; solve_quiet]
    | solve [apply only_lost_clean; solve_lost]
    | apply clean_bind_quiet; [solve [solve_quiet]|]
    | apply clean_bind_last; [|solve [solve_lost]]
    | case_match ]).

Section calls.
Context `{PG : Postgres} `{STO : Storage} `{CO : Codecs}.

(** ** The methods *)

Hint Resolve neutral_lift scan_rows_neutral : queueti.

Lemma cache_Delete_only_lost keys : only_lost (cache_Delete keys).
Proof. induction keys as [|key keys IH]; simpl; solve_lost. Qed.
Lemma Publish_only_lost channel topic : only_lost (Publish channel topic).
Proof. unfold Publish. solve_lost. Qed.
Lemma evict_schema_only_lost topic : only_lost (evict_schema topic).
Proof. unfold evict_schema. solve_lost. Qed.
Hint Resolve cache_Delete_only_lost Publish_only_lost evict_schema_only_lost : queueti.
Lemma invalidate_config_only_lost topic : only_lost (invalidate_config topic).
Proof. unfold invalidate_config. solve_lost. Qed.
Lemma archiveToLog_quiet id topic l : quiet (archiveToLog id topic l).
Proof. unfold archiveToLog. solve_quiet. Qed.
Lemma record_if_only_lost n m : only_lost (record_if n m).
Proof. unfold record_if. solve_lost. Qed.
Lemma record_if_quiet n m : quiet (record_if n m).
Proof. unfold record_if. solve_quiet. Qed.
Lemma effectiveDLQThreshold_quiet s topic : quiet (effectiveDLQThreshold s topic).
Proof. apply neutral_quiet, effectiveDLQThreshold_neutral. Qed.
Hint Resolve invalidate_config_only_lost archiveToLog_quiet record_if_only_lost
  record_if_quiet effectiveDLQThreshold_quiet : queueti.
Lemma runDeleteWork_quiet : quiet runDeleteWork.
Proof. unfold runDeleteWork. solve_quiet. Qed.
Hint Resolve runDeleteWork_quiet : queueti.

Definition no_dequeue (c : call) : bool :=
  match c with
  | do_Dequeue _ _ | do_DequeueN _ _ _ | do_DequeueForGroup _ _ _ | do_DequeueNForGroup _ _ _ _ =>
      false
  | _ => true
  end.

Lemma discard_clean {A} (m : M A) : clean m → clean (discard m).
Proof. intros Hm. apply clean_bind_last; [done|]. solve_lost. Qed.

Lemma DeleteTopicConfig_clean topic : clean (DeleteTopicConfig topic).
Proof.
  intros e w x w'. unfold DeleteTopicConfig. rewrite run_bind.
  pose proof (clean_pool_stmt "delete topic config" (sql_delete_config topic) e w) as Hclean.
  destruct (pool_stmt _ _ e w) as [[n|y] w1] eqn:Hrun; [|intros [= <- <-]; by apply Hclean].
  apply pool_stmt_Ok in Hrun as (fs & db' & [= <- <-] & ->).
  destruct (topic_config (w_db w) !! topic) eqn:Hcfg; simpl.
  - intros Hrest Hx. exfalso. apply Hx. revert Hrest.
    match goal with |- ?m e ?w2 = _ → _ => assert (only_lost m) as Hm; [|by apply Hm] end.
    apply only_lost_bind; [|solve_lost]. by apply only_lost_pool_stmt.
  - intros [= _ <-] _. simpl. rewrite delete_id by done. by destruct (w_db w).
Qed.

Lemma run_call_clean s c : no_dequeue c = true → clean (run_call s c).
Proof.
  destruct c; try done; intros _; simpl; try apply discard_clean.
  - unfold Enqueue, resolveEnqueueParams, enqueue_accepted. solve_clean.
  - unfold Ack. solve_clean.
  - unfold Nack. solve_clean.
  - unfold AckForGroup. solve_clean.
  - unfold NackForGroup. solve_clean.
  - unfold Requeue. solve_clean.
  - unfold RegisterConsumerGroup. solve_clean.
  - unfold UnregisterConsumerGroup. solve_clean.
  - unfold RunExpiryReaperOnce. solve_clean.
  - unfold RunDeleteReaperOnce. solve_clean.
  - unfold RunArchiveReaperOnce. solve_clean.
  - unfold expiry_tick. solve_clean.
  - unfold delete_tick. solve_clean.
  - unfold ReplayTopic. solve_clean.
  - unfold TrimMessageLog. solve_clean.
  - unfold PurgeTopic. solve_clean.
  - unfold PurgeByKey. solve_clean.
  - unfold UpsertTopicConfig. solve_clean.
  - apply DeleteTopicConfig_clean.
  - unfold UpsertTopicSchemaAndNotify, UpsertTopicSchema. solve_clean.
  - unfold DeleteTopicSchemaAndNotify, DeleteTopicSchema. solve_clean.
  - unfold List_. solve_clean.
  - unfold Stats. solve_clean.
  - unfold ListMessageLog. solve_clean.
Qed.

(** A claim that finds nothing leaves the tables as they are. *)
Lemma sql_claim_one_none topic secs e db db' :
  sql_claim_one topic secs e db = Ok (None, db') → db' = db.
Proof. unfold sql_claim_one. case_match; [by intros [= <-]|by case_match]. Qed.

Context `{LAWS : !PostgresLaws}.

Lemma sql_claim_deliveries_none topic group n secs e db db' :
  sql_claim_deliveries topic group n secs e db = Ok ([], db') → db' = db.
Proof.
  unfold sql_claim_deliveries. intros [= Hids <-].
  pose proof (returning_perm (select_deliveries topic group n e db).*1) as Hp.
  rewrite Hids in Hp. apply Permutation_nil in Hp. rewrite Hp, map_update_none; [by destruct db|].
  intros k d _ [Hk _]. by apply elem_of_nil in Hk.
Qed.

(** The limiter writes to [topic_throughput]. *)
Lemma throttled_spends {B} topic n (k : Z → M B) :
  (∀ a, spends (k a)) → spends (applyThroughputLimit topic n ≫= k).
Proof.
  intros Hk. apply spends_bind; [|done]. unfold applyThroughputLimit, consumeTokens.
  assert (∀ A (m : M A), neutral m → body tokens_only (λ _, True) m (λ _ _, True)) as Hneutral
    by (intros A m Hm; by apply (body_neutral tokens_only (λ _, True))).
  assert (∀ A what (q : Env → DB → result PgError (A * DB)),
    (∀ e db a db', q e db = Ok (a, db') → tokens_only db db') →
    body tokens_only (λ _, True) (tx_stmt what q) (λ _ _, True)) as Hstmt.
  { intros A what q Hq. apply body_tx_stmt; [apply _|]. intros e db a db' _ Ha.
    split; [by eapply Hq|done]. }
  assert (∀ A what (q : Env → DB → A), body tokens_only (λ _, True) (tx_query what q) (λ _ _, True))
    as Hquery by (intros A what q; apply Hstmt; by intros e db a db' [= _ <-]).
  eapply body_bind; [apply Hquery|]. intros [limit|]; [|apply Hneutral; solve_neutral].
  case_match; [apply Hneutral; solve_neutral|].
  eapply body_bind; [apply Hquery|]. intros u.
  eapply body_bind; [apply Hstmt|].
  { unfold sql_refill. intros e db a db' Ha. repeat case_match; simplify_eq; by eexists. }
  intros t. case_match; [apply Hneutral; solve_neutral|].
  eapply body_bind; [apply Hstmt|intros; apply Hneutral; solve_neutral].
  unfold sql_deduct. intros e db a db' Ha. repeat case_match; simplify_eq; by eexists.
Qed.

(** The end of a dequeue that hands out nothing. *)
Ltac answer_empty := apply spends_commit; intros; solve_quiet.

Lemma run_call_spends s c e w x w' :
  no_dequeue c = false → run_call s c e w = (Err x, w') → ¬ lost x →
  tokens_only (w_db w) (w_db w').
Proof.
  intros Hc Hrun Hx.
  assert (∀ A (m : M A), (∀ x w', m e w = (Err x, w') → ¬ lost x → tokens_only (w_db w) (w_db w')) →
    discard m e w = (Err x, w') → tokens_only (w_db w) (w_db w')) as Hdiscard.
  { intros A m Hm. unfold discard. rewrite run_bind. destruct (m e w) as [[a|y] w1]; [done|].
    intros [= <- <-]. by eapply Hm. }
  destruct c; try done; simpl in Hrun; revert Hrun; apply Hdiscard; clear Hdiscard; intros y w1 Hrun Hy.
  - revert Hrun Hy. apply spends_begin, throttled_spends. intros n. case_match; [answer_empty|].
    apply spends_stmt. intros e' db row db' Hrow. destruct row as [[i r]|].
    + right. solve_clean.
    + left. split; [by eapply sql_claim_one_none|answer_empty].
  - revert Hrun. unfold DequeueN. case_match; [by intros [= _ <-]|]. intros Hrun.
    revert Hrun Hy. apply spends_begin, throttled_spends. intros m. case_match; [answer_empty|].
    apply spends_stmt. intros e' db rows db' _. right. solve_clean.
  - revert Hrun Hy. apply spends_begin, throttled_spends. intros n. case_match; [answer_empty|].
    apply spends_stmt. intros e' db ids db' Hids. destruct ids as [|i ids].
    + left. split; [by eapply sql_claim_deliveries_none|answer_empty].
    + right. solve_clean.
  - revert Hrun. unfold DequeueNForGroup. case_match; [by intros [= _ <-]|]. intros Hrun.
    revert Hrun Hy. apply spends_begin, throttled_spends. intros m. case_match; [answer_empty|].
    apply spends_stmt. intros e' db ids db' Hids. destruct ids as [|i ids].
    + left. split; [by eapply sql_claim_deliveries_none|answer_empty].
    + right. solve_clean.
Qed.

(** [C15] An error is a refusal.  Whatever fails in between, a call of the service that answers
    an error which does not report a failed round trip has changed no table; a dequeue that
    answers one may have spent tokens of the throughput limit and has changed nothing else.
    Only an error that reports a failed round trip leaves it open what has happened. *)
Theorem refused_calls_change_nothing s c e w x w' :
  run_call s c e w = (Err x, w') → ¬ lost x →
  tokens_only (w_db w) (w_db w') ∧ (no_dequeue c = true → w_db w' = w_db w).
Proof.
  intros Hrun Hx. destruct (no_dequeue c) eqn:Hc.
  - pose proof (run_call_clean s c Hc e w x w' Hrun Hx) as ->. done.
  - split; [by eapply run_call_spends|done].
Qed.
End calls.
