(* ===== verification/Caches.v ===== *)
(** * The caches of a service that meets no faults

    The three-level caches of topic configurations and schemas describe the tables in
    every state that calls of the service reach, as long as no round trip fails. *)

From S2P Require Import Prelude.
From S2P Require Import Store.
From S2P Require Import Avro.
From S2P Require Import Runtime.
From S2P Require Import Model.
From S2P Require Import TopicConfig.
From S2P Require Import Throttle.
From S2P Require Import Schema.
From S2P Require Import Dequeue.
From S2P Require Import Enqueue.
From S2P Require Import Lifecycle.
From S2P Require Import ConsumerGroup.
From S2P Require Import Reaper.
From S2P Require Import Replay.
From S2P Require Import Query.
From S2P Require Import System.

Section caches.
Context `{PG : Postgres} `{ST : Storage} `{CO : Codecs} `{SLAWS : !StorageLaws}.

(** The tables the caches copy. *)
Definition config_tables (db db' : DB) : Prop :=
  topic_config db' = topic_config db ∧ topic_schemas db' = topic_schemas db.

(** Between calls, and inside a transaction. *)
Definition in_step (w : World) : Prop := caches_ok w ∧ w_faults w = [].
Definition in_step_tx (w : World) : Prop := in_step w ∧ config_tables (w_db w) (w_tx w).

Lemma caches_ok_tables w w' :
  config_tables (w_db w) (w_db w') → w_topicConfigCache w' = w_topicConfigCache w →
  w_schemaCache w' = w_schemaCache w → w_cache w' = w_cache w → caches_ok w → caches_ok w'.
Proof. intros [H1 H2] H3 H4 H5. by apply (caches_ok_same w). Qed.

Lemma in_step_set_tx db w : in_step w → in_step (set_tx db w).
Proof. intros [Hc Hf]. split; [|exact Hf]. by apply (caches_ok_tables w). Qed.

(** ** Primitives *)

Lemma round_trip_calm e w : w_faults w = [] → round_trip e w = (Ok Works, w).
Proof. unfold round_trip. by intros ->. Qed.

Lemma begin_tx_in_step {A} what (m : M A) :
  preserves in_step_tx m → preserves in_step (begin_tx what;; m).
Proof.
  intros Hm e w [Hc Hf]. rewrite run_bind, begin_tx_calm by done.
  apply (Hm e (set_tx (w_db w) w)). split; [by apply in_step_set_tx|done].
Qed.

Lemma pool_stmt_in_step {A} what (q : Env → DB → result PgError (A * DB)) :
  (∀ e db a db', q e db = Ok (a, db') → config_tables db db') →
  preserves in_step (pool_stmt what q).
Proof.
  intros Hq e w [Hc Hf]. rewrite (pool_stmt_calm what q e w Hf).
  destruct (q e (w_db w)) as [[a db']|x] eqn:Hr; [|split; [exact Hc|exact Hf]].
  split; [|done]. apply (caches_ok_tables w); [by eapply Hq|done..].
Qed.

Lemma pool_query_in_step {A} what (q : Env → DB → A) : preserves in_step (pool_query what q).
Proof. apply pool_stmt_in_step. by intros e db a db' [= _ <-]. Qed.

Lemma tx_stmt_in_step {A} what (q : Env → DB → result PgError (A * DB)) :
  (∀ e db a db', q e db = Ok (a, db') → config_tables db db') →
  preserves in_step_tx (tx_stmt what q).
Proof.
  intros Hq e w Hw. pose proof Hw as [[Hc Hf] [H1 H2]]. rewrite tx_stmt_calm by done.
  destruct (q e (w_tx w)) as [[a db']|x] eqn:Hr; [clear Hw|exact Hw].
  apply Hq in Hr as [H3 H4]. split; [by apply in_step_set_tx|]. split; simpl; congruence.
Qed.

Lemma tx_query_in_step {A} what (q : Env → DB → A) : preserves in_step_tx (tx_query what q).
Proof. apply tx_stmt_in_step. by intros e db a db' [= _ <-]. Qed.

Lemma tx_exec_in_step what (q : Env → DB → result PgError DB) :
  (∀ e db db', q e db = Ok db' → config_tables db db') → preserves in_step_tx (tx_exec what q).
Proof.
  intros Hq. apply tx_stmt_in_step. intros e db a db' H.
  destruct (q e db) eqn:Hr; simplify_eq. by eapply Hq.
Qed.

Lemma commit_tx_in_step what : preserves in_step_tx (commit_tx what).
Proof.
  intros e w [[Hc Hf] Ht]. rewrite commit_tx_calm by done.
  split; [|done]. split; [|done]. by apply (caches_ok_tables w).
Qed.

Lemma record_in_step m : preserves in_step (record m).
Proof. intros e w [Hc Hf]. split; [|exact Hf]. by apply (caches_ok_tables w). Qed.
Lemma record_in_step_tx m : preserves in_step_tx (record m).
Proof. intros e w [H1 H2]. split; [by apply (record_in_step m e w)|done]. Qed.

(** A method that keeps step and the working copy may run in a transaction. *)
Lemma in_step_neutral {A} (m : M A) : neutral m → preserves in_step m → preserves in_step_tx m.
Proof.
  intros Hn Hm e w [H1 H2]. split; [by apply Hm|]. destruct (Hn e w) as [-> ->]. done.
Qed.

Lemma preserves_try {A} P (m : M A) : preserves P m → preserves P (try m).
Proof. intros Hm e w Hw. rewrite run_try. by apply Hm. Qed.

Lemma GetTopicConfig_in_step t : preserves in_step (GetTopicConfig t).
Proof.
  intros e w [Hc Hf]. split; [by apply GetTopicConfig_caches_ok|].
  by apply GetTopicConfig_is_calm.
Qed.

Lemma validatePayload_in_step t p : preserves in_step (validatePayload t p).
Proof.
  intros e w [Hc Hf]. split; [by apply validatePayload_caches_ok|].
  by apply validatePayload_calm.
Qed.

Lemma lift_in_step {A} P (r : result Error A) : preserves P (lift r).
Proof. destruct r; [apply preserves_ret|apply preserves_fail]. Qed.

Lemma discard_in_step {A} (m : M A) : preserves in_step m → preserves in_step (discard m).
Proof. intros Hm. apply preserves_bind; [done|]. intros _. apply preserves_ret. Qed.

(** ** Changes of configurations and schemas *)

(** An invalidation of one kind leaves the caches of the other kind in step. *)
Lemma invalidated_schema_coherent t db w :
  topic_schemas db = topic_schemas (w_db w) → schema_coherent w →
  schema_coherent (invalidated t db w).
Proof.
  intros Hdb [Hl1 Hl2]. split; simpl.
  - rewrite Hdb. exact Hl1.
  - intros st' t' b. destruct (w_cache w) as [st|] eqn:Hst; [|done]. intros [= <-] Hb.
    apply get_delete_other in Hb. apply (Hl2 st) in Hb; [|done].
    unfold describes_schema in *. simpl. by rewrite Hdb.
Qed.

Lemma schema_invalidated_config_coherent t db w :
  topic_config db = topic_config (w_db w) → coherent w → coherent (schema_invalidated t db w).
Proof.
  intros Hdb [Hl1 Hl2]. split; simpl.
  - rewrite Hdb. exact Hl1.
  - intros st' t' b. destruct (w_cache w) as [st|] eqn:Hst; [|done]. intros [= <-] Hb.
    apply get_delete_other in Hb. apply (Hl2 st) in Hb; [|done].
    unfold describes in *. simpl. by rewrite Hdb.
Qed.

Lemma evict_schema_in_step t : preserves in_step (evict_schema t).
Proof.
  intros e w [[Hc Hs] Hf]. split; [|exact Hf]. split; [by apply (coherent_same w)|].
  destruct Hs as [Hl1 Hl2]. split; simpl; [|exact Hl2].
  intros t' sch v ts [Ht Hl]%lookup_delete_Some. by apply Hl1.
Qed.

Lemma UpsertTopicConfig_in_step cfg : preserves in_step (UpsertTopicConfig cfg).
Proof.
  intros e w Hw. pose proof Hw as [[Hc Hs] Hf]. destruct (HasSuffix (Topic cfg) ".dlq") eqn:Hd.
  { unfold UpsertTopicConfig. rewrite Hd. exact Hw. }
  destruct (decide (config_int4 cfg)) as [Hi|Hi].
  - rewrite UpsertTopicConfig_calm by done. split; [split|done].
    + apply invalidated_coherent; [|done]. intros t' Ht. by apply lookup_insert_ne.
    + by apply invalidated_schema_coherent.
  - unfold UpsertTopicConfig. rewrite Hd, run_bind, pool_stmt_calm by done.
    unfold sql_upsert_config. rewrite decide_False by done. exact Hw.
Qed.

Lemma DeleteTopicConfig_in_step t : preserves in_step (DeleteTopicConfig t).
Proof.
  intros e w [[Hc Hs] Hf]. destruct (topic_config (w_db w) !! t) as [cfg|] eqn:Ht.
  - rewrite (DeleteTopicConfig_calm t cfg) by done. split; [split|done].
    + apply invalidated_coherent; [|done]. intros t' Hne. by apply lookup_delete_ne.
    + by apply invalidated_schema_coherent.
  - unfold DeleteTopicConfig. rewrite run_bind, pool_stmt_calm by done.
    unfold sql_delete_config. rewrite Ht. simpl. split; [|exact Hf].
    apply (caches_ok_tables w); [|done..]. split; [|done]. simpl. by apply delete_id.
Qed.

Lemma UpsertTopicSchema_in_step t j : preserves in_step (UpsertTopicSchemaAndNotify t j).
Proof.
  intros e w Hw. pose proof Hw as [[Hc Hs] Hf]. destruct (avro_Parse j) as [sch|] eqn:Hp.
  2: { unfold UpsertTopicSchemaAndNotify, UpsertTopicSchema. rewrite Hp. exact Hw. }
  destruct (decide (int4 (next_version (w_db w) t))) as [Hv|Hv].
  - rewrite (UpsertTopicSchemaAndNotify_calm t j sch) by done. split; [split|done].
    + by apply schema_invalidated_config_coherent.
    + apply schema_invalidated_coherent; [|done]. intros t' Ht. by apply lookup_insert_ne.
  - unfold UpsertTopicSchemaAndNotify, UpsertTopicSchema. rewrite Hp, run_bind, run_bind.
    pose proof (evict_schema_in_step t e w Hw) as Hev.
    destruct Hev as [Hev Hf']. simpl in Hev, Hf' |- *. rewrite pool_stmt_calm by done.
    unfold sql_upsert_schema. fold (next_version (w_db (set_schema_cache
      (delete t (w_schemaCache w)) w)) t). rewrite decide_False by done. by split.
Qed.

Lemma DeleteTopicSchema_in_step t : preserves in_step (DeleteTopicSchemaAndNotify t).
Proof.
  intros e w [[Hc Hs] Hf]. rewrite DeleteTopicSchemaAndNotify_calm by done. split; [split|done].
  - by apply schema_invalidated_config_coherent.
  - apply schema_invalidated_coherent; [|done]. intros t' Ht. by apply lookup_delete_ne.
Qed.

(** ** The calls *)

(** A statement on other tables. *)
Ltac keeps_config_tables :=
  intros; repeat (case_match; simplify_eq/=); simplify_eq/=; try done.

Lemma insert_message_config now id r db db' :
  insert_message now id r db = Ok db' → config_tables db db'.
Proof. unfold insert_message. keeps_config_tables. Qed.

Lemma update_message_config id f db db' :
  update_message id f db = Ok db' → config_tables db db'.
Proof. unfold update_message. keeps_config_tables. Qed.

Lemma update_delivery_config k f db db' :
  update_delivery k f db = Ok db' → config_tables db db'.
Proof. unfold update_delivery. keeps_config_tables. Qed.

Lemma replay_rows_config topic exp e rows : ∀ n db k db',
  replay_rows topic exp e n rows db = (k, db') → config_tables db db'.
Proof.
  induction rows as [|l rows IH]; intros n db k db'; simpl; [by intros [= _ <-]|].
  destruct (insert_message _ _ _ _) as [db1|] eqn:Hi; [|by apply IH].
  destruct (replay_rows _ _ _ _ rows db1) as [k1 db2] eqn:Hr. intros [= _ <-].
  apply insert_message_config in Hi as [H1 H2]. apply IH in Hr as [H3 H4].
  split; congruence.
Qed.

Lemma insert_log_config topic t id l db db' :
  insert_log topic t id l db = Ok db' → config_tables db db'.
Proof. unfold insert_log. keeps_config_tables. Qed.

#[local] Hint Resolve preserves_try lift_in_step discard_in_step record_in_step
  record_in_step_tx commit_tx_in_step pool_query_in_step tx_query_in_step
  GetTopicConfig_in_step validatePayload_in_step UpsertTopicConfig_in_step
  DeleteTopicConfig_in_step UpsertTopicSchema_in_step DeleteTopicSchema_in_step : queueti.

Ltac walk :=
  repeat (intros; first [ solve [auto with queueti] | apply preserves_bind | case_match ]).

Lemma Enqueue_in_step s topic payload md key : preserves in_step (Enqueue s topic payload md key).
Proof.
  assert (∀ p, preserves in_step (pool_stmt "enqueue" (sql_enqueue topic payload md key p))).
  { intros p. apply pool_stmt_in_step. intros * Hq. by apply (sql_enqueue_config _ _ _ _ _ _ _ _ _ Hq). }
  unfold Enqueue, enqueue_accepted, resolveEnqueueParams. walk.
Qed.

Lemma effectiveDLQThreshold_in_step s topic : preserves in_step_tx (effectiveDLQThreshold s topic).
Proof.
  apply in_step_neutral; [apply effectiveDLQThreshold_neutral|].
  unfold effectiveDLQThreshold. walk.
Qed.

Lemma throttle_in_step topic n : preserves in_step_tx (applyThroughputLimit topic n).
Proof.
  assert (∀ limit, preserves in_step_tx (tx_stmt "throttle refill" (sql_refill topic limit))).
  { intros. apply tx_stmt_in_step. unfold sql_refill. keeps_config_tables. }
  assert (∀ k, preserves in_step_tx (tx_stmt "throttle deduct" (sql_deduct topic k))).
  { intros. apply tx_stmt_in_step. unfold sql_deduct. keeps_config_tables. }
  unfold applyThroughputLimit, consumeTokens. cbv zeta. repeat (walk; cbv zeta).
Qed.

Lemma scan_rows_in_step {A} (scan : A → result Error Message) rows :
  preserves in_step_tx (scan_rows scan rows).
Proof. induction rows as [|row rows IH]; simpl; walk. Qed.
#[local] Hint Resolve effectiveDLQThreshold_in_step throttle_in_step scan_rows_in_step : queueti.

Lemma dequeues_in_step s topic group n vt :
  preserves in_step (Dequeue s topic vt) ∧ preserves in_step (DequeueN s topic n vt) ∧
  preserves in_step (DequeueForGroup s topic group vt) ∧
  preserves in_step (DequeueNForGroup s topic group n vt).
Proof.
  assert (∀ what secs, preserves in_step_tx (tx_stmt what (sql_claim_one topic secs))).
  { intros. apply tx_stmt_in_step. unfold sql_claim_one. keeps_config_tables. }
  assert (∀ what m secs, preserves in_step_tx (tx_stmt what (sql_claim_many topic m secs))).
  { intros. apply tx_stmt_in_step. unfold sql_claim_many. keeps_config_tables. }
  assert (∀ what m secs,
    preserves in_step_tx (tx_stmt what (sql_claim_deliveries topic group m secs))).
  { intros. apply tx_stmt_in_step. unfold sql_claim_deliveries. keeps_config_tables. }
  unfold Dequeue, DequeueN, DequeueForGroup, DequeueNForGroup. cbv zeta.
  split_and!; try (case_match; [apply preserves_fail|]); apply begin_tx_in_step; walk.
Qed.

Lemma archiveToLog_in_step id topic l : preserves in_step_tx (archiveToLog id topic l).
Proof.
  assert (preserves in_step_tx
    (tx_exec "archive to log" (λ e, insert_log topic (pg_now e) id l))).
  { apply tx_exec_in_step. intros *. apply insert_log_config. }
  unfold archiveToLog. walk.
Qed.
#[local] Hint Resolve archiveToLog_in_step : queueti.

Lemma update_message_in_step what id (f : Env → MessageRow → MessageRow) :
  preserves in_step_tx (tx_exec what (λ e, update_message id (f e))).
Proof. apply tx_exec_in_step. intros *. apply update_message_config. Qed.
Lemma update_delivery_in_step what k (f : Env → DeliveryRow → DeliveryRow) :
  preserves in_step_tx (tx_exec what (λ e, update_delivery k (f e))).
Proof. apply tx_exec_in_step. intros *. apply update_delivery_config. Qed.
Lemma delete_in_step what (f : DB → DB) :
  (∀ db, config_tables db (f db)) → preserves in_step_tx (tx_exec what (λ _ db, Ok (f db))).
Proof. intros Hf. apply tx_exec_in_step. by intros e db db' [= <-]. Qed.
#[local] Hint Resolve update_message_in_step update_delivery_in_step : queueti.
#[local] Hint Extern 1 (preserves in_step_tx (tx_exec _ (λ _ db, Ok (delete_message _ _)))) =>
  by apply delete_in_step : queueti.
#[local] Hint Extern 1 (preserves in_step_tx (tx_exec _ (λ _ db, Ok (delete_delivery _ _)))) =>
  by apply delete_in_step : queueti.

Lemma settlements_in_step s id group text :
  preserves in_step (Ack id) ∧ preserves in_step (Nack s id text) ∧
  preserves in_step (AckForGroup id group) ∧ preserves in_step (NackForGroup s id group text) ∧
  preserves in_step (Requeue s id).
Proof.
  unfold Ack, Nack, AckForGroup, NackForGroup, Requeue. cbv zeta.
  split_and!; apply begin_tx_in_step; walk.
Qed.

Lemma groups_in_step s topic group :
  preserves in_step (RegisterConsumerGroup s topic group) ∧
  preserves in_step (UnregisterConsumerGroup topic group).
Proof.
  assert (∀ what, preserves in_step_tx (tx_stmt what (sql_insert_group topic group))).
  { intros. apply tx_stmt_in_step. unfold sql_insert_group. keeps_config_tables. }
  assert (∀ what, preserves in_step_tx (tx_stmt what (sql_delete_group topic group))).
  { intros. apply tx_stmt_in_step. unfold sql_delete_group. keeps_config_tables. }
  assert (∀ what, preserves in_step_tx (tx_exec what (sql_backfill topic group))).
  { intros. apply tx_exec_in_step. unfold sql_backfill. keeps_config_tables. }
  assert (∀ what, preserves in_step_tx (tx_exec what (sql_delete_group_deliveries topic group))).
  { intros. apply tx_exec_in_step. unfold sql_delete_group_deliveries. keeps_config_tables. }
  unfold RegisterConsumerGroup, UnregisterConsumerGroup.
  split; [apply preserves_bind; [walk|intros _]|]; apply begin_tx_in_step; walk.
Qed.

Lemma reapers_in_step acquired :
  preserves in_step RunExpiryReaperOnce ∧ preserves in_step RunDeleteReaperOnce ∧
  preserves in_step RunArchiveReaperOnce ∧ preserves in_step (expiry_tick acquired) ∧
  preserves in_step (delete_tick acquired).
Proof.
  assert (∀ e db a db', sql_expire e db = Ok (a, db') → config_tables db db') as Hex.
  { unfold sql_expire. keeps_config_tables. }
  assert (∀ e db a db', sql_delete_expired e db = Ok (a, db') → config_tables db db') as Hde.
  { unfold sql_delete_expired. keeps_config_tables. }
  assert (∀ e db a db', archiveReaperSQL e db = Ok (a, db') → config_tables db db') as Har.
  { unfold archiveReaperSQL. keeps_config_tables. }
  pose proof (λ what, tx_stmt_in_step what _ Hex).
  pose proof (λ what, tx_stmt_in_step what _ Hde).
  pose proof (λ what, tx_stmt_in_step what _ Har).
  pose proof (λ what, pool_stmt_in_step what _ Hex).
  pose proof (λ what, pool_stmt_in_step what _ Har).
  unfold RunExpiryReaperOnce, RunDeleteReaperOnce, RunArchiveReaperOnce, expiry_tick, delete_tick,
    tryWithReaperLock, runDeleteWork, record_if.
  split_and!; repeat first [apply preserves_try | apply begin_tx_in_step]; walk.
Qed.

Lemma log_in_step s topic from before :
  preserves in_step (ReplayTopic s topic from) ∧ preserves in_step (TrimMessageLog topic before).
Proof.
  assert (∀ what from exp, preserves in_step (pool_stmt what (sql_replay topic from exp))).
  { intros. apply pool_stmt_in_step. intros e db k db' [= Hr]. by eapply replay_rows_config. }
  split; [unfold ReplayTopic; cbv zeta; walk|].
  apply pool_stmt_in_step. by intros e db k db' [= _ <-].
Qed.

Lemma queries_in_step topic key statuses limit offset :
  preserves in_step (PurgeTopic topic statuses) ∧ preserves in_step (PurgeByKey topic key) ∧
  preserves in_step (List_ topic limit offset) ∧ preserves in_step Stats ∧
  preserves in_step (ListMessageLog topic limit offset).
Proof.
  assert (∀ A what (q : DB → result PgError A),
    preserves in_step (pool_stmt what (λ _ db, match q db with
                                               | Ok rows => Ok (rows, db) | Err x => Err x end))).
  { intros. apply pool_stmt_in_step. intros e db a db' H. by destruct (q db); simplify_eq. }
  unfold Stats, List_, ListMessageLog. split_and!; try by walk.
  all: apply pool_stmt_in_step; by intros e db k db' [= _ <-].
Qed.

Lemma run_call_in_step s c : preserves in_step (run_call s c).
Proof.
  destruct c; simpl; try apply discard_in_step; try by auto with queueti.
  - apply Enqueue_in_step.
  - apply (dequeues_in_step s topic "" 0 timeout).
  - apply (dequeues_in_step s topic "" n timeout).
  - apply (dequeues_in_step s topic group 0 timeout).
  - apply (dequeues_in_step s topic group n timeout).
  - apply (settlements_in_step s id "" "").
  - apply (settlements_in_step s id "" processingError).
  - apply (settlements_in_step s id group "").
  - apply (settlements_in_step s id group processingError).
  - apply (settlements_in_step s id "" "").
  - apply groups_in_step.
  - apply (groups_in_step s topic group).
  - apply (reapers_in_step true).
  - apply (reapers_in_step true).
  - apply (reapers_in_step true).
  - apply reapers_in_step.
  - apply reapers_in_step.
  - apply (log_in_step s topic fromTime 0).
  - apply (log_in_step s topic None before).
  - apply (queries_in_step topic "" statuses 0 0).
  - apply (queries_in_step topic key [] 0 0).
  - apply (queries_in_step topic "" [] limit offset).
  - apply (queries_in_step "" "" [] 0 0).
  - apply (queries_in_step topic "" [] limit offset).
Qed.

Lemma run_calls_in_step s calls w : in_step w → in_step (run_calls s calls w).
Proof.
  unfold run_calls. revert w. induction calls as [|[c e] calls IH]; intros w Hw; [done|].
  apply IH. by apply run_call_in_step.
Qed.

(** [C26] The caches describe the tables in every state the service reaches without a failing
    round trip: whatever calls are made, in whatever order and with whatever answers -
    configurations and schemas changed and deleted, refused, looked up and cached among
    them - every entry of the in-process configuration cache, of the shared cache and of the
    compiled schemas is the row its table has at that moment, and a lookup of a configuration
    answers with that row. *)
Theorem caches_invariant s calls w :
  in_step w →
  let w' := run_calls s calls w in
  in_step w' ∧
  ∀ topic e, (GetTopicConfig topic e w').1 = Ok (topic_config (w_db w') !! topic).
Proof.
  intros Hw w'. pose proof (run_calls_in_step s calls w Hw) as Hw'. split; [done|].
  intros topic e. destruct Hw' as [[Hc' _] Hf'].
  by destruct (GetTopicConfig_answer topic e w' Hf' Hc') as [w2 ->].
Qed.
End caches.
