(* ===== verification/Metrics.v ===== *)
(** * Metrics

    [backend/internal/metrics]: the counters behind [queue.MetricsRecorder] and the
    collector that reads the queue depth at each scrape.  The Prometheus client is the
    parameter [Prometheus]. *)

From S2P Require Import Prelude.
From S2P Require Import Store.
From S2P Require Import Avro.
From S2P Require Import Runtime.
From S2P Require Import Model.
From S2P Require Import TopicConfig.
From S2P Require Import Throttle.
From S2P Require Import Schema.
From S2P Require Import Dequeue.
From S2P Require Import Enqueue.
From S2P Require Import Lifecycle.
From S2P Require Import ConsumerGroup.
From S2P Require Import Reaper.
From S2P Require Import Replay.
From S2P Require Import Query.
From S2P Require Import System.

(** A counter vector of the client: [Add] is [WithLabelValues(labels...).Add(v)], [None]
    where it panics.  A counter without labels is a vector without label names.  The
    value is a float64, so additions are exact up to 2^53 only. *)
Class Prometheus := {
  CounterVec : Type;
  NewCounterVec : string → list string → CounterVec;
  LabelNames : CounterVec → list string;
  Add : CounterVec → list string → Z → option CounterVec;
  value : CounterVec → list string → Z;
}.

Class PrometheusLaws `{PR : Prometheus} : Prop := {
  new_labels name ls : LabelNames (NewCounterVec name ls) = ls;
  new_value name ls vs : value (NewCounterVec name ls) vs = 0;
  (* a wrong number of labels and a decrease panic *)
  Add_defined cv vs v : length vs = length (LabelNames cv) → 0 ≤ v → is_Some (Add cv vs v);
  Add_labels cv vs v cv' : Add cv vs v = Some cv' → LabelNames cv' = LabelNames cv;
  Add_same cv vs v cv' :
    Add cv vs v = Some cv' → value cv vs + v ≤ 2 ^ 53 → value cv' vs = value cv vs + v;
  Add_other cv vs v cv' vs' : Add cv vs v = Some cv' → vs' ≠ vs → value cv' vs' = value cv vs';
}.

Section recorder.
Context `{PR : Prometheus}.

Record Recorder := mkRecorder {
  rec_enqueued : CounterVec;
  rec_dequeued : CounterVec;
  rec_acked : CounterVec;
  rec_nacked : CounterVec;
  rec_requeued : CounterVec;
  rec_expired : CounterVec;
  rec_deleted : CounterVec;
  rec_replayed : CounterVec;
}.

Definition ns : string := "queueti".
(** [prometheus.BuildFQName(ns, "", name)] *)
Definition named (name : string) : string := ns +:+ "_" +:+ name.

Definition newRecorder : Recorder :=
  mkRecorder
    (NewCounterVec (named "enqueued_total") ["topic"])
    (NewCounterVec (named "dequeued_total") ["topic"])
    (NewCounterVec (named "acked_total") ["topic"])
    (NewCounterVec (named "nacked_total") ["topic"; "outcome"])
    (NewCounterVec (named "requeued_total") ["topic"])
    (NewCounterVec (named "expired_total") [])
    (NewCounterVec (named "messages_deleted_total") [])
    (NewCounterVec (named "replayed_total") ["topic"]).

(** The methods of the recorder: [None] is a panic. *)
Definition observe (r : Recorder) (m : Metric) : option Recorder :=
  let '(mkRecorder en de ac na re ex dl rp) := r in
  match m with
  | RecordEnqueue topic => c ← Add en [topic] 1; Some (mkRecorder c de ac na re ex dl rp)
  | RecordDequeue topic => c ← Add de [topic] 1; Some (mkRecorder en c ac na re ex dl rp)
  | RecordAck topic => c ← Add ac [topic] 1; Some (mkRecorder en de c na re ex dl rp)
  | RecordNack topic outcome =>
      c ← Add na [topic; outcome] 1; Some (mkRecorder en de ac c re ex dl rp)
  | RecordRequeue topic => c ← Add re [topic] 1; Some (mkRecorder en de ac na c ex dl rp)
  | RecordExpired n => c ← Add ex [] n; Some (mkRecorder en de ac na re c dl rp)
  | RecordDeleted n => c ← Add dl [] n; Some (mkRecorder en de ac na re ex c rp)
  | RecordReplay topic n => c ← Add rp [topic] n; Some (mkRecorder en de ac na re ex dl c)
  end.

(** The recorder after the events of a process, in order. *)
Fixpoint observe_all (r : Recorder) (ms : list Metric) : option Recorder :=
  match ms with
  | [] => Some r
  | m :: ms' => r' ← observe r m; observe_all r' ms'
  end.

(** The time series. *)
Inductive Series :=
| enqueued_total (topic : string)
| dequeued_total (topic : string)
| acked_total (topic : string)
| nacked_total (topic outcome : string)
| requeued_total (topic : string)
| expired_total
| messages_deleted_total
| replayed_total (topic : string).

Definition read (s : Series) (r : Recorder) : Z :=
  match s with
  | enqueued_total t => value (rec_enqueued r) [t]
  | dequeued_total t => value (rec_dequeued r) [t]
  | acked_total t => value (rec_acked r) [t]
  | nacked_total t o => value (rec_nacked r) [t; o]
  | requeued_total t => value (rec_requeued r) [t]
  | expired_total => value (rec_expired r) []
  | messages_deleted_total => value (rec_deleted r) []
  | replayed_total t => value (rec_replayed r) [t]
  end.

(** What an event adds to a series. *)
Definition amount (s : Series) (m : Metric) : Z :=
  let one (b : bool) := if b then 1 else 0 in
  match s, m with
  | enqueued_total t, RecordEnqueue t' => one (bool_decide (t = t'))
  | dequeued_total t, RecordDequeue t' => one (bool_decide (t = t'))
  | acked_total t, RecordAck t' => one (bool_decide (t = t'))
  | nacked_total t o, RecordNack t' o' => one (bool_decide (t = t' ∧ o = o'))
  | requeued_total t, RecordRequeue t' => one (bool_decide (t = t'))
  | expired_total, RecordExpired n => n
  | messages_deleted_total, RecordDeleted n => n
  | replayed_total t, RecordReplay t' n => if bool_decide (t = t') then n else 0
  | _, _ => 0
  end.

Definition total (s : Series) (ms : list Metric) : Z := foldr Z.add 0 (amount s <$> ms).

(** Row counts are not negative. *)
Definition counted (m : Metric) : Prop :=
  match m with RecordExpired n | RecordDeleted n | RecordReplay _ n => 0 ≤ n | _ => True end.

(** The vectors have the labels their methods pass. *)
Record recorder_ok (r : Recorder) : Prop := {
  ok_enqueued : length (LabelNames (rec_enqueued r)) = 1%nat;
  ok_dequeued : length (LabelNames (rec_dequeued r)) = 1%nat;
  ok_acked : length (LabelNames (rec_acked r)) = 1%nat;
  ok_nacked : length (LabelNames (rec_nacked r)) = 2%nat;
  ok_requeued : length (LabelNames (rec_requeued r)) = 1%nat;
  ok_expired : length (LabelNames (rec_expired r)) = 0%nat;
  ok_deleted : length (LabelNames (rec_deleted r)) = 0%nat;
  ok_replayed : length (LabelNames (rec_replayed r)) = 1%nat;
}.

Context `{PL : !PrometheusLaws}.

Lemma newRecorder_ok : recorder_ok newRecorder.
Proof. split; simpl; by rewrite new_labels. Qed.

Lemma newRecorder_zero s : read s newRecorder = 0.
Proof. destruct s; apply new_value. Qed.

Lemma amount_counted s m : counted m → 0 ≤ amount s m.
Proof. destruct s, m; simpl; intros; repeat case_match; lia. Qed.

Lemma total_counted s ms : Forall counted ms → 0 ≤ total s ms.
Proof.
  unfold total. induction 1 as [|m ms Hm _ IH]; [done|]. rewrite fmap_cons. cbn [foldr].
  pose proof (amount_counted s m Hm). lia.
Qed.

Lemma Add_spec cv vs v :
  length vs = length (LabelNames cv) → 0 ≤ v →
  ∃ cv', Add cv vs v = Some cv' ∧ length (LabelNames cv') = length (LabelNames cv) ∧
    ∀ vs', let n := if bool_decide (vs' = vs) then v else 0 in
      value cv vs' + n ≤ 2 ^ 53 → value cv' vs' = value cv vs' + n.
Proof.
  intros Hl Hv. destruct (Add_defined cv vs v Hl Hv) as [cv' Ha]. exists cv'.
  split; [done|]. split; [by rewrite (Add_labels _ _ _ _ Ha)|].
  intros vs' n Hb. unfold n in *. case_bool_decide as Hvs.
  - subst. by rewrite (Add_same _ _ _ _ Ha Hb).
  - rewrite (Add_other _ _ _ _ _ Ha Hvs). lia.
Qed.

Lemma one_label (a b : string) : bool_decide ([a] = [b]) = bool_decide (a = b).
Proof. apply bool_decide_ext. split; [by intros [=]|by intros ->]. Qed.
Lemma two_labels (a b c d : string) :
  bool_decide ([a; b] = [c; d]) = bool_decide (a = c ∧ b = d).
Proof. apply bool_decide_ext. split; [by intros [=]|by intros [-> ->]]. Qed.

(** One event: it does not panic, and adds its amount to every series. *)
Lemma observe_spec r m :
  recorder_ok r → counted m →
  ∃ r', observe r m = Some r' ∧ recorder_ok r' ∧
    ∀ s, read s r + amount s m ≤ 2 ^ 53 → read s r' = read s r + amount s m.
Proof.
  intros Hok Hm. destruct r as [en de ac na re ex dl rp].
  pose proof Hok as [He Hd Ha Hn Hr Hx Hdl Hrp]; simpl in *.
  destruct m as [t|t|t|t o|t|n|n|t n]; simpl in Hm |- *;
    [destruct (Add_spec en [t] 1) as (c & -> & Hl & Hv)
    |destruct (Add_spec de [t] 1) as (c & -> & Hl & Hv)
    |destruct (Add_spec ac [t] 1) as (c & -> & Hl & Hv)
    |destruct (Add_spec na [t; o] 1) as (c & -> & Hl & Hv)
    |destruct (Add_spec re [t] 1) as (c & -> & Hl & Hv)
    |destruct (Add_spec ex [] n) as (c & -> & Hl & Hv)
    |destruct (Add_spec dl [] n) as (c & -> & Hl & Hv)
    |destruct (Add_spec rp [t] n) as (c & -> & Hl & Hv)]; simpl; try done;
    (eexists; split; [done|]; split; [split; simpl; congruence|]);
    (intros s; destruct s; simpl; rewrite <-?one_label, <-?two_labels;
     try (intros; lia); intros Hb; by apply Hv).
Qed.

Lemma observe_all_spec ms r :
  recorder_ok r → Forall counted ms →
  ∃ r', observe_all r ms = Some r' ∧
    ∀ s, read s r + total s ms ≤ 2 ^ 53 → read s r' = read s r + total s ms.
Proof.
  revert r. induction ms as [|m ms IH]; intros r Hok Hms.
  { exists r. split; [done|]. intros s _. cbn. lia. }
  apply Forall_cons in Hms as [Hm Hms].
  destruct (observe_spec r m Hok Hm) as (r1 & Hr1 & Hok1 & Hv1).
  destruct (IH r1 Hok1 Hms) as (r' & Hr' & Hv). exists r'. simpl. rewrite Hr1. simpl.
  split; [done|]. intros s Hb. unfold total in *. rewrite fmap_cons in *. cbn [foldr] in *.
  pose proof (total_counted s ms Hms). unfold total in *.
  specialize (Hv1 s ltac:(lia)). specialize (Hv s ltac:(lia)). lia.
Qed.
End recorder.

(** ** What the service records *)

Section service.
Context `{PG : Postgres} `{ST : Storage} `{CO : Codecs}.

Definition metered (w : World) : Prop := Forall counted (w_metrics w).

(** The effects other than [record] leave the events alone. *)
Lemma metered_same {A} (m : M A) :
  (∀ e w, w_metrics (m e w).2 = w_metrics w) → preserves metered m.
Proof. intros Hm e w Hw. unfold metered. by rewrite Hm. Qed.

Lemma round_trip_metered : preserves metered round_trip.
Proof. apply metered_same. intros e w. unfold round_trip. by destruct (w_faults w). Qed.
Lemma begin_tx_metered what : preserves metered (begin_tx what).
Proof. apply preserves_bind; [apply round_trip_metered|]. intros []; by apply metered_same. Qed.
Lemma commit_tx_metered what : preserves metered (commit_tx what).
Proof. apply preserves_bind; [apply round_trip_metered|]. intros []; by apply metered_same. Qed.
Lemma tx_stmt_metered {A} what (q : Env → DB → result PgError (A * DB)) :
  preserves metered (tx_stmt what q).
Proof.
  apply preserves_bind; [apply round_trip_metered|].
  intros []; apply metered_same; intros e w; simpl; repeat case_match; simplify_eq/=; done.
Qed.
Lemma pool_stmt_metered {A} what (q : Env → DB → result PgError (A * DB)) :
  preserves metered (pool_stmt what q).
Proof.
  apply preserves_bind; [apply round_trip_metered|].
  intros []; apply metered_same; intros e w; simpl; repeat case_match; simplify_eq/=; done.
Qed.
Lemma modify_metered f : (∀ w, w_metrics (f w) = w_metrics w) → preserves metered (modify f).
Proof. intros Hf. apply metered_same. intros e w. apply Hf. Qed.
Lemma record_metered m : counted m → preserves metered (record m).
Proof. intros Hm e w Hw. apply Forall_app. split; [done|]. by apply Forall_singleton. Qed.
Lemma record_if_metered n m : (0 < n → counted m) → preserves metered (record_if n m).
Proof.
  intros Hm. unfold record_if. destruct (0 <? n) eqn:Hn; [|apply preserves_ret].
  apply record_metered, Hm, Z.ltb_lt, Hn.
Qed.
Lemma try_metered {A} (m : M A) : preserves metered m → preserves metered (try m).
Proof. intros Hm e w Hw. rewrite run_try. by apply Hm. Qed.
Lemma lift_metered {A} (r : result Error A) : preserves metered (lift r).
Proof. destruct r; [apply preserves_ret|apply preserves_fail]. Qed.
End service.

Create HintDb metered.
#[export] Hint Resolve round_trip_metered begin_tx_metered commit_tx_metered tx_stmt_metered
  pool_stmt_metered try_metered lift_metered preserves_ret preserves_fail preserves_ask
  preserves_get preserves_guard_ok : metered.
#[export] Hint Extern 1 (preserves metered (modify _)) => by apply modify_metered : metered.
#[export] Hint Extern 1 (preserves metered (record _)) =>
  apply record_metered; simpl; (exact I || lia) : metered.
#[export] Hint Extern 1 (preserves metered (record_if _ _)) =>
  apply record_if_metered; simpl; lia : metered.
#[export] Hint Extern 2 (preserves metered (tx_query _ _)) => apply tx_stmt_metered : metered.
#[export] Hint Extern 2 (preserves metered (pool_query _ _)) => apply pool_stmt_metered : metered.
#[export] Hint Extern 2 (preserves metered (tx_exec _ _)) => apply tx_stmt_metered : metered.

Ltac meter :=
  repeat (intros; cbv zeta;
          first [ solve [auto with metered]
                | lazymatch goal with
                  | |- preserves _ (_ ≫= _) => apply preserves_bind
                  | |- preserves _ (try _) => apply try_metered
                  end
                | case_match ]).

Section calls.
Context `{PG : Postgres} `{ST : Storage} `{CO : Codecs}.

Lemma cache_metered key keys val ttl ch p :
  preserves metered (cache_Get key) ∧ preserves metered (cache_Set key val ttl) ∧
  preserves metered (cache_Delete keys) ∧ preserves metered (Publish ch p).
Proof.
  split_and!; [unfold cache_Get; meter|unfold cache_Set; meter| |unfold Publish; meter].
  induction keys as [|k keys IH]; simpl; meter.
Qed.

Lemma cache_Get_metered key : preserves metered (cache_Get key).
Proof. apply (cache_metered key [] cacheNotFoundSentinel 0 "" ""). Qed.
Lemma cache_Set_metered key val ttl : preserves metered (cache_Set key val ttl).
Proof. apply (cache_metered key [] val ttl "" ""). Qed.
Lemma cache_Delete_metered keys : preserves metered (cache_Delete keys).
Proof. apply (cache_metered "" keys cacheNotFoundSentinel 0 "" ""). Qed.
Lemma Publish_metered ch p : preserves metered (Publish ch p).
Proof. apply (cache_metered "" [] cacheNotFoundSentinel 0 ch p). Qed.
#[local] Hint Resolve cache_Get_metered cache_Set_metered cache_Delete_metered
  Publish_metered : metered.

Lemma GetTopicConfig_metered t : preserves metered (GetTopicConfig t).
Proof. unfold GetTopicConfig, get_config_db, store_config. meter. Qed.
Lemma validatePayload_metered t p : preserves metered (validatePayload t p).
Proof.
  unfold validatePayload, resolveSchema, compile_schema, getTopicSchemaCached, get_schema_db,
    GetTopicSchema.
  meter.
Qed.
#[local] Hint Resolve GetTopicConfig_metered validatePayload_metered : metered.

Lemma effectiveDLQThreshold_metered s t : preserves metered (effectiveDLQThreshold s t).
Proof. unfold effectiveDLQThreshold. meter. Qed.
Lemma throttle_metered topic n : preserves metered (applyThroughputLimit topic n).
Proof. unfold applyThroughputLimit, consumeTokens. meter. Qed.
Lemma scan_rows_metered {A} (scan : A → result Error Message) rows :
  preserves metered (scan_rows scan rows).
Proof. induction rows as [|row rows IH]; simpl; meter. Qed.
#[local] Hint Resolve effectiveDLQThreshold_metered throttle_metered scan_rows_metered : metered.

Lemma run_call_metered s c : preserves metered (run_call s c).
Proof.
  destruct c; simpl;
    unfold discard, Enqueue, enqueue_accepted, resolveEnqueueParams,
      Dequeue, DequeueN, DequeueForGroup, DequeueNForGroup,
      Ack, Nack, AckForGroup, NackForGroup, Requeue, archiveToLog,
      RegisterConsumerGroup, UnregisterConsumerGroup,
      RunExpiryReaperOnce, RunDeleteReaperOnce, RunArchiveReaperOnce, expiry_tick, delete_tick,
      tryWithReaperLock, runDeleteWork, ReplayTopic, TrimMessageLog, PurgeTopic, PurgeByKey,
      UpsertTopicConfig, DeleteTopicConfig, invalidate_config, UpsertTopicSchemaAndNotify,
      DeleteTopicSchemaAndNotify, UpsertTopicSchema, DeleteTopicSchema, evict_schema,
      List_, Stats, ListMessageLog; meter.
Qed.

Context `{PR : Prometheus} `{PL : !PrometheusLaws}.

(** The counters count: after any calls of a service that starts with no event recorded,
    with any answers and any failing round trips, recording has not panicked, and every
    time series reads the number of its events (for the reapers and replays, of the rows
    they report) as long as that stays below 2^53, where float64 stops counting. *)
Theorem counters_count_events s calls w :
  w_metrics w = [] →
  let ms := w_metrics (run_calls s calls w) in
  ∃ r, observe_all newRecorder ms = Some r ∧
    ∀ series, 0 ≤ total series ms ∧
      (total series ms ≤ 2 ^ 53 → read series r = total series ms).
Proof.
  intros Hw ms. assert (Forall counted ms) as Hms.
  { unfold ms, run_calls. assert (metered w) as H by (unfold metered; by rewrite Hw).
    clear Hw ms. revert w H. induction calls as [|[c e] calls IH]; intros w H; [done|].
    apply IH. by apply run_call_metered. }
  destruct (observe_all_spec ms newRecorder newRecorder_ok Hms) as (r & Hr & Hv).
  exists r. split; [done|]. intros series. split; [by apply total_counted|]. intros Hb.
  specialize (Hv series). rewrite newRecorder_zero in Hv. by apply Hv.
Qed.
End calls.

(** ** The depth collector *)

Section depth.
Context `{PG : Postgres} `{ST : Storage}.

Inductive Sample :=
| Gauge (topic status : string) (n : Z)
| InvalidMetric (x : Error).

Definition gauge (t : TopicStat) : Sample := Gauge (stat_Topic t) (stat_Status t) (Count t).

(** [Collect], in the order of the query's groups. *)
Definition Collect : M (list Sample) :=
  r ← try (pool_query "queue depth" (λ _ db, stat_rows db));
  mret (match r with Ok rows => gauge <$> rows | Err x => [InvalidMetric x] end).

Context `{PLAWS : !PostgresLaws}.

(** A scrape changes nothing and never fails: it shows the entries of the statistics
    page, one gauge per topic and status that occurs, in some order; when the query fails
    it shows one invalid metric, so the scrape reports the failure instead of no depth. *)
Theorem scrape_is_stats e w :
  let run := Collect e w in
  w_db run.2 = w_db w ∧
  ((w_faults w = [] → ∃ stats, Stats e w = (Ok stats, w) ∧
      ∃ samples, run = (Ok samples, w) ∧ samples ≡ₚ gauge <$> stats) ∧
   (∀ o fs, w_faults w = o :: fs → o ≠ Works →
      ∃ x, run.1 = Ok [InvalidMetric x] ∧ lost x)).
Proof.
  intros run. split_and!.
  - unfold run, Collect. rewrite run_bind, run_try.
    destruct (neutral_pool_query "queue depth" (λ (_ : Env) db, stat_rows db) e w) as [Hdb _].
    by destruct (pool_query _ _ e w) as [[]].
  - intros Hf. exists (sql_stats (w_db w)). unfold Stats. rewrite pool_query_quiet by done.
    split; [done|]. exists (gauge <$> stat_rows (w_db w)). unfold run, Collect.
    rewrite run_bind, run_try, pool_query_quiet by done. split; [done|].
    unfold sql_stats. by rewrite order_by_text2_perm.
  - intros o fs Hf Ho. unfold run, Collect. rewrite run_bind, run_try.
    unfold pool_query, pool_stmt. rewrite run_bind. unfold round_trip. rewrite Hf.
    exists (ErrSQL "queue depth" ConnectionError).
    split; [by destruct o|by eexists].
Qed.
End depth.
