(* ===== verification/Users.v ===== *)
(** * Users, grants and tokens

    [backend/internal/users]: the permission checks ([permissions.go]), the user and
    grant tables behind them ([users.go]), the seeding of the first administrator
    ([seed.go]) and the tokens ([jwt.go]).  [bcrypt] and the JWT library are the
    parameters [Bcrypt] and [JWT]. *)

From S2P Require Import Prelude.
From S2P Require Import Store.
From S2P Require Import Avro.
From S2P Require Import Text.
From S2P Require Import Runtime.
From S2P Require Import Model.

(** ** Permissions *)

(** [users.Grant] *)
Record Grant := mkGrant {
  grant_ID : string;
  grant_UserID : string;
  Action : string;
  TopicPattern : string;
  ConsumerGroup : string;
  grant_CreatedAt : Z;
}.

Definition MatchesPattern (pattern topic : string) : bool :=
  if bool_decide (pattern = "*") then true
  else match CutSuffix pattern ".*" with
       | Some prefix => HasPrefix topic (prefix +:+ ".")
       | None => bool_decide (pattern = topic)
       end.

Fixpoint HasGrant (grants : list Grant) (action topic : string) : bool :=
  match grants with
  | [] => false
  | g :: gs =>
      if bool_decide (Action g = action) && MatchesPattern (TopicPattern g) topic
      then true else HasGrant gs action topic
  end.

Definition HasDequeueAccess (grants : list Grant) (topic : string) : bool :=
  HasGrant grants "write" topic || HasGrant grants "consume" topic.

(** The loop of [HasConsumerGroupAccess], with [hasAnyConsumeForTopic]. *)
Fixpoint group_access_loop (hasAny : bool) (grants : list Grant)
    (topic consumerGroup : string) : bool :=
  match grants with
  | [] => negb hasAny
  | g :: gs =>
      if negb (bool_decide (Action g = "consume")) || negb (MatchesPattern (TopicPattern g) topic)
      then group_access_loop hasAny gs topic consumerGroup
      else if bool_decide (ConsumerGroup g = consumerGroup) then true
      else group_access_loop true gs topic consumerGroup
  end.

Definition HasConsumerGroupAccess (grants : list Grant) (topic consumerGroup : string) : bool :=
  group_access_loop false grants topic consumerGroup.

(** [g] grants [action] on [topic]. *)
Definition grants_action (action topic : string) (g : Grant) : Prop :=
  Action g = action ∧ MatchesPattern (TopicPattern g) topic = true.

(** What a topic pattern matches: [*] everything, [p.*] exactly the topics with a
    further component below [p] - not [p] itself - and any other pattern exactly the
    topic of that name. *)
Theorem pattern_meaning topic p :
  MatchesPattern "*" topic = true ∧
  (MatchesPattern (p +:+ ".*") topic = true ↔ ∃ rest, topic = p +:+ "." +:+ rest) ∧
  MatchesPattern (p +:+ ".*") p = false ∧
  (p ≠ "*" → HasSuffix p ".*" = false → (MatchesPattern p topic = true ↔ p = topic)).
Proof.
  assert (∀ t, MatchesPattern (p +:+ ".*") t = true ↔ ∃ rest, t = p +:+ "." +:+ rest) as Hp.
  { intros t. unfold MatchesPattern. rewrite bool_decide_false.
    2: { intros H. apply (f_equal String.length) in H. rewrite string_length_app in H.
         simpl in H. lia. }
    rewrite (proj2 (CutSuffix_spec (p +:+ ".*") ".*" p) eq_refl), HasPrefix_spec.
    f_equiv. intros rest. by rewrite string_app_assoc. }
  split_and!; [done|apply Hp| |].
  - apply not_true_iff_false. rewrite Hp. intros [rest H].
    apply (f_equal String.length) in H. rewrite !string_length_app in H. simpl in H. lia.
  - intros Hs Hsuf. unfold MatchesPattern. rewrite bool_decide_false by done.
    apply CutSuffix_None in Hsuf as ->. apply bool_decide_eq_true.
Qed.

Lemma HasGrant_spec grants action topic :
  HasGrant grants action topic = true ↔ ∃ g, g ∈ grants ∧ grants_action action topic g.
Proof.
  unfold grants_action. induction grants as [|g gs IH]; simpl.
  - split; [done|]. intros (g & Hg & _). by destruct (not_elem_of_nil g).
  - destruct (bool_decide _ && _) eqn:Hb; reflect_bools.
    + split; [|done]. intros _. exists g. split; [by left|done].
    + rewrite IH. split.
      * intros (g' & Hg & ?). exists g'. split; [by right|done].
      * intros (g' & [->|Hg]%elem_of_cons & Ha & Hm); [|by exists g'].
        by rewrite bool_decide_true, Hm in Hb.
Qed.

Lemma group_access_loop_spec hasAny grants topic group :
  group_access_loop hasAny grants topic group = true ↔
  Exists (λ g, grants_action "consume" topic g ∧ ConsumerGroup g = group) grants ∨
  (hasAny = false ∧ ¬ Exists (grants_action "consume" topic) grants).
Proof.
  revert hasAny. induction grants as [|g gs IH]; intros hasAny; cbn [group_access_loop].
  - rewrite negb_true_iff, !Exists_nil. tauto.
  - rewrite !Exists_cons. cbv beta. destruct (negb _ || negb _) eqn:Hb.
    + assert (¬ grants_action "consume" topic g) as Hn.
      { intros [Ha Hm]. rewrite Hm, bool_decide_true in Hb; done. }
      rewrite IH. tauto.
    + assert (grants_action "consume" topic g) as Hg.
      { apply orb_false_iff in Hb as [?%negb_false_iff ?%negb_false_iff]. by reflect_bools. }
      clear Hb. case_bool_decide as Hc; [split; [intros _; by left; left|done]|]. rewrite IH. split.
      * intros [?|[? _]]; [by left; right|done].
      * intros [[[_ ?]|?]|[_ Hn]]; [done|by left|]. destruct Hn. by left.
Qed.

(** The restriction to groups is opt-in: a caller has access to a group of a topic
    exactly if one of its [consume] grants matches the topic and names the group, or
    none of them matches the topic - whatever other grants it holds; so every group is
    open to a caller without [consume] grants, and a first one closes all the others. *)
Theorem group_access_meaning grants topic group :
  (HasConsumerGroupAccess grants topic group = true ↔
   (∃ g, g ∈ grants ∧ grants_action "consume" topic g ∧ ConsumerGroup g = group) ∨
   HasGrant grants "consume" topic = false) ∧
  (∀ g other, grants_action "consume" topic g → ConsumerGroup g ≠ other →
     HasGrant grants "consume" topic = false →
     HasConsumerGroupAccess grants topic other = true ∧
     HasConsumerGroupAccess (g :: grants) topic other = false).
Proof.
  assert (∀ gs t c, HasConsumerGroupAccess gs t c = true ↔
    (∃ g, g ∈ gs ∧ grants_action "consume" t g ∧ ConsumerGroup g = c) ∨
    HasGrant gs "consume" t = false) as Hacc.
  { intros gs t c. unfold HasConsumerGroupAccess.
    rewrite group_access_loop_spec, <-(not_true_iff_false (HasGrant _ _ _)), HasGrant_spec.
    rewrite !Exists_exists. tauto. }
  split; [apply Hacc|]. intros g other Hg Hne Hno. split; [apply Hacc; by right|].
  apply not_true_iff_false. rewrite Hacc. intros [(g' & [->|Hin]%elem_of_cons & Hg' & <-)|Hno'].
  - done.
  - apply not_true_iff_false in Hno. apply Hno, HasGrant_spec. eauto.
  - apply not_true_iff_false in Hno'. apply Hno', HasGrant_spec. exists g. split; [by left|done].
Qed.

(** ** The store *)

(** [bcrypt]: [GenerateFromPassword] with a random salt, and [CompareHashAndPassword]. *)
Class Bcrypt := {
  GenerateFromPassword : string → string → option string;
  CompareHashAndPassword : string → string → bool;
}.
Class BcryptLaws `{BC : Bcrypt} : Prop := {
  generated_compares salt p h :
    GenerateFromPassword salt p = Some h → CompareHashAndPassword h p = true;
}.

(** [users.User] *)
Record User := mkUser {
  user_ID : string;
  Username : string;
  IsAdmin : bool;
  user_CreatedAt : Z;
  user_UpdatedAt : Z;
}.

(** [action IN ('read', 'write', 'admin', 'consume')] *)
Definition valid_action (action : string) : Prop :=
  action ∈ ["read"; "write"; "admin"; "consume"].
#[export] Instance valid_action_dec a : Decision (valid_action a).
Proof. unfold valid_action. apply _. Defined.

(** Two rows collide in [uq_user_grants_consume]. *)
Definition grant_clash (g g' : GrantRow) : Prop :=
  g_action g = "consume" ∧ g_action g' = "consume" ∧ g_user_id g = g_user_id g' ∧
  g_topic_pattern g = g_topic_pattern g' ∧ g_consumer_group g = g_consumer_group g' ∧
  g_consumer_group g ≠ None.
#[export] Instance grant_clash_dec g g' : Decision (grant_clash g g').
Proof. unfold grant_clash. apply _. Defined.

Section user_store.
Context `{PG : Postgres} `{ST : Storage} `{BC : Bcrypt}.

(** The [UNIQUE] constraint on [username] leaves room for [name] under [id]. *)
Definition username_free (id : uuid) (name : string) (us : gmap uuid UserRow) : Prop :=
  map_Forall (λ j u, j ≠ id → u_username u ≠ name) us.
#[export] Instance username_free_dec id name us : Decision (username_free id name us).
Proof. unfold username_free. apply _. Defined.

(** What the constraints say of the two tables. *)
Record users_ok (db : DB) : Prop := {
  ok_username i j u u' : users db !! i = Some u → users db !! j = Some u' →
    u_username u = u_username u' → i = j;
  ok_grant_user i g : user_grants db !! i = Some g → is_Some (users db !! g_user_id g);
  ok_grant_unique i j g g' : user_grants db !! i = Some g → user_grants db !! j = Some g' →
    i ≠ j → ¬ grant_clash g g';
  ok_grant_action i g : user_grants db !! i = Some g → valid_action (g_action g);
}.

Definition scan_user (id : uuid) (u : UserRow) : User :=
  mkUser id (u_username u) (u_is_admin u) (u_created_at u) (u_updated_at u).
Definition scan_grant (id : uuid) (g : GrantRow) : Grant :=
  mkGrant id (g_user_id g) (g_action g) (g_topic_pattern g) (default "" (g_consumer_group g))
    (g_created_at g).

(** [isUniqueViolation(err)]: SQLSTATE 23505. *)
Definition isUniqueViolation (x : Error) : bool :=
  match x with ErrSQL _ UniqueViolation => true | _ => false end.
Definition or_duplicate {A} (m : M A) : M A :=
  r ← try m;
  match r with
  | Ok a => mret a
  | Err x => fail (if isUniqueViolation x then ErrDuplicate else x)
  end.

Definition sql_insert_user (username hash : string) (isAdmin : bool) (e : Env) (db : DB)
    : result PgError (User * DB) :=
  let id := new_uuid e 0 in
  let u := mkUserRow username hash isAdmin (pg_now e) (pg_now e) in
  if decide (users db !! id = None ∧ username_free id username (users db))
  then Ok (scan_user id u, set_users (<[id:=u]> (users db)) db)
  else Err UniqueViolation.

(** [salt] is the randomness of [GenerateFromPassword]. *)
Definition Create (salt username plainPassword : string) (isAdmin : bool) : M User :=
  match GenerateFromPassword salt plainPassword with
  | None => fail ErrHashPassword
  | Some hash => or_duplicate (pool_stmt "create user" (sql_insert_user username hash isAdmin))
  end.

Definition user_named (username : string) (db : DB) : option (uuid * UserRow) :=
  head (map_to_list (filter (λ iu, u_username iu.2 = username) (users db))).
Arguments user_named : simpl never.

Definition GetByUsername (username : string) : M (User * string) :=
  row ← pool_query "get user" (λ _ db, user_named username db);
  match row with
  | None => fail ErrUserNotFound
  | Some (id, u) => mret (scan_user id u, u_password_hash u)
  end.

Definition GetByID (id : uuid) : M User :=
  row ← pool_query "get user" (λ _ db, users db !! id);
  match row with None => fail ErrUserNotFound | Some u => mret (scan_user id u) end.

Definition ListUsers : M (list User) :=
  pool_query "list users"
    (λ _ db, (λ iu, scan_user iu.1 iu.2) <$>
               order_by_text (λ iu, u_username iu.2) (map_to_list (users db))).

Definition sql_update_user (id : uuid) (username passwordHash : option string)
    (isAdmin : option bool) (e : Env) (db : DB) : result PgError (option User * DB) :=
  match users db !! id with
  | None => Ok (None, db)
  | Some u =>
      let u' := mkUserRow (default (u_username u) username)
                  (default (u_password_hash u) passwordHash)
                  (default (u_is_admin u) isAdmin) (u_created_at u) (pg_now e) in
      if decide (username_free id (u_username u') (users db))
      then Ok (Some (scan_user id u'), set_users (<[id:=u']> (users db)) db)
      else Err UniqueViolation
  end.

Definition Update (salt : string) (id : uuid) (username plainPassword : option string)
    (isAdmin : option bool) : M User :=
  match username, plainPassword, isAdmin with
  | None, None, None => GetByID id
  | _, _, _ =>
      let stmt passwordHash :=
        row ← or_duplicate (pool_stmt "update user"
                (sql_update_user id username passwordHash isAdmin));
        match row with None => fail ErrUserNotFound | Some u => mret u end in
      match plainPassword with
      | None => stmt None
      | Some p =>
          match GenerateFromPassword salt p with
          | None => fail ErrHashPassword
          | Some hash => stmt (Some hash)
          end
      end
  end.

(** [DELETE FROM users WHERE id = $1], [ON DELETE CASCADE] on the grants. *)
Definition sql_delete_user (id : uuid) (_ : Env) (db : DB) : result PgError (Z * DB) :=
  Ok (match users db !! id with Some _ => 1 | None => 0 end,
      set_grants (filter (λ ig, g_user_id ig.2 ≠ id) (user_grants db))
        (set_users (delete id (users db)) db)).

Definition Delete (id callerID : uuid) : M unit :=
  if bool_decide (id = callerID) then fail ErrCannotDeleteSelf
  else
    rows ← pool_stmt "delete user" (sql_delete_user id);
    guard_ok (negb (rows =? 0)) ErrUserNotFound.

Definition sql_insert_grant (userID action topicPattern : string)
    (consumerGroup : option string) (e : Env) (db : DB) : result PgError (Grant * DB) :=
  let id := new_uuid e 0 in
  let g := mkGrantRow userID action topicPattern consumerGroup (pg_now e) in
  if decide (valid_action action) then
    if decide (user_grants db !! id = None ∧
               map_Forall (λ _ g', ¬ grant_clash g g') (user_grants db)) then
      match users db !! userID with
      | None => Err ForeignKeyViolation
      | Some _ => Ok (scan_grant id g, set_grants (<[id:=g]> (user_grants db)) db)
      end
    else Err UniqueViolation
  else Err CheckViolation.

Definition AddGrant (userID action topicPattern : string) : M Grant :=
  pool_stmt "add grant" (sql_insert_grant userID action topicPattern None).

Definition AddConsumerGroupGrant (userID topicPattern consumerGroup : string) : M Grant :=
  or_duplicate (pool_stmt "add grant"
    (sql_insert_grant userID "consume" topicPattern (Some consumerGroup))).

Definition grants_of (userID : uuid) (db : DB) : list Grant :=
  (λ ig, scan_grant ig.1 ig.2) <$>
    order_by (λ ig, g_created_at ig.2)
      (map_to_list (filter (λ ig, g_user_id ig.2 = userID) (user_grants db))).

Definition ListGrants (userID : uuid) : M (list Grant) :=
  pool_query "list grants" (λ _ db, grants_of userID db).

Definition GetUserGrants (userID : uuid) : M (list Grant) := ListGrants userID.

Definition sql_delete_grant (grantID userID : uuid) (_ : Env) (db : DB)
    : result PgError (Z * DB) :=
  match user_grants db !! grantID with
  | Some g => if decide (g_user_id g = userID)
              then Ok (1, set_grants (delete grantID (user_grants db)) db) else Ok (0, db)
  | None => Ok (0, db)
  end.

Definition DeleteGrant (grantID userID : uuid) : M unit :=
  rows ← pool_stmt "delete grant" (sql_delete_grant grantID userID);
  guard_ok (negb (rows =? 0)) ErrUserNotFound.

Definition SeedAdminUser (salt username password : string) : M unit :=
  existing ← ListUsers;
  match existing with
  | _ :: _ => mret tt
  | [] =>
      if bool_decide (username = "") || bool_decide (password = "") then mret tt
      else
        r ← try (Create salt username password true);
        match r with
        | Ok _ | Err ErrDuplicate => mret tt
        | Err x => fail x
        end
  end.

(** ** The constraints hold *)

Definition keeps_users_ok (db db' : DB) : Prop := users_ok db → users_ok db'.
#[export] Instance keeps_users_ok_preorder : PreOrder keeps_users_ok.
Proof. split; [by intros db ?|]. intros db1 db2 db3 H1 H2 H. by apply H2, H1. Qed.

Lemma set_user_ok id u db :
  username_free id (u_username u) (users db) → users_ok db →
  users_ok (set_users (<[id:=u]> (users db)) db).
Proof.
  intros Hfree [Hn Hu Hc Ha]. split; simpl; [|intros i g Hg|done..].
  - intros i j ui uj [[<- <-]|[Hi Hui]]%lookup_insert_Some [[<- <-]|[Hj Huj]]%lookup_insert_Some Heq;
      [done| | |by eapply Hn].
    + by destruct (Hfree j uj Huj).
    + by destruct (Hfree i ui Hui).
  - apply lookup_insert_is_Some. destruct (decide (id = g_user_id g)); [by left|right].
    split; [done|]. by eapply Hu.
Qed.

Lemma sql_insert_user_ok username hash isAdmin e db u db' :
  sql_insert_user username hash isAdmin e db = Ok (u, db') → users_ok db → users_ok db'.
Proof.
  unfold sql_insert_user. case_decide as Hd; [|done]. destruct Hd. intros [= _ <-]. by apply set_user_ok.
Qed.

Lemma sql_update_user_ok id username hash isAdmin e db u db' :
  sql_update_user id username hash isAdmin e db = Ok (u, db') → users_ok db → users_ok db'.
Proof.
  unfold sql_update_user. destruct (users db !! id) as [u0|]; [|by intros [= _ <-]].
  case_decide as Hd; [|done]. intros [= _ <-]. by apply set_user_ok.
Qed.

Lemma sql_delete_user_ok id e db n db' :
  sql_delete_user id e db = Ok (n, db') → users_ok db → users_ok db'.
Proof.
  intros [= _ <-] [Hn Hu Hc Ha]. split; simpl.
  - intros i j u u' [_ Hi]%lookup_delete_Some [_ Hj]%lookup_delete_Some. by apply Hn.
  - intros i g [Hg Hne]%map_lookup_filter_Some. apply lookup_delete_is_Some.
    split; [by intros ->|]. by eapply Hu.
  - intros i j g g' [Hg _]%map_lookup_filter_Some [Hg' _]%map_lookup_filter_Some. by apply Hc.
  - intros i g [Hg _]%map_lookup_filter_Some. by eapply Ha.
Qed.

Lemma grant_clash_sym g g' : grant_clash g g' → grant_clash g' g.
Proof. unfold grant_clash. intros (?&?&?&?&?&?). repeat split; congruence. Qed.

Lemma sql_insert_grant_ok userID action pattern group e db g db' :
  sql_insert_grant userID action pattern group e db = Ok (g, db') → users_ok db → users_ok db'.
Proof.
  unfold sql_insert_grant. case_decide as Hact; [|done]. case_decide as Hd; [|done].
  destruct Hd as [Hid Hfree]. destruct (users db !! userID) as [u|] eqn:Huser; [|done].
  intros [= _ <-] [Hn Hu Hc Ha]. split; simpl; [done|..].
  - intros i gr [[<- <-]|[_ Hg]]%lookup_insert_Some; [by simpl; rewrite Huser|by eapply Hu].
  - intros i j gi gj [[<- <-]|[_ Hi]]%lookup_insert_Some [[<- <-]|[_ Hj]]%lookup_insert_Some Hne;
      [done|by apply (Hfree j)| |by eapply Hc].
    intros Hcl%grant_clash_sym. by apply (Hfree i gi Hi).
  - intros i gr [[<- <-]|[_ Hg]]%lookup_insert_Some; [done|by eapply Ha].
Qed.

Lemma sql_delete_grant_ok grantID userID e db n db' :
  sql_delete_grant grantID userID e db = Ok (n, db') → users_ok db → users_ok db'.
Proof.
  unfold sql_delete_grant. intros H [Hn Hu Hc Ha].
  destruct (user_grants db !! grantID) as [g|]; [case_decide|]; simplify_eq; [|by split..].
  split; simpl; [done|..].
  - intros i gr [_ Hg]%lookup_delete_Some. by eapply Hu.
  - intros i j gi gj [_ Hi]%lookup_delete_Some [_ Hj]%lookup_delete_Some. by apply Hc.
  - intros i gr [_ Hg]%lookup_delete_Some. by eapply Ha.
Qed.

(** The calls of the store that change its tables. *)
Inductive store_call :=
| call_Create (salt username plainPassword : string) (isAdmin : bool)
| call_Update (salt : string) (id : uuid) (username plainPassword : option string)
    (isAdmin : option bool)
| call_Delete (id callerID : uuid)
| call_AddGrant (userID action topicPattern : string)
| call_AddConsumerGroupGrant (userID topicPattern consumerGroup : string)
| call_DeleteGrant (grantID userID : uuid)
| call_SeedAdminUser (salt username password : string).

Definition run_store_call (c : store_call) : M unit :=
  match c with
  | call_Create salt name p adm => Create salt name p adm;; mret tt
  | call_Update salt id name p adm => Update salt id name p adm;; mret tt
  | call_Delete id caller => Delete id caller
  | call_AddGrant u a p => AddGrant u a p;; mret tt
  | call_AddConsumerGroupGrant u p g => AddConsumerGroupGrant u p g;; mret tt
  | call_DeleteGrant g u => DeleteGrant g u
  | call_SeedAdminUser salt name p => SeedAdminUser salt name p
  end.

Lemma users_op_neutral {A} (m : M A) : neutral m → op keeps_users_ok m.
Proof. intros Hm. apply (quiet_op keeps_users_ok). by apply neutral_quiet. Qed.

Lemma or_duplicate_op {A} (m : M A) : op keeps_users_ok m → op keeps_users_ok (or_duplicate m).
Proof.
  intros Hm. apply (op_bind keeps_users_ok); [by apply op_try|].
  intros r. apply users_op_neutral. destruct r; solve_neutral.
Qed.

Lemma stmt_op {A} what (q : Env → DB → result PgError (A * DB)) :
  (∀ e db a db', q e db = Ok (a, db') → keeps_users_ok db db') →
  op keeps_users_ok (pool_stmt what q).
Proof. intros Hq. apply (op_pool_stmt keeps_users_ok). intros e db a db' _ H. split; [by eapply Hq|done]. Qed.

Lemma Create_op salt name p adm : op keeps_users_ok (Create salt name p adm).
Proof.
  unfold Create. destruct (GenerateFromPassword salt p);
    [|apply users_op_neutral; solve_neutral].
  apply or_duplicate_op, stmt_op. intros * Hq Hok. by eapply sql_insert_user_ok.
Qed.

Lemma Update_op salt id name p adm : op keeps_users_ok (Update salt id name p adm).
Proof.
  assert (∀ h, op keeps_users_ok
    (row ← or_duplicate (pool_stmt "update user" (sql_update_user id name h adm));
     match row with None => fail ErrUserNotFound | Some u => mret u end)) as Hstmt.
  { intros h. apply (op_bind keeps_users_ok).
    - apply or_duplicate_op, stmt_op. intros * Hq Hok. by eapply sql_update_user_ok.
    - intros r. apply users_op_neutral. solve_neutral. }
  unfold Update, GetByID. destruct p as [p|]; [destruct (GenerateFromPassword salt p)|];
    destruct name, adm; try done; apply users_op_neutral; solve_neutral.
Qed.

Lemma run_store_call_op c : op keeps_users_ok (run_store_call c).
Proof.
  assert (∀ A (m : M A), op keeps_users_ok m → op keeps_users_ok (m;; mret tt)) as Hseq.
  { intros A m Hm. apply (op_bind keeps_users_ok); [done|]. intros _. apply users_op_neutral; solve_neutral. }
  assert (∀ b, op keeps_users_ok (guard_ok b ErrUserNotFound)) as Hguard.
  { intros b. apply users_op_neutral; solve_neutral. }
  destruct c; simpl.
  - apply Hseq, Create_op.
  - apply Hseq, Update_op.
  - unfold Delete. case_match; [apply users_op_neutral; solve_neutral|].
    apply (op_bind keeps_users_ok); [|done]. apply stmt_op. intros * Hq Hok. by eapply sql_delete_user_ok.
  - apply Hseq, stmt_op. intros * Hq Hok. by eapply sql_insert_grant_ok.
  - apply Hseq, or_duplicate_op, stmt_op. intros * Hq Hok. by eapply sql_insert_grant_ok.
  - unfold DeleteGrant. apply (op_bind keeps_users_ok); [|done].
    apply stmt_op. intros * Hq Hok. by eapply sql_delete_grant_ok.
  - unfold SeedAdminUser. apply (op_bind keeps_users_ok).
    + unfold ListUsers. apply users_op_neutral; solve_neutral.
    + intros [|]; [|apply users_op_neutral; solve_neutral].
      case_match; [apply users_op_neutral; solve_neutral|].
      apply (op_bind keeps_users_ok); [apply op_try, Create_op|].
      intros r. apply users_op_neutral; solve_neutral.
Qed.

(** The constraints of the user tables - unique usernames, grants only of existing
    users, no duplicate group grant, known actions - survive every sequence of calls
    of the store, at any times and under any faults. *)
Theorem user_store_invariant (calls : list (store_call * Env)) w :
  users_ok (w_db w) →
  users_ok (w_db (foldl (λ w ce, (run_store_call ce.1 ce.2 w).2) w calls)).
Proof.
  intros Hok. induction calls as [|[c e] calls IH] using rev_ind; [done|].
  rewrite foldl_app. simpl. by apply run_store_call_op.
Qed.

(** Grants follow their user: a successful [AddGrant] gives the action on exactly
    the topics its pattern matches, in addition to what was granted before, and a
    successful [Delete] of the user leaves no grant that names it. *)
Theorem grants_follow_user `{!PostgresLaws} u action pattern g e w w1 caller e2 w2 w3 :
  AddGrant u action pattern e w = (Ok g, w1) →
  w_db w2 = w_db w1 → Delete u caller e2 w2 = (Ok tt, w3) →
  (∀ act topic, HasGrant (grants_of u (w_db w1)) act topic = true ↔
     (act = action ∧ MatchesPattern pattern topic = true) ∨
     HasGrant (grants_of u (w_db w)) act topic = true) ∧
  users (w_db w3) !! u = None ∧ grants_of u (w_db w3) = [] ∧ u ≠ caller ∧
  (∀ u', u' ≠ u → ∀ act topic, HasGrant (grants_of u' (w_db w3)) act topic = true ↔
     HasGrant (grants_of u' (w_db w1)) act topic = true).
Proof.
  assert (∀ db act topic u', HasGrant (grants_of u' db) act topic = true ↔
    ∃ i gr, user_grants db !! i = Some gr ∧ g_user_id gr = u' ∧ g_action gr = act ∧
      MatchesPattern (g_topic_pattern gr) topic = true) as Hspec.
  { intros db act topic u'. rewrite HasGrant_spec. unfold grants_of, grants_action. split.
    - intros (g' & ([i gr] & -> & Hin)%list_elem_of_fmap & Ha & Hm).
      rewrite order_by_perm in Hin.
      apply elem_of_map_to_list, map_lookup_filter_Some in Hin as [Hgr Hu]. by exists i, gr.
    - intros (i & gr & Hgr & Hu & Ha & Hm). exists (scan_grant i gr). split; [|done].
      apply list_elem_of_fmap. exists (i, gr). split; [done|]. rewrite order_by_perm.
      by apply elem_of_map_to_list, map_lookup_filter_Some. }
  intros (fs & db1 & Hq & ->)%pool_stmt_Ok Hdb Hdel.
  unfold sql_insert_grant in Hq. case_decide; [|done]. case_decide as Hd; [|done].
  destruct Hd as [Hid Hfree]. destruct (users (w_db w) !! u); [|done]. injection Hq as _ <-.
  simpl in *. unfold Delete in Hdel. case_bool_decide as Hne; [done|].
  apply bind_Ok in Hdel as (n & w4 & (fs4 & db4 & [= <- <-] & ->)%pool_stmt_Ok & Hdel).
  apply guard_ok_Ok in Hdel as [_ ->]. simpl. rewrite Hdb.
  split_and!; [|apply lookup_delete_eq| |done|].
  - intros act topic. rewrite !Hspec. simpl. split.
    + intros (i & gr & [[<- <-]|[_ Hgr]]%lookup_insert_Some & Hu & Ha & Hm); [by left|right; by exists i, gr].
    + intros [[-> Hm]|(i & gr & Hgr & Hu & Ha & Hm)].
      * exists (new_uuid e 0). eexists. by rewrite lookup_insert_eq.
      * exists i, gr. rewrite lookup_insert_ne; [done|]. intros <-. congruence.
  - unfold grants_of. simpl. rewrite map_empty_filter_2, map_to_list_empty.
    + assert (order_by (λ ig : uuid * GrantRow, g_created_at ig.2) [] = []) as ->
        by (apply Permutation_nil_r, order_by_perm).
      reflexivity.
    + intros i gr [_ Hu]%map_lookup_filter_Some Hu'. by apply Hu.
  - intros u' Hu' act topic. rewrite !Hspec. simpl. split.
    + intros (i & gr & [Hgr _]%map_lookup_filter_Some & ?). by exists i, gr.
    + intros (i & gr & Hgr & Hu & ?). exists i, gr. split; [|done].
      apply map_lookup_filter_Some. split; [done|]. simpl. congruence.
Qed.

Lemma or_duplicate_Ok {A} (m : M A) e w a w' :
  or_duplicate m e w = (Ok a, w') → m e w = (Ok a, w').
Proof.
  unfold or_duplicate. rewrite run_bind, run_try.
  destruct (m e w) as [[a'|x] w1]; simpl; [by intros [= <- <-]|done].
Qed.

Lemma user_named_Some db i u :
  users_ok db → users db !! i = Some u → user_named (u_username u) db = Some (i, u).
Proof.
  intros Hok Hu. unfold user_named.
  destruct (map_to_list (filter _ (users db))) as [|[j uj] l] eqn:Hl.
  - assert ((i, u) ∈ map_to_list (filter (λ iu, u_username iu.2 = u_username u) (users db)))
      as Hin by by apply elem_of_map_to_list, map_lookup_filter_Some.
    rewrite Hl in Hin. by destruct (not_elem_of_nil (i, u)).
  - assert ((j, uj) ∈ map_to_list (filter (λ iu, u_username iu.2 = u_username u) (users db)))
      as Hin by (rewrite Hl; by left).
    apply elem_of_map_to_list, map_lookup_filter_Some in Hin as [Hj Hn]. simpl in Hn.
    assert (j = i) as -> by by eapply ok_username. simpl. by simplify_eq.
Qed.

(** Credentials: after [Create], and again after an [Update] that changes the
    password, looking the user up by name finds the account with a hash that accepts
    the password last set. *)
Theorem credentials_roundtrip `{!BcryptLaws} salt name p adm e w u w1 salt2 p2 adm2 e2 u2 w2 e3 :
  users_ok (w_db w) →
  Create salt name p adm e w = (Ok u, w1) →
  Update salt2 (user_ID u) None (Some p2) adm2 e2 w1 = (Ok u2, w2) →
  Username u = name ∧ IsAdmin u = adm ∧ user_ID u2 = user_ID u ∧ Username u2 = name ∧
  IsAdmin u2 = default adm adm2 ∧
  (∃ hash, (GetByUsername name e3 (set_faults [] w1)).1 = Ok (u, hash) ∧
     CompareHashAndPassword hash p = true) ∧
  (∃ hash, (GetByUsername name e3 (set_faults [] w2)).1 = Ok (u2, hash) ∧
     CompareHashAndPassword hash p2 = true).
Proof.
  intros Hok Hcreate Hupd. unfold Create in Hcreate.
  destruct (GenerateFromPassword salt p) as [h1|] eqn:Hh1; [|done].
  apply or_duplicate_Ok in Hcreate as (fs & db1 & Hq & ->)%pool_stmt_Ok.
  pose proof (sql_insert_user_ok _ _ _ _ _ _ _ Hq Hok) as Hok1.
  unfold sql_insert_user in Hq. case_decide; [|done]. injection Hq as <- <-. simpl in *.
  unfold Update in Hupd. simpl in Hupd.
  destruct (GenerateFromPassword salt2 p2) as [h2|] eqn:Hh2; [|done].
  apply bind_Ok in Hupd as (r & w3 & Hrun & Hupd).
  apply or_duplicate_Ok in Hrun as (fs3 & db3 & Hq & ->)%pool_stmt_Ok.
  pose proof (sql_update_user_ok _ _ _ _ _ _ _ _ Hq Hok1) as Hok3.
  unfold sql_update_user in Hq. simpl in Hq. rewrite lookup_insert_eq in Hq.
  case_decide; [|done]. injection Hq as <- <-. apply ret_Ok in Hupd as [-> ->]. simpl in *.
  split_and!; try done.
  - exists h1. unfold GetByUsername. rewrite run_bind. unfold pool_query.
    rewrite pool_stmt_calm by done. simpl.
    pose proof (user_named_Some _ (new_uuid e 0) _ Hok1 (lookup_insert_eq _ _ _)) as Hn.
    simpl in Hn. rewrite Hn.
    split; [done|by eapply generated_compares].
  - exists h2. unfold GetByUsername. rewrite run_bind. unfold pool_query.
    rewrite pool_stmt_calm by done. simpl.
    pose proof (user_named_Some _ (new_uuid e 0) _ Hok3 (lookup_insert_eq _ _ _)) as Hn.
    simpl in Hn. rewrite Hn.
    split; [done|by eapply generated_compares].
Qed.
End user_store.

(** ** Tokens

    The JWT library: a token text decodes into an algorithm, claims and expiry, and is
    signed with a secret.  [ParseWithClaims] asks the key function for the key of the
    token's algorithm, and checks the signature and the expiry, where there is one. *)

Inductive Method := HMAC | OtherMethod.

(** [ExpiresAt] is a pointer; nothing reads [IssuedAt] or the registered subject, which repeats
    the name under the same key. *)
Record Claims := mkClaims {
  UserID : string;
  claims_Username : string;
  claims_IsAdmin : bool;
  ExpiresAt : option Z;
}.

Definition TokenDuration : Z := 15 * 60 * Second.

(** [jwt.NewNumericDate] truncates to whole seconds, its [TimePrecision]. *)
Definition NewNumericDate (t : Z) : Z := t - t `mod` Second.

Class JWT := {
  SignedString : Claims → string → option string;
  ParseWithClaims : string → (Method → option string) → Z → option Claims;
}.

(** Claims whose expiry is a whole number of seconds, and whose texts are UTF-8, come back from
    their token before the expiry; the token is refused from the expiry on, as is every other
    token that has one.  Nothing is said of tokens without expiry. *)
Class JWTLaws `{JW : JWT} : Prop := {
  signed_parses claims secret token now exp : SignedString claims secret = Some token →
    ValidString (UserID claims) = true → ValidString (claims_Username claims) = true →
    ExpiresAt claims = Some exp → exp `mod` Second = 0 → now < exp →
    ParseWithClaims token (λ m, match m with HMAC => Some secret | _ => None end) now =
      Some claims;
  signed_expires claims secret token key now exp : SignedString claims secret = Some token →
    ExpiresAt claims = Some exp → exp ≤ now → ParseWithClaims token key now = None;
  parsed_unexpired token key now claims exp :
    ParseWithClaims token key now = Some claims → ExpiresAt claims = Some exp → now < exp;
}.

Lemma NewNumericDate_whole t : NewNumericDate t `mod` Second = 0.
Proof.
  unfold NewNumericDate. rewrite (Z.div_mod t Second) at 1 by done.
  replace (Second * (t / Second) + t `mod` Second - t `mod` Second) with (t / Second * Second) by lia.
  by apply Z.mod_mul.
Qed.

Lemma NewNumericDate_bounds t : t - Second < NewNumericDate t ≤ t.
Proof. unfold NewNumericDate. pose proof (Z.mod_pos_bound t Second eq_refl). lia. Qed.

Section tokens.
Context `{JW : JWT}.

Definition IssueToken (secret userID username : string) (isAdmin : bool) (now : Z)
    : option string :=
  SignedString
    (mkClaims userID username isAdmin (Some (NewNumericDate (now + TokenDuration)))) secret.

Definition ParseToken (secret tokenString : string) (now : Z) : result Error Claims :=
  match ParseWithClaims tokenString
          (λ m, match m with HMAC => Some secret | OtherMethod => None end) now with
  | Some claims => Ok claims
  | None => Err ErrTokenInvalid
  end.

Context `{JWL : !JWTLaws}.

(** A token is accepted, with the claims it was issued for, exactly until its expiry, which is
    fifteen minutes after its issue, cut to the second; any token that has an expiry is
    refused from then on, whatever its text. *)
Theorem token_lifetime secret uid name adm now token later :
  ValidString uid = true → ValidString name = true →
  IssueToken secret uid name adm now = Some token →
  let exp := NewNumericDate (now + TokenDuration) in
  ParseToken secret token later =
    (if later <? exp then Ok (mkClaims uid name adm (Some exp)) else Err ErrTokenInvalid) ∧
  now + TokenDuration - Second < exp ≤ now + TokenDuration ∧
  (∀ t claims x, ParseToken secret t later = Ok claims → ExpiresAt claims = Some x → later < x).
Proof.
  intros Hu Hn Hs exp. unfold IssueToken in Hs. unfold ParseToken. split; [|split; [apply NewNumericDate_bounds|]].
  - destruct (later <? exp) eqn:Hlt; [apply Z.ltb_lt in Hlt|apply Z.ltb_ge in Hlt].
    + rewrite (signed_parses _ _ _ later exp Hs); try done. apply NewNumericDate_whole.
    + by rewrite (signed_expires _ _ _ _ later exp Hs).
  - intros t claims x. destruct (ParseWithClaims _ _ _) eqn:Hp; [|done].
    intros [= <-] Hx. by eapply parsed_unexpired.
Qed.
End tokens.
