(* ===== verification/Grpc.v ===== *)
(** * The gRPC service

    [backend/internal/server/grpc.go], the interceptor of [backend/internal/auth] and
    the way [backend/cmd/server/main.go] installs it: validation of the requests,
    authorisation by grants, the calls of the queue service and the status codes its
    errors map to, and the polling loop of [Subscribe]. *)

From S2P Require Import Prelude.
From S2P Require Import Store.
From S2P Require Import Avro.
From S2P Require Import Runtime.
From S2P Require Import Model.
From S2P Require Import TopicConfig.
From S2P Require Import Throttle.
From S2P Require Import Schema.
From S2P Require Import Dequeue.
From S2P Require Import Enqueue.
From S2P Require Import Lifecycle.
From S2P Require Import Replay.
From S2P Require Import Query.
From S2P Require Import Users.

(** The status codes the handlers return. *)
Inductive Code :=
| InvalidArgument | PermissionDenied | NotFound | FailedPrecondition | Internal
| Unauthenticated.

(** The messages of [queue.proto]. *)
Record EnqueueRequest := mkEnqueueRequest {
  enq_Topic : string; enq_Payload : string;
  enq_Metadata : option (gmap string string); enq_Key : option string }.
Record DequeueRequest := mkDequeueRequest {
  deq_Topic : string; deq_VisibilityTimeoutSeconds : option Z; deq_ConsumerGroup : string }.
Record BatchDequeueRequest := mkBatchDequeueRequest {
  bat_Topic : string; bat_Count : Z; bat_VisibilityTimeoutSeconds : option Z;
  bat_ConsumerGroup : string }.
Record AckRequest := mkAckRequest { ack_Id : string; ack_ConsumerGroup : string }.
Record NackRequest := mkNackRequest {
  nack_Id : string; nack_Error : string; nack_ConsumerGroup : string }.
Record SubscribeRequest := mkSubscribeRequest {
  sub_Topic : string; sub_VisibilityTimeoutSeconds : option Z; sub_ConsumerGroup : string }.
Record DequeueResponse := mkDequeueResponse {
  res_Id : string; res_Topic : string; res_Payload : string;
  res_Metadata : option (gmap string string); res_CreatedAt : Z; res_RetryCount : Z;
  res_MaxRetries : Z; res_Key : option string }.

Record SubscribeResponse := mkSubscribeResponse {
  sent_Id : string; sent_Topic : string; sent_Payload : string;
  sent_Metadata : option (gmap string string); sent_CreatedAt : Z; sent_RetryCount : Z }.

(** [int32(x)] *)
Definition int32 (x : Z) : Z := (x + 2 ^ 31) `mod` 2 ^ 32 - 2 ^ 31.

Definition DequeueResponse_of (msg : Message) : DequeueResponse :=
  mkDequeueResponse (ID msg) (msg_Topic msg) (Payload msg) (Metadata msg) (CreatedAt msg)
    (int32 (RetryCount msg)) (int32 (msg_MaxRetries msg)) (Key msg).

Definition SubscribeResponse_of (msg : Message) : SubscribeResponse :=
  mkSubscribeResponse (ID msg) (msg_Topic msg) (Payload msg) (Metadata msg) (CreatedAt msg)
    (int32 (RetryCount msg)).

(** [time.Duration( *ptr) * time.Second], a 64-bit product. *)
Definition resolveVisibilityTimeoutFromProto (ptr : option Z) : result Code Z :=
  match ptr with
  | None => Ok 0
  | Some n => if n =? 0 then Err InvalidArgument else Ok (wrap64 (n * Second))
  end.

Section grpc.
Context `{PG : Postgres} `{ST : Storage} `{CO : Codecs}.

(** A handler answers with a response or a status. *)
Abbreviation RPC A := (M (result Code A)).

Definition reply {A} (a : A) : RPC A := mret (Ok a).
Definition abort {A} (c : Code) : RPC A := mret (Err c).
(** [x, err := ...; if err != nil { return nil, err }] *)
Definition rpc_bind {A B} (m : RPC A) (k : A → RPC B) : RPC B :=
  r ← m; match r with Ok a => k a | Err c => abort c end.

(** The claims of the context, [None] if no interceptor put any there, and whether the
    server has a user store. *)
Record Caller := mkCaller { claims : option Claims; has_store : bool }.

(** The preamble of the two checks: whether grants must be looked up, and whose. *)
Definition restricted (c : Caller) : option string :=
  if negb (has_store c) then None
  else match claims c with
       | None => None
       | Some cl => if claims_IsAdmin cl then None else Some (UserID cl)
       end.

Definition checkGrant (c : Caller) (action topic : string) : RPC unit :=
  match restricted c with
  | None => reply tt
  | Some uid =>
      grants ← try (GetUserGrants uid);
      match grants with
      | Err _ => abort Internal
      | Ok grants => if HasGrant grants action topic then reply tt else abort PermissionDenied
      end
  end.

(** What [checkDequeueGrant] asks of the grants. *)
Definition may_dequeue (grants : list Grant) (topic consumerGroup : string) : bool :=
  HasDequeueAccess grants topic &&
  (bool_decide (consumerGroup = "") || HasConsumerGroupAccess grants topic consumerGroup).

Definition checkDequeueGrant (c : Caller) (topic consumerGroup : string) : RPC unit :=
  match restricted c with
  | None => reply tt
  | Some uid =>
      grants ← try (GetUserGrants uid);
      match grants with
      | Err _ => abort Internal
      | Ok grants => if may_dequeue grants topic consumerGroup then reply tt
                     else abort PermissionDenied
      end
  end.

Context (s : Service).

Definition rpc_Enqueue (c : Caller) (req : EnqueueRequest) : RPC string :=
  if bool_decide (enq_Topic req = "") then abort InvalidArgument
  else if bool_decide (enq_Payload req = "") then abort InvalidArgument
  else rpc_bind (checkGrant c "write" (enq_Topic req)) (λ _,
    r ← try (Enqueue s (enq_Topic req) (enq_Payload req) (enq_Metadata req) (enq_Key req));
    match r with
    | Ok id => reply id
    | Err (ErrSchemaValidation _) => abort InvalidArgument
    | Err ErrTopicNotRegistered => abort FailedPrecondition
    | Err _ => abort Internal
    end).

(** The dispatch on the consumer group. *)
Definition dequeue_for (topic group : string) (vt : Z) : M Message :=
  if bool_decide (group = "") then Dequeue s topic vt else DequeueForGroup s topic group vt.

Definition rpc_Dequeue (c : Caller) (req : DequeueRequest) : RPC DequeueResponse :=
  if bool_decide (deq_Topic req = "") then abort InvalidArgument
  else match resolveVisibilityTimeoutFromProto (deq_VisibilityTimeoutSeconds req) with
  | Err c => abort c
  | Ok vt =>
      rpc_bind (checkDequeueGrant c (deq_Topic req) (deq_ConsumerGroup req)) (λ _,
        r ← try (dequeue_for (deq_Topic req) (deq_ConsumerGroup req) vt);
        match r with
        | Ok msg => reply (DequeueResponse_of msg)
        | Err ErrNoMessage => abort NotFound
        | Err _ => abort Internal
        end)
  end.

Definition rpc_BatchDequeue (c : Caller) (req : BatchDequeueRequest)
    : RPC (list DequeueResponse) :=
  if bool_decide (bat_Topic req = "") then abort InvalidArgument
  else if (bat_Count req <? 1) || (1000 <? bat_Count req) then abort InvalidArgument
  else match resolveVisibilityTimeoutFromProto (bat_VisibilityTimeoutSeconds req) with
  | Err c => abort c
  | Ok vt =>
      rpc_bind (checkDequeueGrant c (bat_Topic req) (bat_ConsumerGroup req)) (λ _,
        r ← try (if bool_decide (bat_ConsumerGroup req = "")
                 then DequeueN s (bat_Topic req) (bat_Count req) vt
                 else DequeueNForGroup s (bat_Topic req) (bat_ConsumerGroup req)
                        (bat_Count req) vt);
        match r with
        | Ok batch => reply (DequeueResponse_of <$> batch)
        | Err ErrInvalidBatchSize => abort InvalidArgument
        | Err _ => abort Internal
        end)
  end.

(** The lookup of the topic with which [Ack] and [Nack] begin. *)
Definition topic_of (id : string) : RPC string :=
  r ← try (TopicForMessage id);
  match r with
  | Ok topic => reply topic
  | Err ErrNotFound => abort NotFound
  | Err _ => abort Internal
  end.

(** The mapping of the errors of an acknowledgement or rejection. *)
Definition settle (m : M unit) : RPC unit :=
  r ← try m;
  match r with
  | Ok _ => reply tt
  | Err ErrNotFound | Err ErrNotProcessing => abort NotFound
  | Err _ => abort Internal
  end.

Definition rpc_Ack (c : Caller) (req : AckRequest) : RPC unit :=
  if bool_decide (ack_Id req = "") then abort InvalidArgument
  else rpc_bind (topic_of (ack_Id req)) (λ topic,
    rpc_bind (checkDequeueGrant c topic (ack_ConsumerGroup req)) (λ _,
      settle (if bool_decide (ack_ConsumerGroup req = "") then Ack (ack_Id req)
              else AckForGroup (ack_Id req) (ack_ConsumerGroup req)))).

Definition rpc_Nack (c : Caller) (req : NackRequest) : RPC unit :=
  if bool_decide (nack_Id req = "") then abort InvalidArgument
  else rpc_bind (topic_of (nack_Id req)) (λ topic,
    rpc_bind (checkDequeueGrant c topic (nack_ConsumerGroup req)) (λ _,
      settle (if bool_decide (nack_ConsumerGroup req = "")
              then Nack s (nack_Id req) (nack_Error req)
              else NackForGroup s (nack_Id req) (nack_ConsumerGroup req) (nack_Error req)))).

(** ** Subscribe *)

Definition Millisecond : Z := 1000000.
Definition minBackoff : Z := 250 * Millisecond.
Definition maxBackoff : Z := 2 * Second.

(** The doubling of the wait, capped. *)
Definition next_backoff (backoff : Z) : Z :=
  if backoff <? maxBackoff then Z.min (backoff * 2) maxBackoff else backoff.

(** What the stream does during one iteration: whether its context is done before and
    after the dequeue and during the wait, and whether [Send] succeeds. *)
Record StreamTick := mkStreamTick {
  done_before : bool; done_after : bool; done_waiting : bool; send_ok : bool;
}.

(** How an iteration ends: the loop goes on with a new wait, [return nil], or an
    error; with the message sent, if any. *)
Inductive iteration :=
| continue_ (backoff : Z) (sent : option SubscribeResponse)
| return_nil
| return_err (c : Code)
| return_send_error.

Definition subscribe_iteration (req : SubscribeRequest) (vt backoff : Z) (t : StreamTick)
    : M iteration :=
  if done_before t then mret return_nil
  else
    r ← try (dequeue_for (sub_Topic req) (sub_ConsumerGroup req) vt);
    match r with
    | Err x =>
        if done_after t then mret return_nil
        else match x with
             | ErrNoMessage =>
                 if done_waiting t then mret return_nil
                 else mret (continue_ (next_backoff backoff) None)
             | _ => mret (return_err Internal)
             end
    | Ok msg =>
        if send_ok t then mret (continue_ minBackoff (Some (SubscribeResponse_of msg)))
        else mret return_send_error
    end.

(** The loop over the iterations the stream lives for, in their environments; the
    messages sent, the waits between polls, and how it ended ([None]: still running). *)
Fixpoint subscribe_loop (req : SubscribeRequest) (vt backoff : Z)
    (ticks : list (StreamTick * Env)) (w : World)
    : (list SubscribeResponse * list Z * option (result Code unit)) * World :=
  match ticks with
  | [] => (([], [], None), w)
  | (t, e) :: ticks' =>
      match subscribe_iteration req vt backoff t e w with
      | (Ok (continue_ backoff' sent), w') =>
          let '((msgs, waits, res), w'') := subscribe_loop req vt backoff' ticks' w' in
          ((match sent with Some m => m :: msgs | None => msgs end,
            match sent with Some _ => waits | None => backoff :: waits end, res), w'')
      | (Ok return_nil, w') => (([], [], Some (Ok tt)), w')
      | (Ok (return_err c), w') => (([], [], Some (Err c)), w')
      | (_, w') => (([], [], Some (Err Internal)), w')
      end
  end.

Definition rpc_Subscribe (c : Caller) (req : SubscribeRequest) (e : Env)
    (ticks : list (StreamTick * Env)) (w : World)
    : (list SubscribeResponse * list Z * option (result Code unit)) * World :=
  if bool_decide (sub_Topic req = "") then (([], [], Some (Err InvalidArgument)), w)
  else match resolveVisibilityTimeoutFromProto (sub_VisibilityTimeoutSeconds req) with
  | Err c => (([], [], Some (Err c)), w)
  | Ok vt =>
      match checkDequeueGrant c (sub_Topic req) (sub_ConsumerGroup req) e w with
      | (Ok (Ok _), w1) => subscribe_loop req vt minBackoff ticks w1
      | (Ok (Err c), w1) => (([], [], Some (Err c)), w1)
      | (Err _, w1) => (([], [], Some (Err Internal)), w1)
      end
  end.

(** ** The interceptor *)

Section interceptor.
Context `{JW : JWT}.

(** [config.AuthConfig] *)
Record AuthConfig := mkAuthConfig { Enabled : bool; JWTSecret : string }.

(** [strings.TrimPrefix(s, p)] for an [s] with that prefix. *)
Fixpoint drop_chars (n : nat) (t : string) : string :=
  match n, t with
  | O, _ => t
  | S n', String _ t' => drop_chars n' t'
  | S _, EmptyString => EmptyString
  end.

(** [UnaryInterceptor]: the claims the handler's context gets, or the refusal.
    [authorization] is the metadata header's values, [None] without metadata; [now] is
    the time of the token check. *)
Definition UnaryInterceptor (cfg : AuthConfig) (authorization : option (list string)) (now : Z)
    : result Code (option Claims) :=
  if negb (Enabled cfg) then Ok None
  else match authorization with
  | None | Some [] => Err Unauthenticated
  | Some (authHeader :: _) =>
      if negb (HasPrefix authHeader "Bearer ") then Err Unauthenticated
      else match ParseToken (JWTSecret cfg) (drop_chars 7 authHeader) now with
           | Err _ => Err Unauthenticated
           | Ok claims => Ok (Some claims)
           end
  end.

(** The server [main] builds: the interceptor wraps the unary methods; there is no
    stream interceptor, so a stream's context carries no claims. *)
Definition serve_unary {A} (cfg : AuthConfig) (authorization : option (list string)) (now : Z)
    (handler : Caller → RPC A) : RPC A :=
  match UnaryInterceptor cfg authorization now with
  | Err c => abort c
  | Ok cl => handler (mkCaller cl true)
  end.
Definition serve_Subscribe (cfg : AuthConfig) (authorization : option (list string))
    (req : SubscribeRequest) (e : Env) (ticks : list (StreamTick * Env)) (w : World)
    : (list SubscribeResponse * list Z * option (result Code unit)) * World :=
  rpc_Subscribe (mkCaller None true) req e ticks w.
End interceptor.

(** ** Authorisation *)

Lemma quiet_checkGrant c action topic e w :
  w_db (checkGrant c action topic e w).2 = w_db w.
Proof.
  assert (neutral (checkGrant c action topic)) as Hn.
  { unfold checkGrant, GetUserGrants, ListGrants, reply, abort. solve_neutral.
    intros e' w'. rewrite run_try. by apply neutral_pool_query. }
  apply Hn.
Qed.

(** The answer of a check for a caller who is neither trusted nor an administrator. *)
Lemma grants_run uid e w :
  ∃ fs r, try (GetUserGrants uid) e w = (Ok r, set_faults fs w) ∧
    (r = Ok (grants_of uid (w_db w)) ∨ ∃ x, r = Err x).
Proof.
  unfold try, GetUserGrants, ListGrants.
  destruct (pool_query_cases "list grants" (λ _ db, grants_of uid db) e w) as [fs [-> | ->]];
    eexists _, _; (split; [reflexivity|]); eauto.
Qed.

Lemma checkGrant_refuses c uid action topic e w :
  restricted c = Some uid → HasGrant (grants_of uid (w_db w)) action topic = false →
  ∃ code w', checkGrant c action topic e w = (Ok (Err code), w') ∧ w_db w' = w_db w.
Proof.
  intros Hr Hg. unfold checkGrant. rewrite Hr, run_bind.
  destruct (grants_run uid e w) as (fs & r & -> & [->|[x ->]]); [rewrite Hg|];
    eexists _, _; (split; [reflexivity|done]).
Qed.

Lemma checkDequeueGrant_refuses c uid topic group e w :
  restricted c = Some uid → may_dequeue (grants_of uid (w_db w)) topic group = false →
  ∃ code w', checkDequeueGrant c topic group e w = (Ok (Err code), w') ∧ w_db w' = w_db w.
Proof.
  intros Hr Hg. unfold checkDequeueGrant. rewrite Hr, run_bind.
  destruct (grants_run uid e w) as (fs & r & -> & [->|[x ->]]); [rewrite Hg|];
    eexists _, _; (split; [reflexivity|done]).
Qed.

(** The handler refuses and changes no table. *)
Definition refuses {A} (run : result Error (result Code A) * World) (w : World) : Prop :=
  (∃ code, run.1 = Ok (Err code)) ∧ w_db run.2 = w_db w.

Lemma refuses_abort {A} code w w' :
  w_db w' = w_db w → refuses (A:=A) (Ok (Err code), w') w.
Proof. intros H. split; [by exists code|done]. Qed.

Lemma rpc_bind_refuses {A B} (m : RPC A) (k : A → RPC B) e w w1 code :
  m e w = (Ok (Err code), w1) → w_db w1 = w_db w → refuses (rpc_bind m k e w) w.
Proof.
  intros Hm Hdb. unfold rpc_bind. rewrite run_bind, Hm. by apply refuses_abort.
Qed.

Lemma TopicForMessage_run id e w :
  ∃ fs r, TopicForMessage id e w = (r, set_faults fs w) ∧
    (r = match m_topic <$> messages (w_db w) !! id with
         | Some topic => Ok topic | None => Err ErrNotFound end ∨ ∃ x, r = Err x).
Proof.
  unfold TopicForMessage. rewrite run_bind.
  destruct (pool_query_cases "topic for message" (λ _ db, m_topic <$> messages db !! id) e w)
    as [fs [-> | ->]]; [|by eexists _, _; eauto].
  exists fs. destruct (m_topic <$> messages (w_db w) !! id); eexists; eauto.
Qed.

Lemma topic_of_run id e w :
  ∃ r w', topic_of id e w = (Ok r, w') ∧ w_db w' = w_db w ∧
    ∀ topic, r = Ok topic → m_topic <$> messages (w_db w) !! id = Some topic.
Proof.
  unfold topic_of. rewrite run_bind, run_try.
  destruct (TopicForMessage_run id e w) as (fs & r & -> & Hr). simpl.
  destruct r as [topic|x]; [|destruct x; eexists _, _; by split].
  eexists _, _. split; [reflexivity|]. split; [done|]. intros ? [= <-].
  destruct Hr as [Hr|[x ?]]; [|done]. by destruct (m_topic <$> _); simplify_eq.
Qed.

(** The lookup and check with which [Ack] and [Nack] begin. *)
Lemma message_check_refuses c uid id group (k : string → unit → RPC unit) e w :
  restricted c = Some uid →
  may_dequeue (grants_of uid (w_db w)) (default "" (m_topic <$> messages (w_db w) !! id)) group =
    false →
  refuses (rpc_bind (topic_of id) (λ t, rpc_bind (checkDequeueGrant c t group) (k t)) e w) w.
Proof.
  intros Hr Hno. unfold rpc_bind at 1. rewrite run_bind.
  destruct (topic_of_run id e w) as ([t|code] & w1 & -> & Hdb & Ht); [|by apply refuses_abort].
  rewrite (Ht t eq_refl) in Hno. simpl in Hno.
  destruct (checkDequeueGrant_refuses c uid t group e w1) as (code & w2 & Hchk & Hdb2);
    [done|by rewrite Hdb|].
  unfold refuses. rewrite <-Hdb. by eapply (rpc_bind_refuses _ _ _ _ _ _ Hchk).
Qed.

(** [C38] No table changes for a caller without the grant: for every request, a signed-in
    caller who is not an administrator gets an error and changes nothing - an enqueue
    without a [write] grant on the topic, a dequeue, single or batch, an acknowledgement
    or a rejection without dequeue access to the topic (of the message) and the group;
    under any faults. *)
Theorem grpc_enforces_grants c uid e w enq deq bat ack nack :
  restricted c = Some uid →
  let grants := grants_of uid (w_db w) in
  let topic id := default "" (m_topic <$> messages (w_db w) !! id) in
  (HasGrant grants "write" (enq_Topic enq) = false → refuses (rpc_Enqueue c enq e w) w) ∧
  (may_dequeue grants (deq_Topic deq) (deq_ConsumerGroup deq) = false →
   refuses (rpc_Dequeue c deq e w) w) ∧
  (may_dequeue grants (bat_Topic bat) (bat_ConsumerGroup bat) = false →
   refuses (rpc_BatchDequeue c bat e w) w) ∧
  (may_dequeue grants (topic (ack_Id ack)) (ack_ConsumerGroup ack) = false →
   refuses (rpc_Ack c ack e w) w) ∧
  (may_dequeue grants (topic (nack_Id nack)) (nack_ConsumerGroup nack) = false →
   refuses (rpc_Nack c nack e w) w).
Proof.
  intros Hr grants topic.
  split_and!.
  - intros Hno. unfold rpc_Enqueue. do 2 (case_bool_decide; [by apply refuses_abort|]).
    destruct (checkGrant_refuses c uid "write" (enq_Topic enq) e w) as (code & w1 & Hchk & Hdb);
      [done..|]. by eapply (rpc_bind_refuses _ _ _ _ _ _ Hchk).
  - intros Hno. unfold rpc_Dequeue. case_bool_decide; [by apply refuses_abort|].
    case_match; [|by apply refuses_abort].
    destruct (checkDequeueGrant_refuses c uid (deq_Topic deq) (deq_ConsumerGroup deq) e w)
      as (code & w1 & Hchk & Hdb); [done..|]. by eapply (rpc_bind_refuses _ _ _ _ _ _ Hchk).
  - intros Hno. unfold rpc_BatchDequeue. do 2 (case_match; [by apply refuses_abort|]).
    case_match; [|by apply refuses_abort].
    destruct (checkDequeueGrant_refuses c uid (bat_Topic bat) (bat_ConsumerGroup bat) e w)
      as (code & w1 & Hchk & Hdb); [done..|]. by eapply (rpc_bind_refuses _ _ _ _ _ _ Hchk).
  - intros Hno. unfold rpc_Ack. case_bool_decide; [by apply refuses_abort|].
    by apply (message_check_refuses c uid).
  - intros Hno. unfold rpc_Nack. case_bool_decide; [by apply refuses_abort|].
    by apply (message_check_refuses c uid).
Qed.

(** The unary methods are closed to callers without a valid token: with
    authentication enabled the handler runs only with the claims of a token that
    [ParseToken] accepts at that instant from a [Bearer] header; every other request is
    answered [Unauthenticated] with the world untouched. *)
Theorem unary_requires_token `{JW : JWT} {A} cfg authorization now (handler : Caller → RPC A) e w :
  Enabled cfg = true →
  (∃ header rest cl, authorization = Some (header :: rest) ∧ HasPrefix header "Bearer " = true ∧
     ParseToken (JWTSecret cfg) (drop_chars 7 header) now = Ok cl ∧
     serve_unary cfg authorization now handler e w = handler (mkCaller (Some cl) true) e w) ∨
  serve_unary cfg authorization now handler e w = (Ok (Err Unauthenticated), w).
Proof.
  intros He. unfold serve_unary, UnaryInterceptor. rewrite He. simpl.
  destruct authorization as [[|header rest]|]; [by right| |by right].
  destruct (HasPrefix header "Bearer ") eqn:Hp; [|by right]. simpl.
  destruct (ParseToken _ _ _) as [cl|] eqn:Hpt; [|by right].
  left. by exists header, rest, cl.
Qed.

(** [Subscribe] is not closed: whatever the authentication settings and the request's
    headers, a message that a dequeue would return is claimed and sent to the
    subscriber, where the unary [Dequeue] with the same missing header is refused. *)
Theorem subscribe_skips_authentication `{JW : JWT} cfg topic e w msg w' now :
  Enabled cfg = true → topic ≠ "" → Dequeue s topic 0 e w = (Ok msg, w') →
  serve_unary cfg None now (λ c, rpc_Dequeue c (mkDequeueRequest topic None "")) e w =
    (Ok (Err Unauthenticated), w) ∧
  serve_Subscribe cfg None (mkSubscribeRequest topic None "") e
    [(mkStreamTick false false false true, e)] w = (([SubscribeResponse_of msg], [], None), w').
Proof.
  intros He Ht Hdeq. split; [by unfold serve_unary, UnaryInterceptor; rewrite He|].
  unfold serve_Subscribe, rpc_Subscribe. simpl. rewrite bool_decide_false by done.
  unfold checkDequeueGrant, restricted. simpl.
  unfold subscribe_iteration, dequeue_for. simpl. rewrite run_bind, run_try, Hdeq. done.
Qed.

(** A restriction to one consumer group does not bind a caller who names no group: a
    caller whose only grant is [consume] on the topic for one group is refused the
    acknowledgement for any other group, but its acknowledgement without a group is
    accepted, and removes the message with the deliveries of every group. *)
Theorem group_restriction_bypassed c uid g id r e w other :
  db_ok (w_db w) → w_faults w = [] → restricted c = Some uid →
  grants_of uid (w_db w) = [g] → grants_action "consume" (m_topic r) g →
  other ≠ "" → ConsumerGroup g ≠ other → id ≠ "" →
  messages (w_db w) !! id = Some r → m_status r = processing →
  message_log (w_db w) !! (m_topic r, pg_now e, id) = None →
  refuses (rpc_Ack c (mkAckRequest id other) e w) w ∧
  let run := rpc_Ack c (mkAckRequest id "") e w in
  run.1 = Ok (Ok tt) ∧ messages (w_db run.2) !! id = None ∧
  ∀ group, message_deliveries (w_db run.2) !! (id, group) = None.
Proof.
  intros Hok Hf Hr Hgs [Ha Hm] Hother Hne Hid Hmsg Hst Hlog. split.
  - unfold rpc_Ack. simpl. rewrite bool_decide_false by done.
    apply (message_check_refuses c uid); [done|]. rewrite Hmsg, Hgs. simpl.
    unfold may_dequeue. rewrite (bool_decide_false (other = "")) by done.
    apply andb_false_iff. right. simpl. unfold HasConsumerGroupAccess. simpl.
    rewrite Ha, Hm, bool_decide_true by done. simpl. by rewrite bool_decide_false.
  - intros run.
    assert (∃ w0, w_faults w0 = [] ∧ w_db w0 = w_db w ∧ run = settle (Ack id) e w0)
      as (w0 & Hf0 & Hdb0 & ->).
    { unfold run, rpc_Ack. simpl. rewrite bool_decide_false by done.
      unfold rpc_bind at 1, topic_of, TopicForMessage, pool_query.
      rewrite run_bind, run_bind, run_try, run_bind, pool_stmt_calm by done.
      simpl. rewrite Hmsg. simpl. unfold rpc_bind. rewrite run_bind.
      unfold checkDequeueGrant. rewrite Hr, run_bind, run_try.
      unfold GetUserGrants, ListGrants, pool_query. rewrite pool_stmt_calm by done. simpl.
      rewrite Hgs.
      assert (may_dequeue [g] (m_topic r) "" = true) as ->.
      { unfold may_dequeue, HasDequeueAccess. simpl. by rewrite Ha, Hm. }
      simpl. eexists. split; [|split; [|reflexivity]]; done. }
    pose proof (implements_calm _ _ _ _ (ack_implements id e w0) (Ack_calm id) Hf0) as Hack.
    rewrite Hdb0 in Hack. unfold ack_on_tables in Hack. rewrite Hmsg, decide_True in Hack by done.
    destruct (archive_on_tables id (m_topic r) (log_of_message r) e (w_db w)) as [db1|x] eqn:Har.
    2: { unfold archive_on_tables, insert_log in Har. rewrite Hlog in Har. by case_match. }
    destruct (settled_intro _ _ _ _ _ _ Hok Har) as (Hm' & Hd' & _).
    destruct Hack as [Hack Hdb]. unfold settle. rewrite run_bind, run_try, Hack. simpl.
    rewrite Hdb, Hm', lookup_delete_eq. split_and!; [done..|].
    intros group. by rewrite Hd', decide_True.
Qed.

(** ** Polling *)

Lemma next_backoff_range b : minBackoff ≤ b ≤ maxBackoff → minBackoff ≤ next_backoff b ≤ maxBackoff.
Proof.
  unfold next_backoff, minBackoff, maxBackoff, Millisecond, Second. intros ?.
  case_match; reflect_bools; lia.
Qed.

(** The polling of a subscription: every wait between two polls is between 250 ms
    and 2 s, and as long as polls find nothing the [n]-th wait is the doubled minimum
    [250 ms * 2^n], capped at 2 s. *)
Theorem subscribe_backoff req vt e0 n w :
  (∀ ticks w', Forall (λ d, minBackoff ≤ d ≤ maxBackoff)
     (subscribe_loop req vt minBackoff ticks w').1.1.2) ∧
  (∀ t, done_before t = false → done_after t = false → done_waiting t = false →
   (∀ w', (dequeue_for (sub_Topic req) (sub_ConsumerGroup req) vt e0 w').1 = Err ErrNoMessage) →
   (subscribe_loop req vt minBackoff (replicate n (t, e0)) w).1 =
     ([], (λ i, Z.min (minBackoff * 2 ^ Z.of_nat i) maxBackoff) <$> seq 0 n, None)).
Proof.
  split.
  - assert (∀ ticks b, minBackoff ≤ b ≤ maxBackoff → ∀ w',
      Forall (λ d, minBackoff ≤ d ≤ maxBackoff) (subscribe_loop req vt b ticks w').1.1.2) as Hall;
      [|intros; by apply Hall].
    intros ticks. induction ticks as [|[t e] ticks IH]; intros b Hb w'; simpl; [constructor|].
    destruct (subscribe_iteration req vt b t e w') as [[it|x] w1] eqn:Hit; [|constructor].
    destruct it as [b' sent| |code|]; try constructor.
    assert (minBackoff ≤ b' ≤ maxBackoff) as Hb'.
    { unfold subscribe_iteration in Hit. destruct (done_before t); [done|].
      rewrite run_bind, run_try in Hit. destruct (dequeue_for _ _ _ e w') as [[msg|x] w2]; simpl in Hit.
      - destruct (send_ok t); [|done]. by injection Hit as <- _ _.
      - destruct (done_after t); [done|]. destruct x; try done. destruct (done_waiting t); [done|].
        injection Hit as <- _ _. by apply next_backoff_range. }
    specialize (IH b' Hb' w1). destruct (subscribe_loop req vt b' ticks w1) as [[[ms ws] r] w2].
    simpl in *. destruct sent; [done|]. by constructor.
  - intros t Hb Ha Hw Hempty.
    assert (∀ k w', (subscribe_loop req vt (Z.min (minBackoff * 2 ^ Z.of_nat k) maxBackoff)
                       (replicate n (t, e0)) w').1 =
      ([], (λ i, Z.min (minBackoff * 2 ^ Z.of_nat i) maxBackoff) <$> seq k n, None)) as Hk.
    2: { rewrite <-(Hk O w). by replace (Z.min _ _) with minBackoff. }
    induction n as [|n IH]; intros k w'; [done|]. simpl.
    unfold subscribe_iteration. rewrite Hb, run_bind, run_try. specialize (Hempty w').
    destruct (dequeue_for _ _ _ e0 w') as [r w1]. simpl in Hempty. subst r. simpl. rewrite Ha, Hw.
    simpl.
    assert (next_backoff (Z.min (minBackoff * 2 ^ Z.of_nat k) maxBackoff) =
      Z.min (minBackoff * 2 ^ Z.of_nat (S k)) maxBackoff) as ->.
    { unfold next_backoff. rewrite Nat2Z.inj_succ, Z.pow_succ_r by lia.
      case_match; reflect_bools; unfold minBackoff, maxBackoff, Millisecond, Second in *; lia. }
    specialize (IH (S k) w1). destruct (subscribe_loop _ _ _ _ w1) as [[[ms ws] r] w2].
    simpl in *. by injection IH as -> -> ->.
Qed.

(** Visibility timeouts cross the API unchanged: every positive [uint32] number of
    seconds becomes, without overflow, a duration from which the dequeue statements
    read the same number of seconds; zero is refused, and an absent one is the server's
    default. *)
Theorem visibility_timeout_exact n :
  0 ≤ n < 2 ^ 32 →
  (n = 0 → resolveVisibilityTimeoutFromProto (Some n) = Err InvalidArgument) ∧
  (0 < n → ∃ d, resolveVisibilityTimeoutFromProto (Some n) = Ok d ∧ d = n * Second ∧
     duration_seconds (resolveVisibilityTimeout s d) = n) ∧
  (∃ d, resolveVisibilityTimeoutFromProto None = Ok d ∧
     resolveVisibilityTimeout s d = visibilityTimeout s).
Proof.
  intros Hn. split_and!.
  - by intros ->.
  - intros Hpos. exists (n * Second). unfold resolveVisibilityTimeoutFromProto.
    rewrite (proj2 (Z.eqb_neq n 0)) by lia.
    rewrite wrap64_id by (unfold Second; lia). split_and!; [done..|].
    unfold resolveVisibilityTimeout, duration_seconds.
    rewrite (proj2 (Z.ltb_lt 0 _)) by (unfold Second; lia). by apply Z.quot_mul.
  - by exists 0.
Qed.
End grpc.
