(* ===== verification/ColumnTypes.v ===== *)
(** * The types of the columns

    The integer columns of the migrations are [INT], four bytes; the program's integers have
    eight.  Every table keeps the type of its columns under all calls of the service, and so
    the program's arithmetic on what it reads - the [int32] of the gRPC messages, the products
    of [time.Duration] - loses nothing. *)

From S2P Require Import Prelude.
From S2P Require Import Store.
From S2P Require Import Avro.
From S2P Require Import Runtime.
From S2P Require Import Model.
From S2P Require Import TopicConfig.
From S2P Require Import Throttle.
From S2P Require Import Schema.
From S2P Require Import Dequeue.
From S2P Require Import Enqueue.
From S2P Require Import Lifecycle.
From S2P Require Import ConsumerGroup.
From S2P Require Import Reaper.
From S2P Require Import Replay.
From S2P Require Import System.
From S2P Require Import Users.
From S2P Require Import Grpc.

Definition message_fits (r : MessageRow) : Prop :=
  int4 (m_retry_count r) ∧ int4 (m_max_retries r).
Definition delivery_fits (d : DeliveryRow) : Prop :=
  int4 (d_retry_count d) ∧ int4 (d_max_retries d).
Definition log_fits (l : LogRow) : Prop := int4 (l_retry_count l) ∧ int4 (l_max_retries l).

Section column_types.
Context `{PG : Postgres} `{ST : Storage} `{CO : Codecs}.

(** [version] fits, and [schema_json] is a schema. *)
Definition schema_fits (ts : TopicSchema) : Prop :=
  int4 (Version ts) ∧ is_Some (avro_Parse (SchemaJSON ts)).

Record column_types (db : DB) : Prop := {
  ct_messages : map_Forall (λ _, message_fits) (messages db);
  ct_deliveries : map_Forall (λ _, delivery_fits) (message_deliveries db);
  ct_log : map_Forall (λ _, log_fits) (message_log db);
  ct_config : map_Forall (λ _, config_int4) (topic_config db);
  ct_schemas : map_Forall (λ _, schema_fits) (topic_schemas db);
}.

Lemma empty_column_types : column_types empty_db.
Proof. split; apply map_Forall_empty. Qed.

Definition keeps_types (db db' : DB) : Prop := column_types db → column_types db'.
#[export] Instance keeps_types_preorder : PreOrder keeps_types.
Proof. split; [by intros db ?|]. intros db1 db2 db3 H1 H2 H. by apply H2, H1. Qed.

(** ** The statements *)

Context `{LAWS : !PostgresLaws}.

(** What changes the rows of [messages] only. *)
Lemma messages_keep_types db ms :
  (column_types db → map_Forall (λ _, message_fits) ms) → keeps_types db (set_messages ms db).
Proof. intros Hms Hdb. destruct (Hdb) as [_ ? ? ? ?]. split; simpl; auto. Qed.

Lemma deliveries_keep_types db ds :
  (column_types db → map_Forall (λ _, delivery_fits) ds) → keeps_types db (set_deliveries ds db).
Proof. intros Hds Hdb. destruct (Hdb) as [? _ ? ? ?]. split; simpl; auto. Qed.

Lemma map_Forall_filter_keys {K A} `{Countable K} (Q : A → Prop) (P : K * A → Prop)
    `{∀ x, Decision (P x)} (m : gmap K A) :
  map_Forall (λ _, Q) m → map_Forall (λ _, Q) (filter P m).
Proof. intros Hm k a [Hk _]%map_lookup_filter_Some. by eapply Hm. Qed.

Lemma map_Forall_map_update {K A} `{Countable K} (Q : A → Prop) (P : K → A → Prop)
    `{∀ k x, Decision (P k x)} (f : A → A) (m : gmap K A) :
  (∀ a, Q a → Q (f a)) → map_Forall (λ _, Q) m → map_Forall (λ _, Q) (map_update P f m).
Proof.
  intros Hf Hm k a (a0 & Hk%Hm & ->)%lookup_map_update_Some. case_decide; [by apply Hf|done].
Qed.

Lemma delete_where_types P `{∀ i r, Decision (P i r)} db :
  keeps_types db (delete_messages_where P db).2.
Proof.
  etrans; [apply messages_keep_types|apply deliveries_keep_types]; simpl;
    intros [? ? ? ? ?]; by apply map_Forall_filter_keys.
Qed.

Lemma delete_delivery_types k db : keeps_types db (delete_delivery k db).
Proof. apply deliveries_keep_types. intros [_ Hd _ _ _]. by apply map_Forall_delete. Qed.

Lemma insert_message_types now id r db db' :
  message_fits r → insert_message now id r db = Ok db' → keeps_types db db'.
Proof.
  intros Hr. unfold insert_message. case_decide; [|done]. intros [= <-].
  etrans; [apply messages_keep_types|apply deliveries_keep_types]; simpl.
  - intros [Hm _ _ _ _]. by apply map_Forall_insert_2.
  - intros [_ Hd _ _ _] [i g] d Hk. destruct Hr.
    apply (mint_deliveries_lookup now id r db i g d) in Hk as [Hk|(_ & _ & _ & ->)];
      [by eapply Hd|by split].
Qed.

Lemma update_message_types id f db db' : update_message id f db = Ok db' → keeps_types db db'.
Proof.
  unfold update_message. destruct (messages db !! id) as [r|]; [|by intros [= <-]].
  case_decide as Hr; [|done]. case_decide; [|done]. intros [= <-].
  apply messages_keep_types. intros [Hm _ _ _ _]. by apply map_Forall_insert_2.
Qed.

Lemma update_delivery_types k f db db' :
  settles f → update_delivery k f db = Ok db' → keeps_types db db'.
Proof.
  intros Hf. unfold update_delivery.
  destruct (message_deliveries db !! k) as [d|] eqn:Hk; [|by intros [= <-]].
  case_decide as Hd; [|done]. intros [= <-]. apply deliveries_keep_types. intros [_ Hds _ _ _].
  apply map_Forall_insert_2; [|done]. split; [done|].
  destruct (Hf d) as [_ ->]. by apply Hds in Hk as [_ ?].
Qed.

Lemma enqueue_types topic payload md key p e db id db' :
  sql_enqueue topic payload md key p e db = Ok (id, db') → keeps_types db db'.
Proof.
  unfold sql_enqueue. case_decide as Hp; [|done].
  destruct (conflicting_row topic key db) as [[j r]|] eqn:Hc.
  - intros [= _ <-]. apply conflicting_row_Some in Hc as [Hj _].
    apply messages_keep_types. intros [Hm _ _ _ _]. apply map_Forall_insert_2; [|done].
    apply Hm in Hj as [? _]. by split.
  - destruct (insert_message _ _ _ _) as [db1|] eqn:Hins; intros [= _ <-].
    eapply insert_message_types; [|exact Hins]. by split.
Qed.

Lemma claim_one_types topic secs e db row db' :
  sql_claim_one topic secs e db = Ok (row, db') → keeps_types db db'.
Proof.
  unfold sql_claim_one. destruct (select_messages _ 1 e db) as [|[i r] l] eqn:Hs;
    intros [= _ <-]; [done|].
  assert ((i, r) ∈ select_messages (eligible (pg_now e) topic) 1 e db) as Hin
    by (rewrite Hs; by left).
  apply select_messages_elem in Hin as (Hi & _ & _).
  apply messages_keep_types. intros [Hm _ _ _ _]. apply map_Forall_insert_2; [|done].
  by apply Hm in Hi.
Qed.

(** A replay copies the columns of rows that were archived. *)
Lemma replay_rows_types topic exp e n rows db k db' :
  Forall log_fits rows → replay_rows topic exp e n rows db = (k, db') → keeps_types db db'.
Proof.
  intros Hrows. revert n db k.
  induction Hrows as [|l rows Hl _ IH]; intros n db k; simpl; [by intros [= _ <-]|].
  destruct (insert_message _ _ _ _) as [db1|] eqn:Hins; [|by apply IH].
  destruct (replay_rows _ _ _ _ rows db1) as [c1 db2] eqn:Hrest. intros [= _ <-].
  etrans; [eapply insert_message_types; [|done]|by eapply IH].
  split; [done|]. apply Hl.
Qed.

Lemma archived_fit topic from db l :
  column_types db → l ∈ archived_rows topic from db → log_fits l.
Proof.
  intros [_ _ Hlog _ _] ([k l'] & -> & Hk)%list_elem_of_fmap.
  apply elem_of_map_to_list, map_lookup_filter_Some in Hk as [Hk _]. by eapply Hlog.
Qed.

Lemma backfill_types topic group e db db' :
  sql_backfill topic group e db = Ok db' → keeps_types db db'.
Proof.
  intros Hb. pose proof (λ i g d, sql_backfill_lookup _ _ _ _ _ i g d Hb) as Hl.
  injection Hb as <-. apply deliveries_keep_types. intros [Hm Hd _ _ _] [i g] d Hk.
  apply (Hl i g d) in Hk as [Hk|(_ & _ & r & Hr & _ & _ & ->)]; [by eapply Hd|].
  apply Hm in Hr as [_ ?]. by split.
Qed.

Lemma other_writes_types P db db' : other_writes P db db' → keeps_types db db'.
Proof.
  intros [[Hm Hd] _ Hl Hc Hs] [? ? Hlog Hcfg Hsch]. split; [by rewrite Hm|by rewrite Hd|..].
  - intros k l Hk%Hl. by eapply Hlog.
  - intros t cfg [Ht|?]%Hc; [by eapply Hcfg|done].
  - intros t ts [Ht|?]%Hs; [by eapply Hsch|done].
Qed.

(** ** The archive

    The row that is archived has been read in the same transaction. *)

Lemma begin_types {A} what (m : M A) :
  in_tx keeps_types column_types m → op keeps_types (begin_tx what;; m).
Proof.
  intros Hm e w Hw. revert Hw. unfold begin_tx, round_trip, mbind, M_bind.
  destruct (w_faults w) as [|[] fs]; simpl; try done; intros Hw;
    match goal with |- column_types (w_db (m _ ?w').2) => apply (Hm e w'); done end.
Qed.

Abbreviation typed m := (body keeps_types column_types m (λ _, column_types)).

Lemma typed_exec what (q : Env → DB → result PgError DB) :
  (∀ e db db', q e db = Ok db' → keeps_types db db') → typed (tx_exec what q).
Proof.
  intros Hq. apply body_tx_stmt; [exact _|]. intros e db a db' Hdb H.
  destruct (q e db) as [db1|] eqn:Hqe; [|done]. injection H as _ ->.
  split; [by eapply Hq|]. by eapply Hq.
Qed.

Lemma typed_query {A} what (q : Env → DB → A) (Q : A → Prop) :
  (∀ e db, column_types db → Q (q e db)) →
  body keeps_types column_types (tx_query what q) (λ a db, column_types db ∧ Q a).
Proof.
  intros Hq. eapply body_weaken; [apply body_tx_query; exact _|done|].
  intros a db [Hdb [e ->]]. auto.
Qed.

(** What is known beside the types stays known. *)
Lemma in_tx_pure {A} (X : Prop) P (m : M A) :
  (X → in_tx keeps_types P m) → in_tx keeps_types (λ db, P db ∧ X) m.
Proof. intros Hm e w HR [HP HX]. by apply Hm. Qed.
Lemma body_pure {A} (X : Prop) P (m : M A) Q :
  (X → body keeps_types P m Q) → body keeps_types (λ db, P db ∧ X) m Q.
Proof. intros Hm e w HR [HP HX]. by apply Hm. Qed.

Lemma in_typed_bind {A B} (m : M A) (k : A → M B) Q :
  body keeps_types column_types m Q → (∀ a, in_tx keeps_types (Q a) (k a)) →
  in_tx keeps_types column_types (m ≫= k).
Proof. apply in_tx_bind. exact _. Qed.

Lemma typed_commit {A} what (m : unit → M A) :
  (∀ u, neutral (m u)) → in_tx keeps_types column_types (commit_tx what ≫= m).
Proof. intros Hm. apply in_tx_commit; [exact _|]. intros u. by apply neutral_quiet. Qed.

Lemma archiveToLog_types id topic l : log_fits l → typed (archiveToLog id topic l).
Proof.
  intros Hl. unfold archiveToLog. eapply body_bind.
  { by apply (typed_query _ _ (λ _, True)). }
  intros b. apply body_pure. intros _.
  case_match; [apply body_neutral; solve_neutral|]. apply typed_exec. intros e db db' Hins.
  unfold insert_log in Hins. case_match; [done|]. injection Hins as <-.
  intros [? ? Hlog ? ?]. split; simpl; try done. by apply map_Forall_insert_2.
Qed.

Lemma Ack_types id : op keeps_types (Ack id).
Proof.
  apply begin_types. eapply in_typed_bind.
  { apply (typed_query _ _ (λ row, ∀ r, row = Some r → message_fits r)).
    intros e db [Hm _ _ _ _] r Hrow.
    destruct (messages db !! id) as [r'|] eqn:Hr; simpl in Hrow; [|done].
    case_decide; simplify_eq. by eapply Hm. }
  intros row. apply in_tx_pure. intros Hrow. destruct row as [r|].
  2: { apply in_tx_quiet; [exact _|]. apply neutral_quiet. solve_neutral. }
  eapply in_typed_bind; [apply archiveToLog_types; exact (Hrow _ eq_refl)|]. intros u.
  eapply in_typed_bind; [|intros u'; apply typed_commit; intros; solve_neutral].
  apply typed_exec. intros e db db' [= <-]. apply delete_where_types.
Qed.

Lemma AckForGroup_types id group : op keeps_types (AckForGroup id group).
Proof.
  apply begin_types. eapply in_typed_bind.
  { apply (typed_query _ _ (λ row, ∀ r d, row = Some (r, d) → delivery_fits d)).
    intros e db [_ Hd _ _ _] r d Hrow. unfold sql_join in Hrow.
    destruct (messages db !! id) as [r'|]; simpl in Hrow; [|done].
    destruct (message_deliveries db !! (id, group)) as [d'|] eqn:Hk; simpl in Hrow; [|done].
    case_decide; simplify_eq. by eapply Hd. }
  intros row. apply in_tx_pure. intros Hrow. destruct row as [[r d]|].
  2: { apply in_tx_quiet; [exact _|]. apply neutral_quiet. solve_neutral. }
  eapply in_typed_bind; [apply typed_exec; intros e db db' [= <-]; apply delete_delivery_types|].
  intros u. eapply in_typed_bind; [by apply (typed_query _ _ (λ _, True))|]. intros n.
  apply in_tx_pure. intros _.
  eapply in_typed_bind; [|intros u'; apply typed_commit; intros; solve_neutral].
  case_match; [|apply body_neutral; solve_neutral].
  eapply body_bind; [apply archiveToLog_types; exact (Hrow _ _ eq_refl)|]. intros v.
  apply typed_exec. intros e db db' [= <-]. apply delete_where_types.
Qed.

(** ** Every call *)

Lemma writes_types c e db db' :
  writes c e db db' → keeps_types db db'.
Proof.
  intros Hw. destruct c; simpl in Hw; try done.
  - destruct Hw as (p & id & H). by eapply enqueue_types.
  - destruct Hw as (secs & row & H). by eapply claim_one_types.
  - destruct Hw as (m & secs & rows & [= _ <-]). apply messages_keep_types.
    intros [? _ _ _ _]. by apply map_Forall_map_update.
  - destruct Hw as (m & secs & rows & [= _ <-]). apply deliveries_keep_types.
    intros [_ ? _ _ _]. by apply map_Forall_map_update.
  - destruct Hw as (m & secs & rows & [= _ <-]). apply deliveries_keep_types.
    intros [_ ? _ _ _]. by apply map_Forall_map_update.
  - subst. apply delete_where_types.
  - destruct Hw as (f & H). by eapply update_message_types.
  - destruct Hw as [-> | ->]; [apply delete_delivery_types|apply delete_where_types].
  - destruct Hw as (f & Hf & H). by eapply update_delivery_types.
  - destruct Hw as (f & H). by eapply update_message_types.
  - by eapply backfill_types.
  - injection Hw as <-. apply deliveries_keep_types. intros [_ ? _ _ _].
    by apply map_Forall_filter_keys.
  - destruct Hw as (n & [= _ <-]). apply messages_keep_types. intros [? _ _ _ _].
    by apply map_Forall_map_update.
  - destruct Hw as (n & [= _ <-]). apply delete_where_types.
  - destruct Hw as (n & [= _ <-]). apply messages_keep_types. intros [? _ _ _ _].
    by apply map_Forall_map_update.
  - destruct Hw as (n & [= _ <-]). apply delete_where_types.
  - destruct Hw as (exp & rows & n & H & from & ->). intros Hdb.
    eapply replay_rows_types; [|exact H|done]. apply Forall_forall. intros l Hl.
    rewrite returning_perm in Hl. by eapply archived_fit.
  - subst. apply delete_where_types.
  - subst. apply delete_where_types.
Qed.
Lemma run_call_types s c : op keeps_types (run_call s c).
Proof.
  destruct (archives c) eqn:Hc.
  - destruct c; simpl in *; try done; [apply Ack_types|apply AckForGroup_types].
  - apply (run_call_walk _ (λ _, True) (other_writes_types _)); [by rewrite Hc| |done|].
    + intros topic _ n. apply throttle_steps; [exact _|]. intros db tt' _ [? ? ? ? ?]. by split.
    + intros e db db'. apply writes_types.
Qed.

(** No overflow of a [time.Duration] below this many seconds. *)
Lemma wrap64_seconds n : int4 n → wrap64 (n * Second) = n * Second ∧ wrap64 (- n * Second) = - (n * Second).
Proof.
  unfold int4, Second. intros Hn. split; rewrite wrap64_id by lia; lia.
Qed.

Lemma int32_fits n : int4 n → int32 n = n.
Proof. unfold int4, int32. intros Hn. rewrite Z.mod_small; lia. Qed.

(** [C16] Every column keeps its type.  If the integers of the tables fit into [INT] and the
    stored schemas parse, they do after any calls, whatever the arguments and settings - the
    program's own integers have twice the width - and whatever fails.  So, in every state that
    the service reaches, the [int32] conversions of the gRPC messages are exact, and the
    products of [time.Duration] that expiry and replay window are computed from do not
    overflow; and every payload of a topic with a schema is validated against it. *)
Theorem columns_keep_types s calls w :
  column_types (w_db w) →
  let db := w_db (run_calls s calls w) in
  column_types db ∧
  (∀ i r, messages db !! i = Some r →
     int32 (m_retry_count r) = m_retry_count r ∧ int32 (m_max_retries r) = m_max_retries r) ∧
  (∀ t cfg now, topic_config db !! t = Some cfg →
     (∀ n, MessageTTLSeconds cfg = Some n → n ≠ 0 →
        resolveExpiresAt s (Some cfg) now = Some (now + n * Second)) ∧
     (∀ n, ReplayWindowSeconds cfg = Some n → 0 < n →
        windowStart cfg now = Some (now - n * Second))) ∧
  (∀ t ts, topic_schemas db !! t = Some ts → is_Some (avro_Parse (SchemaJSON ts))).
Proof.
  intros Hw db. assert (column_types db) as Hdb.
  { unfold db. clear db. revert w Hw. induction calls as [|[c e] calls IH]; intros w Hw; [done|].
    simpl. apply IH. by apply run_call_types. }
  destruct (Hdb) as [Hm _ _ Hc Hs]. split_and!; [done|..].
  - intros i r [? ?]%Hm. by rewrite !int32_fits.
  - intros t cfg now Hall%Hc. unfold config_int4 in Hall. rewrite !Forall_cons in Hall.
    destruct Hall as (_ & Httl & _ & Hwin & _). unfold resolveExpiresAt, windowStart. simpl.
    split; intros n Hn H0; rewrite Hn in *.
    + rewrite (proj2 (Z.eqb_neq _ _)) by done. by rewrite (proj1 (wrap64_seconds n Httl)).
    + rewrite (proj2 (Z.ltb_lt _ _)) by done. rewrite (proj2 (wrap64_seconds n Hwin)). done.
  - intros t ts Ht. by apply Hs in Ht as [_ ?].
Qed.
End column_types.
