(* ===== verification/Client.v ===== *)
(** * The Go client: connection, tokens, messages

    [clients/go-client]: the token store and its refresher ([token_store.go],
    [client.go]), the dial, consumer and publish options ([options.go]), the producer
    ([producer.go]) and the messages with their acknowledgements ([message.go]).  The
    server is the interface [QueueServiceClient], the generated stub; a call's fate on
    the network is an argument. *)

From S2P Require Import Prelude.
From S2P Require Import Avro.
From S2P Require Import Json.
From S2P Require Import Text.
From S2P Require Import Schema.
From S2P Require Import Grpc.

(** ** The stub *)

(** What [pb.QueueServiceClient] promises: each unary method answers with a response or a
    status and takes the server to a new state. *)
Class QueueServiceClient (S : Type) := {
  pb_Enqueue : EnqueueRequest → S → result Code string * S;
  pb_BatchDequeue : BatchDequeueRequest → S → result Code (list DequeueResponse) * S;
  pb_Ack : AckRequest → S → result Code unit * S;
  pb_Nack : NackRequest → S → result Code unit * S;
}.

(** What becomes of a call: answered, never sent - as under a context that is done - or
    carried out with its answer lost. *)
Inductive fate := answered | not_sent | answer_lost.

Inductive RpcError := Status (c : Code) | Unavailable.

Definition call {S A} (f : fate) (m : S → result Code A * S) (s : S) : result RpcError A * S :=
  match f with
  | answered => let '(r, s') := m s in
                (match r with Ok a => Ok a | Err c => Err (Status c) end, s')
  | not_sent => (Err Unavailable, s)
  | answer_lost => (Err Unavailable, (m s).2)
  end.

(** ** Tokens *)

Section tokens.
Context `{CO : Codecs}.

(** [time.Unix(sec, 0)] in nanoseconds; the seconds since the year 1 wrap. *)
Definition unixToInternal : Z := 62135596800.
Definition time_Unix (sec : Z) : Z := (wrap64 (sec + unixToInternal) - unixToInternal) * Second.

(** The [exp] claim, in nanoseconds, or an error. *)
Definition claims_expiry (payload : string) : option Z :=
  j ← json_Unmarshal payload;
  exp ← decode (dec_struct [("exp"%string, dec_int)]) 0 j;
  if exp =? 0 then None else Some (time_Unix exp).

Definition tokenExpiry (token : string) : option Z :=
  match Split "." token with
  | [_; payload; _] => DecodeString payload ≫= claims_expiry
  | _ => None
  end.

(** *** The refresher *)

Definition advanceWindow : Z := 60 * Second.
Definition initial_retry : Z := 5 * Second.

(** [exp.Sub(now)], which saturates. *)
Definition time_until (exp now : Z) : Z := Z.max (- 2 ^ 63) (Z.min (exp - now) (2 ^ 63 - 1)).

(** The token in the store, the wait after a failure, and the clock. *)
Record Refresher := mkRefresher { rf_token : string; retryBackoff : Z; rf_now : Z }.

(** What happens during one iteration: the points at which the context is found done, how
    long the callback takes, and the token it returns ([None]: an error). *)
Record Round := mkRound {
  done_sleeping : bool; done_before_call : bool;
  call_takes : Z; new_token : option string;
  done_after_call : bool; done_backing_off : bool;
}.

(** The sleep before the callback, and the backoff as the iteration leaves it. *)
Definition sleep_until (st : Refresher) : Z * Z :=
  match tokenExpiry (rf_token st) with
  | None => (retryBackoff st, retryBackoff st)
  | Some exp =>
      let remaining := wrap64 (time_until exp (rf_now st) - advanceWindow) in
      if remaining <=? 0 then (0, retryBackoff st) else (remaining, initial_retry)
  end.

(** One iteration of [runRefresher]; [None] when it returns. *)
Definition refresh_round (r : Round) (st : Refresher) : option Refresher :=
  let '(sleep, backoff) := sleep_until st in
  if (0 <? sleep) && done_sleeping r then None
  else if done_before_call r then None
  else
    let now := rf_now st + sleep + call_takes r in
    match new_token r with
    | None =>
        if done_after_call r || done_backing_off r then None
        else Some (mkRefresher (rf_token st) (Z.min (backoff * 2) (60 * Second)) (now + backoff))
    | Some token => Some (mkRefresher token initial_retry now)
    end.

(** The loop over the iterations it lives for: the state reached, [None] after a return,
    and the moments at which a token was stored, with the token it replaced. *)
Fixpoint runRefresher (rounds : list Round) (st : Refresher)
    : option Refresher * list (Z * string) :=
  match rounds with
  | [] => (Some st, [])
  | r :: rounds' =>
      match refresh_round r st with
      | None => (None, [])
      | Some st' =>
          let '(last, sets) := runRefresher rounds' st' in
          (last, match new_token r with
                 | Some _ => (rf_now st', rf_token st) :: sets
                 | None => sets
                 end)
      end
  end.
End tokens.

(** ** Connecting *)

Section dial.
Context {TLS Raw Refresh Conn : Type}.

(** The [grpc.DialOption]s; the credentials of [bearerToken] read the shared store. *)
Inductive GrpcOption :=
| insecure_credentials
| tls_credentials (cfg : TLS)
| bearer_credentials
| raw_option (o : Raw).

(** [dialConfig]; a store is its content. *)
Record dialConfig := mkDialConfig {
  grpcOpts : list GrpcOption;
  store : option string;
  refresher : option Refresh;
}.

(** A [nil] TLS configuration stands for the empty one. *)
Inductive DialOption :=
| WithInsecure
| WithBearerToken (token : string)
| WithTokenRefresher (r : Refresh)
| WithTLS (cfg : option TLS)
| WithGRPCOption (o : Raw).

Context (empty_tls : TLS).

Definition apply_option (cfg : dialConfig) (o : DialOption) : dialConfig :=
  let add g := grpcOpts cfg ++ [g] in
  match o with
  | WithInsecure => mkDialConfig (add insecure_credentials) (store cfg) (refresher cfg)
  | WithBearerToken token => mkDialConfig (add bearer_credentials) (Some token) (refresher cfg)
  | WithTokenRefresher r => mkDialConfig (grpcOpts cfg) (store cfg) (Some r)
  | WithTLS c => mkDialConfig (add (tls_credentials (default empty_tls c))) (store cfg) (refresher cfg)
  | WithGRPCOption o => mkDialConfig (add (raw_option o)) (store cfg) (refresher cfg)
  end.

(** [Client]: [refreshing] is the callback of the goroutine that [Dial] starts. *)
Record Client := mkClient {
  conn : Conn; client_store : option string; refreshing : option Refresh }.

(** [Dial]; [grpc.NewClient] is a parameter. *)
Definition Dial (NewClient : string → list GrpcOption → option Conn) (addr : string)
    (opts : list DialOption) : option Client :=
  let cfg := foldl apply_option (mkDialConfig [] None None) opts in
  conn ← NewClient addr (grpcOpts cfg);
  Some (mkClient conn (store cfg)
          (match store cfg with Some _ => refresher cfg | None => None end)).

Definition DialConn (c : Conn) : Client := mkClient c None None.

Definition SetToken (token : string) (c : Client) : option Client :=
  match client_store c with
  | None => None
  | Some _ => Some (mkClient (conn c) (Some token) (refreshing c))
  end.

(** The metadata of a call on a connection with these options. *)
Definition GetRequestMetadata (token : string) : list (string * string) :=
  [("authorization", "Bearer " +:+ token)]%string.
Definition metadata_of (opts : list GrpcOption) (st : option string) : list (string * string) :=
  o ← opts;
  match o, st with
  | bearer_credentials, Some token => GetRequestMetadata token
  | _, _ => []
  end.
End dial.
Arguments dialConfig : clear implicits.
Arguments DialOption : clear implicits.
Arguments Client : clear implicits.

(** ** Publishing *)

Section messages.
Context {S : Type} `{QS : QueueServiceClient S}.

Record publishConfig := mkPublishConfig {
  pub_metadata : option (gmap string string); pub_key : option string }.
Inductive PublishOption := WithMetadata (m : option (gmap string string)) | WithKey (key : string).

Definition apply_publish (cfg : publishConfig) (o : PublishOption) : publishConfig :=
  match o with
  | WithMetadata m => mkPublishConfig m (pub_key cfg)
  | WithKey key => mkPublishConfig (pub_metadata cfg) (Some key)
  end.

Definition Publish (f : fate) (topic payload : string) (opts : list PublishOption) (s : S)
    : result RpcError string * S :=
  let cfg := foldl apply_publish (mkPublishConfig None None) opts in
  call f (pb_Enqueue (mkEnqueueRequest topic payload (pub_metadata cfg) (pub_key cfg))) s.

(** ** Messages *)

(** [queueti.Message]; its closures hold the id and the consumer group. *)
Record Delivered := mkDelivered {
  dm_ID : string; dm_Topic : string; dm_Payload : string;
  dm_Metadata : option (gmap string string); dm_CreatedAt : Z; dm_RetryCount : Z;
  dm_group : string }.

Definition buildMessage := mkDelivered.
Definition dequeueProtoToMessage (consumerGroup : string) (r : DequeueResponse) : Delivered :=
  buildMessage (res_Id r) (res_Topic r) (res_Payload r) (res_Metadata r) (res_CreatedAt r)
    (res_RetryCount r) consumerGroup.
Definition protoToMessage (consumerGroup : string) (r : SubscribeResponse) : Delivered :=
  buildMessage (sent_Id r) (sent_Topic r) (sent_Payload r) (sent_Metadata r) (sent_CreatedAt r)
    (sent_RetryCount r) consumerGroup.

Definition msg_Ack (f : fate) (m : Delivered) (s : S) : result RpcError unit * S :=
  call f (pb_Ack (mkAckRequest (dm_ID m) (dm_group m))) s.
Definition msg_Nack (f : fate) (m : Delivered) (reason : string) (s : S)
    : result RpcError unit * S :=
  call f (pb_Nack (mkNackRequest (dm_ID m) reason (dm_group m))) s.
End messages.

(** ** Expiry of a token *)

Section token_laws.
Context `{CO : Codecs}.

Lemma has_char_app c s t : has_char c (s +:+ t) = has_char c s || has_char c t.
Proof. induction s as [|d s IH]; simpl; [done|]. by rewrite IH, orb_assoc. Qed.

(** Members with other names leave the [exp] field alone. *)
Lemma other_members (l : list (string * json)) (old : Z) ok :
  Forall (λ kv, foldName kv.1 ≠ foldName "exp") l →
  fold_left (dec_member [("exp"%string, dec_int)]) l (old, ok) = (old, ok).
Proof.
  induction 1 as [|[k v] l Hk _ IH]; [done|]. cbn [fold_left].
  unfold dec_member at 2. rewrite filter_cons_False by (by apply not_eq_sym in Hk). done.
Qed.

Lemma claims_expiry_spec payload before after n :
  json_Unmarshal payload = Some (JObject (before ++ ("exp"%string, enc_int n) :: after)) →
  Forall (λ kv, foldName kv.1 ≠ foldName "exp") (before ++ after) →
  - 2 ^ 62 ≤ n < 2 ^ 62 →
  claims_expiry payload = if n =? 0 then None else Some (n * Second).
Proof.
  intros Hj [Hb Ha]%Forall_app Hn. unfold claims_expiry. rewrite Hj. cbn [mbind option_bind].
  unfold decode, dec_struct. rewrite fold_left_app, other_members by done. cbn [fold_left].
  unfold dec_member at 2. rewrite filter_cons_True by done. cbn [head fst snd].
  rewrite dec_enc_int by (unfold int64_ok; lia). cbn [andb].
  rewrite other_members by done. cbn [mbind option_bind]. case_match; [done|].
  unfold time_Unix, unixToInternal. rewrite wrap64_id by lia. f_equal. lia.
Qed.

(** The client reads the expiry a token was issued with.  For every header and signature
    without a dot and every payload whose JSON text has one [exp] claim, the number [n],
    among any others, [tokenExpiry] of the token - the three parts joined by dots, the
    payload in unpadded URL base64 - is the [n]-th second since 1970, or an error for
    [n = 0]; a text that does not have three parts is an error. *)
Theorem tokenExpiry_roundtrip header payload signature before after n other :
  has_char "." header = false → has_char "." signature = false →
  json_Unmarshal payload = Some (JObject (before ++ ("exp"%string, enc_int n) :: after)) →
  Forall (λ kv, foldName kv.1 ≠ foldName "exp") (before ++ after) →
  - 2 ^ 62 ≤ n < 2 ^ 62 → length (Split "." other) ≠ 3%nat →
  tokenExpiry (header +:+ String "." (EncodeToString payload +:+ String "." signature)) =
    (if n =? 0 then None else Some (n * Second)) ∧
  tokenExpiry other = None.
Proof.
  intros Hh Hs Hj Hm Hn Hother. unfold tokenExpiry. split.
  - rewrite Split_first by done. rewrite Split_first by apply EncodeToString_no_dot.
    rewrite Split_none by done. rewrite Decode_Encode. simpl.
    by eapply claims_expiry_spec.
  - destruct (Split "." other) as [|a [|b [|c [|d l]]]]; done.
Qed.

(** ** The refresher *)

(** A token good for more than the window in which it is renewed. *)
Definition long_lived (token : string) (now : Z) : Prop :=
  ∃ exp, tokenExpiry token = Some exp ∧ now + advanceWindow ≤ exp < now + 2 ^ 62.

(** The context stays open and the callback answers within six seconds. *)
Definition prompt (r : Round) : Prop :=
  done_sleeping r = false ∧ done_before_call r = false ∧ done_after_call r = false ∧
  done_backing_off r = false ∧ 0 ≤ call_takes r ≤ 6 * Second.

(** Every new token is long-lived, and the callback fails at most [k] times before the next
    success and three times in a row after that. *)
Fixpoint few_failures (k : nat) (rounds : list Round) (st : Refresher) : Prop :=
  match rounds with
  | [] => True
  | r :: rounds' =>
      prompt r ∧
      match refresh_round r st, new_token r with
      | Some st', Some token => long_lived token (rf_now st') ∧ few_failures 3 rounds' st'
      | Some st', None => match k with S k' => few_failures k' rounds' st' | O => False end
      | None, _ => False
      end
  end.

(** The state before an attempt, [f] failures after the last success. *)
Definition on_schedule (f : Z) (exp : Z) (st : Refresher) : Prop :=
  tokenExpiry (rf_token st) = Some exp ∧ exp < rf_now st + 2 ^ 62 ∧
  0 < retryBackoff st ≤ initial_retry * 2 ^ f ∧
  rf_now st ≤ exp - advanceWindow + (6 * f + 5 * (2 ^ f - 1)) * Second.

Lemma long_lived_on_schedule token now b :
  0 < b ≤ initial_retry → long_lived token now →
  ∃ exp, on_schedule 0 exp (mkRefresher token b now).
Proof.
  intros Hb (exp & He & Hr). exists exp. unfold on_schedule, advanceWindow in *. simpl.
  rewrite Z.mul_1_r. split_and!; [done|lia..].
Qed.

(** The time of the callback's answer, and the state after a failure. *)
Lemma attempt_on_schedule f exp st r :
  0 ≤ f ≤ 3 → prompt r → on_schedule f exp st →
  ∃ now backoff, rf_now st ≤ now ∧ exp < now + 2 ^ 62 ∧ 0 < backoff ≤ initial_retry * 2 ^ f ∧
    now ≤ exp - advanceWindow + (6 * (f + 1) + 5 * (2 ^ f - 1)) * Second ∧
    refresh_round r st =
      match new_token r with
      | None => Some (mkRefresher (rf_token st) (Z.min (backoff * 2) (60 * Second)) (now + backoff))
      | Some token => Some (mkRefresher token initial_retry now)
      end.
Proof.
  intros Hf (Hd1 & Hd2 & Hd3 & Hd4 & Ht) (He & Hfar & Hb & Hnow).
  unfold refresh_round, sleep_until. rewrite He.
  assert (1 ≤ 2 ^ f) as Hp by (pose proof (Z.pow_pos_nonneg 2 f); lia).
  unfold initial_retry, advanceWindow, Second in *.
  assert (time_until exp (rf_now st) = exp - rf_now st ∨ exp - rf_now st ≤ - 2 ^ 63) as Hu.
  { unfold time_until. lia. }
  assert (- 2 ^ 63 < exp - rf_now st - 60 * 1000000000) as Hlow.
  { assert (2 ^ f ≤ 2 ^ 3) by (apply Z.pow_le_mono_r; lia). lia. }
  destruct Hu as [->|]; [|lia]. rewrite wrap64_id by lia.
  destruct (exp - rf_now st - 60 * 1000000000 <=? 0) eqn:Hle.
  - apply Z.leb_le in Hle. rewrite Hd2, Hd3, Hd4. simpl.
    exists (rf_now st + 0 + call_takes r), (retryBackoff st). split_and!; [lia..|done].
  - apply Z.leb_gt in Hle. rewrite Hd1, Hd2, Hd3, Hd4, andb_false_r. simpl.
    eexists (rf_now st + (exp - rf_now st - 60 * 1000000000) + call_takes r), (5 * 1000000000).
    split_and!; [lia..|done].
Qed.

Lemma on_schedule_runs rounds : ∀ k st exp,
  (k ≤ 3)%nat → on_schedule (3 - Z.of_nat k) exp st → few_failures k rounds st →
  Forall (λ ts, ∃ exp, tokenExpiry ts.2 = Some exp ∧ ts.1 < exp) (runRefresher rounds st).2 ∧
  ∃ st', (runRefresher rounds st).1 = Some st' ∧
    ∃ exp, tokenExpiry (rf_token st') = Some exp ∧ rf_now st' < exp.
Proof.
  induction rounds as [|r rounds IH]; intros k st exp Hk Hs Hfew; simpl.
  { split; [constructor|]. exists st. split; [done|]. exists exp.
    destruct Hs as (He & _ & _ & Hnow). split; [done|].
    assert (2 ^ (3 - Z.of_nat k) ≤ 2 ^ 3) by (apply Z.pow_le_mono_r; lia).
    unfold advanceWindow, Second in *. lia. }
  destruct Hfew as [Hp Hfew].
  destruct (attempt_on_schedule (3 - Z.of_nat k) exp st r) as
    (now & b & _ & Hfar & Hb & Hnow & Hround); [lia|done..|].
  rewrite Hround in Hfew |- *.
  assert (2 ^ (3 - Z.of_nat k) ≤ 2 ^ 3) as Hpow by (apply Z.pow_le_mono_r; lia).
  destruct Hs as (He & _). destruct (new_token r) as [token|].
  - destruct Hfew as [Hl Hfew].
    destruct (long_lived_on_schedule token now initial_retry) as [exp' Hs'];
      [unfold initial_retry, Second; lia|done|].
    destruct (IH 3%nat _ exp' ltac:(lia) Hs' Hfew) as [Hall Hlast].
    destruct (runRefresher rounds _) as [last sets]. simpl in *. split; [|done].
    constructor; [|done]. exists exp. split; [done|]. simpl. unfold advanceWindow, Second in *. lia.
  - destruct k as [|k]; [done|].
    assert (on_schedule (3 - Z.of_nat k) exp
      (mkRefresher (rf_token st) (Z.min (b * 2) (60 * Second)) (now + b))) as Hs'.
    { unfold on_schedule. simpl. replace (3 - Z.of_nat k) with (Z.succ (3 - Z.of_nat (S k))) by lia.
      rewrite Z.pow_succ_r by lia. unfold initial_retry, advanceWindow, Second in *.
      split_and!; [done|lia..]. }
    destruct (IH k _ exp ltac:(lia) Hs' Hfew) as [Hall Hlast].
    by destruct (runRefresher rounds _) as [last sets].
Qed.

(** The refresher keeps an unexpired token in the store.  Started on a token good for
    at least a minute, while the context is open, the callback answers within six seconds
    with tokens good for at least a minute and fails at most three times in a row, every
    token is replaced before it expires, and the token in the store is unexpired after
    every iteration; four failures in a row, however quick, are too many: the next attempt
    comes fifteen seconds after the expiry. *)
Theorem refresher_keeps_token_fresh token start rounds :
  long_lived token start →
  let st := mkRefresher token initial_retry start in
  few_failures 3 rounds st →
  (Forall (λ set, ∃ exp, tokenExpiry set.2 = Some exp ∧ set.1 < exp) (runRefresher rounds st).2 ∧
   ∃ st', (runRefresher rounds st).1 = Some st' ∧
     ∃ exp, tokenExpiry (rf_token st') = Some exp ∧ rf_now st' < exp) ∧
  ∀ exp, tokenExpiry token = Some exp → exp = start + advanceWindow →
    runRefresher (replicate 4 (mkRound false false 0 None false false)) st =
      (Some (mkRefresher token (60 * Second) (exp + 15 * Second)), []).
Proof.
  intros Hl st Hfew. split.
  - destruct (long_lived_on_schedule token start initial_retry) as [exp Hs];
      [unfold initial_retry, Second; lia|done|].
    by apply (on_schedule_runs rounds 3 st exp).
  - intros exp He ->. unfold st. simpl.
    unfold refresh_round, sleep_until. simpl.
    repeat (rewrite He; simpl;
      match goal with |- context [wrap64 (time_until ?x ?n - ?a)] =>
        assert ((wrap64 (time_until x n - a) <=? 0) = true) as ->
          by (apply Z.leb_le; unfold time_until, advanceWindow, initial_retry, Second in *;
              rewrite wrap64_id by lia; lia)
      end; simpl).
    do 2 f_equal. f_equal. unfold advanceWindow, initial_retry, Second. lia.
Qed.
End token_laws.

(** ** Options *)

Section dial_laws.
Context {TLS Raw Refresh Conn : Type} (empty_tls : TLS).

Lemma option_eta {A} (x : option A) : match x with Some a => Some a | None => None end = x.
Proof. by destruct x. Qed.

Definition bearer_token_of (o : DialOption TLS Raw Refresh) : option string :=
  match o with WithBearerToken token => Some token | _ => None end.
Definition refresher_of (o : DialOption TLS Raw Refresh) : option Refresh :=
  match o with WithTokenRefresher r => Some r | _ => None end.

(** What a dialled client is, whatever the order of its options: its store holds the last
    bearer token, every call carries that token - none without one - and the refresher
    runs exactly if there are both a bearer token and a callback, with the last callback;
    a token set later is the one the following calls carry. *)
Theorem dial_options NewClient addr opts (c : Client Refresh Conn) :
  Dial empty_tls NewClient addr opts = Some c →
  let cfg := foldl (apply_option empty_tls) (mkDialConfig [] None None) opts in
  client_store c = last (omap bearer_token_of opts) ∧
  refreshing c = match last (omap bearer_token_of opts) with
                 | Some _ => last (omap refresher_of opts) | None => None end ∧
  (∀ kv, kv ∈ metadata_of (grpcOpts cfg) (client_store c) ↔
     ∃ token, client_store c = Some token ∧ kv = ("authorization", "Bearer " +:+ token)%string) ∧
  (∀ token, match SetToken token c with
            | Some c' => client_store c' = Some token ∧ refreshing c' = refreshing c
            | None => omap bearer_token_of opts = []
            end).
Proof.
  intros Hd cfg.
  assert (∀ os (cfg0 : dialConfig TLS Raw Refresh),
    let cfg1 := foldl (apply_option empty_tls) cfg0 os in
    store cfg1 = match last (omap bearer_token_of os) with Some t => Some t | None => store cfg0 end ∧
    refresher cfg1 =
      match last (omap refresher_of os) with Some r => Some r | None => refresher cfg0 end ∧
    (bearer_credentials ∈ grpcOpts cfg1 ↔
       bearer_credentials ∈ grpcOpts cfg0 ∨ omap bearer_token_of os ≠ [])) as Hfold.
  { intros os. induction os as [|o os IH] using rev_ind; intros cfg0; simpl.
    - split_and!; [done..|]. split; [by left|by intros [|]].
    - destruct (IH cfg0) as (Hst & Hre & Hg). rewrite foldl_app. simpl.
      rewrite !omap_app. destruct o; simpl; rewrite ?app_nil_r, ?last_snoc; simpl.
      all: split_and!; try done; try (by destruct (last _)).
      all: rewrite ?elem_of_app, ?list_elem_of_singleton, ?Hg.
      all: try (split; [intros [?|?]; [done|discriminate]|by left]).
      split; [|by right]. intros _. right. by destruct (omap bearer_token_of os). }
  destruct (Hfold opts (mkDialConfig [] None None)) as (Hst & Hre & Hg). fold cfg in Hst, Hre, Hg.
  simpl in *. unfold Dial in Hd. fold cfg in Hd.
  destruct (NewClient addr (grpcOpts cfg)) as [cn|]; [|done]. simpl in Hd. injection Hd as <-.
  simpl. assert (store cfg = last (omap bearer_token_of opts)) as Hst'
    by (rewrite Hst; apply option_eta).
  assert (refresher cfg = last (omap refresher_of opts)) as Hre'
    by (rewrite Hre; apply option_eta).
  split_and!.
  - done.
  - by rewrite Hst', Hre'.
  - intros kv. unfold metadata_of, GetRequestMetadata. rewrite list_elem_of_bind. split.
    + intros (o & Hkv & _). destruct o, (store cfg) as [token|]; set_solver.
    + intros (token & Htok & ->). exists bearer_credentials. rewrite Htok. split; [by left|].
      apply Hg. right. rewrite Hst' in Htok. by destruct (omap bearer_token_of opts).
  - intros token. unfold SetToken. simpl. destruct (store cfg) as [t|]; [done|].
    by apply last_None.
Qed.
End dial_laws.
