(* ===== verification/Consumer.v ===== *)
(** * The Go client: consumers

    [clients/go-client/consumer.go]: the configuration of a consumer, the dispatch of one
    message, the polling loop of [ConsumeBatch] as a function of what each poll meets, and
    [Consume] - a stream that is drained, handler goroutines behind a semaphore, waits
    between reconnections, a context that is cancelled at some point - as a transition
    relation. *)

From S2P Require Import Prelude.
From S2P Require Import Grpc.
From S2P Require Import Client.

(** ** Configuration *)

Record consumerConfig := mkConsumerConfig {
  concurrency : Z; cfg_visibilityTimeout : Z; cfg_consumerGroup : string }.

(** [n] of [WithVisibilityTimeout] is a [uint32]. *)
Inductive ConsumerOption :=
| WithConcurrency (n : Z) | WithVisibilityTimeout (seconds : Z) | WithConsumerGroup (group : string).

Definition apply_consumer (cfg : consumerConfig) (o : ConsumerOption) : consumerConfig :=
  match o with
  | WithConcurrency n => mkConsumerConfig n (cfg_visibilityTimeout cfg) (cfg_consumerGroup cfg)
  | WithVisibilityTimeout vt => mkConsumerConfig (concurrency cfg) vt (cfg_consumerGroup cfg)
  | WithConsumerGroup g => mkConsumerConfig (concurrency cfg) (cfg_visibilityTimeout cfg) g
  end.

Definition NewConsumer (opts : list ConsumerOption) : consumerConfig :=
  foldl apply_consumer (mkConsumerConfig 1 0 "") opts.

(** The timeout a request carries: none for zero. *)
Definition requested_timeout (cfg : consumerConfig) : option Z :=
  if 0 <? cfg_visibilityTimeout cfg then Some (cfg_visibilityTimeout cfg) else None.

Definition subscribe_request (topic : string) (cfg : consumerConfig) : SubscribeRequest :=
  mkSubscribeRequest topic (requested_timeout cfg) (cfg_consumerGroup cfg).

(** [uint32(n)] *)
Definition uint32 (n : Z) : Z := n `mod` 2 ^ 32.
Definition batch_request (topic : string) (batchSize : Z) (cfg : consumerConfig)
    : BatchDequeueRequest :=
  mkBatchDequeueRequest topic (uint32 batchSize) (requested_timeout cfg) (cfg_consumerGroup cfg).

(** ** Waiting *)

Definition backoffStart : Z := 500 * Millisecond.
Definition backoffMax : Z := 30 * Second.

Definition nextBackoff (b : Z) : Z := let b := b * 2 in if backoffMax <? b then backoffMax else b.

Lemma nextBackoff_range b :
  backoffStart ≤ b ≤ backoffMax → backoffStart ≤ nextBackoff b ≤ backoffMax.
Proof.
  unfold nextBackoff, backoffStart, backoffMax, Millisecond, Second. case_match; reflect_bools; lia.
Qed.

(** [n] doublings. *)
Definition doubled (n : nat) : Z := Z.min (backoffStart * 2 ^ Z.of_nat n) backoffMax.

Lemma nextBackoff_doubled n : nextBackoff (doubled n) = doubled (S n).
Proof.
  unfold nextBackoff, doubled. rewrite Nat2Z.inj_succ, Z.pow_succ_r by lia.
  pose proof (Z.pow_pos_nonneg 2 (Z.of_nat n)).
  unfold backoffStart, backoffMax, Millisecond, Second. case_match; reflect_bools; lia.
Qed.

(** How a handler ends; [panicked] carries the printed value. *)
Inductive handler_result := returned_nil | returned_error (text : string) | panicked (value : string).

Section consumer.
Context {S : Type} `{QS : QueueServiceClient S}.

(** [dispatch], after the handler: the error of the call is only logged. *)
Definition dispatch (f : fate) (m : Delivered) (res : handler_result) (s : S) : S :=
  match res with
  | returned_nil => (msg_Ack f m s).2
  | returned_error text => (msg_Nack f m text s).2
  | panicked value => (msg_Nack f m ("panic in handler: " +:+ value) s).2
  end.

(** ** ConsumeBatch *)

(** What one turn of the loop meets: the points at which the context is found done, the
    fate of the poll, and what the handler does with a batch - its error is only logged. *)
Record BatchTurn := mkBatchTurn {
  done_at_top : bool; poll : fate; done_after_poll : bool; done_in_wait : bool;
  batch_handler : list Delivered → S → S;
}.

(** The waits, the batches handed to the handler, whether the loop has returned, the state. *)
Fixpoint ConsumeBatch (cfg : consumerConfig) (topic : string) (batchSize : Z) (backoff : Z)
    (turns : list BatchTurn) (s : S) : list Z * list (list Delivered) * bool * S :=
  match turns with
  | [] => ([], [], false, s)
  | t :: turns' =>
      if done_at_top t then ([], [], true, s)
      else
        let '(resp, s1) := call (poll t) (pb_BatchDequeue (batch_request topic batchSize cfg)) s in
        let wait :=
          if done_in_wait t then ([backoff], [], true, s1)
          else let '(ws, bs, ret, s2) :=
                 ConsumeBatch cfg topic batchSize (nextBackoff backoff) turns' s1 in
               (backoff :: ws, bs, ret, s2) in
        match resp with
        | Err _ => if done_after_poll t then ([], [], true, s1) else wait
        | Ok [] => wait
        | Ok ms =>
            let batch := dequeueProtoToMessage (cfg_consumerGroup cfg) <$> ms in
            let '(ws, bs, ret, s2) :=
              ConsumeBatch cfg topic batchSize backoffStart turns' (batch_handler t batch s1) in
            (ws, batch :: bs, ret, s2)
        end
  end.

(** ** Consume *)

(** Where the loop is: opening a stream; waiting after a failed opening or after a broken
    stream; receiving; holding a message for which it waits for a slot; returned. *)
Inductive phase :=
| Opening | WaitOpen | WaitStream | Receiving | Acquiring (m : Delivered) | Returned.

(** The loop with the messages the transport has ready, the running handlers, the handled
    messages with their outcomes, all the messages received so far, and the server. *)
Record Consumer := mkConsumer {
  c_phase : phase;
  c_backoff : Z;
  inbox : list Delivered;
  running_handlers : list Delivered;
  handled : list (Delivered * handler_result);
  received : list Delivered;
  ctx_done : bool;
  server_state : S;
}.

Definition start_consumer (s : S) : Consumer := mkConsumer Opening backoffStart [] [] [] [] false s.

Definition goto_phase (p : phase) (c : Consumer) : Consumer :=
  mkConsumer p (c_backoff c) (inbox c) (running_handlers c) (handled c) (received c) (ctx_done c)
    (server_state c).
Definition goto_backoff (p : phase) (b : Z) (c : Consumer) : Consumer :=
  mkConsumer p b (inbox c) (running_handlers c) (handled c) (received c) (ctx_done c)
    (server_state c).

(** [n] is the capacity of the semaphore. *)
Inductive consume_step (n : Z) : Consumer → Consumer → Prop :=
(** [ctx] is cancelled. *)
| step_cancel c :
    ctx_done c = false →
    consume_step n c
      (mkConsumer (c_phase c) (c_backoff c) (inbox c) (running_handlers c) (handled c)
         (received c) true (server_state c))
(** The server and the network: the stream brings messages while the context is open. *)
| step_arrive c ms s' :
    ctx_done c = false → c_phase c = Receiving →
    consume_step n c
      (mkConsumer Receiving (c_backoff c) (inbox c ++ ms) (running_handlers c) (handled c)
         (received c) false s')
(** [Subscribe] yields a new stream, or an error. *)
| step_open c :
    c_phase c = Opening →
    consume_step n c
      (mkConsumer Receiving (c_backoff c) [] (running_handlers c) (handled c) (received c)
         (ctx_done c) (server_state c))
| step_open_error c :
    c_phase c = Opening →
    consume_step n c (goto_phase (if ctx_done c then Returned else WaitOpen) c)
(** The waits elapse, or the context is done first. *)
| step_elapse_open c :
    c_phase c = WaitOpen →
    consume_step n c (goto_backoff Opening (nextBackoff (c_backoff c)) c)
| step_elapse_stream c :
    c_phase c = WaitStream →
    consume_step n c
      (goto_backoff (if ctx_done c then Returned else Opening) (nextBackoff (c_backoff c)) c)
| step_wait_done c :
    c_phase c = WaitOpen ∨ c_phase c = WaitStream → ctx_done c = true →
    consume_step n c (goto_phase Returned c)
(** [Recv]: a message, the end of the stream or the context's end, an error. *)
| step_recv c m ms :
    c_phase c = Receiving → inbox c = m :: ms →
    consume_step n c
      (mkConsumer (Acquiring m) backoffStart ms (running_handlers c) (handled c)
         (received c ++ [m]) (ctx_done c) (server_state c))
| step_recv_end c :
    c_phase c = Receiving →
    consume_step n c (goto_phase (if ctx_done c then Returned else Opening) c)
| step_recv_error c :
    c_phase c = Receiving → ctx_done c = false → consume_step n c (goto_phase WaitStream c)
(** [sem <- struct{}{}] and the start of the goroutine. *)
| step_acquire c m :
    c_phase c = Acquiring m → Z.of_nat (length (running_handlers c)) < n →
    consume_step n c
      (mkConsumer Receiving (c_backoff c) (inbox c) (m :: running_handlers c) (handled c)
         (received c) (ctx_done c) (server_state c))
(** A handler ends, its message is settled unless the call fails - as it does under a
    context that is done - and its slot is released. *)
| step_finish c l1 m l2 res f :
    running_handlers c = l1 ++ m :: l2 → (ctx_done c = true → f = not_sent) →
    consume_step n c
      (mkConsumer (c_phase c) (c_backoff c) (inbox c) (l1 ++ l2) (handled c ++ [(m, res)])
         (received c) (ctx_done c) (dispatch f m res (server_state c))).

(** [Consume] panics in [make] for a negative concurrency and runs from here otherwise. *)
Definition reaches (cfg : consumerConfig) (s : S) (c : Consumer) : Prop :=
  0 ≤ concurrency cfg ∧ rtc (consume_step (concurrency cfg)) (start_consumer s) c.

(** ** Invariants *)

Definition held (p : phase) : list Delivered :=
  match p with Acquiring m => [m] | _ => [] end.

Record consumer_ok (n : Z) (c : Consumer) : Prop := {
  ok_slots : Z.of_nat (length (running_handlers c)) ≤ n;
  ok_backoff : backoffStart ≤ c_backoff c ≤ backoffMax;
  ok_messages : received c ≡ₚ held (c_phase c) ++ running_handlers c ++ (handled c).*1;
}.

Lemma consumer_ok_step n c c' : consumer_ok n c → consume_step n c c' → consumer_ok n c'.
Proof.
  assert (backoffStart ≤ backoffStart ≤ backoffMax) as Hstart by done.
  intros [Hs Hb Hm] Hstep.
  destruct Hstep as [c Hd|c ms s' Hd Hp|c Hp|c Hp|c Hp|c Hp|c Hp Hd|c m ms Hp Hi|c Hp|c Hp Hd
    |c m Hp Hn|c l1 m l2 res f Hr Hf]; split; simpl in *;
    rewrite ?Hp in Hm; simpl in Hm; try done; try by apply nextBackoff_range.
  all: try (destruct (ctx_done c); simpl; by rewrite Hm).
  - destruct Hp as [Hp|Hp]; rewrite Hp in Hm; by simpl in Hm.
  - rewrite Hm. by rewrite Permutation_app_comm.
  - lia.
  - rewrite Hr, length_app in Hs. simpl in Hs. rewrite length_app. lia.
  - rewrite Hm, Hr, fmap_app. simpl. f_equiv. rewrite <-!app_assoc. f_equiv. simpl.
    by rewrite Permutation_cons_append, app_assoc.
Qed.

(** [C27] The bookkeeping of [Consume], in every state it can reach: no more handlers run than
    the concurrency; every message received so far is, exactly once, waiting for a slot,
    running, or handled; and every wait between connections is between 500 ms and 30 s. *)
Theorem consumer_invariant cfg s c :
  reaches cfg s c →
  Z.of_nat (length (running_handlers c)) ≤ concurrency cfg ∧
  received c ≡ₚ held (c_phase c) ++ running_handlers c ++ (handled c).*1 ∧
  backoffStart ≤ c_backoff c ≤ backoffMax.
Proof.
  intros [Hn Hsteps].
  assert (consumer_ok (concurrency cfg) (start_consumer s)) as Hok by by split.
  assert (consumer_ok (concurrency cfg) c) as [??]; [|done].
  induction Hsteps as [|c1 c2 c3 Hstep _ IH]; [done|]. apply IH. by eapply consumer_ok_step.
Qed.

(** ** Termination *)

(** What is left to do once the context is done. *)
Definition phase_work (p : phase) : nat :=
  match p with
  | Returned => 0 | Receiving => 1 | Opening | WaitStream => 2 | WaitOpen | Acquiring _ => 3
  end%nat.
Definition work (c : Consumer) : nat :=
  (4 * length (inbox c) + length (running_handlers c) + phase_work (c_phase c))%nat.

Lemma work_decreases n c c' :
  ctx_done c = true → consume_step n c c' → ctx_done c' = true ∧ (work c' < work c)%nat.
Proof.
  unfold work. intros Hd Hstep.
  destruct Hstep as [c Hd'|c ms s' Hd' Hp|c Hp|c Hp|c Hp|c Hp|c Hp Hd'|c m ms Hp Hi|c Hp|c Hp Hd'
    |c m Hp Hn|c l1 m l2 res f Hr Hf]; simpl; rewrite ?Hd in *; simplify_eq; (split; [done|]);
    rewrite ?Hp; simpl; try lia.
  - destruct Hp as [-> | ->]; simpl; lia.
  - rewrite Hi. simpl. lia.
  - rewrite Hr, !length_app. simpl. lia.
Qed.

(** Without slots a message that waits for one waits for ever. *)
Lemma zero_slots_stuck m c c' :
  c_phase c = Acquiring m → consume_step 0 c c' → c_phase c' = Acquiring m.
Proof.
  intros Hp Hstep.
  destruct Hstep as [c Hd|c ms s' Hd Hp'|c Hp'|c Hp'|c Hp'|c Hp'|c Hp' Hd|c m' ms Hp' Hi|c Hp'
    |c Hp' Hd|c m' Hp' Hn|c l1 m' l2 res f Hr Hf]; simpl; try congruence.
  - destruct Hp'; congruence.
  - lia.
Qed.

(** A run whose context stays open or is done takes its messages' settlements as they come;
    under a done context no settlement reaches the server. *)
Lemma done_keeps_server n c c' :
  ctx_done c = true → consume_step n c c' → server_state c' = server_state c.
Proof.
  intros Hd Hstep. destruct Hstep as [| | | | | | | | | | |c l1 m l2 res f Hr Hf]; try done; simpl.
  - by rewrite Hd in *.
  - rewrite (Hf Hd). by destruct res.
Qed.

(** [C28] [Consume] returns once its context is done and the handlers end.  With a concurrency
    of at least one, from any reachable state with a done context every run is shorter than
    the work left - four per message ready, one per running handler, at most three for the
    loop - and a run that cannot go on has returned with every handler ended; so every
    received message has been handled.  With a concurrency of zero it does not: a first
    message blocks the loop for good, whether the context is done or not. *)
Theorem consume_returns cfg s c :
  reaches cfg s c →
  (1 ≤ concurrency cfg → ctx_done c = true →
   (∀ k c', nsteps (consume_step (concurrency cfg)) k c c' → (k ≤ work c)%nat) ∧
   (∀ c', rtc (consume_step (concurrency cfg)) c c' →
      (∀ c'', ¬ consume_step (concurrency cfg) c' c'') →
      c_phase c' = Returned ∧ running_handlers c' = [] ∧ received c' ≡ₚ (handled c').*1)) ∧
  (concurrency cfg = 0 → ∀ m, c_phase c = Acquiring m →
   ∀ c', rtc (consume_step (concurrency cfg)) c c' → c_phase c' = Acquiring m).
Proof.
  intros Hreach. split.
  - intros Hn Hd. split.
    + intros k. revert c Hreach Hd. induction k as [|k IH]; intros c Hreach Hd c' Hk; [lia|].
      inversion Hk as [|? ? c1 ? Hstep Hrest]; subst.
      destruct (work_decreases _ _ _ Hd Hstep) as [Hd1 Hw].
      assert (k ≤ work c1)%nat; [|lia]. apply (IH c1 ) with c'; [|done..].
      destruct Hreach as [? Hsteps]. split; [done|]. by eapply rtc_r.
    + intros c' Hrun Hstuck.
      assert (ctx_done c' = true) as Hd'.
      { clear Hstuck Hreach. induction Hrun as [|? ? ? Hstep _ IH]; [done|].
        apply IH. by eapply work_decreases. }
      assert (running_handlers c' = []) as Hnone.
      { destruct (running_handlers c') as [|m l] eqn:Hr; [done|].
        exfalso. eapply Hstuck, (step_finish _ c' [] m l returned_nil not_sent); [done|done]. }
      assert (c_phase c' = Returned) as Hph.
      { destruct (c_phase c') as [| | | |m|] eqn:Hp; [| | | | |done]; exfalso.
        - by eapply Hstuck, step_open.
        - by eapply Hstuck, step_elapse_open.
        - by eapply Hstuck, step_elapse_stream.
        - by eapply Hstuck, step_recv_end.
        - eapply Hstuck, (step_acquire _ c' m); [done|]. rewrite Hnone. simpl. lia. }
      split_and!; [done..|].
      assert (consumer_ok (concurrency cfg) c') as [_ _ Hm].
      { destruct Hreach as [? Hsteps].
        assert (rtc (consume_step (concurrency cfg)) (start_consumer s) c') as Hall
          by by etrans.
        assert (consumer_ok (concurrency cfg) (start_consumer s)) as Hok by by split.
        clear -Hall Hok. induction Hall as [|? ? ? Hstep _ IH]; [done|].
        apply IH. by eapply consumer_ok_step. }
      by rewrite Hm, Hph, Hnone.
  - intros H0 m Hp c' Hrun. rewrite H0 in *.
    induction Hrun as [|c1 c2 c3 Hstep _ IH]; [done|]. apply IH.
    + destruct Hreach as [? Hsteps]. split; [done|]. rewrite H0 in *. by eapply rtc_r.
    + by eapply zero_slots_stuck.
Qed.

(** ** Polling *)

(** The polling of [ConsumeBatch]: every wait is between 500 ms and 30 s, and as long as
    the polls bring nothing the [n]-th wait is 500 ms doubled [n] times, at most 30 s; an
    error is never returned, so a batch size the server refuses - zero, negative, or above
    1000 modulo 2^32 - keeps the loop polling without handing out a message. *)
Theorem batch_polling cfg topic batchSize n s :
  (∀ turns s', Forall (λ w, backoffStart ≤ w ≤ backoffMax)
     (ConsumeBatch cfg topic batchSize backoffStart turns s').1.1.1) ∧
  (∀ t, done_at_top t = false → done_after_poll t = false → done_in_wait t = false →
   (∀ s', match (call (poll t) (pb_BatchDequeue (batch_request topic batchSize cfg)) s').1 with
          | Ok (_ :: _) => False | _ => True end) →
   let '(waits, batches, returned, _) :=
     ConsumeBatch cfg topic batchSize backoffStart (replicate n t) s in
   waits = doubled <$> seq 0 n ∧ batches = [] ∧ returned = false).
Proof.
  split.
  - assert (∀ turns b s', backoffStart ≤ b ≤ backoffMax →
      Forall (λ w, backoffStart ≤ w ≤ backoffMax)
        (ConsumeBatch cfg topic batchSize b turns s').1.1.1) as Hall; [|intros; by apply Hall].
    intros turns. induction turns as [|t turns IH]; intros b s' Hb; simpl; [constructor|].
    destruct (done_at_top t); [constructor|].
    destruct (call (poll t) _ s') as [[[|m ms]|x] s1].
    + destruct (done_in_wait t); [by apply Forall_singleton|].
      specialize (IH (nextBackoff b) s1 (nextBackoff_range _ Hb)).
      destruct (ConsumeBatch _ _ _ _ turns s1) as [[[ws bs] r] s2]. by constructor.
    + specialize (IH backoffStart
        (batch_handler t (dequeueProtoToMessage (cfg_consumerGroup cfg) <$> m :: ms) s1)
        ltac:(done)).
      by destruct (ConsumeBatch _ _ _ _ turns _) as [[[ws bs] r] s2].
    + destruct (done_after_poll t); [constructor|]. destruct (done_in_wait t); [by apply Forall_singleton|].
      specialize (IH (nextBackoff b) s1 (nextBackoff_range _ Hb)).
      destruct (ConsumeBatch _ _ _ _ turns s1) as [[[ws bs] r] s2]. by constructor.
  - intros t Hd1 Hd2 Hd3 Hempty.
    assert (∀ k s', let '(waits, batches, returned, _) :=
        ConsumeBatch cfg topic batchSize (doubled k) (replicate n t) s' in
      waits = doubled <$> seq k n ∧ batches = [] ∧ returned = false) as Hk.
    2: { specialize (Hk O s). by replace (doubled 0) with backoffStart in Hk. }
    induction n as [|n IH]; intros k s'; simpl; [done|].
    rewrite Hd1, Hd2, Hd3. specialize (Hempty s').
    destruct (call (poll t) _ s') as [[[|m ms]|x] s1]; [|done|]; rewrite nextBackoff_doubled;
      specialize (IH (Datatypes.S k) s1);
      destruct (ConsumeBatch _ _ _ _ (replicate n t) s1) as [[[ws bs] r] s2];
      destruct IH as (-> & -> & ->); done.
Qed.
End consumer.
Arguments Consumer : clear implicits.
Arguments BatchTurn : clear implicits.
