(* ===== verification/EndToEnd.v ===== *)
(** * A message's way through client and server

    The consumer of [clients/go-client] on the stub that the service of
    [backend/internal/server/grpc.go] is: one message is sent on a subscription, handled,
    and settled by [dispatch] as the handler ends. *)

From S2P Require Import Prelude.
From S2P Require Import Store.
From S2P Require Import Avro.
From S2P Require Import Runtime.
From S2P Require Import Model.
From S2P Require Import TopicConfig.
From S2P Require Import Throttle.
From S2P Require Import Schema.
From S2P Require Import Dequeue.
From S2P Require Import Enqueue.
From S2P Require Import Lifecycle.
From S2P Require Import Replay.
From S2P Require Import Query.
From S2P Require Import System.
From S2P Require Import Caches.
From S2P Require Import Users.
From S2P Require Import Grpc.
From S2P Require Import Client.
From S2P Require Import Consumer.

Section end_to_end.
Context `{PG : Postgres} `{ST : Storage} `{CO : Codecs}.
Context (s : Service).

(** ** The service as a stub *)

(** A handler's own failure is answered like an error it maps to nothing else. *)
Definition rpc_run {A} (m : M (result Code A)) (e : Env) (w : World) : result Code A * World :=
  match m e w with (Ok r, w') => (r, w') | (Err _, w') => (Err Internal, w') end.

(** The calls of caller [c], carried out in [e]. *)
Definition stub (c : Caller) (e : Env) : QueueServiceClient World := {|
  pb_Enqueue req w := rpc_run (rpc_Enqueue s c req) e w;
  pb_BatchDequeue req w := rpc_run (rpc_BatchDequeue s c req) e w;
  pb_Ack req w := rpc_run (rpc_Ack c req) e w;
  pb_Nack req w := rpc_run (rpc_Nack s c req) e w;
|}.

(** One message through a consumer: a subscription whose first poll, in [e1], brings it,
    the handler, and the settling call of caller [c], in [e2]. *)
Definition deliver (c : Caller) (topic : string) (cfg : consumerConfig) (f : fate)
    (handler : Delivered → handler_result) (e1 e2 : Env) (w : World)
    : option Delivered * World :=
  match rpc_Subscribe s (mkCaller None true) (subscribe_request topic cfg) e1
          [(mkStreamTick false false false true, e1)] w with
  | (([resp], _, _), w1) =>
      let m := protoToMessage (cfg_consumerGroup cfg) resp in
      (Some m, dispatch (QS := stub c e2) f m (handler m) w1)
  | (_, w1) => (None, w1)
  end.

(** ** Settling *)

Context `{LAWS : !PostgresLaws} `{SLAWS : !StorageLaws}.

(** The lookup and the check before a settlement, for a caller who needs no grants. *)
Lemma settlement_reached c id r (m : M unit) e w :
  restricted c = None → w_faults w = [] → messages (w_db w) !! id = Some r →
  rpc_bind (topic_of id) (λ topic, rpc_bind (checkDequeueGrant c topic "") (λ _, settle m)) e w =
    settle m e w.
Proof.
  intros Hc Hf Hr. unfold rpc_bind at 1, topic_of, TopicForMessage, pool_query.
  rewrite run_bind, run_bind, run_try, run_bind, pool_stmt_calm by done. simpl. rewrite Hr. simpl.
  unfold rpc_bind. rewrite run_bind. unfold checkDequeueGrant. rewrite Hc. simpl.
  replace (set_db (w_db w) w) with w by by destruct w.
  done.
Qed.

Lemma Dequeue_calm topic vt : calm (Dequeue s topic vt).
Proof.
  assert (reports_no_loss (sql_claim_one topic (duration_seconds (resolveVisibilityTimeout s vt)))).
  { intros e db. unfold sql_claim_one. by destruct (select_messages _ _ _ _) as [|[]]. }
  unfold Dequeue, applyThroughputLimit, consumeTokens. cbv zeta.
  repeat (solve_calm; cbv zeta; try by apply calm_tx_stmt).
  unfold row_message. destruct (hydrate_metadata _) as [md|x] eqn:Hmd; [apply calm_ret|].
  apply calm_fail. intros [what ->]. unfold hydrate_metadata in Hmd. repeat case_match; done.
Qed.

(** What [Ack] makes of a message in processing, without faults. *)
Lemma settle_ack id r e w :
  db_ok (w_db w) → w_faults w = [] → messages (w_db w) !! id = Some r →
  m_status r = processing → message_log (w_db w) !! (m_topic r, pg_now e, id) = None →
  settled id (m_topic r) (log_of_message r) (pg_now e) (w_db w) (w_db (settle (Ack id) e w).2).
Proof.
  intros Hok Hf Hr Hst Hlog.
  pose proof (implements_calm _ _ _ _ (ack_implements id e w) (Ack_calm id) Hf) as Hack.
  unfold ack_on_tables in Hack. rewrite Hr, decide_True in Hack by done.
  destruct (archive_on_tables id (m_topic r) (log_of_message r) e (w_db w)) as [db1|x] eqn:Har.
  2: { unfold archive_on_tables, insert_log in Har. rewrite Hlog in Har. by case_match. }
  destruct Hack as [Hrun Hdb]. unfold settle. rewrite run_bind, run_try, Hrun. simpl.
  rewrite Hdb. by apply settled_intro.
Qed.

Lemma settle_world (m : M unit) e w : (settle m e w).2 = (m e w).2.
Proof.
  unfold settle. rewrite run_bind, run_try. destruct (m e w) as [[u|[]] w']; done.
Qed.

(** The columns and the key index accept a row. *)
Definition storable (id : uuid) (r : MessageRow) (ms : gmap uuid MessageRow) : Prop :=
  (int4 (m_retry_count r) ∧ int4 (m_max_retries r)) ∧ key_free id r ms.
#[local] Instance storable_dec id r ms : Decision (storable id r ms).
Proof. unfold storable. apply _. Defined.

(** What [Nack] makes of it: nothing if the row cannot be stored, as when its key is taken by
    a newer pending message. *)
Lemma nack_stores id text r e w :
  coherent w → w_faults w = [] → messages (w_db w) !! id = Some r → m_status r = processing →
  let r' := nacked (threshold_of s (m_topic r) (w_db w)) (pg_now e) text r in
  w_db (Nack s id text e w).2 =
    if decide (storable id r' (messages (w_db w)))
    then set_messages (<[id := r']> (messages (w_db w))) (w_db w) else w_db w.
Proof.
  intros Hco Hf Hr Hst r'.
  destruct (nack_implements s id text e w Hco) as (threshold & Hused & Hi).
  destruct (Hused r Hr) as [->|[_ ?]]; [|done].
  pose proof (implements_calm _ _ _ _ Hi (Nack_calm s id text) Hf) as Hn.
  unfold nack_on_tables in Hn. rewrite Hr, decide_False in Hn by naive_solver.
  unfold update_message in Hn. rewrite Hr in Hn. fold r' in Hn.
  unfold storable. repeat case_decide; simpl in Hn; destruct Hn as [_ Hn]; rewrite Hn; naive_solver.
Qed.

Lemma call_sent {X A} f (m : X → result Code A * X) x :
  f ≠ not_sent → (call f m x).2 = (m x).2.
Proof. destruct f; [|done..]. intros _. unfold call. by destruct (m x) as [[]]. Qed.

Lemma rpc_run_world {A} (m : M (result Code A)) e w : (rpc_run m e w).2 = (m e w).2.
Proof. unfold rpc_run. by destruct (m e w) as [[]]. Qed.

(** The settling call that reaches the service. *)
Lemma msg_Ack_sent c f m r e w :
  f ≠ not_sent → restricted c = None → w_faults w = [] → dm_ID m ≠ ""%string →
  dm_group m = ""%string → messages (w_db w) !! dm_ID m = Some r →
  (msg_Ack (QS := stub c e) f m w).2 = (settle (Ack (dm_ID m)) e w).2.
Proof.
  intros Hs Hc Hf Hid Hg Hr. unfold msg_Ack. rewrite call_sent by done. simpl.
  rewrite rpc_run_world. unfold rpc_Ack. simpl. rewrite bool_decide_false, Hg by done. simpl.
  by rewrite (settlement_reached c _ r (Ack (dm_ID m))).
Qed.

Lemma msg_Nack_sent c f m text r e w :
  f ≠ not_sent → restricted c = None → w_faults w = [] → dm_ID m ≠ ""%string →
  dm_group m = ""%string → messages (w_db w) !! dm_ID m = Some r →
  (msg_Nack (QS := stub c e) f m text w).2 = (Nack s (dm_ID m) text e w).2.
Proof.
  intros Hs Hc Hf Hid Hg Hr. unfold msg_Nack. rewrite call_sent by done. simpl.
  rewrite rpc_run_world. unfold rpc_Nack. simpl. rewrite bool_decide_false, Hg by done. simpl.
  by rewrite (settlement_reached c _ r (Nack s (dm_ID m) text)), settle_world.
Qed.

(** ** One message, one outcome *)

(** The claimed row. *)
Definition sent_row (cfg : consumerConfig) (e : Env) (r : MessageRow) : MessageRow :=
  let vt := match resolveVisibilityTimeoutFromProto (requested_timeout cfg) with
            | Ok vt => vt | Err _ => 0 end in
  claim (pg_now e) (duration_seconds (resolveVisibilityTimeout s vt)) r.

(** Message [m], of row [r], has been sent from [w] to a consumer without a group; the world
    is [w1] while its handler runs. *)
Record handed (topic : string) (cfg : consumerConfig) (e : Env) (w : World) (m : Delivered)
    (r : MessageRow) (w1 : World) : Prop := {
  handed_selected : select_messages (eligible (pg_now e) topic) 1 e (w_db w) = [(dm_ID m, r)];
  handed_payload : dm_Payload m = m_payload r;
  handed_retries : dm_RetryCount m = int32 (m_retry_count r);
  handed_group : dm_group m = ""%string;
  handed_ok : db_ok (w_db w1);
  handed_in_step : in_step w1;
  handed_messages : messages (w_db w1) = <[dm_ID m := sent_row cfg e r]> (messages (w_db w));
  handed_deliveries : message_deliveries (w_db w1) = message_deliveries (w_db w);
  handed_log : message_log (w_db w1) = message_log (w_db w);
  handed_config : topic_config (w_db w1) = topic_config (w_db w);
}.

Lemma handed_row topic cfg e w m r w1 :
  handed topic cfg e w m r w1 →
  messages (w_db w) !! dm_ID m = Some r ∧ eligible (pg_now e) topic r ∧
  messages (w_db w1) !! dm_ID m = Some (sent_row cfg e r).
Proof.
  intros [Hsel _ _ _ _ _ Hm _ _ _].
  destruct (select_messages_elem (eligible (pg_now e) topic) 1 e (w_db w) (dm_ID m) r)
    as (Hr & Hel & _); [rewrite Hsel; by left|].
  rewrite Hm, lookup_insert_eq. done.
Qed.

(** A delivery is a message handed over and its dispatch. *)
Lemma deliver_sent c topic n vt f handler e1 e2 w m w2 :
  db_ok (w_db w) → in_step w →
  let cfg := mkConsumerConfig n vt "" in
  deliver c topic cfg f handler e1 e2 w = (Some m, w2) →
  ∃ r w1, handed topic cfg e1 w m r w1 ∧ w2 = dispatch (QS := stub c e2) f m (handler m) w1.
Proof.
  intros Hok Hstep cfg. unfold deliver, rpc_Subscribe. simpl.
  case_bool_decide; [done|].
  destruct (resolveVisibilityTimeoutFromProto _) as [vt'|] eqn:Hvt; [|done].
  unfold checkDequeueGrant, restricted. simpl.
  unfold subscribe_iteration, dequeue_for. simpl. rewrite run_bind, run_try.
  pose proof (proj1 (dequeues_in_step s topic "" 0 vt') e1 w Hstep) as Hstep1.
  destruct (Dequeue s topic vt' e1 w) as [[msg|x] w1] eqn:Hdeq; [|destruct x; done].
  simpl in Hstep1 |- *. intros [= <- <-].
  destruct (Dequeue_Ok _ _ _ _ _ _ _ Hdeq) as (r & fs & tt' & tx & Hsel & Hrow & Hw1).
  destruct (row_message_fields _ _ _ Hrow) as (_ & _ & Hpay & _ & Hrc & _).
  assert (messages (w_db w) !! ID msg = Some r) as Hr.
  { apply (select_messages_elem (eligible (pg_now e1) topic) 1 e1 (w_db w) (ID msg) r).
    rewrite Hsel. by left. }
  exists r, w1. split; [|done].
  split; try (by rewrite Hw1); try done; simpl; [by rewrite <-Hrc| |].
  - rewrite Hw1. set (r1 := claim _ _ r).
    apply (db_ok_same (set_messages (<[ID msg := r1]> (messages (w_db w))) (w_db w)));
      [done..|]. apply set_message_ok; [by rewrite Hr|by apply key_free_not_pending|done].
  - rewrite Hw1. unfold sent_row. by rewrite Hvt.
Qed.

(** What the dispatch of a failed handler's message makes of the world. *)
Lemma dispatch_nack c topic cfg f text e1 e2 w m r w1 :
  restricted c = None → f ≠ not_sent → dm_ID m ≠ ""%string → handed topic cfg e1 w m r w1 →
  let sent := <[dm_ID m := sent_row cfg e1 r]> (messages (w_db w)) in
  let r2 := nacked (threshold_of s topic (w_db w)) (pg_now e2) text (sent_row cfg e1 r) in
  let w2 := (msg_Nack (QS := stub c e2) f m text w1).2 in
  db_ok (w_db w2) ∧ in_step w2 ∧ topic_config (w_db w2) = topic_config (w_db w) ∧
  messages (w_db w2) =
    if decide (storable (dm_ID m) r2 sent)
    then <[dm_ID m := r2]> (messages (w_db w)) else sent.
Proof.
  intros Hc Hf Hid Hh sent r2 w2. destruct (handed_row _ _ _ _ _ _ _ Hh) as (_ & Hel & Hr1).
  destruct Hh as [_ _ _ Hg Hok1 Hst1 Hm _ _ Hcfg]. pose proof Hst1 as [[Hco _] Hfs].
  assert (w2 = (Nack s (dm_ID m) text e2 w1).2) as Hw2
    by by apply (msg_Nack_sent c f m text (sent_row cfg e1 r) e2).
  pose proof (nack_stores (dm_ID m) text (sent_row cfg e1 r) e2 w1 Hco Hfs Hr1 eq_refl) as Hdb.
  change (m_topic (sent_row cfg e1 r)) with (m_topic r) in Hdb. rewrite (proj1 Hel) in Hdb.
  unfold threshold_of in Hdb. rewrite Hcfg, Hm in Hdb. fold (threshold_of s topic (w_db w)) in Hdb.
  fold r2 sent in Hdb. rewrite <-Hw2 in Hdb. split_and!.
  - assert (op keeps_ok (Nack s (dm_ID m) text)) as Hkeeps.
    { apply Nack_op; [apply _|]. intros f' db db' H Hok. by eapply update_message_ok. }
    rewrite Hw2. exact (Hkeeps e2 w1 Hok1).
  - rewrite Hw2. by apply (settlements_in_step s (dm_ID m) "" text).
  - rewrite Hdb, <-Hcfg. by case_decide.
  - rewrite Hdb. case_decide; [|done]. simpl. unfold sent. by rewrite insert_insert_eq.
Qed.

(** [C19] The handler's verdict decides what becomes of the message.  A consumer without a
    group, in a service without faults, is sent the oldest eligible message of its topic,
    with its payload, and the row waits as [processing] while the handler runs.  Then, for
    each way in which the handler can end: after [nil] the message, with its deliveries, is
    gone, and kept in the log exactly if the topic is replayable; after an error or a panic
    the row is the one a rejection makes - retried, failed or in the dead-letter topic -
    with the error's text, unless that row cannot be stored, as when a newer pending message
    holds its key, when it stays in processing.  No other message is touched.  If the
    settling call is not sent, as for every handler that ends after the context is
    cancelled, the row stays in processing; if only its answer is lost, the outcome is the
    same. *)
Theorem verdict_decides_fate c topic n vt f handler e1 e2 w m w2 :
  db_ok (w_db w) → in_step w → restricted c = None →
  messages (w_db w) !! ""%string = None →
  (∀ i, message_log (w_db w) !! (topic, pg_now e2, i) = None) →
  let cfg := mkConsumerConfig n vt "" in
  deliver c topic cfg f handler e1 e2 w = (Some m, w2) →
  ∃ r, messages (w_db w) !! dm_ID m = Some r ∧ m_topic r = topic ∧
    eligible (pg_now e1) topic r ∧ dm_Payload m = m_payload r ∧
    (∀ j rj, messages (w_db w) !! j = Some rj → eligible (pg_now e1) topic rj →
       j ∉ locked_messages e1 → j ≠ dm_ID m → m_created_at r ≤ m_created_at rj) ∧
    let r1 := sent_row cfg e1 r in
    let sent := <[dm_ID m := r1]> (messages (w_db w)) in
    m_status r1 = processing ∧
    (f = not_sent → messages (w_db w2) = sent ∧ message_log (w_db w2) = message_log (w_db w)) ∧
    (f ≠ not_sent →
     let rejected text :=
       let r2 := nacked (threshold_of s topic (w_db w)) (pg_now e2) text r1 in
       messages (w_db w2) = if decide (storable (dm_ID m) r2 sent)
                            then <[dm_ID m := r2]> (messages (w_db w)) else sent in
     match handler m with
     | returned_nil =>
         messages (w_db w2) = delete (dm_ID m) (messages (w_db w)) ∧
         (∀ i g, message_deliveries (w_db w2) !! (i, g) =
            if decide (i = dm_ID m) then None else message_deliveries (w_db w) !! (i, g)) ∧
         message_log (w_db w2) =
           (if is_replayable topic (w_db w)
            then <[(topic, pg_now e2, dm_ID m) := log_of_message r1]> (message_log (w_db w))
            else message_log (w_db w))
     | returned_error text => rejected text
     | panicked value => rejected ("panic in handler: " +:+ value)
     end).
Proof.
  intros Hok Hstep Hc Hempty Hlog cfg Hdel.
  destruct (deliver_sent _ _ _ _ _ _ _ _ _ _ _ Hok Hstep Hdel) as (r & w1 & Hh & ->). fold cfg in Hh.
  destruct (handed_row _ _ _ _ _ _ _ Hh) as (Hr & Hel & Hr1).
  assert (dm_ID m ≠ ""%string) as Hid by (intros Hid; by rewrite Hid, Hempty in Hr).
  pose proof Hh as [Hsel Hpay _ Hg Hok1 [_ Hf1] Hm1 Hd1 Hl1 Hcfg].
  exists r. split_and!; try done; [apply Hel|..].
  - intros j rj Hj Hej Hlj Hne.
    eapply (select_messages_fifo (eligible (pg_now e1) topic) 1 e1 (w_db w) (dm_ID m) r j rj);
      [rewrite Hsel; by left|done..|].
    rewrite Hsel. intros Hin'%list_elem_of_singleton. by simplify_eq.
  - intros r1 sent. split_and!; [done| |].
    { intros ->. unfold dispatch, msg_Ack, msg_Nack, call. by destruct (handler _). }
    intros Hsent. unfold dispatch. destruct (handler m) as [|text|value].
    + rewrite (msg_Ack_sent c f _ (sent_row cfg e1 r) e2) by done.
      assert (m_topic (sent_row cfg e1 r) = topic) as Htopic by apply Hel.
      destruct (settle_ack (dm_ID m) (sent_row cfg e1 r) e2 w1) as (Hm2 & Hd2 & Hl2);
        [done..|by rewrite Htopic, Hl1|].
      unfold is_replayable in *. rewrite Htopic, Hcfg, Hl1 in Hl2.
      split_and!; [|by intros i g; rewrite Hd2, Hd1|done].
      rewrite Hm2, Hm1. by rewrite delete_insert_eq.
    + by apply (dispatch_nack c topic cfg f text e1 e2 w m r w1).
    + by apply (dispatch_nack c topic cfg f _ e1 e2 w m r w1).
Qed.

(** ** A message that is always refused *)

(** Deliveries one after the other, each in its own two environments. *)
Fixpoint deliver_all (c : Caller) (topic : string) (cfg : consumerConfig)
    (handler : Delivered → handler_result) (es : list (Env * Env)) (w : World)
    : list (option Delivered) * World :=
  match es with
  | [] => ([], w)
  | (e1, e2) :: es' =>
      let '(m, w1) := deliver c topic cfg answered handler e1 e2 w in
      let '(ms, w2) := deliver_all c topic cfg handler es' w1 in
      (m :: ms, w2)
  end.

(** A claim that finds a row returns it. *)
Lemma Dequeue_total topic vt e w id r msg :
  w_faults w = [] → topic_config (w_db w) !! topic ≫= ThroughputLimit = None →
  select_messages (eligible (pg_now e) topic) 1 e (w_db w) = [(id, r)] →
  row_message id r = Ok msg → ∃ w1, Dequeue s topic vt e w = (Ok msg, w1).
Proof.
  intros Hf Hlim Hsel Hrow. unfold Dequeue. rewrite run_bind, begin_tx_calm by done.
  unfold applyThroughputLimit. rewrite run_bind, run_bind, tx_query_calm by done. simpl.
  rewrite Hlim. simpl. rewrite run_bind, tx_stmt_calm by done.
  unfold sql_claim_one. simpl. rewrite Hsel, run_bind, row_message_claim, Hrow. simpl.
  rewrite run_bind, commit_tx_calm by done. by eexists.
Qed.

(** The only row that is in the topic and as old. *)
Definition oldest (topic : string) (id : uuid) (r : MessageRow) (w : World) : Prop :=
  ∀ j rj, messages (w_db w) !! j = Some rj → j ≠ id → m_topic rj = topic →
    m_created_at r < m_created_at rj.

Lemma select_oldest topic id r e w :
  messages (w_db w) !! id = Some r → eligible (pg_now e) topic r → id ∉ locked_messages e →
  oldest topic id r w →
  select_messages (eligible (pg_now e) topic) 1 e (w_db w) = [(id, r)].
Proof.
  intros Hr Hel Hl Hold.
  pose proof (select_messages_length (eligible (pg_now e) topic) 1 e (w_db w)) as Hlen.
  pose proof (select_messages_complete (eligible (pg_now e) topic) 1 e (w_db w) id r) as Hin.
  pose proof (λ j rj, select_messages_fifo (eligible (pg_now e) topic) 1 e (w_db w) j rj id r) as Hle.
  pose proof (select_messages_elem (eligible (pg_now e) topic) 1 e (w_db w)) as Hall.
  destruct (select_messages _ 1 e (w_db w)) as [|[j rj] [|]]; simpl in Hlen; [|clear Hin|lia].
  { specialize (Hin ltac:(simpl; lia) Hr Hel Hl). by apply elem_of_nil in Hin. }
  destruct (Hall j rj) as (Hj & Helj & _); [by left|].
  destruct (decide (j = id)) as [->|Hne]; [congruence|].
  specialize (Hold j rj Hj Hne (proj1 Helj)).
  assert (m_created_at rj ≤ m_created_at r); [|lia].
  apply (Hle j rj); [by left|done..|]. intros [= <- _]%list_elem_of_singleton. done.
Qed.

(** A delivery of the oldest message of a topic without a throughput limit. *)
Lemma deliver_oldest c topic n vt handler e1 e2 w id r :
  in_step w → topic ≠ ""%string →
  messages (w_db w) !! id = Some r → eligible (pg_now e1) topic r →
  id ∉ locked_messages e1 → oldest topic id r w →
  topic_config (w_db w) !! topic ≫= ThroughputLimit = None →
  (∃ md, hydrate_metadata (m_metadata r) = Ok md) →
  ∃ m w2, deliver c topic (mkConsumerConfig n vt "") answered handler e1 e2 w = (Some m, w2) ∧
    dm_ID m = id.
Proof.
  intros [_ Hf] Ht Hr Hel Hl Hold Hlim [md Hmd].
  pose proof (select_oldest topic id r e1 w Hr Hel Hl Hold) as Hsel.
  assert (∃ msg, row_message id r = Ok msg ∧ ID msg = id) as (msg & Hrow & Hid).
  { unfold row_message. rewrite Hmd. by eexists. }
  unfold deliver, rpc_Subscribe. simpl. rewrite bool_decide_false by done.
  assert (∃ vt', resolveVisibilityTimeoutFromProto
    (requested_timeout (mkConsumerConfig n vt "")) = Ok vt') as [vt' ->].
  { unfold requested_timeout. simpl. destruct (0 <? vt) eqn:Hvt; simpl; [|by eexists].
    rewrite (proj2 (Z.eqb_neq vt 0)) by (apply Z.ltb_lt in Hvt; lia). by eexists. }
  unfold checkDequeueGrant, restricted. simpl.
  unfold subscribe_iteration, dequeue_for. simpl. rewrite run_bind, run_try.
  destruct (Dequeue_total topic vt' e1 w id r msg Hf Hlim Hsel Hrow) as [w1 ->]. simpl.
  by eexists _, _.
Qed.

(** The text with which a handler's message is rejected. *)
Definition refusal (res : handler_result) : option string :=
  match res with
  | returned_nil => None
  | returned_error text => Some text
  | panicked value => Some ("panic in handler: " +:+ value)
  end.

(** Message [id], of row [r], is next in its topic at each of the given times, can be read,
    and has no key. *)
Record next_in_line (topic : string) (id : uuid) (r : MessageRow) (es : list (Env * Env))
    (w : World) : Prop := {
  next_in_step : in_step w;
  next_ok : db_ok (w_db w);
  next_row : messages (w_db w) !! id = Some r;
  next_eligible : Forall (λ ee, eligible (pg_now ee.1) topic r ∧ id ∉ locked_messages ee.1) es;
  next_oldest : oldest topic id r w;
  next_unlimited : topic_config (w_db w) !! topic ≫= ThroughputLimit = None;
  next_metadata : ∃ md, hydrate_metadata (m_metadata r) = Ok md;
  next_key : m_key r = None;
}.

(** One refused delivery: the row is what [nacked] makes of it, and is next again unless it
    has left the topic or failed. *)
Lemma refused_delivery c topic n vt handler e1 e2 es w id r :
  restricted c = None → topic ≠ ""%string → id ≠ ""%string →
  int4 (m_retry_count r + 1) → int4 (m_max_retries r) →
  (∀ m, dm_ID m = id → is_Some (refusal (handler m))) →
  next_in_line topic id r ((e1, e2) :: es) w →
  let cfg := mkConsumerConfig n vt "" in
  ∃ m text w2,
    deliver c topic cfg answered handler e1 e2 w = (Some m, w2) ∧
    dm_ID m = id ∧ dm_Payload m = m_payload r ∧ dm_RetryCount m = int32 (m_retry_count r) ∧
    let r2 := nacked (threshold_of s topic (w_db w)) (pg_now e2) text (sent_row cfg e1 r) in
    messages (w_db w2) = <[id := r2]> (messages (w_db w)) ∧
    topic_config (w_db w2) = topic_config (w_db w) ∧
    (m_topic r2 = topic → m_status r2 = pending →
     m_retry_count r2 < m_max_retries r2 → next_in_line topic id r2 es w2).
Proof.
  intros Hc Ht Hid Hrc Hmr Hfail [Hst Hok Hr [[Hel Hl] Hes]%Forall_cons Hold Hlim Hmd Hkey] cfg.
  destruct (deliver_oldest c topic n vt handler e1 e2 w id r) as (m & w2 & Hdel & Hm); [done..|].
  destruct (deliver_sent _ _ _ _ _ _ _ _ _ _ _ Hok Hst Hdel) as (r0 & w1 & Hh & Hw2). fold cfg in Hh.
  destruct (handed_row _ _ _ _ _ _ _ Hh) as (Hr0 & _). rewrite Hm, Hr in Hr0.
  injection Hr0 as <-. destruct (Hfail m Hm) as [text Htext].
  assert (w2 = (msg_Nack (QS := stub c e2) answered m text w1).2) as Hnack.
  { rewrite Hw2. unfold dispatch, refusal in *. by destruct (handler m); simplify_eq. }
  destruct (dispatch_nack c topic cfg answered text e1 e2 w m r w1) as (Hok2 & Hst2 & Hcfg & Hms);
    [done..|by rewrite Hm|done|]. rewrite <-Hnack, ?Hm in *.
  set (r2 := nacked _ _ _ _) in *.
  destruct (nacked_cases (threshold_of s topic (w_db w)) (pg_now e2) text (sent_row cfg e1 r))
    as (Hp2 & Hmd2 & Hk2 & Hc2 & He2 & _ & Hv2 & Hcases). fold r2 in Hp2, Hmd2, Hk2, Hc2, He2, Hv2, Hcases.
  simpl in Hp2, Hmd2, Hk2, Hc2, He2, Hcases.
  rewrite decide_True in Hms.
  2: { split.
       - destruct Hcases as [(_ & _ & _ & -> & -> & _)|(_ & _ & -> & -> & _)]; [|done].
         unfold int4. lia.
       - intros j rj _ _ (_ & _ & _ & _ & Hk). by rewrite Hk2 in Hk. }
  exists m, text, w2. split_and!; [done|done|apply Hh|apply Hh|].
  cbv zeta. fold r2. split; [done|]. split; [done|]. intros Htopic Hpend Hleft. split; try done.
  - rewrite Hms. apply lookup_insert_eq.
  - eapply Forall_impl; [exact Hes|]. intros [f1 f2] [(_ & _ & _ & Hun & _) Hl']. split; [|done].
    unfold eligible. rewrite Hv2, He2. split_and!; try done. by right.
  - intros j rj Hj Hne Hjt. rewrite Hms, lookup_insert_ne in Hj by done. rewrite Hc2. by eapply Hold.
  - by rewrite Hcfg.
  - by rewrite Hmd2.
  - by rewrite Hk2.
Qed.

(** [C20] A message whose handler never succeeds leaves its topic.  While a keyless message is
    the oldest of a topic without a throughput limit and unexpired, no call of the consumer
    is lost and its handler fails or panics on it every time, each delivery brings this very
    message, with its payload and one more retry counted, and exactly the delivery that
    reaches the topic's threshold moves it, as it was, to the dead-letter topic, where it is
    pending and remembers its topic; the other messages wait unchanged. *)
Theorem poison_message_reaches_dlq c topic n vt handler es w id r :
  restricted c = None → topic ≠ ""%string → id ≠ ""%string →
  (∀ m, dm_ID m = id → is_Some (refusal (handler m))) →
  next_in_line topic id r es w →
  let t := threshold_of s topic (w_db w) in
  0 ≤ m_retry_count r < t → t ≤ m_max_retries r → int4 (m_max_retries r) →
  Z.of_nat (length es) = t - m_retry_count r →
  let '(ms, w') := deliver_all c topic (mkConsumerConfig n vt "") handler es w in
  (∀ k m, ms !! k = Some m → ∃ d, m = Some d ∧ dm_ID d = id ∧ dm_Payload d = m_payload r ∧
     dm_RetryCount d = m_retry_count r + Z.of_nat k) ∧ length ms = length es ∧
  ∃ r', messages (w_db w') = <[id := r']> (messages (w_db w)) ∧
    m_topic r' = topic +:+ ".dlq" ∧ m_status r' = pending ∧ m_retry_count r' = 0 ∧
    m_payload r' = m_payload r ∧ m_original_topic r' = Some topic ∧ is_Some (m_dlq_moved_at r').
Proof.
  intros Hc Htopic Hid Hfail Hnext t Ht Hmax Hint.
  remember (length es) as k eqn:Hk. revert es w r t Hnext Ht Hmax Hint Hk.
  induction k as [|k IH]; intros es w r t Hnext Ht Hmax Hint Hk Hlen; [lia|].
  destruct es as [|[e1 e2] es]; [done|]. injection Hk as Hk. simpl.
  destruct (Forall_cons_1 _ _ _ (next_eligible _ _ _ _ _ Hnext)) as [[Hel _] _].
  assert (int4 (m_retry_count r + 1)) as Hrc1 by (unfold int4 in *; lia).
  assert (int32 (m_retry_count r) = m_retry_count r) as Hi32.
  { unfold int32, int4 in *. rewrite Z.mod_small; lia. }
  destruct (refused_delivery c topic n vt handler e1 e2 es w id r)
    as (m & text & w2 & Hdel & Hmid & Hpay & Hret & Hms & Hcfg & Hagain); [done..|].
  rewrite Hdel. set (r2 := nacked _ _ _ _) in *.
  destruct (nacked_cases (threshold_of s topic (w_db w)) (pg_now e2) text
    (sent_row (mkConsumerConfig n vt "") e1 r)) as (Hp2 & _ & _ & _ & _ & _ & _ & Hcases).
  fold r2 in Hp2, Hcases. simpl in Hp2, Hcases.
  rewrite (proj1 Hel) in Hcases. fold t in Hcases.
  destruct Hcases as [(Hat & Htop & Hst & Hrc & _ & Ho & Hmv)|(Hbelow & Htop & Hrc & Hmr & _ & Hst)].
  - assert (es = []) as -> by (apply length_zero_iff_nil; lia). simpl. split_and!.
    + intros [|i] m' Hi; [|done]. injection Hi as <-. exists m.
      split_and!; [done..|]. rewrite Hret, Hi32. lia.
    + by rewrite Hk.
    + exists r2. by rewrite Hmv.
  - rewrite decide_False in Hst by lia.
    assert (threshold_of s topic (w_db w2) = t) as Ht2 by (unfold threshold_of; by rewrite Hcfg).
    specialize (IH es w2 r2). rewrite Ht2 in IH. cbv zeta in IH.
    specialize (IH (Hagain Htop Hst ltac:(lia)) ltac:(lia) ltac:(lia) ltac:(by rewrite Hmr) Hk ltac:(lia)).
    destruct (deliver_all c topic _ handler es w2) as [ms w'].
    destruct IH as (Hall & Hl & r' & Hms' & Hrest). split_and!.
    + intros [|i] m' Hi; simpl in Hi.
      * injection Hi as <-. exists m. split_and!; [done..|]. rewrite Hret, Hi32. lia.
      * destruct (Hall i m' Hi) as (d & -> & Hd1 & Hd2 & Hd3). exists d.
        split_and!; [done|done|by rewrite Hd2|rewrite Hd3; lia].
    + simpl. by rewrite Hl.
    + exists r'. rewrite Hms', Hms, insert_insert_eq. by rewrite Hp2 in Hrest.
Qed.
End end_to_end.
