(* ===== verification/Http.v ===== *)
(** * The HTTP server's vocabulary and middleware

    [backend/internal/server]'s [helpers.go] and [middleware.go], and
    [backend/internal/auth/jwt_middleware.go].  The fiber framework is the parameter
    [Fiber]: what the handlers read of a request through a [*fiber.Ctx], and how
    [BodyParser] fills a request struct.  A handler runs in the monad of the service and
    answers with a response; the claims that [JWTMiddleware] stores under
    [c.Locals("claims")] are the handler's argument. *)

From S2P Require Import Prelude.
From S2P Require Import Store.
From S2P Require Import Avro.
From S2P Require Import Json.
From S2P Require Import Runtime.
From S2P Require Import Model.
From S2P Require Import TopicConfig.
From S2P Require Import Throttle.
From S2P Require Import Schema.
From S2P Require Import Dequeue.
From S2P Require Import Enqueue.
From S2P Require Import Lifecycle.
From S2P Require Import Replay.
From S2P Require Import Query.
From S2P Require Import Users.
From S2P Require Import Grpc.

(** ** Requests *)

Record loginRequest := mkLoginRequest { login_Username : string; login_Password : string }.
Record enqueueRequest := mkEnqueueBody {
  eb_Topic : string; eb_Payload : string; eb_Metadata : option (gmap string string);
  eb_Key : option string }.
Record nackRequest := mkNackBody { nb_Error : string; nb_ConsumerGroup : string }.
Record batchDequeueRequest := mkBatchBody {
  bb_Topic : string; bb_Count : Z; bb_VisibilityTimeoutSecs : option Z;
  bb_ConsumerGroup : string }.
Record purgeTopicRequest := mkPurgeBody { pb_Statuses : list string }.
Record scheduleRequest := mkScheduleBody { sb_Schedule : string }.
Record registerConsumerGroupRequest := mkGroupBody { gb_ConsumerGroup : string }.
Record replayRequest := mkReplayBody { rb_FromTime : option string }.
Record topicConfigRequest := mkConfigBody {
  cb_MaxRetries : option Z; cb_MessageTTLSeconds : option Z; cb_MaxDepth : option Z;
  cb_Replayable : option bool; cb_ReplayWindowSeconds : option Z;
  cb_ThroughputLimit : option Z }.
Record topicSchemaRequest := mkSchemaBody { schema_json : string }.
Record createUserRequest := mkCreateUser {
  cu_Username : string; cu_Password : string; cu_IsAdmin : bool }.
Record updateUserRequest := mkUpdateUser {
  uu_Username : option string; uu_Password : option string; uu_IsAdmin : option bool }.
Record addGrantRequest := mkAddGrant { ag_Action : string; ag_TopicPattern : string }.
Record addConsumerGroupGrantRequest := mkAddGroupGrant {
  gg_TopicPattern : string; gg_ConsumerGroup : string }.

(** The structs [BodyParser] is called with. *)
Inductive target : Type → Type :=
| to_login : target loginRequest
| to_enqueue : target enqueueRequest
| to_nack : target nackRequest
| to_batch : target batchDequeueRequest
| to_purge : target purgeTopicRequest
| to_schedule : target scheduleRequest
| to_group : target registerConsumerGroupRequest
| to_replay : target replayRequest
| to_config : target topicConfigRequest
| to_schema : target topicSchemaRequest
| to_create_user : target createUserRequest
| to_update_user : target updateUserRequest
| to_grant : target addGrantRequest
| to_group_grant : target addConsumerGroupGrantRequest.

(** What the handlers use of fiber and its login rate limiter.  [BodyParser] chooses a
    decoder by the request's content type; it yields the struct as it leaves it, and
    whether it succeeds.  Texts are values here; fiber's own share the buffer of the request,
    which it uses again once the handler has returned, so what a handler keeps of them beyond
    its return - [ReplayTopic] a key of [topicConfigCache] - may change later. *)
Class Fiber := {
  Ctx : Type;
  Params : Ctx → string → string;
  c_Query : Ctx → string → string;
  QueryInt : Ctx → string → Z → Z;
  c_Get : Ctx → string → string;
  Body : Ctx → string;
  BodyParser {A} : target A → Ctx → A * bool;
  limit_reached : Ctx → bool;
}.

(** The texts the handlers exchange times in: RFC 3339 in the server's zone, in UTC, and
    its parser, for instants in nanoseconds; and base64. *)
Class Layouts := {
  Format : Z → string;
  FormatUTC : Z → string;
  ParseRFC3339 : string → option Z;
  StdEncoding : string → string;
}.

(** ** Responses *)

Record messageResponse := mkMessageResponse {
  mr_ID : string; mr_Topic : string; mr_Key : option string; mr_Payload : string;
  mr_Metadata : option (gmap string string); mr_Status : string; mr_RetryCount : Z;
  mr_MaxRetries : Z; mr_LastError : string; mr_ExpiresAt : option string;
  mr_CreatedAt : string; mr_OriginalTopic : string; mr_DLQMovedAt : option string }.
Record archivedMessageResponse := mkArchivedResponse {
  ar_ID : string; ar_Topic : string; ar_Key : option string; ar_Payload : string;
  ar_RetryCount : Z; ar_OriginalTopic : string; ar_CreatedAt : string; ar_AckedAt : string }.
Record topicStatResponse := mkStatResponse {
  sr_Topic : string; sr_Status : string; sr_Count : Z }.
Record topicConfigResponse := mkConfigResponse {
  cr_Topic : string; cr_MaxRetries : option Z; cr_MessageTTLSeconds : option Z;
  cr_MaxDepth : option Z; cr_Replayable : bool; cr_ReplayWindowSeconds : option Z;
  cr_ThroughputLimit : option Z }.
Record topicSchemaResponse := mkSchemaResponse {
  tr_Topic : string; tr_SchemaJSON : string; tr_Version : Z; tr_UpdatedAt : string }.
Record userResponse := mkUserResponse {
  ur_ID : string; ur_Username : string; ur_IsAdmin : bool; ur_CreatedAt : string;
  ur_UpdatedAt : string }.
Record grantResponse := mkGrantResponse {
  gr_ID : string; gr_UserID : string; gr_Action : string; gr_TopicPattern : string;
  gr_ConsumerGroup : string; gr_CreatedAt : string }.

(** The text of an error answer: the handler's own, or [err.Error()]. *)
Inductive ErrorMsg := Text (msg : string) | ErrorText (x : Error).

(** The body of an answer: [c.JSON] of a struct or map, or what [SendStatus] and [Send]
    leave. *)
Inductive ResponseBody :=
| json_error (msg : ErrorMsg)
| json_version (version : string)
| json_auth_required (b : bool)
| json_token (token : string)
| json_messages (items : list messageResponse) (total limit offset : Z)
| json_id (id : string)
| json_batch (messages : list messageResponse)
| json_stats (topics : list topicStatResponse)
| json_deleted (n : Z)
| json_expired (n : Z)
| json_schedule (schedule : string) (active : bool)
| json_groups (items : list string)
| json_replay (topic : string) (enqueued : Z) (from_time : string)
| json_log (items : list archivedMessageResponse) (total limit offset : Z)
| json_configs (items : list topicConfigResponse)
| json_config (cfg : topicConfigResponse)
| json_schemas (items : list topicSchemaResponse)
| json_schema (ts : topicSchemaResponse)
| json_users (items : list userResponse)
| json_user (u : userResponse)
| json_grants (items : list grantResponse)
| json_grant (g : grantResponse)
| metrics_page
| no_json.

Record Response := mkResponse { StatusCode : Z; res_Body : ResponseBody }.

Definition StatusOK := 200.
Definition StatusCreated := 201.
Definition StatusNoContent := 204.
Definition StatusBadRequest := 400.
Definition StatusUnauthorized := 401.
Definition StatusForbidden := 403.
Definition StatusNotFound := 404.
Definition StatusConflict := 409.
Definition StatusUnprocessableEntity := 422.
Definition StatusTooManyRequests := 429.
Definition StatusInternalServerError := 500.

Section http.
Context `{PG : Postgres} `{ST : Storage} `{CO : Codecs} `{JW : JWT} `{FI : Fiber}.

Definition jsonError (status : Z) (msg : ErrorMsg) : M Response :=
  mret (mkResponse status (json_error msg)).
Definition json_ok (b : ResponseBody) : M Response := mret (mkResponse StatusOK b).
Definition SendStatus (status : Z) : M Response := mret (mkResponse status no_json).
Definition internal_server_error : M Response :=
  jsonError StatusInternalServerError (Text "internal server error").

(** The limit and the offset. *)
Definition parseLimitOffset (c : Ctx) (defaultLimit maxLimit : Z) : Z * Z :=
  let limit := QueryInt c "limit" defaultLimit in
  let limit := if limit <? 1 then 1 else if maxLimit <? limit then maxLimit else limit in
  (limit, Z.max (QueryInt c "offset" 0) 0).

(** ** Middleware

    A middleware ends with [return c.Next()] or with an answer of its own. *)

Abbreviation Middleware := (option Claims → M (result Response (option Claims))).

Definition Next (locals : option Claims) : M (result Response (option Claims)) :=
  mret (Ok locals).
Definition stop (status : Z) (msg : string) : M (result Response (option Claims)) :=
  r ← jsonError status (Text msg); mret (Err r).

(** Two middlewares of a chain. *)
Definition chain (m1 m2 : Middleware) : Middleware := λ locals,
  r ← m1 locals;
  match r with Err answer => mret (Err answer) | Ok locals => m2 locals end.

Definition JWTMiddleware (jwtSecret : string) (c : Ctx) : Middleware := λ _,
  e ← ask;
  let authHeader := c_Get c "Authorization" in
  if bool_decide (authHeader = "")
  then stop StatusUnauthorized "missing authorization header"
  else if negb (HasPrefix authHeader "Bearer ")
  then stop StatusUnauthorized "unsupported auth scheme"
  else match ParseToken jwtSecret (drop_chars 7 authHeader) (go_now e) with
       | Err _ => stop StatusUnauthorized "invalid or expired token"
       | Ok claims => Next (Some claims)
       end.

(** [jwtAuth]: the middleware, or nothing with authentication disabled. *)
Definition jwtAuth (cfg : AuthConfig) (c : Ctx) : Middleware :=
  if Enabled cfg then JWTMiddleware (JWTSecret cfg) c else Next.

(** ** Permissions *)

Section checks.
Context (cfg : AuthConfig).

(** [done, err := s.checkAuthAndAdmin(c)]: [None] when the caller goes on with its own
    checks. *)
Definition checkAuthAndAdmin (locals : option Claims)
    : option (M (result Response (option Claims))) :=
  match locals with
  | None => if Enabled cfg
            then Some (stop StatusUnauthorized "authentication required")
            else Some (Next locals)
  | Some claims => if claims_IsAdmin claims then Some (Next locals) else None
  end.

Definition requireAdmin : Middleware := λ locals,
  match checkAuthAndAdmin locals with
  | Some done => done
  | None => stop StatusForbidden "admin access required"
  end.

Definition insufficient_permissions : M (result Response (option Claims)) :=
  stop StatusForbidden "insufficient permissions".
Definition failed_to_check_permissions : M (result Response (option Claims)) :=
  stop StatusInternalServerError "failed to check permissions".
Definition message_not_found : M (result Response (option Claims)) :=
  stop StatusNotFound "message not found".

(** [claims.UserID]; a middleware gets that far with claims only. *)
Definition caller_id (locals : option Claims) : string :=
  match locals with Some claims => UserID claims | None => "" end.

(** The lookup of the grants, and what is required of them. *)
Definition with_grants (locals : option Claims) (allowed : list Grant → bool)
    : M (result Response (option Claims)) :=
  grants ← try (GetUserGrants (caller_id locals));
  match grants with
  | Err _ => failed_to_check_permissions
  | Ok grants => if negb (allowed grants) then insufficient_permissions else Next locals
  end.

Definition requireGrant (action topic : string) : Middleware := λ locals,
  match checkAuthAndAdmin locals with
  | Some done => done
  | None => with_grants locals (λ grants, HasGrant grants action topic)
  end.

Definition requireWriteOnMsgTopic (c : Ctx) : Middleware := λ locals,
  match checkAuthAndAdmin locals with
  | Some done => done
  | None =>
      topic ← try (TopicForMessage (Params c "id"));
      match topic with
      | Err _ => message_not_found
      | Ok topic => with_grants locals (λ grants, HasGrant grants "write" topic)
      end
  end.

Definition requireDequeueGrant (topic_group : string * string) : Middleware := λ locals,
  match checkAuthAndAdmin locals with
  | Some done => done
  | None =>
      let '(topic, group) := topic_group in
      with_grants locals (λ grants, may_dequeue grants topic group)
  end.

(** *** The peeks at the body

    [json.Unmarshal] of the raw body into a struct of strings, its error ignored: the
    fields it could fill are read, none when the text is not JSON. *)

Definition peek (c : Ctx) (name : string) : string :=
  match json_Unmarshal (Body c) with
  | Some j => (dec_struct [(name, dec_string)] "" j).1
  | None => ""
  end.
Definition peek_topic_group (c : Ctx) : string * string :=
  (peek c "topic", peek c "consumer_group").

Definition requireDequeueOnMsgTopic (c : Ctx) : Middleware := λ locals,
  match checkAuthAndAdmin locals with
  | Some done => done
  | None =>
      topic ← try (TopicForMessage (Params c "id"));
      match topic with
      | Err _ => message_not_found
      | Ok topic =>
          with_grants locals (λ grants, may_dequeue grants topic (peek c "consumer_group"))
      end
  end.
End checks.
End http.
