(* ===== verification/Handlers.v ===== *)
(** * The HTTP handlers

    The handlers of [backend/internal/server]: [handlers_auth.go], [handlers_messages.go],
    [handlers_admin.go], [handlers_consumer_groups.go], [handlers_replay.go],
    [handlers_topic_config.go], [handlers_topic_schema.go] and [handlers_users.go].  Each
    reads its parameters and body through [Fiber], calls the service or the user store,
    and maps the errors to status codes. *)

From S2P Require Import Prelude.
From S2P Require Import Store.
From S2P Require Import Avro.
From S2P Require Import Runtime.
From S2P Require Import Model.
From S2P Require Import TopicConfig.
From S2P Require Import Throttle.
From S2P Require Import Schema.
From S2P Require Import Dequeue.
From S2P Require Import Enqueue.
From S2P Require Import Lifecycle.
From S2P Require Import ConsumerGroup.
From S2P Require Import Reaper.
From S2P Require Import Replay.
From S2P Require Import Query.
From S2P Require Import Users.
From S2P Require Import Grpc.
From S2P Require Import Http.

Section handlers.
Context `{PG : Postgres} `{ST : Storage} `{CO : Codecs} `{JW : JWT} `{BC : Bcrypt}.
Context `{FI : Fiber} `{LA : Layouts}.
Context (s : Service) (cfg : AuthConfig) (salt : string).

Definition bad_request (msg : string) : M Response := jsonError StatusBadRequest (Text msg).
Definition invalid_request_body : M Response := bad_request "invalid request body".

(** [var req T; if err := c.BodyParser(&req); err != nil { ... }] *)
Definition with_body {A} (t : target A) (c : Ctx) (k : A → M Response) : M Response :=
  let '(req, ok) := BodyParser t c in
  if ok : bool then k req else invalid_request_body.

(** [x, err := ...; if err != nil { return internal server error }] *)
Definition or_500 {A} (m : M A) (k : A → M Response) : M Response :=
  r ← try m;
  match r with Ok a => k a | Err _ => internal_server_error end.

(** ** Authentication *)

Definition issue_token_for (user : User) : M Response :=
  e ← ask;
  match IssueToken (JWTSecret cfg) (user_ID user) (Username user) (IsAdmin user) (go_now e) with
  | None => jsonError StatusInternalServerError (Text "failed to issue token")
  | Some token => json_ok (json_token token)
  end.

Definition handleLogin (c : Ctx) : M Response :=
  let '(req, ok) := BodyParser to_login c in
  if negb ok || bool_decide (login_Username req = "") || bool_decide (login_Password req = "")
  then bad_request "username and password are required"
  else
    r ← try (GetByUsername (login_Username req));
    match r with
    | Err ErrUserNotFound => jsonError StatusUnauthorized (Text "invalid credentials")
    | Err _ => jsonError StatusInternalServerError (Text "internal error")
    | Ok (user, hash) =>
        if negb (CompareHashAndPassword hash (login_Password req))
        then jsonError StatusUnauthorized (Text "invalid credentials")
        else issue_token_for user
    end.

Definition handleRefresh (locals : option Claims) : M Response :=
  match locals with
  | None => jsonError StatusUnauthorized (Text "not authenticated")
  | Some claims =>
      r ← try (GetByID (UserID claims));
      match r with
      | Err ErrUserNotFound => jsonError StatusUnauthorized (Text "user no longer exists")
      | Err _ => jsonError StatusInternalServerError (Text "internal error")
      | Ok user => issue_token_for user
      end
  end.

(** ** Messages *)

(** The instant of a timestamp column, and its text in the zone it is scanned in. *)
Definition nanoseconds (us : Z) : Z := us * 1000.
Definition format_column (us : Z) : string := Format (nanoseconds us).

Definition toMessageResponse (m : Message) : messageResponse :=
  mkMessageResponse (ID m) (msg_Topic m) (Key m) (Payload m) (Metadata m) (Status m)
    (RetryCount m) (msg_MaxRetries m) (LastError m) (format_column <$> Dequeue.ExpiresAt m)
    (format_column (CreatedAt m)) (OriginalTopic m) (format_column <$> DLQMovedAt m).

Definition listMessages (c : Ctx) : M Response :=
  let topic := c_Query c "topic" in
  let '(limit, offset) := parseLimitOffset c 50 200 in
  or_500 (List_ topic limit offset) (λ result,
    json_ok (json_messages (toMessageResponse <$> Items result) (Total result) limit offset)).

Definition enqueueMessage (c : Ctx) : M Response :=
  with_body to_enqueue c (λ req,
    if bool_decide (eb_Topic req = "") || bool_decide (eb_Payload req = "")
    then bad_request "topic and payload are required"
    else
      r ← try (Enqueue s (eb_Topic req) (eb_Payload req) (eb_Metadata req) (eb_Key req));
      match r with
      | Ok id => mret (mkResponse StatusCreated (json_id id))
      | Err x =>
          match x with
          | ErrSchemaValidation _ | ErrTopicNotRegistered =>
              jsonError StatusUnprocessableEntity (ErrorText x)
          | ErrQueueFull => jsonError StatusTooManyRequests (ErrorText x)
          | _ => internal_server_error
          end
      end).

(** [time.Duration( *secs) * time.Second], zero without a value. *)
Definition visibility_timeout_of (secs : option Z) : Z :=
  match secs with Some n => wrap64 (n * Second) | None => 0 end.

Definition batchDequeueMessages (c : Ctx) : M Response :=
  with_body to_batch c (λ req,
    if bool_decide (bb_Topic req = "") then bad_request "topic is required"
    else
      let count := if bb_Count req =? 0 then 1 else bb_Count req in
      if (count <? 1) || (1000 <? count) then bad_request "count must be between 1 and 1000"
      else
        let vt := visibility_timeout_of (bb_VisibilityTimeoutSecs req) in
        r ← try (if negb (bool_decide (bb_ConsumerGroup req = ""))
                 then DequeueNForGroup s (bb_Topic req) (bb_ConsumerGroup req) count vt
                 else DequeueN s (bb_Topic req) count vt);
        match r with
        | Ok batch => json_ok (json_batch (toMessageResponse <$> batch))
        | Err ErrInvalidBatchSize => jsonError StatusBadRequest (ErrorText ErrInvalidBatchSize)
        | Err _ => internal_server_error
        end).

Definition nackMessage (c : Ctx) : M Response :=
  let id := Params c "id" in
  let req := (BodyParser to_nack c).1 in
  r ← try (if negb (bool_decide (nb_ConsumerGroup req = ""))
           then NackForGroup s id (nb_ConsumerGroup req) (nb_Error req)
           else Nack s id (nb_Error req));
  match r with
  | Ok _ => SendStatus StatusNoContent
  | Err x =>
      match x with
      | ErrNotFound | ErrNotProcessing => jsonError StatusNotFound (ErrorText x)
      | _ => internal_server_error
      end
  end.

Definition toTopicStatResponse (st : TopicStat) : topicStatResponse :=
  mkStatResponse (stat_Topic st) (stat_Status st) (Count st).

Definition statsHandler : M Response :=
  or_500 Stats (λ stats, json_ok (json_stats (toTopicStatResponse <$> stats))).

Definition requeueMessage (c : Ctx) : M Response :=
  r ← try (Requeue s (Params c "id"));
  match r with
  | Ok _ => SendStatus StatusNoContent
  | Err x =>
      match x with
      | ErrNotFound | ErrNotDLQ => jsonError StatusNotFound (ErrorText x)
      | _ => internal_server_error
      end
  end.

(** ** Administration *)

Definition validPurgeStatuses : list string := ["pending"; "processing"; "expired"].

Definition purgeTopicMessages (c : Ctx) : M Response :=
  with_body to_purge c (λ req,
    let statuses := match pb_Statuses req with [] => validPurgeStatuses | l => l end in
    match head (filter (λ st, st ∉ validPurgeStatuses) statuses) with
    | Some st =>
        bad_request ("invalid status: " +:+ st +:+
                     "; allowed values are pending, processing, expired")
    | None => or_500 (PurgeTopic (Params c "topic") statuses) (λ n, json_ok (json_deleted n))
    end).

Definition purgeByKeyMessages (c : Ctx) : M Response :=
  let key := Params c "key" in
  if bool_decide (key = "") then bad_request "key is required"
  else or_500 (PurgeByKey (Params c "topic") key) (λ n, json_ok (json_deleted n)).

Definition runExpiryReaperOnce : M Response :=
  or_500 RunExpiryReaperOnce (λ n, json_ok (json_expired n)).
Definition runDeleteReaperOnce : M Response :=
  or_500 RunDeleteReaperOnce (λ n, json_ok (json_deleted n)).
Definition runArchiveReaperOnce : M Response :=
  or_500 RunArchiveReaperOnce (λ n, json_ok (json_deleted n)).

Definition schedule_body (schedule : string) : ResponseBody :=
  json_schedule schedule (negb (bool_decide (schedule = ""))).

Definition getDeleteReaperSchedule : M Response :=
  or_500 GetDeleteReaperSchedule (λ schedule, json_ok (schedule_body schedule)).

Definition updateDeleteReaperSchedule (cron_valid : string → bool) (c : Ctx) (cron : Cron)
    : M (Response * Cron) :=
  let '(req, ok) := BodyParser to_schedule c in
  if ok : bool then
    r ← UpdateDeleteReaperSchedule cron_valid (sb_Schedule req) cron;
    answer ← match r.1 with
             | Err x => jsonError StatusUnprocessableEntity (ErrorText x)
             | Ok _ => json_ok (schedule_body (sb_Schedule req))
             end;
    mret (answer, r.2)
  else answer ← invalid_request_body; mret (answer, cron).

(** ** Consumer groups *)

Definition listConsumerGroups (c : Ctx) : M Response :=
  or_500 (ListConsumerGroups (Params c "topic")) (λ groups, json_ok (json_groups groups)).

Definition registerConsumerGroup (c : Ctx) : M Response :=
  with_body to_group c (λ req,
    if bool_decide (gb_ConsumerGroup req = "") then bad_request "consumer_group is required"
    else
      r ← try (RegisterConsumerGroup s (Params c "topic") (gb_ConsumerGroup req));
      match r with
      | Ok _ => SendStatus StatusCreated
      | Err ErrConsumerGroupExists => jsonError StatusConflict (ErrorText ErrConsumerGroupExists)
      | Err _ => internal_server_error
      end).

Definition unregisterConsumerGroup (c : Ctx) : M Response :=
  r ← try (UnregisterConsumerGroup (Params c "topic") (Params c "group"));
  match r with
  | Ok _ => SendStatus StatusNoContent
  | Err ErrConsumerGroupNotFound =>
      jsonError StatusNotFound (ErrorText ErrConsumerGroupNotFound)
  | Err _ => internal_server_error
  end.

(** ** Replay and the message log *)

(** [time.Time{}] in nanoseconds since 1970; [IsZero] is [None] for the service. *)
Definition zero_time : Z := - 62135596800 * Second.
Definition time_value (t : Z) : option Z := if t =? zero_time then None else Some t.

Definition replayTopic (c : Ctx) : M Response :=
  let topic := Params c "topic" in
  with_body to_replay c (λ req,
    let fromTime :=
      match rb_FromTime req with
      | None => Some None
      | Some text => if bool_decide (text = "") then Some None
                     else time_value <$> ParseRFC3339 text
      end in
    match fromTime with
    | None => jsonError StatusUnprocessableEntity (Text "from_time must be RFC 3339")
    | Some fromTime =>
        r ← try (ReplayTopic s topic fromTime);
        match r with
        | Ok n =>
            json_ok (json_replay topic n
              (match fromTime with Some t => FormatUTC t | None => "" end))
        | Err x =>
            match x with
            | ErrTopicNotReplayable | ErrReplayWindowTooOld =>
                jsonError StatusUnprocessableEntity (ErrorText x)
            | _ => internal_server_error
            end
        end
    end).

Definition toArchivedMessageResponse (m : ArchivedMessage) : archivedMessageResponse :=
  mkArchivedResponse (am_ID m) (am_Topic m) (am_Key m) (StdEncoding (am_Payload m))
    (am_RetryCount m) (am_OriginalTopic m) (FormatUTC (nanoseconds (am_CreatedAt m)))
    (FormatUTC (nanoseconds (AckedAt m))).

Definition listMessageLog (c : Ctx) : M Response :=
  let '(limit, offset) := parseLimitOffset c 50 200 in
  or_500 (ListMessageLog (Params c "topic") limit offset) (λ result,
    json_ok (json_log (toArchivedMessageResponse <$> Items result) (Total result)
               limit offset)).

Definition trimMessageLog (c : Ctx) : M Response :=
  let beforeStr := c_Query c "before" in
  if bool_decide (beforeStr = "") then bad_request "before query parameter is required"
  else match ParseRFC3339 beforeStr with
       | None => bad_request "before must be RFC 3339"
       | Some before =>
           or_500 (TrimMessageLog (Params c "topic") before) (λ n, json_ok (json_deleted n))
       end.

(** ** Topic configurations *)

Definition toTopicConfigResponse (cfg : TopicConfig) : topicConfigResponse :=
  mkConfigResponse (Topic cfg) (MaxRetries cfg) (MessageTTLSeconds cfg) (MaxDepth cfg)
    (Replayable cfg) (ReplayWindowSeconds cfg) (ThroughputLimit cfg).

Definition listTopicConfigs : M Response :=
  or_500 ListTopicConfigs (λ configs, json_ok (json_configs (toTopicConfigResponse <$> configs))).

(** The configuration a request asks for. *)
Definition requested_config (topic : string) (req : topicConfigRequest) : TopicConfig :=
  let replayable := default false (cb_Replayable req) in
  let replayWindow := if negb replayable then None else cb_ReplayWindowSeconds req in
  mkTopicConfig topic (cb_MaxRetries req) (cb_MessageTTLSeconds req) (cb_MaxDepth req)
    replayable replayWindow (cb_ThroughputLimit req).

Definition upsertTopicConfig (c : Ctx) : M Response :=
  with_body to_config c (λ req,
    if match cb_ThroughputLimit req with Some n => n <? 0 | None => false end
    then bad_request "throughput_limit must be a non-negative integer"
    else
      let cfg := requested_config (Params c "topic") req in
      r ← try (UpsertTopicConfig cfg);
      match r with
      | Ok _ => json_ok (json_config (toTopicConfigResponse cfg))
      | Err ErrReservedTopic => bad_request "topic name may not end in .dlq"
      | Err _ => internal_server_error
      end).

Definition deleteTopicConfig (c : Ctx) : M Response :=
  r ← try (DeleteTopicConfig (Params c "topic"));
  match r with
  | Ok _ => SendStatus StatusNoContent
  | Err ErrNotFound => jsonError StatusNotFound (ErrorText ErrNotFound)
  | Err _ => internal_server_error
  end.

(** ** Topic schemas *)

Definition toTopicSchemaResponse (ts : TopicSchema) : topicSchemaResponse :=
  mkSchemaResponse (ts_Topic ts) (SchemaJSON ts) (Version ts) (format_column (UpdatedAt ts)).

Definition listTopicSchemas : M Response :=
  or_500 ListTopicSchemas (λ schemas, json_ok (json_schemas (toTopicSchemaResponse <$> schemas))).

Definition upsertTopicSchema (c : Ctx) : M Response :=
  with_body to_schema c (λ req,
    r ← try (UpsertTopicSchemaAndNotify (Params c "topic") (schema_json req));
    match r with
    | Ok ts => json_ok (json_schema (toTopicSchemaResponse ts))
    | Err ErrInvalidSchema => jsonError StatusBadRequest (ErrorText ErrInvalidSchema)
    | Err _ => internal_server_error
    end).

Definition deleteTopicSchema (c : Ctx) : M Response :=
  or_500 (DeleteTopicSchemaAndNotify (Params c "topic")) (λ _, SendStatus StatusNoContent).

Definition getTopicSchema (c : Ctx) : M Response :=
  or_500 (GetTopicSchema (Params c "topic")) (λ ts,
    match ts with
    | None => jsonError StatusNotFound (Text "schema not found")
    | Some ts => json_ok (json_schema (toTopicSchemaResponse ts))
    end).

(** ** Users *)

Definition toUserResponse (u : User) : userResponse :=
  mkUserResponse (user_ID u) (Username u) (IsAdmin u) (format_column (user_CreatedAt u))
    (format_column (user_UpdatedAt u)).

Definition toGrantResponse (g : Grant) : grantResponse :=
  mkGrantResponse (grant_ID g) (grant_UserID g) (Action g) (TopicPattern g) (ConsumerGroup g)
    (format_column (grant_CreatedAt g)).

Definition listUsers : M Response :=
  or_500 ListUsers (λ list, json_ok (json_users (toUserResponse <$> list))).

Definition createUser (c : Ctx) : M Response :=
  with_body to_create_user c (λ req,
    if bool_decide (cu_Username req = "") || bool_decide (cu_Password req = "")
    then bad_request "username and password are required"
    else if (String.length (cu_Password req) <? 12)%nat
    then bad_request "password must be at least 12 characters"
    else
      r ← try (Create salt (cu_Username req) (cu_Password req) (cu_IsAdmin req));
      match r with
      | Ok u => mret (mkResponse StatusCreated (json_user (toUserResponse u)))
      | Err ErrDuplicate => jsonError StatusConflict (ErrorText ErrDuplicate)
      | Err _ => internal_server_error
      end).

Definition updateUser (c : Ctx) : M Response :=
  with_body to_update_user c (λ req,
    if match uu_Password req with Some p => (String.length p <? 12)%nat | None => false end
    then bad_request "password must be at least 12 characters"
    else
      r ← try (Update salt (Params c "id") (uu_Username req) (uu_Password req) (uu_IsAdmin req));
      match r with
      | Ok u => json_ok (json_user (toUserResponse u))
      | Err ErrUserNotFound => jsonError StatusNotFound (ErrorText ErrUserNotFound)
      | Err ErrDuplicate => jsonError StatusConflict (ErrorText ErrDuplicate)
      | Err _ => internal_server_error
      end).

Definition deleteUser (c : Ctx) (locals : option Claims) : M Response :=
  r ← try (Delete (Params c "id") (caller_id locals));
  match r with
  | Ok _ => SendStatus StatusNoContent
  | Err ErrCannotDeleteSelf => jsonError StatusBadRequest (ErrorText ErrCannotDeleteSelf)
  | Err ErrUserNotFound => jsonError StatusNotFound (ErrorText ErrUserNotFound)
  | Err _ => internal_server_error
  end.

Definition listUserGrants (c : Ctx) : M Response :=
  or_500 (ListGrants (Params c "id")) (λ grants,
    json_ok (json_grants (toGrantResponse <$> grants))).

(** The default pattern. *)
Definition pattern_or_all (topicPattern : string) : string :=
  if bool_decide (topicPattern = "") then "*" else topicPattern.

Definition addUserGrant (c : Ctx) : M Response :=
  with_body to_grant c (λ req,
    if decide (ag_Action req ∉ ["read"; "write"; "admin"])
    then bad_request "action must be one of: read, write, admin"
    else or_500 (AddGrant (Params c "id") (ag_Action req) (pattern_or_all (ag_TopicPattern req)))
           (λ g, mret (mkResponse StatusCreated (json_grant (toGrantResponse g))))).

Definition addConsumerGroupGrant (c : Ctx) : M Response :=
  with_body to_group_grant c (λ req,
    if bool_decide (gg_ConsumerGroup req = "") then bad_request "consumer_group is required"
    else
      r ← try (AddConsumerGroupGrant (Params c "id") (pattern_or_all (gg_TopicPattern req))
                 (gg_ConsumerGroup req));
      match r with
      | Ok g => mret (mkResponse StatusCreated (json_grant (toGrantResponse g)))
      | Err ErrDuplicate => jsonError StatusConflict (ErrorText ErrDuplicate)
      | Err _ => internal_server_error
      end).

Definition deleteUserGrant (c : Ctx) : M Response :=
  r ← try (DeleteGrant (Params c "grantId") (Params c "id"));
  match r with
  | Ok _ => SendStatus StatusNoContent
  | Err ErrUserNotFound => jsonError StatusNotFound (ErrorText ErrUserNotFound)
  | Err _ => internal_server_error
  end.

(** ** What the answers report *)

Lemma with_body_run {A} (t : target A) c (k : A → M Response) req e w :
  BodyParser t c = (req, true) → with_body t c k e w = k req e w.
Proof. intros Hb. unfold with_body. by rewrite Hb. Qed.

Context `{SLAWS : !StorageLaws}.

(** Both transports perform the reference [Enqueue]: for the same message, caches in
    step with the tables and no failing round trip, the HTTP handler and, for a caller
    without grant checks, the gRPC handler leave the same tables, those that
    [enqueue_on_tables] computes; they answer 201 or the response with the id it computes,
    and its errors as 422 or [InvalidArgument] for a payload against the schema, 422 or
    [FailedPrecondition] for an unregistered topic, 429 or [Internal] for a full queue, and
    500 or [Internal] for any other. *)
Theorem transports_report_enqueue c caller req e w :
  caches_ok w → w_faults w = [] → BodyParser to_enqueue c = (req, true) →
  eb_Topic req ≠ "" → eb_Payload req ≠ "" → restricted caller = None →
  let '(mkEnqueueBody topic payload metadata key) := req in
  let http := enqueueMessage c e w in
  let rpc := rpc_Enqueue s caller (mkEnqueueRequest topic payload metadata key) e w in
  w_db rpc.2 = w_db http.2 ∧
  match enqueue_on_tables s topic payload metadata key e (w_db w) with
  | Ok (id, db') =>
      w_db http.2 = db' ∧ http.1 = Ok (mkResponse StatusCreated (json_id id)) ∧
      rpc.1 = Ok (Ok id)
  | Err x =>
      w_db http.2 = w_db w ∧
      match x with
      | ErrSchemaValidation _ =>
          http.1 = Ok (mkResponse StatusUnprocessableEntity (json_error (ErrorText x))) ∧
          rpc.1 = Ok (Err InvalidArgument)
      | ErrTopicNotRegistered =>
          http.1 = Ok (mkResponse StatusUnprocessableEntity (json_error (ErrorText x))) ∧
          rpc.1 = Ok (Err FailedPrecondition)
      | ErrQueueFull =>
          http.1 = Ok (mkResponse StatusTooManyRequests (json_error (ErrorText x))) ∧
          rpc.1 = Ok (Err Internal)
      | _ =>
          http.1 = Ok (mkResponse StatusInternalServerError
                         (json_error (Text "internal server error"))) ∧
          rpc.1 = Ok (Err Internal)
      end
  end.
Proof.
  intros Hw Hf Hb Ht Hp Hr. destruct req as [topic payload metadata key]. simpl in *.
  destruct (enqueue_simulates s topic payload metadata key e w Hw) as [_ Hi].
  pose proof (implements_calm _ _ _ _ Hi
    (Enqueue_calm s topic payload metadata key) Hf) as Hrun. clear Hi.
  unfold enqueueMessage. rewrite (with_body_run _ _ _ _ _ _ Hb). unfold rpc_Enqueue. simpl.
  do 2 rewrite bool_decide_false by done. simpl.
  unfold rpc_bind, checkGrant. rewrite Hr, !run_bind, !run_try. unfold reply.
  rewrite run_ret. simpl. rewrite run_bind, run_try.
  destruct (enqueue_on_tables s topic payload metadata key e (w_db w)) as [[id db']|x];
    destruct Hrun as [-> Hdb]; [done|]. by destruct x.
Qed.

(** The visibility timeout of a batch over HTTP is exact between one second and
    9223372036 seconds, some 292 years; zero and negative numbers mean the server's
    default, and larger ones overflow: 9223372037 seconds mean the default as well, and
    18446744074 seconds less than one second, after which any consumer may find the
    message's timeout past. *)
Theorem http_visibility_timeout n :
  (1 ≤ n ≤ 9223372036 →
   duration_seconds (resolveVisibilityTimeout s (visibility_timeout_of (Some n))) = n) ∧
  (- 9223372036 ≤ n ≤ 0 →
   resolveVisibilityTimeout s (visibility_timeout_of (Some n)) = visibilityTimeout s) ∧
  resolveVisibilityTimeout s (visibility_timeout_of (Some 9223372037)) = visibilityTimeout s ∧
  duration_seconds (resolveVisibilityTimeout s (visibility_timeout_of (Some 18446744074))) = 0.
Proof.
  unfold resolveVisibilityTimeout, visibility_timeout_of, duration_seconds. split_and!.
  - intros Hn. rewrite wrap64_id by (unfold Second; lia).
    rewrite (proj2 (Z.ltb_lt 0 _)) by (unfold Second; lia). by apply Z.quot_mul.
  - intros Hn. rewrite wrap64_id by (unfold Second; lia).
    by rewrite (proj2 (Z.ltb_ge 0 _)) by (unfold Second; lia).
  - done.
  - done.
Qed.

(** The pages asked for: whatever the query says, a limit between 1 and the maximum and an
    offset that is not negative. *)
Lemma parseLimitOffset_range c d m :
  1 ≤ m → let '(limit, offset) := parseLimitOffset c d m in 1 ≤ limit ≤ m ∧ 0 ≤ offset.
Proof.
  intros Hm. unfold parseLimitOffset. split; [|lia].
  repeat case_match; reflect_bools; lia.
Qed.

(** An update accepts the empty username, which [createUser] refuses; the account is then
    closed, for a login without a username is refused whatever the password. *)
Theorem emptied_username_locks_out c c2 req e e2 w w2 body w1 :
  BodyParser to_update_user c = (req, true) → uu_Username req = Some "" →
  updateUser c e w = (Ok (mkResponse StatusOK body), w1) →
  (u_username <$> users (w_db w1) !! Params c "id") = Some "" ∧
  (login_Username (BodyParser to_login c2).1 = "" →
   (handleLogin c2 e2 w2).1 =
     Ok (mkResponse StatusBadRequest (json_error (Text "username and password are required")))).
Proof.
  intros Hb Hu Hrun. split.
  - unfold updateUser in Hrun. rewrite (with_body_run _ _ _ _ _ _ Hb) in Hrun.
    destruct (match uu_Password req with Some p => (String.length p <? 12)%nat | None => false end);
      [done|].
    rewrite run_bind, run_try in Hrun. simpl in Hrun.
    destruct (Update salt (Params c "id") (uu_Username req) (uu_Password req) (uu_IsAdmin req) e w)
      as [[u|x] w'] eqn:Hup; simpl in Hrun; [|by destruct x].
    injection Hrun as _ <-. rewrite Hu in Hup.
    assert (∃ hash, (row ← or_duplicate (pool_stmt "update user"
              (sql_update_user (Params c "id") (Some "") hash (uu_IsAdmin req)));
            match row with None => fail ErrUserNotFound | Some u => mret u end) e w =
            (Ok u, w')) as [hash Hst].
    { unfold Update in Hup. destruct (uu_Password req) as [p|]; [|by eexists].
      destruct (GenerateFromPassword salt p) as [h|]; [by eexists|done]. }
    apply bind_Ok in Hst as (row & w3 & (fs & db & Hq & ->)%or_duplicate_Ok%pool_stmt_Ok & Hst).
    unfold sql_update_user in Hq. destruct (users (w_db w) !! Params c "id"); [|by simplify_eq].
    case_decide; [|done]. injection Hq as <- <-. apply ret_Ok in Hst as [-> ->]. simpl.
    by rewrite lookup_insert_eq.
  - intros Hl. unfold handleLogin. destruct (BodyParser to_login c2) as [lr ok]. simpl in Hl.
    rewrite Hl, orb_true_r. done.
Qed.
End handlers.
