(* ===== verification/Routes.v ===== *)
(** * The HTTP server's routes

    [backend/internal/server/http.go]: the routes [NewHTTPServer] registers, with the
    middleware in front of each handler, and what they let through.  Matching a URL to a
    route is fiber's; a request comes with its route. *)

From S2P Require Import Prelude.
From S2P Require Import Store.
From S2P Require Import Avro.
From S2P Require Import Text.
From S2P Require Import Runtime.
From S2P Require Import Model.
From S2P Require Import TopicConfig.
From S2P Require Import Throttle.
From S2P Require Import Schema.
From S2P Require Import Dequeue.
From S2P Require Import Enqueue.
From S2P Require Import Lifecycle.
From S2P Require Import ConsumerGroup.
From S2P Require Import Reaper.
From S2P Require Import Replay.
From S2P Require Import Query.
From S2P Require Import Users.
From S2P Require Import Grpc.
From S2P Require Import Http.
From S2P Require Import Handlers.

Inductive Route :=
| GET_healthz | GET_metrics
| GET_version | GET_auth_status | POST_login | POST_refresh
| GET_users | POST_users | PUT_user | DELETE_user
| GET_grants | POST_grants | DELETE_grant | POST_group_grants
| GET_messages | POST_messages | POST_dequeue | POST_nack | POST_requeue
| GET_stats
| GET_configs | PUT_config | DELETE_config
| GET_schemas | PUT_schema | DELETE_schema | GET_schema
| GET_groups | POST_groups | DELETE_group
| POST_purge | DELETE_by_key
| POST_expiry_reaper | POST_delete_reaper | GET_schedule | PUT_schedule
| POST_replay | GET_log | DELETE_log | POST_archive_reaper.

Section routes.
Context `{PG : Postgres} `{ST : Storage} `{CO : Codecs} `{JW : JWT} `{BC : Bcrypt}.
Context `{FI : Fiber} `{LA : Layouts}.

(** [HTTPServer], with the randomness of [bcrypt] and the cron parser. *)
Record HTTPServer := mkHTTPServer {
  queueService : Service;
  authConfig : AuthConfig;
  version : string;
  bcrypt_salt : string;
  cron_valid : string → bool;
}.
Context (srv : HTTPServer).

Abbreviation Middleware := (option Claims → M (result Response (option Claims))).

Definition versionHandler : M Response := json_ok (json_version (version srv)).
Definition authStatus : M Response := json_ok (json_auth_required (Enabled (authConfig srv))).

(** [limiter.New(...)] in front of the login. *)
Definition loginLimiter (c : Ctx) : Middleware := λ locals,
  if limit_reached c then mret (Err (mkResponse StatusTooManyRequests no_json)) else Next locals.

(** The middleware of a route. *)
Definition guards (r : Route) (c : Ctx) : Middleware :=
  let cfg := authConfig srv in
  match r with
  | GET_healthz | GET_version | GET_auth_status => Next
  | POST_login => loginLimiter c
  | GET_metrics | POST_refresh => jwtAuth cfg c
  | GET_messages => chain (jwtAuth cfg c) (requireGrant cfg "read" (c_Query c "topic"))
  | POST_messages => chain (jwtAuth cfg c) (requireGrant cfg "write" (peek c "topic"))
  | POST_dequeue => chain (jwtAuth cfg c) (requireDequeueGrant cfg (peek_topic_group c))
  | POST_nack => chain (jwtAuth cfg c) (requireDequeueOnMsgTopic cfg c)
  | POST_requeue => chain (jwtAuth cfg c) (requireWriteOnMsgTopic cfg c)
  | _ => chain (jwtAuth cfg c) (requireAdmin cfg)
  end.

(** A handler that leaves the scheduler alone. *)
Definition keep (cron : Cron) (m : M Response) : M (Response * Cron) :=
  answer ← m; mret (answer, cron).

Definition handler (r : Route) (c : Ctx) (cron : Cron) (locals : option Claims)
    : M (Response * Cron) :=
  let s := queueService srv in
  match r with
  | GET_healthz => keep cron (SendStatus StatusOK)
  | GET_metrics => keep cron (json_ok metrics_page)
  | GET_version => keep cron versionHandler
  | GET_auth_status => keep cron authStatus
  | POST_login => keep cron (handleLogin (authConfig srv) c)
  | POST_refresh => keep cron (handleRefresh (authConfig srv) locals)
  | GET_users => keep cron listUsers
  | POST_users => keep cron (createUser (bcrypt_salt srv) c)
  | PUT_user => keep cron (updateUser (bcrypt_salt srv) c)
  | DELETE_user => keep cron (deleteUser c locals)
  | GET_grants => keep cron (listUserGrants c)
  | POST_grants => keep cron (addUserGrant c)
  | DELETE_grant => keep cron (deleteUserGrant c)
  | POST_group_grants => keep cron (addConsumerGroupGrant c)
  | GET_messages => keep cron (listMessages c)
  | POST_messages => keep cron (enqueueMessage s c)
  | POST_dequeue => keep cron (batchDequeueMessages s c)
  | POST_nack => keep cron (nackMessage s c)
  | POST_requeue => keep cron (requeueMessage s c)
  | GET_stats => keep cron statsHandler
  | GET_configs => keep cron listTopicConfigs
  | PUT_config => keep cron (upsertTopicConfig c)
  | DELETE_config => keep cron (deleteTopicConfig c)
  | GET_schemas => keep cron listTopicSchemas
  | PUT_schema => keep cron (upsertTopicSchema c)
  | DELETE_schema => keep cron (deleteTopicSchema c)
  | GET_schema => keep cron (getTopicSchema c)
  | GET_groups => keep cron (listConsumerGroups c)
  | POST_groups => keep cron (registerConsumerGroup s c)
  | DELETE_group => keep cron (unregisterConsumerGroup c)
  | POST_purge => keep cron (purgeTopicMessages c)
  | DELETE_by_key => keep cron (purgeByKeyMessages c)
  | POST_expiry_reaper => keep cron runExpiryReaperOnce
  | POST_delete_reaper => keep cron runDeleteReaperOnce
  | GET_schedule => keep cron getDeleteReaperSchedule
  | PUT_schedule => updateDeleteReaperSchedule (cron_valid srv) c cron
  | POST_replay => keep cron (replayTopic s c)
  | GET_log => keep cron (listMessageLog c)
  | DELETE_log => keep cron (trimMessageLog c)
  | POST_archive_reaper => keep cron runArchiveReaperOnce
  end.

(** One request: its guards, then its handler. *)
Definition NewHTTPServer (r : Route) (c : Ctx) (cron : Cron) : M (Response * Cron) :=
  gate ← guards r c None;
  match gate with
  | Err answer => mret (answer, cron)
  | Ok locals => handler r c cron locals
  end.

(** ** Who gets through *)

(** The claims of the request's token, if it has a valid one. *)
Definition bearer (c : Ctx) (now : Z) : option Claims :=
  let header := c_Get c "Authorization" in
  if HasPrefix header "Bearer "
  then match ParseToken (JWTSecret (authConfig srv)) (drop_chars 7 header) now with
       | Ok claims => Some claims | Err _ => None end
  else None.

(** The routes that need no token. *)
Definition public (r : Route) : bool :=
  match r with
  | GET_healthz | GET_version | GET_auth_status | POST_login => true
  | _ => false
  end.

(** The permission a signed-in caller who is no administrator needs. *)
Definition granted (r : Route) (c : Ctx) (grants : list Grant) (db : DB) : bool :=
  let of_message (P : string → bool) :=
    match m_topic <$> messages db !! Params c "id" with Some t => P t | None => false end in
  match r with
  | GET_metrics | POST_refresh => true
  | GET_messages => HasGrant grants "read" (c_Query c "topic")
  | POST_messages => HasGrant grants "write" (peek c "topic")
  | POST_dequeue => may_dequeue grants (peek c "topic") (peek c "consumer_group")
  | POST_nack => of_message (λ t, may_dequeue grants t (peek c "consumer_group"))
  | POST_requeue => of_message (HasGrant grants "write")
  | _ => public r
  end.
Definition permitted (r : Route) (c : Ctx) (claims : Claims) (db : DB) : bool :=
  claims_IsAdmin claims || granted r c (grants_of (UserID claims) db) db.

(** The guards refuse: an error answer, no table touched. *)
Definition turned_away (run : result Error (result Response (option Claims)) * World) (w : World)
    : Prop :=
  ∃ status msg, run.1 = Ok (Err (mkResponse status (json_error (Text msg)))) ∧
    status ∈ [StatusForbidden; StatusNotFound; StatusInternalServerError] ∧
    w_db run.2 = w_db w.

Lemma turned_away_stop status msg (e : Env) w w' :
  status ∈ [StatusForbidden; StatusNotFound; StatusInternalServerError] → w_db w' = w_db w →
  turned_away (stop status msg e w') w.
Proof. intros Hs Hw. by exists status, msg. Qed.

Lemma jwtAuth_run c e w locals :
  Enabled (authConfig srv) = true →
  jwtAuth (authConfig srv) c locals e w =
    match bearer c (go_now e) with
    | Some claims => (Ok (Ok (Some claims)), w)
    | None =>
        (Ok (Err (mkResponse StatusUnauthorized (json_error (Text
          (if bool_decide (c_Get c "Authorization" = "") then "missing authorization header"
           else if negb (HasPrefix (c_Get c "Authorization") "Bearer ")
           then "unsupported auth scheme" else "invalid or expired token"))))), w)
    end.
Proof.
  intros He. unfold jwtAuth, JWTMiddleware, bearer, stop. rewrite He, run_ask.
  case_bool_decide as Hempty; [by rewrite Hempty|].
  destruct (HasPrefix _ _); [|done]. simpl. by destruct (ParseToken _ _ _).
Qed.

(** What the three lookups of a guard come to. *)
Lemma with_grants_refuses locals allowed e w0 w :
  w_db w0 = w_db w → allowed (grants_of (caller_id locals) (w_db w)) = false →
  turned_away (with_grants locals allowed e w0) w.
Proof.
  intros Hdb Hno. unfold with_grants. rewrite run_bind.
  destruct (grants_run (caller_id locals) e w0) as (fs & r & -> & [->|[x ->]]).
  - rewrite Hdb, Hno. by apply turned_away_stop; [set_solver|].
  - by apply turned_away_stop; [set_solver|].
Qed.

Lemma with_grants_admits locals allowed e w :
  w_faults w = [] → allowed (grants_of (caller_id locals) (w_db w)) = true →
  with_grants locals allowed e w = (Ok (Ok locals), w).
Proof.
  intros Hf Hyes. unfold with_grants, GetUserGrants, ListGrants.
  rewrite run_bind, run_try, pool_query_quiet by done. simpl. by rewrite Hyes.
Qed.

(** The guards that look up the topic of the message first. *)
Definition on_message (c : Ctx) (P : string → list Grant → bool) (locals : option Claims)
    : M (result Response (option Claims)) :=
  topic ← try (TopicForMessage (Params c "id"));
  match topic with
  | Err _ => message_not_found
  | Ok topic => with_grants locals (P topic)
  end.

Lemma on_message_refuses c P locals e w :
  match m_topic <$> messages (w_db w) !! Params c "id" with
  | Some t => P t (grants_of (caller_id locals) (w_db w)) | None => false end = false →
  turned_away (on_message c P locals e w) w.
Proof.
  intros Hno. unfold on_message. rewrite run_bind, run_try.
  destruct (TopicForMessage_run (Params c "id") e w) as (fs & r & -> & [->|[x ->]]); simpl.
  2: by apply turned_away_stop; [set_solver|].
  destruct (m_topic <$> _); [by apply with_grants_refuses|].
  by apply turned_away_stop; [set_solver|].
Qed.

Lemma on_message_admits c P locals e w :
  w_faults w = [] →
  match m_topic <$> messages (w_db w) !! Params c "id" with
  | Some t => P t (grants_of (caller_id locals) (w_db w)) | None => false end = true →
  on_message c P locals e w = (Ok (Ok locals), w).
Proof.
  intros Hf Hyes. unfold on_message, TopicForMessage.
  rewrite run_bind, run_try, run_bind, pool_query_quiet by done.
  destruct (m_topic <$> _) as [t|]; [|done]. simpl. by apply with_grants_admits.
Qed.

(** A guard after the token check, for a caller who is no administrator. *)
Lemma guards_signed_in r c e w claims :
  Enabled (authConfig srv) = true → bearer c (go_now e) = Some claims → public r = false →
  ∃ m : M (result Response (option Claims)),
    guards r c None e w = m e w ∧
    (claims_IsAdmin claims = true → m e w = (Ok (Ok (Some claims)), w)) ∧
    (permitted r c claims (w_db w) = false → turned_away (m e w) w) ∧
    (permitted r c claims (w_db w) = true → w_faults w = [] →
     m e w = (Ok (Ok (Some claims)), w)).
Proof.
  intros He Hb Hp. eexists. split; [reflexivity|].
  assert (∀ g : Middleware,
    chain (jwtAuth (authConfig srv) c) g None e w = g (Some claims) e w) as Hchain.
  { intros g. unfold chain. by rewrite run_bind, (jwtAuth_run c e w) by done; rewrite Hb. }
  assert (jwtAuth (authConfig srv) c None e w = (Ok (Ok (Some claims)), w)) as Hjwt.
  { by rewrite jwtAuth_run, Hb. }
  unfold permitted, granted.
  destruct (claims_IsAdmin claims) eqn:Ha; simpl.
  { assert (guards r c None e w = (Ok (Ok (Some claims)), w)) as Hadm.
    { destruct r; try done; unfold guards; try exact Hjwt; rewrite Hchain;
        unfold requireGrant, requireDequeueGrant, requireDequeueOnMsgTopic,
          requireWriteOnMsgTopic, requireAdmin, checkAuthAndAdmin; by rewrite Ha. }
    by split_and!. }
  split; [done|].
  destruct r; try done; unfold guards; try (by split; intros; simplify_eq; exact Hjwt);
    rewrite Hchain; unfold requireGrant, requireDequeueGrant, requireDequeueOnMsgTopic,
      requireWriteOnMsgTopic, requireAdmin, checkAuthAndAdmin, peek_topic_group; rewrite Ha.
  all: try (split; [intros _; by apply turned_away_stop; [set_solver|]|done]).
  all: split; intros; first
    [ by apply with_grants_refuses | by apply with_grants_admits
    | by apply on_message_refuses | by apply on_message_admits
    | by apply (on_message_refuses c (λ t gs, HasGrant gs "write" t) (Some claims))
    | by apply (on_message_admits c (λ t gs, HasGrant gs "write" t) (Some claims))
    | by apply (on_message_refuses c (λ t gs, may_dequeue gs t (peek c "consumer_group"))
                  (Some claims))
    | by apply (on_message_admits c (λ t gs, may_dequeue gs t (peek c "consumer_group"))
                  (Some claims)) ].
Qed.

(** [C39] The route table lets through exactly the permitted callers, with authentication
    enabled.  Without a valid token every route but the health check, the version, the
    authentication status and the login answers 401 with the world untouched; a signed-in
    caller without the permission - an administrator's flag for the administration routes,
    the grant on the topic for the message routes - is answered 403, 404 or 500 with no
    table changed, under any faults; a permitted one gets exactly the handler's run when no
    round trip fails, and an administrator gets it always. *)
Theorem routes_admit_exactly_permitted r c cron e w :
  Enabled (authConfig srv) = true → public r = false →
  let run := NewHTTPServer r c cron e w in
  match bearer c (go_now e) with
  | None => (∃ msg, run.1 = Ok (mkResponse StatusUnauthorized (json_error (Text msg)), cron)) ∧
            run.2 = w
  | Some claims =>
      let handled := handler r c cron (Some claims) e w in
      (claims_IsAdmin claims = true → run = handled) ∧
      (permitted r c claims (w_db w) = true → w_faults w = [] → run = handled) ∧
      (permitted r c claims (w_db w) = false →
       (∃ status msg, run.1 = Ok (mkResponse status (json_error (Text msg)), cron) ∧
          status ∈ [StatusForbidden; StatusNotFound; StatusInternalServerError]) ∧
       w_db run.2 = w_db w)
  end.
Proof.
  intros He Hp run. unfold run, NewHTTPServer. destruct (bearer c (go_now e)) as [claims|] eqn:Hb.
  - destruct (guards_signed_in r c e w claims He Hb Hp) as (m & Hm & Hadm & Hno & Hyes).
    rewrite run_bind, Hm. split_and!.
    + intros Ha. by rewrite Hadm.
    + intros Hper Hf. by rewrite Hyes.
    + intros Hper. destruct (Hno Hper) as (status & msg & Hres & Hin & Hdb).
      destruct (m e w) as [res w']. simpl in *. subst res. simpl. split; [|done]. by eexists _, _.
  - assert (∃ msg, guards r c None e w =
      (Ok (Err (mkResponse StatusUnauthorized (json_error (Text msg)))), w)) as [msg Hg].
    { assert (∃ msg, jwtAuth (authConfig srv) c None e w =
        (Ok (Err (mkResponse StatusUnauthorized (json_error (Text msg)))), w)) as [msg Hj].
      { rewrite jwtAuth_run, Hb by done. by eexists. }
      exists msg. destruct r; try done; unfold guards; try exact Hj;
        unfold chain; by rewrite run_bind, Hj. }
    rewrite run_bind, Hg. simpl. split; [by exists msg|done].
Qed.

(** A permitted caller's run, and a caller's who is turned away. *)
Lemma permitted_run r c cron e w claims :
  Enabled (authConfig srv) = true → public r = false → bearer c (go_now e) = Some claims →
  permitted r c claims (w_db w) = true → w_faults w = [] →
  NewHTTPServer r c cron e w = handler r c cron (Some claims) e w.
Proof.
  intros He Hp Hb Hper Hf. unfold NewHTTPServer.
  destruct (guards_signed_in r c e w claims He Hb Hp) as (m & Hm & _ & _ & Hyes).
  by rewrite run_bind, Hm, Hyes.
Qed.

Lemma admin_run r c cron e w claims :
  Enabled (authConfig srv) = true → public r = false → bearer c (go_now e) = Some claims →
  claims_IsAdmin claims = true →
  NewHTTPServer r c cron e w = handler r c cron (Some claims) e w.
Proof.
  intros He Hp Hb Ha. unfold NewHTTPServer.
  destruct (guards_signed_in r c e w claims He Hb Hp) as (m & Hm & Hadm & _).
  by rewrite run_bind, Hm, Hadm.
Qed.

Lemma forbidden_run r c cron e w claims res w' :
  Enabled (authConfig srv) = true → public r = false → bearer c (go_now e) = Some claims →
  NewHTTPServer r c cron e w = (Ok res, w') → StatusCode res.1 = StatusOK →
  permitted r c claims (w_db w) = true.
Proof.
  intros He Hp Hb Hrun Hst. apply not_false_is_true. intros Hper.
  destruct (guards_signed_in r c e w claims He Hb Hp) as (m & Hm & _ & Hno & _).
  destruct (Hno Hper) as (status & msg & Hres & Hin & _).
  unfold NewHTTPServer in Hrun. rewrite run_bind, Hm in Hrun.
  destruct (m e w) as [r0 w0]. simpl in Hres. subst r0. injection Hrun as <- _. simpl in Hst.
  subst status. unfold StatusForbidden, StatusNotFound, StatusInternalServerError, StatusOK in Hin.
  by repeat apply elem_of_cons in Hin as [?|Hin]; [..|apply elem_of_nil in Hin].
Qed.

(** *** The two decodings of a body *)

(** The grant is checked on one decoding of the body and the message enqueued from
    another: a caller without the grant on the topic that [BodyParser] finds, whom the gRPC
    method refuses, has its message stored there all the same when [json.Unmarshal] of the
    raw body finds a topic it may write to, as when a JSON text is sent as a form. *)
Theorem enqueue_grant_checked_on_other_decoding c cron e w claims req :
  Enabled (authConfig srv) = true → bearer c (go_now e) = Some claims →
  claims_IsAdmin claims = false → w_faults w = [] →
  BodyParser to_enqueue c = (req, true) → eb_Topic req ≠ "" → eb_Payload req ≠ "" →
  let grants := grants_of (UserID claims) (w_db w) in
  HasGrant grants "write" (peek c "topic") = true →
  HasGrant grants "write" (eb_Topic req) = false →
  let s := queueService srv in
  (∀ id w', Enqueue s (eb_Topic req) (eb_Payload req) (eb_Metadata req) (eb_Key req) e w =
              (Ok id, w') →
     NewHTTPServer POST_messages c cron e w = (Ok (mkResponse StatusCreated (json_id id), cron), w')) ∧
  refuses (rpc_Enqueue s (mkCaller (Some claims) true)
             (mkEnqueueRequest (eb_Topic req) (eb_Payload req) (eb_Metadata req) (eb_Key req)) e w) w.
Proof.
  intros He Hb Ha Hf Hbody Ht Hp grants Hyes Hno s. split.
  - intros id w' Henq. unfold s in Henq. rewrite (permitted_run _ _ _ _ _ claims) by
      (done || by unfold permitted; rewrite Ha).
    simpl. unfold keep, enqueueMessage. rewrite run_bind, (with_body_run _ _ _ _ _ _ Hbody).
    do 2 rewrite bool_decide_false by done. simpl. by rewrite run_bind, run_try, Henq.
  - unfold rpc_Enqueue. simpl. do 2 rewrite bool_decide_false by done.
    assert (restricted (mkCaller (Some claims) true) = Some (UserID claims)) as Hr.
    { unfold restricted. simpl. by rewrite Ha. }
    destruct (checkGrant_refuses _ _ "write" (eb_Topic req) e w Hr Hno) as (code & w1 & Hchk & Hdb).
    by eapply (rpc_bind_refuses _ _ _ _ _ _ Hchk).
Qed.

(** *** Listings *)

Lemma MatchesPattern_empty p t : p ≠ "" → MatchesPattern p "" = true → MatchesPattern p t = true.
Proof.
  intros Hp. unfold MatchesPattern. case_bool_decide; [done|].
  destruct (CutSuffix p ".*") as [prefix|] eqn:Hc.
  - intros [rest Hr]%HasPrefix_spec. destruct prefix; simpl in Hr; done.
  - intros ->%bool_decide_eq_true. done.
Qed.

Lemma HasGrant_all grants action t :
  Forall (λ g, TopicPattern g ≠ "") grants →
  HasGrant grants action "" = true → HasGrant grants action t = true.
Proof.
  intros Hne (g & Hg & Ha & Hm)%HasGrant_spec. apply HasGrant_spec. exists g. split; [done|].
  split; [done|]. apply MatchesPattern_empty; [|done]. by eapply Forall_forall in Hne.
Qed.

Context `{LAWS : !PostgresLaws}.

(** The list of messages shows a caller who is no administrator only messages it may
    read, also when no topic is asked for: with no empty pattern among its grants, every
    message of the answer is a row of the table, shown with its topic, payload and status,
    and a [read] grant matches its topic; the answer has no message twice, no more than 200
    and no more than the limit it states, and no table changes. *)
Theorem listing_shows_granted_messages c cron e w claims items total limit offset cron' w' :
  Enabled (authConfig srv) = true → bearer c (go_now e) = Some claims →
  claims_IsAdmin claims = false → w_faults w = [] →
  let grants := grants_of (UserID claims) (w_db w) in
  Forall (λ g, TopicPattern g ≠ "") grants →
  NewHTTPServer GET_messages c cron e w =
    (Ok (mkResponse StatusOK (json_messages items total limit offset), cron'), w') →
  Forall (λ m, ∃ r, messages (w_db w) !! mr_ID m = Some r ∧ mr_Topic m = m_topic r ∧
    mr_Payload m = m_payload r ∧ mr_Status m = status_text (m_status r) ∧
    HasGrant grants "read" (m_topic r) = true) items ∧
  NoDup (mr_ID <$> items) ∧ Z.of_nat (length items) ≤ limit ≤ 200 ∧ w_db w' = w_db w.
Proof.
  intros He Hb Ha Hf grants Hne Hrun.
  assert (permitted GET_messages c claims (w_db w) = true) as Hper
    by by eapply forbidden_run in Hrun.
  rewrite (permitted_run _ _ _ _ _ claims) in Hrun by done.
  unfold permitted in Hper. rewrite Ha in Hper. simpl in Hper. fold grants in Hper.
  simpl in Hrun. unfold keep, listMessages, or_500 in Hrun.
  pose proof (parseLimitOffset_range c 50 200 ltac:(lia)) as Hrange.
  destruct (parseLimitOffset c 50 200) as [lim off].
  rewrite run_bind, run_bind, run_try in Hrun.
  destruct (List_ (c_Query c "topic") lim off e w) as [[page|x] w1] eqn:Hl; [|done].
  injection Hrun as <- <- <- <- <- <-. simpl.
  destruct (list_page_correct _ _ _ _ _ _ _ Hl) as (_ & _ & Hlen & _ & _ & Hdup & Hall & Hdb).
  split_and!.
  - apply Forall_fmap. eapply Forall_impl; [exact Hall|].
    intros m (r & Hm & Hlisted & Ht & Hp & Hs). exists r. split_and!; try done.
    destruct Hlisted as [Hempty| ->]; [|done]. rewrite Hempty in Hper. by apply HasGrant_all.
  - by rewrite <-list_fmap_compose.
  - by rewrite length_fmap.
  - lia.
  - done.
Qed.

(** *** Sessions *)

Context `{BLAWS : !BcryptLaws} `{JLAWS : !JWTLaws}.

Lemma bearer_token c token now :
  c_Get c "Authorization" = "Bearer " +:+ token →
  bearer c now = match ParseToken (JWTSecret (authConfig srv)) token now with
                 | Ok claims => Some claims | Err _ => None end.
Proof.
  intros Hc. unfold bearer. rewrite Hc.
  by rewrite (proj2 (HasPrefix_spec ("Bearer " +:+ token) "Bearer ")) by by exists token.
Qed.

(** [C40] The life of an account over HTTP.  An account that [POST /users] reports created
    can log in with its password and gets a token, and with a password its hash does not
    accept it gets 401.  The token carries the account's id, name and flag until it expires,
    fifteen minutes after its issue, cut to the second, and is refused from then on.  Once the
    account is gone [POST /auth/refresh] refuses the token, but until its expiry the token of
    an administrator still gets every handler's run. *)
Theorem session_lifecycle c1 c2 c3 cron e1 e2 e3 w w2 w3 req u w1 token :
  Enabled (authConfig srv) = true → users_ok (w_db w) →
  BodyParser to_create_user c1 = (req, true) →
  createUser (bcrypt_salt srv) c1 e1 w = (Ok (mkResponse StatusCreated (json_user u)), w1) →
  BodyParser to_login c2 = (mkLoginRequest (cu_Username req) (cu_Password req), true) →
  w_db w2 = w_db w1 → w_faults w2 = [] → w_faults w3 = [] →
  IssueToken (JWTSecret (authConfig srv)) (ur_ID u) (cu_Username req) (cu_IsAdmin req)
    (go_now e2) = Some token →
  ValidString (ur_ID u) = true → ValidString (cu_Username req) = true →
  c_Get c3 "Authorization" = "Bearer " +:+ token → users (w_db w3) !! ur_ID u = None →
  let exp := NewNumericDate (go_now e2 + TokenDuration) in
  let claims := mkClaims (ur_ID u) (cu_Username req) (cu_IsAdmin req) (Some exp) in
  let cfg := authConfig srv in
  handleLogin cfg c2 e2 w2 = (Ok (mkResponse StatusOK (json_token token)), w2) ∧
  (∃ hash, u_password_hash <$> users (w_db w1) !! ur_ID u = Some hash ∧
   ∀ c wrong, BodyParser to_login c = (mkLoginRequest (cu_Username req) wrong, true) →
     wrong ≠ "" → CompareHashAndPassword hash wrong = false →
     handleLogin cfg c e2 w2 =
       (Ok (mkResponse StatusUnauthorized (json_error (Text "invalid credentials"))), w2)) ∧
  go_now e2 + TokenDuration - Second < exp ≤ go_now e2 + TokenDuration ∧
  (∀ now, bearer c3 now = if now <? exp then Some claims else None) ∧
  (go_now e3 < exp →
   NewHTTPServer POST_refresh c3 cron e3 w3 =
     (Ok (mkResponse StatusUnauthorized (json_error (Text "user no longer exists")), cron), w3) ∧
   (cu_IsAdmin req = true → ∀ r, public r = false →
    NewHTTPServer r c3 cron e3 w3 = handler r c3 cron (Some claims) e3 w3)).
Proof.
  intros He Hok Hb1 Hcreate Hb2 Hdb2 Hf2 Hf3 Htok Hid Huser Hc3 Hgone exp claims cfg.
  unfold createUser in Hcreate. rewrite (with_body_run _ _ _ _ _ _ Hb1) in Hcreate.
  destruct (bool_decide (cu_Username req = "") || bool_decide (cu_Password req = "")) eqn:Hne; [done|].
  reflect_bools. destruct (String.length (cu_Password req) <? 12)%nat; [done|].
  rewrite run_bind, run_try in Hcreate.
  destruct (Create (bcrypt_salt srv) (cu_Username req) (cu_Password req) (cu_IsAdmin req) e1 w)
    as [[user|x] w1'] eqn:Hrun; simpl in Hcreate; [|by destruct x].
  injection Hcreate as <- ->. unfold Create in Hrun.
  destruct (GenerateFromPassword _ _) as [hash|] eqn:Hhash; [|done].
  apply or_duplicate_Ok in Hrun as (fs & db1 & Hq & ->)%pool_stmt_Ok.
  pose proof (sql_insert_user_ok _ _ _ _ _ _ _ Hq Hok) as Hok1.
  unfold sql_insert_user in Hq. case_decide; [|done]. injection Hq as <- <-. simpl in *.
  pose proof (user_named_Some _ (new_uuid e1 0) _ Hok1 (lookup_insert_eq _ _ _)) as Hn.
  simpl in Hn.
  assert (∀ pw, pw ≠ "" → ∀ c, BodyParser to_login c = (mkLoginRequest (cu_Username req) pw, true) →
    handleLogin cfg c e2 w2 =
      (if negb (CompareHashAndPassword hash pw)
       then jsonError StatusUnauthorized (Text "invalid credentials")
       else json_ok (json_token token)) e2 w2) as Hlogin.
  { intros pw Hpw c Hc. unfold handleLogin. rewrite Hc. simpl.
    do 2 rewrite bool_decide_false by done. simpl.
    unfold GetByUsername. rewrite run_bind, run_try, run_bind, pool_query_quiet by done.
    rewrite Hdb2. simpl. rewrite Hn. simpl. case_match; [done|].
    unfold issue_token_for. rewrite run_ask. simpl. unfold cfg. by rewrite Htok. }
  assert (∀ now, bearer c3 now = if now <? exp then Some claims else None) as Hbearer.
  { intros now. rewrite (bearer_token c3 token) by done.
    destruct (token_lifetime _ _ _ _ _ _ now Hid Huser Htok) as [-> _]. fold exp. by destruct (now <? exp). }
  split; [|split; [|split; [apply NewNumericDate_bounds|split; [done|]]]].
  - rewrite (Hlogin (cu_Password req)) by tauto. by rewrite (generated_compares _ _ _ Hhash).
  - exists hash. rewrite lookup_insert_eq. split; [done|]. intros c wrong Hc Hw Hcmp.
    by rewrite (Hlogin wrong Hw c Hc), Hcmp.
  - intros Hlt. specialize (Hbearer (go_now e3)). rewrite (proj2 (Z.ltb_lt _ _) Hlt) in Hbearer.
    split; [|intros Hadm r Hr; by apply admin_run].
    rewrite (permitted_run _ _ _ _ _ claims); [|done..|unfold permitted; apply orb_true_r|done].
    simpl. unfold keep, handleRefresh, GetByID. simpl.
    rewrite run_bind, run_bind, run_try, run_bind, pool_query_quiet by done. by rewrite Hgone.
Qed.
End routes.
