(* ===== verification/Config.v ===== *)
(** * Configuration and connection strings

    [backend/internal/config/config.go]: the settings, their defaults and the environment
    variables bound to them, and the two connection strings [backend/internal/db/postgres.go]
    builds.  [viper], with the process environment and the file it reads, is the parameter
    [Viper]. *)

From S2P Require Import Prelude.
From S2P Require Import Store.
From S2P Require Import Avro.
From S2P Require Import Json.
From S2P Require Import Text.
From S2P Require Import Runtime.
From S2P Require Import Grpc.

(** ** The settings *)

Record ServerConfig := mkServerConfig { Port : Z; HTTPPort : Z; CORSOrigins : string }.
Record DBConfig := mkDBConfig {
  db_Host : string; db_Port : Z; db_User : string; db_Password : string; db_Name : string;
  SSLMode : string;
}.
(** Durations in nanoseconds. *)
Record QueueConfig := mkQueueConfig {
  VisibilityTimeout : Z; cfg_MaxRetries : Z; MessageTTL : Z; DLQThreshold : Z;
  RequireTopicRegistration : bool; DeleteReaperSchedule : string;
}.
Record AuthSettings := mkAuthSettings {
  auth_Username : string; auth_Password : string; auth_Config : AuthConfig;
}.
Record RedisConfig := mkRedisConfig {
  redis_Host : string; redis_Port : Z; redis_Password : string; TLSEnabled : bool;
}.
Record Config := mkConfig {
  cfg_Server : ServerConfig; cfg_DB : DBConfig; cfg_Queue : QueueConfig;
  cfg_Auth : AuthSettings; cfg_Redis : RedisConfig; LogLevel : string;
}.

(** ** [viper] *)

Inductive Setting := SInt (n : Z) | SBool (b : bool) | SText (s : string).

(** The configuration file. *)
Inductive ConfigFile := NoFile | BrokenFile | File (settings : gmap string Setting).

(** [Get defaults bound key]: the value of a key; the [to_] functions are the conversions
    of [Unmarshal], [None] for its error. *)
Class Viper := {
  config_file : ConfigFile;
  environment : string → option string;
  Get : list (string * Setting) → list string → string → option Setting;
  to_int : Setting → option Z;
  to_bool : Setting → option bool;
  to_text : Setting → option string;
  to_duration : Setting → option Z;
}.

(** [SetEnvPrefix("QUEUETI")], [SetEnvKeyReplacer(".", "_")]: the variable of a key. *)
Definition upper (c : Ascii.ascii) : Ascii.ascii :=
  if (97 <=? byte_of c) && (byte_of c <=? 122) then char_of (byte_of c - 32) else c.
Fixpoint env_text (s : string) : string :=
  match s with
  | EmptyString => EmptyString
  | String c s' => String (if bool_decide (c = "."%char) then "_"%char else upper c) (env_text s')
  end.
Definition env_name (key : string) : string := "QUEUETI_" +:+ env_text key.

(** The documented precedence: a non-empty variable of a bound key, the file, the default. *)
Class ViperLaws `{VI : Viper} : Prop := {
  Get_environment ds bound k v :
    k ∈ bound → environment (env_name k) = Some v → v ≠ "" → Get ds bound k = Some (SText v);
  Get_file ds bound k m v :
    environment (env_name k) = None → config_file = File m → m !! k = Some v →
    Get ds bound k = Some v;
  Get_default ds bound k v :
    environment (env_name k) = None →
    match config_file with File m => m !! k = None | _ => True end →
    NoDup ds.*1 → (k, v) ∈ ds → Get ds bound k = Some v;
  to_int_int n : to_int (SInt n) = Some n;
  to_bool_bool b : to_bool (SBool b) = Some b;
  to_text_text s : to_text (SText s) = Some s;
  to_duration_seconds : to_duration (SText "30s") = Some (30 * Second);
  to_duration_hours : to_duration (SText "24h") = Some (24 * 3600 * Second);
}.

Section load.
Context `{VI : Viper}.

(** The [SetDefault] calls. *)
Definition defaults : list (string * Setting) :=
  [("server.port", SInt 50051); ("server.http_port", SInt 8080);
   ("server.cors_origins", SText "*");
   ("db.host", SText "localhost"); ("db.port", SInt 5432); ("db.user", SText "postgres");
   ("db.password", SText "postgres"); ("db.name", SText "queueti"); ("db.sslmode", SText "require");
   ("queue.visibility_timeout", SText "30s"); ("queue.max_retries", SInt 3);
   ("queue.message_ttl", SText "24h"); ("queue.dlq_threshold", SInt 3);
   ("queue.require_topic_registration", SBool false); ("queue.delete_reaper_schedule", SText "");
   ("auth.enabled", SBool false); ("auth.username", SText ""); ("auth.password", SText "");
   ("auth.jwt_secret", SText "");
   ("redis.host", SText ""); ("redis.port", SInt 6379); ("redis.password", SText "");
   ("redis.tls_enabled", SBool false);
   ("log_level", SText "info")].

(** The [BindEnv] calls. *)
Definition bound : list string :=
  ["server.port"; "server.http_port"; "server.cors_origins";
   "db.host"; "db.port"; "db.user"; "db.password"; "db.name"; "db.sslmode";
   "queue.visibility_timeout"; "queue.max_retries"; "queue.message_ttl"; "queue.dlq_threshold";
   "queue.require_topic_registration"; "queue.delete_reaper_schedule";
   "auth.enabled"; "auth.username"; "auth.password"; "auth.jwt_secret";
   "redis.host"; "redis.port"; "redis.password"; "redis.tls_enabled";
   "log_level"].

(** One field of [Unmarshal]: a key without a value leaves the zero value. *)
Definition field {A} (conv : Setting → option A) (zero : A) (key : string) : option A :=
  match Get defaults bound key with None => Some zero | Some v => conv v end.

Definition Unmarshal_config : option Config :=
  port ← field to_int 0 "server.port";
  http ← field to_int 0 "server.http_port";
  cors ← field to_text "" "server.cors_origins";
  host ← field to_text "" "db.host";
  dbport ← field to_int 0 "db.port";
  user ← field to_text "" "db.user";
  password ← field to_text "" "db.password";
  name ← field to_text "" "db.name";
  sslmode ← field to_text "" "db.sslmode";
  visibility ← field to_duration 0 "queue.visibility_timeout";
  retries ← field to_int 0 "queue.max_retries";
  ttl ← field to_duration 0 "queue.message_ttl";
  threshold ← field to_int 0 "queue.dlq_threshold";
  registration ← field to_bool false "queue.require_topic_registration";
  schedule ← field to_text "" "queue.delete_reaper_schedule";
  enabled ← field to_bool false "auth.enabled";
  username ← field to_text "" "auth.username";
  auth_password ← field to_text "" "auth.password";
  secret ← field to_text "" "auth.jwt_secret";
  redis_host ← field to_text "" "redis.host";
  redis_port ← field to_int 0 "redis.port";
  redis_password ← field to_text "" "redis.password";
  tls ← field to_bool false "redis.tls_enabled";
  level ← field to_text "" "log_level";
  Some (mkConfig (mkServerConfig port http cors)
          (mkDBConfig host dbport user password name sslmode)
          (mkQueueConfig visibility retries ttl threshold registration schedule)
          (mkAuthSettings username auth_password (mkAuthConfig enabled secret))
          (mkRedisConfig redis_host redis_port redis_password tls) level).

(** [None] is the error [main] exits on.  A missing file is none. *)
Definition Load : option Config :=
  match config_file with BrokenFile => None | _ => Unmarshal_config end.

(** ** Defaults and the environment *)

(** What the server runs with when nothing is configured. *)
Definition default_config : Config :=
  mkConfig (mkServerConfig 50051 8080 "*")
    (mkDBConfig "localhost" 5432 "postgres" "postgres" "queueti" "require")
    (mkQueueConfig (30 * Second) 3 (24 * 3600 * Second) 3 false "")
    (mkAuthSettings "" "" (mkAuthConfig false "")) (mkRedisConfig "" 6379 "" false) "info".

Context `{VL : !ViperLaws}.

Lemma keys_distinct : NoDup defaults.*1.
Proof. apply (bool_decide_unpack _). by vm_compute. Qed.

(** A variable overrides every setting that has a default, and nothing else does while
    it is set. *)
Lemma environment_wins {A} (conv : Setting → option A) zero k v :
  k ∈ defaults.*1 → environment (env_name k) = Some v → v ≠ "" →
  field conv zero k = conv (SText v).
Proof.
  intros Hk Hv Hne. unfold field. by rewrite (Get_environment _ _ k v).
Qed.

Lemma field_default {A} (conv : Setting → option A) zero k v :
  environment (env_name k) = None →
  match config_file with File m => m !! k = None | _ => True end →
  (k, v) ∈ defaults → field conv zero k = conv v.
Proof.
  intros He Hf Hk. unfold field. by rewrite (Get_default _ _ k v He Hf keys_distinct Hk).
Qed.
End load.

(** Configuration: every setting with a default can be set by its QUEUETI_ variable,
    which then wins over the file; a file that cannot be parsed is an error and a missing
    one is not; and with neither, the server gets the documented defaults - no
    authentication, three retries and a dead-letter threshold of three. *)
Theorem load_precedence `{VI : Viper} `{VL : !ViperLaws} :
  defaults.*1 = bound ∧
  (∀ k v, k ∈ bound → environment (env_name k) = Some v → v ≠ "" →
     Get defaults bound k = Some (SText v)) ∧
  (config_file = BrokenFile → Load = None) ∧
  ((∀ k, k ∈ bound → environment (env_name k) = None) → config_file = NoFile →
     Load = Some default_config).
Proof.
  split_and!; [done|intros k v; apply Get_environment|by unfold Load; intros ->|].
  intros He Hf. unfold Load. rewrite Hf. unfold Unmarshal_config.
  repeat match goal with |- context [field ?conv ?zero ?k] =>
    erewrite (field_default conv zero k);
      [|by apply He, (bool_decide_unpack _); vm_compute|by rewrite Hf
       |by repeat (first [left|right])]
  end.
  rewrite !to_int_int, !to_bool_bool, !to_text_text, to_duration_seconds, to_duration_hours.
  done.
Qed.

(** ** Connection strings

    [fmt.Sprintf] with [%s] and [%d]: nothing is escaped. *)

Definition dsn (user password host : string) (port : Z) (name sslmode : string) : string :=
  "postgres://" +:+ user +:+ ":" +:+ password +:+ "@" +:+ host +:+ ":" +:+ FormatInt port +:+
  "/" +:+ name +:+ "?sslmode=" +:+ sslmode.

Definition Connect_dsn (cfg : DBConfig) : string :=
  dsn (db_User cfg) (db_Password cfg) (db_Host cfg) (db_Port cfg) (db_Name cfg) (SSLMode cfg).

(** [cfg] is what [pgx] parsed from the first string. *)
Definition Migrate_dsn (cfg : DBConfig) : string :=
  dsn (db_User cfg) (db_Password cfg) (db_Host cfg) (db_Port cfg) (db_Name cfg) "disable".

Lemma string_app_inj (p s s' : string) : p +:+ s = p +:+ s' → s = s'.
Proof. induction p as [|c p IH]; simpl; [done|]. intros [= H]. by apply IH. Qed.

(** The migrations connect as the service does only when TLS is off: with the default
    ["require"] they go over a connection without TLS. *)
Lemma migrations_drop_tls cfg : Migrate_dsn cfg = Connect_dsn cfg ↔ SSLMode cfg = "disable".
Proof.
  unfold Migrate_dsn, Connect_dsn, dsn. split; [|by intros ->].
  intros H. repeat apply string_app_inj in H. done.
Qed.

(** Different settings, the same string. *)
Lemma dsn_ambiguous :
  let a := mkDBConfig "h" 5432 "u" "p@x" "n" "require" in
  let b := mkDBConfig "x@h" 5432 "u" "p" "n" "require" in
  a ≠ b ∧ Connect_dsn a = Connect_dsn b.
Proof. by split. Qed.
