(* ===== verification/Boot.v ===== *)
(** * Start-up

    [backend/cmd/server/main.go]: from the configuration to a process that serves, and the
    exits on the way.  What the process finds outside - whether PostgreSQL and Redis answer,
    whether the migrations apply and the port is free - is a [Host]. *)

From S2P Require Import Prelude.
From S2P Require Import Store.
From S2P Require Import Avro.
From S2P Require Import Text.
From S2P Require Import Runtime.
From S2P Require Import Model.
From S2P Require Import TopicConfig.
From S2P Require Import Throttle.
From S2P Require Import Schema.
From S2P Require Import Dequeue.
From S2P Require Import Enqueue.
From S2P Require Import Reaper.
From S2P Require Import Replay.
From S2P Require Import Query.
From S2P Require Import System.
From S2P Require Import Caches.
From S2P Require Import Users.
From S2P Require Import Grpc.
From S2P Require Import Http.
From S2P Require Import Handlers.
From S2P Require Import Routes.
From S2P Require Import Config.

(** ** [slog.Level.UnmarshalText] *)

(** The name and the offset, [s] split at its first sign. *)
Fixpoint split_sign (s : string) : string * string :=
  match s with
  | EmptyString => (EmptyString, EmptyString)
  | String c s' =>
      if bool_decide (c = "+"%char) || bool_decide (c = "-"%char) then (EmptyString, s)
      else let '(name, offset) := split_sign s' in (String c name, offset)
  end.
Fixpoint ToUpper (s : string) : string :=
  match s with EmptyString => EmptyString | String c s' => String (upper c) (ToUpper s') end.

Definition UnmarshalText (s : string) : option Z :=
  let '(name, offset) := split_sign s in
  n ← (if bool_decide (offset = "") then Some 0 else parse_int64 offset);
  let u := ToUpper name in
  if bool_decide (u = "DEBUG") then Some (-4 + n)
  else if bool_decide (u = "INFO") then Some n
  else if bool_decide (u = "WARN") then Some (4 + n)
  else if bool_decide (u = "ERROR") then Some (8 + n)
  else None.

(** ** The database

    [Connect] and [Migrate] of [internal/db/postgres.go]. *)

(** [m.Up()]; nothing to do is [migrate.ErrNoChange]. *)
Inductive Up := up_applied | up_no_change | up_failed.

(** What the libraries make of a connection string: [pgxpool.New], with the settings that
    [pool.Config()] has parsed from it, [pool.Ping], [iofs.New] of the embedded migrations,
    [migrate.NewWithSourceInstance] and [m.Up]. *)
Record Database := mkDatabase {
  pgxpool_New : string → option DBConfig;
  pool_Ping : string → bool;
  iofs_New : bool;
  NewWithSourceInstance : string → bool;
  m_Up : string → Up;
}.

Inductive DbError :=
| unable_to_connect
| unable_to_ping
| failed_to_open_source
| failed_to_create_instance
| failed_to_run_migrations.

Definition Connect (d : Database) (cfg : DBConfig) : result DbError DBConfig :=
  match pgxpool_New d (Connect_dsn cfg) with
  | None => Err unable_to_connect
  | Some pool => if pool_Ping d (Connect_dsn cfg) then Ok pool else Err unable_to_ping
  end.

Definition Migrate (d : Database) (pool : DBConfig) : result DbError unit :=
  if negb (iofs_New d) then Err failed_to_open_source
  else if negb (NewWithSourceInstance d (Migrate_dsn pool)) then Err failed_to_create_instance
  else match m_Up d (Migrate_dsn pool) with
       | up_failed => Err failed_to_run_migrations
       | up_applied | up_no_change => Ok tt
       end.

(** ** [main] *)

(** The exits before the servers run. *)
Inductive Fatal :=
| failed_to_load_config
| invalid_log_level
| failed_to_connect
| failed_to_migrate
| jwt_secret_not_set
| jwt_secret_too_short
| failed_to_seed (x : Error)
| failed_to_start_delete_reaper
| redis_ping_failed
| failed_to_listen.

Inductive Broadcaster := broadcast_PG | broadcast_Redis.

Section boot.
Context `{PG : Postgres} `{ST : Storage} `{CO : Codecs} `{JW : JWT} `{BC : Bcrypt}.
Context `{FI : Fiber} `{LA : Layouts}.

Record Host := mkHost {
  host_database : Database;
  (* the randomness of [bcrypt] and the cron parser *)
  host_salt : string;
  host_cron_valid : string → bool;
  (* the Redis server, [None] when the ping fails *)
  host_redis : option storage;
  grpc_port_free : bool;
}.

(** A process that serves. *)
Record Process := mkProcess {
  proc_server : HTTPServer;
  proc_cron : Cron;
  proc_broadcaster : Broadcaster;
  (* the login limiter counts in Redis, not in memory *)
  proc_shared_limiter : bool;
}.

(** A new process: no caches, no events, only the tables. *)
Definition new_process (w : World) : World :=
  mkWorld (w_db w) (w_tx w) ∅ ∅ None [] [] (w_faults w).

Definition exit (f : Fatal) : M (result Fatal Process) := mret (Err f).

(** [if cfg.Auth.Enabled { ... }] *)
Definition secure (auth : AuthSettings) (h : Host) : M (result Fatal unit) :=
  if negb (Enabled (auth_Config auth)) then mret (Ok tt)
  else if bool_decide (JWTSecret (auth_Config auth) = "") then mret (Err jwt_secret_not_set)
  else if (String.length (JWTSecret (auth_Config auth)) <? 32)%nat
       then mret (Err jwt_secret_too_short)
  else
    r ← try (SeedAdminUser (host_salt h) (auth_Username auth) (auth_Password auth));
    mret (match r with Ok _ => Ok tt | Err x => Err (failed_to_seed x) end).

(** [queue.NewService(...)] with the configured settings. *)
Definition NewService (q : QueueConfig) : Service :=
  mkService (VisibilityTimeout q) (cfg_MaxRetries q) (MessageTTL q) (DLQThreshold q)
    (RequireTopicRegistration q).

(** The selection of broadcaster, cache and rate-limit store. *)
Definition select_redis (cfg : RedisConfig) (h : Host) : M (result Fatal (Broadcaster * bool)) :=
  if bool_decide (redis_Host cfg = "") then mret (Ok (broadcast_PG, false))
  else match host_redis h with
       | None => mret (Err redis_ping_failed)
       | Some st => modify (set_cache (Some st));; mret (Ok (broadcast_Redis, true))
       end.

Definition main (version : string) (loaded : option Config) (h : Host)
    : M (result Fatal Process) :=
  modify new_process;;
  match loaded with
  | None => exit failed_to_load_config
  | Some cfg =>
    match UnmarshalText (LogLevel cfg) with
    | None => exit invalid_log_level
    | Some _ =>
      match Connect (host_database h) (cfg_DB cfg) with
      | Err _ => exit failed_to_connect
      | Ok pool =>
      match Migrate (host_database h) pool with
      | Err _ => exit failed_to_migrate
      | Ok _ =>
        secured ← secure (cfg_Auth cfg) h;
        match secured with
        | Err f => exit f
        | Ok _ =>
          let s := NewService (cfg_Queue cfg) in
          reaperSchedule ← boot_schedule (DeleteReaperSchedule (cfg_Queue cfg));
          match StartDeleteReaper (host_cron_valid h) reaperSchedule (mkCron [] None) with
          | (Err _, _) => exit failed_to_start_delete_reaper
          | (Ok _, cron) =>
            selected ← select_redis (cfg_Redis cfg) h;
            match selected with
            | Err f => exit f
            | Ok (b, shared) =>
              if negb (grpc_port_free h) then exit failed_to_listen
              else mret (Ok (mkProcess
                     (mkHTTPServer s (auth_Config (cfg_Auth cfg)) version (host_salt h)
                        (host_cron_valid h)) cron b shared))
            end
          end
        end
      end
      end
    end
  end.

(** ** What has happened when it serves *)

Context `{PLAWS : !PostgresLaws} `{SLAWS : !StorageLaws}.

(** What seeding does on a store without users. *)
Definition first_user (salt name p : string) (e : Env) (db : DB) : DB :=
  match GenerateFromPassword salt p with
  | Some hash => set_users {[new_uuid e 0 := mkUserRow name hash true (pg_now e) (pg_now e)]} db
  | None => db
  end.

Lemma SeedAdminUser_run salt name p e w :
  w_faults w = [] →
  SeedAdminUser salt name p e w =
    if decide (users (w_db w) ≠ ∅ ∨ name = "" ∨ p = "") then (Ok tt, w)
    else match GenerateFromPassword salt p with
         | None => (Err ErrHashPassword, w)
         | Some _ => (Ok tt, set_db (first_user salt name p e (w_db w)) w)
         end.
Proof.
  intros Hf. unfold SeedAdminUser, ListUsers, first_user.
  rewrite run_bind, pool_query_quiet by done.
  destruct (_ <$> order_by_text _ _) as [|u us] eqn:Hl.
  - apply fmap_nil_inv, (f_equal length) in Hl.
    rewrite order_by_text_perm, length_map_to_list in Hl. apply map_size_empty_inv in Hl.
    destruct (bool_decide (name = "") || bool_decide (p = "")) eqn:Hb.
    { apply orb_true_iff in Hb as Hb. rewrite !bool_decide_eq_true in Hb.
      by rewrite decide_True by (right; exact Hb). }
    apply orb_false_iff in Hb as Hb. rewrite !bool_decide_eq_false in Hb.
    rewrite decide_False by tauto. unfold Create.
    destruct (GenerateFromPassword salt p) as [hash|]; [|done].
    unfold or_duplicate. rewrite run_bind, run_try, run_bind, run_try, pool_stmt_calm by done.
    unfold sql_insert_user. case_decide as Hd.
    + rewrite Hl. done.
    + destruct Hd. rewrite Hl. split; [apply lookup_empty|apply map_Forall_empty].
  - rewrite decide_True; [done|]. left. intros He.
    apply (f_equal length) in Hl. rewrite length_fmap, order_by_text_perm, He in Hl.
    by rewrite map_to_list_empty in Hl.
Qed.
(** The tables after [secure]. *)
Definition secured_tables (auth : AuthSettings) (h : Host) (e : Env) (db : DB) : DB :=
  if Enabled (auth_Config auth) then
    if decide (users db ≠ ∅ ∨ auth_Username auth = "" ∨ auth_Password auth = "") then db
    else first_user (host_salt h) (auth_Username auth) (auth_Password auth) e db
  else db.

Definition secret_ok (auth : AuthSettings) : Prop :=
  Enabled (auth_Config auth) = true → (32 ≤ String.length (JWTSecret (auth_Config auth)))%nat.

Lemma secure_run auth h e w r w' :
  w_faults w = [] → secure auth h e w = (Ok (Ok r), w') →
  secret_ok auth ∧ w' = set_db (secured_tables auth h e (w_db w)) w ∧
  (Enabled (auth_Config auth) = true →
     users (w_db w) = ∅ → auth_Username auth ≠ "" → auth_Password auth ≠ "" →
     is_Some (GenerateFromPassword (host_salt h) (auth_Password auth))).
Proof.
  intros Hf. unfold secure, secret_ok, secured_tables.
  destruct (Enabled (auth_Config auth)); simpl.
  2: { intros [= _ <-]. split; [done|]. split; [by destruct w|done]. }
  case_bool_decide as Hne; [done|]. destruct (_ <? 32)%nat eqn:Hlen; [done|].
  apply Nat.ltb_ge in Hlen. rewrite run_bind, run_try, SeedAdminUser_run by done.
  case_decide as Hd.
  - simpl. intros [= _ <-]. split; [done|]. split; [by destruct w|].
    intros _ He Hn Hp. destruct Hd as [?|[?|?]]; done.
  - destruct (GenerateFromPassword _ _) eqn:Hh; simpl; [|done]. intros [= _ <-].
    split; [done|]. split; [done|]. by eexists.
Qed.

Lemma boot_schedule_run configured e w :
  w_faults w = [] →
  boot_schedule configured e w =
    (Ok (let stored := default "" (system_settings (w_db w) !! delete_reaper_schedule) in
         if bool_decide (stored = "") then configured else stored), w).
Proof.
  intros Hf. unfold boot_schedule, GetDeleteReaperSchedule.
  by rewrite run_bind, run_try, pool_query_quiet.
Qed.

(** The cache a configuration selects. *)
Definition selected_cache (cfg : RedisConfig) (h : Host) : option storage :=
  if bool_decide (redis_Host cfg = "") then None else host_redis h.

Lemma main_serves version loaded h e w p w' :
  w_faults w = [] → main version loaded h e w = (Ok (Ok p), w') →
  ∃ cfg cron, loaded = Some cfg ∧ is_Some (UnmarshalText (LogLevel cfg)) ∧
    (∃ pool, Connect (host_database h) (cfg_DB cfg) = Ok pool ∧
       Migrate (host_database h) pool = Ok tt) ∧
    secret_ok (cfg_Auth cfg) ∧
    (Enabled (auth_Config (cfg_Auth cfg)) = true →
       users (w_db w) = ∅ → auth_Username (cfg_Auth cfg) ≠ "" → auth_Password (cfg_Auth cfg) ≠ "" →
       is_Some (GenerateFromPassword (host_salt h) (auth_Password (cfg_Auth cfg)))) ∧
    (let db := secured_tables (cfg_Auth cfg) h e (w_db w) in
     let stored := default "" (system_settings db !! delete_reaper_schedule) in
     StartDeleteReaper (host_cron_valid h)
       (if bool_decide (stored = "") then DeleteReaperSchedule (cfg_Queue cfg) else stored)
       (mkCron [] None) = (Ok tt, cron) ∧
     w' = set_cache (selected_cache (cfg_Redis cfg) h) (new_process (set_db db w))) ∧
    (redis_Host (cfg_Redis cfg) ≠ "" → is_Some (host_redis h)) ∧
    p = mkProcess (mkHTTPServer (NewService (cfg_Queue cfg)) (auth_Config (cfg_Auth cfg)) version
                     (host_salt h) (host_cron_valid h)) cron
          (if bool_decide (redis_Host (cfg_Redis cfg) = "") then broadcast_PG else broadcast_Redis)
          (bool_decide (redis_Host (cfg_Redis cfg) ≠ "")).
Proof.
  intros Hf. unfold main, exit. rewrite run_modify.
  destruct loaded as [cfg|]; [|done]. destruct (UnmarshalText (LogLevel cfg)) eqn:Hlevel; [|done].
  destruct (Connect (host_database h) (cfg_DB cfg)) as [pool|] eqn:Hconn; [|done].
  destruct (Migrate (host_database h) pool) as [[]|] eqn:Hmig; [|done]. rewrite run_bind.
  destruct (secure (cfg_Auth cfg) h e (new_process w)) as [[[r|f]|x] w1] eqn:Hsec; [|done..].
  apply secure_run in Hsec as (Hsecret & -> & Hhash); [|done].
  rewrite run_bind, boot_schedule_run by done. cbv zeta.
  destruct (StartDeleteReaper _ _ _) as [[[]|x] cron] eqn:Hcron; [|done].
  rewrite run_bind. unfold select_redis.
  unfold selected_cache. destruct (decide (redis_Host (cfg_Redis cfg) = "")) as [Hhost|Hhost].
  - rewrite !(bool_decide_true (redis_Host (cfg_Redis cfg) = "") Hhost).
    destruct (grpc_port_free h); [|done]. intros [= <- <-]. exists cfg, cron.
    rewrite ?(bool_decide_true (redis_Host (cfg_Redis cfg) = "") Hhost).
    rewrite (bool_decide_false (redis_Host (cfg_Redis cfg) ≠ "")) by (intros Hn; by apply Hn). split_and!; try done; by exists pool.
  - rewrite !(bool_decide_false (redis_Host (cfg_Redis cfg) = "") Hhost).
    destruct (host_redis h) as [st|] eqn:Hst; [|done].
    destruct (grpc_port_free h); [|done]. intros [= <- <-]. exists cfg, cron.
    rewrite ?(bool_decide_false (redis_Host (cfg_Redis cfg) = "") Hhost), ?Hst.
    rewrite (bool_decide_true (redis_Host (cfg_Redis cfg) ≠ "")) by done. split_and!; try done; by exists pool.
Qed.
(** What is left in Redis by earlier processes describes the tables. *)
Definition redis_in_step (h : Host) (w : World) : Prop :=
  caches_ok (set_cache (host_redis h) (new_process w)).

Lemma secured_tables_users auth h e db :
  ∃ us, secured_tables auth h e db = set_users us db.
Proof.
  unfold secured_tables, first_user. destruct (Enabled _); [|exists (users db); by destruct db].
  case_decide; [exists (users db); by destruct db|].
  case_match; [by eexists|exists (users db); by destruct db].
Qed.

Lemma caches_ok_no_redis w :
  w_topicConfigCache w = ∅ → w_schemaCache w = ∅ → w_cache w = None → caches_ok w.
Proof.
  intros H1 H2 H3. split; split; intros *; rewrite ?H1, ?H2, ?H3, ?lookup_empty; done.
Qed.

Lemma started_in_step cfg h db w :
  redis_in_step h w → w_faults w = [] → config_tables (w_db w) db →
  in_step (set_cache (selected_cache cfg h) (new_process (set_db db w))).
Proof.
  intros Hr Hf Ht. split; [|exact Hf]. unfold selected_cache.
  case_bool_decide; [by apply caches_ok_no_redis|].
  by apply (caches_ok_tables (set_cache (host_redis h) (new_process w))).
Qed.

(** [C22] A process that serves has got past every check of [main]: its database was
    reached and its migrations are applied.  It has changed nothing
    but the user table, runs the stored reaper schedule, or the configured one when none is
    stored, and no other; its service has the configured settings; its caches are right,
    and stay right under all later calls as long as no round trip fails.  With
    authentication on, its secret has at least 32 bytes and a call without a token gets
    Unauthenticated; with it off, every route runs its handler for anyone. *)
Theorem startup_state version loaded h e w p w' :
  w_faults w = [] → redis_in_step h w → main version loaded h e w = (Ok (Ok p), w') →
  let srv := proc_server p in
  let schedule :=
    let stored := default "" (system_settings (w_db w) !! delete_reaper_schedule) in
    if bool_decide (stored = "")
    then default "" (DeleteReaperSchedule ∘ cfg_Queue <$> loaded) else stored in
  (∃ cfg pool, loaded = Some cfg ∧ Connect (host_database h) (cfg_DB cfg) = Ok pool ∧
     Migrate (host_database h) pool = Ok tt) ∧
  (∃ us, w_db w' = set_users us (w_db w)) ∧
  (schedule = "" ∨ host_cron_valid h schedule = true) ∧ cron_ok (proc_cron p) ∧
  running (proc_cron p) = (if bool_decide (schedule = "") then [] else [schedule]) ∧
  Some (queueService srv) = NewService ∘ cfg_Queue <$> loaded ∧
  (∀ calls, caches_ok (run_calls (queueService srv) calls w')) ∧
  (if Enabled (authConfig srv)
   then (32 ≤ String.length (JWTSecret (authConfig srv)))%nat ∧
        ∀ md now, md = None ∨ md = Some [] → UnaryInterceptor (authConfig srv) md now =
          Err Unauthenticated
   else ∀ r c cron e2 w2, r ≠ POST_login →
        NewHTTPServer srv r c cron e2 w2 = handler srv r c cron None e2 w2).
Proof.
  intros Hf Hr Hmain. apply main_serves in Hmain
    as (cfg & cron & -> & _ & Hdb & Hsecret & _ & [Hcron ->] & _ & ->); [|done].
  destruct (secured_tables_users (cfg_Auth cfg) h e (w_db w)) as [us Hus].
  rewrite Hus in Hcron |- *. simpl in Hcron |- *. split_and!.
  - destruct Hdb as (pool & ? & ?). by exists cfg, pool.
  - by exists us.
  - revert Hcron. unfold StartDeleteReaper. case_bool_decide as Hs; [by left|].
    destruct (host_cron_valid h _) eqn:Hv; [|done]. by right.
  - revert Hcron. unfold StartDeleteReaper, cron_ok. case_bool_decide as Hs; [by intros [= <-]|].
    destruct (host_cron_valid h _); [|done]. by intros [= <-].
  - revert Hcron. unfold StartDeleteReaper. case_bool_decide as Hs; [by intros [= <-]|].
    destruct (host_cron_valid h _); [|done]. by intros [= <-].
  - done.
  - intros calls. refine (proj1 (run_calls_in_step _ calls _ (started_in_step _ _ _ _ _ _ _))); done.
  - destruct (Enabled _) eqn:He.
    + split; [by apply Hsecret|]. unfold UnaryInterceptor. rewrite He. by intros md now [-> | ->].
    + intros r c cr e2 w2 Hlogin. unfold NewHTTPServer.
      assert (guards (mkHTTPServer (NewService (cfg_Queue cfg)) (auth_Config (cfg_Auth cfg))
        version (host_salt h) (host_cron_valid h)) r c None e2 w2 = (Ok (Ok None), w2)) as Hg.
      { destruct r; try done; unfold guards, chain, jwtAuth, requireAdmin, requireGrant,
          requireDequeueGrant, requireDequeueOnMsgTopic, requireWriteOnMsgTopic,
          checkAuthAndAdmin; simpl; by rewrite He. }
      by rewrite run_bind, Hg.
Qed.

Context `{BLAWS : !BcryptLaws} `{JLAWS : !JWTLaws}.

(** The first administrator can get in.  A process that starts with authentication on,
    credentials configured and no user in the table answers a login with these credentials
    with a token - whoever serves the table in the meantime, as long as nobody changes it -
    and with that token, until it expires fifteen minutes after the login, cut to the second,
    every protected route runs its handler. *)
Theorem first_boot_login version cfg h e w p w' c2 e2 w2 token c3 e3 :
  w_faults w = [] → Enabled (auth_Config (cfg_Auth cfg)) = true → users (w_db w) = ∅ →
  auth_Username (cfg_Auth cfg) ≠ "" → auth_Password (cfg_Auth cfg) ≠ "" →
  main version (Some cfg) h e w = (Ok (Ok p), w') →
  BodyParser to_login c2 =
    (mkLoginRequest (auth_Username (cfg_Auth cfg)) (auth_Password (cfg_Auth cfg)), true) →
  limit_reached c2 = false → users (w_db w2) = users (w_db w') → w_faults w2 = [] →
  IssueToken (JWTSecret (auth_Config (cfg_Auth cfg))) (new_uuid e 0)
    (auth_Username (cfg_Auth cfg)) true (go_now e2) = Some token →
  c_Get c3 "Authorization" = "Bearer " +:+ token →
  ValidString (new_uuid e 0) = true → ValidString (auth_Username (cfg_Auth cfg)) = true →
  let exp := NewNumericDate (go_now e2 + TokenDuration) in
  go_now e3 < exp →
  let srv := proc_server p in
  NewHTTPServer srv POST_login c2 (proc_cron p) e2 w2 =
    (Ok (mkResponse StatusOK (json_token token), proc_cron p), w2) ∧
  ∃ claims, UserID claims = new_uuid e 0 ∧ claims_IsAdmin claims = true ∧
    ∀ r cron w3, public r = false →
      NewHTTPServer srv r c3 cron e3 w3 = handler srv r c3 cron (Some claims) e3 w3.
Proof.
  intros Hf He Hnone Hname Hpw Hmain Hbody Hlim Hus Hf2 Htok Hc3 Hid Huser exp Hlt srv.
  apply main_serves in Hmain
    as (cfg' & cron & [= <-] & _ & _ & _ & Hhash & [_ ->] & _ & ->); [|done].
  destruct (Hhash He Hnone Hname Hpw) as [hash Hh].
  simpl in Hus. unfold secured_tables, first_user in Hus.
  rewrite He, decide_False, Hh in Hus by (intros [?|[?|?]]; done). simpl in Hus.
  assert (user_named (auth_Username (cfg_Auth cfg)) (w_db w2) = Some (new_uuid e 0,
    mkUserRow (auth_Username (cfg_Auth cfg)) hash true (pg_now e) (pg_now e))) as Hn.
  { unfold user_named. rewrite Hus, map_filter_singleton_True, map_to_list_singleton; done. }
  split.
  - unfold NewHTTPServer, guards, loginLimiter. rewrite run_bind, Hlim. simpl.
    unfold keep, handleLogin. rewrite Hbody. simpl.
    rewrite (bool_decide_false _ Hname), (bool_decide_false _ Hpw). simpl.
    unfold GetByUsername. rewrite run_bind, run_bind, run_try, run_bind, pool_query_quiet by done.
    rewrite Hn. simpl. rewrite (generated_compares _ _ _ Hh). simpl.
    unfold issue_token_for. rewrite run_ask. simpl. by rewrite Htok.
  - exists (mkClaims (new_uuid e 0) (auth_Username (cfg_Auth cfg)) true (Some exp)).
    split_and!; [done..|]. intros r cr w3 Hr. apply admin_run; try done.
    rewrite (bearer_token _ c3 token) by done. unfold srv. cbn [proc_server authConfig].
    destruct (token_lifetime _ _ _ _ _ _ (go_now e3) Hid Huser Htok) as [-> _].
    apply Z.ltb_lt in Hlt. unfold exp in *. by rewrite Hlt.
Qed.
End boot.
