(* ===== verification/Shutdown.v ===== *)
(** * Shutting down

    The end of [backend/cmd/server/main.go]: from the signal over [cancel], the shutdown of
    the HTTP server and [GracefulStop] to the deferred calls, beside the requests, the
    streams and the goroutines that [Boot] and the servers have started.  When fiber's
    [Shutdown], [GracefulStop] and [pool.Close] return is a class, [Graceful]; its laws say
    only what is documented of them. *)

From S2P Require Import Prelude.
From S2P Require Import Store.
From S2P Require Import Avro.
From S2P Require Import Runtime.
From S2P Require Import TopicConfig.
From S2P Require Import Throttle.
From S2P Require Import Schema.
From S2P Require Import Dequeue.
From S2P Require Import Enqueue.
From S2P Require Import Reaper.
From S2P Require Import Replay.
From S2P Require Import Query.
From S2P Require Import System.
From S2P Require Import Users.
From S2P Require Import Grpc.
From S2P Require Import Http.
From S2P Require Import Handlers.
From S2P Require Import Routes.
From S2P Require Import Config.
From S2P Require Import Boot.

(** Where [main] is, from [<-quit] on; [returned] is the end of the process. *)
Inductive MainPhase :=
| waiting_for_signal
| cancelling
| shutting_http
| waiting_http
| stopping_grpc
| waiting_grpc
| stopping_reaper
| closing_pool
| returned.
#[export] Instance MainPhase_eq_dec : EqDecision MainPhase.
Proof. solve_decision. Defined.

(** The goroutines: the expiry reaper, two listeners of the service, the two subscriptions
    of its broadcaster that feed them, a run of the delete reaper's cron instance [k]. *)
Inductive Task :=
| expiry_reaper
| listen_schema
| listen_config
| subscription_schema
| subscription_config
| delete_job (k : nat).
#[export] Instance Task_eq_dec : EqDecision Task.
Proof. solve_decision. Defined.
#[export] Instance Task_countable : Countable Task.
Proof.
  refine (inj_countable'
    (λ t, match t with
          | expiry_reaper => inl 0%nat | listen_schema => inl 1%nat | listen_config => inl 2%nat
          | subscription_schema => inl 3%nat | subscription_config => inl 4%nat
          | delete_job k => inr k
          end)
    (λ c, match c with
          | inl 0 => expiry_reaper | inl 1 => listen_schema | inl 2 => listen_config
          | inl 3 => subscription_schema | inl _ => subscription_config
          | inr k => delete_job k
          end%nat) _).
  by intros [].
Defined.

(** A gRPC call: a unary one, or a stream in the loop of [Subscribe], whose client is there
    or has gone. *)
Inductive Rpc :=
| unary
| stream (req : SubscribeRequest) (vt backoff : Z) (connected : bool).

(** Whether fiber's [Shutdown] returns while these connections are open and these of them have
    a request, gRPC's [GracefulStop] while these calls are left, and [pool.Close] while these
    goroutines and requests have a connection of the pool. *)
Class Graceful := {
  Shutdown_returns : gset nat → gset nat → Prop;
  GracefulStop_returns : gset nat → Prop;
  Close_returns : gset (Task + nat) → Prop;
  Shutdown_returns_dec X Y :: Decision (Shutdown_returns X Y);
  GracefulStop_returns_dec X :: Decision (GracefulStop_returns X);
  Close_returns_dec X :: Decision (Close_returns X);
}.

(** [GracefulStop] blocks until all calls are finished, streams too. *)
Class GracefulStopWaits `{GR : Graceful} : Prop :=
  GracefulStop_waits X : GracefulStop_returns X → X = ∅.

(** None of them waits when nothing is open.  Whether [Shutdown] returns while a client keeps
    an idle connection open is left open: fiber documents that it does not close them, and
    the server sets no timeout after which they are closed. *)
Class GracefulReturns `{GR : Graceful} : Prop := {
  Shutdown_done : Shutdown_returns ∅ ∅;
  GracefulStop_done : GracefulStop_returns ∅;
  Close_done : Close_returns ∅;
}.

Section shutdown.
Context `{PG : Postgres} `{ST : Storage} `{CO : Codecs} `{GR : Graceful}.
Context (sv : Service).

(** [ctx_done] is the context that [main] cancels; [boot_cron] is the instance that
    [stopDeleteReaper] stops.  [http_conns] are the open connections of the HTTP server,
    [http_requests] those of them with a request under way; [holders] are the goroutines and
    the requests that have a connection of the pool. *)
Record Server := mkServer {
  at_ : MainPhase;
  ctx_done : bool;
  tasks : gset Task;
  holders : gset (Task + nat);
  boot_cron : option nat;
  cron_instances : gset nat;
  http_open : bool;
  http_conns : gset nat;
  http_requests : gset nat;
  grpc_open : bool;
  rpcs : gmap nat Rpc;
  world_of_server : World;
}.

Definition with_at (p : MainPhase) (s : Server) : Server :=
  mkServer p (ctx_done s) (tasks s) (holders s) (boot_cron s) (cron_instances s) (http_open s)
    (http_conns s) (http_requests s) (grpc_open s) (rpcs s) (world_of_server s).
Definition with_tasks (ts : gset Task) (hs : gset (Task + nat)) (w : World) (s : Server) : Server :=
  mkServer (at_ s) (ctx_done s) ts hs (boot_cron s) (cron_instances s) (http_open s)
    (http_conns s) (http_requests s) (grpc_open s) (rpcs s) w.
Definition with_requests (cs rs : gset nat) (hs : gset (Task + nat)) (w : World) (s : Server)
    : Server :=
  mkServer (at_ s) (ctx_done s) (tasks s) hs (boot_cron s) (cron_instances s) (http_open s)
    cs rs (grpc_open s) (rpcs s) w.
Definition with_rpcs (rs : gmap nat Rpc) (w : World) (s : Server) : Server :=
  mkServer (at_ s) (ctx_done s) (tasks s) (holders s) (boot_cron s) (cron_instances s)
    (http_open s) (http_conns s) (http_requests s) (grpc_open s) rs w.

(** A process that serves. *)
Definition serving (p : Process) (w : World) : Server :=
  let crons : gset nat := set_seq 0 (length (running (proc_cron p))) in
  mkServer waiting_for_signal false
    {[expiry_reaper; listen_schema; listen_config; subscription_schema; subscription_config]}
    ∅ (match running (proc_cron p) with [] => None | _ => Some 0%nat end) crons
    true ∅ ∅ true ∅ w.

(** The next statement of [main], and of its deferred calls; [None] if it waits. *)
Definition main_step (s : Server) : option Server :=
  match at_ s with
  | waiting_for_signal | returned => None
  | cancelling =>
      Some (mkServer shutting_http true (tasks s) (holders s) (boot_cron s) (cron_instances s)
              (http_open s) (http_conns s) (http_requests s) (grpc_open s) (rpcs s)
              (world_of_server s))
  | shutting_http =>
      Some (mkServer waiting_http (ctx_done s) (tasks s) (holders s) (boot_cron s)
              (cron_instances s) false (http_conns s) (http_requests s) (grpc_open s) (rpcs s)
              (world_of_server s))
  | waiting_http =>
      if decide (Shutdown_returns (http_conns s) (http_requests s))
      then Some (with_at stopping_grpc s) else None
  | stopping_grpc =>
      Some (mkServer waiting_grpc (ctx_done s) (tasks s) (holders s) (boot_cron s)
              (cron_instances s) (http_open s) (http_conns s) (http_requests s) false (rpcs s)
              (world_of_server s))
  | waiting_grpc =>
      if decide (GracefulStop_returns (dom (rpcs s))) then Some (with_at stopping_reaper s)
      else None
  | stopping_reaper =>
      Some (mkServer closing_pool (ctx_done s) (tasks s) (holders s) (boot_cron s)
              (match boot_cron s with
               | Some k => cron_instances s ∖ {[k]}
               | None => cron_instances s
               end)
              (http_open s) (http_conns s) (http_requests s) (grpc_open s) (rpcs s)
              (world_of_server s))
  | closing_pool =>
      if decide (Close_returns (holders s)) then Some (with_at returned s) else None
  end.

(** What happens: a statement of [main]; a signal; a connection, a request, a call, a job of
    the cron or the use of a connection of the pool begins; one ends; stream [n] polls; its
    client goes away; its handler returns. *)
Inductive Event :=
| ev_main
| ev_signal
| ev_begins
| ev_ends
| ev_polls (n : nat)
| ev_leaves (n : nat)
| ev_returns (n : nat).

(** A poll of a stream whose client is there. *)
Definition connected_tick : StreamTick := mkStreamTick false false false true.
Definition gone_tick : StreamTick := mkStreamTick true true true false.

(** A call whose round trips end as [fs] says, because its context may be cancelled. *)
Definition run_under (fs : list outcome) (c : call) (e : Env) (w : World) : World :=
  set_faults (w_faults w) (run_call sv c e (set_faults fs w)).2.

Inductive server_event : Event → Server → Server → Prop :=
| at_main s s' : main_step s = Some s' → server_event ev_main s s'
(* [signal.Notify] delivers later signals to the channel, which nobody reads again *)
| at_signal s :
    server_event ev_signal s
      (if decide (at_ s = waiting_for_signal) then with_at cancelling s else s)
| at_connection s i : http_open s = true → i ∉ http_conns s →
    server_event ev_begins s
      (with_requests ({[i]} ∪ http_conns s) (http_requests s) (holders s) (world_of_server s) s)
| at_request s i : i ∈ http_conns s → i ∉ http_requests s →
    server_event ev_begins s
      (with_requests (http_conns s) ({[i]} ∪ http_requests s) (holders s) (world_of_server s) s)
(* from [Close] on the pool gives out no more connections *)
| at_task_acquires s t : t ∈ tasks s → at_ s ≠ closing_pool →
    server_event ev_begins s
      (with_tasks (tasks s) ({[inl t]} ∪ holders s) (world_of_server s) s)
| at_request_acquires s i : i ∈ http_requests s → at_ s ≠ closing_pool →
    server_event ev_begins s
      (with_requests (http_conns s) (http_requests s) ({[inr i]} ∪ holders s) (world_of_server s) s)
| at_unary s n : grpc_open s = true → rpcs s !! n = None →
    server_event ev_begins s (with_rpcs (<[n:=unary]> (rpcs s)) (world_of_server s) s)
| at_subscribe s n c req vt e w : grpc_open s = true → rpcs s !! n = None →
    sub_Topic req ≠ "" →
    resolveVisibilityTimeoutFromProto (sub_VisibilityTimeoutSeconds req) = Ok vt →
    checkDequeueGrant c (sub_Topic req) (sub_ConsumerGroup req) e (world_of_server s) =
      (Ok (Ok tt), w) →
    server_event ev_begins s (with_rpcs (<[n:=stream req vt minBackoff true]> (rpcs s)) w s)
| at_job s k : k ∈ cron_instances s → delete_job k ∉ tasks s →
    server_event ev_begins s (with_tasks ({[delete_job k]} ∪ tasks s) (holders s) (world_of_server s) s)
(* [Shutdown] cancels the contexts of the requests under way *)
| at_request_ends s i fs c e : i ∈ http_requests s →
    server_event ev_ends s
      (with_requests (http_conns s) (http_requests s ∖ {[i]}) (holders s ∖ {[inr i]})
         (run_under fs c e (world_of_server s)) s)
| at_disconnection s i : i ∈ http_conns s → i ∉ http_requests s →
    server_event ev_ends s
      (with_requests (http_conns s ∖ {[i]}) (http_requests s) (holders s) (world_of_server s) s)
| at_release s h : h ∈ holders s →
    server_event ev_ends s
      (with_tasks (tasks s) (holders s ∖ {[h]}) (world_of_server s) s)
| at_unary_ends s n c e : rpcs s !! n = Some unary →
    server_event ev_ends s
      (with_rpcs (delete n (rpcs s)) (run_call sv c e (world_of_server s)).2 s)
| at_job_ends s k fs acquired e : delete_job k ∈ tasks s →
    server_event ev_ends s
      (with_tasks (tasks s ∖ {[delete_job k]}) (holders s ∖ {[inl (delete_job k)]})
         (run_under fs (do_delete_tick acquired) e (world_of_server s)) s)
| at_task_ends s t : t ∈ tasks s → ctx_done s = true →
    server_event ev_ends s
      (with_tasks (tasks s ∖ {[t]}) (holders s ∖ {[inl t]}) (world_of_server s) s)
| at_polls s n req vt b e b' sent w :
    rpcs s !! n = Some (stream req vt b true) →
    subscribe_iteration sv req vt b connected_tick e (world_of_server s) =
      (Ok (continue_ b' sent), w) →
    server_event (ev_polls n) s (with_rpcs (<[n:=stream req vt b' true]> (rpcs s)) w s)
| at_poll_fails s n req vt b e r w :
    rpcs s !! n = Some (stream req vt b true) →
    subscribe_iteration sv req vt b connected_tick e (world_of_server s) = (r, w) →
    (∀ b' sent, r ≠ Ok (continue_ b' sent)) →
    server_event (ev_returns n) s (with_rpcs (delete n (rpcs s)) w s)
(* the client goes away during an iteration *)
| at_leaves s n req vt b t e r w :
    rpcs s !! n = Some (stream req vt b true) → done_before t = false →
    subscribe_iteration sv req vt b t e (world_of_server s) = (r, w) →
    server_event (ev_leaves n) s
      (with_rpcs (match r with
                  | Ok (continue_ b' _) => <[n:=stream req vt b' false]> (rpcs s)
                  | _ => delete n (rpcs s)
                  end) w s)
| at_gone s n req vt b e w :
    rpcs s !! n = Some (stream req vt b false) →
    subscribe_iteration sv req vt b gone_tick e (world_of_server s) = (Ok return_nil, w) →
    server_event (ev_returns n) s (with_rpcs (delete n (rpcs s)) w s).

(** Nothing happens once [main] has returned. *)
Definition server_step (l : Event) (s s' : Server) : Prop :=
  at_ s ≠ returned ∧ server_event l s s'.
Definition any_step (s s' : Server) : Prop := ∃ l, server_step l s s'.

(** The statements that are left. *)
Definition remaining (p : MainPhase) : nat :=
  match p with
  | waiting_for_signal => 8 | cancelling => 7 | shutting_http => 6 | waiting_http => 5
  | stopping_grpc => 4 | waiting_grpc => 3 | stopping_reaper => 2 | closing_pool => 1
  | returned => 0
  end.

Definition subscribed (s : Server) (n : nat) : Prop :=
  ∃ req vt b, rpcs s !! n = Some (stream req vt b true).

(** ** What holds in every state *)

Record server_ok (s : Server) : Prop := {
  sk_cancelled : (remaining (at_ s) ≤ 6)%nat → ctx_done s = true;
  sk_grpc_closed : (remaining (at_ s) ≤ 3)%nat → grpc_open s = false;
  sk_grpc_done : (remaining (at_ s) ≤ 2)%nat → rpcs s = ∅;
  sk_requests : http_requests s ⊆ http_conns s;
  sk_tasks t : inl t ∈ holders s → t ∈ tasks s;
  sk_holders i : inr i ∈ holders s → i ∈ http_requests s;
}.

Context `{WAITS : !GracefulStopWaits}.

Lemma serving_ok p w : server_ok (serving p w).
Proof. split; simpl; intros; try lia; set_solver. Qed.

Lemma main_step_ok s s' : server_ok s → main_step s = Some s' → server_ok s'.
Proof.
  intros [Hc Hg Hr Hq Ht Hh] Hstep. unfold main_step in Hstep.
  destruct (at_ s) eqn:Hat; simpl in *; try done; try case_decide as Hw; simplify_eq;
    (split; simpl; intros; try lia; try done; try (by auto with lia)).
  apply dom_empty_inv_L. by apply GracefulStop_waits.
Qed.

(** What happens beside [main] opens nothing of gRPC that is closed. *)
Lemma server_ok_beside s s' :
  server_ok s → at_ s ≠ returned → at_ s' = at_ s → ctx_done s' = ctx_done s →
  grpc_open s' = grpc_open s → (grpc_open s = false → rpcs s = ∅ → rpcs s' = ∅) →
  http_requests s' ⊆ http_conns s' → (∀ t, inl t ∈ holders s' → t ∈ tasks s') →
  (∀ i, inr i ∈ holders s' → i ∈ http_requests s') → server_ok s'.
Proof.
  intros [Hc Hg Hr Hq Ht Hh] Hne Hat Hctx Hgo Hrpc.
  split; rewrite ?Hat, ?Hctx, ?Hgo; auto; intros Hp; apply Hrpc; auto with lia.
Qed.

Lemma server_event_ok l s s' :
  server_ok s → at_ s ≠ returned → server_event l s s' → server_ok s'.
Proof.
  intros Hok Hne Hev. destruct Hev; [by eapply main_step_ok|..].
  { case_decide as Hat; [|done]. destruct Hok as [Hc Hg Hr Hq Ht Hh]. rewrite Hat in *.
    split; simpl; intros; try lia; auto. }
  all: pose proof Hok as [_ _ _ Hq Ht Hh].
  all: apply (server_ok_beside s); simpl; try done; try congruence.
  all: try (intros _ Hempty; rewrite Hempty in *; rewrite ?delete_empty; by simplify_map_eq).
  all: try set_solver.
Qed.

Lemma server_ok_run s s' : server_ok s → rtc any_step s s' → server_ok s'.
Proof.
  intros Hok Hrun. revert Hok. induction Hrun as [|s1 s2 s3 (l & Hne & Hev) _ IH]; [done|].
  intros Hok. apply IH. by eapply server_event_ok.
Qed.

Lemma reached_ok p w s : rtc any_step (serving p w) s → server_ok s.
Proof. apply server_ok_run, serving_ok. Qed.

(** ** Without subscribers *)

(** Nothing new begins, and no stream polls for a client that is there. *)
Definition winding_down (l : Event) : bool :=
  match l with ev_main | ev_ends | ev_returns _ => true | _ => false end.
Definition winding_step (s s' : Server) : Prop := ∃ l, winding_down l = true ∧ server_step l s s'.

Definition work (s : Server) : nat :=
  remaining (at_ s) + size (tasks s) + size (holders s) + size (http_conns s) +
  size (http_requests s) + size (rpcs s).

Lemma main_step_work s s' : main_step s = Some s' → S (work s') = work s.
Proof.
  unfold main_step, work. destruct (at_ s) eqn:Hat; try case_decide; intros; simplify_eq; simpl;
    rewrite ?Hat; simpl; lia.
Qed.

Lemma size_less {A} `{Countable A} (i : A) (X : gset A) : (size (X ∖ {[i]}) ≤ size X)%nat.
Proof. apply subseteq_size. set_solver. Qed.
Lemma size_without {A} `{Countable A} (i : A) (X : gset A) :
  i ∈ X → S (size (X ∖ {[i]})) = size X.
Proof.
  intros Hi. rewrite size_difference by set_solver. rewrite size_singleton.
  assert (size X ≠ 0%nat); [|lia]. rewrite size_non_empty_iff. set_solver.
Qed.
Lemma size_delete (n : nat) (r : Rpc) (m : gmap nat Rpc) :
  m !! n = Some r → S (size (delete n m)) = size m.
Proof.
  intros Hn. rewrite map_size_delete, Hn. assert (size m ≠ 0%nat); [|lia].
  rewrite map_size_ne_0_lookup. eauto.
Qed.

Lemma winding_step_work s s' : winding_step s s' → (work s' < work s)%nat.
Proof.
  intros (l & Hl & _ & Hev). destruct Hev; try done; unfold work; simpl.
  - apply main_step_work in H. unfold work in H. lia.
  - pose proof (size_without i (http_requests s) ltac:(done)).
    pose proof (size_less (inr i) (holders s)). lia.
  - pose proof (size_without i (http_conns s) ltac:(done)). lia.
  - pose proof (size_without h (holders s) ltac:(done)). lia.
  - pose proof (size_delete n unary (rpcs s) ltac:(done)). lia.
  - pose proof (size_without (delete_job k) (tasks s) ltac:(done)).
    pose proof (size_less (inl (delete_job k)) (holders s)). lia.
  - pose proof (size_without t (tasks s) ltac:(done)).
    pose proof (size_less (inl t) (holders s)). lia.
  - pose proof (size_delete n _ (rpcs s) ltac:(done)). lia.
  - pose proof (size_delete n _ (rpcs s) ltac:(done)). lia.
Qed.

Lemma winding_bounded k s s' : nsteps winding_step k s s' → (k + work s' ≤ work s)%nat.
Proof.
  induction 1 as [|k s1 s2 s3 Hstep _ IH]; [done|]. apply winding_step_work in Hstep. lia.
Qed.

Lemma winding_any s s' : rtc winding_step s s' → rtc any_step s s'.
Proof. apply rtc_subrel. intros s1 s2 (l & _ & ?). by exists l. Qed.

(** Winding down sends no signal, and connects nobody. *)
Lemma winding_keeps s s' :
  rtc winding_step s s' →
  (at_ s ≠ waiting_for_signal → at_ s' ≠ waiting_for_signal) ∧
  (∀ n, subscribed s' n → subscribed s n).
Proof.
  induction 1 as [|s1 s2 s3 (l & Hl & _ & Hev) _ [IHat IHsub]]; [done|]. split.
  - intros Hat. apply IHat. destruct Hev; try done. simpl in *.
    match goal with H : main_step _ = _ |- _ => unfold main_step in H end.
    destruct (at_ s); try case_decide; simplify_eq; done.
  - intros n Hn. apply IHsub in Hn as (req & vt & b & Hn). exists req, vt, b.
    destruct Hev; try done; simpl in *; try (by apply lookup_delete_Some in Hn as [_ ?]).
    match goal with H : main_step _ = _ |- _ => unfold main_step in H end.
    destruct (at_ s); try case_decide; simplify_eq; done.
Qed.

Context `{RETURNS : !GracefulReturns}.

(** [main] is stuck only on what can still end. *)
Lemma winding_progress s :
  server_ok s → at_ s ≠ waiting_for_signal → at_ s ≠ returned → (∀ n, ¬ subscribed s n) →
  ∃ s', winding_step s s'.
Proof.
  intros [Hc _ _ Hq Htk Hh] Hsig Hret Hno.
  assert (∀ s', main_step s = Some s' → ∃ s', winding_step s s') as Hmain.
  { intros s' Hs'. exists s', ev_main. split; [done|]. split; [done|by constructor]. }
  assert (∀ s', server_event ev_ends s s' → ∃ s', winding_step s s') as Hends.
  { intros s' Hs'. by exists s', ev_ends. }
  set (e := mkEnv 0 0 (λ _, "") ∅ ∅).
  assert (∀ i, i ∈ http_requests s → ∃ s', winding_step s s') as Hrequest.
  { intros i Hi. eapply Hends. by apply at_request_ends with (fs := []) (c := do_Stats) (e := e). }
  unfold main_step in Hmain. destruct (at_ s) eqn:Hat; try done; try by eapply Hmain.
  - destruct (decide (http_conns s = ∅)) as [He|[i Hi]%set_choose_L].
    + assert (http_requests s = ∅) as Hnone by set_solver.
      rewrite He, Hnone, decide_True in Hmain by apply Shutdown_done. by eapply Hmain.
    + destruct (decide (i ∈ http_requests s)) as [Hr|Hr]; [by eapply Hrequest|].
      eapply Hends. by apply at_disconnection.
  - destruct (map_choose_or_empty (rpcs s)) as [(n & r & Hr)|He].
    + destruct r as [|req vt b [|]].
      * eapply Hends. by apply at_unary_ends with (c := do_Stats) (e := e).
      * destruct (Hno n). by eexists _, _, _.
      * eexists _, (ev_returns n). split; [done|]. split; [congruence|].
        by eapply at_gone with (e := e).
    + rewrite He, dom_empty_L, decide_True in Hmain by apply GracefulStop_done.
      by eapply Hmain.
  - destruct (decide (holders s = ∅)) as [He|[h Hin]%set_choose_L].
    + rewrite He, decide_True in Hmain by apply Close_done. by eapply Hmain.
    + eapply Hends. by apply at_release with (h := h).
Qed.

(** A server that got the signal stops, when nobody is subscribed and its clients close their
    connections.  Once nothing new begins, every statement of [main], every end of a request,
    a connection, a call, a stream or a goroutine and every return of a connection to the pool
    leaves less to do, so no run is longer than what is left; and a run can only come to an end
    with [main] returned, whatever takes how long. *)
Theorem shutdown_returns p w s :
  rtc any_step (serving p w) s → at_ s ≠ waiting_for_signal → (∀ n, ¬ subscribed s n) →
  (∀ k s', nsteps winding_step k s s' → (k ≤ work s)%nat) ∧
  (∀ s', rtc winding_step s s' → nf winding_step s' → at_ s' = returned).
Proof.
  intros Hrun Hsig Hno. split.
  - intros k s' Hk%winding_bounded. lia.
  - intros s' Hs' Hnf. pose proof (winding_any _ _ Hs') as Hany.
    assert (server_ok s') as Hok by (eapply server_ok_run; [by eapply reached_ok|done]).
    destruct (winding_keeps _ _ Hs') as [Hat Hsub].
    destruct (decide (at_ s' = returned)) as [Hret|Hret]; [done|].
    destruct Hnf. apply winding_progress; try done; [by apply Hat|].
    intros n Hn. by apply (Hno n), Hsub.
Qed.

(** ** With a subscriber *)

(** Everything but the departure of subscriber [n] and a failure of its dequeues. *)
Definition staying (n : nat) (l : Event) : Prop := l ≠ ev_leaves n ∧ l ≠ ev_returns n.
Definition staying_step (n : nat) (s s' : Server) : Prop :=
  ∃ l, staying n l ∧ server_step l s s'.

Lemma staying_subscribed n s s' : rtc (staying_step n) s s' → subscribed s n → subscribed s' n.
Proof.
  induction 1 as [|s1 s2 s3 (l & [Hl1 Hl2] & _ & Hev) _ IH]; [done|].
  intros (req & vt & b & Hn). apply IH. unfold subscribed.
  destruct Hev as [s s' Hm|s|s i ? ?|s i ? ?|s t ? ?|s i ? ?|s m ? Hm|s m c req' vt' e w' ? Hm
    |s k ? ?|s i fs c e ?|s i ? ?|s h ?|s m c e Hm|s k fs a e ?|s t ? ?
    |s m req' vt' b1 e b2 sent w' Hm ?|s m req' vt' b' e r w' Hm ? ?
    |s m req' vt' b' t e r w' Hm ? ?|s m req' vt' b' e w' Hm ?]; simpl; try by eauto.
  - exists req, vt, b. unfold main_step in Hm. destruct (at_ s); try case_decide; simplify_eq; done.
  - case_decide; simpl; eauto.
  - exists req, vt, b. by rewrite lookup_insert_ne by congruence.
  - exists req, vt, b. by rewrite lookup_insert_ne by congruence.
  - exists req, vt, b. by rewrite lookup_delete_ne by congruence.
  - destruct (decide (m = n)) as [->|Hne].
    + rewrite lookup_insert_eq. eauto.
    + rewrite lookup_insert_ne by done. eauto.
  - exists req, vt, b. by rewrite lookup_delete_ne by congruence.
  - exists req, vt, b. case_match; [case_match|..]; rewrite ?lookup_insert_ne, ?lookup_delete_ne by congruence; done.
  - exists req, vt, b. by rewrite lookup_delete_ne by congruence.
Qed.

(** [C24] One connected subscriber keeps the server from stopping.  As long as its client stays
    and its dequeues do not fail, whatever else happens - also further signals, and the end
    of everything else - [main] does not get past [GracefulStop]: the deferred calls are
    never reached, and the stream goes on polling, and claiming messages, as before. *)
Theorem subscriber_blocks_shutdown p w s n s' :
  rtc any_step (serving p w) s → subscribed s n → rtc (staying_step n) s s' →
  subscribed s' n ∧ (3 ≤ remaining (at_ s'))%nat ∧
  (at_ s' = waiting_grpc → main_step s' = None) ∧
  (at_ s' ≠ waiting_for_signal → ∀ s2, server_step ev_signal s' s2 → s2 = s') ∧
  (∃ l s2, (l = ev_polls n ∨ l = ev_returns n) ∧ server_step l s' s2).
Proof.
  intros Hrun Hn Hst. assert (subscribed s' n) as Hn' by by eapply staying_subscribed.
  assert (rtc any_step s s') as Hany.
  { eapply rtc_subrel; [|done]. intros ? ? (l & _ & ?). by exists l. }
  assert (server_ok s') as Hok by (eapply server_ok_run; [by eapply reached_ok|done]).
  destruct Hok as [_ _ Hr _ _ _].
  assert (3 ≤ remaining (at_ s'))%nat as H3.
  { destruct (decide (remaining (at_ s') ≤ 2)%nat) as [Hle|]; [|lia].
    destruct Hn' as (req & vt & b & Hn'). rewrite (Hr Hle) in Hn'. done. }
  split_and!; [done|done| | |].
  - intros Hat. unfold main_step. rewrite Hat. rewrite decide_False; [done|].
    intros Hd%GracefulStop_waits%dom_empty_inv_L.
    destruct Hn' as (req & vt & b & Hn'). by rewrite Hd in Hn'.
  - intros Hat s2 [_ Hev]. inversion Hev; subst. by rewrite decide_False.
  - set (e := mkEnv 0 0 (λ _, "") ∅ ∅). destruct Hn' as (req & vt & b & Hn').
    destruct (subscribe_iteration sv req vt b connected_tick e (world_of_server s')) as [r w'] eqn:Hit.
    assert (at_ s' ≠ returned) as Hret by (intros Hat; rewrite Hat in H3; simpl in H3; lia).
    destruct r as [[b' sent| | |]|x].
    + eexists (ev_polls n), _. split; [by left|]. split; [done|]. by eapply at_polls.
    + eexists (ev_returns n), _. split; [by right|]. split; [done|]. by eapply at_poll_fails.
    + eexists (ev_returns n), _. split; [by right|]. split; [done|]. by eapply at_poll_fails.
    + eexists (ev_returns n), _. split; [by right|]. split; [done|]. by eapply at_poll_fails.
    + eexists (ev_returns n), _. split; [by right|]. split; [done|]. by eapply at_poll_fails.
Qed.
End shutdown.
