(* ===== verification/Float64.v ===== *)
(** * Go's float64

    The arithmetic of Go's [float64] as far as the load test uses it: a finite value is an
    integer times a power of two, an operation is the exact result rounded to 53 bits, ties
    to even.  The exponents that occur are far inside the range of the format, so there is
    no overflow and there are no subnormal numbers; zero has no sign. *)

From S2P Require Import Prelude.

Inductive float64 :=
| finite (m e : Z)
| infinite (negative : bool)
| nan.

(** [num / den] rounded to an integer, ties to even; [0 < den]. *)
Definition round_half_even (num den : Z) : Z :=
  let q := num / den in
  let r := num mod den in
  if 2 * r <? den then q
  else if den <? 2 * r then q + 1
  else if Z.even q then q else q + 1.

(** [num / den] in units of [2 ^ e], rounded. *)
Definition scaled (num den e : Z) : Z :=
  round_half_even (num * 2 ^ Z.max (- e) 0) (den * 2 ^ Z.max e 0).

(** The exponent with which [num / den] has 53 bits before the point; both are positive. *)
Definition exponent_of (num den : Z) : Z :=
  let e := Z.log2 num - Z.log2 den - 53 in
  if num * 2 ^ Z.max (- e) 0 <? 2 ^ 53 * (den * 2 ^ Z.max e 0) then e else e + 1.

(** The float64 nearest to [num / den], for [0 < den]. *)
Definition nearest (num den : Z) : float64 :=
  if num =? 0 then finite 0 0
  else let e := exponent_of (Z.abs num) den in finite (Z.sgn num * scaled (Z.abs num) den e) e.

(** A finite value as a fraction. *)
Definition numerator (f : float64) : Z := match f with finite m e => m * 2 ^ Z.max e 0 | _ => 0 end.
Definition denominator (f : float64) : Z := match f with finite _ e => 2 ^ Z.max (- e) 0 | _ => 1 end.

(** [float64(n)] *)
Definition of_int (n : Z) : float64 := nearest n 1.

Definition fadd (f g : float64) : float64 :=
  match f, g with
  | finite _ _, finite _ _ =>
      nearest (numerator f * denominator g + numerator g * denominator f)
        (denominator f * denominator g)
  | nan, _ | _, nan => nan
  | infinite a, infinite b => if Bool.eqb a b then infinite a else nan
  | infinite a, _ | _, infinite a => infinite a
  end.

Definition negative (f : float64) : bool :=
  match f with finite m _ => m <? 0 | infinite b => b | nan => false end.
Definition is_zero (f : float64) : bool := match f with finite m _ => m =? 0 | _ => false end.

Definition fmul (f g : float64) : float64 :=
  match f, g with
  | finite _ _, finite _ _ =>
      nearest (numerator f * numerator g) (denominator f * denominator g)
  | nan, _ | _, nan => nan
  | _, _ => if is_zero f || is_zero g then nan else infinite (xorb (negative f) (negative g))
  end.

(** A division by zero is not an error. *)
Definition fdiv (f g : float64) : float64 :=
  match f, g with
  | finite _ _, finite _ _ =>
      if is_zero g then (if is_zero f then nan else infinite (negative f))
      else nearest (Z.sgn (numerator g) * numerator f * denominator g)
             (denominator f * Z.abs (numerator g))
  | nan, _ | _, nan | infinite _, infinite _ => nan
  | infinite a, _ => infinite (xorb a (negative g))
  | _, infinite _ => finite 0 0
  end.

(** The integer part; [None] for what is not a number. *)
Definition integer_part (f : float64) : option Z :=
  match f with
  | finite _ _ => Some (Z.quot (numerator f) (denominator f))
  | _ => None
  end.

(** ** Rounding *)

Lemma round_half_even_bound num den :
  0 < den → Z.abs (2 * (den * round_half_even num den - num)) ≤ den.
Proof.
  intros Hd. unfold round_half_even. pose proof (Z.div_mod num den ltac:(lia)) as Hq.
  pose proof (Z.mod_pos_bound num den Hd) as Hr.
  destruct (Z.ltb_spec (2 * (num mod den)) den); [nia|].
  destruct (Z.ltb_spec den (2 * (num mod den))); [nia|]. destruct (Z.even _); nia.
Qed.

Lemma round_half_even_exact k den : 0 < den → round_half_even (k * den) den = k.
Proof.
  intros Hd. unfold round_half_even. rewrite Z.div_mul, Z.mod_mul by lia.
  by rewrite (proj2 (Z.ltb_lt _ _)) by lia.
Qed.

(** The two scalings of an exponent. *)
Lemma scaling_succ e :
  2 ^ Z.max (e + 1) 0 * 2 ^ Z.max (- e) 0 = 2 * (2 ^ Z.max e 0 * 2 ^ Z.max (- (e + 1)) 0).
Proof.
  rewrite <-!Z.pow_add_r by lia. rewrite <-(Z.pow_succ_r 2) by lia. f_equal. lia.
Qed.
Lemma scaling_pos e : 0 < 2 ^ Z.max e 0.
Proof. apply Z.pow_pos_nonneg; lia. Qed.

Lemma exponent_of_spec num den :
  0 < num → 0 < den →
  let e := exponent_of num den in
  2 ^ 52 * (den * 2 ^ Z.max e 0) ≤ num * 2 ^ Z.max (- e) 0 < 2 ^ 53 * (den * 2 ^ Z.max e 0).
Proof.
  intros Hn Hd. unfold exponent_of. set (e := Z.log2 num - Z.log2 den - 53).
  pose proof (Z.log2_spec num Hn) as [Hn1 Hn2]. pose proof (Z.log2_spec den Hd) as [Hd1 Hd2].
  pose proof (Z.log2_nonneg num) as Ln. pose proof (Z.log2_nonneg den) as Ld.
  pose proof (scaling_pos e) as P1. pose proof (scaling_pos (- e)) as P2.
  assert (2 ^ Z.log2 num * 2 ^ Z.max (- e) 0 = 2 ^ 53 * (2 ^ Z.log2 den * 2 ^ Z.max e 0)) as Heq.
  { rewrite <-!Z.pow_add_r by lia. f_equal. unfold e. lia. }
  rewrite Z.pow_succ_r in Hn2, Hd2 by lia.
  destruct (Z.ltb_spec (num * 2 ^ Z.max (- e) 0) (2 ^ 53 * (den * 2 ^ Z.max e 0))) as [Hlt|Hge]; simpl.
  - split; [|done]. nia.
  - pose proof (scaling_succ e) as Hs. pose proof (scaling_pos (e + 1)) as P3.
    pose proof (scaling_pos (- (e + 1))) as P4.
    set (a := 2 ^ Z.max e 0) in *. set (b := 2 ^ Z.max (- e) 0) in *.
    set (a' := 2 ^ Z.max (e + 1) 0) in *. set (b' := 2 ^ Z.max (- (e + 1)) 0) in *.
    assert (num * b < 2 ^ 54 * (den * a)) as Hup by nia.
    assert (num * b' * (2 * a) = a' * (num * b)) as Hcross.
    { transitivity (num * (2 * (a * b'))); [ring|]. rewrite <-Hs. ring. }
    split; [apply (Z.mul_le_mono_pos_r _ _ (2 * a)); [lia|]|apply (Z.mul_lt_mono_pos_r (2 * a)); [lia|]];
      rewrite Hcross.
    + transitivity (a' * (2 ^ 53 * (den * a))); [apply Z.eq_le_incl; ring|]. by apply Z.mul_le_mono_nonneg_l; [lia|].
    + apply Z.lt_le_trans with (a' * (2 ^ 54 * (den * a))); [by apply Z.mul_lt_mono_pos_l|].
      apply Z.eq_le_incl. ring.
Qed.

(** A value that is the integer [k]. *)
Definition is_int (f : float64) (k : Z) : Prop :=
  (∃ m e, f = finite m e) ∧ numerator f = k * denominator f.

(** Integers of 53 bits are exact, also as the results of an operation. *)
Lemma nearest_int k den : 0 < den → 0 ≤ k < 2 ^ 53 → is_int (nearest (k * den) den) k.
Proof.
  intros Hd Hk. unfold nearest. destruct (Z.eqb_spec (k * den) 0) as [Hz|Hnz].
  { assert (k = 0) as -> by nia. split; [by eexists _, _|done]. }
  assert (0 < k) as Hpos by nia. rewrite Z.abs_eq, Z.sgn_pos by nia.
  pose proof (exponent_of_spec (k * den) den ltac:(nia) Hd) as [Hlo _].
  set (e := exponent_of (k * den) den) in *.
  assert (e ≤ 0) as He.
  { destruct (Z.le_gt_cases e 0) as [|Hgt]; [done|exfalso].
    rewrite (Z.max_r (- e) 0), (Z.max_l e 0), Z.mul_1_r in Hlo by lia.
    assert (2 ^ 1 ≤ 2 ^ e) as H2 by (apply Z.pow_le_mono_r; lia).
    assert (2 ^ 52 * 2 ^ e ≤ k) by nia. lia. }
  split; [by eexists _, _|]. unfold numerator, denominator, scaled.
  rewrite (Z.max_r e 0), Z.mul_1_r, Z.mul_1_r, Z.mul_1_l by lia.
  replace (k * den * 2 ^ Z.max (- e) 0) with (k * 2 ^ Z.max (- e) 0 * den) by ring.
  by apply round_half_even_exact.
Qed.

Lemma of_int_exact k : 0 ≤ k < 2 ^ 53 → is_int (of_int k) k.
Proof. intros Hk. unfold of_int. replace k with (k * 1) at 1 by lia. by apply nearest_int. Qed.

Lemma denominator_pos f : 0 < denominator f.
Proof. destruct f as [m e| |]; simpl; [apply scaling_pos|lia|lia]. Qed.

Lemma fmul_int f g k l :
  is_int f k → is_int g l → 0 ≤ k * l < 2 ^ 53 → is_int (fmul f g) (k * l).
Proof.
  intros [(m & e & ->) Hf] [(m' & e' & ->) Hg] Hkl. cbv [fmul]. rewrite Hf, Hg.
  match goal with |- is_int (nearest (k * ?x * (l * ?y)) _) _ =>
    replace (k * x * (l * y)) with (k * l * (x * y)) by ring;
    pose proof (denominator_pos (finite m e)); pose proof (denominator_pos (finite m' e')) end.
  apply nearest_int; [nia|done].
Qed.

(** The quotient of small integers is rounded, but not past an integer. *)
Lemma fdiv_int_part f g n d :
  is_int f n → is_int g d → 0 ≤ n < 2 ^ 45 → 0 < d ≤ 2 ^ 8 → integer_part (fdiv f g) = Some (n / d).
Proof.
  intros [(m & e & ->) Hf] [(m' & e' & ->) Hg] Hn Hd. unfold fdiv.
  pose proof (denominator_pos (finite m e)) as Df. pose proof (denominator_pos (finite m' e')) as Dg.
  assert (is_zero (finite m' e') = false) as ->.
  { simpl. apply Z.eqb_neq. intros ->. simpl in Hg. nia. }
  rewrite Hf, Hg. set (a := denominator (finite m e)) in *. set (b := denominator (finite m' e')) in *.
  rewrite Z.sgn_pos, Z.abs_eq, Z.mul_1_l by nia.
  replace (n * a * b) with (n * (a * b)) by ring. replace (a * (d * b)) with (d * (a * b)) by ring.
  assert (0 < a * b) as Hx by nia. set (x := a * b) in *. clearbody x. clear Hf Hg Df Dg.
  unfold nearest. destruct (Z.eqb_spec (n * x) 0) as [Hz|Hnz].
  { assert (n = 0) as -> by nia. done. }
  rewrite Z.abs_eq, Z.sgn_pos, Z.mul_1_l by nia.
  pose proof (exponent_of_spec (n * x) (d * x) ltac:(nia) ltac:(nia)) as [Hlo _].
  set (ex := exponent_of (n * x) (d * x)) in *.
  assert (ex ≤ - 8) as Hex.
  { destruct (Z.le_gt_cases ex (- 8)) as [|Hgt]; [done|exfalso].
    assert (2 ^ Z.max (- ex) 0 ≤ 2 ^ 7) as H1 by (apply Z.pow_le_mono_r; lia).
    pose proof (scaling_pos ex) as H2. pose proof (scaling_pos (- ex)) as H3.
    set (p := 2 ^ Z.max ex 0) in *. set (q := 2 ^ Z.max (- ex) 0) in *. clearbody p q.
    assert (2 ^ 52 * d * p ≤ n * q) by nia. nia. }
  unfold integer_part, numerator, denominator, scaled.
  rewrite (Z.max_r ex 0), !Z.mul_1_r, (Z.max_l (- ex) 0) by lia.
  assert (2 ^ 8 ≤ 2 ^ (- ex)) as Hk by (apply Z.pow_le_mono_r; lia).
  set (k := 2 ^ (- ex)) in *. clearbody k. clear Hlo Hnz.
  pose proof (round_half_even_bound (n * x * k) (d * x) ltac:(nia)) as Hr.
  set (r := round_half_even _ _) in *. clearbody r.
  assert (Z.abs (2 * (d * r - n * k)) ≤ d) as Hr'.
  { replace (2 * (d * x * r - n * x * k)) with (2 * (d * r - n * k) * x) in Hr by ring.
    rewrite Z.abs_mul, (Z.abs_eq x) in Hr by lia. nia. }
  clear Hr. pose proof (Z.div_mod n d ltac:(lia)) as Hq. pose proof (Z.mod_pos_bound n d ltac:(lia)) as Hm.
  set (q := n / d) in *. set (rest := n mod d) in *. clearbody q rest.
  assert (0 ≤ q) by nia.
  assert (d * (2 * (q * k) - 1) ≤ d * (2 * r)) as Hlow by nia.
  assert (2 * (n * k) ≤ 2 * ((d * q + d - 1) * k)) as Hn' by nia.
  assert (d * r < d * ((q + 1) * k)) as Hup by lia.
  apply Z.mul_le_mono_pos_l in Hlow; [|lia]. apply Z.mul_lt_mono_pos_l in Hup; [|lia].
  f_equal. rewrite Z.quot_div_nonneg by nia. symmetry. apply (Z.div_unique r k q (r - q * k)); lia.
Qed.
