(* ===== verification/LoadReport.v ===== *)
(** * The report of the load test

    The statistics of [backend/cmd/loadtest/main.go]: the samples and errors of the
    goroutines, the percentiles, and the texts of the final section. *)

From stdpp Require Import sorting.
From S2P Require Import Prelude.
From S2P Require Import Avro.
From S2P Require Import Json.
From S2P Require Import Float64.

(** ** Samples *)

(** [stats]; every access holds its mutex. *)
Record stats := mkStats { samples : list Z; errors : Z; firstErr : string }.

(** [err] is the text of the error; the result says whether it is the first. *)
Definition record (d : Z) (err : option string) (s : stats) : bool * stats :=
  match err with
  | Some text =>
      if bool_decide (firstErr s = "")
      then (true, mkStats (samples s) (errors s + 1) text)
      else (false, mkStats (samples s) (errors s + 1) (firstErr s))
  | None => (false, mkStats (samples s ++ [d]) (errors s) (firstErr s))
  end.

(** [sorted[int(float64(len(sorted)-1) * p / 100.0)]], [None] if the index panics. *)
Definition percentile (sorted : list Z) (p : Z) : option Z :=
  idx ← integer_part (fdiv (fmul (of_int (Z.of_nat (length sorted) - 1)) (of_int p)) (of_int 100));
  if idx <? 0 then None else sorted !! Z.to_nat idx.

(** ** Texts *)

(** The loop of [formatInt] over the decimal digits; [first] holds at the first. *)
Fixpoint group_digits (first : bool) (s : string) : string :=
  match s with
  | EmptyString => EmptyString
  | String c s' =>
      let rest := String c (group_digits false s') in
      if negb first && (String.length s mod 3 =? 0)%nat then String "," rest else rest
  end.
Definition formatInt (n : Z) : string := group_digits true (FormatInt n).

(** [%.1f]: the exact value rounded to one decimal, ties to even. *)
Definition fixed1 (f : float64) : string :=
  match f with
  | nan => "NaN"
  | infinite b => if b then "-Inf" else "+Inf"
  | finite m e =>
      let t := round_half_even (10 * Z.abs (numerator f))%Z (denominator f) in
      (if (m <? 0)%Z then "-" else "") +:+ FormatInt (t / 10)%Z +:+ "." +:+ FormatInt (t mod 10)%Z
  end%string.

Definition Millisecond : Z := 1000000.
Definition Microsecond : Z := 1000.

(** [d.Seconds()] *)
Definition Seconds (d : Z) : float64 :=
  fadd (of_int (Z.quot d Second)) (fdiv (of_int (Z.rem d Second)) (of_int (10 ^ 9))).

Definition formatDuration (d : Z) : string :=
  if Second <=? d then fixed1 (Seconds d) +:+ "s"
  else if Millisecond <=? d then fixed1 (fdiv (of_int d) (of_int Millisecond)) +:+ "ms"
  else fixed1 (fdiv (of_int d) (of_int Microsecond)) +:+ "µs".

Section report.
(** Go leaves open what [int64(f)] is for a value outside of the type. *)
Context (out_of_range : float64 → Z).

Definition to_int64 (f : float64) : Z :=
  match integer_part f with
  | Some z => if bool_decide (- 2 ^ 63 ≤ z < 2 ^ 63) then z else out_of_range f
  | None => out_of_range f
  end.

Definition formatFloat (f : float64) : string :=
  let whole := to_int64 f in
  let frac := Z.rem (to_int64 (fmul f (of_int 10))) 10 in
  formatInt whole +:+ "." +:+ FormatInt frac.

(** The lines of [summarise]; [None] if it panics. *)
Definition summarise (label : string) (s : stats) (elapsed : Z) : option (list string) :=
  let total := Z.of_nat (length (samples s)) in
  let throughput := fdiv (of_int total) (Seconds elapsed) in
  percentiles ←
    (if total =? 0
     then Some ["  p50:        n/a"; "  p95:        n/a"; "  p99:        n/a"]%string
     else
       let sorted := merge_sort Z.le (samples s) in
       p50 ← percentile sorted 50;
       p95 ← percentile sorted 95;
       p99 ← percentile sorted 99;
       Some ["  p50:        " +:+ formatDuration p50; "  p95:        " +:+ formatDuration p95;
             "  p99:        " +:+ formatDuration p99]%string);
  Some ([label; "  Total:      " +:+ formatInt total +:+ " ops";
         "  Throughput: " +:+ formatFloat throughput +:+ " ops/s"]%string ++ percentiles ++
        ["  Errors:     " +:+ FormatInt (errors s)]%string ++
        (if (0 <? errors s) && negb (bool_decide (firstErr s = ""%string))
         then ["  First error: " +:+ firstErr s]%string else [])).
End report.

(** ** Percentiles *)

(** The float64 arithmetic of the index is exact. *)
Lemma percentile_index sorted p :
  (0 < length sorted)%nat → Z.of_nat (length sorted) ≤ 2 ^ 38 → 0 ≤ p ≤ 100 →
  percentile sorted p = sorted !! Z.to_nat ((Z.of_nat (length sorted) - 1) * p / 100).
Proof.
  intros Hn Hmax Hp. unfold percentile. set (n := Z.of_nat (length sorted)) in *.
  rewrite (fdiv_int_part _ _ ((n - 1) * p) 100).
  - simpl. rewrite (proj2 (Z.ltb_ge _ 0)); [done|]. apply Z.div_pos; nia.
  - apply fmul_int; [apply of_int_exact; lia|apply of_int_exact; lia|nia].
  - apply of_int_exact. lia.
  - nia.
  - lia.
Qed.

Lemma percentile_rank n p : (0 < n)%nat → 0 ≤ p ≤ 100 → (Z.to_nat ((Z.of_nat n - 1) * p / 100) < n)%nat.
Proof.
  intros Hn Hp. assert ((Z.of_nat n - 1) * p / 100 < Z.of_nat n); [|lia].
  apply Z.div_lt_upper_bound; nia.
Qed.

Lemma sorted_lookup_le (l : list Z) i j x y :
  StronglySorted Z.le l → l !! i = Some x → l !! j = Some y → (i ≤ j)%nat → x ≤ y.
Proof.
  intros Hs. revert i j. induction Hs as [|z l Hs IH Hall]; intros i j; [done|].
  destruct i as [|i], j as [|j]; simpl; intros Hx Hy Hij; simplify_eq; [done| |lia|].
  - rewrite Forall_lookup in Hall. by eapply Hall.
  - eapply IH; try done. lia.
Qed.

Lemma filter_of_all {A} (P : A → Prop) `{∀ x, Decision (P x)} l : Forall P l → filter P l = l.
Proof. induction 1; rewrite ?filter_nil, ?filter_cons_True by done; congruence. Qed.
Lemma filter_of_none {A} (P : A → Prop) `{∀ x, Decision (P x)} l :
  Forall (λ x, ¬ P x) l → filter P l = [].
Proof. induction 1; rewrite ?filter_nil, ?filter_cons_False by done; done. Qed.

(** The value at position [i] of a sorted list has that rank. *)
Lemma sorted_rank (l : list Z) (i : nat) (v : Z) :
  StronglySorted Z.le l → l !! i = Some v →
  (length (filter (λ d : Z, (d < v)%Z) l) ≤ i < length (filter (λ d : Z, (d ≤ v)%Z) l))%nat.
Proof.
  intros Hs Hv. pose proof (lookup_lt_Some _ _ _ Hv) as Hi. split.
  - rewrite <-(take_drop i l), filter_app, length_app.
    replace (filter (λ d, d < v) (drop i l)) with (@nil Z).
    + simpl. pose proof (length_filter (λ d, d < v) (take i l)) as Hle.
      rewrite length_take in Hle. lia.
    + symmetry. apply filter_of_none, Forall_lookup. intros j d Hd.
      rewrite lookup_drop in Hd. pose proof (sorted_lookup_le l i (i + j) v d Hs Hv Hd). lia.
  - rewrite <-(take_drop (S i) l), filter_app, length_app.
    rewrite (filter_of_all _ (take (S i) l)).
    + rewrite length_take. lia.
    + apply Forall_lookup. intros j d [Hd Hj]%lookup_take_Some.
      eapply (sorted_lookup_le l j i); try done. lia.
Qed.

(** The three percentiles of a test are samples, in order, and each is the one of its rank:
    with [n] samples, [(n - 1) * p / 100] of them, rounded down, come before the [p]-th
    percentile when they are sorted. *)
Definition at_rank (l : list Z) (p v : Z) : Prop :=
  let i := Z.to_nat ((Z.of_nat (length l) - 1) * p / 100) in
  v ∈ l ∧ (length (filter (λ d : Z, (d < v)%Z) l) ≤ i < length (filter (λ d : Z, (d ≤ v)%Z) l))%nat.

Lemma sort_sorted (l : list Z) : StronglySorted Z.le (merge_sort Z.le l).
Proof. apply (StronglySorted_merge_sort Z.le). Qed.

Lemma percentile_at_rank l p :
  l ≠ [] → Z.of_nat (length l) ≤ 2 ^ 38 → 0 ≤ p ≤ 100 →
  ∃ v, percentile (merge_sort Z.le l) p = Some v ∧ at_rank l p v.
Proof.
  intros Hne Hmax Hp. assert (length l ≠ 0)%nat as Hlen by by destruct l.
  pose proof (merge_sort_Permutation Z.le l) as Hperm. pose proof (Permutation_length Hperm) as Hl.
  rewrite percentile_index by (rewrite ?Hl; lia). rewrite Hl.
  destruct (lookup_lt_is_Some_2 (merge_sort Z.le l)
    (Z.to_nat ((Z.of_nat (length l) - 1) * p / 100))) as [v Hv].
  { rewrite Hl. apply percentile_rank; lia. }
  exists v. split; [done|]. split.
  - rewrite <-Hperm. by eapply list_elem_of_lookup_2.
  - pose proof (sorted_rank _ _ _ (sort_sorted l) Hv) as Hr. by rewrite !Hperm in Hr.
Qed.

Lemma at_rank_le l p q v v' : at_rank l p v → at_rank l q v' → 0 ≤ p ≤ q → v ≤ v'.
Proof.
  intros [Hin [Hlo _]] [Hin' [_ Hhi]] Hpq. destruct (Z.le_gt_cases v v') as [|Hgt]; [done|exfalso].
  assert (length (filter (λ d : Z, (d ≤ v')%Z) l) ≤ length (filter (λ d : Z, (d < v)%Z) l))%nat as Hsub.
  { clear -Hgt. induction l as [|d l IH]; [done|]. rewrite !filter_cons.
    repeat case_decide; simpl; lia. }
  assert ((Z.of_nat (length l) - 1) * p / 100 ≤ (Z.of_nat (length l) - 1) * q / 100).
  { apply Z.div_le_mono; [lia|]. apply Z.mul_le_mono_nonneg_l; [|lia].
    destruct l; [by apply not_elem_of_nil in Hin|simpl; lia]. }
  lia.
Qed.

(** ** Thousands separators *)

Lemma digits_before_app fuel n acc acc' :
  digits_before fuel n (acc +:+ acc') = digits_before fuel n acc +:+ acc'.
Proof.
  revert n acc. induction fuel as [|fuel IH]; intros n acc; simpl; [done|].
  case_match; [done|]. apply (IH _ (String _ acc)).
Qed.

(** Enough fuel is as good as more. *)
Lemma digits_before_fuel f f' n acc :
  0 ≤ n < 2 ^ Z.of_nat f → 0 ≤ n < 2 ^ Z.of_nat f' → f ≠ O → f' ≠ O →
  digits_before f n acc = digits_before f' n acc.
Proof.
  revert f' n acc. induction f as [|f IH]; intros [|f'] n acc Hn Hn' Hf Hf'; try done. simpl.
  destruct (Z.ltb_spec n 10) as [|Hge]; [done|].
  rewrite Nat2Z.inj_succ, Z.pow_succ_r in Hn, Hn' by lia.
  apply IH; try (split; [apply Z.div_pos; lia|apply Z.div_lt_upper_bound; lia]);
    intros ->; simpl in *; lia.
Qed.

Lemma FormatInt_digits f n :
  0 ≤ n < 2 ^ Z.of_nat f → f ≠ O → FormatInt n = digits_before f n "".
Proof.
  intros Hn Hf. unfold FormatInt. rewrite (proj2 (Z.ltb_ge _ _)), Z.abs_eq by lia.
  apply digits_before_fuel; try done. split; [lia|]. rewrite Nat2Z.inj_succ.
  destruct (Z.eq_dec n 0) as [->|]; [done|]. rewrite Z2Nat.id by apply Z.log2_nonneg.
  apply Z.log2_spec. lia.
Qed.

Lemma bits_bound n : 0 ≤ n → ∃ f, f ≠ O ∧ n < 2 ^ Z.of_nat f.
Proof.
  intros Hn. exists (S (Z.to_nat n)). split; [done|].
  rewrite Nat2Z.inj_succ, Z2Nat.id, Z.pow_succ_r by lia. pose proof (Z.pow_gt_lin_r 2 n). lia.
Qed.

Lemma FormatInt_step n :
  10 ≤ n → FormatInt n = FormatInt (n / 10) +:+ String (digit_char (n mod 10)) "".
Proof.
  intros Hn. destruct (bits_bound n) as (f & Hf & Hlt); [lia|].
  assert (0 ≤ n / 10 < 2 ^ Z.of_nat f).
  { split; [apply Z.div_pos; lia|]. pose proof (Z.div_lt n 10). lia. }
  rewrite (FormatInt_digits (S f) n), (FormatInt_digits f (n / 10)) by
    (rewrite ?Nat2Z.inj_succ, ?Z.pow_succ_r by lia; try done; lia).
  rewrite <-digits_before_app. simpl. by rewrite (proj2 (Z.ltb_ge _ _)) by lia.
Qed.

(** Three decimal digits. *)
Definition pad3 (m : Z) : string :=
  String (digit_char (m / 100)) (String (digit_char (m / 10 mod 10))
    (String (digit_char (m mod 10)) "")).

Lemma FormatInt_thousands n :
  1000 ≤ n → FormatInt n = FormatInt (n / 1000) +:+ pad3 (n mod 1000).
Proof.
  intros Hn. rewrite (FormatInt_step n), (FormatInt_step (n / 10)), (FormatInt_step (n / 10 / 10));
    try (repeat apply Z.div_le_lower_bound; lia).
  rewrite !Z.div_div, !string_app_assoc by lia. simpl. unfold pad3.
  pose proof (Z.div_mod n 1000 ltac:(lia)) as Hq. pose proof (Z.mod_pos_bound n 1000 ltac:(lia)) as Hm.
  set (q := n / 1000) in *. set (m := n mod 1000) in *. clearbody q m. subst n.
  change (10 * (10 * 10)) with 1000. change (10 * 10) with 100.
  assert ((1000 * q + m) / 1000 = q) as -> by (symmetry; apply (Z.div_unique _ _ _ m); lia).
  assert (((1000 * q + m) / 100) mod 10 = m / 100) as ->.
  { replace (1000 * q + m) with (m + 10 * q * 100) by ring. rewrite Z.div_add by lia.
    replace (m / 100 + 10 * q) with (m / 100 + q * 10) by ring. rewrite Z.mod_add by lia.
    apply Z.mod_small. split; [apply Z.div_pos; lia|apply Z.div_lt_upper_bound; lia]. }
  assert (((1000 * q + m) / 10) mod 10 = (m / 10) mod 10) as ->.
  { replace (1000 * q + m) with (m + 100 * q * 10) by ring. rewrite Z.div_add by lia.
    replace (m / 10 + 100 * q) with (m / 10 + 10 * q * 10) by ring. by rewrite Z.mod_add by lia. }
  assert ((1000 * q + m) mod 10 = m mod 10) as ->.
  { replace (1000 * q + m) with (m + 100 * q * 10) by ring. by rewrite Z.mod_add by lia. }
  reflexivity.
Qed.

Lemma FormatInt_nonempty n : FormatInt n ≠ ""%string.
Proof.
  unfold FormatInt. case_match; [done|]. by apply digits_before_nonempty.
Qed.

(** Three more digits put a separator before them and leave those in front as they are. *)
Lemma group_digits_app first s t :
  s ≠ ""%string → String.length t = 3%nat →
  group_digits first (s +:+ t) = group_digits first s +:+ String "," t.
Proof.
  intros Hs Ht. revert first. induction s as [|c s IH]; intros first; [done|].
  destruct s as [|c' s'].
  - destruct t as [|t1 [|t2 [|t3 [|]]]]; try done. by destruct first.
  - set (s := String c' s') in *. assert (s ≠ ""%string) as Hs' by done. clearbody s.
    change (String c s +:+ t) with (String c (s +:+ t)). cbn [group_digits]. rewrite IH by done.
    assert (String.length (String c (s +:+ t)) = String.length (String c s) + 1 * 3)%nat as ->
      by (cbn [String.length]; rewrite string_length_app; lia).
    rewrite Nat.Div0.mod_add. by case_match.
Qed.

(** [formatInt] puts a separator before every three digits, counted from the end. *)
Theorem formatInt_groups n :
  0 ≤ n → formatInt n =
    if n <? 1000 then FormatInt n else formatInt (n / 1000) +:+ "," +:+ pad3 (n mod 1000).
Proof.
  intros Hn. unfold formatInt. destruct (Z.ltb_spec n 1000) as [Hlt|Hge].
  - assert (n < 2 ^ Z.of_nat 10) as Hf by (simpl; lia). rewrite (FormatInt_digits 10) by done.
    assert (n / 10 / 10 < 10) by (rewrite Z.div_div by lia; apply Z.div_lt_upper_bound; lia).
    simpl. destruct (n <? 10); [done|]. destruct (n / 10 <? 10); [done|].
    by rewrite (proj2 (Z.ltb_lt _ _)) by done.
  - rewrite FormatInt_thousands, group_digits_app; [done|apply FormatInt_nonempty|done|done].
Qed.

Section summary.
Context (out_of_range : float64 → Z).

(** The summary of a test with samples never fails, and its percentiles are the samples of
    their ranks, exactly: the float64 arithmetic of the index loses nothing up to [2 ^ 38]
    samples.  They are in order. *)
Theorem summary_percentiles label s elapsed :
  samples s ≠ [] → Z.of_nat (length (samples s)) ≤ 2 ^ 38 →
  ∃ p50 p95 p99 first last, at_rank (samples s) 50 p50 ∧ at_rank (samples s) 95 p95 ∧
    at_rank (samples s) 99 p99 ∧ p50 ≤ p95 ≤ p99 ∧
    summarise out_of_range label s elapsed =
      Some ([label; "  Total:      " +:+ formatInt (Z.of_nat (length (samples s))) +:+ " ops"; first;
             "  p50:        " +:+ formatDuration p50; "  p95:        " +:+ formatDuration p95;
             "  p99:        " +:+ formatDuration p99;
             "  Errors:     " +:+ FormatInt (errors s)]%string ++ last).
Proof.
  intros Hne Hmax.
  destruct (percentile_at_rank (samples s) 50) as (p50 & H50 & R50); [done|done|lia|].
  destruct (percentile_at_rank (samples s) 95) as (p95 & H95 & R95); [done|done|lia|].
  destruct (percentile_at_rank (samples s) 99) as (p99 & H99 & R99); [done|done|lia|].
  assert ((Z.of_nat (length (samples s)) =? 0) = false) as Hz.
  { clear -Hne. apply Z.eqb_neq. destruct (samples s); [done|]. simpl. lia. }
  exists p50, p95, p99. eexists _, _.
  split_and!; [exact R50|exact R95|exact R99|by eapply at_rank_le|by eapply at_rank_le|].
  unfold summarise. cbv zeta. rewrite Hz, H50, H95, H99. cbn [mbind option_bind]. reflexivity.
Qed.
End summary.
