(* ===== verification/LoadTest.v ===== *)
(** * The load test

    The goroutines of [backend/cmd/loadtest/main.go] on the service: producers that enqueue,
    consumers that dequeue and acknowledge, until the context is cancelled by the timer or a
    signal; what they record, and what they leave in the queue.  The report is in
    [LoadReport]; the progress lines are left out. *)

From S2P Require Import Prelude.
From S2P Require Import Store.
From S2P Require Import Avro.
From S2P Require Import Runtime.
From S2P Require Import TopicConfig.
From S2P Require Import Throttle.
From S2P Require Import Schema.
From S2P Require Import Dequeue.
From S2P Require Import Enqueue.
From S2P Require Import Lifecycle.
From S2P Require Import Replay.
From S2P Require Import Query.
From S2P Require Import System.
From S2P Require Import Errors.
From S2P Require Import Caches.
From S2P Require Import Users.
From S2P Require Import Grpc.
From S2P Require Import Client.
From S2P Require Import EndToEnd.
From S2P Require Import LoadReport.

(** A producer at the head of its loop, with the answer to its call, or returned. *)
Inductive Producer :=
| p_checking
| p_answered (r : result RpcError string)
| p_stopped.

(** A consumer at the head of its loop, with the answer to [Dequeue], with that to [Ack],
    or returned. *)
Inductive Worker :=
| c_checking
| c_dequeued (r : result RpcError DequeueResponse)
| c_acked (r : result RpcError unit)
| c_stopped.

(** ** Sums over maps *)

Section tally.
Context {K A : Type} `{Countable K}.
Implicit Types (f : A → Z) (m : gmap K A).

Definition tally f m : Z := map_fold (λ _ a acc, f a + acc) 0 m.

Lemma tally_empty f : tally f ∅ = 0.
Proof. apply map_fold_empty. Qed.
Lemma tally_new f m k a : m !! k = None → tally f (<[k:=a]> m) = f a + tally f m.
Proof. intros Hk. unfold tally. rewrite map_fold_insert_L; [done|lia|done]. Qed.
Lemma tally_delete f m k a : m !! k = Some a → tally f (delete k m) = tally f m - f a.
Proof.
  intros Hk. rewrite <-(insert_delete_id m k a) at 2 by done.
  rewrite tally_new by apply lookup_delete_eq. lia.
Qed.
Lemma tally_update f m k a a' :
  m !! k = Some a → tally f (<[k:=a']> m) = tally f m - f a + f a'.
Proof.
  intros Hk. rewrite <-insert_delete_eq, tally_new by apply lookup_delete_eq.
  rewrite (tally_delete f m k a) by done. lia.
Qed.
Lemma tally_nonneg f m : (∀ a, 0 ≤ f a) → 0 ≤ tally f m.
Proof.
  intros Hf. induction m as [|k a m Hk IH] using map_ind; [by rewrite tally_empty|].
  rewrite tally_new by done. specialize (Hf a). lia.
Qed.
Lemma tally_le f g m : (∀ a, f a ≤ g a) → tally f m ≤ tally g m.
Proof.
  intros Hf. induction m as [|k a m Hk IH] using map_ind; [by rewrite !tally_empty|].
  rewrite !tally_new by done. specialize (Hf a). lia.
Qed.
End tally.

Section load_test.
Context `{PG : Postgres} `{STO : Storage} `{CO : Codecs}.
Context (sv : Service) (c : Caller) (error_text : RpcError → string).
Context (topic : string) (msgSize : nat).

(** [make([]byte, *msgSize)] *)
Fixpoint zero_bytes (n : nat) : string :=
  match n with O => EmptyString | S n' => String "000" (zero_bytes n') end.
Definition payload : string := zero_bytes msgSize.

Record LoadTest := mkLoadTest {
  cancelled : bool;
  producers : gmap nat Producer;
  consumers : gmap nat Worker;
  enqueueStats : stats;
  dequeueAckStats : stats;
  lt_world : World;
}.

Definition set_producer (n : nat) (p : Producer) (st : stats) (w : World) (t : LoadTest) : LoadTest :=
  mkLoadTest (cancelled t) (<[n:=p]> (producers t)) (consumers t) st (dequeueAckStats t) w.
Definition set_consumer (n : nat) (k : Worker) (st : stats) (w : World) (t : LoadTest) : LoadTest :=
  mkLoadTest (cancelled t) (producers t) (<[n:=k]> (consumers t)) (enqueueStats t) st w.

(** The text [record] gets. *)
Definition outcome_text {A} (r : result RpcError A) : option string :=
  match r with Ok _ => None | Err x => Some (error_text x) end.

(** The context is cancelled; the next statement of a producer or a consumer, with the fate
    of the call it makes and the time since its start. *)
Inductive LoadEvent :=
| ev_cancel
| ev_producer (n : nat) (f : fate) (elapsed : Z) (e : Env)
| ev_consumer (n : nat) (f : fate) (elapsed : Z) (e : Env).

Definition producer_step (n : nat) (f : fate) (elapsed : Z) (e : Env) (p : Producer) (t : LoadTest)
    : option LoadTest :=
  match p with
  | p_checking =>
      if cancelled t then Some (set_producer n p_stopped (enqueueStats t) (lt_world t) t)
      else
        let '(r, w) := call f (rpc_run (rpc_Enqueue sv c (mkEnqueueRequest topic payload None None)) e)
                         (lt_world t) in
        Some (set_producer n (p_answered r) (enqueueStats t) w t)
  | p_answered r =>
      if cancelled t then Some (set_producer n p_stopped (enqueueStats t) (lt_world t) t)
      else Some (set_producer n p_checking (record elapsed (outcome_text r) (enqueueStats t)).2
                   (lt_world t) t)
  | p_stopped => None
  end.

Definition consumer_step (n : nat) (f : fate) (elapsed : Z) (e : Env) (k : Worker) (t : LoadTest)
    : option LoadTest :=
  let st := dequeueAckStats t in
  match k with
  | c_checking =>
      if cancelled t then Some (set_consumer n c_stopped st (lt_world t) t)
      else
        let '(r, w) := call f (rpc_run (rpc_Dequeue sv c (mkDequeueRequest topic None "")) e)
                         (lt_world t) in
        Some (set_consumer n (c_dequeued r) st w t)
  | c_dequeued r =>
      if cancelled t then Some (set_consumer n c_stopped st (lt_world t) t)
      else
        match r with
        | Err (Status NotFound) => Some (set_consumer n c_checking st (lt_world t) t)
        | Err x => Some (set_consumer n c_checking (record 0 (Some (error_text x)) st).2 (lt_world t) t)
        | Ok resp =>
            let '(r, w) := call f (rpc_run (rpc_Ack c (mkAckRequest (res_Id resp) "")) e) (lt_world t) in
            Some (set_consumer n (c_acked r) st w t)
        end
  | c_acked r =>
      if cancelled t then Some (set_consumer n c_stopped st (lt_world t) t)
      else Some (set_consumer n c_checking (record elapsed (outcome_text r) st).2 (lt_world t) t)
  | c_stopped => None
  end.

Definition load_event (ev : LoadEvent) (t : LoadTest) : option LoadTest :=
  match ev with
  | ev_cancel =>
      Some (mkLoadTest true (producers t) (consumers t) (enqueueStats t) (dequeueAckStats t) (lt_world t))
  | ev_producer n f elapsed e => p ← producers t !! n; producer_step n f elapsed e p t
  | ev_consumer n f elapsed e => k ← consumers t !! n; consumer_step n f elapsed e k t
  end.

Definition load_step (t t' : LoadTest) : Prop := ∃ ev, load_event ev t = Some t'.

Definition no_stats : stats := mkStats [] 0 "".
(** As [main] starts the goroutines. *)
Definition start_load (np nc : nat) (w : World) : LoadTest :=
  mkLoadTest false (gset_to_gmap p_checking (set_seq 0 np)) (gset_to_gmap c_checking (set_seq 0 nc))
    no_stats no_stats w.

(** ** What the calls do *)

Context `{LAWS : !PostgresLaws} `{SLAWS : !StorageLaws}.

(** The lookups of grants and topics leave the world as it is. *)
Lemma grants_lookup uid e w :
  w_faults w = [] → try (GetUserGrants uid) e w = (Ok (Ok (grants_of uid (w_db w))), w).
Proof. intros Hf. unfold GetUserGrants, ListGrants. by rewrite run_try, pool_query_quiet. Qed.

Lemma checkGrant_same action t e w r w' :
  w_faults w = [] → checkGrant c action t e w = (r, w') → w' = w ∧ ∃ g, r = Ok g.
Proof.
  intros Hf. unfold checkGrant. destruct (restricted c) as [uid|]; [|intros [= <- <-]; eauto].
  rewrite run_bind, grants_lookup by done. case_match; intros [= <- <-]; eauto.
Qed.

Lemma checkDequeueGrant_same t g e w r w' :
  w_faults w = [] → checkDequeueGrant c t g e w = (r, w') → w' = w ∧ ∃ g, r = Ok g.
Proof.
  intros Hf. unfold checkDequeueGrant. destruct (restricted c) as [uid|]; [|intros [= <- <-]; eauto].
  rewrite run_bind, grants_lookup by done. case_match; intros [= <- <-]; eauto.
Qed.

(** What an [Enqueue] has done to the rows of [messages]. *)
Definition enqueue_effect {A B} (r : result A B) (ms ms' : gmap uuid MessageRow) : Prop :=
  match r with
  | Ok _ => ∃ i row, ms !! i = None ∧ m_topic row = topic ∧ m_status row = pending ∧
      ms' = <[i:=row]> ms
  | Err _ => ms' = ms
  end.

Lemma enqueue_effect_spec e w r w' :
  in_step w → rpc_run (rpc_Enqueue sv c (mkEnqueueRequest topic payload None None)) e w = (r, w') →
  in_step w' ∧ enqueue_effect r (messages (w_db w)) (messages (w_db w')).
Proof.
  intros Hin. pose proof Hin as [Hc Hf]. unfold rpc_run, rpc_Enqueue. cbn [enq_Topic enq_Payload enq_Metadata enq_Key].
  case_bool_decide; [by intros [= <- <-]|]. case_bool_decide; [by intros [= <- <-]|].
  unfold rpc_bind. rewrite run_bind. destruct (checkGrant c "write" topic e w) as [a w0] eqn:Hg.
  apply checkGrant_same in Hg as [-> [[u|x] ->]]; [|by intros [= <- <-]|done].
  rewrite run_bind, run_try.
  pose proof (Enqueue_in_step sv topic payload None None e w Hin) as Hin'.
  pose proof (enqueue_simulates sv topic payload None None e w Hc) as [_ Hi].
  pose proof (implements_calm _ _ _ _ Hi (Enqueue_calm sv topic payload None None) Hf) as Hrun.
  destruct (Enqueue sv topic payload None None e w) as [a w1] eqn:Henq. simpl in *.
  destruct (enqueue_on_tables sv topic payload None None e (w_db w)) as [[id db']|x] eqn:Href.
  - destruct Hrun as [-> Hdb]. simpl. intros [= <- <-]. split; [done|].
    apply (Enqueue_Ok sv topic payload None None e w id w1) in Henq as (_ & _ & Hacc); [|done].
    apply accepted_on_tables_Ok in Hacc as [Hq _]. unfold sql_enqueue in Hq.
    case_decide; [|done].
    destruct (conflicting_row topic None (w_db w)) as [[j rj]|] eqn:Hconf.
    { apply conflicting_row_Some in Hconf as (_ & _ & _ & _ & Hk). done. }
    destruct (insert_message _ _ _ _) as [db1|] eqn:Hins; [|done].
    apply insert_message_Ok in Hins as (Hnone & _ & Hms & _). simplify_eq. simpl.
    eexists _, _. split_and!; [exact Hnone|..|exact Hms]; done.
  - destruct Hrun as [-> Hdb]. intros Heq. assert (w' = w1) as -> by (destruct x; by simplify_eq/=).
    split; [done|]. rewrite <-Hdb. by destruct x; simplify_eq/=.
Qed.

(** What a [Dequeue] has done. *)
Definition dequeue_effect (r : result Code DequeueResponse) (ms ms' : gmap uuid MessageRow) : Prop :=
  match r with
  | Ok resp => ∃ row row', ms !! res_Id resp = Some row ∧ m_topic row = topic ∧
      m_status row = pending ∧ m_topic row' = topic ∧ m_status row' = processing ∧
      ms' = <[res_Id resp:=row']> ms
  | Err _ => ms' = ms
  end.

Lemma dequeue_effect_spec e w r w' :
  in_step w → rpc_run (rpc_Dequeue sv c (mkDequeueRequest topic None "")) e w = (r, w') →
  in_step w' ∧ dequeue_effect r (messages (w_db w)) (messages (w_db w')).
Proof.
  intros Hin. pose proof Hin as [_ Hf]. unfold rpc_run, rpc_Dequeue.
  cbn [deq_Topic deq_VisibilityTimeoutSeconds deq_ConsumerGroup resolveVisibilityTimeoutFromProto].
  case_bool_decide; [by intros [= <- <-]|].
  unfold rpc_bind. rewrite run_bind. destruct (checkDequeueGrant c topic "" e w) as [a w0] eqn:Hg.
  apply checkDequeueGrant_same in Hg as [-> [[u|x] ->]]; [|by intros [= <- <-]|done].
  rewrite run_bind, run_try. unfold dequeue_for. rewrite bool_decide_true by done.
  destruct (dequeues_in_step sv topic "" 1 0) as [Hstep _]. specialize (Hstep e w Hin).
  destruct (Dequeue sv topic 0 e w) as [[msg|x] w1] eqn:Hd; simpl in *.
  - intros [= <- <-]. split; [done|].
    apply Dequeue_Ok in Hd as (row & fs & tt' & tx & Hsel & _ & ->). simpl.
    assert ((ID msg, row) ∈ select_messages (eligible (pg_now e) topic) 1 e (w_db w)) as Hrow
      by (rewrite Hsel; by left).
    apply select_messages_elem in Hrow as (Hrow & Hel & _). simpl in Hel.
    destruct Hel as (Ht & Hp & _). eexists _, _. split_and!; [exact Hrow|done|done|..|reflexivity]; done.
  - intros Heq. assert (w' = w1) as -> by (destruct x; by simplify_eq/=). split; [done|].
    destruct (Dequeue_calm sv topic 0 e w Hf) as [_ Hx]. rewrite Hd in Hx.
    assert (run_call sv (do_Dequeue topic 0) e w = (Err x, w1)) as Hcall.
    { simpl. unfold discard. by rewrite run_bind, Hd. }
    apply run_call_spends in Hcall as [tt' Hdb]; [|done|by apply Hx].
    rewrite Hdb. by destruct x; simplify_eq/=.
Qed.

(** What an [Ack] has done. *)
Definition ack_effect {A B} (i : uuid) (r : result A B) (ms ms' : gmap uuid MessageRow) : Prop :=
  match r with
  | Ok _ => ms' = delete i ms
  | Err _ => ms' = ms
  end.

Lemma ack_effect_spec i e w r w' :
  in_step w → rpc_run (rpc_Ack c (mkAckRequest i "")) e w = (r, w') →
  in_step w' ∧ ack_effect i r (messages (w_db w)) (messages (w_db w')).
Proof.
  intros Hin. pose proof Hin as [_ Hf]. unfold rpc_run, rpc_Ack. cbn [ack_Id ack_ConsumerGroup].
  case_bool_decide; [by intros [= <- <-]|].
  unfold rpc_bind at 1. unfold topic_of, TopicForMessage. rewrite run_bind, run_bind, run_try, run_bind, pool_query_quiet by done.
  destruct (messages (w_db w) !! i) as [row|]; simpl; [|by intros [= <- <-]].
  unfold rpc_bind. rewrite run_bind.
  destruct (checkDequeueGrant c (m_topic row) "" e w) as [a w0] eqn:Hg.
  apply checkDequeueGrant_same in Hg as [-> [[u|x] ->]]; [|by intros [= <- <-]|done].
  unfold settle. rewrite run_bind, run_try.
  destruct (settlements_in_step sv i "" "") as [Hstep _]. specialize (Hstep e w Hin).
  pose proof (implements_calm _ _ _ _ (ack_implements i e w) (Ack_calm i) Hf) as Hack.
  destruct (Ack i e w) as [a w1]. simpl in *.
  destruct (ack_on_tables i e (w_db w)) as [[[] db']|x] eqn:Href; destruct Hack as [-> Hdb].
  - intros [= <- <-]. split; [done|]. rewrite Hdb. unfold ack_on_tables in Href.
    destruct (messages (w_db w) !! i); [|done]. case_decide; [|done].
    destruct (archive_on_tables i (m_topic m) (log_of_message m) e (w_db w)) as [db1|] eqn:Har; [|done].
    apply archive_on_tables_Ok in Har as (Hms & _). injection Href as <-.
    by rewrite delete_message_messages, Hms.
  - intros Heq. assert (w' = w1) as -> by (destruct x; by simplify_eq/=). split; [done|].
    rewrite Hdb. by destruct x; simplify_eq/=.
Qed.

(** ** What the calls add up to *)

(** The rows of the topic, and those of them that have been claimed. *)
Definition of_topic (r : MessageRow) : Z := if decide (m_topic r = topic) then 1 else 0.
Definition claimed (r : MessageRow) : Z :=
  if decide (m_topic r = topic ∧ m_status r = processing) then 1 else 0.

Lemma of_topic_1 r : m_topic r = topic → of_topic r = 1.
Proof. intros. unfold of_topic. by rewrite decide_True. Qed.
Lemma claimed_0 r : m_status r = pending → claimed r = 0.
Proof. intros Hp. unfold claimed. rewrite decide_False; [done|]. intros [_ ?]. congruence. Qed.
Lemma claimed_1 r : m_topic r = topic → m_status r = processing → claimed r = 1.
Proof. intros. unfold claimed. by rewrite decide_True. Qed.

(** A call with its fate: whether it was carried out, and what is known of that. *)
Lemma call_cases {A} f (m : World → result Code A * World) w r w' :
  call f m w = (r, w') →
  (r = Err Unavailable ∧ w' = w) ∨
  ∃ r0, m w = (r0, w') ∧ (r = Err Unavailable ∨ match r0 with Ok a => r = Ok a | Err x => r = Err (Status x) end).
Proof.
  unfold call. destruct f; [|intros [= <- <-]; by left|].
  - destruct (m w) as [r0 w1]. intros [= <- <-]. right. exists r0. split; [done|]. right. by destruct r0.
  - intros [= <- <-]. right. exists (m w).1. split; [by destruct (m w)|by left].
Qed.

(** What an answer says about what was carried out, [d] times. *)
Definition tells {A} (r : result RpcError A) (d : Z) : Prop :=
  match r with Ok _ => d = 1 | Err (Status _) => d = 0 | Err Unavailable => 0 ≤ d ≤ 1 end.

Lemma producer_call f e w r w' :
  in_step w →
  call f (rpc_run (rpc_Enqueue sv c (mkEnqueueRequest topic payload None None)) e) w = (r, w') →
  in_step w' ∧ ∃ d, tells r d ∧
    tally of_topic (messages (w_db w')) = tally of_topic (messages (w_db w)) + d ∧
    tally claimed (messages (w_db w')) = tally claimed (messages (w_db w)) ∧
    ∀ i row, messages (w_db w) !! i = Some row → messages (w_db w') !! i = Some row.
Proof.
  intros Hin [[-> ->]|(r0 & Hm & Hr)]%call_cases; [split; [done|]; exists 0; split_and!; simpl; done || lia|].
  apply enqueue_effect_spec in Hm as [Hin' Heff]; [|done]. split; [done|].
  destruct r0 as [id|x]; simpl in Heff.
  - destruct Heff as (i & row & Hi & Ht & Hp & ->). exists 1.
    split; [by destruct Hr as [-> | ->]; simpl|]. rewrite !tally_new, of_topic_1, claimed_0 by done.
    split_and!; [lia|lia|]. intros j rj Hj. rewrite lookup_insert_ne; [done|]. intros ->. congruence.
  - rewrite Heff. exists 0. split; [by destruct Hr as [-> | ->]; simpl|]. split_and!; [lia|done|done].
Qed.

Lemma dequeue_call f e w r w' :
  in_step w →
  call f (rpc_run (rpc_Dequeue sv c (mkDequeueRequest topic None "")) e) w = (r, w') →
  in_step w' ∧ ∃ d, tells r d ∧
    tally of_topic (messages (w_db w')) = tally of_topic (messages (w_db w)) ∧
    tally claimed (messages (w_db w')) = tally claimed (messages (w_db w)) + d ∧
    (∀ i row, messages (w_db w) !! i = Some row → m_status row = processing →
       messages (w_db w') !! i = Some row) ∧
    ∀ resp, r = Ok resp → (∃ row, messages (w_db w) !! res_Id resp = Some row ∧ m_status row = pending) ∧
      ∃ row, messages (w_db w') !! res_Id resp = Some row ∧ m_topic row = topic ∧ m_status row = processing.
Proof.
  intros Hin [[-> ->]|(r0 & Hm & Hr)]%call_cases;
    [split; [done|]; exists 0; split_and!; simpl; done || lia|].
  apply dequeue_effect_spec in Hm as [Hin' Heff]; [|done]. split; [done|].
  destruct r0 as [resp|x]; simpl in Heff.
  - destruct Heff as (row & row' & Hi & Ht & Hp & Ht' & Hp' & ->). exists 1.
    split; [by destruct Hr as [-> | ->]; simpl|].
    rewrite !(tally_update _ _ _ row), !of_topic_1, claimed_0, claimed_1 by done.
    split_and!; [lia|lia| |].
    + intros j rj Hj Hpj. rewrite lookup_insert_ne; [done|]. intros <-. congruence.
    + intros resp' Hresp. destruct Hr as [-> | ->]; simplify_eq. split; [eauto|].
      exists row'. by rewrite lookup_insert_eq.
  - rewrite Heff. exists 0. split; [by destruct Hr as [-> | ->]; simpl|].
    split_and!; [done|lia|done|]. intros resp ->. by destruct Hr.
Qed.

Lemma ack_call f e i row w r w' :
  in_step w → messages (w_db w) !! i = Some row → m_topic row = topic → m_status row = processing →
  call f (rpc_run (rpc_Ack c (mkAckRequest i "")) e) w = (r, w') →
  in_step w' ∧ ∃ d, tells r d ∧
    tally of_topic (messages (w_db w')) = tally of_topic (messages (w_db w)) - d ∧
    tally claimed (messages (w_db w')) = tally claimed (messages (w_db w)) - d ∧
    ∀ j rj, messages (w_db w) !! j = Some rj → j ≠ i → messages (w_db w') !! j = Some rj.
Proof.
  intros Hin Hi Ht Hp [[-> ->]|(r0 & Hm & Hr)]%call_cases;
    [split; [done|]; exists 0; split_and!; simpl; done || lia|].
  apply ack_effect_spec in Hm as [Hin' Heff]; [|done]. split; [done|].
  destruct r0 as [u|x]; simpl in Heff; rewrite Heff.
  - exists 1. split; [by destruct Hr as [-> | ->]; simpl|].
    rewrite !(tally_delete _ _ _ row), of_topic_1, claimed_1 by done.
    split_and!; [lia|lia|]. intros j rj Hj Hne. by rewrite lookup_delete_ne.
  - exists 0. split; [by destruct Hr as [-> | ->]; simpl|]. split_and!; [lia|lia|done].
Qed.

(** ** The accounts *)

(** What is not yet in the statistics: a call known to be carried out, one that may be, a
    message that may be claimed; a goroutine that is not at the head of its loop. *)
Definition p_sure (p : Producer) : Z := match p with p_answered (Ok _) => 1 | _ => 0 end.
Definition p_busy (p : Producer) : Z := match p with p_checking => 0 | _ => 1 end.
Definition k_sure (k : Worker) : Z := match k with c_acked (Ok _) => 1 | _ => 0 end.
Definition k_acking (k : Worker) : Z :=
  match k with c_acked (Ok _) | c_acked (Err Unavailable) | c_stopped => 1 | _ => 0 end.
Definition k_holds (k : Worker) : Z :=
  match k with
  | c_dequeued (Ok _) | c_dequeued (Err Unavailable) | c_acked (Err _) | c_stopped => 1
  | _ => 0
  end.
Definition k_busy (k : Worker) : Z := match k with c_checking => 0 | _ => 1 end.

Definition count (st : stats) : Z := Z.of_nat (length (samples st)).

Lemma record_sample d s : count (record d None s).2 = count s + 1 ∧ errors (record d None s).2 = errors s.
Proof. unfold count. simpl. rewrite length_app. simpl. lia. Qed.
Lemma record_error d x s :
  count (record d (Some x) s).2 = count s ∧ errors (record d (Some x) s).2 = errors s + 1.
Proof. simpl. by case_bool_decide. Qed.

Definition held (t : LoadTest) (n : nat) (i : uuid) : Prop :=
  ∃ resp, consumers t !! n = Some (c_dequeued (Ok resp)) ∧ res_Id resp = i.

(** [stock] rows of the topic and [taken] claimed ones were there before the test. *)
Record load_ok (stock taken : Z) (t : LoadTest) : Prop := {
  lo_step : in_step (lt_world t);
  lo_stock : ∃ sent gone,
    tally of_topic (messages (w_db (lt_world t))) + count (dequeueAckStats t) + gone =
      stock + count (enqueueStats t) + sent ∧
    tally p_sure (producers t) ≤ sent ≤ errors (enqueueStats t) + tally p_busy (producers t) ∧
    tally k_sure (consumers t) ≤ gone ≤ errors (dequeueAckStats t) + tally k_acking (consumers t);
  lo_taken : tally claimed (messages (w_db (lt_world t))) ≤
    taken + errors (dequeueAckStats t) + tally k_holds (consumers t);
  lo_held n i : held t n i → ∃ row, messages (w_db (lt_world t)) !! i = Some row ∧
    m_topic row = topic ∧ m_status row = processing;
  lo_apart n m i : held t n i → held t m i → n = m;
}.

Lemma producer_step_ok stock taken n f d e p t t' :
  load_ok stock taken t → producers t !! n = Some p → producer_step n f d e p t = Some t' →
  load_ok stock taken t'.
Proof.
  intros [Hin (sent & gone & Hcount & Hsent & Hgone) Htaken Hheld Hapart] Hp Hstep.
  unfold producer_step in Hstep. destruct p as [|r|]; [| |done].
  - destruct (cancelled t).
    + simplify_eq. split; simpl; try done. exists sent, gone.
      rewrite !(tally_update _ _ n _ _ Hp). simpl. lia.
    + destruct (call _ _ _) as [r w] eqn:Hc. simplify_eq.
      apply producer_call in Hc as (Hin' & k & Htell & Hs & Hcl & Hrows); [|done].
      split; simpl; [done| |by rewrite Hcl| |done].
      * exists (sent + k), gone. rewrite !(tally_update _ _ n _ _ Hp). simpl.
        destruct r as [id|[x|]]; simpl in *; lia.
      * intros m i Hm. destruct (Hheld m i Hm) as (row & Hrow & Ht & Hst). eauto.
  - destruct (cancelled t).
    + simplify_eq. split; simpl; try done. exists sent, gone.
      rewrite !(tally_update _ _ n _ _ Hp). destruct r; simpl; lia.
    + simplify_eq. split; simpl; try done. destruct r as [id|x]; simpl outcome_text.
      * destruct (record_sample d (enqueueStats t)) as [-> ->]. exists (sent - 1), gone.
        rewrite !(tally_update _ _ n _ _ Hp). simpl. lia.
      * destruct (record_error d (error_text x) (enqueueStats t)) as [-> ->]. exists sent, gone.
        rewrite !(tally_update _ _ n _ _ Hp). simpl. lia.
Qed.

(** A consumer that goes on without holding a message. *)
Lemma released t n k i m st w :
  (∀ resp, k ≠ c_dequeued (Ok resp)) → held (set_consumer n k st w t) m i → m ≠ n ∧ held t m i.
Proof.
  intros Hk (resp & Hm & Hi). simpl in Hm. apply lookup_insert_Some in Hm as [[_ Heq]|[Hne Hm]];
    [by destruct (Hk resp)|]. split; [done|]. by exists resp.
Qed.

(** A step of a consumer that makes no call. *)
Lemma consumer_turn_ok stock taken n k k' st t :
  load_ok stock taken t → consumers t !! n = Some k → (∀ resp, k' ≠ c_dequeued (Ok resp)) →
  (∃ samples_ errors_, count st = count (dequeueAckStats t) + samples_ ∧
     errors st = errors (dequeueAckStats t) + errors_ ∧ k_sure k' ≤ k_sure k - samples_ ∧
     k_acking k - samples_ ≤ errors_ + k_acking k' ∧ k_holds k ≤ errors_ + k_holds k') →
  load_ok stock taken (set_consumer n k' st (lt_world t) t).
Proof.
  intros [Hin (sent & gone & Hcount & Hsent & Hgone) Htaken Hheld Hapart] Hk Hk' (a & b & Ha & Hb & H1 & H2 & H3).
  split; simpl.
  - done.
  - exists sent, (gone - a). rewrite !(tally_update _ _ n _ _ Hk). lia.
  - rewrite (tally_update _ _ n _ _ Hk). lia.
  - intros m i [_ Hm]%released; [|done]. by eapply Hheld.
  - intros m m' i [_ Hm]%released [_ Hm']%released; [|done..]. by eapply Hapart.
Qed.

Lemma consumer_dequeue_ok stock taken n f e t r w :
  load_ok stock taken t → consumers t !! n = Some c_checking →
  call f (rpc_run (rpc_Dequeue sv c (mkDequeueRequest topic None "")) e) (lt_world t) = (r, w) →
  load_ok stock taken (set_consumer n (c_dequeued r) (dequeueAckStats t) w t).
Proof.
  intros [Hin (sent & gone & Hcount & Hsent & Hgone) Htaken Hheld Hapart] Hk Hc.
  apply dequeue_call in Hc as (Hin' & d & Htell & Hs & Hcl & Hrows & Hgot); [|done].
  assert (∀ m i, held (set_consumer n (c_dequeued r) (dequeueAckStats t) w t) m i →
    (m = n ∧ ∃ resp, r = Ok resp ∧ res_Id resp = i) ∨ (m ≠ n ∧ held t m i)) as Hnew.
  { intros m i (resp & Hm & Hi). simpl in Hm.
    apply lookup_insert_Some in Hm as [[<- [= ->]]|[Hne Hm]]; [left; eauto|].
    right. split; [done|]. by exists resp. }
  split; simpl; [done| | | |].
  - exists sent, gone. rewrite !(tally_update _ _ n _ _ Hk). simpl. destruct r as [|[]]; simpl in *; lia.
  - rewrite (tally_update _ _ n _ _ Hk), Hcl. destruct r as [|[]]; simpl in *; lia.
  - intros m i [[-> (resp & -> & <-)]|[_ Hm]]%Hnew; [by apply Hgot|].
    destruct (Hheld m i Hm) as (row & Hrow & Ht & Hst). eauto.
  - assert (∀ m resp, r = Ok resp → held t m (res_Id resp) → False) as Hfresh.
    { intros m resp Hr Hm. destruct (Hgot resp Hr) as [(row & Hrow & Hp) _].
      destruct (Hheld _ _ Hm) as (row' & Hrow' & _ & Hst). congruence. }
    intros m m' i [[-> (resp & Hr & <-)]|[_ Hm]]%Hnew [[-> (resp' & Hr' & Hi)]|[_ Hm']]%Hnew;
      [done|by destruct (Hfresh m' resp)| |by eapply Hapart].
    rewrite <-Hi in Hm. by destruct (Hfresh m resp').
Qed.

Lemma consumer_ack_ok stock taken n f e t resp r w :
  load_ok stock taken t → consumers t !! n = Some (c_dequeued (Ok resp)) →
  call f (rpc_run (rpc_Ack c (mkAckRequest (res_Id resp) "")) e) (lt_world t) = (r, w) →
  load_ok stock taken (set_consumer n (c_acked r) (dequeueAckStats t) w t).
Proof.
  intros [Hin (sent & gone & Hcount & Hsent & Hgone) Htaken Hheld Hapart] Hk Hc.
  assert (held t n (res_Id resp)) as Hown by by exists resp.
  destruct (Hheld _ _ Hown) as (row & Hrow & Ht & Hst).
  eapply ack_call in Hc as (Hin' & d & Htell & Hs & Hcl & Hrows); [|done..].
  split; simpl; [done| | | |].
  - exists sent, (gone + d). rewrite !(tally_update _ _ n _ _ Hk). simpl. destruct r as [|[]]; simpl in *; lia.
  - rewrite (tally_update _ _ n _ _ Hk), Hcl. simpl. destruct r as [|[]]; simpl in *; lia.
  - intros m i [Hne Hm]%released; [|done].
    destruct (Hheld m i Hm) as (row' & Hrow' & Ht' & Hst'). exists row'. split; [|done].
    apply Hrows; [done|]. intros ->. by apply Hne, (Hapart m n (res_Id resp)).
  - intros m m' i [_ Hm]%released [_ Hm']%released; [|done..]. by eapply Hapart.
Qed.

(** A consumer that records an error and starts again. *)
Lemma consumer_error_ok stock taken n k d x t :
  load_ok stock taken t → consumers t !! n = Some k → k_sure k = 0 →
  load_ok stock taken
    (set_consumer n c_checking (record d (Some x) (dequeueAckStats t)).2 (lt_world t) t).
Proof.
  intros Hok Hk Hsure. eapply consumer_turn_ok; [done|exact Hk|done|].
  destruct (record_error d x (dequeueAckStats t)) as [-> ->]. exists 0, 1. simpl.
  split_and!; try lia; destruct k as [|[|[]]|[|[]]|]; simpl in *; lia.
Qed.

Lemma consumer_step_ok stock taken n f d e k t t' :
  load_ok stock taken t → consumers t !! n = Some k → consumer_step n f d e k t = Some t' →
  load_ok stock taken t'.
Proof.
  intros Hok Hk Hstep. unfold consumer_step in Hstep.
  destruct (cancelled t), k as [|[resp|[x|]]|[u|x]|]; simplify_eq/=.
  all: try (eapply consumer_turn_ok; [done|exact Hk|done|]; exists 0, 0; simpl; try destruct x; simpl; split_and!; lia).
  - destruct (call _ _ _) as [r w] eqn:Hc. simplify_eq. by eapply consumer_dequeue_ok.
  - destruct (call _ _ _) as [r w] eqn:Hc. simplify_eq. by eapply consumer_ack_ok.
  - destruct x; simplify_eq; try (by eapply (consumer_error_ok _ _ _ _ 0)).
    eapply consumer_turn_ok; [done|exact Hk|done|]. exists 0, 0. simpl. split_and!; lia.
  - by eapply (consumer_error_ok _ _ _ _ 0).
  - eapply consumer_turn_ok; [done|exact Hk|done|].
    exists 1, 0. unfold count. simpl. rewrite length_app. simpl. split_and!; lia.
  - by eapply (consumer_error_ok _ _ _ _ 0).
Qed.

Lemma start_ok np nc w :
  in_step w →
  load_ok (tally of_topic (messages (w_db w))) (tally claimed (messages (w_db w))) (start_load np nc w).
Proof.
  intros Hin.
  assert (∀ (f : Producer → Z) (X : gset nat), f p_checking = 0 → tally f (gset_to_gmap p_checking X) = 0) as Hp.
  { intros f X Hf. induction X as [|x X Hx IH] using set_ind_L; [by rewrite gset_to_gmap_empty, tally_empty|].
    rewrite gset_to_gmap_union_singleton, tally_new, Hf, IH; [done|]. by apply lookup_gset_to_gmap_None. }
  assert (∀ (f : Worker → Z) (X : gset nat), f c_checking = 0 → tally f (gset_to_gmap c_checking X) = 0) as Hc.
  { intros f X Hf. induction X as [|x X Hx IH] using set_ind_L; [by rewrite gset_to_gmap_empty, tally_empty|].
    rewrite gset_to_gmap_union_singleton, tally_new, Hf, IH; [done|]. by apply lookup_gset_to_gmap_None. }
  assert (∀ n i, ¬ held (start_load np nc w) n i) as Hno.
  { intros n i (resp & Hn & _). simpl in Hn. by apply lookup_gset_to_gmap_Some in Hn as [_ ?]. }
  split; simpl; [done| | |intros n i H; by apply Hno in H|intros n m i H; by apply Hno in H].
  - exists 0, 0. rewrite !Hp, !Hc by done. unfold count. simpl. lia.
  - rewrite Hc by done. lia.
Qed.

Lemma load_ok_run stock taken t t' :
  load_ok stock taken t → rtc load_step t t' → load_ok stock taken t'.
Proof.
  intros Hok Hrun. revert Hok. induction Hrun as [|t1 t2 t3 [ev Hev] _ IH]; [done|].
  intros Hok. apply IH. destruct ev as [|n f d e|n f d e]; simpl in Hev.
  - simplify_eq. destruct Hok as [? ? ? Hh Ha]. split; simpl; try done.
  - destruct (producers t1 !! n) as [p|] eqn:Hp; [|done]. by eapply producer_step_ok.
  - destruct (consumers t1 !! n) as [k|] eqn:Hk; [|done]. by eapply consumer_step_ok.
Qed.

(** [C32] The accounts of a load test.  On a server without lost round trips that nobody else
    uses, whatever becomes of the calls and however the goroutines are interleaved: the
    samples of [Enqueue] are messages that were sent, and those of [Dequeue] and [Ack]
    messages that are gone; calls outside of the samples may have done the same, but not
    more of them than the errors counted and the goroutines that have not come back to the
    head of their loop.  And no more messages are left claimed, which nothing delivers
    again, than were claimed before, plus one for each error and for each such consumer. *)
Theorem load_test_accounts np nc w t :
  in_step w → rtc load_step (start_load np nc w) t →
  let rows t := tally of_topic (messages (w_db t)) in
  let left_claimed t := tally claimed (messages (w_db t)) in
  (∃ sent gone,
     rows (lt_world t) + (count (dequeueAckStats t) + gone) = rows w + (count (enqueueStats t) + sent) ∧
     0 ≤ sent ≤ errors (enqueueStats t) + tally p_busy (producers t) ∧
     0 ≤ gone ≤ errors (dequeueAckStats t) + tally k_busy (consumers t)) ∧
  left_claimed (lt_world t) ≤ left_claimed w + errors (dequeueAckStats t) + tally k_busy (consumers t).
Proof.
  intros Hin Hrun rows left_claimed.
  destruct (load_ok_run _ _ _ _ (start_ok np nc w Hin) Hrun) as [_ (sent & gone & Hc & Hs & Hg) Ht _ _].
  pose proof (tally_nonneg p_sure (producers t)) as Hps. pose proof (tally_nonneg k_sure (consumers t)) as Hks.
  pose proof (tally_le k_acking k_busy (consumers t)) as Hka.
  pose proof (tally_le k_holds k_busy (consumers t)) as Hkh.
  specialize (Hps ltac:(by intros [|[]|])). specialize (Hks ltac:(by intros [| |[]|])).
  specialize (Hka ltac:(by intros [| |[|[]]|])). specialize (Hkh ltac:(by intros [|[|[]]|[]|])).
  split; [exists sent, gone; unfold rows|unfold left_claimed]; lia.
Qed.

(** Once the context is cancelled, the next statement of a goroutine is its last, and makes
    no call and no entry in the statistics. *)
Lemma cancelled_returns t ev t' :
  cancelled t = true → load_event ev t = Some t' → lt_world t' = lt_world t ∧
  enqueueStats t' = enqueueStats t ∧ dequeueAckStats t' = dequeueAckStats t ∧
  match ev with
  | ev_cancel => producers t' = producers t ∧ consumers t' = consumers t
  | ev_producer n _ _ _ => producers t' = <[n:=p_stopped]> (producers t) ∧ consumers t' = consumers t
  | ev_consumer n _ _ _ => consumers t' = <[n:=c_stopped]> (consumers t) ∧ producers t' = producers t
  end.
Proof.
  intros Hc Hev. destruct ev as [|n f d e|n f d e]; simpl in Hev; [by simplify_eq|..].
  - destruct (producers t !! n) as [p|]; simpl in Hev; [|done]. unfold producer_step in Hev.
    rewrite Hc in Hev. destruct p; by simplify_eq.
  - destruct (consumers t !! n) as [k|]; simpl in Hev; [|done]. unfold consumer_step in Hev.
    rewrite Hc in Hev. destruct k; by simplify_eq.
Qed.
End load_test.
