(* ===== verification/Admin.v ===== *)
(** * The Go client: administration and login

    [clients/go-client]'s [admin.go] and [auth.go]: the requests of the admin client, what
    it makes of the answers, and the login that keeps a token.  HTTP is a function of the
    request and a state; the text of a document on the wire is abstract ([Wire]). *)

From S2P Require Import Prelude.
From S2P Require Import Store.
From S2P Require Import Avro.
From S2P Require Import Json.
From S2P Require Import Text.
From S2P Require Import Runtime.
From S2P Require Import Model.
From S2P Require Import Http.

(** ** HTTP *)

(** Texts of JSON documents: [json.Marshal], [json.Unmarshal], and the document a
    [json.Decoder] finds first. *)
Class Wire := {
  Document : Type;
  Marshal : json → Document;
  Unmarshal : Document → option json;
  first_document : Document → option json;
}.
Class WireLaws `{Wire} := {
  Unmarshal_Marshal j : Unmarshal (Marshal j) = Some j;
  first_document_Marshal j : first_document (Marshal j) = Some j;
}.

(** ** The server's documents

    The JSON of the structs [c.JSON] is given, and the struct [BodyParser] fills. *)

Definition enc_config (x : TopicConfig) : json := JObject
  ([("topic"%string, JString (Topic x))] ++
   omit_nil "max_retries" enc_int (MaxRetries x) ++
   omit_nil "message_ttl_seconds" enc_int (MessageTTLSeconds x) ++
   omit_nil "max_depth" enc_int (MaxDepth x) ++
   [("replayable"%string, JBool (Replayable x))] ++
   omit_nil "replay_window_seconds" enc_int (ReplayWindowSeconds x) ++
   omit_nil "throughput_limit" enc_int (ThroughputLimit x)).

(** [topicConfigResponse] has the client's fields and tags. *)
Definition enc_topicConfigResponse (r : topicConfigResponse) : json :=
  enc_config (mkTopicConfig (cr_Topic r) (cr_MaxRetries r) (cr_MessageTTLSeconds r)
    (cr_MaxDepth r) (cr_Replayable r) (cr_ReplayWindowSeconds r) (cr_ThroughputLimit r)).
Definition enc_topicSchemaResponse (r : topicSchemaResponse) : json := JObject
  [ ("topic", JString (tr_Topic r)); ("schema_json", JString (tr_SchemaJSON r));
    ("version", enc_int (tr_Version r)); ("updated_at", JString (tr_UpdatedAt r)) ]%string.
Definition enc_topicStatResponse (r : topicStatResponse) : json := JObject
  [ ("topic", JString (sr_Topic r)); ("status", JString (sr_Status r));
    ("count", enc_int (sr_Count r)) ]%string.

Definition enc_list {A} (name : string) (enc : A → json) (l : list A) : json :=
  JObject [(name, JArray (enc <$> l))].

(** The answers the client reads. *)
Definition document (b : ResponseBody) : option json :=
  match b with
  | json_auth_required b => Some (JObject [("auth_required"%string, JBool b)])
  | json_token token => Some (JObject [("token"%string, JString token)])
  | json_configs items => Some (enc_list "items" enc_topicConfigResponse items)
  | json_config r => Some (enc_topicConfigResponse r)
  | json_schemas items => Some (enc_list "items" enc_topicSchemaResponse items)
  | json_schema r => Some (enc_topicSchemaResponse r)
  | json_groups items => Some (enc_list "items" JString items)
  | json_stats topics => Some (enc_list "topics" enc_topicStatResponse topics)
  | _ => None
  end.

Definition dec_topicConfigRequest : Decoder topicConfigRequest := dec_struct
  [ field_of "max_retries" cb_MaxRetries (λ v x, mkConfigBody v (cb_MessageTTLSeconds x)
      (cb_MaxDepth x) (cb_Replayable x) (cb_ReplayWindowSeconds x) (cb_ThroughputLimit x))
      (dec_ptr dec_int 0);
    field_of "message_ttl_seconds" cb_MessageTTLSeconds (λ v x, mkConfigBody (cb_MaxRetries x) v
      (cb_MaxDepth x) (cb_Replayable x) (cb_ReplayWindowSeconds x) (cb_ThroughputLimit x))
      (dec_ptr dec_int 0);
    field_of "max_depth" cb_MaxDepth (λ v x, mkConfigBody (cb_MaxRetries x)
      (cb_MessageTTLSeconds x) v (cb_Replayable x) (cb_ReplayWindowSeconds x)
      (cb_ThroughputLimit x)) (dec_ptr dec_int 0);
    field_of "replayable" cb_Replayable (λ v x, mkConfigBody (cb_MaxRetries x)
      (cb_MessageTTLSeconds x) (cb_MaxDepth x) v (cb_ReplayWindowSeconds x)
      (cb_ThroughputLimit x)) (dec_ptr dec_bool false);
    field_of "replay_window_seconds" cb_ReplayWindowSeconds (λ v x, mkConfigBody (cb_MaxRetries x)
      (cb_MessageTTLSeconds x) (cb_MaxDepth x) (cb_Replayable x) v (cb_ThroughputLimit x))
      (dec_ptr dec_int 0);
    field_of "throughput_limit" cb_ThroughputLimit (λ v x, mkConfigBody (cb_MaxRetries x)
      (cb_MessageTTLSeconds x) (cb_MaxDepth x) (cb_Replayable x) (cb_ReplayWindowSeconds x) v)
      (dec_ptr dec_int 0) ].
Definition dec_topicSchemaRequest : Decoder topicSchemaRequest :=
  dec_struct [ field_of "schema_json" schema_json (λ v _, mkSchemaBody v) dec_string ].
Definition dec_registerConsumerGroupRequest : Decoder registerConsumerGroupRequest :=
  dec_struct [ field_of "consumer_group" gb_ConsumerGroup (λ v _, mkGroupBody v) dec_string ].

Section admin.
Context `{WI : Wire}.

Record HttpRequest := mkHttpRequest {
  rq_Method : string; rq_URL : string; rq_ContentType : option string;
  rq_Authorization : option string; rq_Body : option Document }.
(** A body of [None] cannot be read to its end. *)
Record HttpResponse := mkHttpResponse { rs_StatusCode : Z; rs_Body : option Document }.

Context {W : Type}.

(** [http.Client.Do]: [None] is an error, of building the request or of its transport. *)
Abbreviation HttpClient := (HttpRequest → W → option HttpResponse * W).

Definition ok_status (status : Z) : bool := (200 <=? status) && (status <? 300).

(** ** The admin client *)

Record AdminClient := mkAdminClient { baseURL : string; httpClient : HttpClient; token : string }.
Inductive AdminOption := WithAdminToken (token : string) | WithAdminHTTPClient (hc : HttpClient).

Definition apply_admin (c : AdminClient) (o : AdminOption) : AdminClient :=
  match o with
  | WithAdminToken token => mkAdminClient (baseURL c) (httpClient c) token
  | WithAdminHTTPClient hc => mkAdminClient (baseURL c) hc (token c)
  end.

Definition NewAdminClient (default_client : HttpClient) (baseURL : string)
    (opts : list AdminOption) : AdminClient :=
  foldl apply_admin (mkAdminClient baseURL default_client "") opts.

(** The errors a method wraps; [ErrNotFound] and [ErrConflict] are tested for by callers. *)
Inductive AdminError :=
| ErrRequest | adm_ErrNotFound | adm_ErrConflict | ErrUnexpectedStatus (status : Z) | ErrDecode.

Context (c : AdminClient).

(** The errors of an answer that is not 2xx. *)
Definition checked (resp : HttpResponse) : result AdminError HttpResponse :=
  let status := rs_StatusCode resp in
  if ok_status status then Ok resp
  else if status =? 404 then Err adm_ErrNotFound
  else if status =? 409 then Err adm_ErrConflict
  else Err (ErrUnexpectedStatus status).

Definition doRequest (method url : string) (body : option json) (w : W)
    : result AdminError HttpResponse * W :=
  let req := mkHttpRequest method url
               (match body with Some _ => Some "application/json"%string | None => None end)
               (if bool_decide (token c = "") then None else Some ("Bearer " +:+ token c)%string)
               (Marshal <$> body) in
  match httpClient c req w with
  | (None, w') => (Err ErrRequest, w')
  | (Some resp, w') => (checked resp, w')
  end.

(** [json.NewDecoder(resp.Body).Decode(&out)], or only the error. *)
Definition decoding {A} (d : Decoder A) (zero : A) (run : result AdminError HttpResponse * W)
    : result AdminError A * W :=
  match run with
  | (Err x, w) => (Err x, w)
  | (Ok resp, w) =>
      (match (j ← (text ← rs_Body resp; first_document text); Json.decode d zero j) with
       | Some a => Ok a | None => Err ErrDecode end, w)
  end.
Definition discarding (run : result AdminError HttpResponse * W) : result AdminError unit * W :=
  match run with (Err x, w) => (Err x, w) | (Ok _, w) => (Ok tt, w) end.

(** *** The documents

    The client's [TopicConfig], [TopicSchema] and [TopicStat] have the fields of the
    server's. *)

Definition zero_config : TopicConfig := mkTopicConfig "" None None None false None None.

Definition dec_config : Decoder TopicConfig := dec_struct
  [ field_of "topic" Topic (λ v x, mkTopicConfig v (MaxRetries x) (MessageTTLSeconds x)
      (MaxDepth x) (Replayable x) (ReplayWindowSeconds x) (ThroughputLimit x)) dec_string;
    field_of "max_retries" MaxRetries (λ v x, mkTopicConfig (Topic x) v (MessageTTLSeconds x)
      (MaxDepth x) (Replayable x) (ReplayWindowSeconds x) (ThroughputLimit x)) (dec_ptr dec_int 0);
    field_of "message_ttl_seconds" MessageTTLSeconds (λ v x, mkTopicConfig (Topic x)
      (MaxRetries x) v (MaxDepth x) (Replayable x) (ReplayWindowSeconds x) (ThroughputLimit x))
      (dec_ptr dec_int 0);
    field_of "max_depth" MaxDepth (λ v x, mkTopicConfig (Topic x) (MaxRetries x)
      (MessageTTLSeconds x) v (Replayable x) (ReplayWindowSeconds x) (ThroughputLimit x))
      (dec_ptr dec_int 0);
    field_of "replayable" Replayable (λ v x, mkTopicConfig (Topic x) (MaxRetries x)
      (MessageTTLSeconds x) (MaxDepth x) v (ReplayWindowSeconds x) (ThroughputLimit x)) dec_bool;
    field_of "replay_window_seconds" ReplayWindowSeconds (λ v x, mkTopicConfig (Topic x)
      (MaxRetries x) (MessageTTLSeconds x) (MaxDepth x) (Replayable x) v (ThroughputLimit x))
      (dec_ptr dec_int 0);
    field_of "throughput_limit" ThroughputLimit (λ v x, mkTopicConfig (Topic x) (MaxRetries x)
      (MessageTTLSeconds x) (MaxDepth x) (Replayable x) (ReplayWindowSeconds x) v)
      (dec_ptr dec_int 0) ].

Definition dec_schema : Decoder topicSchemaResponse := dec_struct
  [ field_of "topic" tr_Topic (λ v x, mkSchemaResponse v (tr_SchemaJSON x) (tr_Version x)
      (tr_UpdatedAt x)) dec_string;
    field_of "schema_json" tr_SchemaJSON (λ v x, mkSchemaResponse (tr_Topic x) v (tr_Version x)
      (tr_UpdatedAt x)) dec_string;
    field_of "version" tr_Version (λ v x, mkSchemaResponse (tr_Topic x) (tr_SchemaJSON x) v
      (tr_UpdatedAt x)) dec_int;
    field_of "updated_at" tr_UpdatedAt (λ v x, mkSchemaResponse (tr_Topic x) (tr_SchemaJSON x)
      (tr_Version x) v) dec_string ].

Definition dec_stat : Decoder topicStatResponse := dec_struct
  [ field_of "topic" sr_Topic (λ v x, mkStatResponse v (sr_Status x) (sr_Count x)) dec_string;
    field_of "status" sr_Status (λ v x, mkStatResponse (sr_Topic x) v (sr_Count x)) dec_string;
    field_of "count" sr_Count (λ v x, mkStatResponse (sr_Topic x) (sr_Status x) v) dec_int ].

(** The envelope of a list, a struct with one slice. *)
Definition dec_envelope {A} (name : string) (d : Decoder A) (zero : A) : Decoder (list A) :=
  dec_struct [ field_of name (λ l, l) (λ l _, l) (dec_slice d zero) ].

(** *** The methods *)

Definition zero_schema : topicSchemaResponse := mkSchemaResponse "" "" 0 "".
Definition zero_stat : topicStatResponse := mkStatResponse "" "" 0.

Definition config_url (topic : string) : string :=
  baseURL c +:+ "/api/topic-configs/" +:+ PathEscape topic.
Definition schema_url (topic : string) : string :=
  baseURL c +:+ "/api/topic-schemas/" +:+ PathEscape topic.
Definition groups_url (topic : string) : string :=
  baseURL c +:+ "/api/topics/" +:+ PathEscape topic +:+ "/consumer-groups".

Definition ListTopicConfigs (w : W) : result AdminError (list TopicConfig) * W :=
  decoding (dec_envelope "items" dec_config zero_config) []
    (doRequest "GET" (baseURL c +:+ "/api/topic-configs") None w).
Definition UpsertTopicConfig (topic : string) (cfg : TopicConfig) (w : W)
    : result AdminError TopicConfig * W :=
  decoding dec_config zero_config (doRequest "PUT" (config_url topic) (Some (enc_config cfg)) w).
Definition DeleteTopicConfig (topic : string) (w : W) : result AdminError unit * W :=
  discarding (doRequest "DELETE" (config_url topic) None w).

Definition ListTopicSchemas (w : W) : result AdminError (list topicSchemaResponse) * W :=
  decoding (dec_envelope "items" dec_schema zero_schema) []
    (doRequest "GET" (baseURL c +:+ "/api/topic-schemas") None w).
Definition GetTopicSchema (topic : string) (w : W) : result AdminError topicSchemaResponse * W :=
  decoding dec_schema zero_schema (doRequest "GET" (schema_url topic) None w).
Definition UpsertTopicSchema (topic schemaJSON : string) (w : W)
    : result AdminError topicSchemaResponse * W :=
  let body := JObject [("schema_json"%string, JString schemaJSON)] in
  decoding dec_schema zero_schema (doRequest "PUT" (schema_url topic) (Some body) w).
Definition DeleteTopicSchema (topic : string) (w : W) : result AdminError unit * W :=
  discarding (doRequest "DELETE" (schema_url topic) None w).

Definition ListConsumerGroups (topic : string) (w : W) : result AdminError (list string) * W :=
  decoding (dec_envelope "items" dec_string ""%string) []
    (doRequest "GET" (groups_url topic) None w).
Definition RegisterConsumerGroup (topic group : string) (w : W) : result AdminError unit * W :=
  let body := JObject [("consumer_group"%string, JString group)] in
  discarding (doRequest "POST" (groups_url topic) (Some body) w).
Definition UnregisterConsumerGroup (topic group : string) (w : W) : result AdminError unit * W :=
  discarding (doRequest "DELETE" (groups_url topic +:+ "/" +:+ PathEscape group) None w).

Definition Stats (w : W) : result AdminError (list topicStatResponse) * W :=
  decoding (dec_envelope "topics" dec_stat zero_stat) []
    (doRequest "GET" (baseURL c +:+ "/api/stats") None w).
End admin.

(** ** Documents and structs *)

Definition config_int64 (x : TopicConfig) : Prop :=
  int64_ptr_ok (MaxRetries x) ∧ int64_ptr_ok (MessageTTLSeconds x) ∧ int64_ptr_ok (MaxDepth x) ∧
  int64_ptr_ok (ReplayWindowSeconds x) ∧ int64_ptr_ok (ThroughputLimit x).

Ltac decode_members :=
  rewrite ?fold_left_app;
  repeat (first [ erewrite omit_nil_decodes; [|reflexivity|assumption|reflexivity]
                | erewrite member_decodes; [|reflexivity|reflexivity] ]).

Lemma decode_enc_config x :
  config_int64 x → Json.decode dec_config zero_config (enc_config x) = Some x.
Proof.
  intros (H1 & H2 & H3 & H4 & H5). unfold Json.decode, dec_config, enc_config, dec_struct.
  decode_members. by destruct x.
Qed.

Definition zero_config_request : topicConfigRequest := mkConfigBody None None None None None None.

Lemma request_enc_config x :
  config_int64 x →
  dec_topicConfigRequest zero_config_request (enc_config x) =
    (mkConfigBody (MaxRetries x) (MessageTTLSeconds x) (MaxDepth x) (Some (Replayable x))
       (ReplayWindowSeconds x) (ThroughputLimit x), true).
Proof.
  intros (H1 & H2 & H3 & H4 & H5). unfold dec_topicConfigRequest, enc_config, dec_struct.
  rewrite fold_left_app, (member_ignored _ "topic") by done. by decode_members.
Qed.

Lemma fold_members {A} (fields : list (string * Decoder A)) m ms acc :
  fold_left (dec_member fields) (m :: ms) acc =
  fold_left (dec_member fields) ms (fold_left (dec_member fields) [m] acc).
Proof. done. Qed.

Lemma decode_enc_schema r :
  int64_ok (tr_Version r) →
  dec_schema zero_schema (enc_topicSchemaResponse r) = (r, true).
Proof.
  intros Hv. unfold dec_schema, enc_topicSchemaResponse, dec_struct.
  do 3 rewrite (fold_members _ (_, _) (_ :: _)).
  do 2 (erewrite member_decodes; [|reflexivity|reflexivity]).
  erewrite member_decodes; [|reflexivity|].
  2: { unfold field_of. cbn [snd]. by rewrite dec_enc_int. }
  decode_members. by destruct r.
Qed.

Lemma decode_enc_stat r :
  int64_ok (sr_Count r) → dec_stat zero_stat (enc_topicStatResponse r) = (r, true).
Proof.
  intros Hv. unfold dec_stat, enc_topicStatResponse, dec_struct.
  do 2 rewrite (fold_members _ (_, _) (_ :: _)).
  do 2 (erewrite member_decodes; [|reflexivity|reflexivity]).
  erewrite member_decodes; [|reflexivity|].
  2: { unfold field_of. cbn [snd]. by rewrite dec_enc_int. }
  by destruct r.
Qed.

(** A list in its envelope. *)
Lemma decode_enc_list {A} name (d : Decoder A) zero (enc : A → json) l :
  Forall (λ a, d zero (enc a) = (a, true)) l →
  Json.decode (dec_envelope name d zero) [] (enc_list name enc l) = Some l.
Proof.
  intros Hall. unfold Json.decode, dec_envelope, enc_list, dec_struct.
  erewrite member_decodes; [done| |].
  - unfold field_named. rewrite filter_cons_True by done. done.
  - unfold field_of. cbn [snd]. unfold dec_slice. by rewrite dec_elements_map.
Qed.

(** ** [auth.go] *)

Section auth.
Context `{WI : Wire} {W : Type}.
Abbreviation HttpClient := (HttpRequest → W → option HttpResponse * W).

Record Auth := mkAuth {
  adminAddr : string; au_username : string; au_password : string; au_client : HttpClient;
  au_token : string }.

Definition set_token (t : string) (a : Auth) : Auth :=
  mkAuth (adminAddr a) (au_username a) (au_password a) (au_client a) t.

Inductive AuthError := AuthRequest | AuthRead | AuthStatus (n : Z) | AuthDecode | AuthEmptyToken.

(** Sending a request and reading the body of a 2xx answer. *)
Definition auth_exchange (a : Auth) (method path : string) (body : option json) (w : W)
    : result AuthError Document * W :=
  let req := mkHttpRequest method (adminAddr a +:+ path)
               (match body with Some _ => Some "application/json"%string | None => None end)
               None (Marshal <$> body) in
  match au_client a req w with
  | (None, w') => (Err AuthRequest, w')
  | (Some resp, w') =>
      (match rs_Body resp with
       | None => Err AuthRead
       | Some raw => if ok_status (rs_StatusCode resp) then Ok raw
                     else Err (AuthStatus (rs_StatusCode resp))
       end, w')
  end.

Definition auth_decode {A} (name : string) (d : Decoder A) (zero : A) (raw : Document)
    : result AuthError A :=
  match (j ← Unmarshal raw;
         Json.decode (dec_struct [field_of name (λ v, v) (λ v _, v) d]) zero j) with
  | Some v => Ok v
  | None => Err AuthDecode
  end.

Definition authRequired (a : Auth) (w : W) : result AuthError bool * W :=
  match auth_exchange a "GET" "/api/auth/status" None w with
  | (Err x, w') => (Err x, w')
  | (Ok raw, w') => (auth_decode "auth_required" dec_bool false raw, w')
  end.

(** [login]; a marshalled map has its keys in order. *)
Definition login (a : Auth) (w : W) : result AuthError Auth * W :=
  let body := JObject [("password", JString (au_password a));
                       ("username", JString (au_username a))]%string in
  match auth_exchange a "POST" "/api/auth/login" (Some body) w with
  | (Err x, w') => (Err x, w')
  | (Ok raw, w') =>
      (match auth_decode "token" dec_string ""%string raw with
       | Err x => Err x
       | Ok t => if bool_decide (t = ""%string) then Err AuthEmptyToken else Ok (set_token t a)
       end, w')
  end.

Inductive AuthOption := WithAuthHTTPClient (hc : HttpClient).
Definition apply_auth (a : Auth) (o : AuthOption) : Auth :=
  match o with
  | WithAuthHTTPClient hc => mkAuth (adminAddr a) (au_username a) (au_password a) hc (au_token a)
  end.

Definition NewAuth (default_client : HttpClient) (adminAddr username password : string)
    (opts : list AuthOption) (w : W) : result AuthError Auth * W :=
  let a := foldl apply_auth
             (mkAuth (TrimRight "/" adminAddr) username password default_client "") opts in
  match authRequired a w with
  | (Err x, w') => (Err x, w')
  | (Ok false, w') => (Ok a, w')
  | (Ok true, w') => login a w'
  end.

(** [Refresh]: the returned token, and the login as it is left. *)
Definition Refresh (a : Auth) (w : W) : result AuthError string * Auth * W :=
  if bool_decide (au_token a = "") then (Ok ""%string, a, w)
  else match login a w with
       | (Ok a', w') => (Ok (au_token a'), a', w')
       | (Err x, w') => (Err x, a, w')
       end.

(** Refreshes one after the other: what they return, and the login. *)
Fixpoint refreshes (n : nat) (a : Auth) (w : W) : list (result AuthError string) * Auth * W :=
  match n with
  | O => ([], a, w)
  | S n' =>
      let '(r, a', w') := Refresh a w in
      let '(rs, a'', w'') := refreshes n' a' w' in
      (r :: rs, a'', w'')
  end.

Lemma login_Ok a w a' w' :
  login a w = (Ok a', w') → au_token a' ≠ ""%string ∧ a' = set_token (au_token a') a.
Proof.
  unfold login. destruct (auth_exchange _ _ _ _ _) as [[raw|x] w1]; [|done].
  destruct (auth_decode _ _ _ raw) as [t|x]; [|done]. case_bool_decide; [done|]. by intros [= <- _].
Qed.

(** Refreshes of a login with a token. *)
Lemma refreshes_keep n : ∀ a w, au_token a ≠ ""%string →
  let '(answers, a', _) := refreshes n a w in
  au_token a' ≠ ""%string ∧
  Forall (λ r, match r with Ok t => t ≠ ""%string | Err _ => True end) answers ∧
  (Forall (λ r, match r with Ok _ => False | Err _ => True end) answers → a' = a) ∧
  (∀ t, last answers = Some (Ok t) → au_token a' = t).
Proof.
  induction n as [|n IH]; intros a w Ha; simpl.
  { split_and!; [done|by constructor|done|done]. }
  unfold Refresh. rewrite bool_decide_false by done.
  destruct (login a w) as [[a1|x] w1] eqn:Hl.
  - destruct (login_Ok _ _ _ _ Hl) as [Ha1 _]. specialize (IH a1 w1 Ha1).
    destruct (refreshes n a1 w1) as [[rs a2] w2]. destruct IH as (H1 & H2 & H3 & H4).
    split_and!; [done|by constructor|by inversion 1|].
    intros t. rewrite last_cons. destruct (last rs) as [r|] eqn:Hlast.
    + intros [= ->]. by apply H4.
    + intros [= <-]. apply last_None in Hlast as ->. by rewrite H3.
  - specialize (IH a w1 Ha). destruct (refreshes n a w1) as [[rs a2] w2].
    destruct IH as (H1 & H2 & H3 & H4). split_and!; [done|by constructor| |].
    + inversion 1; subst. by apply H3.
    + intros t. rewrite last_cons. destruct (last rs) as [r|] eqn:Hlast; [|done].
      intros [= ->]. by apply H4.
Qed.

Lemma refreshes_disabled n a w :
  au_token a = ""%string → refreshes n a w = (replicate n (Ok ""%string), a, w).
Proof.
  intros Ha. induction n as [|n IH]; simpl; [done|].
  unfold Refresh. by rewrite bool_decide_true, IH.
Qed.

(** A login never loses its token.  [NewAuth] yields a login whose token is empty exactly
    if the server says that it asks for none; an empty token stays empty, and is returned
    without any request.  A token that is not empty never becomes empty, whatever the
    refreshes meet: each returns the token it has stored, which is not empty, or an error,
    and an error keeps the old one. *)
Theorem auth_keeps_token default_client addr username password opts w a w1 n :
  NewAuth default_client addr username password opts w = (Ok a, w1) →
  let '(answers, a', w2) := refreshes n a w1 in
  let required := (authRequired (set_token "" a) w).1 in
  (au_token a = ""%string ↔ required = Ok false) ∧
  (required = Ok false → a' = a ∧ w2 = w1 ∧ answers = replicate n (Ok ""%string)) ∧
  (required = Ok true →
   au_token a' ≠ ""%string ∧
   Forall (λ r, match r with Ok t => t ≠ ""%string | Err _ => True end) answers ∧
   (Forall (λ r, match r with Ok _ => False | Err _ => True end) answers → a' = a) ∧
   (∀ t, last answers = Some (Ok t) → au_token a' = t)).
Proof.
  intros Hnew. unfold NewAuth in Hnew. set (a0 := foldl _ _ _) in *.
  assert (au_token a0 = ""%string) as Ht0.
  { unfold a0. clear. induction opts as [|[hc] os IH] using rev_ind; [done|].
    by rewrite foldl_app. }
  assert (set_token "" a0 = a0) as Ha0 by (by destruct a0; simpl in Ht0; subst).
  destruct (authRequired a0 w) as [[[]|x] w0] eqn:Hreq; [| |done].
  - destruct (login_Ok _ _ _ _ Hnew) as [Hne Ha].
    assert (set_token "" a = a0) as Hback by (rewrite Ha; exact Ha0).
    pose proof (refreshes_keep n a w1 Hne) as Hk.
    destruct (refreshes n a w1) as [[rs a'] w2]. rewrite Hback, Hreq. simpl.
    split_and!; [by split|done|]. by intros _.
  - injection Hnew as <- <-. rewrite (refreshes_disabled n a0 w0 Ht0), Ha0, Hreq. simpl.
    by split_and!.
Qed.
End auth.
