(* ===== verification/Seeder.v ===== *)
(** * The seeder

    [tools/seeder/seeder.go]: the validation of a seed file and the application of a seed
    through the admin client.  The seeder is proved against the
    interface [AdminLaws], what it relies on of the client and the server behind it. *)

From S2P Require Import Prelude.
From S2P Require Import Store.
From S2P Require Import Avro.
From S2P Require Import Runtime.
From S2P Require Import Model.
From S2P Require Import Http.
From S2P Require Import Admin.

(** ** The seed *)

Record TopicSchemaEntry := mkSchemaEntry { se_Topic : string; se_Schema : string }.
Record ConsumerGroupEntry := mkGroupEntry { ge_Topic : string; ge_Groups : list string }.
Record SeedFile := mkSeedFile {
  TopicConfigs : list TopicConfig; TopicSchemas : list TopicSchemaEntry;
  ConsumerGroups : list ConsumerGroupEntry }.

(** The sections of a seed file, and the position an error names. *)
Inductive seed_section := in_configs | in_schemas | in_groups.

Fixpoint first_empty {A} (topic : A → string) (i : nat) (l : list A) : option nat :=
  match l with
  | [] => None
  | x :: l' => if bool_decide (topic x = "") then Some i else first_empty topic (S i) l'
  end.

Definition validate (f : SeedFile) : option (seed_section * nat) :=
  match first_empty Topic 0 (TopicConfigs f) with
  | Some i => Some (in_configs, i)
  | None =>
      match first_empty se_Topic 0 (TopicSchemas f) with
      | Some i => Some (in_schemas, i)
      | None => pair in_groups <$> first_empty ge_Topic 0 (ConsumerGroups f)
      end
  end.

Lemma first_empty_None {A} (topic : A → string) i l :
  first_empty topic i l = None ↔ Forall (λ x, topic x ≠ ""%string) l.
Proof.
  revert i. induction l as [|x l IH]; intros i; simpl; [done|].
  rewrite Forall_cons. case_bool_decide; [naive_solver|]. rewrite IH. naive_solver.
Qed.

Lemma validate_None f :
  validate f = None ↔
  Forall (λ x, Topic x ≠ ""%string) (TopicConfigs f) ∧
  Forall (λ x, se_Topic x ≠ ""%string) (TopicSchemas f) ∧
  Forall (λ x, ge_Topic x ≠ ""%string) (ConsumerGroups f).
Proof.
  unfold validate. rewrite <-!(first_empty_None _ 0).
  destruct (first_empty Topic _ _); [naive_solver|].
  destruct (first_empty se_Topic _ _); [naive_solver|].
  destruct (first_empty ge_Topic _ _); naive_solver.
Qed.

(** ** The admin client as the seeder sees it *)

Class AdminAPI (W : Type) := {
  api_UpsertTopicConfig : string → TopicConfig → W → result AdminError TopicConfig * W;
  api_UpsertTopicSchema : string → string → W → result AdminError topicSchemaResponse * W;
  api_ListConsumerGroups : string → W → result AdminError (list string) * W;
  api_RegisterConsumerGroup : string → string → W → result AdminError unit * W;
}.

(** What a line of the log says. *)
Inductive LogLine :=
| would_upsert_config (topic : string) | upserted_config (topic : string)
| would_upsert_schema (topic : string) | upserted_schema (topic : string)
| no_groups (topic : string) | would_register (topic group : string)
| group_exists (topic group : string) | registered (topic group : string)
| seeding_complete.

(** The step that failed. *)
Inductive SeedError :=
| config_failed (topic : string) (x : AdminError)
| schema_failed (topic : string) (x : AdminError)
| list_failed (topic : string) (x : AdminError)
| register_failed (topic group : string) (x : AdminError).

Section seeder.
Context {W : Type} `{API : AdminAPI W} (dryRun : bool).

(** A step that may fail, writes to the log and calls the server. *)
Abbreviation Step := (W → result SeedError unit * list LogLine * W).

(** The steps of a loop; the first error ends it. *)
Fixpoint each {A} (step : A → Step) (l : list A) (w : W) : result SeedError unit * list LogLine * W :=
  match l with
  | [] => (Ok tt, [], w)
  | x :: l' =>
      match step x w with
      | (Err e, logs, w') => (Err e, logs, w')
      | (Ok _, logs, w') => let '(r, logs', w'') := each step l' w' in (r, logs ++ logs', w'')
      end
  end.

Definition applyTopicConfigs : list TopicConfig → Step := each (λ cfg w,
  if dryRun then (Ok tt, [would_upsert_config (Topic cfg)], w)
  else match api_UpsertTopicConfig (Topic cfg) cfg w with
       | (Err x, w') => (Err (config_failed (Topic cfg) x), [], w')
       | (Ok _, w') => (Ok tt, [upserted_config (Topic cfg)], w')
       end).

Definition applyTopicSchemas : list TopicSchemaEntry → Step := each (λ schema w,
  if dryRun then (Ok tt, [would_upsert_schema (se_Topic schema)], w)
  else match api_UpsertTopicSchema (se_Topic schema) (se_Schema schema) w with
       | (Err x, w') => (Err (schema_failed (se_Topic schema) x), [], w')
       | (Ok _, w') => (Ok tt, [upserted_schema (se_Topic schema)], w')
       end).

Definition apply_group (topic : string) (existing : list string) (group : string) : Step := λ w,
  if decide (group ∈ existing) then (Ok tt, [group_exists topic group], w)
  else match api_RegisterConsumerGroup topic group w with
       | (Ok _, w') | (Err adm_ErrConflict, w') => (Ok tt, [registered topic group], w')
       | (Err x, w') => (Err (register_failed topic group x), [], w')
       end.

Definition applyConsumerGroups : list ConsumerGroupEntry → Step := each (λ entry w,
  match ge_Groups entry with
  | [] => (Ok tt, [no_groups (ge_Topic entry)], w)
  | groups =>
      if dryRun then (Ok tt, would_register (ge_Topic entry) <$> groups, w)
      else match api_ListConsumerGroups (ge_Topic entry) w with
           | (Err x, w') => (Err (list_failed (ge_Topic entry) x), [], w')
           | (Ok existing, w') => each (apply_group (ge_Topic entry) existing) groups w'
           end
  end).

Definition Apply (f : SeedFile) : Step := λ w,
  match applyTopicConfigs (TopicConfigs f) w with
  | (Err x, logs, w1) => (Err x, logs, w1)
  | (Ok _, logs, w1) =>
      match applyTopicSchemas (TopicSchemas f) w1 with
      | (Err x, logs1, w2) => (Err x, logs ++ logs1, w2)
      | (Ok _, logs1, w2) =>
          let '(r, logs2, w3) := applyConsumerGroups (ConsumerGroups f) w2 in
          (r, logs ++ logs1 ++ logs2, w3)
      end
  end.
End seeder.

(** ** What the seeder relies on *)

(** The state of the server the seeder is about: the configurations, the schemas with
    their versions, and the groups by topic. *)
Record AdminView := mkAdminView {
  v_configs : gmap string TopicConfig;
  v_schemas : gmap string (string * Z);
  v_groups : gset (string * string);
}.

(** The configuration a server makes of a request: a replay window needs [replayable]. *)
Definition stored_config (topic : string) (cfg : TopicConfig) : TopicConfig :=
  mkTopicConfig topic (MaxRetries cfg) (MessageTTLSeconds cfg) (MaxDepth cfg) (Replayable cfg)
    (if Replayable cfg then ReplayWindowSeconds cfg else None) (ThroughputLimit cfg).

Definition view_config (topic : string) (cfg : TopicConfig) (v : AdminView) : AdminView :=
  mkAdminView (<[topic := stored_config topic cfg]> (v_configs v)) (v_schemas v) (v_groups v).
Definition next_schema (topic schema : string) (m : gmap string (string * Z))
    : gmap string (string * Z) :=
  <[topic := (schema, match m !! topic with Some (_, n) => n + 1 | None => 1 end)]> m.
Definition view_schema (topic schema : string) (v : AdminView) : AdminView :=
  mkAdminView (v_configs v) (next_schema topic schema (v_schemas v)) (v_groups v).
Definition view_group (topic group : string) (v : AdminView) : AdminView :=
  mkAdminView (v_configs v) (v_schemas v) ({[(topic, group)]} ∪ v_groups v).

(** A client on a server whose state [good] admits: accepted requests change the view and
    nothing else in it.  A version has 31 bits. *)
Class AdminLaws (W : Type) `{API : AdminAPI W} := {
  good : W → Prop;
  view : W → AdminView;
  valid_topic : string → Prop;
  valid_config : TopicConfig → Prop;
  valid_schema : string → Prop;
  registration_required : Prop;
  valid_topic_nonempty topic : valid_topic topic → topic ≠ ""%string;
  law_config w topic cfg :
    good w → valid_topic topic → valid_config cfg →
    ∃ out w', api_UpsertTopicConfig topic cfg w = (Ok out, w') ∧ good w' ∧
      view w' = view_config topic cfg (view w);
  law_schema w topic schema :
    good w → valid_topic topic → valid_schema schema →
    (∀ old n, v_schemas (view w) !! topic = Some (old, n) → n + 1 < 2 ^ 31) →
    ∃ out w', api_UpsertTopicSchema topic schema w = (Ok out, w') ∧ good w' ∧
      view w' = view_schema topic schema (view w);
  law_list w topic :
    good w → valid_topic topic →
    ∃ l w', api_ListConsumerGroups topic w = (Ok l, w') ∧ good w' ∧ view w' = view w ∧
      ∀ g, g ∈ l ↔ (topic, g) ∈ v_groups (view w);
  law_register w topic group :
    good w → valid_topic topic → group ≠ ""%string →
    (registration_required → is_Some (v_configs (view w) !! topic)) →
    ∃ r w', api_RegisterConsumerGroup topic group w = (r, w') ∧ good w' ∧
      view w' = view_group topic group (view w) ∧
      r = if decide ((topic, group) ∈ v_groups (view w)) then Err adm_ErrConflict else Ok tt;
}.

(** ** The seed as a change of the view *)

Definition seeded_configs (cs : list TopicConfig) (m : gmap string TopicConfig)
    : gmap string TopicConfig :=
  foldl (λ m c, <[Topic c := stored_config (Topic c) c]> m) m cs.
Definition seeded_schemas (es : list TopicSchemaEntry) (m : gmap string (string * Z))
    : gmap string (string * Z) :=
  foldl (λ m e, next_schema (se_Topic e) (se_Schema e) m) m es.
Definition group_pairs (es : list ConsumerGroupEntry) : list (string * string) :=
  e ← es; pair (ge_Topic e) <$> ge_Groups e.

(** Configurations applied twice are applied once. *)
Lemma seeded_configs_lookup cs m t :
  seeded_configs cs m !! t =
    match last (filter (λ c, Topic c = t) cs) with
    | Some c => Some (stored_config t c) | None => m !! t end.
Proof.
  induction cs as [|c cs IH] using rev_ind; [done|].
  unfold seeded_configs in *. rewrite foldl_app, filter_app, filter_cons, filter_nil. simpl.
  case_decide as Hc.
  - subst t. by rewrite last_snoc, lookup_insert_eq.
  - by rewrite lookup_insert_ne, app_nil_r.
Qed.

Lemma seeded_configs_twice cs m : seeded_configs cs (seeded_configs cs m) = seeded_configs cs m.
Proof. apply map_eq. intros t. rewrite !seeded_configs_lookup. by case_match. Qed.

(** The text of a schema is the last entry's, its version counts them. *)
Lemma seeded_schemas_lookup es m t :
  seeded_schemas es m !! t =
    match last (filter (λ e, se_Topic e = t) es) with
    | Some e => Some (se_Schema e,
        match m !! t with Some (_, n) => n | None => 0 end +
        Z.of_nat (length (filter (λ e, se_Topic e = t) es)))
    | None => m !! t end.
Proof.
  induction es as [|e es IH] using rev_ind; [done|].
  unfold seeded_schemas in *. rewrite foldl_app, filter_app, filter_cons, filter_nil. simpl.
  unfold next_schema at 1.
  case_decide as He.
  - subst t. rewrite last_snoc, lookup_insert_eq, IH, length_app. simpl. do 2 f_equal.
    destruct (filter _ es) as [|e' l] using rev_ind; simpl.
    + destruct (m !! se_Topic e) as [[]|]; lia.
    + rewrite last_snoc, length_app. simpl. lia.
  - by rewrite lookup_insert_ne, app_nil_r.
Qed.

Section laws.
Context {W : Type} `{LAWS : AdminLaws W}.

(** A loop whose steps succeed: [pre] is what the steps that are left require of the view,
    [f] what a step makes of it. *)
Lemma each_succeeds {A} (step : A → W → result SeedError unit * list LogLine * W)
    (pre : list A → AdminView → Prop) (f : A → AdminView → AdminView) l : ∀ w,
  (∀ x l w, good w → pre (x :: l) (view w) →
     ∃ logs w', step x w = (Ok tt, logs, w') ∧ good w' ∧ view w' = f x (view w) ∧
       pre l (f x (view w))) →
  good w → pre l (view w) →
  ∃ logs w', each step l w = (Ok tt, logs, w') ∧ good w' ∧
    view w' = foldl (λ v x, f x v) (view w) l.
Proof.
  induction l as [|x l IH]; intros w Hstep Hw Hp; simpl; [by eexists _, w|].
  destruct (Hstep x l w Hw Hp) as (logs & w1 & -> & Hw1 & Hv1 & Hp1).
  rewrite <-Hv1 in Hp1. destruct (IH w1 Hstep Hw1 Hp1) as (logs' & w2 & -> & Hw2 & Hv2).
  eexists _, w2. split; [done|]. split; [done|]. by rewrite Hv2, Hv1.
Qed.

Lemma configs_succeed cs w :
  good w → Forall (λ c, valid_topic (Topic c) ∧ valid_config c) cs →
  ∃ logs w', applyTopicConfigs false cs w = (Ok tt, logs, w') ∧ good w' ∧
    view w' = mkAdminView (seeded_configs cs (v_configs (view w))) (v_schemas (view w))
                (v_groups (view w)).
Proof.
  intros Hw Hall.
  assert (foldl (λ v c, view_config (Topic c) c v) (view w) cs =
    mkAdminView (seeded_configs cs (v_configs (view w))) (v_schemas (view w)) (v_groups (view w)))
    as <-.
  { clear. generalize (view w). induction cs as [|c cs IH]; intros v; simpl; [by destruct v|].
    by rewrite IH. }
  apply (each_succeeds _ (λ l _, Forall (λ c, valid_topic (Topic c) ∧ valid_config c) l)
    (λ c, view_config (Topic c) c)); [|done..].
  intros c l w0 Hw0 [[Ht Hc] Hl]%Forall_cons.
  destruct (law_config w0 (Topic c) c Hw0 Ht Hc) as (out & w1 & Hrun & Hw1 & Hv1).
  eexists _, w1. simpl. rewrite Hrun. by split_and!.
Qed.

(** Room for the versions of [k] more changes. *)
Definition room (k : nat) (m : gmap string (string * Z)) : Prop :=
  Z.of_nat k < 2 ^ 31 ∧ ∀ t s n, m !! t = Some (s, n) → n + Z.of_nat k < 2 ^ 31.

Lemma room_next k t s m : room (S k) m → room k (next_schema t s m).
Proof.
  intros [Hk Hm]. split; [lia|]. unfold next_schema. intros t' s' n.
  rewrite lookup_insert_Some. intros [[<- [= <- <-]]|[_ Hn]].
  - destruct (m !! t) as [[s0 n0]|] eqn:Ht; [specialize (Hm _ _ _ Ht)|]; lia.
  - specialize (Hm _ _ _ Hn). lia.
Qed.

Lemma schemas_succeed es w :
  good w → Forall (λ e, valid_topic (se_Topic e) ∧ valid_schema (se_Schema e)) es →
  room (length es) (v_schemas (view w)) →
  ∃ logs w', applyTopicSchemas false es w = (Ok tt, logs, w') ∧ good w' ∧
    view w' = mkAdminView (v_configs (view w)) (seeded_schemas es (v_schemas (view w)))
                (v_groups (view w)).
Proof.
  intros Hw Hall Hroom.
  assert (foldl (λ v e, view_schema (se_Topic e) (se_Schema e) v) (view w) es =
    mkAdminView (v_configs (view w)) (seeded_schemas es (v_schemas (view w))) (v_groups (view w)))
    as <-.
  { clear. generalize (view w). induction es as [|e es IH]; intros v; simpl; [by destruct v|].
    by rewrite IH. }
  apply (each_succeeds _ (λ l v,
      Forall (λ e, valid_topic (se_Topic e) ∧ valid_schema (se_Schema e)) l ∧
      room (length l) (v_schemas v)) (λ e, view_schema (se_Topic e) (se_Schema e))); [|done..].
  intros e l w0 Hw0 [[[Ht Hs] Hl]%Forall_cons Hr].
  destruct (law_schema w0 (se_Topic e) (se_Schema e) Hw0 Ht Hs) as (out & w1 & Hrun & Hw1 & Hv1).
  { intros s n Hn. destruct Hr as [_ Hr]. specialize (Hr _ _ _ Hn). simpl in Hr. lia. }
  eexists _, w1. simpl. rewrite Hrun. split_and!; [done..|]. by apply room_next.
Qed.

(** The groups of an entry may be registered. *)
Definition entry_ok (v : AdminView) (e : ConsumerGroupEntry) : Prop :=
  valid_topic (ge_Topic e) ∧ Forall (λ g, g ≠ ""%string) (ge_Groups e) ∧
  (registration_required → ge_Groups e ≠ [] → is_Some (v_configs v !! ge_Topic e)).

Definition with_groups (s : gset (string * string)) (v : AdminView) : AdminView :=
  mkAdminView (v_configs v) (v_schemas v) s.

Lemma groups_of_topic_succeed topic existing gs w :
  good w → valid_topic topic → Forall (λ g, g ≠ ""%string) gs →
  (registration_required → gs ≠ [] → is_Some (v_configs (view w) !! topic)) →
  (∀ g, g ∈ existing → (topic, g) ∈ v_groups (view w)) →
  ∃ logs w', each (apply_group topic existing) gs w = (Ok tt, logs, w') ∧ good w' ∧
    view w' = with_groups (v_groups (view w) ∪ list_to_set (pair topic <$> gs)) (view w).
Proof.
  intros Hw Ht Hgs Hreg Hex.
  assert (foldl (λ v g, view_group topic g v) (view w) gs =
    with_groups (v_groups (view w) ∪ list_to_set (pair topic <$> gs)) (view w)) as <-.
  { clear. generalize (view w). induction gs as [|g gs IH]; intros v; simpl.
    - rewrite union_empty_r_L. by destruct v.
    - rewrite IH. unfold with_groups, view_group. simpl. f_equal. set_solver. }
  apply (each_succeeds _ (λ l v, Forall (λ g, g ≠ ""%string) l ∧
      (registration_required → l ≠ [] → is_Some (v_configs v !! topic)) ∧
      ∀ g, g ∈ existing → (topic, g) ∈ v_groups v) (view_group topic)); [|done..].
  intros g l w0 Hw0 ([Hg Hl]%Forall_cons & Hr & He). unfold apply_group. case_decide as Hin.
  - assert (view_group topic g (view w0) = view w0) as ->.
    { unfold view_group. specialize (He g Hin). destruct (view w0) as [cs ss s]. simpl in *.
      f_equal. set_solver. }
    eexists _, w0. split_and!; [done..| |done]. intros HR _. by apply Hr.
  - destruct (law_register w0 topic g Hw0 Ht Hg) as (r & w1 & -> & Hw1 & Hv1 & ->).
    { intros HR. by apply Hr. }
    exists [registered topic g], w1. split; [by case_decide|]. split_and!; [done..| |].
    + intros HR _. by apply Hr.
    + intros g' Hg'. simpl. specialize (He g' Hg'). set_solver.
Qed.

Lemma groups_succeed es w :
  good w → Forall (entry_ok (view w)) es →
  ∃ logs w', applyConsumerGroups false es w = (Ok tt, logs, w') ∧ good w' ∧
    view w' = with_groups (v_groups (view w) ∪ list_to_set (group_pairs es)) (view w).
Proof.
  intros Hw Hall.
  assert (foldl (λ v e, with_groups
      (v_groups v ∪ list_to_set (pair (ge_Topic e) <$> ge_Groups e)) v) (view w) es =
    with_groups (v_groups (view w) ∪ list_to_set (group_pairs es)) (view w)) as <-.
  { clear. generalize (view w). induction es as [|e es IH]; intros v; simpl.
    - unfold with_groups. rewrite union_empty_r_L. by destruct v.
    - rewrite IH. unfold with_groups. simpl. f_equal.
      rewrite list_to_set_app_L, union_assoc_L. done. }
  apply (each_succeeds _ (λ l v, Forall (entry_ok v) l) (λ e v, with_groups
      (v_groups v ∪ list_to_set (pair (ge_Topic e) <$> ge_Groups e)) v)); [|done..].
  intros e l w0 Hw0 [(Ht & Hgs & Hr) Hl]%Forall_cons.
  destruct (ge_Groups e) as [|g gs] eqn:Hge.
  - eexists _, w0. split; [done|]. split; [done|]. simpl. rewrite union_empty_r_L.
    unfold with_groups. by destruct (view w0).
  - destruct (law_list w0 (ge_Topic e) Hw0 Ht) as (ex & w1 & -> & Hw1 & Hv1 & Hex).
    cbv zeta.    destruct (groups_of_topic_succeed (ge_Topic e) ex (g :: gs) w1) as (logs & w2 & -> & Hw2 & Hv2);
      [done..|by rewrite Hv1|intros g'; rewrite Hv1; apply Hex|].
    eexists _, w2. split; [done|]. split; [done|]. split; [by rewrite Hv2, Hv1|].
    eapply Forall_impl; [exact Hl|]. intros e' (? & ? & Hr'). by split_and!.
Qed.

(** What a server of view [v] accepts of a seed, with room for [k] applications. *)
Record seed_ok (k : nat) (f : SeedFile) (v : AdminView) : Prop := {
  seed_configs_ok : Forall (λ c, valid_topic (Topic c) ∧ valid_config c) (TopicConfigs f);
  seed_schemas_ok :
    Forall (λ e, valid_topic (se_Topic e) ∧ valid_schema (se_Schema e)) (TopicSchemas f);
  seed_room : room (k * length (TopicSchemas f)) (v_schemas v);
  seed_groups_ok : Forall (λ e, valid_topic (ge_Topic e) ∧
    Forall (λ g, g ≠ ""%string) (ge_Groups e) ∧
    (registration_required → ge_Groups e ≠ [] →
     is_Some (seeded_configs (TopicConfigs f) (v_configs v) !! ge_Topic e))) (ConsumerGroups f);
}.

Definition seeded (f : SeedFile) (v : AdminView) : AdminView :=
  mkAdminView (seeded_configs (TopicConfigs f) (v_configs v))
    (seeded_schemas (TopicSchemas f) (v_schemas v))
    (v_groups v ∪ list_to_set (group_pairs (ConsumerGroups f))).

Lemma room_le k k' m : (k ≤ k')%nat → room k' m → room k m.
Proof. intros Hk [Hr Hm]. split; [lia|]. intros t s n Hn. specialize (Hm t s n Hn). lia. Qed.

Lemma Apply_succeeds k f w :
  good w → (0 < k)%nat → seed_ok k f (view w) →
  ∃ logs w', Apply false f w = (Ok tt, logs, w') ∧ good w' ∧ view w' = seeded f (view w).
Proof.
  intros Hw Hk [Hc Hs Hr Hg]. unfold Apply.
  destruct (configs_succeed _ w Hw Hc) as (l1 & w1 & -> & Hw1 & Hv1).
  destruct (schemas_succeed (TopicSchemas f) w1 Hw1 Hs) as (l2 & w2 & -> & Hw2 & Hv2).
  { rewrite Hv1. eapply room_le; [|exact Hr]. nia. }
  destruct (groups_succeed (ConsumerGroups f) w2 Hw2) as (l3 & w3 & -> & Hw3 & Hv3).
  { eapply Forall_impl; [exact Hg|]. intros e (H1 & H2 & H3). split_and!; [done..|].
    by rewrite Hv2, Hv1. }
  eexists _, w3. split; [done|]. split; [done|].
  rewrite Hv3, Hv2, Hv1. done.
Qed.

Lemma seeded_schemas_room es k m : room (length es + k) m → room k (seeded_schemas es m).
Proof.
  revert m. induction es as [|e es IH]; intros m Hm; simpl; [done|].
  apply IH. by apply room_next.
Qed.

Lemma seed_ok_again k f v : seed_ok (S k) f v → seed_ok k f (seeded f v).
Proof.
  intros [Hc Hs Hr Hg]. split; [done|done| |].
  - apply seeded_schemas_room. eapply room_le; [|exact Hr]. lia.
  - unfold seeded. simpl. by rewrite seeded_configs_twice.
Qed.

(** The lines of a dry run. *)
Definition plan (f : SeedFile) : list LogLine :=
  ((λ c, would_upsert_config (Topic c)) <$> TopicConfigs f) ++
  ((λ e, would_upsert_schema (se_Topic e)) <$> TopicSchemas f) ++
  (e ← ConsumerGroups f;
   match ge_Groups e with
   | [] => [no_groups (ge_Topic e)] | gs => would_register (ge_Topic e) <$> gs end).

Lemma singletons_fmap {A B} (g : A → B) l : (l ≫= λ x, [g x]) = g <$> l.
Proof. induction l as [|x l IH]; [done|]. rewrite fmap_cons, <-IH. done. Qed.

Lemma each_dry {A} (step : A → W → result SeedError unit * list LogLine * W) lines l w :
  (∀ x w, step x w = (Ok tt, lines x, w)) → each step l w = (Ok tt, l ≫= lines, w).
Proof.
  intros Hstep. induction l as [|x l IH]; simpl; [done|]. by rewrite Hstep, IH.
Qed.

(** A seed is applied, and can be applied again.  On a server that accepts each of its
    entries the application succeeds and the server then has exactly the seed's
    configurations, schemas and groups on top of what it had, the last entry for a topic
    deciding; groups that exist, or are listed twice, are no error.  Such a seed is valid.  A second application
    succeeds and changes no configuration, no group and no schema's text; what it does
    change is the version of each schema, by one per entry.  A dry run calls nothing and
    lists the seed's entries. *)
Lemma Apply_twice f w :
  good w → seed_ok 2 f (view w) →
  validate f = None ∧
  ∃ logs w1, Apply false f w = (Ok tt, logs, w1) ∧ view w1 = seeded f (view w) ∧
    (∃ logs' w2, Apply false f w1 = (Ok tt, logs', w2) ∧
       v_configs (view w2) = v_configs (view w1) ∧ v_groups (view w2) = v_groups (view w1) ∧
       ∀ t, v_schemas (view w2) !! t =
         (λ sn, (sn.1, sn.2 + Z.of_nat (length (filter (λ e, se_Topic e = t) (TopicSchemas f)))))
           <$> v_schemas (view w1) !! t) ∧
    Apply true f w = (Ok tt, plan f, w).
Proof.
  intros Hw Hok. split.
  { destruct Hok as [Hc Hs _ Hg]. apply validate_None. split_and!;
      (eapply Forall_impl; [eassumption|]); intros x Hx; by eapply valid_topic_nonempty, Hx. }
  destruct (Apply_succeeds 2 f w Hw ltac:(lia) Hok) as (logs & w1 & Hrun & Hw1 & Hv1).
  apply seed_ok_again in Hok. rewrite <-Hv1 in Hok.
  destruct (Apply_succeeds 1 f w1 Hw1 ltac:(lia) Hok) as (logs' & w2 & Hrun' & Hw2 & Hv2).
  exists logs, w1. split; [done|]. split; [done|]. split.
  - exists logs', w2. rewrite Hv2, Hv1. simpl. split_and!; [done|by apply seeded_configs_twice|set_solver|].
    intros t. rewrite !seeded_schemas_lookup.
    destruct (last (filter _ _)) as [e|] eqn:Hl; simpl; [done|].
    apply last_None in Hl as ->. simpl. destruct (v_schemas (view w) !! t) as [[s n]|]; simpl;
      [|done]. by rewrite Z.add_0_r.
  - unfold Apply, applyTopicConfigs, applyTopicSchemas, applyConsumerGroups.
    rewrite (each_dry _ (λ c, [would_upsert_config (Topic c)])) by done.
    rewrite (each_dry _ (λ e, [would_upsert_schema (se_Topic e)])) by done.
    rewrite (each_dry _ (λ e, match ge_Groups e with
      | [] => [no_groups (ge_Topic e)] | gs => would_register (ge_Topic e) <$> gs end)).
    2: { intros e w0. by destruct (ge_Groups e). }
    unfold plan. by rewrite !singletons_fmap.
Qed.
End laws.
