(* ===== verification/SeederCommand.v ===== *)
(** * The seeder's command

    [tools/seeder/main.go]: reading a seed file, the choice of a token, and the run of the
    command.  The theorem takes a seed from its file to the state of the server, through
    the documents, the admin client and the interface [AdminLaws]. *)

From S2P Require Import Prelude.
From S2P Require Import Store.
From S2P Require Import Avro.
From S2P Require Import Json.
From S2P Require Import Runtime.
From S2P Require Import Model.
From S2P Require Import Http.
From S2P Require Import Admin.
From S2P Require Import Seeder.

(** ** The file's document *)

Definition dec_schema_entry : Decoder TopicSchemaEntry := dec_struct
  [ field_of "topic" se_Topic (λ v x, mkSchemaEntry v (se_Schema x)) dec_string;
    field_of "schema" se_Schema (λ v x, mkSchemaEntry (se_Topic x) v) dec_string ].
Definition dec_group_entry : Decoder ConsumerGroupEntry := dec_struct
  [ field_of "topic" ge_Topic (λ v x, mkGroupEntry v (ge_Groups x)) dec_string;
    field_of "groups" ge_Groups (λ v x, mkGroupEntry (ge_Topic x) v) (dec_slice dec_string "") ].

Definition zero_seed : SeedFile := mkSeedFile [] [] [].
Definition dec_seed : Decoder SeedFile := dec_struct
  [ field_of "topic_configs" TopicConfigs (λ v f, mkSeedFile v (TopicSchemas f) (ConsumerGroups f))
      (dec_slice dec_config zero_config);
    field_of "topic_schemas" TopicSchemas (λ v f, mkSeedFile (TopicConfigs f) v (ConsumerGroups f))
      (dec_slice dec_schema_entry (mkSchemaEntry "" ""));
    field_of "consumer_groups" ConsumerGroups (λ v f, mkSeedFile (TopicConfigs f) (TopicSchemas f) v)
      (dec_slice dec_group_entry (mkGroupEntry "" [])) ].

(** A seed written as the struct's tags say. *)
Definition enc_schema_entry (x : TopicSchemaEntry) : json :=
  JObject [("topic", JString (se_Topic x)); ("schema", JString (se_Schema x))]%string.
Definition enc_group_entry (x : ConsumerGroupEntry) : json := JObject
  [("topic", JString (ge_Topic x)); ("groups", JArray (JString <$> ge_Groups x))]%string.
Definition enc_seed (f : SeedFile) : json := JObject
  [ ("topic_configs", JArray (enc_config <$> TopicConfigs f));
    ("topic_schemas", JArray (enc_schema_entry <$> TopicSchemas f));
    ("consumer_groups", JArray (enc_group_entry <$> ConsumerGroups f)) ]%string.

Lemma decode_Some {A} (d : Decoder A) zero j a :
  Json.decode d zero j = Some a → d zero j = (a, true).
Proof. unfold Json.decode. destruct (d zero j) as [b []]; naive_solver. Qed.

Lemma slice_decodes {A} (d : Decoder A) zero (enc : A → json) l :
  (∀ a, a ∈ l → d zero (enc a) = (a, true)) →
  dec_slice d zero [] (JArray (enc <$> l)) = (l, true).
Proof. intros Hall. by apply dec_elements_map, Forall_forall. Qed.

Lemma decode_group_entry x : dec_group_entry (mkGroupEntry "" []) (enc_group_entry x) = (x, true).
Proof.
  unfold dec_group_entry, enc_group_entry, dec_struct. rewrite fold_members.
  erewrite member_decodes; [|reflexivity|reflexivity].
  erewrite member_decodes; [|reflexivity|].
  2: { unfold field_of. cbn [snd ge_Groups]. by rewrite slice_decodes. }
  by destruct x.
Qed.

Lemma decode_enc_seed f :
  Forall config_int64 (TopicConfigs f) → Json.decode dec_seed zero_seed (enc_seed f) = Some f.
Proof.
  intros Hc. unfold Json.decode, dec_seed, enc_seed, dec_struct.
  do 2 rewrite (fold_members _ (_, _) (_ :: _)).
  erewrite member_decodes; [|reflexivity|].
  2: { unfold field_of. cbn [snd TopicConfigs zero_seed]. rewrite slice_decodes; [done|].
       intros x Hx. apply decode_Some, decode_enc_config. by eapply Forall_forall. }
  erewrite member_decodes; [|reflexivity|].
  2: { unfold field_of. cbn [snd TopicSchemas zero_seed]. rewrite slice_decodes; [done|]. by intros []. }
  erewrite member_decodes; [|reflexivity|].
  2: { unfold field_of. cbn [snd ConsumerGroups zero_seed]. rewrite slice_decodes; [done|].
       intros x _. apply decode_group_entry. }
  by destruct f.
Qed.

(** ** The command *)

Section command.
Context `{WI : Wire} {W : Type}.
Abbreviation HttpClient := (HttpRequest → W → option HttpResponse * W).

(** [timeout] is the transport's. *)
Record Flags := mkFlags {
  seedFile : string; adminURL : string; fl_token : string; username : string; password : string;
  fl_dryRun : bool }.

Inductive LoadError := read_failed | parse_failed | invalid_seed (at_ : seed_section * nat).

(** [os.ReadFile] answers [None] for a file it cannot read. *)
Definition loadSeed (ReadFile : string → option Document) (path : string)
    : result LoadError SeedFile :=
  match ReadFile path with
  | None => Err read_failed
  | Some raw =>
      match (j ← Unmarshal raw; Json.decode dec_seed zero_seed j) with
      | None => Err parse_failed
      | Some seed => match validate seed with Some at_ => Err (invalid_seed at_) | None => Ok seed end
      end
  end.

Inductive RunError :=
| load_failed (x : LoadError) | password_required | login_failed (x : AuthError)
| seeding_failed (x : SeedError).

(** [http.DefaultClient] and the value of [SEEDER_PASSWORD]. *)
Context (default_client : HttpClient) (env_password : string).

Definition resolveToken (adminURL token username password : string) (hc : HttpClient) (w : W)
    : result RunError string * W :=
  if negb (bool_decide (token = "")) then (Ok token, w)
  else if bool_decide (username = "") then (Ok ""%string, w)
  else
    let password := if bool_decide (password = "") then env_password else password in
    if bool_decide (password = "") then (Err password_required, w)
    else match NewAuth default_client adminURL username password [WithAuthHTTPClient hc] w with
         | (Err x, w') => (Err (login_failed x), w')
         | (Ok auth, w') => (Ok (au_token auth), w')
         end.

(** The client as the seeder uses it. *)
Definition client_api (c : AdminClient (W := W)) : AdminAPI W := {|
  api_UpsertTopicConfig := UpsertTopicConfig c;
  api_UpsertTopicSchema := UpsertTopicSchema c;
  api_ListConsumerGroups := ListConsumerGroups c;
  api_RegisterConsumerGroup := RegisterConsumerGroup c;
|}.

Definition seeder_client (fl : Flags) (authToken : string) (hc : HttpClient) : AdminClient :=
  NewAdminClient default_client (adminURL fl)
    (WithAdminHTTPClient hc ::
     (if bool_decide (authToken = "") then [] else [WithAdminToken authToken])).

(** The command's [RunE]: what it returns and logs. *)
Definition RunE (ReadFile : string → option Document) (fl : Flags) (hc : HttpClient) (w : W)
    : result RunError unit * list LogLine * W :=
  match loadSeed ReadFile (seedFile fl) with
  | Err x => (Err (load_failed x), [], w)
  | Ok seed =>
      match resolveToken (adminURL fl) (fl_token fl) (username fl) (password fl) hc w with
      | (Err x, w1) => (Err x, [], w1)
      | (Ok authToken, w1) =>
          match Apply (API := client_api (seeder_client fl authToken hc)) (fl_dryRun fl) seed w1 with
          | (Err x, logs, w2) => (Err (seeding_failed x), logs, w2)
          | (Ok _, logs, w2) => (Ok tt, logs ++ [seeding_complete], w2)
          end
      end
  end.

(** [main]'s exit status. *)
Definition exit_status (r : result RunError unit) : Z := match r with Ok _ => 0 | Err _ => 1 end.

Definition with_dry_run (b : bool) (fl : Flags) : Flags :=
  mkFlags (seedFile fl) (adminURL fl) (fl_token fl) (username fl) (password fl) b.

(** ** From the file to the server *)

Context (fl : Flags) (hc : HttpClient).
#[local] Instance seeder_api : AdminAPI W := client_api (seeder_client fl (fl_token fl) hc).
Context `{WLAWS : !WireLaws} `{LAWS : !AdminLaws W}.

(** [C30] A seed file takes effect, and can be applied again.  For a file that is the text of
    a seed, a token or no user name on the command line, and a server that accepts each
    entry of the seed, the command succeeds and the server then has exactly the seed's
    configurations, schemas and groups on top of what it had, the last entry for a topic
    deciding; groups that exist, or are listed twice, are no error.  A second run succeeds
    and changes no configuration, no group and no schema's text; what it does change is the
    version of each schema, by one per entry.  A dry run calls nothing and lists the seed's
    entries. *)
Theorem seed_file_applied ReadFile f w :
  ReadFile (seedFile fl) = Some (Marshal (enc_seed f)) →
  Forall config_int64 (TopicConfigs f) →
  fl_token fl ≠ ""%string ∨ username fl = ""%string →
  good w → seed_ok 2 f (view w) →
  let run dry := RunE ReadFile (with_dry_run dry fl) hc in
  ∃ logs w1, run false w = (Ok tt, logs ++ [seeding_complete], w1) ∧
    view w1 = seeded f (view w) ∧
    (∃ logs' w2, run false w1 = (Ok tt, logs' ++ [seeding_complete], w2) ∧
       v_configs (view w2) = v_configs (view w1) ∧ v_groups (view w2) = v_groups (view w1) ∧
       ∀ t, v_schemas (view w2) !! t =
         (λ sn, (sn.1, sn.2 + Z.of_nat (length (filter (λ e, se_Topic e = t) (TopicSchemas f)))))
           <$> v_schemas (view w1) !! t) ∧
    run true w = (Ok tt, plan f ++ [seeding_complete], w).
Proof.
  intros Hfile Hint Htok Hw Hok run.
  destruct (Apply_twice f w Hw Hok) as (Hvalid & logs & w1 & Hrun & Hv1 & Hagain & Hdry).
  assert (∀ dry w0, run dry w0 =
    match Apply dry f w0 with
    | (Err x, logs, w2) => (Err (seeding_failed x), logs, w2)
    | (Ok _, logs, w2) => (Ok tt, logs ++ [seeding_complete], w2) end) as Hrun_eq.
  { intros dry w0. unfold run, RunE, loadSeed. cbn [seedFile with_dry_run]. rewrite Hfile.
    rewrite Unmarshal_Marshal. cbn [mbind option_bind]. rewrite decode_enc_seed, Hvalid by done.
    unfold resolveToken. cbn [adminURL fl_token username password with_dry_run].
    destruct (decide (fl_token fl = ""%string)) as [Ht|Ht].
    - rewrite (bool_decide_true (fl_token fl = ""%string)) by done.
      rewrite bool_decide_true by tauto. unfold seeder_api. by rewrite Ht.
    - by rewrite (bool_decide_false (fl_token fl = ""%string)) by done. }
  exists logs, w1. rewrite !Hrun_eq, Hrun, Hdry. split; [done|]. split; [done|]. split; [|done].
  destruct Hagain as (logs' & w2 & Hrun' & Hrest). exists logs', w2.
  split; [by rewrite Hrun'|done].
Qed.
End command.
