(* ===== verification/AdminServer.v ===== *)
(** * The admin client on the HTTP server

    The client of [clients/go-client/admin.go] against the server of
    [backend/internal/server]: its requests reach the handlers as they were meant, its
    answers are what the handlers wrote, and together they keep the promises the seeder
    relies on.  Fiber's matching of a URL to a route is a parameter. *)

From S2P Require Import Prelude.
From S2P Require Import Store.
From S2P Require Import Avro.
From S2P Require Import Json.
From S2P Require Import Text.
From S2P Require Import Runtime.
From S2P Require Import Model.
From S2P Require Import TopicConfig.
From S2P Require Import Throttle.
From S2P Require Import Schema.
From S2P Require Import Dequeue.
From S2P Require Import Enqueue.
From S2P Require Import Lifecycle.
From S2P Require Import ConsumerGroup.
From S2P Require Import Reaper.
From S2P Require Import Replay.
From S2P Require Import Query.
From S2P Require Import System.
From S2P Require Import Caches.
From S2P Require Import Users.
From S2P Require Import Grpc.
From S2P Require Import Http.
From S2P Require Import Handlers.
From S2P Require Import Routes.
From S2P Require Import Admin.
From S2P Require Import Seeder.

(** ** Requests on their way *)

(** One segment of a path. *)
Definition segment (seg : string) : Prop :=
  seg ≠ ""%string ∧ has_char "/" seg = false ∧ has_char "?" seg = false ∧ has_char "#" seg = false.

Lemma PathEscape_segment s : s ≠ ""%string → segment (PathEscape s).
Proof.
  intros Hs. split; [|split_and!; by apply PathEscape_clean].
  destruct s as [|c s]; [done|]. simpl. by case_match.
Qed.

Section served.
Context `{PG : Postgres} `{ST : Storage} `{CO : Codecs} `{JW : JWT} `{BC : Bcrypt}.
Context `{FI : Fiber} `{LA : Layouts} `{WI : Wire}.

(** A request context that carries a request: its authorisation, and its body for
    [BodyParser], which decodes a JSON body into an empty struct. *)
Record carries (req : HttpRequest) (c : Ctx) : Prop := {
  carries_auth : c_Get c "Authorization" = default ""%string (rq_Authorization req);
  carries_body text j :
    rq_Body req = Some text → rq_ContentType req = Some "application/json"%string →
    Unmarshal text = Some j →
    BodyParser to_config c = dec_topicConfigRequest zero_config_request j ∧
    BodyParser to_schema c = dec_topicSchemaRequest (mkSchemaBody "") j ∧
    BodyParser to_group c = dec_registerConsumerGroupRequest (mkGroupBody "") j;
}.

Context (srv : HTTPServer) (base : string) (route : HttpRequest → option (Route * Ctx)).

(** How fiber matches the URLs of the registered routes: a parameter is its segment of the
    path, as it stands. *)
Definition matched (req : HttpRequest) (r : Route) (seg : string) : Prop :=
  ∃ c, route req = Some (r, c) ∧ Params c "topic" = seg ∧ carries req c.
Class RouteLaws := {
  route_put_config req seg :
    segment seg → rq_Method req = "PUT"%string →
    rq_URL req = base +:+ "/api/topic-configs/" +:+ seg → matched req PUT_config seg;
  route_delete_config req seg :
    segment seg → rq_Method req = "DELETE"%string →
    rq_URL req = base +:+ "/api/topic-configs/" +:+ seg → matched req DELETE_config seg;
  route_put_schema req seg :
    segment seg → rq_Method req = "PUT"%string →
    rq_URL req = base +:+ "/api/topic-schemas/" +:+ seg → matched req PUT_schema seg;
  route_get_groups req seg :
    segment seg → rq_Method req = "GET"%string →
    rq_URL req = base +:+ "/api/topics/" +:+ seg +:+ "/consumer-groups" →
    matched req GET_groups seg;
  route_post_groups req seg :
    segment seg → rq_Method req = "POST"%string →
    rq_URL req = base +:+ "/api/topics/" +:+ seg +:+ "/consumer-groups" →
    matched req POST_groups seg;
}.

(** The server as a transport, at one moment; the reaper's schedule is not concerned. *)
Definition serve (cron : Cron) (e : Env) (req : HttpRequest) (w : World)
    : option HttpResponse * World :=
  match route req with
  | None => (Some (mkHttpResponse StatusNotFound None), w)
  | Some (r, c) =>
      match NewHTTPServer srv r c cron e w with
      | (Ok (answer, _), w') =>
          (Some (mkHttpResponse (StatusCode answer) (Marshal <$> document (res_Body answer))), w')
      | (Err _, w') => (Some (mkHttpResponse StatusInternalServerError None), w')
      end
  end.

Definition admin_client (cron : Cron) (e : Env) (tok : string) : AdminClient (W := World) :=
  mkAdminClient base (serve cron e) tok.

(** A token with which the administration routes are open. *)
Definition admits (e : Env) (tok : string) : Prop :=
  Enabled (authConfig srv) = false ∨
  (tok ≠ ""%string ∧ ∃ claims, ParseToken (JWTSecret (authConfig srv)) tok (go_now e) = Ok claims ∧
     claims_IsAdmin claims = true).

Definition administration (r : Route) : bool :=
  match r with
  | PUT_config | DELETE_config | PUT_schema | GET_groups | POST_groups => true
  | _ => false
  end.

Lemma admin_request r c cron e w tok :
  administration r = true → admits e tok →
  c_Get c "Authorization" =
    (if bool_decide (tok = ""%string) then ""%string else ("Bearer " +:+ tok)%string) →
  ∃ locals, NewHTTPServer srv r c cron e w = handler srv r c cron locals e w.
Proof.
  intros Hr [He|(Ht & claims & Hp & Ha)] Hc.
  - exists None. unfold NewHTTPServer. rewrite run_bind.
    assert (guards srv r c None e w = (Ok (Ok None), w)) as ->; [|done].
    destruct r; try done; unfold guards, chain, jwtAuth, requireAdmin, checkAuthAndAdmin;
      by rewrite He, run_bind.
  - destruct (Enabled (authConfig srv)) eqn:He.
    + exists (Some claims). rewrite bool_decide_false in Hc by done.
      apply (admin_run srv r c cron e w claims); [done|by destruct r| |done].
      rewrite (bearer_token srv c tok) by done. by rewrite Hp.
    + exists None. unfold NewHTTPServer. rewrite run_bind.
      assert (guards srv r c None e w = (Ok (Ok None), w)) as ->; [|done].
      destruct r; try done; unfold guards, chain, jwtAuth, requireAdmin, checkAuthAndAdmin;
        by rewrite He, run_bind.
Qed.

(** What the client gets of a handler's run. *)
Definition answered_by (run : result Error (Response * Cron) * World)
    : result AdminError HttpResponse * World :=
  match run with
  | (Ok (answer, _), w) =>
      (checked (mkHttpResponse (StatusCode answer) (Marshal <$> document (res_Body answer))), w)
  | (Err _, w) => (checked (mkHttpResponse StatusInternalServerError None), w)
  end.

Context `{WLAWS : !WireLaws}.

Lemma doRequest_served cron e tok meth url body r seg w :
  administration r = true → admits e tok →
  (∀ req, rq_Method req = meth → rq_URL req = url → matched req r seg) →
  ∃ c locals, Params c "topic" = seg ∧
    (∀ j, body = Some j →
       BodyParser to_config c = dec_topicConfigRequest zero_config_request j ∧
       BodyParser to_schema c = dec_topicSchemaRequest (mkSchemaBody "") j ∧
       BodyParser to_group c = dec_registerConsumerGroupRequest (mkGroupBody "") j) ∧
    doRequest (admin_client cron e tok) meth url body w =
      answered_by (handler srv r c cron locals e w).
Proof.
  intros Hr Hadm Hmatch. unfold doRequest. simpl. unfold serve.
  set (req := mkHttpRequest meth url _ _ _).
  destruct (Hmatch req eq_refl eq_refl) as (c & Hroute & Hseg & Hauth & Hbody).
  destruct (admin_request r c cron e w tok Hr Hadm) as [locals Hrun].
  { rewrite Hauth. simpl. by case_bool_decide. }
  exists c, locals. split; [done|]. split.
  - intros j ->. eapply Hbody; [done|done|apply Unmarshal_Marshal].
  - rewrite Hroute, Hrun. by destruct (handler srv r c cron locals e w) as [[[]|] ?].
Qed.

(** ** What the server promises the seeder *)

Context `{RLAWS : !RouteLaws} `{LAWS : !PostgresLaws} `{SLAWS : !StorageLaws}.
Context (cron : Cron) (e : Env) (tok : string) (Hadm : admits e tok).
Let client := admin_client cron e tok.

Instance admin_api : AdminAPI World := {|
  api_UpsertTopicConfig := Admin.UpsertTopicConfig client;
  api_UpsertTopicSchema := Admin.UpsertTopicSchema client;
  api_ListConsumerGroups := Admin.ListConsumerGroups client;
  api_RegisterConsumerGroup := Admin.RegisterConsumerGroup client;
|}.

Definition server_view (w : World) : AdminView :=
  mkAdminView (topic_config (w_db w))
    ((λ ts, (SchemaJSON ts, Version ts)) <$> topic_schemas (w_db w))
    (dom (consumer_groups (w_db w))).

(** Names that escaping leaves as they are, and that are not reserved. *)
Definition plain_topic (topic : string) : Prop :=
  topic ≠ ""%string ∧ plain topic = true ∧ HasSuffix topic ".dlq" = false.
Definition storable_config (cfg : TopicConfig) : Prop :=
  config_int4 cfg ∧ match ThroughputLimit cfg with Some n => 0 ≤ n | None => True end.

Lemma config_int4_int64 cfg : config_int4 cfg → config_int64 cfg.
Proof.
  unfold config_int4, config_int64. intros Hall.
  assert (∀ o, o ∈ [MaxRetries cfg; MessageTTLSeconds cfg; MaxDepth cfg; ReplayWindowSeconds cfg;
    ThroughputLimit cfg] → int64_ptr_ok o) as Ho.
  { intros o Ho. rewrite Forall_forall in Hall. specialize (Hall o Ho).
    destruct o as [n|]; [|done]. unfold int64_ptr_ok, int64_ok, int4 in *. simpl in *. lia. }
  split_and!; apply Ho; set_solver.
Qed.

Lemma stored_int4 topic cfg : config_int4 cfg → config_int4 (stored_config topic cfg).
Proof.
  unfold config_int4, stored_config. simpl. intros Hall.
  rewrite !Forall_cons in *. destruct (Replayable cfg); naive_solver.
Qed.

(** A request with the name of a topic in its path. *)
Lemma served meth url topic body r w :
  administration r = true → topic ≠ ""%string →
  (∀ req, segment (PathEscape topic) → rq_Method req = meth → rq_URL req = url →
     matched req r (PathEscape topic)) →
  ∃ c locals, Params c "topic" = PathEscape topic ∧
    (∀ j, body = Some j →
       BodyParser to_config c = dec_topicConfigRequest zero_config_request j ∧
       BodyParser to_schema c = dec_topicSchemaRequest (mkSchemaBody "") j ∧
       BodyParser to_group c = dec_registerConsumerGroupRequest (mkGroupBody "") j) ∧
    doRequest client meth url body w = answered_by (handler srv r c cron locals e w).
Proof.
  intros Hr Ht Hm. apply doRequest_served; [done..|].
  intros req ??. apply Hm; [by apply PathEscape_segment|done..].
Qed.

(** The request for a configuration, up to the service. *)
Lemma config_served topic cfg w :
  topic ≠ ""%string → config_int64 cfg →
  ∃ locals c, Params c "topic" = PathEscape topic ∧
  Admin.UpsertTopicConfig client topic cfg w =
    decoding dec_config zero_config (answered_by (handler srv PUT_config c cron locals e w)) ∧
  ∀ v, upsertTopicConfig c e v =
    (if match ThroughputLimit cfg with Some n => n <? 0 | None => false end
     then (Ok (mkResponse StatusBadRequest
                 (json_error (Text "throughput_limit must be a non-negative integer"))), v)
     else match TopicConfig.UpsertTopicConfig (stored_config (PathEscape topic) cfg) e v with
          | (Ok _, v') => (Ok (mkResponse StatusOK (json_config
              (toTopicConfigResponse (stored_config (PathEscape topic) cfg)))), v')
          | (Err ErrReservedTopic, v') => (Ok (mkResponse StatusBadRequest
              (json_error (Text "topic name may not end in .dlq"))), v')
          | (Err _, v') => (Ok (mkResponse StatusInternalServerError
              (json_error (Text "internal server error"))), v')
          end).
Proof.
  intros Ht Hint.
  destruct (served "PUT" (config_url client topic) topic (Some (enc_config cfg)) PUT_config w)
    as (c & locals & Hpar & Hbody & Hrun); [done..| |].
  { intros req Hseg Hm Hu. by apply route_put_config. }
  destruct (Hbody _ eq_refl) as (Hparse & _ & _). clear Hbody.
  rewrite request_enc_config in Hparse by done.
  exists locals, c. split; [done|]. unfold Admin.UpsertTopicConfig. rewrite Hrun. split; [done|].
  intros v. unfold upsertTopicConfig, with_body. rewrite Hparse. cbn [cb_ThroughputLimit].
  assert (requested_config (Params c "topic") (mkConfigBody (MaxRetries cfg)
    (MessageTTLSeconds cfg) (MaxDepth cfg) (Some (Replayable cfg)) (ReplayWindowSeconds cfg)
    (ThroughputLimit cfg)) = stored_config (PathEscape topic) cfg) as ->.
  { unfold requested_config, stored_config. rewrite Hpar. simpl. by destruct (Replayable cfg). }
  destruct (match ThroughputLimit cfg with Some n => n <? 0 | None => false end); [done|].
  rewrite run_bind, run_try.
  by destruct (TopicConfig.UpsertTopicConfig _ e v) as [[u|[]] v'].
Qed.

(** What the service makes of the configuration, without faults. *)
Lemma upsert_config_cases cfg w :
  w_faults w = [] →
  TopicConfig.UpsertTopicConfig cfg e w =
    if HasSuffix (Topic cfg) ".dlq" then (Err ErrReservedTopic, w)
    else if decide (config_int4 cfg)
    then (Ok tt, invalidated (Topic cfg)
            (set_config (<[Topic cfg:=cfg]> (topic_config (w_db w))) (w_db w)) w)
    else (Err (ErrSQL "upsert topic config" NumericOutOfRange), w).
Proof.
  intros Hf. destruct (HasSuffix (Topic cfg) ".dlq") eqn:Hd.
  { unfold TopicConfig.UpsertTopicConfig. by rewrite Hd. }
  case_decide as Hi; [by apply UpsertTopicConfig_calm|].
  unfold TopicConfig.UpsertTopicConfig. rewrite Hd, run_bind, pool_stmt_calm by done.
  unfold sql_upsert_config. by rewrite decide_False.
Qed.

(** The deletion of a configuration. *)
Lemma delete_served topic w :
  topic ≠ ""%string → w_faults w = [] →
  Admin.DeleteTopicConfig client topic w =
    match topic_config (w_db w) !! PathEscape topic with
    | None => (Err adm_ErrNotFound, set_db (set_config (delete (PathEscape topic)
                 (topic_config (w_db w))) (w_db w)) w)
    | Some _ => (Ok tt, invalidated (PathEscape topic)
                   (set_throughput (delete (PathEscape topic) (topic_throughput (w_db w)))
                      (set_config (delete (PathEscape topic) (topic_config (w_db w))) (w_db w))) w)
    end.
Proof.
  intros Ht Hf.
  destruct (served "DELETE" (config_url client topic) topic None DELETE_config w)
    as (c & locals & Hpar & _ & Hrun); [done..| |].
  { intros req Hseg Hm Hu. by apply route_delete_config. }
  unfold Admin.DeleteTopicConfig. rewrite Hrun. simpl. unfold keep, deleteTopicConfig. rewrite Hpar.
  destruct (topic_config (w_db w) !! PathEscape topic) as [cfg|] eqn:Hc.
  - rewrite run_bind, run_bind, run_try, (DeleteTopicConfig_calm _ cfg) by done. done.
  - unfold TopicConfig.DeleteTopicConfig.
    rewrite run_bind, run_bind, run_try, run_bind, pool_stmt_calm by done.
    unfold sql_delete_config. rewrite Hc. done.
Qed.

(** The outcomes of an upsert. *)
Lemma upsert_served topic cfg w :
  in_step w → topic ≠ ""%string → config_int64 cfg →
  let t := PathEscape topic in
  let stored := stored_config t cfg in
  Admin.UpsertTopicConfig client topic cfg w =
    if match ThroughputLimit cfg with Some n => n <? 0 | None => false end || HasSuffix t ".dlq"
    then (Err (ErrUnexpectedStatus 400), w)
    else if decide (config_int4 stored)
    then (Ok stored, invalidated t (set_config (<[t := stored]> (topic_config (w_db w))) (w_db w)) w)
    else (Err (ErrUnexpectedStatus 500), w).
Proof.
  intros Hw Ht Hint t stored.
  destruct (config_served topic cfg w Ht Hint) as (locals & c & Hpar & Hrun & Hup).
  pose proof Hw as [Hcaches Hf].
  fold t stored in Hup. rewrite Hrun. simpl. unfold keep. rewrite run_bind, Hup.
  destruct (match ThroughputLimit cfg with Some n => n <? 0 | None => false end); [done|].
  rewrite (upsert_config_cases stored w Hf).
  change (Topic stored) with t in *. simpl.
  destruct (HasSuffix t ".dlq"); [done|]. case_decide as Hi; [|done]. simpl.
  rewrite first_document_Marshal. unfold enc_topicConfigResponse, toTopicConfigResponse. simpl.
  change (mkTopicConfig t (MaxRetries cfg) (MessageTTLSeconds cfg) (MaxDepth cfg)
    (Replayable cfg) (if Replayable cfg then ReplayWindowSeconds cfg else None)
    (ThroughputLimit cfg)) with stored.
  by rewrite decode_enc_config by by apply config_int4_int64.
Qed.

(** [C29] A configuration's way through the admin client and the server and back, with a token
    of an administrator or authentication disabled, and without faults.  Whatever the
    topic's name, the configuration is stored under the name as it is escaped in the URL -
    the name itself exactly if escaping changes nothing - with the fields the client asked
    for, a replay window only if replayable; the client is answered exactly what is stored.
    A negative limit and a reserved name are refused with 400, numbers beyond 32 bits with
    500, nothing changed.  The deletion that follows removes it, the next one reports
    [ErrNotFound]. *)
Theorem admin_config_end_to_end topic cfg w :
  in_step w → topic ≠ ""%string → config_int64 cfg →
  let t := PathEscape topic in
  let stored := stored_config t cfg in
  let run := Admin.UpsertTopicConfig client topic cfg w in
  (t = topic ↔ plain topic = true) ∧
  if match ThroughputLimit cfg with Some n => n <? 0 | None => false end || HasSuffix t ".dlq"
  then run = (Err (ErrUnexpectedStatus 400), w)
  else if decide (config_int4 stored) then
    run.1 = Ok stored ∧ in_step run.2 ∧
    w_db run.2 = set_config (<[t := stored]> (topic_config (w_db w))) (w_db w) ∧
    let run' := Admin.DeleteTopicConfig client topic run.2 in
    run'.1 = Ok tt ∧ topic_config (w_db run'.2) = delete t (topic_config (w_db w)) ∧
    (Admin.DeleteTopicConfig client topic run'.2).1 = Err adm_ErrNotFound
  else run = (Err (ErrUnexpectedStatus 500), w).
Proof.
  intros Hw Ht Hint t stored run. split; [apply PathEscape_plain|].
  pose proof (upsert_served topic cfg w Hw Ht Hint) as Hrun.
  cbv zeta in Hrun. fold t stored run in Hrun. revert Hrun.
  destruct (_ || _) eqn:Hrefused; [done|]. case_decide as Hi; [|done]. intros Hrun.
  apply orb_false_iff in Hrefused as [_ Hdlq].
  pose proof (UpsertTopicConfig_in_step stored e w Hw) as Hw1.
  rewrite (upsert_config_cases stored w) in Hw1 by apply Hw.
  change (Topic stored) with t in Hw1. rewrite Hdlq, decide_True in Hw1 by done.
  rewrite Hrun. split; [done|]. split; [exact Hw1|]. split; [done|].
  rewrite (delete_served topic); [|exact Ht|exact (proj2 Hw)]. simpl. fold t.
  rewrite lookup_insert_eq. simpl. split; [done|]. rewrite delete_insert_eq. split; [done|].
  rewrite (delete_served topic); [|exact Ht|exact (proj2 Hw)]. simpl. fold t.
  by rewrite lookup_delete_eq.
Qed.

(** *** Schemas and groups *)

Lemma schema_served topic schema sch w :
  topic ≠ ""%string → in_step w → avro_Parse schema = Some sch →
  int4 (next_version (w_db w) (PathEscape topic)) →
  let ts := mkTopicSchema (PathEscape topic) schema (next_version (w_db w) (PathEscape topic))
              (pg_now e) in
  Admin.UpsertTopicSchema client topic schema w =
    (Ok (toTopicSchemaResponse ts), schema_invalidated (PathEscape topic)
       (set_schemas (<[PathEscape topic := ts]> (topic_schemas (w_db w))) (w_db w)) w).
Proof.
  intros Ht [_ Hf] Hp Hv ts.
  destruct (served "PUT" (schema_url client topic) topic
    (Some (JObject [("schema_json"%string, JString schema)])) PUT_schema w)
    as (c & locals & Hpar & Hbody & Hrun); [done..| |].
  { intros req Hseg Hm Hu. by apply route_put_schema. }
  destruct (Hbody _ eq_refl) as (_ & Hparse & _).
  unfold Admin.UpsertTopicSchema. rewrite Hrun. simpl. unfold keep, upsertTopicSchema, with_body.
  rewrite Hparse, run_bind. simpl. rewrite Hpar, run_bind, run_try.
  rewrite (UpsertTopicSchemaAndNotify_calm _ _ sch) by done. fold ts. simpl.
  rewrite first_document_Marshal. cbn [mbind option_bind].
  assert (int64_ok (Version ts)) as Hv64.
  { unfold int64_ok, int4 in *. simpl. lia. }
  unfold Json.decode. by rewrite decode_enc_schema.
Qed.

Lemma groups_listed topic w :
  topic ≠ ""%string → w_faults w = [] →
  ∃ l, Admin.ListConsumerGroups client topic w = (Ok l, w) ∧
    ∀ g, g ∈ l ↔ (PathEscape topic, g) ∈ dom (consumer_groups (w_db w)).
Proof.
  intros Ht Hf.
  destruct (served "GET" (groups_url client topic) topic None GET_groups w)
    as (c & locals & Hpar & _ & Hrun); [done..| |].
  { intros req Hseg Hm Hu. by apply route_get_groups. }
  unfold Admin.ListConsumerGroups. rewrite Hrun. simpl. unfold keep, listConsumerGroups, or_500.
  unfold ConsumerGroup.ListConsumerGroups.
  rewrite Hpar, run_bind, run_bind, run_try, pool_query_quiet by done. simpl.
  rewrite first_document_Marshal. simpl.
  set (l := _ <$> order_by _ _). exists l.
  rewrite (decode_enc_list "items" dec_string ""%string JString l) by (by apply Forall_true).
  split; [done|]. intros g. unfold l. rewrite list_elem_of_fmap, elem_of_dom.
  split.
  - intros ([[t g'] n] & -> & Hin). rewrite order_by_perm in Hin.
    apply list_elem_of_filter in Hin as [Ht' Hin]. simpl in *. subst t.
    exists n. by apply elem_of_map_to_list.
  - intros [n Hn]. exists (PathEscape topic, g, n). split; [done|].
    rewrite order_by_perm. apply list_elem_of_filter. split; [done|]. by apply elem_of_map_to_list.
Qed.

(** Registration, without faults. *)
Lemma register_calm s topic group w :
  in_step w → (requireTopicRegistration s = true → is_Some (topic_config (w_db w) !! topic)) →
  ∃ w', ConsumerGroup.RegisterConsumerGroup s topic group e w =
      (match consumer_groups (w_db w) !! (topic, group) with
       | Some _ => Err ErrConsumerGroupExists | None => Ok tt end, w') ∧
    dom (consumer_groups (w_db w')) = {[(topic, group)]} ∪ dom (consumer_groups (w_db w)) ∧
    config_tables (w_db w) (w_db w').
Proof.
  intros Hw Hreg. unfold ConsumerGroup.RegisterConsumerGroup.
  assert (∃ w0, (if requireTopicRegistration s then
      cfg ← GetTopicConfig topic; guard_ok (bool_decide (is_Some cfg)) ErrTopicNotRegistered
      else mret tt) e w = (Ok tt, w0) ∧ w_db w0 = w_db w ∧ w_faults w0 = []) as (w0 & Hpre & Hdb & Hf).
  { pose proof Hw as [[Hc _] Hf]. destruct (requireTopicRegistration s); [|by exists w].
    destruct (GetTopicConfig_answer topic e w Hf Hc) as [w0 Hrun].
    destruct (GetTopicConfig_neutral topic e w) as [Hdb _].
    destruct (GetTopicConfig_is_calm topic e w Hf) as [Hf0 _].
    rewrite Hrun in Hdb, Hf0. exists w0. rewrite run_bind, Hrun.
    by rewrite bool_decide_true by by apply Hreg. }
  rewrite run_bind, Hpre, run_bind, begin_tx_calm by done. rewrite run_bind, tx_stmt_calm by done.
  unfold sql_insert_group. simpl. rewrite Hdb.
  destruct (consumer_groups (w_db w) !! (topic, group)) as [at_|] eqn:Hg; simpl.
  - eexists. split; [done|]. simpl. rewrite Hdb. split; [|done].
    apply set_eq. intros tg. rewrite elem_of_union, elem_of_singleton.
    split; [by right|]. intros [->|?]; [|done]. apply elem_of_dom. by exists at_.
  - unfold tx_exec. rewrite run_bind, tx_stmt_calm by done. simpl. rewrite commit_tx_calm by done.
    eexists. split; [done|]. simpl. by rewrite dom_insert_L.
Qed.

Lemma register_served topic group w :
  topic ≠ ""%string → group ≠ ""%string → in_step w →
  (requireTopicRegistration (queueService srv) = true →
   is_Some (topic_config (w_db w) !! PathEscape topic)) →
  ∃ w', Admin.RegisterConsumerGroup client topic group w =
      (match consumer_groups (w_db w) !! (PathEscape topic, group) with
       | Some _ => Err adm_ErrConflict | None => Ok tt end, w') ∧ in_step w' ∧
    dom (consumer_groups (w_db w')) =
      {[(PathEscape topic, group)]} ∪ dom (consumer_groups (w_db w)) ∧
    config_tables (w_db w) (w_db w').
Proof.
  intros Ht Hg Hw Hreg.
  destruct (served "POST" (groups_url client topic) topic
    (Some (JObject [("consumer_group"%string, JString group)])) POST_groups w)
    as (c & locals & Hpar & Hbody & Hrun); [done..| |].
  { intros req Hseg Hm Hu. by apply route_post_groups. }
  destruct (Hbody _ eq_refl) as (_ & _ & Hparse).
  unfold Admin.RegisterConsumerGroup. rewrite Hrun. simpl. unfold keep, registerConsumerGroup, with_body.
  rewrite Hparse, run_bind. simpl. rewrite bool_decide_false by done.
  rewrite Hpar, run_bind, run_try.
  destruct (register_calm (queueService srv) (PathEscape topic) group w Hw Hreg)
    as (w' & Hreg' & Hdom & Hcfg).
  pose proof (proj1 (groups_in_step (queueService srv) (PathEscape topic) group) e w Hw) as Hw'.
  rewrite Hreg' in Hw' |- *. exists w'.
  destruct (consumer_groups (w_db w) !! (PathEscape topic, group)); by split_and!.
Qed.

(** The versions of the schemas count from one. *)
Definition versions_ok (db : DB) : Prop := map_Forall (λ _ ts, 0 ≤ Version ts) (topic_schemas db).

(** The client and the server keep what the seeder relies on. *)
#[refine] Instance admin_laws : AdminLaws World := {|
  good w := in_step w ∧ versions_ok (w_db w);
  view := server_view;
  valid_topic := plain_topic;
  valid_config := storable_config;
  valid_schema schema := is_Some (avro_Parse schema);
  registration_required := requireTopicRegistration (queueService srv) = true;
|}.
Proof.
  - by intros topic (? & _).
  - intros w topic cfg [Hw Hver] (Ht & Hplain & Hdlq) [Hint Hthr]. apply PathEscape_plain in Hplain.
    pose proof (upsert_served topic cfg w Hw Ht (config_int4_int64 _ Hint)) as Hrun.
    cbv zeta in Hrun. rewrite Hplain, Hdlq, orb_false_r, decide_True in Hrun by by apply stored_int4.
    assert (match ThroughputLimit cfg with Some n => n <? 0 | None => false end = false) as Hn.
    { destruct (ThroughputLimit cfg); [by apply Z.ltb_ge|done]. }
    rewrite Hn in Hrun. eexists _, _. split; [exact Hrun|]. split; [|done]. split; [|exact Hver].
    pose proof (UpsertTopicConfig_in_step (stored_config topic cfg) e w Hw) as Hw1.
    rewrite (upsert_config_cases _ w (proj2 Hw)) in Hw1. simpl in Hw1.
    by rewrite Hdlq, decide_True in Hw1 by by apply stored_int4.
  - intros w topic schema [Hw Hver] (Ht & Hplain & Hdlq) [sch Hsch] Hroom.
    apply PathEscape_plain in Hplain.
    pose proof (schema_served topic schema sch w Ht Hw Hsch) as Hrun. rewrite Hplain in Hrun.
    pose proof (UpsertTopicSchema_in_step topic schema e w Hw) as Hw1.
    assert (int4 (next_version (w_db w) topic) ∧ 0 ≤ next_version (w_db w) topic) as [Hv Hv0].
    { unfold next_version, int4. simpl in Hroom.
      destruct (topic_schemas (w_db w) !! topic) as [ts|] eqn:Hts; [|lia].
      specialize (Hroom (SchemaJSON ts) (Version ts)). rewrite lookup_fmap, Hts in Hroom.
      specialize (Hroom eq_refl). specialize (Hver topic ts Hts). simpl in Hver. lia. }
    specialize (Hrun Hv). cbv zeta in Hrun. eexists _, _. split; [exact Hrun|].
    rewrite (UpsertTopicSchemaAndNotify_calm topic schema sch _ _ (proj2 Hw) Hsch Hv) in Hw1.
    split; [split; [exact Hw1|]|].
    { unfold versions_ok. simpl. by apply map_Forall_insert_2. }
    unfold server_view, view_schema, next_schema. simpl. f_equal.
    rewrite fmap_insert. simpl. f_equal. f_equal. unfold next_version. rewrite lookup_fmap.
    by destruct (topic_schemas (w_db w) !! topic).
  - intros w topic [Hw Hver] (Ht & Hplain & _). apply PathEscape_plain in Hplain.
    destruct (groups_listed topic w Ht (proj2 Hw)) as (l & Hrun & Hl). rewrite Hplain in Hl.
    exists l, w. by split_and!.
  - intros w topic group [Hw Hver] (Ht & Hplain & _) Hg Hreg. apply PathEscape_plain in Hplain.
    destruct (register_served topic group w Ht Hg Hw) as (w' & Hrun & Hw' & Hdom & Hc1 & Hc2);
      rewrite Hplain in *; [exact Hreg|].
    eexists _, w'. split; [exact Hrun|]. unfold versions_ok, server_view, view_group. simpl.
    rewrite Hc1, Hc2, Hdom. split; [by split|]. split; [done|].
    destruct (consumer_groups (w_db w) !! (topic, group)) as [n|] eqn:Hn.
    + rewrite decide_True; [done|]. apply elem_of_dom. by exists n.
    + rewrite decide_False; [done|]. by apply not_elem_of_dom.
Defined.
End served.
