(* ===== verification/Pipeline.v ===== *)
(** * The order pipeline

    [clients/go-client/examples/order-pipeline]: a producer that publishes five orders, a
    consumer group that handles them, one of them always refused, and a loop that drains
    the dead-letter topic.  The three goroutines, the server's side of the subscription
    and everything else that uses the server are interleaved as events on one world. *)

From S2P Require Import Prelude.
From S2P Require Import Store.
From S2P Require Import Avro.
From S2P Require Import Json.
From S2P Require Import Runtime.
From S2P Require Import Model.
From S2P Require Import Schema.
From S2P Require Import Throttle.
From S2P Require Import Dequeue.
From S2P Require Import Enqueue.
From S2P Require Import Lifecycle.
From S2P Require Import Replay.
From S2P Require Import Query.
From S2P Require Import System.
From S2P Require Import Users.
From S2P Require Import Grpc.
From S2P Require Import Http.
From S2P Require Import Admin.
From S2P Require Import Client.
From S2P Require Import Consumer.
From S2P Require Import EndToEnd.

Definition ordersTopic : string := "orders".
Definition dlqTopic : string := "orders.dlq".
Definition consumerGroup : string := "fulfillment".

(** ** Orders *)

Record order := mkOrder { ord_ID : string; Item : string; Amount : Z; Poison : bool }.

Definition enc_order (o : order) : json := JObject
  ([("id"%string, JString (ord_ID o)); ("item"%string, JString (Item o));
    ("amount"%string, enc_int (Amount o))] ++
   (if Poison o then [("poison"%string, JBool true)] else [])).

Definition zero_order : order := mkOrder "" "" 0 false.
Definition dec_order : Decoder order := dec_struct
  [ field_of "id" ord_ID (λ v o, mkOrder v (Item o) (Amount o) (Poison o)) dec_string;
    field_of "item" Item (λ v o, mkOrder (ord_ID o) v (Amount o) (Poison o)) dec_string;
    field_of "amount" Amount (λ v o, mkOrder (ord_ID o) (Item o) v (Poison o)) dec_int;
    field_of "poison" Poison (λ v o, mkOrder (ord_ID o) (Item o) (Amount o) v) dec_bool ].

Definition orders : list order :=
  [ mkOrder "ord-1" "Widget A" 2 false; mkOrder "ord-2" "Gadget B" 1 false;
    mkOrder "ord-3" "poison" 0 true; mkOrder "ord-4" "Widget C" 5 false;
    mkOrder "ord-5" "Gadget D" 3 false ].

Lemma decode_enc_order o :
  int64_ok (Amount o) → Json.decode dec_order zero_order (enc_order o) = Some o.
Proof.
  intros Ha. unfold Json.decode, dec_order, enc_order, dec_struct. rewrite fold_left_app.
  do 2 rewrite (fold_members _ (_, _) (_ :: _)).
  do 2 (erewrite member_decodes; [|reflexivity|reflexivity]).
  erewrite member_decodes; [|reflexivity|].
  2: { unfold field_of. cbn [snd]. by rewrite dec_enc_int. }
  destruct o as [i it a []]; cbn [Poison]; [|done].
  by erewrite member_decodes; [|reflexivity|reflexivity].
Qed.

(** [os.Getenv] answers the empty text for a variable that is not set. *)
Definition envOr (getenv : string → string) (key fallback : string) : string :=
  let v := getenv key in if bool_decide (v = "") then fallback else v.

(** ** The goroutines *)

Section goroutines.
Context `{CO : Codecs} (json_Marshal : json → string) (unmarshal_error : string → string).

(** The handler's verdict; its logging is left out. *)
Definition handleOrder (msg : Delivered) : handler_result :=
  match (j ← json_Unmarshal (dm_Payload msg); Json.decode dec_order zero_order j) with
  | None => returned_error ("invalid payload: " +:+ unmarshal_error (dm_Payload msg))
  | Some o => if Poison o then returned_error "poison pill" else returned_nil
  end.

(** What [handleOrder] says to the orders of [produce]. *)
Lemma handleOrder_published o m :
  int64_ok (Amount o) → dm_Payload m = json_Marshal (enc_order o) →
  json_Unmarshal (json_Marshal (enc_order o)) = Some (enc_order o) →
  handleOrder m = if Poison o then returned_error "poison pill" else returned_nil.
Proof.
  intros Ha Hp Hj. unfold handleOrder. rewrite Hp, Hj. cbn [mbind option_bind].
  by rewrite decode_enc_order.
Qed.

Context {S : Type} `{QS : QueueServiceClient S}.

(** One round of the loop in [produce]: the context is done ([None]), or half a second
    passes and the next order is published; an error is only logged. *)
Definition produce_next (f : option fate) (os : list order) (s : S) : list order * S :=
  match f, os with
  | None, _ | _, [] => ([], s)
  | Some f, o :: os' =>
      (os', (Publish f ordersTopic (json_Marshal (enc_order o))
               [WithMetadata (Some {["source" := "order-pipeline"]}); WithKey (ord_ID o)] s).2)
  end%string.

(** The handler of [drainDLQ]; errors of the acknowledgements are only logged. *)
Definition drain_batch (fates : list fate) (msgs : list Delivered) (s : S) : S :=
  foldl (λ s fm, (msg_Ack fm.1 fm.2 s).2) s (zip (fates ++ repeat answered (length msgs)) msgs).

Definition consume_config : consumerConfig :=
  NewConsumer [WithConsumerGroup consumerGroup; WithConcurrency 3].
Definition drain_config : consumerConfig := NewConsumer [WithConsumerGroup consumerGroup].
End goroutines.

(** ** Setting up *)

Section setup.
Context {TLS Raw RefreshFn Conn : Type}.

(** The options [main] dials with. *)
Definition dial_options (token : string) (refresh : RefreshFn)
    : list (DialOption TLS Raw RefreshFn) :=
  WithInsecure ::
  (if bool_decide (token = "") then [] else [WithBearerToken token; WithTokenRefresher refresh]).

(** [registerConsumerGroup] on what the admin client answered. *)
Definition registerConsumerGroup (answer : result AdminError unit) : result AdminError unit :=
  match answer with
  | Ok _ | Err adm_ErrConflict => Ok tt
  | Err x => Err x
  end.

(** The steps of [main] before the goroutines start, and the one that fails. *)
Inductive SetupError :=
| auth_failed (x : AuthError) | dial_failed | registration_failed (x : AdminError).

Context `{WI : Wire} {W : Type}.
Abbreviation HttpClient := (HttpRequest → W → option HttpResponse * W).

Definition main (getenv : string → string) (http : HttpClient)
    (refresh_of : Auth (W := W) → RefreshFn)
    (empty_tls : TLS) (NewClient : string → list (GrpcOption (TLS := TLS) (Raw := Raw)) → option Conn)
    (w : W) : result SetupError (Client RefreshFn Conn) * W :=
  let adminAddr := "http://localhost:8080"%string in
  match NewAuth http adminAddr (envOr getenv "QUEUETI_USERNAME" "admin")
          (envOr getenv "QUEUETI_PASSWORD" "secret") [] w with
  | (Err x, w1) => (Err (auth_failed x), w1)
  | (Ok auth, w1) =>
      match Dial empty_tls NewClient "localhost:50051" (dial_options (au_token auth) (refresh_of auth)) with
      | None => (Err dial_failed, w1)
      | Some client =>
          let admin := NewAdminClient http adminAddr [WithAdminToken (au_token auth)] in
          match RegisterConsumerGroup admin ordersTopic consumerGroup w1 with
          | (r, w2) =>
              (match registerConsumerGroup r with
               | Err x => Err (registration_failed x)
               | Ok _ => Ok client
               end, w2)
          end
      end
  end.
End setup.

(** ** The pipeline on the server *)

Section pipeline.
Context `{PG : Postgres} `{ST : Storage} `{CO : Codecs}.
Context (json_Marshal : json → string) (unmarshal_error : string → string).
Context (s : Service) (c : Caller).

(** The orders still to be published, the messages the server has sent that no handler
    has yet, the running handlers, the batches the drain was given, and the server. *)
Record Pipeline := mkPipeline {
  to_publish : list order; in_transit : list Delivered; in_handler : list Delivered;
  batches : list (list Delivered); pl_world : World }.

(** What happens next: the producer's turn; an iteration of the server's loop behind the
    subscription; a message taken off the stream, when one of the three slots is free; the
    end of the [i]-th handler and the settling call; a turn of the drain, with the fates of
    its acknowledgements; any other use of the server, its own jobs included. *)
Inductive PipelineEvent :=
| ev_publish_next (f : option fate) (e : Env)
| ev_server_send (t : StreamTick) (backoff : Z) (e : Env)
| ev_start_handler
| ev_handler_ends (i : nat) (f : fate) (e : Env)
| ev_drain_turn (f : fate) (acks : list fate) (e : Env)
| ev_server_call (call : System.call) (e : Env).

Definition pipeline_event (ev : PipelineEvent) (p : Pipeline) : Pipeline :=
  match ev with
  | ev_publish_next f e =>
      let '(os, w) := produce_next (QS := stub s c e) json_Marshal f (to_publish p) (pl_world p) in
      mkPipeline os (in_transit p) (in_handler p) (batches p) w
  | ev_server_send t backoff e =>
      match subscribe_iteration s (subscribe_request ordersTopic consume_config) 0 backoff t e
              (pl_world p) with
      | (Ok (continue_ _ (Some resp)), w) =>
          mkPipeline (to_publish p) (in_transit p ++ [protoToMessage (cfg_consumerGroup consume_config) resp])
            (in_handler p) (batches p) w
      | (_, w) => mkPipeline (to_publish p) (in_transit p) (in_handler p) (batches p) w
      end
  | ev_start_handler =>
      match in_transit p with
      | m :: ms =>
          if Z.of_nat (length (in_handler p)) <? concurrency consume_config
          then mkPipeline (to_publish p) ms (in_handler p ++ [m]) (batches p) (pl_world p)
          else p
      | [] => p
      end
  | ev_handler_ends i f e =>
      match in_handler p !! i with
      | Some m =>
          mkPipeline (to_publish p) (in_transit p) (delete i (in_handler p)) (batches p)
            (dispatch (QS := stub s c e) f m (handleOrder unmarshal_error m) (pl_world p))
      | None => p
      end
  | ev_drain_turn f acks e =>
      let turn := mkBatchTurn false f false false (drain_batch (QS := stub s c e) acks) in
      let '(_, bs, _, w) :=
        ConsumeBatch (QS := stub s c e) drain_config dlqTopic 10 backoffStart [turn] (pl_world p) in
      mkPipeline (to_publish p) (in_transit p) (in_handler p) (batches p ++ bs) w
  | ev_server_call call e =>
      mkPipeline (to_publish p) (in_transit p) (in_handler p) (batches p)
        (run_call s call e (pl_world p)).2
  end.

Definition run_pipeline (evs : list PipelineEvent) (p : Pipeline) : Pipeline :=
  foldl (λ p ev, pipeline_event ev p) p evs.

(** As [main] starts the goroutines. *)
Definition start_pipeline (w : World) : Pipeline := mkPipeline orders [] [] [] w.

(** ** Dead letters *)

Context `{LAWS : !PostgresLaws}.

(** No message is in topic [t]. *)
Definition without_topic (t : string) (db : DB) : Prop :=
  ∀ i r, messages db !! i = Some r → m_topic r ≠ t.

(** The calls that put no message into [t]: not the rejection of a message outside of any
    group, which promotes to the dead-letter topic, not the requeueing of such a message,
    and not a publication or a replay to [t] itself. *)
Definition leaves_topic_empty (t : string) (call : System.call) : Prop :=
  match call with
  | do_Nack _ _ | do_Requeue _ => False
  | do_Enqueue topic _ _ _ | do_ReplayTopic topic _ => topic ≠ t
  | _ => True
  end.

Definition keeps_without (t : string) (db db' : DB) : Prop := without_topic t db → without_topic t db'.
#[local] Instance keeps_without_preorder t : PreOrder (keeps_without t).
Proof. split; [by intros db ?|]. intros db1 db2 db3 H1 H2 H. by apply H2, H1. Qed.

Lemma keeps_without_other t db db' : other_tables db db' → keeps_without t db db'.
Proof. intros [Hm _] H i r. rewrite Hm. apply H. Qed.

(** A row in the place of another of its topic, or of a topic other than [t]. *)
Lemma without_insert t i r ms db :
  m_topic r ≠ t → without_topic t db → ms = <[i:=r]> (messages db) →
  without_topic t (set_messages ms db).
Proof.
  intros Hr Hdb -> j rj. simpl. intros [[<- <-]|[_ Hj]]%lookup_insert_Some; [done|by apply Hdb in Hj].
Qed.

Lemma without_update t P `{∀ i r, Decision (P i r)} f db :
  (∀ r, m_topic (f r) = m_topic r) → without_topic t db →
  without_topic t (set_messages (map_update P f (messages db)) db).
Proof.
  intros Hf Hdb i r. simpl. intros (r0 & Hr & ->)%lookup_map_update_Some.
  case_decide; rewrite ?Hf; by apply Hdb in Hr.
Qed.

Lemma without_delete t P `{∀ i r, Decision (P i r)} db :
  without_topic t db → without_topic t (delete_messages_where P db).2.
Proof. intros Hdb i r. simpl. intros [Hr _]%map_lookup_filter_Some. by apply Hdb in Hr. Qed.

Lemma insert_message_without t now i r db db' :
  insert_message now i r db = Ok db' → m_topic r ≠ t → keeps_without t db db'.
Proof.
  intros (_ & _ & Hm & _)%insert_message_Ok Hr Hdb j rj. rewrite Hm.
  intros [[<- <-]|[_ Hj]]%lookup_insert_Some; [done|by apply Hdb in Hj].
Qed.

Lemma sql_enqueue_without t topic payload md key p e db id db' :
  topic ≠ t → sql_enqueue topic payload md key p e db = Ok (id, db') → keeps_without t db db'.
Proof.
  intros Ht. unfold sql_enqueue. case_decide; [|done].
  destruct (conflicting_row topic key db) as [[j rj]|] eqn:Hc.
  - intros [= _ <-] Hdb. apply conflicting_row_Some in Hc as [Hj _].
    eapply without_insert; [|done|done]. by apply Hdb in Hj.
  - destruct (insert_message _ _ _ _) as [db1|] eqn:Hi; [|done]. intros [= _ <-].
    by eapply insert_message_without.
Qed.

Lemma replay_rows_without t topic exp e n rows db k db' :
  topic ≠ t → replay_rows topic exp e n rows db = (k, db') → keeps_without t db db'.
Proof.
  intros Ht. revert n db k. induction rows as [|l rows IH]; intros n db k; simpl;
    [by intros [= _ <-]|].
  destruct (insert_message _ _ _ _) as [db1|] eqn:Hi; [|by apply IH].
  destruct (replay_rows _ _ _ _ rows db1) as [c1 db2] eqn:Hrest. intros [= _ <-].
  etrans; [by eapply insert_message_without|by eapply IH].
Qed.

Lemma writes_without t call e db db' :
  leaves_topic_empty t call → writes call e db db' → keeps_without t db db'.
Proof.
  intros Hc. destruct call; simpl in *; try done.
  - intros (p & id & H). by eapply sql_enqueue_without.
  - intros (secs & row & H) Hdb. unfold sql_claim_one in H.
    destruct (select_messages _ 1 e db) as [|[j rj] l] eqn:Hs; injection H as _ <-; [done|].
    assert ((j, rj) ∈ select_messages (eligible (pg_now e) topic) 1 e db) as Hin
      by (rewrite Hs; by left).
    apply select_messages_elem in Hin as (Hj & _).
    eapply without_insert; [|done|done]. by apply Hdb in Hj.
  - intros (m & secs & rows & [= _ <-]) Hdb. by apply without_update.
  - intros (m & secs & ids & [= _ <-]) Hdb. exact Hdb.
  - intros (m & secs & ids & [= _ <-]) Hdb. exact Hdb.
  - intros -> Hdb. by apply without_delete.
  - intros [-> | ->] Hdb; [exact Hdb|by apply without_delete].
  - intros (f & _ & H) Hdb. unfold update_delivery in H. by repeat case_match; simplify_eq.
  - intros [= <-] Hdb. exact Hdb.
  - intros [= <-] Hdb. exact Hdb.
  - intros (n & [= _ <-]) Hdb. by apply without_update.
  - intros (n & [= _ <-]) Hdb. by apply without_delete.
  - intros (n & [= _ <-]) Hdb. by apply without_update.
  - intros (n & [= _ <-]) Hdb. by apply without_delete.
  - intros (exp & rows & n & H & _). by eapply replay_rows_without.
  - intros -> Hdb. by apply without_delete.
  - intros -> Hdb. by apply without_delete.
Qed.

(** *** The calls of the pipeline *)

Abbreviation safe := (op (keeps_without dlqTopic)).

Lemma safe_neutral {A} (m : M A) : neutral m → safe m.
Proof. apply op_neutral. exact _. Qed.

Lemma safe_rpc {A B} (m : M (result Code A)) (k : A → M (result Code B)) :
  safe m → (∀ a, safe (k a)) → safe (rpc_bind m k).
Proof.
  intros Hm Hk. unfold rpc_bind. apply op_bind; [exact _|done|].
  intros [a|x]; [apply Hk|]. apply safe_neutral. unfold abort. solve_neutral.
Qed.

(** What an answer makes of the error of a call does not touch the tables. *)
Lemma safe_try {A B} (m : M A) (k : result Error A → M B) :
  safe m → (∀ r, neutral (k r)) → safe (try m ≫= k).
Proof.
  intros Hm Hk. apply op_bind; [exact _|by apply op_try|]. intros r. by apply safe_neutral.
Qed.

Ltac walk_check := intros; solve_neutral; by apply neutral_try, neutral_pool_query.
Lemma checkGrant_safe action topic : safe (checkGrant c action topic).
Proof. apply safe_neutral. unfold checkGrant, GetUserGrants, ListGrants, reply, abort. walk_check. Qed.
Lemma checkDequeueGrant_safe topic group : safe (checkDequeueGrant c topic group).
Proof.
  apply safe_neutral. unfold checkDequeueGrant, GetUserGrants, ListGrants, reply, abort. walk_check.
Qed.

Lemma topic_of_safe id : safe (topic_of id).
Proof.
  apply safe_neutral. unfold topic_of, TopicForMessage, reply, abort.
  solve_neutral. apply neutral_try. solve_neutral.
Qed.

Lemma rpc_Enqueue_safe req : enq_Topic req ≠ dlqTopic → safe (rpc_Enqueue s c req).
Proof.
  intros Ht. unfold rpc_Enqueue, reply, abort.
  case_match; [apply safe_neutral; solve_neutral|].
  case_match; [apply safe_neutral; solve_neutral|].
  apply safe_rpc; [apply checkGrant_safe|]. intros _. apply safe_try; [|intros; solve_neutral].
  apply Enqueue_op; [exact _|]. intros p e db id db'. by apply sql_enqueue_without.
Qed.

Lemma dequeue_for_safe topic group vt : group ≠ ""%string → safe (dequeue_for s topic group vt).
Proof.
  intros Hg. unfold dequeue_for. rewrite bool_decide_false by done.
  apply DequeueForGroup_op; [exact _|exact (related_throttle _ (keeps_without_other _) _)|].
  intros m secs e db ids db' [= _ <-] Hdb. exact Hdb.
Qed.

Lemma settle_safe m : safe m → safe (settle m).
Proof. intros Hm. apply safe_try; [done|]. intros [|[]]; unfold reply, abort; solve_neutral. Qed.

Lemma rpc_Ack_safe req : safe (rpc_Ack c req).
Proof.
  unfold rpc_Ack. case_match; [apply safe_neutral; unfold abort; solve_neutral|].
  apply safe_rpc; [apply topic_of_safe|]. intros topic.
  apply safe_rpc; [apply checkDequeueGrant_safe|]. intros _. apply settle_safe. case_match.
  - apply Ack_op; [exact _|exact (related_log _ (keeps_without_other _))|]. intros db Hdb. by apply without_delete.
  - apply AckForGroup_op; [exact _|exact (related_log _ (keeps_without_other _))|..]; intros db Hdb;
      [exact Hdb|by apply without_delete].
Qed.

Lemma rpc_Nack_safe req : nack_ConsumerGroup req ≠ ""%string → safe (rpc_Nack s c req).
Proof.
  intros Hg. unfold rpc_Nack. case_match; [apply safe_neutral; unfold abort; solve_neutral|].
  apply safe_rpc; [apply topic_of_safe|]. intros topic.
  apply safe_rpc; [apply checkDequeueGrant_safe|]. intros _. apply settle_safe.
  rewrite bool_decide_false by done.
  apply NackForGroup_op; [exact _|]. intros f db db' _ Hq Hdb. unfold update_delivery in Hq.
  by repeat case_match; simplify_eq.
Qed.

Lemma rpc_BatchDequeue_safe req :
  bat_ConsumerGroup req ≠ ""%string → safe (rpc_BatchDequeue s c req).
Proof.
  intros Hg. unfold rpc_BatchDequeue, reply, abort.
  case_match; [apply safe_neutral; solve_neutral|].
  case_match; [apply safe_neutral; solve_neutral|].
  case_match; [|apply safe_neutral; solve_neutral].
  apply safe_rpc; [apply checkDequeueGrant_safe|]. intros _. apply safe_try; [|intros; solve_neutral].
  rewrite bool_decide_false by done.
  apply DequeueNForGroup_op; [exact _|exact (related_throttle _ (keeps_without_other _) _)|].
  intros m secs e db ids db' [= _ <-] Hdb. exact Hdb.
Qed.

(** No delivery of a topic without messages can be claimed. *)
Lemma select_deliveries_none topic group n e db :
  without_topic topic db → select_deliveries topic group n e db = [].
Proof.
  intros Hdb. destruct (select_deliveries topic group n e db) as [|[i [r d]] l] eqn:Hs; [done|].
  destruct (select_deliveries_elem topic group n e db i r d) as (Hr & _ & [Ht _] & _);
    [rewrite Hs; by left|]. by apply Hdb in Hr.
Qed.

(** A batch of a topic without messages is empty. *)
Lemma empty_topic_batch topic group n vt e w ms w' :
  without_topic topic (w_db w) →
  DequeueNForGroup s topic group n vt e w = (Ok ms, w') → ms = [].
Proof.
  intros Hw H. unfold DequeueNForGroup in H. case_match; [done|]. cbv zeta in H.
  apply bind_Ok in H as (? & w1 & [? ->]%begin_tx_Ok & H).
  apply bind_Ok in H as (m & w2 & (fs & tt' & -> & _)%applyThroughputLimit_Ok & H).
  case_match; [by inv_ok|].
  apply bind_Ok in H as (ids & w3 & (fs' & db' & Hq & ->)%tx_stmt_Ok & H).
  unfold sql_claim_deliveries in Hq. simpl in Hq. rewrite select_deliveries_none in Hq by exact Hw.
  injection Hq as <- _. simpl in H.
  assert (returning (A:=string) [] = []) as Hnil by (apply Permutation_nil_r, returning_perm).
  rewrite Hnil in H. by inv_ok.
Qed.

(** What becomes of a call of the stub, whatever its fate. *)
Lemma stub_call_safe {A} (m : M (result Code A)) f e w :
  safe m → keeps_without dlqTopic (w_db w) (w_db (call f (rpc_run m e) w).2).
Proof.
  intros Hm. pose proof (Hm e w) as Hw. unfold call.
  destruct f; [|done|]; rewrite <-rpc_run_world in Hw;
    by destruct (rpc_run m e w) as [[] ?].
Qed.

Lemma msg_Ack_safe f m e w :
  keeps_without dlqTopic (w_db w) (w_db (msg_Ack (QS := stub s c e) f m w).2).
Proof. apply (stub_call_safe (rpc_Ack c _)), rpc_Ack_safe. Qed.

Lemma dispatch_safe f m res e w :
  dm_group m ≠ ""%string →
  keeps_without dlqTopic (w_db w) (w_db (dispatch (QS := stub s c e) f m res w)).
Proof.
  intros Hg. destruct res; simpl; [apply msg_Ack_safe|..];
    by apply (stub_call_safe (rpc_Nack s c _)), rpc_Nack_safe.
Qed.

(** ** The drain gets nothing *)

Record pipeline_ok (p : Pipeline) : Prop := {
  ok_no_dead_letter : without_topic dlqTopic (w_db (pl_world p));
  ok_no_batch : batches p = [];
  ok_grouped : Forall (λ m, dm_group m = consumerGroup) (in_transit p ++ in_handler p);
  ok_three : (length (in_handler p) ≤ 3)%nat;
}.

(** The events that are no use of the server that could fill the dead-letter topic. *)
Definition harmless (ev : PipelineEvent) : Prop :=
  match ev with ev_server_call call _ => leaves_topic_empty dlqTopic call | _ => True end.

Lemma subscribe_iteration_safe t backoff : safe (subscribe_iteration s
  (subscribe_request ordersTopic consume_config) 0 backoff t).
Proof.
  unfold subscribe_iteration. case_match; [apply safe_neutral; solve_neutral|].
  apply safe_try; [by apply dequeue_for_safe|]. intros. solve_neutral.
Qed.

Lemma drain_batch_safe acks ms e w :
  keeps_without dlqTopic (w_db w) (w_db (drain_batch (QS := stub s c e) acks ms w)).
Proof.
  unfold drain_batch. generalize (zip (acks ++ repeat answered (length ms)) ms). intros fms.
  revert w. induction fms as [|fm fms IH]; intros w; [reflexivity|]. simpl.
  etrans; [apply msg_Ack_safe|apply IH].
Qed.

Lemma call_answered {X A} f (m : X → result Code A * X) x a x' :
  call f m x = (Ok a, x') → m x = (Ok a, x').
Proof. unfold call. destruct f; [|done..]. destruct (m x) as [[]]; naive_solver. Qed.

(** The service answers a poll of the drain with an empty batch. *)
Lemma drain_poll_empty f e w ms w' :
  without_topic dlqTopic (w_db w) →
  call f (pb_BatchDequeue (QueueServiceClient := stub s c e)
            (batch_request dlqTopic 10 drain_config)) w = (Ok ms, w') → ms = [].
Proof.
  intros Hw H%call_answered. simpl in H. unfold rpc_run in H.
  destruct (rpc_BatchDequeue s c _ e w) as [[[ms'|]|] w1] eqn:Hrun; simplify_eq.
  unfold rpc_BatchDequeue in Hrun. simpl in Hrun. unfold rpc_bind in Hrun.
  apply bind_Ok in Hrun as (r & w2 & Hcheck & Hrun).
  pose proof (checkDequeueGrant_safe dlqTopic consumerGroup e w Hw) as Hw2.
  change (checkDequeueGrant c dlqTopic consumerGroup e w = (Ok r, w2)) in Hcheck.
  rewrite Hcheck in Hw2. destruct r as [u|x]; [|by inv_ok].
  rewrite run_bind, run_try in Hrun.
  destruct (DequeueNForGroup s dlqTopic consumerGroup _ _ e w2) as [[b|x] w3] eqn:Hdeq.
  - apply empty_topic_batch in Hdeq as ->; [|exact Hw2]. by injection Hrun as <- _.
  - by destruct x.
Qed.

Lemma pipeline_event_ok ev p : harmless ev → pipeline_ok p → pipeline_ok (pipeline_event ev p).
Proof.
  intros Hev [Hdb Hb Hg Hn]. destruct ev as [f e|t backoff e| |i f e|f acks e|call e]; simpl.
  - destruct f as [f|]; [|by split]. destruct (to_publish p) as [|o os]; [by split|]. split; [|done..].
    simpl. unfold Publish. by apply (stub_call_safe (rpc_Enqueue s c _)); [apply rpc_Enqueue_safe|].
  - pose proof (subscribe_iteration_safe t backoff e (pl_world p) Hdb) as Hsub.
    destruct (subscribe_iteration _ _ _ _ _ _ _) as [[[b [resp|]| | |]|] w]; split; try done.
    simpl. rewrite !Forall_app in *. destruct Hg as [Hg1 Hg2]. split_and!; [done| |done].
    by constructor.
  - destruct (in_transit p) as [|m ms] eqn:Hm; [by split; rewrite ?Hm|].
    case_match; [|by split; rewrite ?Hm].
    split; [done..| |]; simpl.
    + rewrite !Forall_app in *. rewrite Forall_cons in Hg. naive_solver.
    + rewrite length_app. simpl. reflect_bools. change (concurrency consume_config) with 3 in *. lia.
  - destruct (in_handler p !! i) as [m|] eqn:Hm; [|by split].
    rewrite Forall_app in Hg. destruct Hg as [Hg1 Hg2].
    assert (dm_group m = consumerGroup) as Hgm by (rewrite Forall_lookup in Hg2; by eapply Hg2).
    split; cbn [pl_world batches in_transit in_handler]; [|done|..].
    + apply dispatch_safe; [by rewrite Hgm|done].
    + rewrite Forall_app. split; [done|]. by apply Forall_delete.
    + rewrite length_delete by done. lia.
  - pose proof (stub_call_safe (rpc_BatchDequeue s c (batch_request dlqTopic 10 drain_config)) f e
      (pl_world p) (rpc_BatchDequeue_safe (batch_request dlqTopic 10 drain_config) ltac:(done)) Hdb) as Hkeep.
    change (rpc_run (rpc_BatchDequeue s c (batch_request dlqTopic 10 drain_config)) e)
      with (pb_BatchDequeue (QueueServiceClient := stub s c e)
              (batch_request dlqTopic 10 drain_config)) in Hkeep.
    destruct (call f _ (pl_world p)) as [[ms|x] w] eqn:Hpoll.
    + apply drain_poll_empty in Hpoll as ->; [|done]. simpl. split; simpl; by rewrite ?app_nil_r.
    + simpl. split; simpl; by rewrite ?app_nil_r.
  - split; try done. simpl.
    apply (run_call_op (keeps_without dlqTopic) (keeps_without_other dlqTopic) s call); [|done].
    intros e' db db'. by apply writes_without.
Qed.

(** [C31] The order pipeline never sees a dead letter.  However its three goroutines, the
    server's side of the subscription and any other use of the server interleave, and
    whatever calls are lost or fail: as long as nobody rejects or requeues a message
    outside of a consumer group or publishes to the dead-letter topic itself, no message
    ever is in that topic and [drainDLQ] is handed no batch - the refused order is only
    marked failed for its group.  At most three handlers run at once. *)
Theorem dead_letters_never_drained evs w :
  without_topic dlqTopic (w_db w) → Forall harmless evs →
  let p := run_pipeline evs (start_pipeline w) in
  batches p = [] ∧ without_topic dlqTopic (w_db (pl_world p)) ∧ (length (in_handler p) ≤ 3)%nat.
Proof.
  intros Hw Hevs p. assert (pipeline_ok p) as []; [|done]. subst p.
  assert (pipeline_ok (start_pipeline w)) as Hok by (split; [done|done|constructor|simpl; lia]).
  revert Hok. generalize (start_pipeline w) as p.
  induction Hevs as [|ev evs Hev _ IH]; intros p Hok; [done|]. by apply IH, pipeline_event_ok.
Qed.
End pipeline.
