(* ===== verification/Scenarios.v ===== *)
(** * The theorems on a concrete deployment

    A small database with two topics, a user and its grants, and one application of
    each conditional theorem to it: its hypotheses hold together, and its conclusion
    says something about a run that can be computed. *)

From S2P Require Import Prelude.
From S2P Require Import Store.
From S2P Require Import Avro.
From S2P Require Import Json.
From S2P Require Import Runtime.
From S2P Require Import Model.
From S2P Require Import TopicConfig.
From S2P Require Import Throttle.
From S2P Require Import Schema.
From S2P Require Import Dequeue.
From S2P Require Import GroupBatch.
From S2P Require Import Enqueue.
From S2P Require Import Lifecycle.
From S2P Require Import Concurrency.
From S2P Require Import RowLocks.
From S2P Require Import Claiming.
From S2P Require Import GroupClaiming.
From S2P Require Import GroupGaps.
From S2P Require Import ConsumerGroup.
From S2P Require Import Reaper.
From S2P Require Import Replay.
From S2P Require Import Query.
From S2P Require Import System.
From S2P Require Import Errors.
From S2P Require Import Users.
From S2P Require Import Grpc.
From S2P Require Import Http.
From S2P Require Import Handlers.
From S2P Require Import Routes.

(** ** Tables *)

Definition at_s (s : Z) : Z := s * 10 ^ 6.

Definition row (topic payload : string) (key : option string) (st : status)
    (retries : Z) (vt expires : option Z) (created : Z) : MessageRow :=
  mkMessageRow topic payload (Some json_null) key st retries 3 None vt expires
    created created None None.

(** [orders] keeps a log and has a threshold of 3; [events] has two consumer groups. *)
Definition orders_config : TopicConfig :=
  mkTopicConfig "orders" (Some 3) None (Some 5) true (Some 60) None.

Definition row_a := row "orders" "pa" (Some "k"%string) pending 0 None None (at_s 10).
Definition row_b := row "orders" "pb" None processing 2 (Some (at_s 40)) None (at_s 20).
Definition row_c := row "orders" "pc" (Some "old"%string) pending 0 None (Some (at_s 50)) (at_s 5).
Definition row_d := row "events" "pd" None pending 0 None None (at_s 30).
Definition row_e := row "orders" "pe" (Some "k"%string) processing 0 (Some (at_s 40)) None (at_s 8).
Definition row_f := row "events" "pf" None pending 0 None None (at_s 31).
Definition in_progress : DeliveryRow :=
  mkDeliveryRow processing (Some (at_s 130)) 0 3 None (at_s 30) (at_s 30).
Definition log_z : LogRow := mkLogRow None "pz" (Some json_null) 1 3 None None (at_s 1).

Definition shop : DB := {|
  messages := {[ "a" := row_a; "b" := row_b; "c" := row_c; "d" := row_d; "e" := row_e;
                 "f" := row_f ]};
  message_deliveries := {[ ("d", "g1") := in_progress; ("d", "g2") := in_progress;
                           ("f", "g1") := new_delivery (at_s 31) 3 ]};
  consumer_groups := {[ ("events", "g1") := at_s 1; ("events", "g2") := at_s 2 ]};
  message_log := {[ ("orders", at_s 90, "z") := log_z ]};
  topic_config := {[ "orders" := orders_config ]};
  topic_throughput := ∅;
  topic_schemas := ∅;
  system_settings := ∅;
  users := {[ "u1" := mkUserRow "alice" "hash" false 0 0 ]};
  user_grants := {[ "r1" := mkGrantRow "u1" "consume" "orders" (Some "g1"%string) 0 ]};
|}%string.

Definition world : World := world_of shop.
Definition server : Service := mkService (30 * Second) 3 0 0 false.
Definition now : Env := env_at 100.

(** Two schema texts; payloads that are JSON text of one kind. *)
#[export] Instance codecs_model : Codecs := {|
  avro_Parse j := if bool_decide (j = "record"%string) then Some order_schema
                  else if bool_decide (j = "int"%string) then Some AInt else None;
  json_Unmarshal p := if bool_decide (p = "order"%string) then Some order_document
                      else if bool_decide (p = "to events"%string)
                      then Some (JObject [("Topic", JString "events")]%string) else None;
|}.

(** Hashing that keeps the text; tokens of one account. *)
#[export] Instance jwt_model : JWT := {|
  SignedString cl secret := Some secret;
  ParseWithClaims token key t :=
    if decide (key HMAC = Some token ∧ t < 1000 * Second)
    then Some (mkClaims "u1" "alice" false (Some (1000 * Second))) else None;
|}.
#[export] Instance bcrypt_model : Bcrypt := {|
  GenerateFromPassword salt p := Some p;
  CompareHashAndPassword h p := bool_decide (h = p);
|}.

Lemma shop_ok : db_ok shop.
Proof. apply db_check_ok. vm_compute. reflexivity. Qed.

Lemma world_of_caches_ok db : caches_ok (world_of db).
Proof.
  split; split; simpl.
  - by intros t c Hc%lookup_empty_Some.
  - by intros st t b [= <-] Hb%lookup_empty_Some.
  - by intros t s v ts Hs%lookup_empty_Some.
  - by intros st t b [= <-] Hb%lookup_empty_Some.
Qed.

Lemma world_of_coherent db : coherent (world_of db).
Proof. apply world_of_caches_ok. Qed.

(** A run whose result is known. *)
Lemma known_run {A} (m : M A) e w a : (m e w).1 = Ok a → m e w = (Ok a, (m e w).2).
Proof. apply run_eta. Qed.

(** ** Enqueue *)

Lemma enqueue_implements_reference_witness :
  implements (enqueue_on_tables server "orders" "new" None (Some "k"%string) now shop) shop
    (Enqueue server "orders" "new" None (Some "k"%string) now world).
Proof.
  apply (enqueue_implements_reference server "orders" "new" None (Some "k"%string) now world).
  apply world_of_caches_ok.
Defined.

Lemma enqueue_stores_message_witness :
  (Enqueue server "events" "new" None None now world).1 = Ok "m"%string ∧
  ∃ r, messages (w_db (Enqueue server "events" "new" None None now world).2) !! "m"%string
       = Some r ∧ m_payload r = "new"%string.
Proof.
  assert ((Enqueue server "events" "new" None None now world).1 = Ok "m"%string) as Hrun
    by (vm_compute; reflexivity).
  split; [exact Hrun|]. apply known_run in Hrun.
  destruct (enqueue_stores_message server "events" "new" None None now world "m" _
    (world_of_caches_ok shop) shop_ok Hrun) as (_ & (r & Hr & _ & Hp & _) & _).
  exists r. split; [exact Hr|exact Hp].
Defined.

Lemma enqueue_depth_bound_witness :
  (Enqueue server "orders" "new" None None now world).1 = Ok "m"%string ∧
  depth "orders" (w_db (Enqueue server "orders" "new" None None now world).2) ≤ 5.
Proof.
  assert ((Enqueue server "orders" "new" None None now world).1 = Ok "m"%string) as Hrun
    by (vm_compute; reflexivity).
  split; [exact Hrun|]. apply known_run in Hrun.
  apply (enqueue_depth_bound server "orders" "new" None None now world "m" _ orders_config 5
    (world_of_caches_ok shop) shop_ok); [reflexivity|reflexivity|lia|exact Hrun].
Defined.

Lemma keyed_enqueue_into_expired_is_lost_witness :
  (Enqueue server "orders" "new" None (Some "old"%string) now world).1 = Ok "c"%string ∧
  ∃ r, messages (w_db (Enqueue server "orders" "new" None (Some "old"%string) now world).2)
         !! "c"%string = Some r ∧ m_payload r = "new"%string ∧
       ¬ eligible (at_s 200) "orders" r.
Proof.
  assert (same_pending_key "orders" (Some "old"%string) row_c) as Hkey by done.
  assert (at_s 50 ≤ pg_now now) as Hpast by done.
  assert ((Enqueue server "orders" "new" None (Some "old"%string) now world).1
    = Ok "c"%string) as Hrun by (vm_compute; reflexivity).
  split; [exact Hrun|]. apply known_run in Hrun.
  destruct (keyed_enqueue_into_expired_is_lost server "orders" "new" None (Some "old"%string)
    now world "c" _ "c" row_c (at_s 50) (world_of_caches_ok shop) shop_ok eq_refl Hkey
    eq_refl Hpast Hrun) as (_ & r & Hr & Hp & Hne).
  exists r. split; [exact Hr|]. split; [exact Hp|]. apply Hne. done.
Defined.

(** ** Dequeue *)

Lemma dequeue_claims_oldest_eligible_witness :
  ∃ msg w', Dequeue server "orders" 0 now world = (Ok msg, w') ∧ ID msg = "a"%string ∧
    m_status <$> messages (w_db w') !! "a"%string = Some processing.
Proof.
  assert (match (Dequeue server "orders" 0 now world).1 with
          | Ok m => Some (ID m) | Err _ => None end = Some "a"%string) as Hid by (vm_compute; reflexivity).
  destruct (Dequeue server "orders" 0 now world) as [[msg|x] w'] eqn:Hrun; [|discriminate Hid].
  injection Hid as Hid. exists msg, w'. split; [reflexivity|]. split; [exact Hid|].
  destruct (dequeue_claims_oldest_eligible server "orders" 0 now world msg w' Hrun)
    as (r & _ & _ & _ & _ & _ & Hm & _).
  rewrite Hm, Hid, lookup_insert_eq. reflexivity.
Defined.

Lemma dequeueN_claims_batch_witness :
  ∃ msgs w', DequeueN server "events" 3 0 now world = (Ok msgs, w') ∧
    ID <$> msgs = ["d"; "f"]%string ∧ NoDup (ID <$> msgs).
Proof.
  assert (match (DequeueN server "events" 3 0 now world).1 with
          | Ok ms => Some (ID <$> ms) | Err _ => None end = Some ["d"; "f"]%string) as Hid
    by (vm_compute; reflexivity).
  destruct (DequeueN server "events" 3 0 now world) as [[msgs|x] w'] eqn:Hrun;
    [|discriminate Hid].
  injection Hid as Hid. exists msgs, w'. split; [reflexivity|]. split; [exact Hid|].
  destruct (dequeueN_claims_batch server "events" 3 0 now world (Ok msgs) w' Hrun) as [_ Hok].
  by destruct (Hok msgs eq_refl) as (_ & Hnd & _).
Defined.

Lemma dequeue_group_claims_oldest_witness :
  ∃ msg w', DequeueForGroup server "events" "g1" 0 now world = (Ok msg, w') ∧
    ID msg = "f"%string ∧ messages (w_db w') = messages shop.
Proof.
  assert (match (DequeueForGroup server "events" "g1" 0 now world).1 with
          | Ok m => Some (ID m) | Err _ => None end = Some "f"%string) as Hid by (vm_compute; reflexivity).
  destruct (DequeueForGroup server "events" "g1" 0 now world) as [[msg|x] w'] eqn:Hrun;
    [|discriminate Hid].
  injection Hid as Hid. exists msg, w'. split; [reflexivity|]. split; [exact Hid|].
  by destruct (dequeue_group_claims_oldest server "events" "g1" 0 now world msg w' Hrun)
    as (r & d & _ & _ & _ & _ & _ & _ & Hm & _).
Defined.

(** A batch of three for [g1] is not full, and so leaves nothing behind that the group could
    have had. *)
Lemma dequeueN_group_claims_batch_witness :
  ∃ msgs w', DequeueNForGroup server "events" "g1" 3 0 now world = (Ok msgs, w') ∧
    ID <$> msgs = ["f"]%string ∧ messages (w_db w') = messages shop ∧
    ∀ j rj dj, messages shop !! j = Some rj → message_deliveries shop !! (j, "g1"%string) = Some dj →
      eligible_delivery (pg_now now) "events" rj dj → j = "f"%string.
Proof.
  assert (match (DequeueNForGroup server "events" "g1" 3 0 now world).1 with
          | Ok ms => Some (ID <$> ms) | Err _ => None end = Some ["f"]%string) as Hid
    by (vm_compute; reflexivity).
  destruct (DequeueNForGroup server "events" "g1" 3 0 now world) as [[msgs|x] w'] eqn:Hrun;
    [|discriminate Hid].
  injection Hid as Hid. exists msgs, w'. split; [reflexivity|]. split; [exact Hid|].
  destruct (dequeueN_group_claims_batch server "events" "g1" 3 0 now world (Ok msgs) w' Hrun)
    as [_ Hok].
  destruct (Hok msgs eq_refl) as (_ & _ & _ & Hall & Hm & _). split; [exact Hm|].
  intros j rj dj Hj Hd He. apply list_elem_of_singleton. rewrite <-Hid.
  assert (length msgs = 1%nat) as Hlen by (rewrite <-(length_fmap ID msgs), Hid; reflexivity).
  apply (Hall I ltac:(lia) j rj dj). split; [exact Hj|]. split; [exact Hd|]. split; [exact He|].
  apply not_elem_of_empty.
Defined.

(** ** Acknowledgement and rejection *)

Lemma ack_settles_message_witness :
  (Ack "b" now world).1 = Ok tt ∧
  ∃ r, messages shop !! "b"%string = Some r ∧
    settled "b" (m_topic r) (log_of_message r) (pg_now now) shop (w_db (Ack "b" now world).2).
Proof.
  assert ((Ack "b" now world).1 = Ok tt) as Hrun by (vm_compute; reflexivity).
  split; [exact Hrun|].
  destruct (ack_settles_message "b" now world shop_ok) as [Heff _]. rewrite Hrun in Heff.
  destruct Heff as (r & Hr & _ & Hs). exists r. split; [exact Hr|exact Hs].
Defined.

(** [b] has reached the threshold of its topic. *)
Lemma nack_fates_witness :
  (Nack server "b" "boom" now world).1 = Ok tt ∧
  ∃ r threshold, messages shop !! "b"%string = Some r ∧
    threshold_used server (m_topic r) world threshold ∧
    m_last_error (nacked threshold (pg_now now) "boom" r) = Some "boom"%string.
Proof.
  assert ((Nack server "b" "boom" now world).1 = Ok tt) as Hrun by (vm_compute; reflexivity).
  split; [exact Hrun|].
  pose proof (nack_fates server "b" "boom" now world (world_of_coherent shop)) as Heff.
  cbv zeta in Heff. rewrite Hrun in Heff.
  destruct Heff as (r & threshold & Hr & _ & Hth & _ & _ & _ & _ & _ & _ & He & _).
  exists r, threshold. split; [exact Hr|]. split; [exact Hth|exact He].
Defined.

Lemma retries_are_bounded_witness :
  let cs := [(at_s 1, at_s 2, "x"); (at_s 3, at_s 4, "y")]%string in
  m_status (foldl (λ r c, attempt 0 c r) row_d (cs ++ [(at_s 5, at_s 6, "z"%string)])) = failed.
Proof.
  intros cs. assert (0 ≤ 3) as H3 by lia.
  destruct (retries_are_bounded 0 3 cs (at_s 5, at_s 6, "z"%string) row_d
    eq_refl eq_refl eq_refl H3 eq_refl) as [_ Hlast].
  exact (proj1 Hlast).
Defined.

Lemma nack_blocked_by_newer_key_witness :
  (Nack server "e" "boom" now world).1 = Err (ErrSQL "nack update" UniqueViolation) ∧
  ∀ t topic, ¬ eligible t topic row_e.
Proof.
  assert (threshold_of server (m_topic row_e) shop = 3) as Hth by (vm_compute; reflexivity).
  assert (int4 (m_retry_count row_e + 1)) as Hc by done.
  assert (int4 (m_max_retries row_e)) as Hm by done.
  assert (m_key row_e ≠ None) as Hk by discriminate.
  assert (¬ 0 < threshold_of server (m_topic row_e) (w_db world) ≤ m_retry_count row_e + 1)
    as Hlow by (change (w_db world) with shop; rewrite Hth; simpl; lia).
  assert (m_retry_count row_e + 1 < m_max_retries row_e) as Hleft by done.
  destruct (nack_blocked_by_newer_key server "e" "boom" now world row_e "a" row_a
    (world_of_coherent shop) eq_refl eq_refl eq_refl Hc Hm Hk eq_refl eq_refl eq_refl eq_refl
    Hlow Hleft) as (Hrun & _ & Hne).
  split; [exact Hrun|exact Hne].
Defined.

Lemma promote_requeue_roundtrip_witness :
  ∃ w1 w2, Nack server "b" "boom" now world = (Ok tt, w1) ∧
    Requeue server "b" (env_at 200) (world_of (w_db w1)) = (Ok tt, w2) ∧
    m_topic <$> messages (w_db w2) !! "b"%string = Some "orders"%string.
Proof.
  assert (threshold_of server (m_topic row_b) shop = 3) as Hth by (vm_compute; reflexivity).
  assert (0 < threshold_of server (m_topic row_b) (w_db world) ≤ m_retry_count row_b + 1) as Hdead
    by (change (w_db world) with shop; rewrite Hth; simpl; lia).
  assert (m_topic row_b ≠ ""%string) as Ht by discriminate.
  assert (match Nack server "b" "boom" now world with
          | (Ok _, w1) => match Requeue server "b" (env_at 200) (world_of (w_db w1)) with
                          | (Ok _, _) => true | _ => false end
          | _ => false end = true) as Hboth by (vm_compute; reflexivity).
  destruct (Nack server "b" "boom" now world) as [[[]|x] w1] eqn:H1; [|discriminate Hboth].
  destruct (Requeue server "b" (env_at 200) (world_of (w_db w1))) as [[[]|x] w2] eqn:H2;
    [|discriminate Hboth].
  exists w1, w2. split; [reflexivity|]. split; [exact H2|].
  destruct (promote_requeue_roundtrip server "b" "boom" now (env_at 200) world w1 w2
    (world_of (w_db w1)) row_b (world_of_coherent shop) eq_refl eq_refl Hdead Ht H1
    (world_of_coherent _) eq_refl eq_refl H2) as [Hm _].
  rewrite Hm, lookup_insert_eq. reflexivity.
Defined.

(** ** Consumer groups *)

Lemma group_ack_settles_witness :
  (AckForGroup "d" "g1" now world).1 = Ok tt ∧
  ∃ r d, messages shop !! "d"%string = Some r ∧
    group_settled "d" "g1" r d (pg_now now) shop (w_db (AckForGroup "d" "g1" now world).2).
Proof.
  assert ((AckForGroup "d" "g1" now world).1 = Ok tt) as Hrun by (vm_compute; reflexivity).
  split; [exact Hrun|].
  pose proof (group_ack_settles "d" "g1" now world shop_ok) as Heff.
  cbv zeta in Heff. rewrite Hrun in Heff.
  destruct Heff as (r & d & Hr & _ & _ & Hs). exists r, d. split; [exact Hr|exact Hs].
Defined.

Lemma group_nack_fates_witness :
  (NackForGroup server "d" "g1" "boom" now world).1 = Ok tt ∧
  ∃ d', message_deliveries (w_db (NackForGroup server "d" "g1" "boom" now world).2)
          !! ("d", "g1")%string = Some d' ∧ d_last_error d' = Some "boom"%string.
Proof.
  assert ((NackForGroup server "d" "g1" "boom" now world).1 = Ok tt) as Hrun
    by (vm_compute; reflexivity).
  split; [exact Hrun|]. apply known_run in Hrun.
  destruct (group_nack_fates server "d" "g1" "boom" now world _ (world_of_coherent shop) Hrun)
    as (r & d & th & d' & _ & _ & _ & _ & Hdb & _ & _ & He & _).
  exists d'. split; [|exact He]. rewrite Hdb. apply lookup_insert_eq.
Defined.

Lemma shop_deliveries_of_d g :
  message_deliveries shop !! ("d"%string, g) =
    if decide (g ∈ ["g1"; "g2"]%string) then Some in_progress else None.
Proof.
  destruct (decide (g = "g1"%string)) as [->|H1]; [reflexivity|].
  destruct (decide (g = "g2"%string)) as [->|H2]; [reflexivity|].
  rewrite decide_False by set_solver. simpl.
  rewrite !lookup_insert_ne, lookup_singleton_ne by congruence. reflexivity.
Qed.

Lemma all_groups_ack_witness :
  (ack_groups "d" ["g2"; "g1"]%string now world).1 = Ok tt ∧
  messages (w_db (ack_groups "d" ["g2"; "g1"]%string now world).2) =
    delete "d"%string (messages shop).
Proof.
  assert (NoDup ["g2"; "g1"]%string) as Hnd by (apply (bool_decide_unpack _); vm_compute; exact I).
  assert (∀ g, g ∈ ["g2"; "g1"]%string ↔
    is_Some (message_deliveries (w_db world) !! ("d"%string, g))) as Hg.
  { intros g. change (w_db world) with shop. rewrite shop_deliveries_of_d.
    case_decide; split; intros H1; set_solver. }
  assert (∀ g d, message_deliveries (w_db world) !! ("d"%string, g) = Some d →
    d_status d = processing) as Hst.
  { intros g d. change (w_db world) with shop. rewrite shop_deliveries_of_d.
    case_decide; [|discriminate]. by intros [= <-]. }
  assert (["g2"; "g1"]%string ≠ []) as Hne by discriminate.
  destruct (all_groups_ack "d" ["g2"; "g1"]%string now world row_d shop_ok eq_refl Hnd Hne
    eq_refl eq_refl Hg Hst) as [_ (Hrun & Hm & _)].
  split; [exact Hrun|exact Hm].
Defined.

Lemma register_backfills_witness :
  (RegisterConsumerGroup server "orders" "g9" now world).1 = Ok tt ∧
  is_Some (message_deliveries (w_db (RegisterConsumerGroup server "orders" "g9" now world).2)
             !! ("a", "g9")%string).
Proof.
  assert ((RegisterConsumerGroup server "orders" "g9" now world).1 = Ok tt) as Hrun
    by (vm_compute; reflexivity).
  split; [exact Hrun|]. apply known_run in Hrun.
  destruct (register_backfills server "orders" "g9" now world _ shop_ok Hrun)
    as (_ & _ & _ & Hback & _).
  exact (Hback "a"%string row_a eq_refl eq_refl eq_refl).
Defined.

(** [f] has been delivered to [g1] only; it stays behind. *)
Lemma unregister_strands_messages_witness :
  (UnregisterConsumerGroup "events" "g1" now world).1 = Ok tt ∧
  messages (w_db (UnregisterConsumerGroup "events" "g1" now world).2) !! "f"%string = Some row_f ∧
  message_deliveries (w_db (UnregisterConsumerGroup "events" "g1" now world).2)
    !! ("f", "g2")%string = None.
Proof.
  assert (∀ g, g ≠ "g1"%string → message_deliveries (w_db world) !! ("f"%string, g) = None)
    as Hother.
  { intros g Hg. change (w_db world) with shop. simpl.
    rewrite !lookup_insert_ne, lookup_singleton_ne by congruence. reflexivity. }
  assert ((UnregisterConsumerGroup "events" "g1" now world).1 = Ok tt) as Hrun
    by (vm_compute; reflexivity).
  split; [exact Hrun|]. apply known_run in Hrun.
  destruct (unregister_strands_messages "events" "g1" now world _ Hrun)
    as (_ & _ & _ & _ & Hstay).
  destruct (Hstay "f"%string row_f eq_refl eq_refl Hother) as [Hm Hd].
  split; [exact Hm|exact (Hd "g2"%string)].
Defined.

(** ** Two acknowledgements at once *)

Definition both_calling : Cluster :=
  mkCluster shop (<[0%nat:=calling "g1" (at_s 100)]> {[1%nat:=calling "g2" (at_s 100)]}).

Lemma both_calling_starts : all_calling both_calling.
Proof.
  intros n t. simpl.
  by intros [[<- <-]|[_ [<- <-]%lookup_singleton_Some]]%lookup_insert_Some.
Qed.

Lemma concurrent_acks_strand_message_witness :
  ∃ c', rtc (ack_step "d") both_calling c' ∧
    messages (committed c') !! "d"%string = Some row_d ∧
    (∀ g, message_deliveries (committed c') !! ("d"%string, g) = None) ∧
    (AckForGroup "d" "g1" now (world_of (committed c'))).1 = Err ErrNotFound.
Proof.
  assert (∀ g, is_Some (message_deliveries shop !! ("d"%string, g)) →
    g = "g1"%string ∨ g = "g2"%string) as Hall.
  { intros g. rewrite shop_deliveries_of_d. case_decide; [set_solver|by intros []]. }
  assert ("g1"%string ≠ "g2"%string) as Hne by discriminate.
  destruct (concurrent_acks_strand_message "d" shop "g1" "g2" (at_s 100) (at_s 100) row_d
    in_progress in_progress Hne eq_refl eq_refl eq_refl eq_refl eq_refl Hall)
    as (c' & Hsteps & _ & Hm & Hd & Hend).
  exists c'. split; [exact Hsteps|]. split; [exact Hm|]. split; [exact Hd|].
  apply (proj2 (Hend (world_of (committed c')) [] eq_refl) "g1"%string acknowledges now eq_refl).
Defined.

Lemma concurrent_acks_safe_witness :
  ∃ c', rtc (ack_step "d") both_calling c' ∧ db_ok (committed c') ∧
    messages (committed c') !! "a"%string = Some row_a.
Proof.
  set (t := ack_statement "d" shop (calling "g1" (at_s 100))).
  set (c' := mkCluster shop (<[0%nat:=t]> (txns both_calling))).
  assert (rtc (ack_step "d") both_calling c') as Hsteps.
  { apply rtc_once, (step_statement "d" both_calling 0 (calling "g1" (at_s 100)));
      [done| |done]. intros _ j u Hu _ _. destruct (both_calling_starts j u Hu) as [-> _]. done. }
  exists c'. split; [exact Hsteps|].
  destruct (concurrent_acks_safe "d" both_calling c' shop_ok both_calling_starts Hsteps)
    as (Hok & _ & _ & _ & Hoth).
  split; [exact Hok|]. assert ("a"%string ≠ "d"%string) as Hne by discriminate.
  exact (proj1 (Hoth "a"%string "g1"%string Hne)).
Defined.

(** ** Dequeues at once *)

(** Transactions on [messages] that begin. *)
Definition about (w : Work) : MessageSession := mkSession w (at_s 100) Started.

(** Three dequeues of [orders], a rejection of the only message they can claim, and the
    expiry reaper. *)
Definition contending : MessageSessions := mkSessions (messages shop) tt
  (list_to_map [(1%nat, about (work_dequeue "orders" 30)); (2%nat, about (work_dequeue "orders" 30));
     (3%nat, about (work_nack "a" 0 "no")); (4%nat, about (work_dequeue "orders" 30));
     (5%nat, about work_expire)]) [].

Lemma all_begun `{ST : Statements K R X W} (l : list (nat * W)) now (tbl : gmap K R) (x : X) :
  started (mkSessions tbl x (list_to_map ((λ nw, (nw.1, mkSession nw.2 now Started)) <$> l)) []).
Proof.
  split; [done|]. intros n t Ht%elem_of_list_to_map_2. simpl in Ht.
  by apply list_elem_of_fmap in Ht as ([m w] & [= -> ->] & _).
Qed.

Lemma contending_started : started contending.
Proof.
  exact (all_begun [(1%nat, work_dequeue "orders" 30); (2%nat, work_dequeue "orders" 30);
    (3%nat, work_nack "a" 0 "no"); (4%nat, work_dequeue "orders" 30); (5%nat, work_expire)]
    (at_s 100) (messages shop) tt).
Qed.

(** The sessions take turns. *)
Section schedule.
Context `{ST : Statements K R X W}.
Fixpoint run_schedule (turns : list nat) (c : @Sessions K R X W _ _) : option Sessions :=
  match turns with [] => Some c | n :: turns' => c' ← advance c n; run_schedule turns' c' end.
Lemma run_schedule_steps turns c c' : run_schedule turns c = Some c' → rtc session_step c c'.
Proof.
  revert c. induction turns as [|n turns IH]; intros c; simpl; [by intros [= ->]|].
  destruct (advance c n) as [c1|] eqn:Hadv; [|done]. intros Hturns.
  eapply rtc_l; [by eapply step_advance|]. by apply IH.
Qed.
End schedule.

(** Both dequeues take their snapshots, the second skips the locked row; then the claim is
    committed, rejected, and the third dequeue claims the message again. *)
Definition turns : list nat := [1; 2; 1; 2; 2; 2; 1; 1; 3; 3; 3; 4; 4; 4; 4]%nat.

Lemma exclusive_delivery_witness :
  ∃ c wk r, run_schedule turns contending = Some c ∧ fst <$> history c = [2; 1; 3; 4]%nat ∧
    history c !! 2%nat = Some (3%nat, wk) ∧ wk !! "a"%string = Some (Some r) ∧ m_status r = pending.
Proof.
  assert ((λ c, ((history c).*1, (λ nws, bool_decide (is_Some (nws.2 !! "a"%string))) <$> history c,
      (λ n, ss_work <$> sessions c !! n) <$> [1; 4]%nat)) <$> run_schedule turns contending =
    Some ([2; 1; 3; 4]%nat, [false; true; true; true],
      [Some (work_dequeue "orders" 30); Some (work_dequeue "orders" 30)])) as Hsum
    by (vm_compute; reflexivity).
  destruct (run_schedule turns contending) as [c|] eqn:Hrun; [|discriminate Hsum].
  pose proof (run_schedule_steps _ _ _ Hrun) as Hsteps. clear Hrun. injection Hsum as Hn Ha Hs1 Hs4.
  destruct (history c) as [|[n0 w0] [|[n1 w1] [|[n2 w2] [|[n3 w3] [|]]]]] eqn:Hh; try discriminate Hn.
  injection Hn as -> -> -> ->. injection Ha as _ Hv1%bool_decide_eq_true _ Hv3%bool_decide_eq_true.
  destruct (sessions c !! 1%nat) as [t1|] eqn:Ht1; [|discriminate Hs1]. injection Hs1 as Hs1.
  destruct (sessions c !! 4%nat) as [t4|] eqn:Ht4; [|discriminate Hs4]. injection Hs4 as Hs4.
  assert (is_claim (ss_work t1) = true) as Hc1 by (rewrite Hs1; reflexivity).
  assert (is_claim (ss_work t4) = true) as Hc4 by (rewrite Hs4; reflexivity).
  destruct (proj2 (proj2 (proj2 (exclusive_delivery contending c contending_started Hsteps)))
    [(2%nat, w0)] 1%nat w1 [(3%nat, w2)] 4%nat w3 [] "a"%string Hh
    (ex_intro _ t1 (conj Ht1 (conj Hc1 Hv1)))
    (ex_intro _ t4 (conj Ht4 (conj Hc4 Hv3))))
    as (k & t & wk & r & Hin & _ & _ & Hwk & Hr).
  apply list_elem_of_singleton in Hin. injection Hin as -> ->.
  exists c, w2, r. split; [reflexivity|]. rewrite Hh.
  split; [reflexivity|]. split; [reflexivity|]. split; [exact Hwk|exact Hr].
Defined.

(** A dequeue of [events] beside a rejection that holds the older message. *)
Definition beside : MessageSessions := mkSessions (messages shop) tt
  {[1%nat := about (work_dequeue "events" 30);
    2%nat := mkSession (work_nack "d" 0 "no") (at_s 99) (Holding "d")]} [].
Definition beside_env : Env := mkEnv (100 * Second) (at_s 100) unary_id {["d"%string]} ∅.

Lemma undisturbed_claim_is_atomic_witness :
  ∃ k c', advance_n k beside 1 = Some c' ∧
    m_status <$> (table c' !! "f"%string) = Some processing ∧
    m_status <$> (table c' !! "d"%string) = Some pending.
Proof.
  assert (sessions beside !! 1%nat = Some (about (work_dequeue "events" 30))) as Ht by reflexivity.
  assert (locked_messages beside_env = locked_by_others 1 (sessions beside)) as Hl
    by (vm_compute; reflexivity).
  assert (distinct_times (work_dequeue "events" 30) (at_s 100) (table beside)) as Hd.
  { assert (map_Forall (λ i ri, map_Forall (λ j rj, m_created_at ri = m_created_at rj → i = j)
      (table beside)) (table beside)) as Hall
      by (apply (bool_decide_unpack _); vm_compute; exact I).
    intros i j ri rj Hi Hj _ _ Heq. exact (Hall i ri Hi j rj Hj Heq). }
  destruct (undisturbed_claim_is_atomic beside 1 _ beside_env shop Ht eq_refl eq_refl eq_refl eq_refl
    Hl Hd) as (k & c' & db' & Hrun & Hclaim & Htable & _).
  exists k, c'. split; [exact Hrun|]. rewrite Htable.
  assert ((λ i, db ← atomic_claim (work_dequeue "events" 30) beside_env shop;
    m_status <$> (messages db !! i)) <$> ["f"; "d"]%string = [Some processing; Some pending]) as Hst
    by (vm_compute; reflexivity).
  simpl ss_work in Hclaim. rewrite Hclaim in Hst. injection Hst as Hf Hd'.
  split; [exact Hf|exact Hd'].
Defined.

(** ** Groups at once *)

Definition about_group (w : GroupWork) : DeliverySession := mkSession w (at_s 100) Started.
Definition shop_joined : Joined := mkJoined (messages shop) (consumer_groups shop).

(** Three claims of [g1], and a rejection of the only delivery they can claim. *)
Definition group_calls : list (nat * GroupWork) :=
  [(1%nat, group_dequeue "events" "g1" 1 30); (2%nat, group_dequeue "events" "g1" 5 30);
   (3%nat, group_nack "f" "g1" 0 "no"); (4%nat, group_dequeue "events" "g1" 1 30)].
Definition group_contending : DeliverySessions := mkSessions (message_deliveries shop) shop_joined
  (list_to_map ((λ nw, (nw.1, mkSession nw.2 (at_s 100) Started)) <$> group_calls)) [].

Lemma exclusive_group_delivery_witness :
  ∃ c wk d, run_schedule turns group_contending = Some c ∧ fst <$> history c = [2; 1; 3; 4]%nat ∧
    history c !! 2%nat = Some (3%nat, wk) ∧ wk !! ("f", "g1")%string = Some (Some d) ∧
    d_status d = pending.
Proof.
  pose proof (all_begun group_calls (at_s 100) (message_deliveries shop) shop_joined) as Hstart.
  assert ((λ c, ((history c).*1,
      (λ nws, bool_decide (is_Some (nws.2 !! ("f", "g1")%string))) <$> history c,
      (λ n, ss_work <$> sessions c !! n) <$> [1; 4]%nat)) <$> run_schedule turns group_contending =
    Some ([2; 1; 3; 4]%nat, [false; true; true; true],
      [Some (group_dequeue "events" "g1" 1 30); Some (group_dequeue "events" "g1" 1 30)])) as Hsum
    by (vm_compute; reflexivity).
  destruct (run_schedule turns group_contending) as [c|] eqn:Hrun; [|discriminate Hsum].
  pose proof (run_schedule_steps _ _ _ Hrun) as Hsteps. clear Hrun. injection Hsum as Hn Ha Hs1 Hs4.
  destruct (history c) as [|[n0 w0] [|[n1 w1] [|[n2 w2] [|[n3 w3] [|]]]]] eqn:Hh; try discriminate Hn.
  injection Hn as -> -> -> ->. injection Ha as _ Hv1%bool_decide_eq_true _ Hv3%bool_decide_eq_true.
  destruct (sessions c !! 1%nat) as [t1|] eqn:Ht1; [|discriminate Hs1]. injection Hs1 as Hs1.
  destruct (sessions c !! 4%nat) as [t4|] eqn:Ht4; [|discriminate Hs4]. injection Hs4 as Hs4.
  destruct (proj2 (proj2 (exclusive_group_delivery group_contending c Hstart Hsteps))
    [(2%nat, w0)] 1%nat w1 [(3%nat, w2)] 4%nat w3 [] ("f", "g1")%string Hh
    (ex_intro _ t1 (ex_intro _ _ (ex_intro _ _ (ex_intro _ _ (ex_intro _ _
       (conj Ht1 (conj Hs1 Hv1)))))))
    (ex_intro _ t4 (ex_intro _ _ (ex_intro _ _ (ex_intro _ _ (ex_intro _ _
       (conj Ht4 (conj Hs4 Hv3))))))))
    as (k & wk & d & Hin & Hwk & Hd).
  apply list_elem_of_singleton in Hin. injection Hin as -> ->.
  exists c, w2, d. split; [reflexivity|]. rewrite Hh.
  split; [reflexivity|]. split; [reflexivity|]. split; [exact Hwk|exact Hd].
Defined.

(** The group [g3] of [events] is registered while a message is enqueued. *)
Definition late_message : MessageRow :=
  fresh_row "events" "x" None None (mkEnqueueParams 3 None 0) (at_s 100).

Lemma registration_race_witness :
  let s := run_race "events" "g3" "new" late_message now now
             [turn_reg; turn_reg; turn_ins; turn_ins; turn_reg] (race_start shop) in
  race_reg s = reg_committed ∧ messages (race_db s) !! "new"%string = Some late_message ∧
  ∀ n e, "new"%string ∉ (select_deliveries "events" "g3" n e (race_db s)).*1.
Proof.
  assert ([turn_reg; turn_reg; turn_ins; turn_ins; turn_reg] ∈ all_orders) as Hin
    by (apply (bool_decide_unpack _); vm_compute; exact I).
  assert (key_free "new" late_message (messages shop)) as Hfree
    by (apply (bool_decide_unpack _); vm_compute; exact I).
  destruct (registration_race "events" "g3" "new" late_message now now shop _ shop_ok eq_refl
    eq_refl Hfree eq_refl eq_refl Hin) as (Hr & _ & Hm & _ & _ & Hmiss).
  split; [exact Hr|]. split; [exact Hm|]. apply Hmiss. reflexivity.
Defined.

(** A keyed message that [g1] is handling, [g2] has not seen and [g3] has settled. *)
Definition keyed_row : MessageRow :=
  fresh_row "events" "old" None (Some "k"%string) (mkEnqueueParams 3 None 0) (at_s 90).
Definition keyed_shop : DB :=
  set_deliveries {[ ("k", "g1") := in_progress; ("k", "g2") := new_delivery (at_s 90) 3 ]}%string
    (set_messages {[ "k"%string := keyed_row ]} shop).

Lemma keyed_shop_ok : db_ok keyed_shop.
Proof. apply db_check_ok. vm_compute. reflexivity. Qed.

(** The key is enqueued again while [g1] has the old payload. *)
Lemma upsert_misses_groups_witness :
  let run := Enqueue server "events" "new" None (Some "k"%string) now (world_of keyed_shop) in
  run.1 = Ok "k"%string ∧
  (∀ n e, "k"%string ∉ (select_deliveries "events" "g3" n e (w_db run.2)).*1) ∧
  (AckForGroup "k" "g1" now run.2).1 = Ok tt.
Proof.
  intros run. assert (run.1 = Ok "k"%string) as Hk by (vm_compute; reflexivity).
  assert (run = (Ok "k"%string, run.2)) as Hrun by (rewrite <-Hk; destruct run; reflexivity).
  assert ("g2"%string ≠ "g1"%string) as Hne by discriminate.
  destruct (upsert_misses_groups server "events" "k" "new" None "k" "g1" "g2" keyed_row in_progress
    (new_delivery (at_s 90) 3) now now (world_of keyed_shop) _ _ (world_of_caches_ok keyed_shop)
    keyed_shop_ok eq_refl eq_refl eq_refl eq_refl eq_refl eq_refl eq_refl eq_refl Hne Hrun)
    as (_ & _ & _ & Hmiss & Hack & _).
  split; [exact Hk|]. split; [|exact Hack]. intros n e. apply Hmiss. reflexivity.
Defined.

(** An acknowledgement of a message that is not there. *)
Lemma refused_calls_change_nothing_witness :
  run_call server (do_Ack "zz") now world = (Err ErrNotFound, (run_call server (do_Ack "zz") now world).2) ∧
  w_db (run_call server (do_Ack "zz") now world).2 = shop.
Proof.
  assert (run_call server (do_Ack "zz") now world =
    (Err ErrNotFound, (run_call server (do_Ack "zz") now world).2)) as Hrun by reflexivity.
  split; [exact Hrun|]. assert (¬ lost ErrNotFound) as Hx by (intros [? Heq]; discriminate Heq).
  exact (proj2 (refused_calls_change_nothing server (do_Ack "zz") now world _ _ Hrun Hx) eq_refl).
Defined.

(** ** Configuration and schemas *)

Lemma config_update_visible_witness :
  ∃ w1, DeleteTopicConfig "orders" now world = (Ok tt, w1) ∧
    ∃ w2, GetTopicConfig "orders" now w1 = (Ok None, w2).
Proof.
  assert (config_int4 orders_config) as Hint
    by (apply (bool_decide_unpack _); vm_compute; exact I).
  destruct (config_update_visible orders_config "orders" orders_config now now world
    eq_refl (world_of_coherent shop) eq_refl Hint eq_refl) as [_ (w1 & Hrun & _ & Hget)].
  exists w1. split; [exact Hrun|]. destruct (Hget "orders"%string) as [w2 Hw2].
  exists w2. exact Hw2.
Defined.

(** The process has the configuration in its map; the second statement fails. *)
Definition faulty : World :=
  set_config_cache {[ "orders"%string := Some orders_config ]} (set_faults [Works; Fails] world).

Lemma failed_config_delete_leaves_stale_entry_witness :
  ∃ w1, topic_config (w_db w1) !! "orders"%string = None ∧
    ∃ w2, GetTopicConfig "orders" now w2 = (Ok (Some orders_config), w2) ∧
      w2 = (DeleteTopicConfig "orders" now (set_faults [] w1)).2.
Proof.
  destruct (failed_config_delete_leaves_stale_entry "orders" orders_config now now now faulty []
    eq_refl eq_refl eq_refl) as (w1 & _ & Hnone & _ & Hget).
  exists w1. split; [exact Hnone|]. eexists. split; [exact Hget|reflexivity].
Defined.

Lemma registered_schema_governs_witness :
  ∃ w1, UpsertTopicSchemaAndNotify "events" "record" now world =
    (Ok (mkTopicSchema "events" "record" 1 (pg_now now)), w1) ∧ schema_coherent w1.
Proof.
  assert (int4 (next_version (w_db world) "events")) as Hint
    by (apply (bool_decide_unpack _); vm_compute; exact I).
  destruct (registered_schema_governs "events" "record" order_schema now now world [] "events" "x"
    eq_refl (proj2 (world_of_caches_ok shop)) eq_refl Hint) as (w1 & Hrun & Hcoh & _).
  exists w1. split; [exact Hrun|exact Hcoh].
Defined.

(** Another process compiled a record schema; the topic now has the schema [int]. *)
Lemma recreated_schema_keeps_stale_compilation_witness :
  let other := set_schema_cache {[ "events"%string := (order_schema, 1) ]} world in
  let w1 := (DeleteTopicSchemaAndNotify "events" now world).2 in
  let w2 := (UpsertTopicSchemaAndNotify "events" "int" now w1).2 in
  (validatePayload "events" "order" now (set_db (w_db w2) (set_cache (w_cache w2) other))).1 = Ok tt.
Proof.
  intros other w1 w2.
  assert (is_Some (avro_Parse "int")) as Hparse by (exists AInt; reflexivity).
  exact (recreated_schema_keeps_stale_compilation "events" "order" order_schema "int" now
    world other eq_refl eq_refl eq_refl Hparse).
Defined.

(** ** Reapers and replay *)

Lemma expiry_reaper_exact_witness :
  (RunExpiryReaperOnce now world).1 = Ok 1 ∧
  db_ok (w_db (RunExpiryReaperOnce now world).2).
Proof.
  assert ((RunExpiryReaperOnce now world).1 = Ok 1) as Hrun by (vm_compute; reflexivity).
  split; [exact Hrun|]. apply known_run in Hrun.
  destruct (expiry_reaper_exact now world 1 _ shop_ok Hrun) as (_ & _ & _ & Hok & _).
  exact Hok.
Defined.

Lemma delete_reaper_exact_witness :
  (RunDeleteReaperOnce (env_at 200) world).1 = Ok 0 ∧
  message_log (w_db (RunDeleteReaperOnce (env_at 200) world).2) !! ("orders", at_s 90, "z")%string
    = None.
Proof.
  assert ((RunDeleteReaperOnce (env_at 200) world).1 = Ok 0) as Hrun by (vm_compute; reflexivity).
  split; [exact Hrun|]. apply known_run in Hrun.
  destruct (delete_reaper_exact (env_at 200) world 0 _ shop_ok Hrun) as (_ & _ & _ & Hlog & _).
  apply eq_None_not_Some. intros [l Hl]. apply Hlog in Hl as [_ Hnot]. apply Hnot.
  exists orders_config, 60. split; [reflexivity|]. split; [reflexivity|].
  split; [reflexivity|]. vm_compute. split; reflexivity.
Defined.

Lemma replay_exact_witness :
  (ReplayTopic server "orders" None now world).1 = Ok 1 ∧
  messages shop ⊆ messages (w_db (ReplayTopic server "orders" None now world).2).
Proof.
  assert (fresh_from now 0 (w_db world)) as Hfresh.
  { intros m _. change (w_db world) with shop. apply eq_None_not_Some. intros [r Hr].
    assert (map_Forall (λ i (_ : MessageRow), HasPrefix i "m" = false) (messages shop)) as Hall
      by (apply (bool_decide_unpack _); vm_compute; exact I).
    assert (HasPrefix (new_uuid now m) "m" = true) as Hp
      by (apply HasPrefix_spec; exists (Nat.iter m (String "i") ""%string); reflexivity).
    by rewrite (Hall _ _ Hr) in Hp. }
  assert (Inj (=) (=) (new_uuid now)) as Hinj by apply unary_id_inj.
  assert ((ReplayTopic server "orders" None now world).1 = Ok 1) as Hrun
    by (vm_compute; reflexivity).
  split; [exact Hrun|]. apply known_run in Hrun.
  destruct (replay_exact server "orders" None now world 1 _ (world_of_coherent shop) shop_ok
    Hfresh Hinj Hrun) as (cfg & _ & _ & _ & _ & Hsub & _).
  exact Hsub.
Defined.

Lemma schedule_update_witness :
  let valid sched := bool_decide (sched = "daily"%string) in
  ∃ r c', (UpdateDeleteReaperSchedule valid "daily" (mkCron [] None) now world).1 = Ok (r, c') ∧
    cron_ok c'.
Proof.
  intros valid. assert (cron_ok (mkCron [] None)) as Hc by reflexivity.
  destruct (schedule_update valid "daily" (mkCron [] None) now world Hc)
    as (r & c' & Hrun & Hok & _).
  exists r, c'. split; [exact Hrun|exact Hok].
Defined.

(** ** The whole service *)

Definition history : list (call * Env) :=
  [(do_Enqueue "events" "x" None None, env_at 100); (do_Dequeue "orders" 0, env_at 101);
   (do_Ack "a", env_at 102); (do_delete_tick true, env_at 103);
   (do_DequeueN "events" 10 0, env_at 104); (do_UnregisterConsumerGroup "events" "g1", env_at 105);
   (do_Dequeue "orders" 0, env_at 1000000)].

Lemma constraints_invariant_witness : db_ok (w_db (run_calls server history world)).
Proof. apply (constraints_invariant server history world). exact shop_ok. Defined.

Lemma unsettled_message_is_stuck_witness :
  messages (w_db (run_calls server history world)) !! "b"%string = Some row_b.
Proof.
  apply (unsettled_message_is_stuck server history "b" row_b world); [reflexivity|reflexivity|].
  repeat constructor. simpl. discriminate.
Defined.

(** ** Users and the gRPC server *)

Lemma shop_users_ok : users_ok shop.
Proof.
  split; simpl.
  - by intros i j u u' [<- _]%lookup_singleton_Some [<- _]%lookup_singleton_Some.
  - intros i g [_ <-]%lookup_singleton_Some. simpl. rewrite lookup_singleton_eq. eauto.
  - by intros i j g g' [<- _]%lookup_singleton_Some [<- _]%lookup_singleton_Some ?.
  - intros i g [_ <-]%lookup_singleton_Some. apply (bool_decide_unpack _). vm_compute. exact I.
Qed.

Lemma user_store_invariant_witness :
  users_ok (w_db (foldl (λ w ce, (run_store_call ce.1 ce.2 w).2) world
    [(call_Create "salt" "bob" "pw" true, env_at 100);
     (call_AddGrant "u1" "write" "orders.*", env_at 101); (call_Delete "u1" "m", env_at 102)])).
Proof. apply user_store_invariant. exact shop_users_ok. Defined.

Definition alice : Caller := mkCaller (Some (mkClaims "u1" "alice" false (Some (1000 * Second)))) true.

(** Alice may consume [orders] for [g1]; she may not write to it. *)
Lemma grpc_enforces_grants_witness :
  refuses (rpc_Enqueue server alice (mkEnqueueRequest "orders" "x" None None) now world) world.
Proof.
  apply (grpc_enforces_grants server alice "u1" now world
    (mkEnqueueRequest "orders" "x" None None) (mkDequeueRequest "" None "")
    (mkBatchDequeueRequest "" 1 None "") (mkAckRequest "" "") (mkNackRequest "" "" ""));
    vm_compute; reflexivity.
Defined.

Definition auth_on : AuthConfig := mkAuthConfig true "secret".

Lemma unary_requires_token_witness :
  serve_unary auth_on (Some ["secret"%string]) 0
    (λ c, rpc_Ack c (mkAckRequest "b" "")) now world = (Ok (Err Unauthenticated), world).
Proof.
  destruct (unary_requires_token auth_on (Some ["secret"%string]) 0
    (λ c, rpc_Ack c (mkAckRequest "b" "")) now world eq_refl)
    as [(header & rest & cl & [= <- <-] & Hp & _)|Href]; [discriminate Hp|exact Href].
Defined.

Lemma subscribe_skips_authentication_witness :
  ∃ res w', serve_Subscribe server auth_on None (mkSubscribeRequest "orders" None "") now
    [(mkStreamTick false false false true, now)] world = (([res], [], None), w').
Proof.
  assert ("orders"%string ≠ ""%string) as Hne by discriminate.
  assert (match (Dequeue server "orders" 0 now world).1 with
          | Ok _ => true | Err _ => false end = true) as Hsome by (vm_compute; reflexivity).
  destruct (Dequeue server "orders" 0 now world) as [[msg|x] w'] eqn:Hrun; [|discriminate Hsome].
  destruct (subscribe_skips_authentication server auth_on "orders" now world msg w' 0
    eq_refl Hne Hrun) as [_ Hsent].
  exists (SubscribeResponse_of msg), w'. exact Hsent.
Defined.

Lemma group_restriction_bypassed_witness :
  (rpc_Ack alice (mkAckRequest "b" "") now world).1 = Ok (Ok tt) ∧
  refuses (rpc_Ack alice (mkAckRequest "b" "g2") now world) world.
Proof.
  assert (grants_of "u1" (w_db world) = [mkGrant "r1" "u1" "consume" "orders" "g1" 0]) as Hg
    by (vm_compute; reflexivity).
  assert (grants_action "consume" (m_topic row_b) (mkGrant "r1" "u1" "consume" "orders" "g1" 0))
    as Ha by (split; reflexivity).
  assert ("g2"%string ≠ ""%string) as H1 by discriminate.
  assert ("g1"%string ≠ "g2"%string) as H2 by discriminate.
  assert ("b"%string ≠ ""%string) as H3 by discriminate.
  destruct (group_restriction_bypassed alice "u1" (mkGrant "r1" "u1" "consume" "orders" "g1" 0)
    "b" row_b now world "g2" shop_ok eq_refl eq_refl Hg Ha H1 H2 H3 eq_refl eq_refl eq_refl)
    as [Href (Hrun & _)].
  split; [exact Hrun|exact Href].
Defined.

(** ** The HTTP server *)

(** Requests as the model's framework holds them: the body's text and, when it is sent as
    a form, the fields of that form. *)
Record request := mkRequest {
  q_params : list (string * string); q_query : list (string * string); q_token : string;
  q_body : string; q_form : option (list (string * string)) }.

Definition field (name : string) (l : list (string * string)) : string :=
  default ""%string (snd <$> head (filter (λ kv, kv.1 = name) l)).
Definition form_or_json (c : request) (name : string) : string :=
  match q_form c with
  | Some fs => field name fs
  | None => match json_Unmarshal (q_body c) with
            | Some j => (dec_struct [(name, dec_string)] ""%string j).1
            | None => ""%string
            end
  end.

#[export] Instance fiber_model : Fiber := {|
  Ctx := request;
  Params c name := field name (q_params c);
  c_Query c name := field name (q_query c);
  QueryInt c name d := default d (parse_int64 (field name (q_query c)));
  c_Get c name := if bool_decide (name = "Authorization"%string)
                  then ("Bearer " +:+ q_token c)%string else ""%string;
  Body := q_body;
  BodyParser A t c :=
    match t in target A return A * bool with
    | to_login => (mkLoginRequest (form_or_json c "username") (form_or_json c "password"), true)
    | to_enqueue =>
        (mkEnqueueBody (form_or_json c "topic") (form_or_json c "payload") None None, true)
    | to_nack => (mkNackBody (form_or_json c "error") (form_or_json c "consumer_group"), true)
    | to_batch => (mkBatchBody (form_or_json c "topic") 0 None
                     (form_or_json c "consumer_group"), true)
    | to_purge => (mkPurgeBody [], true)
    | to_schedule => (mkScheduleBody (form_or_json c "schedule"), true)
    | to_group => (mkGroupBody (form_or_json c "consumer_group"), true)
    | to_replay => (mkReplayBody None, true)
    | to_config => (mkConfigBody None None None None None None, true)
    | to_schema => (mkSchemaBody (form_or_json c "schema_json"), true)
    | to_create_user =>
        (mkCreateUser (form_or_json c "username") (form_or_json c "password") true, true)
    | to_update_user => (mkUpdateUser None None None, true)
    | to_grant => (mkAddGrant (form_or_json c "action") (form_or_json c "topic_pattern"), true)
    | to_group_grant =>
        (mkAddGroupGrant (form_or_json c "topic_pattern") (form_or_json c "consumer_group"), true)
    end;
  limit_reached _ := false;
|}.
#[export] Instance layouts_model : Layouts := {|
  Format _ := "then"%string; FormatUTC _ := "then"%string; ParseRFC3339 _ := None;
  StdEncoding s := s;
|}.

Definition web : HTTPServer := mkHTTPServer server auth_on "dev" "salt" (λ _, true).
Definition idle : Cron := mkCron [] None.
Definition shop_with (action pattern : string) : DB :=
  set_grants (<["r2"%string:=mkGrantRow "u1" action pattern None 1]> (user_grants shop)) shop.

(** Alice asks for a topic configuration. *)
Lemma routes_admit_exactly_permitted_witness :
  w_db (NewHTTPServer web PUT_config (mkRequest [] [] "secret" "" None) idle now world).2 = shop.
Proof.
  pose proof (routes_admit_exactly_permitted web PUT_config (mkRequest [] [] "secret" "" None) idle
    now world eq_refl eq_refl) as H.
  assert (bearer web (mkRequest [] [] "secret" "" None) (go_now now) =
    Some (mkClaims "u1" "alice" false (Some (1000 * Second)))) as Hb by (vm_compute; reflexivity).
  rewrite Hb in H. destruct H as (_ & _ & H). apply H. vm_compute. reflexivity.
Defined.

Definition posted : Ctx :=
  mkRequest [] [] "secret" "to events"
    (Some [("topic", "orders"); ("payload", "new")]%string).

Lemma transports_report_enqueue_witness :
  (enqueueMessage server posted now world).1 = Ok (mkResponse StatusCreated (json_id "m")) ∧
  w_db (rpc_Enqueue server (mkCaller None true) (mkEnqueueRequest "orders" "new" None None)
          now world).2 = w_db (enqueueMessage server posted now world).2.
Proof.
  assert ((enqueueMessage server posted now world).1 =
    Ok (mkResponse StatusCreated (json_id "m"))) as Hrun by (vm_compute; reflexivity).
  split; [exact Hrun|].
  assert ("orders"%string ≠ ""%string) as Ht by discriminate.
  assert ("new"%string ≠ ""%string) as Hp by discriminate.
  exact (proj1 (transports_report_enqueue server posted (mkCaller None true)
    (mkEnqueueBody "orders" "new" None None) now world (world_of_caches_ok shop) eq_refl eq_refl
    Ht Hp eq_refl)).
Defined.

(** Alice may write to [events] only; her request says so as JSON, and [orders] as a form. *)
Lemma enqueue_grant_checked_on_other_decoding_witness :
  let w := world_of (shop_with "write" "events") in
  (NewHTTPServer web POST_messages posted idle now w).1 =
    Ok (mkResponse StatusCreated (json_id "m"), idle).
Proof.
  intros w.
  assert ((Enqueue server "orders" "new" None None now w).1 = Ok "m"%string) as Henq
    by (vm_compute; reflexivity).
  apply known_run in Henq.
  assert (bearer web posted (go_now now) = Some (mkClaims "u1" "alice" false (Some (1000 * Second))))
    as Hb by (vm_compute; reflexivity).
  assert (HasGrant (grants_of "u1" (w_db w)) "write" (peek posted "topic") = true) as Hyes
    by (vm_compute; reflexivity).
  assert (HasGrant (grants_of "u1" (w_db w)) "write" "orders" = false) as Hno
    by (vm_compute; reflexivity).
  assert ("orders"%string ≠ ""%string) as Ht by discriminate.
  assert ("new"%string ≠ ""%string) as Hp by discriminate.
  destruct (enqueue_grant_checked_on_other_decoding web posted idle now w _
    (mkEnqueueBody "orders" "new" None None) eq_refl Hb eq_refl eq_refl eq_refl Ht Hp Hyes Hno)
    as [Hrun _].
  rewrite (Hrun _ _ Henq). reflexivity.
Defined.

Lemma listing_shows_granted_messages_witness :
  let w := world_of (shop_with "read" "events") in
  let c : Ctx := mkRequest [] [("topic", "events")]%string "secret" "" None in
  ∃ items w', NewHTTPServer web GET_messages c idle now w =
      (Ok (mkResponse StatusOK (json_messages items 2 50 0), idle), w') ∧
    mr_ID <$> items = ["f"; "d"]%string ∧ NoDup (mr_ID <$> items).
Proof.
  intros w c.
  assert (match (NewHTTPServer web GET_messages c idle now w).1 with
          | Ok (mkResponse 200 (json_messages items 2 50 0), mkCron [] None) => mr_ID <$> items
          | _ => [] end = ["f"; "d"]%string) as Hrun by (vm_compute; reflexivity).
  assert (bearer web c (go_now now) = Some (mkClaims "u1" "alice" false (Some (1000 * Second))))
    as Hb by (vm_compute; reflexivity).
  assert (Forall (λ g, TopicPattern g ≠ ""%string) (grants_of "u1" (w_db w))) as Hne
    by (apply (bool_decide_unpack _); vm_compute; exact I).
  destruct (NewHTTPServer web GET_messages c idle now w) as [[[[st b] cr]|x] w'] eqn:Heq;
    [|discriminate Hrun].
  cbv beta iota delta [fst] in Hrun.
  repeat match type of Hrun with
         | match ?x with _ => _ end = _ => destruct x; try discriminate Hrun
         end.
  eexists _, w'. split; [reflexivity|]. split; [exact Hrun|].
  destruct (listing_shows_granted_messages web c idle now w _ _ _ _ _ _ _ eq_refl Hb eq_refl
    eq_refl Hne Heq) as (_ & Hdup & _). exact Hdup.
Defined.

(** An administrator [bob], whose one token is issued at 200.7 seconds and so is accepted for
    700 milliseconds less than fifteen minutes. *)
Definition bobs_login : Env := mkEnv (200 * Second + 700000000) (at_s 200) (λ _, "m"%string) ∅ ∅.
Definition bob_expiry : Z := 1100 * Second.
Definition bob_claims : Claims := mkClaims "m" "bob" true (Some bob_expiry).
Definition jwt_bob : JWT := {|
  SignedString cl secret :=
    if bool_decide (UserID cl = "m" ∧ Users.claims_Username cl = "bob" ∧ claims_IsAdmin cl = true ∧
                    Users.ExpiresAt cl = Some bob_expiry ∧ secret = "secret")%string
    then Some "token"%string else None;
  ParseWithClaims token key t :=
    if bool_decide (token = "token"%string ∧ key HMAC = Some "secret"%string ∧ t < bob_expiry)
    then Some bob_claims else None;
|}.

Lemma jwt_bob_laws : JWTLaws (JW := jwt_bob).
Proof.
  split; simpl.
  - intros cl secret token t x. case_bool_decide as Hc; [|done]. intros [= <-] _ _ Hx _ Ht.
    destruct Hc as (Hu & Hn & Ha & Hx' & ->). rewrite Hx' in Hx. injection Hx as <-.
    rewrite bool_decide_true by done. destruct cl. simpl in *. by subst.
  - intros cl secret token key t x. case_bool_decide as Hc; [|done]. intros _ Hx Ht.
    destruct Hc as (_ & _ & _ & Hx' & _). rewrite Hx' in Hx. injection Hx as <-.
    rewrite bool_decide_false; [done|]. intros (_ & _ & ?). lia.
  - intros token key t cl x. case_bool_decide as Hc; [|done]. intros [= <-] [= <-]. apply Hc.
Qed.
#[export] Instance bcrypt_model_laws : BcryptLaws.
Proof. split. intros salt p h [= ->]. by apply bool_decide_eq_true. Qed.

Definition bobs_form : Ctx :=
  mkRequest [] [] "token" ""
    (Some [("username", "bob"); ("password", "correct-horse")]%string).

(** [bob] signs up and logs in; on a server that no longer has the account, his token
    still opens the administration routes, until it expires. *)
Lemma session_lifecycle_witness :
  NewHTTPServer (JW := jwt_bob) web GET_users bobs_form idle (env_at 300) world =
    handler (JW := jwt_bob) web GET_users bobs_form idle (Some bob_claims) (env_at 300) world ∧
  NewHTTPServer (JW := jwt_bob) web POST_refresh bobs_form idle (env_at 300) world =
    (Ok (mkResponse StatusUnauthorized (json_error (Text "user no longer exists")), idle), world) ∧
  bearer (JW := jwt_bob) web bobs_form (1100 * Second - 1) = Some bob_claims ∧
  bearer (JW := jwt_bob) web bobs_form (1100 * Second) = None.
Proof.
  pose (u := mkUserResponse "m" "bob" true "then" "then").
  assert ((createUser "salt" bobs_form (env_at 100) world).1 =
    Ok (mkResponse StatusCreated (json_user u))) as Hrun by (vm_compute; reflexivity).
  apply known_run in Hrun.
  assert (w_faults (createUser "salt" bobs_form (env_at 100) world).2 = []) as Hf
    by (vm_compute; reflexivity).
  assert (IssueToken (JW := jwt_bob) "secret" "m" "bob" true (go_now bobs_login) =
    Some "token"%string) as Htok by (vm_compute; reflexivity).
  assert (go_now (env_at 300) < NewNumericDate (go_now bobs_login + TokenDuration)) as Hlt
    by (apply Z.ltb_lt; vm_compute; reflexivity).
  assert (users shop !! "m"%string = None) as Hgone by (vm_compute; reflexivity).
  destruct (session_lifecycle (JW := jwt_bob) (JLAWS := jwt_bob_laws) web bobs_form bobs_form
    bobs_form idle (env_at 100) bobs_login (env_at 300) world _ world
    (mkCreateUser "bob" "correct-horse" true) u _ "token" eq_refl shop_users_ok eq_refl Hrun
    eq_refl eq_refl Hf eq_refl Htok eq_refl eq_refl eq_refl Hgone)
    as (_ & _ & _ & Hbearer & Hold).
  destruct (Hold Hlt) as [Hrefresh Hadmin].
  split; [exact (Hadmin eq_refl GET_users eq_refl)|]. split; [exact Hrefresh|].
  split; apply Hbearer.
Defined.
