(* ===== verification/ClientScenarios.v ===== *)
(** * The theorems about processes and clients on a concrete deployment

    One application of each conditional theorem about start-up, metrics, broadcasts, the
    client library and the seeder, on the tables of [Scenarios]. *)

From S2P Require Import Prelude.
From S2P Require Import Store.
From S2P Require Import Avro.
From S2P Require Import Json.
From S2P Require Import Text.
From S2P Require Import Runtime.
From S2P Require Import Model.
From S2P Require Import TopicConfig.
From S2P Require Import Broadcast.
From S2P Require Import Throttle.
From S2P Require Import Schema.
From S2P Require Import Dequeue.
From S2P Require Import Enqueue.
From S2P Require Import Lifecycle.
From S2P Require Import ConsumerGroup.
From S2P Require Import Reaper.
From S2P Require Import Replay.
From S2P Require Import Query.
From S2P Require Import System.
From S2P Require Import Caches.
From S2P Require Import Metrics.
From S2P Require Import Users.
From S2P Require Import Grpc.
From S2P Require Import Client.
From S2P Require Import Consumer.
From S2P Require Import EndToEnd.
From S2P Require Import Http.
From S2P Require Import Handlers.
From S2P Require Import Routes.
From S2P Require Import Pipeline.
From S2P Require Import Config.
From S2P Require Import Boot.
From S2P Require Import Admin.
From S2P Require Import Seeder.
From S2P Require Import SeederCommand.
From S2P Require Import AdminServer.
From S2P Require Import Scenarios.

(** ** Tokens *)

(** Two claims texts, expiring at 200 s and at 400 s. *)
Definition claims_codecs : Codecs := {|
  avro_Parse _ := None;
  json_Unmarshal p :=
    if bool_decide (p = "p1"%string) then Some (JObject [("exp"%string, enc_int 200)])
    else if bool_decide (p = "p2"%string)
    then Some (JObject [("sub"%string, JString "u1"); ("exp"%string, enc_int 400)])
    else None;
|}.
Definition token1 : string := ("h." +:+ EncodeToString "p1" +:+ ".s")%string.
Definition token2 : string := ("h." +:+ EncodeToString "p2" +:+ ".s")%string.

Lemma tokenExpiry_roundtrip_witness :
  tokenExpiry (CO := claims_codecs) token2 = Some (400 * Second) ∧
  tokenExpiry (CO := claims_codecs) "one.two" = None.
Proof.
  assert (Forall (λ kv : string * json, foldName kv.1 ≠ foldName "exp")
    ([("sub"%string, JString "u1")] ++ [])) as Hother
    by (constructor; [vm_compute; discriminate|constructor]).
  assert (length (Split "." "one.two") ≠ 3%nat) as Hlen by (vm_compute; discriminate).
  exact (tokenExpiry_roundtrip (CO := claims_codecs) "h" "p2" "s" [("sub"%string, JString "u1")] []
    400 "one.two" eq_refl eq_refl eq_refl Hother ltac:(lia) Hlen).
Defined.

(** Renewed at 140 s, a minute before its expiry; the callback then fails twice. *)
Definition renewals : list Round :=
  [mkRound false false (2 * Second) (Some token2) false false;
   mkRound false false Second None false false;
   mkRound false false Second None false false].

Lemma refresher_keeps_token_fresh_witness :
  let st := mkRefresher token1 initial_retry 0 in
  (runRefresher (CO := claims_codecs) renewals st).2 = [(142 * Second, token1)] ∧
  Forall (λ set, ∃ exp, tokenExpiry (CO := claims_codecs) set.2 = Some exp ∧ set.1 < exp)
    (runRefresher (CO := claims_codecs) renewals st).2.
Proof.
  intros st. split; [vm_compute; reflexivity|].
  assert (long_lived (CO := claims_codecs) token1 0) as H1.
  { exists (200 * Second). split; [vm_compute; reflexivity|split; vm_compute; [discriminate|reflexivity]]. }
  assert (few_failures (CO := claims_codecs) 3 renewals st) as Hfew.
  { assert (∀ r : Round, (done_sleeping r, done_before_call r, done_after_call r,
      done_backing_off r, (0 <=? call_takes r) && (call_takes r <=? 6 * Second)) =
      (false, false, false, false, true) → prompt r) as Hp.
    { intros [? ? ? ? ? ?] [= -> -> -> -> [H0%Z.leb_le H6%Z.leb_le]%andb_true_iff].
      unfold prompt. split_and!; first [reflexivity|exact H0|exact H6]. }
    split; [by apply Hp|]. split.
    - exists (400 * Second). split; [vm_compute; reflexivity|split; vm_compute; [discriminate|reflexivity]].
    - split; [by apply Hp|]. split; [by apply Hp|exact I]. }
  exact (proj1 (proj1 (refresher_keeps_token_fresh (CO := claims_codecs) token1 0 renewals H1 Hfew))).
Defined.

(** ** The consumer *)

Definition open_server : Caller := mkCaller None true.
#[local] Instance stub_now : QueueServiceClient World := stub server open_server now.

Definition one_at_a_time : consumerConfig := mkConsumerConfig 1 0 "".
Definition first_order : Delivered := mkDelivered "a" "orders" "pa" None 0 0 "".

(** The loop with one message in a handler, before and after the context is done. *)
Definition handling (done : bool) : Consumer World :=
  mkConsumer Receiving backoffStart [] [first_order] [] [first_order] done world.

Lemma handling_reached : reaches one_at_a_time world (handling true).
Proof.
  split; [done|].
  eapply rtc_l; [by apply step_open|].
  eapply rtc_l; [by apply (step_arrive _ _ [first_order] world)|].
  eapply rtc_l; [by apply (step_recv _ _ first_order [])|].
  eapply rtc_l; [by apply (step_acquire _ _ first_order)|].
  apply rtc_once. by apply (step_cancel _ (handling false)).
Qed.

Lemma consumer_invariant_witness :
  received (handling true) ≡ₚ
    held (c_phase (handling true)) ++ running_handlers (handling true) ++
    (handled (handling true)).*1.
Proof. exact (proj1 (proj2 (consumer_invariant one_at_a_time world _ handling_reached))). Defined.

(** The handler ends and the loop sees the end of the stream: nothing is left to do. *)
Definition consumer_returned : Consumer World :=
  mkConsumer Returned backoffStart [] [] [(first_order, returned_nil)] [first_order] true world.

Lemma handling_returns : nsteps (consume_step 1) 2 (handling true) consumer_returned.
Proof.
  eapply nsteps_l; [by apply (step_finish _ (handling true) [] first_order [] returned_nil not_sent)|].
  apply nsteps_once. by eapply step_recv_end.
Qed.
Lemma consumer_returned_stuck c : ¬ consume_step 1 consumer_returned c.
Proof.
  inversion 1 as [| | | | | |? [Hw|Hw]| | | | |? l1 ? ? ? ? Hr]; simplify_eq; try done.
  by destruct l1.
Qed.

Lemma consume_returns_witness :
  (2 ≤ work (handling true))%nat ∧ received consumer_returned ≡ₚ (handled consumer_returned).*1.
Proof.
  assert (1 ≤ concurrency one_at_a_time) as Hn by (vm_compute; discriminate).
  pose proof (rtc_nsteps_2 _ _ _ handling_returns) as Hrun.
  destruct (proj1 (consume_returns one_at_a_time world _ handling_reached) Hn eq_refl)
    as [Hwork Hend].
  split; [exact (Hwork _ _ handling_returns)|].
  exact (proj2 (proj2 (Hend _ Hrun consumer_returned_stuck))).
Defined.

(** ** One message *)

(** [a] is the oldest eligible order; its handler succeeds. *)
Lemma verdict_decides_fate_witness :
  let run := deliver server open_server "orders" one_at_a_time answered (λ _, returned_nil) now
    (env_at 110) world in
  dm_ID <$> run.1 = Some "a"%string ∧ messages (w_db run.2) = delete "a"%string (messages shop).
Proof.
  intros run.
  assert (dm_ID <$> run.1 = Some "a"%string) as Hid by (vm_compute; reflexivity).
  split; [exact Hid|].
  assert (∀ i, message_log shop !! ("orders"%string, pg_now (env_at 110), i) = None) as Hlog.
  { intros i. unfold shop. simpl. by apply lookup_singleton_ne. }
  assert (in_step world) as Hw by (split; [apply world_of_caches_ok|reflexivity]).
  destruct run as [[m|] w2] eqn:Hrun; [|discriminate Hid]. injection Hid as Hid.
  destruct (verdict_decides_fate server open_server "orders" 1 0 answered (λ _, returned_nil) now
    (env_at 110) world m w2 shop_ok Hw eq_refl eq_refl Hlog Hrun)
    as (r & _ & _ & _ & _ & _ & _ & _ & Hans).
  assert (answered ≠ not_sent) as Hsent by discriminate.
  destruct (Hans Hsent) as [Hms _]. rewrite Hid in Hms. exact Hms.
Defined.

(** A job nobody can handle, on a service with a threshold of three. *)
Definition strict : Service := mkService (30 * Second) 3 0 3 false.
Definition job : MessageRow := row "jobs" "pj" None Store.pending 0 None None (at_s 10).
Definition jobs : World :=
  world_of (set_messages {[ "j"%string := job; "i"%string := row "jobs" "pi" None Store.pending 0 None None (at_s 20) ]}
    empty_db).
Definition three_times : list (Env * Env) :=
  [(env_at 100, env_at 110); (env_at 200, env_at 210); (env_at 300, env_at 310)].

Lemma poison_message_reaches_dlq_witness :
  let run := deliver_all strict open_server "jobs" (mkConsumerConfig 1 0 "") (λ _, panicked "boom")
    three_times jobs in
  length run.1 = 3%nat ∧
  m_topic <$> messages (w_db run.2) !! "j"%string = Some "jobs.dlq"%string.
Proof.
  intros run.
  assert (next_in_line "jobs" "j" job three_times jobs) as Hnext.
  { split.
    - split; [apply world_of_caches_ok|reflexivity].
    - apply db_check_ok. vm_compute. reflexivity.
    - vm_compute. reflexivity.
    - apply (bool_decide_unpack _). vm_compute. exact I.
    - intros j rj Hj Hne _. simpl in Hj.
      apply lookup_insert_Some in Hj as [[Heq _]|[_ Hj]]; [by destruct Hne|].
      apply lookup_singleton_Some in Hj as [_ <-]. vm_compute. reflexivity.
    - vm_compute. reflexivity.
    - exists None. vm_compute. reflexivity.
    - reflexivity. }
  assert ("jobs"%string ≠ ""%string) as Ht by discriminate.
  assert ("j"%string ≠ ""%string) as Hid by discriminate.
  assert (threshold_of strict "jobs" (w_db jobs) = 3) as Hthr by (vm_compute; reflexivity).
  pose proof (poison_message_reaches_dlq strict open_server "jobs" 1 0 (λ _, panicked "boom")
    three_times jobs "j" job eq_refl Ht Hid (λ m _, mk_is_Some _ _ eq_refl) Hnext) as H.
  cbv zeta in H. rewrite Hthr in H. specialize (H ltac:(simpl; lia) ltac:(simpl; lia)).
  assert (int4 (m_max_retries job)) as H4 by (vm_compute; split; [discriminate|reflexivity]).
  specialize (H H4 eq_refl). fold run in H. clearbody run. destruct run as [ms w'].
  destruct H as (_ & Hlen & r' & Hms & Htopic & _). split; [exact Hlen|].
  simpl. rewrite Hms, lookup_insert_eq. simpl. by rewrite Htopic.
Defined.

(** ** Caches, metrics, broadcasts *)

Lemma world_in_step : in_step world.
Proof. split; [apply world_of_caches_ok|reflexivity]. Qed.

(** Configurations that change between uses. *)
Definition config_history : list (System.call * Env) :=
  [(do_Enqueue "orders" "new" None None, env_at 100);
   (do_UpsertTopicConfig (mkTopicConfig "orders" (Some 5) None None false None None), env_at 101);
   (do_Dequeue "orders" 0, env_at 102); (do_DeleteTopicConfig "orders", env_at 103);
   (do_Enqueue "orders" "newer" None None, env_at 104)].

Lemma caches_invariant_witness :
  (GetTopicConfig "orders" (env_at 105) (run_calls server config_history world)).1 = Ok None.
Proof.
  destruct (caches_invariant server config_history world (conj (world_of_caches_ok shop) eq_refl))
    as [_ Hget].
  rewrite (Hget "orders"%string (env_at 105)). vm_compute. reflexivity.
Defined.

Definition prometheus_model : Prometheus := {|
  CounterVec := list string * (list string → Z);
  NewCounterVec _ ls := (ls, λ _, 0);
  LabelNames := fst;
  Add cv vs v :=
    if decide (length vs = length cv.1 ∧ 0 ≤ v)
    then Some (cv.1, λ vs', if decide (vs' = vs) then cv.2 vs + v else cv.2 vs') else None;
  value cv vs := cv.2 vs;
|}.
Lemma prometheus_model_laws : PrometheusLaws (PR := prometheus_model).
Proof.
  split; simpl.
  - done.
  - done.
  - intros cv vs v Hl Hv. rewrite decide_True by done. by eexists.
  - intros cv vs v cv'. case_decide; [|done]. by intros [= <-].
  - intros cv vs v cv'. case_decide; [|done]. intros [= <-] _. simpl. by rewrite decide_True.
  - intros cv vs v cv' vs'. case_decide; [|done]. intros [= <-] Hne. simpl. by rewrite decide_False.
Qed.

Lemma counters_count_events_witness :
  ∃ r, observe_all (PR := prometheus_model) (newRecorder (PR := prometheus_model))
         (w_metrics (run_calls server history world)) = Some r ∧
    read (PR := prometheus_model) (dequeued_total "orders") r =
      total (dequeued_total "orders") (w_metrics (run_calls server history world)).
Proof.
  destruct (counters_count_events (PR := prometheus_model) (PL := prometheus_model_laws)
    server history world eq_refl) as (r & Hr & Hread).
  exists r. split; [exact Hr|]. apply Hread. vm_compute. discriminate.
Defined.

Definition relaxed : TopicConfig := mkTopicConfig "orders" None None None false None None.
Definition listening : Replica := mkReplica (topic_config shop) ∅ [] [] [] true [].
Lemma listening_synced : synced listening.
Proof. split; [done..|]. by intros t c. Qed.

(** A lookup, a change made elsewhere, a second lookup that still hits. *)
Definition change_seen_late : list Event :=
  [ev_query "orders"; ev_store 0; ev_change_elsewhere "orders" (Some relaxed);
   ev_publish 0 Works].

Lemma listeners_converge_witness :
  ∃ s, run change_seen_late listening = Some s ∧
    rp_cache s !! "orders"%string = Some (Some orders_config) ∧ "orders"%string ∈ pending s.
Proof.
  destruct (run change_seen_late listening) as [s|] eqn:Hrun;
    [|vm_compute in Hrun; discriminate Hrun].
  assert (rp_cache s !! "orders"%string = Some (Some orders_config)) as Hc
    by (vm_compute in Hrun; injection Hrun as <-; vm_compute; reflexivity).
  assert (Some orders_config ≠ rp_table s !! "orders"%string) as Hne
    by (vm_compute in Hrun; injection Hrun as <-; vm_compute; discriminate).
  assert (all_timely change_seen_late listening) as Ht by (vm_compute; tauto).
  exists s. split; [reflexivity|]. split; [exact Hc|].
  exact (proj1 (listeners_converge change_seen_late listening s listening_synced Ht Hrun)
    _ _ Hc Hne).
Defined.

Lemma late_store_leaves_stale_entry_witness :
  ∃ s, run [ev_query "orders"; ev_change_elsewhere "orders" (Some relaxed); ev_publish 0 Works;
            ev_handle; ev_store 0] listening = Some s ∧ pending s = [] ∧
    rp_cache s !! "orders"%string = Some (Some orders_config).
Proof.
  assert (Some relaxed ≠ rp_table listening !! "orders"%string) as Hne
    by (vm_compute; discriminate).
  destruct (late_store_leaves_stale_entry "orders" (Some relaxed) listening listening_synced eq_refl
    Hne) as (s & Hrun & _ & Hp & _ & Hstuck).
  exists s. split; [exact Hrun|]. split; [exact Hp|].
  exact (proj1 (Hstuck [] s eq_refl eq_refl)).
Defined.

(** ** Start-up *)

Definition secret32 : string := "0123456789abcdef0123456789abcdef".
Definition deployed : Config.Config :=
  mkConfig (mkServerConfig 50051 8080 "*") (mkDBConfig "db" 5432 "app" "pw" "queueti" "require")
    (mkQueueConfig (30 * Second) 3 0 3 false "0 3 * * *")
    (mkAuthSettings "root" "first-password" (mkAuthConfig true secret32))
    (mkRedisConfig "" 6379 "" false) "Warn+1".
(** A database that accepts every string, parses it to the settings it was made from, and
    has nothing to migrate. *)
Definition postgres_up : Database :=
  mkDatabase (λ _, Some (cfg_DB deployed)) (λ _, true) true (λ _, true) (λ _, up_no_change).
Definition host : Host := mkHost postgres_up "salt" (λ _, true) None true.

Lemma startup_state_witness :
  ∃ p, (main "v1" (Some deployed) host now world).1 = Ok (Ok p) ∧
    running (proc_cron p) = ["0 3 * * *"%string] ∧
    caches_ok (run_calls (queueService (proc_server p)) config_history
                 (main "v1" (Some deployed) host now world).2).
Proof.
  destruct ((main "v1" (Some deployed) host now world).1) as [[p|f]|x] eqn:Hrun;
    [|vm_compute in Hrun; discriminate Hrun..].
  exists p. split; [reflexivity|]. apply known_run in Hrun.
  assert (redis_in_step host world) as Hredis by (by apply caches_ok_no_redis).
  destruct (startup_state "v1" (Some deployed) host now world p _ eq_refl Hredis Hrun)
    as (_ & _ & _ & _ & Hcron & _ & Hcaches & _).
  split; [|exact (Hcaches config_history)]. rewrite Hcron. vm_compute. reflexivity.
Defined.

(** ** The admin client and the seeder on the server *)

(** Documents are their text; requests are their own context, with the segment of the path. *)
#[local] Instance wire_model : Wire := {|
  Document := json; Marshal j := j; Unmarshal j := Some j; first_document j := Some j |}.
#[local] Instance wire_model_laws : WireLaws.
Proof. by split. Qed.

Definition parsed {A} (dec : Decoder A) (zero : A) (req : HttpRequest) : A * bool :=
  match rq_Body req with Some j => dec zero j | None => (zero, false) end.

Definition fiber_requests : Fiber := {|
  Ctx := HttpRequest * string;
  Params c name := if bool_decide (name = "topic"%string) then c.2 else ""%string;
  c_Query _ _ := ""%string;
  QueryInt _ _ d := d;
  c_Get c name := if bool_decide (name = "Authorization"%string)
                  then default ""%string (rq_Authorization c.1) else ""%string;
  Body _ := ""%string;
  BodyParser A t c :=
    match t in target A return A * bool with
    | to_config => parsed dec_topicConfigRequest zero_config_request c.1
    | to_schema => parsed dec_topicSchemaRequest (mkSchemaBody "") c.1
    | to_group => parsed dec_registerConsumerGroupRequest (mkGroupBody "") c.1
    | to_login => (mkLoginRequest "" "", false)
    | to_enqueue => (mkEnqueueBody "" "" None None, false)
    | to_nack => (mkNackBody "" "", false)
    | to_batch => (mkBatchBody "" 0 None "", false)
    | to_purge => (mkPurgeBody [], false)
    | to_schedule => (mkScheduleBody "", false)
    | to_replay => (mkReplayBody None, false)
    | to_create_user => (mkCreateUser "" "" false, false)
    | to_update_user => (mkUpdateUser None None None, false)
    | to_grant => (mkAddGrant "" "", false)
    | to_group_grant => (mkAddGroupGrant "" "", false)
    end;
  limit_reached _ := false;
|}.

(** What is left of [s] after the prefix [p]. *)
Fixpoint after (p s : string) : option string :=
  match p, s with
  | EmptyString, _ => Some s
  | String c p', String d s' => if bool_decide (c = d) then after p' s' else None
  | String _ _, EmptyString => None
  end.
Lemma after_app p s : after p (p +:+ s) = Some s.
Proof. induction p as [|c p IH]; simpl; [done|]. by rewrite bool_decide_true. Qed.

Definition site : string := "http://queue".
Definition site_route (req : HttpRequest) : option (Route * (HttpRequest * string)) :=
  let found r seg := Some (r, (req, seg)) in
  let meth := rq_Method req in
  match after (site +:+ "/api/topic-configs/") (rq_URL req) with
  | Some seg => if bool_decide (meth = "PUT"%string) then found PUT_config seg
                else found DELETE_config seg
  | None =>
      match after (site +:+ "/api/topic-schemas/") (rq_URL req) with
      | Some seg => found PUT_schema seg
      | None =>
          match after (site +:+ "/api/topics/") (rq_URL req) with
          | Some rest =>
              match Split "/" rest with
              | [seg; "consumer-groups"%string] =>
                  if bool_decide (meth = "GET"%string) then found GET_groups seg
                  else found POST_groups seg
              | _ => None
              end
          | None => None
          end
      end
  end.

Definition open_web : HTTPServer :=
  mkHTTPServer server (mkAuthConfig false "") "dev" "salt" (λ _, true).

Lemma carries_itself req seg : carries (FI := fiber_requests) req (req, seg).
Proof.
  split; [done|]. intros text j Hb _ [= ->]. simpl. unfold parsed. by rewrite Hb.
Qed.

Lemma site_route_laws :
  RouteLaws (FI := fiber_requests) (WI := wire_model) site site_route.
Proof.
  split; intros req seg (_ & Hslash & _) Hm Hu; exists (req, seg);
    (split; [|split; [done|apply carries_itself]]); unfold site_route; rewrite Hm, Hu.
  - change (site +:+ "/api/topic-configs/" +:+ seg)%string
      with ((site +:+ "/api/topic-configs/") +:+ seg)%string. by rewrite after_app.
  - change (site +:+ "/api/topic-configs/" +:+ seg)%string
      with ((site +:+ "/api/topic-configs/") +:+ seg)%string. by rewrite after_app.
  - reflexivity.
  - change (match Split "/" (seg +:+ String "/" "consumer-groups") with
            | [seg; "consumer-groups"%string] => Some (GET_groups, (req, seg))
            | _ => None end = Some (GET_groups, (req, seg))).
    by rewrite Split_first.
  - change (match Split "/" (seg +:+ String "/" "consumer-groups") with
            | [seg; "consumer-groups"%string] => Some (POST_groups, (req, seg))
            | _ => None end = Some (POST_groups, (req, seg))).
    by rewrite Split_first.
Qed.

Lemma open_admits : admits open_web now "".
Proof. by left. Qed.

Definition site_admin : AdminClient :=
  admin_client (FI := fiber_requests) open_web site site_route idle now "".

(** A name that is escaped on its way. *)
Lemma admin_config_end_to_end_witness :
  let topic := "new orders"%string in
  let stored := stored_config "new%20orders" orders_config in
  let run := Admin.UpsertTopicConfig site_admin topic orders_config world in
  PathEscape topic = "new%20orders"%string ∧ run.1 = Ok stored ∧
  topic_config (w_db run.2) !! "new%20orders"%string = Some stored ∧
  topic_config (w_db run.2) !! topic = None.
Proof.
  intros topic stored run.
  assert (topic ≠ ""%string) as Ht by discriminate.
  assert (config_int64 orders_config) as H8 
    by (unfold config_int64; split_and!; vm_compute; first [exact I|split; [discriminate|reflexivity]]).
  assert (PathEscape topic = "new%20orders"%string) as Hesc by (vm_compute; reflexivity).
  pose proof (admin_config_end_to_end (FI := fiber_requests) (WLAWS := wire_model_laws)
    (RLAWS := site_route_laws) open_web site site_route idle now "" open_admits topic orders_config
    world world_in_step Ht H8) as H.
  cbv zeta in H. rewrite Hesc in H. fold stored in H. destruct H as [_ H].
  change (ThroughputLimit orders_config) with (@None Z) in H.
  change (HasSuffix "new%20orders" ".dlq") with false in H. cbv beta iota delta [orb] in H.
  destruct (decide (config_int4 stored)) as [_|Hn];
    [|destruct Hn; apply (bool_decide_unpack _); vm_compute; exact I].
  destruct H as (Hres & _ & Hdb & _). split; [exact Hesc|]. split; [exact Hres|].
  change (w_db run.2 = set_config (<["new%20orders"%string:=stored]> (topic_config (w_db world)))
    (w_db world)) in Hdb.
  rewrite Hdb. split; vm_compute; reflexivity.
Defined.

Definition seed : SeedFile :=
  mkSeedFile [mkTopicConfig "jobs" (Some 5) None None true (Some 60) None]
    [mkSchemaEntry "jobs" "int"] [mkGroupEntry "jobs" ["g1"; "g2"; "g1"]%string].

(** The command line and the disk; nobody logs in. *)
Definition seed_flags : Flags := mkFlags "seed.json" site "" "" "" false.
Definition disk (path : string) : option Document :=
  if bool_decide (path = "seed.json"%string) then Some (Marshal (enc_seed seed)) else None.
Definition unreachable (req : HttpRequest) (w : World) : option HttpResponse * World := (None, w).

Lemma seed_file_applied_witness :
  let hc := serve (FI := fiber_requests) open_web site_route idle now in
  ∃ logs w1,
    RunE unreachable "" disk seed_flags hc world = (Ok tt, logs ++ [seeding_complete], w1) ∧
    ("jobs", "g2")%string ∈ dom (consumer_groups (w_db w1)) ∧
    topic_schemas (w_db world) !! "jobs"%string = None ∧
    is_Some (topic_schemas (w_db w1) !! "jobs"%string).
Proof.
  intros hc.
  pose (LAWS := admin_laws (FI := fiber_requests) (WLAWS := wire_model_laws)
    (RLAWS := site_route_laws) open_web site site_route idle now "" open_admits).
  assert (plain_topic "jobs") as Hplain
    by (split; [discriminate|split; vm_compute; reflexivity]).
  assert (good (AdminLaws := LAWS) world) as Hgood.
  { split; [exact world_in_step|]. apply (bool_decide_unpack _). vm_compute. exact I. }
  assert (seed_ok (LAWS := LAWS) 2 seed (view (AdminLaws := LAWS) world)) as Hok.
  { split.
    - constructor; [|constructor]. split; [exact Hplain|]. split; [|exact I].
      apply (bool_decide_unpack _). vm_compute. exact I.
    - constructor; [|constructor]. split; [exact Hplain|]. exists AInt. vm_compute. reflexivity.
    - split; [vm_compute; reflexivity|]. intros t sc n Hn.
      assert (v_schemas (server_view world) = ∅) as He by (vm_compute; reflexivity).
      change (v_schemas (server_view world) !! t = Some (sc, n)) in Hn.
      rewrite He, lookup_empty in Hn. discriminate Hn.
    - constructor; [|constructor]. split; [exact Hplain|]. split; [|intros H; discriminate H].
      apply (bool_decide_unpack _). vm_compute. exact I. }
  assert (Forall config_int64 (TopicConfigs seed)) as Hint.
  { constructor; [|constructor].
    unfold config_int64; split_and!; vm_compute; first [exact I|split; [discriminate|reflexivity]]. }
  destruct (seed_file_applied unreachable "" seed_flags hc (LAWS := LAWS) disk seed world
    eq_refl Hint (or_intror eq_refl) Hgood Hok) as (logs & w1 & Hrun & Hview & _).
  exists logs, w1. split; [exact Hrun|].
  assert (dom (consumer_groups (w_db w1)) = v_groups (seeded seed (server_view world))) as Hg
    by exact (f_equal v_groups Hview).
  assert ((λ ts, (SchemaJSON ts, Version ts)) <$> topic_schemas (w_db w1) =
    v_schemas (seeded seed (server_view world))) as Hs by exact (f_equal v_schemas Hview).
  split; [|split].
  - rewrite Hg. apply (bool_decide_unpack _). vm_compute. exact I.
  - vm_compute. reflexivity.
  - apply (f_equal (lookup "jobs"%string)) in Hs. rewrite lookup_fmap in Hs.
    destruct (topic_schemas (w_db w1) !! "jobs"%string); [by eexists|].
    vm_compute in Hs. discriminate Hs.
Defined.

(** ** The order pipeline *)

(** Orders are written as their identifiers. *)
Definition order_text (j : json) : string :=
  match j with JObject (("id"%string, JString i) :: _) => i | _ => "" end.
Definition order_codecs : Codecs := {|
  avro_Parse _ := None;
  json_Unmarshal p := enc_order <$> head (filter (λ o, ord_ID o = p) orders);
|}.

Definition at_with (t : Z) (id : uuid) : Env := mkEnv (t * Second) (t * 10 ^ 6) (λ _, id) ∅ ∅.

(** The group is registered, three orders are published, and there are five deliveries:
    two orders are handled and the third is refused three times.  Then the drain polls. *)
Definition pipeline_history : list PipelineEvent :=
  let delivery t :=
    [ev_server_send (mkStreamTick false false false true) 0 (at_with t "");
     ev_start_handler; ev_handler_ends 0 answered (at_with t "")] in
  [ev_server_call (do_RegisterConsumerGroup ordersTopic consumerGroup) (at_with 1 "");
   ev_publish_next (Some answered) (at_with 2 "m1"); ev_publish_next (Some answered) (at_with 3 "m2");
   ev_publish_next (Some answered) (at_with 4 "m3")] ++
  delivery 5 ++ delivery 6 ++ delivery 7 ++ delivery 8 ++ delivery 9 ++
  [ev_drain_turn answered [] (at_with 10 "")].

Definition pipeline_end : Pipeline :=
  run_pipeline (CO := order_codecs) order_text (λ _, ""%string) server open_server
    pipeline_history (start_pipeline (world_of empty_db)).

(** The third order is still there, failed for its group. *)
Lemma dead_letters_never_drained_witness :
  batches pipeline_end = [] ∧ dom (messages (w_db (pl_world pipeline_end))) = {["m3"%string]} ∧
  d_status <$> (message_deliveries (w_db (pl_world pipeline_end)) !! ("m3", consumerGroup)%string) =
    Some failed.
Proof.
  assert (without_topic dlqTopic (w_db (world_of empty_db))) as Hw
    by (intros i r Hr; simpl in Hr; by rewrite lookup_empty in Hr).
  assert (Forall harmless pipeline_history) as Hev
    by (repeat (apply Forall_cons; split; [exact I|]); apply Forall_nil; exact I).
  split; [|split; vm_compute; reflexivity].
  exact (proj1 (dead_letters_never_drained (CO := order_codecs) order_text (λ _, ""%string) server
    open_server pipeline_history (world_of empty_db) Hw Hev)).
Defined.
