(* ===== verification/OperationsScenarios.v ===== *)
(** * Scenarios of the server process and of the load test

    Concrete instances of the theorems on the reaper's schedule, on the shutdown and on the
    load test. *)

From S2P Require Import Prelude.
From S2P Require Import Store.
From S2P Require Import Avro.
From S2P Require Import Runtime.
From S2P Require Import Model.
From S2P Require Import TopicConfig.
From S2P Require Import Throttle.
From S2P Require Import Schema.
From S2P Require Import Dequeue.
From S2P Require Import Enqueue.
From S2P Require Import Lifecycle.
From S2P Require Import ConsumerGroup.
From S2P Require Import Reaper.
From S2P Require Import ReaperSchedule.
From S2P Require Import Replay.
From S2P Require Import Query.
From S2P Require Import System.
From S2P Require Import Throughput.
From S2P Require Import Caches.
From S2P Require Import Users.
From S2P Require Import Grpc.
From S2P Require Import ColumnTypes.
From S2P Require Import Client.
From S2P Require Import EndToEnd.
From S2P Require Import Http.
From S2P Require Import Handlers.
From S2P Require Import Routes.
From S2P Require Import Config.
From S2P Require Import Boot.
From S2P Require Import Shutdown.
From S2P Require Import Json.
From S2P Require Import Float64.
From S2P Require Import LoadReport.
From S2P Require Import LoadTest.
From S2P Require Import Scenarios.
From S2P Require Import ClientScenarios.

(** ** Two administrators *)

Definition any_schedule (_ : string) : bool := true.
Definition two_updates : Scheduler :=
  mkScheduler "0 3 * * *" {[0%nat := "0 3 * * *"%string]} 1 (Some (Some 0%nat))
    {[1%nat := mkUpdate "@hourly" update_begun; 2%nat := mkUpdate "@daily" update_begun]}.

Lemma two_updates_idle : ReaperSchedule.idle two_updates.
Proof.
  assert (∀ n u, updates two_updates !! n = Some u → u_phase u = update_begun) as Hbegun.
  { intros n u. simpl. rewrite lookup_insert_Some, lookup_singleton_Some.
    by intros [[_ <-]|[_ [_ <-]]]. }
  split_and!; [split| |]; simpl.
  - intros k. rewrite lookup_singleton_is_Some. lia.
  - intros k [= <-]. by rewrite lookup_singleton_eq.
  - intros n u k Hu Hk. apply Hbegun in Hu. congruence.
  - intros n u Hu%Hbegun. unfold replacing. by rewrite Hu.
  - intros k. rewrite lookup_singleton_is_Some. by intros ->.
Qed.

Lemma overlapping_updates_leak_cron_witness :
  ∃ s1 k, rtc (schedule_step any_schedule) two_updates s1 ∧
    stored_schedule s1 = "@daily"%string ∧ crons s1 !! k = Some "@hourly"%string ∧
    ∀ s', rtc (schedule_step any_schedule) s1 s' → crons s' !! k = Some "@hourly"%string.
Proof.
  destruct (overlapping_updates_leak_cron any_schedule two_updates two_updates two_updates_idle
    (rtc_refl _ _)) as (_ & _ & Hleak).
  destruct (Hleak 1%nat 2%nat "@hourly"%string "@daily"%string) as
    (s1 & k & k' & Hrun & _ & _ & Hst & _ & _ & Hl & Hk); [done..|reflexivity|reflexivity|].
  exists s1, k. split_and!; [exact Hrun|exact Hst|exact Hk|].
  intros s' Hs'. rewrite <-Hk.
  apply (overlapping_updates_leak_cron any_schedule two_updates s1 two_updates_idle Hrun); done.
Defined.

(** ** A signal *)

(** [Shutdown] waits until no connection is open, [GracefulStop] and [Close] until no call
    and no user of a connection is left. *)
#[export] Instance graceful_model : Graceful := {|
  Shutdown_returns X Y := X = ∅;
  GracefulStop_returns X := X = ∅;
  Close_returns X := X = ∅;
  Shutdown_returns_dec X Y := decide (X = ∅);
  GracefulStop_returns_dec X := decide (X = ∅);
  Close_returns_dec X := decide (X = ∅);
|}.
#[export] Instance graceful_waits : GracefulStopWaits.
Proof. by intros X. Qed.
#[export] Instance graceful_returns : GracefulReturns.
Proof. by split. Qed.

Definition process : Process :=
  mkProcess (mkHTTPServer server (mkAuthConfig false "") "v1" "salt" (λ _, true))
    (mkCron ["0 3 * * *"%string] (Some (Some "0 3 * * *"%string))) broadcast_PG false.
Definition signalled : Server := with_at cancelling (serving process world).

Lemma signalled_reached : rtc (any_step server) (serving process world) signalled.
Proof. apply rtc_once. exists ev_signal. split; [done|]. apply (at_signal server (serving process world)). Qed.

Lemma shutdown_returns_witness :
  (∀ k s', nsteps (winding_step server) k signalled s' → (k ≤ 12)%nat) ∧
  (∀ s', rtc (winding_step server) signalled s' → nf (winding_step server) s' → at_ s' = returned).
Proof.
  destruct (shutdown_returns server process world signalled signalled_reached) as [Hb He];
    [discriminate|intros n (req & vt & b & Hn); discriminate Hn|].
  split; [exact Hb|exact He].
Defined.

(** A subscriber of topic [orders] connects, and then the signal comes. *)
Definition subscription : SubscribeRequest := mkSubscribeRequest "orders" None "".
Definition subscribed_server : Server :=
  with_rpcs {[1%nat := stream subscription 0 minBackoff true]} world (serving process world).
Definition waiting_server : Server :=
  mkServer waiting_grpc true (tasks subscribed_server) ∅ (Some 0%nat)
    (cron_instances subscribed_server) false ∅ ∅ false (rpcs subscribed_server) world.

Lemma subscriber_blocks_shutdown_witness :
  rtc (staying_step server 1) subscribed_server waiting_server ∧
  ∀ s', rtc (staying_step server 1) waiting_server s' → at_ s' ≠ returned.
Proof.
  assert (rtc (any_step server) (serving process world) subscribed_server) as Hsub.
  { apply rtc_once. exists ev_begins. split; [done|].
    apply (at_subscribe server (serving process world) 1 (mkCaller None true) subscription 0 now world);
      done. }
  assert (rtc (staying_step server 1) subscribed_server waiting_server) as Hwait.
  { eapply rtc_l; [exists ev_signal; split; [done|]; split; [done|];
      apply (at_signal server subscribed_server)|].
    do 4 (eapply rtc_l; [exists ev_main; split; [done|]; split; [done|]; by apply at_main|]).
    apply rtc_refl. }
  split; [exact Hwait|]. intros s' Hs'.
  assert (rtc (staying_step server 1) subscribed_server s') as Hrun by (by etrans).
  destruct (subscriber_blocks_shutdown server process world subscribed_server 1 s' Hsub
    (ex_intro _ subscription (ex_intro _ 0 (ex_intro _ minBackoff eq_refl))) Hrun) as (_ & H3 & _).
  intros Hat. rewrite Hat in H3. simpl in H3. lia.
Defined.

(** ** A load test *)

Definition run_load (evs : list LoadEvent) (t : LoadTest) : option LoadTest :=
  foldl (λ t ev, t ← t; load_event server (mkCaller None true) (λ _, "error"%string) "load" 16 ev t)
    (Some t) evs.

Lemma run_load_reaches evs t :
  rtc (load_step server (mkCaller None true) (λ _, "error"%string) "load" 16) t
    (default t (run_load evs t)).
Proof.
  assert (∀ t', run_load evs t = Some t' →
    rtc (load_step server (mkCaller None true) (λ _, "error"%string) "load" 16) t t') as Hrun.
  { induction evs as [|ev evs IH] using rev_ind; intros t'; [by intros [= ->]|].
    unfold run_load. rewrite foldl_app. simpl. fold (run_load evs t).
    destruct (run_load evs t) as [t1|]; [|done]. simpl. intros Hev.
    eapply rtc_r; [by apply IH|]. by exists ev. }
  destruct (run_load evs t) as [t'|]; [by apply Hrun|done].
Qed.

(** Three messages are sent, the answer to the second is lost; one is acknowledged, one is
    dequeued when the test is cancelled. *)
Definition load_events : list LoadEvent :=
  [ ev_producer 0 answered 5 (env_at 100); ev_producer 0 answered 5 (env_at 100);
    ev_producer 0 answer_lost 5 (env_at 101); ev_producer 0 answered 5 (env_at 101);
    ev_consumer 0 answered 0 (env_at 102); ev_consumer 0 answered 0 (env_at 102);
    ev_consumer 0 answered 9 (env_at 102);
    ev_producer 0 answered 7 (env_at 103); ev_producer 0 answered 7 (env_at 103);
    ev_consumer 0 answered 0 (env_at 104); ev_cancel; ev_consumer 0 answered 0 (env_at 105);
    ev_producer 0 answered 0 (env_at 105) ].
Definition load_end : LoadTest :=
  default (start_load 1 1 world) (run_load load_events (start_load 1 1 world)).

Lemma load_test_accounts_witness :
  samples (enqueueStats load_end) = [5; 7] ∧ errors (enqueueStats load_end) = 1 ∧
  samples (dequeueAckStats load_end) = [9] ∧
  tally (claimed "load") (messages (w_db (lt_world load_end))) = 1 ∧
  ∃ sent gone, tally (of_topic "load") (messages (w_db (lt_world load_end))) + (1 + gone) = 2 + sent ∧
    0 ≤ sent ≤ 2 ∧ 0 ≤ gone ≤ 1.
Proof.
  split; [vm_compute; reflexivity|]. split; [vm_compute; reflexivity|].
  split; [vm_compute; reflexivity|]. split; [vm_compute; reflexivity|].
  destruct (load_test_accounts server (mkCaller None true) (λ _, "error"%string) "load" 16 1 1 world
    load_end world_in_step (run_load_reaches load_events _)) as [(sent & gone & Hc & Hs & Hg) _].
  exists sent, gone. revert Hc Hs Hg. cbv zeta.
  replace (count (dequeueAckStats load_end)) with 1 by (vm_compute; reflexivity).
  replace (count (enqueueStats load_end)) with 2 by (vm_compute; reflexivity).
  replace (errors (enqueueStats load_end)) with 1 by (vm_compute; reflexivity).
  replace (errors (dequeueAckStats load_end)) with 0 by (vm_compute; reflexivity).
  replace (tally p_busy (producers load_end)) with 1 by (vm_compute; reflexivity).
  replace (tally k_busy (consumers load_end)) with 1 by (vm_compute; reflexivity).
  replace (tally (of_topic "load") (messages (w_db world))) with 0 by (vm_compute; reflexivity).
  intros Hc Hs Hg. split_and!; lia.
Defined.

Lemma summary_percentiles_witness :
  ∃ p50 p99 lines, at_rank [30; 10; 20; 50; 40] 50 p50 ∧ at_rank [30; 10; 20; 50; 40] 99 p99 ∧
    p50 ≤ p99 ∧ summarise (λ _, 0) "Enqueue" (mkStats [30; 10; 20; 50; 40] 0 "") Second = Some lines.
Proof.
  destruct (summary_percentiles (λ _, 0) "Enqueue" (mkStats [30; 10; 20; 50; 40] 0 "") Second)
    as (p50 & p95 & p99 & first & last & H50 & _ & H99 & Hle & Hsum);
    [discriminate|simpl; lia|].
  exists p50, p99. eexists. split_and!; [exact H50|exact H99|lia|exact Hsum].
Defined.

(** The unit is chosen before the value is rounded. *)
Lemma unit_before_rounding : formatDuration 999960000 = "1000.0ms"%string.
Proof. vm_compute. reflexivity. Qed.

(** A test of no duration divides zero by zero: what is printed is up to the conversion of
    what is not a number. *)
Lemma no_duration_throughput out_of_range label :
  ∃ others, summarise out_of_range label no_stats 0 =
    Some ([label; "  Total:      " +:+ formatInt 0 +:+ " ops";
           "  Throughput: " +:+ (formatInt (out_of_range nan) +:+ "." +:+
             FormatInt (Z.rem (out_of_range nan) 10)) +:+ " ops/s"]%string ++ others).
Proof.
  assert (fdiv (of_int 0) (Seconds 0) = nan) as Hnan by (vm_compute; reflexivity).
  unfold summarise. change (Z.of_nat (length (samples no_stats))) with 0. rewrite Hnan.
  eexists. reflexivity.
Qed.

(** ** The widest columns *)

(** A configuration with the largest numbers that fit, on tables that start out empty: one
    that does not fit is refused. *)
Definition widest : TopicConfig :=
  mkTopicConfig "archive" (Some 2147483647) (Some 2147483647) None true (Some 2147483647) None.
Definition too_wide : TopicConfig :=
  mkTopicConfig "archive" (Some 2147483648) None None true None None.
Definition wide_calls : list (System.call * Env) :=
  [(do_UpsertTopicConfig widest, env_at 100); (do_UpsertTopicConfig too_wide, env_at 101);
   (do_Enqueue "archive" "x" None None, env_at 102); (do_Dequeue "archive" 0, env_at 103);
   (do_Ack (new_uuid (env_at 102) 0), env_at 104); (do_ReplayTopic "archive" None, env_at 105)].
Definition fresh_world : World := set_db empty_db world.

Lemma columns_keep_types_witness :
  let db := w_db (run_calls server wide_calls fresh_world) in
  column_types db ∧ size (messages db) = 1%nat ∧ size (message_log db) = 1%nat ∧
  resolveExpiresAt server (Some widest) 0 = Some (2147483647 * Second).
Proof.
  intros db. destruct (columns_keep_types server wide_calls fresh_world empty_column_types)
    as (Hdb & _ & Hdur & _).
  split; [exact Hdb|]. split; [vm_compute; reflexivity|]. split; [vm_compute; reflexivity|].
  assert (topic_config db !! "archive"%string = Some widest) as Hcfg by (vm_compute; reflexivity).
  destruct (Hdur "archive"%string widest 0 Hcfg) as [Hexp _].
  exact (Hexp 2147483647 eq_refl ltac:(discriminate)).
Defined.

(** ** A topic with a limit of two messages per second *)

(** The fixed-point float8 of [pg_model] is exact. *)
#[export] Instance float8_model : Float8 := {| f8_unit := 10 ^ 6; f8_val x := x |}.
#[export] Instance float8_model_laws : Float8Laws.
Proof.
  assert (∀ z d, (z * 10 ^ 6 * d) / 10 ^ 6 = z * d) as Hscale.
  { intros z d. replace (z * 10 ^ 6 * d) with (z * d * 10 ^ 6) by ring. by apply Z.div_mul. }
  split; simpl; intros *; rewrite ?Hscale; try done.
  - by rewrite Z.ltb_lt.
  - intros HB _ _ _. replace (_ - _) with 0 by lia. simpl.
    assert (0 ≤ 2 ^ B) by (apply Z.pow_nonneg; lia). lia.
  - nia.
Qed.

Definition limited : TopicConfig := mkTopicConfig "load" None None None false None (Some 2).
Definition limited_world : World := set_db (set_config {["load"%string := limited]} empty_db) world.
Definition dequeue_at (n : Z) : System.call * Env := (do_Dequeue "load" 0, env_at n).
Definition enqueue_at (n : Z) : System.call * Env :=
  (do_Enqueue "load" "x" None None, mkEnv (n * Second) (n * 10 ^ 6) (λ _, FormatInt n) ∅ ∅).
Definition limited_calls : list (System.call * Env) :=
  [enqueue_at 100; enqueue_at 101; enqueue_at 102; enqueue_at 103; enqueue_at 104;
   dequeue_at 104; dequeue_at 104; dequeue_at 104; dequeue_at 105; dequeue_at 105; dequeue_at 105].

Lemma throughput_is_limited_witness :
  handed_out "load" server limited_calls limited_world = 4 ∧
  2 ^ 50 * (10 ^ 6 * 4) ≤ 2 ^ 50 * (2 * (10 ^ 6 + (105000000 - 100000000))) + 11 * (2 ^ 5 * 10 ^ 6).
Proof.
  assert (handed_out "load" server limited_calls limited_world = 4) as H4 by (vm_compute; reflexivity).
  split; [exact H4|]. rewrite <-H4.
  apply (throughput_is_limited "load" server 2 100000000 105000000 5 limited_calls limited_world);
    [lia|lia|lia|lia|simpl; lia|reflexivity|exact I|].
  repeat (constructor; [simpl; split; [lia|by intros []]|]). constructor.
Defined.

(** The transaction of the second dequeue has begun before that of the first, and waited for
    it: it is refused, although a token and a message are there. *)
Lemma stale_clock_scenario :
  let w := run_calls server [enqueue_at 100; enqueue_at 101; dequeue_at 103] limited_world in
  whole_tokens "load" 2 (env_at 103) (w_db w) = 1 ∧
  (Dequeue server "load" 0 (env_at 102) w).1 = Err ErrNoMessage ∧
  (∃ msg, (Dequeue server "load" 0 (env_at 103) w).1 = Ok msg).
Proof.
  split; [vm_compute; reflexivity|]. split; [vm_compute; reflexivity|].
  eexists. vm_compute. reflexivity.
Qed.
